(* ===== verification/_CoqProject ===== *)
-Q . S2P
Prelude.v
Status.v
OrderedMap.v
Text.v
Kernel.v
SampleKernel.v
ByteQueue.v
RingBuf.v
FdGuard.v
Owner.v
Scripted.v
Sock.v
Epoll.v
Conn.v
Parser.v
ParserInv.v
Builder.v
Forwarder.v
Session.v
Stream.v
Server.v
ServerInv.v
Footprint.v
Framing.v
Exchange.v
Serving.v
Arrival.v
Liveness.v
Threads.v
Delivery.v
Broadcast.v
Api.v
Demo.v
Locks.v
