(* ===== verification/Prelude.v ===== *)
(** * rtsp_forward: a verified model of the RTSP forwarding library

    rtsp_forward (src/) takes RTP packets from an application and forwards each to
    every RTSP client that is playing, over the client's TCP connection, interleaved
    with the RTSP messages, or over UDP.  One thread runs the event loop and answers
    requests, another calls [rtsp_forward_send_rtp].  This development translates the
    library's own code, every operation of it that changes state, and its demo
    program into executable definitions, and proves what makes them correct.

    ** The parts and where they are modelled

    - Prelude.v: bytes, machine integers, blocks of memory ([mem_read], [mem_write]
      are [None] outside a block), searching, tactics and hints.
    - Status.v: [StatusCode], [Status] and the constants (src/src/util).
    - OrderedMap.v: [std::map], a list sorted by key, since the program iterates over
      its maps.  Text.v: [isspace], [strtol], [std::to_string], ["%lx"].
    - Kernel.v: the system calls, as an oracle of the calls made so far (class
      [Kernel]) with its documented bounds (class [KernelLaws]); the monad [M] of
      effectful code, which threads the trace of calls and [errno] and may end in a
      [fault]; the weakest preconditions [wp] (no fault) and [wlp] (if no fault).
      SampleKernel.v and Scripted.v have the concrete kernels of the witnesses.
    - ByteQueue.v: what a connection asks of its buffers, as a class of operations and
      laws over an abstract FIFO.  RingBuf.v: src/src/buffer, and the instance.
    - FdGuard.v, Sock.v, Epoll.v, Conn.v: src/src/net.  [EpollLoop.Run] is generic in
      the client's state and callbacks.  A connection is two byte queues, a
      descriptor guard and two counters.
    - Owner.v: descriptors as a ledger.  [owns m Post L] runs [m] from the ledger [L];
      each file after it has one [owns_*] lemma per operation, which also says which
      faults the operation can end in.
    - Parser.v, ParserInv.v, Builder.v: src/src/protocol.  Forwarder.v: src/src/rtp.
    - Session.v, Server.v: src/src/core.  Stream.v: what a session's client receives.
      ServerInv.v: the invariant [server_ok].  Footprint.v: which connections a handler
      reads and writes ([does]).  Framing.v: the loop over the input.  Exchange.v: a
      client's requests, from their text to the replies.  Serving.v: the other handlers
      and the event loop.  Arrival.v: requests that arrive in pieces, among the events
      of other clients.  Liveness.v: how sessions end.
    - Threads.v: the stream thread and the others, as a step relation on the state of
      the server.  Delivery.v: the client's side of it, a machine that requests and
      packets happen to.  Broadcast.v: a whole broadcast.  Locks.v: the mutexes each operation takes and the memory it shares
      with other threads, as programs ([Locking]) whose runs interleave.
    - Api.v: src/src/api, src/include and src/src/util/log.h.  Demo.v: src/demo.

    A class becomes a [Record] with the members' names, an operation a [Definition]
    in a [Module] of the class's name, taking the object and returning it changed.
    A reference to the server in a session is the arguments the session uses: the SDP
    text and a sequence number.  [sessions_] maps a descriptor to its session, and a
    [shared_ptr] a handler holds designates the stored session: handlers put the
    session back after each change.  The vector of [shared_ptr]s of a broadcast
    outlives handlers and is part of the server's state ([snapshot_], [detached_]):
    a session it points to is destroyed with it, not when it leaves the map.  The
    lambdas given to the event loop are the constructors of [callback], run by
    [RtspServer.invoke].

    ** What the theorems show

    - Whole program: [Api.handle_life_conserves] (descriptors balance over any use of
      a handle), [Delivery.client_gets_replies_and_packets] (what a client receives,
      however its requests, the packets and the events of other clients interleave),
      [Api.api_life_cycle], [Api.create_outcomes]; for the demo program
      [Demo.demo_closes_everything] and [Demo.interrupt_ends_demo] (which interrupts
      end it, and which are lost).
    - Threads: [Threads.interleaving_safe] and [Threads.tcp_turn_is_current], over
      every interleaving; two races that are there,
      [Threads.udp_packet_reaches_other_client] and [Threads.stop_before_run_is_lost].
      [Locks.no_deadlock]; [Locks.contended_exactly], which memory two threads can
      race on; [Locks.interrupt_safe_outside_mutexes], when a signal handler that stops
      the server is safe.
    - Server: [Serving.Run_safe] (invariant [server_ok] and descriptor ledger over any
      run of the event loop), [Arrival.conversation_in_any_pieces] (what a client's
      requests lead to, in whatever pieces they arrive, and whatever other clients do
      in between), [Footprint.clients_are_isolated], [Framing.input_served_in_order],
      [Framing.input_loop_terminates] and [Framing.request_turn_contiguous] (framing,
      and the request that wraps), [Exchange.exchange_in_order] (what the texts of a
      client's requests lead to: states and replies, in order),
      [Serving.OnNewConnection_admission], [Serving.OnRead_without_data],
      [Serving.CheckTimeouts_sweep], [Broadcast.BroadcastRtp_serves_players] (whom a
      broadcast reaches, what it counts), [Serving.broadcast_one_accounts],
      [Serving.oversized_packets_disconnect]; [Liveness.torn_down_is_removed] and
      [Liveness.stale_event_closes_newcomer], an event that outlives its session.
    - Session: the protocol table ([Session.HandleRequest_protocol]), SETUP, UDP
      forwarding, session identifiers; [Stream.session_stream_framed], whole messages
      in order over any sequence of uses.
    - Protocol: parsing and printing are inverse, when parsing succeeds, the type of
      what is parsed ([ParserInv.Parse_typed]), on which texts there is a result
      ([ParserInv.Parse_terminates]); what the builder prints is read back.
    - Connection and forwarding: the output stream -- what the kernel accepted, then
      what is buffered -- as the observable state; every outcome of [Send], [SendV],
      [Flush], [Recv]; nothing is refused when the kernel is [willing] and there is
      room ([assured]), which the theorems above carry up to the
      replies and the packets; whole frames in [Forwarder.ForwardTcp_frame].
    - Ring buffer: [RingBuf.ring_refines_fifo], a refinement of the abstract FIFO for
      any sequence of operations, and the bounds of its raw pointers.
    - Event loop: [Epoll.events_translated].

    ** Assumptions, bounds, fuel

    [KernelLaws]: a transfer reports at most what was asked, a received block has the
    reported length, an allocated block the size asked for.  [FreshDescriptors], where
    it is named: the kernel gives no descriptor that is open.  The loops over an input
    carry fuel: the parser's is the length of its text, the server's the size of the
    input buffer, the search's the positions there are; running out is the fault
    [OutOfFuel], which no theorem allows, so they are enough.  [run_loop] is bounded
    by the number of turns of the event loop, a parameter.  A run can end in two
    faults: an abort for want of memory, and undefined behaviour [InParser], which
    has the two causes exhibited, the wrapped request of
    [Framing.request_turn_contiguous] and the overflow of [ParserInv.Parse_terminates].
    Buffer sizes are below 2^63, descriptions shorter than 2^62.

    ** What is not modelled

    What is logged, and what the demo program prints.  In Threads.v a handler of the
    event loop and a call of the interface other than [rtsp_forward_send_rtp] are one
    step; in Demo.v the event loop is in steps, a handler is one, and an interrupt falls
    between them.  Locks.v has the steps inside them, but no data: what depends on data is a
    choice, so that it has every order the program has and more; the memory of a
    session's destruction, which falls to whoever drops the last [shared_ptr], and of
    [Start] is left out, and memory is sequentially consistent.  Failure to create a
    thread is not modelled, nor are the build files.

    ** What could be added

    [Arrival.conversation_in_any_pieces] and [Delivery.client_gets_replies_and_packets]
    are about clients over TCP whose requests do not wrap around the end of the input
    buffer: for one that does, within the parser's limit, the program reads outside
    its memory, so its outcome is the fault of [Framing.request_turn_contiguous].  The
    write buffer has to have room for all that comes: a frame that does not fit can be
    torn ([Forwarder.ForwardTcp_frame], [Conn.SendV_outcomes]).  They count what is
    sent on the client's connection by its own session; a packet for a UDP client that
    left can be sent there too ([Threads.udp_packet_reaches_other_client]).  SETUP for
    UDP is [Session.HandleSetup_udp_outcome], one request at a time.  The data of
    Threads.v at the steps of Locks.v would need the handlers in steps as well. *)
From Stdlib Require Export ZArith Lia Ascii String.
From stdpp Require Export base tactics option list strings.

#[export] Set Default Goal Selector "!".

(** ** Bytes and machine integers *)

(** A byte of a C++ [char] buffer or [std::string]; a buffer or string is a
    list of them.  [lit] writes a literal. *)
Abbreviation byte := ascii.
Abbreviation bytes := (list ascii).

Definition lit (s : string) : bytes := String.list_ascii_of_string s.
Definition CR : byte := "013"%char.
Definition LF : byte := "010"%char.
Definition NUL : byte := "000"%char.
Definition crlf : bytes := [CR; LF].

Definition byte_val (b : byte) : Z := Z.of_N (N_of_ascii b).

#[global] Open Scope Z_scope.

(** Conversions to the widths the program uses: [size_t]/[uint64_t], [int],
    [uint16_t], [uint8_t]. *)
Definition u64 (z : Z) : Z := z mod 2 ^ 64.
Definition u16 (z : Z) : Z := z mod 2 ^ 16.
Definition u8 (z : Z) : Z := z mod 2 ^ 8.
Definition i32 (z : Z) : Z := (z + 2 ^ 31) mod 2 ^ 32 - 2 ^ 31.
Definition INT_MAX : Z := 2 ^ 31 - 1.
Definition INT_MIN : Z := - 2 ^ 31.
Definition LONG_MAX : Z := 2 ^ 63 - 1.
Definition LONG_MIN : Z := - 2 ^ 63.

(** [static_cast<char>(z)] *)
Definition byte_of (z : Z) : byte := ascii_of_N (Z.to_N (u8 z)).

Lemma u64_small z : 0 <= z < 2 ^ 64 -> u64 z = z.
Proof. intros. by apply Z.mod_small. Qed.

Lemma i32_small z : INT_MIN <= z <= INT_MAX -> i32 z = z.
Proof. unfold i32, INT_MIN, INT_MAX. intros. rewrite Z.mod_small; lia. Qed.

Lemma i32_range z : INT_MIN <= i32 z <= INT_MAX.
Proof.
  unfold i32, INT_MIN, INT_MAX.
  pose proof (Z.mod_pos_bound (z + 2 ^ 31) (2 ^ 32) ltac:(lia)). lia.
Qed.

Lemma byte_val_range b : 0 <= byte_val b < 256.
Proof. unfold byte_val. pose proof (N_ascii_bounded b). lia. Qed.

Lemma byte_val_of z : byte_val (byte_of z) = u8 z.
Proof.
  unfold byte_val, byte_of, u8.
  pose proof (Z.mod_pos_bound z (2 ^ 8) ltac:(lia)).
  rewrite N_ascii_embedding; lia.
Qed.

Lemma byte_val_inj a b : byte_val a = byte_val b -> a = b.
Proof.
  unfold byte_val. intros H%N2Z.inj.
  by rewrite <-(ascii_N_embedding a), <-(ascii_N_embedding b), H.
Qed.

(** [nowrap] removes the wrap-around of [size_t] sums that stay in range. *)
Ltac nowrap := repeat (rewrite u64_small by lia).

(** [zcases] splits on every boolean comparison of the goal. *)
Ltac zcases :=
  repeat match goal with
  | |- context [?a <? ?b] => destruct (Z.ltb_spec a b)
  | |- context [?a <=? ?b] => destruct (Z.leb_spec a b)
  | |- context [?a =? ?b] => destruct (Z.eqb_spec a b)
  end; simpl; try lia.

(** ** Lengths and slices indexed by [Z] *)

Definition len {A} (l : list A) : Z := Z.of_nat (length l).
Definition ztake {A} (n : Z) (l : list A) : list A := take (Z.to_nat n) l.
Definition zdrop {A} (n : Z) (l : list A) : list A := drop (Z.to_nat n) l.
Definition zget {A} (l : list A) (i : Z) : option A :=
  if 0 <=? i then l !! Z.to_nat i else None.

#[global] Arguments lit : simpl never.
#[global] Arguments len : simpl never.
#[global] Arguments ztake : simpl never.
#[global] Arguments zdrop : simpl never.
#[global] Arguments zget : simpl never.
#[global] Arguments u64 : simpl never.
#[global] Arguments i32 : simpl never.

Section lengths.
Context {A : Type}.
Implicit Types l k : list A.

Lemma len_nil : len (@nil A) = 0.
Proof. done. Qed.

Lemma len_cons x l : len (x :: l) = 1 + len l.
Proof. unfold len. simpl. lia. Qed.

Lemma len_app l k : len (l ++ k) = len l + len k.
Proof. unfold len. rewrite length_app. lia. Qed.

Lemma len_ztake n l : len (ztake n l) = Z.min (Z.max 0 n) (len l).
Proof. unfold len, ztake. rewrite length_take. lia. Qed.

Lemma len_zdrop n l : len (zdrop n l) = len l - Z.min (Z.max 0 n) (len l).
Proof. unfold len, zdrop. rewrite length_drop. lia. Qed.

Lemma len_insert i x l : len (<[i:=x]> l) = len l.
Proof. unfold len. by rewrite length_insert. Qed.

Lemma len_nonneg l : 0 <= len l.
Proof. unfold len. lia. Qed.

Lemma len_0 l : len l = 0 <-> l = [].
Proof. unfold len. destruct l; simpl; split; by try lia. Qed.

Lemma ztake_zdrop n l : ztake n l ++ zdrop n l = l.
Proof. apply take_drop. Qed.

Lemma ztake_all n l : len l <= n -> ztake n l = l.
Proof. unfold len, ztake. intros. apply take_ge. lia. Qed.

Lemma zdrop_all n l : len l <= n -> zdrop n l = [].
Proof. unfold len, zdrop. intros. apply drop_ge. lia. Qed.

Lemma ztake_0 n l : n <= 0 -> ztake n l = [].
Proof. unfold ztake. intros. by replace (Z.to_nat n) with 0%nat by lia. Qed.

Lemma zdrop_0 n l : n <= 0 -> zdrop n l = l.
Proof. unfold zdrop. intros. by replace (Z.to_nat n) with 0%nat by lia. Qed.

Lemma ztake_app_l n l k : n <= len l -> ztake n (l ++ k) = ztake n l.
Proof. unfold ztake, len. intros. apply take_app_le. lia. Qed.

Lemma ztake_app_r n l k : len l <= n -> ztake n (l ++ k) = l ++ ztake (n - len l) k.
Proof.
  unfold ztake, len. intros. rewrite take_app_ge by lia. do 2 f_equal. lia.
Qed.

Lemma zdrop_app_l n l k : n <= len l -> zdrop n (l ++ k) = zdrop n l ++ k.
Proof. unfold zdrop, len. intros. apply drop_app_le. lia. Qed.

Lemma zdrop_app_r n l k : len l <= n -> zdrop n (l ++ k) = zdrop (n - len l) k.
Proof.
  unfold zdrop, len. intros. rewrite drop_app_ge by lia. f_equal. lia.
Qed.

Lemma zdrop_zdrop m n l : 0 <= m -> 0 <= n -> zdrop m (zdrop n l) = zdrop (n + m) l.
Proof. unfold zdrop. intros. rewrite drop_drop. f_equal. lia. Qed.

Lemma ztake_ztake m n l : ztake m (ztake n l) = ztake (Z.min m n) l.
Proof.
  unfold ztake. rewrite take_take. f_equal. lia.
Qed.

Lemma zdrop_ztake m n l : 0 <= m -> m <= n -> zdrop m (ztake n l) = ztake (n - m) (zdrop m l).
Proof.
  unfold ztake, zdrop. intros. rewrite skipn_firstn_comm. f_equal. lia.
Qed.

Lemma ztake_segments m n l :
  0 <= m -> m <= n -> ztake m l ++ ztake (n - m) (zdrop m l) = ztake n l.
Proof.
  intros. rewrite <-(ztake_zdrop m (ztake n l)), ztake_ztake, zdrop_ztake by lia.
  by rewrite Z.min_l by lia.
Qed.

Lemma zget_app_l i l k : i < len l -> zget (l ++ k) i = zget l i.
Proof.
  unfold zget, len. destruct (Z.leb_spec 0 i); [|done]. intros.
  apply lookup_app_l. lia.
Qed.

Lemma zget_app_r i l k : len l <= i -> zget (l ++ k) i = zget k (i - len l).
Proof.
  unfold zget, len. intros.
  rewrite !(proj2 (Z.leb_le _ _)) by lia.
  rewrite lookup_app_r by lia. f_equal. lia.
Qed.

Lemma zget_ztake i n l : i < n -> zget (ztake n l) i = zget l i.
Proof.
  unfold zget, ztake. destruct (Z.leb_spec 0 i); [|done]. intros.
  apply lookup_take_lt. lia.
Qed.

Lemma zget_ztake_ge i n l : n <= i -> zget (ztake n l) i = None.
Proof.
  unfold zget, ztake. destruct (Z.leb_spec 0 i); [|done]. intros.
  apply lookup_take_ge. lia.
Qed.

Lemma zget_zdrop i n l : 0 <= n -> 0 <= i -> zget (zdrop n l) i = zget l (n + i).
Proof.
  unfold zget, zdrop. intros.
  rewrite !(proj2 (Z.leb_le _ _)) by lia.
  rewrite lookup_drop. f_equal. lia.
Qed.

Lemma zget_Some_lt i l x : zget l i = Some x -> 0 <= i < len l.
Proof.
  unfold zget, len. destruct (Z.leb_spec 0 i); [|done].
  intros ?%lookup_lt_Some. lia.
Qed.

Lemma zget_is_Some i l : 0 <= i < len l -> is_Some (zget l i).
Proof.
  unfold zget, len. intros.
  rewrite (proj2 (Z.leb_le _ _)) by lia.
  apply lookup_lt_is_Some_2. lia.
Qed.

Lemma zget_None_ge i l : len l <= i -> zget l i = None.
Proof.
  unfold zget, len. intros. destruct (Z.leb_spec 0 i); [|done].
  apply lookup_ge_None_2. lia.
Qed.

Lemma zget_0_cons x l : zget (x :: l) 0 = Some x.
Proof. done. Qed.

Lemma zget_cons x l i : 0 < i -> zget (x :: l) i = zget l (i - 1).
Proof.
  intros. change (x :: l) with ([x] ++ l).
  by rewrite zget_app_r by (rewrite len_cons, len_nil; lia).
Qed.

(** Lists are equal when they have the same length and the same elements. *)
Lemma zget_eq l k :
  len l = len k -> (forall i, 0 <= i < len l -> zget l i = zget k i) -> l = k.
Proof.
  intros Hlen H. apply list_eq. intros i.
  destruct (decide (i < length l)%nat).
  - specialize (H (Z.of_nat i)). unfold zget, len in *.
    rewrite (proj2 (Z.leb_le _ _)), Nat2Z.id in H by lia. apply H. lia.
  - unfold len in *. rewrite !lookup_ge_None_2; [done|lia..].
Qed.
End lengths.
#[global] Arguments len_nil : clear implicits.

Create Rewrite HintDb lens.
#[export] Hint Rewrite @len_nil @len_cons @len_app @len_ztake @len_zdrop @len_insert : lens.

(** [llia]: linear arithmetic after computing the lengths of list expressions. *)
Ltac llia := autorewrite with lens in *; unfold len in *; lia.

(** ** Memory

    A block of memory is its list of bytes; a pointer argument is [None] for
    a null pointer, or the bytes readable from it on.  Reading or writing
    outside the block is undefined behaviour: the result is [None]. *)
Abbreviation ptr := (option (list ascii)).

(** The [n] bytes from offset [off] on. *)
Definition mem_read (m : bytes) (off n : Z) : option bytes :=
  if (0 <=? off) && (0 <=? n) && (off + n <=? len m)
  then Some (ztake n (zdrop off m)) else None.

(** [memcpy(m + off, src, len src)] *)
Definition mem_write (m : bytes) (off : Z) (src : bytes) : option bytes :=
  if (0 <=? off) && (off + len src <=? len m)
  then Some (ztake off m ++ src ++ zdrop (off + len src) m) else None.

Lemma mem_read_Some m off n :
  0 <= off -> 0 <= n -> off + n <= len m ->
  mem_read m off n = Some (ztake n (zdrop off m)).
Proof.
  intros. unfold mem_read.
  by rewrite !(proj2 (Z.leb_le _ _)) by lia.
Qed.

Lemma mem_read_inv m off n r :
  mem_read m off n = Some r ->
  0 <= off /\ 0 <= n /\ off + n <= len m /\ r = ztake n (zdrop off m).
Proof.
  unfold mem_read. intros.
  destruct (Z.leb_spec 0 off), (Z.leb_spec 0 n), (Z.leb_spec (off + n) (len m));
    naive_solver.
Qed.

Lemma mem_write_Some m off src :
  0 <= off -> off + len src <= len m ->
  mem_write m off src = Some (ztake off m ++ src ++ zdrop (off + len src) m).
Proof.
  intros. unfold mem_write.
  by rewrite !(proj2 (Z.leb_le _ _)) by lia.
Qed.

Lemma len_mem_write m off src m' : mem_write m off src = Some m' -> len m' = len m.
Proof.
  unfold mem_write. intros.
  destruct (Z.leb_spec 0 off), (Z.leb_spec (off + len src) (len m)); simplify_eq/=.
  llia.
Qed.

Lemma zget_mem_write m off src m' i :
  mem_write m off src = Some m' -> 0 <= i ->
  zget m' i = if (off <=? i) && (i <? off + len src)
              then zget src (i - off) else zget m i.
Proof.
  unfold mem_write. intros Hw Hi.
  destruct (Z.leb_spec 0 off), (Z.leb_spec (off + len src) (len m)); simplify_eq/=.
  pose proof (len_nonneg src).
  assert (Hl : len (ztake off m) = off) by (rewrite len_ztake; lia).
  destruct (Z.leb_spec off i); simpl.
  - rewrite zget_app_r, Hl by lia.
    destruct (Z.ltb_spec i (off + len src)).
    + by rewrite zget_app_l by lia.
    + rewrite zget_app_r, zget_zdrop by lia. f_equal. lia.
  - rewrite zget_app_l, zget_ztake by lia. done.
Qed.

(** [a mod c] for an index at most once around. *)
Lemma mod_wrap a c : 0 < c -> 0 <= a < 2 * c -> a mod c = if a <? c then a else a - c.
Proof.
  intros. destruct (Z.ltb_spec a c).
  - by apply Z.mod_small; lia.
  - symmetry. apply Z.mod_unique with 1; lia.
Qed.

(** ** Searching *)

(** The offset of the first byte [c] in [l]. *)
Fixpoint index_of (c : byte) (l : bytes) : option Z :=
  match l with
  | [] => None
  | x :: l => if Ascii.eqb x c then Some 0 else Z.succ <$> index_of c l
  end.

(** [p] stands at the head of [l]. *)
Fixpoint starts_with (p l : bytes) : bool :=
  match p, l with
  | [], _ => true
  | _, [] => false
  | x :: p, y :: l => Ascii.eqb x y && starts_with p l
  end.

(** The offset of the first occurrence of [p] in [l]. *)
Fixpoint find_sub (p l : bytes) : option Z :=
  if starts_with p l then Some 0
  else match l with
       | [] => None
       | _ :: l => Z.succ <$> find_sub p l
       end.

Lemma index_of_range c l i : index_of c l = Some i -> 0 <= i < len l.
Proof.
  revert i. induction l as [|x l IH]; intros i; simpl; [done|].
  rewrite len_cons. pose proof (len_nonneg l).
  destruct (Ascii.eqb x c); [intros; simplify_eq; lia|].
  intros (j & ?%IH & ->)%fmap_Some. lia.
Qed.

Lemma index_of_app c l k :
  index_of c (l ++ k) =
  match index_of c l with
  | Some i => Some i
  | None => Z.add (len l) <$> index_of c k
  end.
Proof.
  induction l as [|x l IH]; simpl.
  { destruct (index_of c k); simpl; [f_equal; by rewrite len_nil|done]. }
  destruct (Ascii.eqb x c); [done|]. rewrite IH, len_cons.
  case_match; simpl; [done|].
  destruct (index_of c k); simpl; [f_equal; lia|done].
Qed.

Lemma find_sub_nil_l l : find_sub [] l = Some 0.
Proof. by destruct l. Qed.

Lemma starts_with_spec p l : starts_with p l = true <-> exists k, l = p ++ k.
Proof.
  revert l. induction p as [|x p IH]; intros l; simpl.
  { split; [by exists l|done]. }
  destruct l as [|y l]; simpl.
  { split; [done|]. by intros [k ?]. }
  rewrite andb_true_iff, Ascii.eqb_eq, IH.
  split; [intros [-> [k ->]]; by exists k|intros [k ?]; simplify_eq; eauto].
Qed.

Lemma find_sub_Some p l i :
  find_sub p l = Some i -> 0 <= i /\ exists k, zdrop i l = p ++ k.
Proof.
  revert i. induction l as [|x l IH]; intros i; simpl.
  - destruct (starts_with p []) eqn:E; [|done]. intros. simplify_eq.
    apply starts_with_spec in E as [k ?]. split; [lia|]. by exists k.
  - destruct (starts_with p (x :: l)) eqn:E.
    + intros. simplify_eq. apply starts_with_spec in E as [k ?].
      split; [lia|]. by exists k.
    + intros (j & [? [k ?]]%IH & ->)%fmap_Some. split; [lia|]. exists k.
      unfold zdrop in *. replace (Z.to_nat (Z.succ j)) with (S (Z.to_nat j)) by lia.
      done.
Qed.

Lemma find_sub_ex p l : is_Some (find_sub p l) <-> exists a b, l = a ++ p ++ b.
Proof.
  split.
  - intros [i Hi]. apply find_sub_Some in Hi as (? & k & Hk).
    exists (ztake i l), k. by rewrite <-Hk, ztake_zdrop.
  - intros (a & b & ->). induction a as [|c a IH].
    + assert (starts_with p (p ++ b) = true) as Hs by (apply starts_with_spec; eauto).
      destruct (p ++ b); simpl; rewrite Hs; by eexists.
    + simpl. case_match; [by eexists|]. destruct IH as [i ->]. by eexists.
Qed.

(** [find_sub] gives the first occurrence. *)
Lemma find_sub_first p l i a b : find_sub p l = Some i -> l = a ++ p ++ b -> i <= len a.
Proof.
  revert i a. induction l as [|x l IH]; intros i a; simpl.
  - case_match; [|done]. intros [= <-] _. apply len_nonneg.
  - case_match eqn:Hs; [intros [= <-] _; apply len_nonneg|].
    intros (j & Hj & ->)%fmap_Some. destruct a as [|y a]; simpl.
    + intros Hl. assert (starts_with p (x :: l) = true) by (apply starts_with_spec; eauto).
      congruence.
    + intros [= -> Hl]. rewrite len_cons. specialize (IH j a Hj Hl). lia.
Qed.

Lemma find_sub_bound p l i : find_sub p l = Some i -> i + len p <= len l.
Proof.
  destruct p as [|x p].
  { rewrite find_sub_nil_l. intros. simplify_eq.
    pose proof (len_nonneg l). llia. }
  intros [? [k Hk]]%find_sub_Some. pose proof (f_equal len Hk) as Hl.
  autorewrite with lens in Hl. pose proof (len_nonneg k). pose proof (len_nonneg p).
  autorewrite with lens. lia.
Qed.

Lemma find_sub_short p l : len l < len p -> find_sub p l = None.
Proof.
  intros. destruct (find_sub p l) eqn:E; [|done].
  pose proof (find_sub_bound p l z E). pose proof (find_sub_Some p l z E) as [? _]. lia.
Qed.

Lemma starts_with_ztake p l n : len p <= n -> starts_with p (ztake n l) = starts_with p l.
Proof.
  intros. apply eq_true_iff_eq. rewrite !starts_with_spec. split; intros [k Hk].
  - exists (k ++ zdrop n l). rewrite <-(ztake_zdrop n l), Hk at 1. by rewrite <-app_assoc.
  - subst l. exists (ztake (n - len p) k). by rewrite ztake_app_r by lia.
Qed.

(** A match is not lost, nor found earlier, when more text follows. *)
Lemma find_sub_app p l k i : find_sub p l = Some i -> find_sub p (l ++ k) = Some i.
Proof.
  assert (Hstart : forall l, len p <= len l -> starts_with p (l ++ k) = starts_with p l).
  { intros a Ha. by rewrite <-(starts_with_ztake p (a ++ k) (len a)), ztake_app_l, ztake_all. }
  intros Hi. pose proof (find_sub_bound _ _ _ Hi) as Hb. pose proof (find_sub_Some _ _ _ Hi) as [Hi0 _].
  revert i Hi Hb Hi0. induction l as [|x l IH]; intros i.
  { destruct p; [|done]. intros [= <-] _ _. apply find_sub_nil_l. }
  cbn [find_sub app]. intros Hi Hb Hi0. change (x :: l ++ k) with ((x :: l) ++ k).
  rewrite Hstart by lia. destruct (starts_with p (x :: l)); [done|].
  apply fmap_Some in Hi as (j & Hj & ->). apply fmap_Some. exists j. split; [|done].
  pose proof (find_sub_bound _ _ _ Hj). pose proof (find_sub_Some _ _ _ Hj) as [? _].
  by apply IH.
Qed.

Lemma find_sub_step p l :
  l <> [] ->
  find_sub p l = if starts_with p l then Some 0 else Z.succ <$> find_sub p (zdrop 1 l).
Proof. by destruct l. Qed.

Lemma mjoin_cons {A} (x : list A) l : mjoin (x :: l) = x ++ mjoin l.
Proof. done. Qed.

Lemma zdrop_cons {A} i (l : list A) x :
  zget l i = Some x -> zdrop i l = x :: zdrop (i + 1) l.
Proof.
  intros Hx. pose proof (zget_Some_lt _ _ _ Hx). revert Hx. unfold zget, zdrop.
  rewrite (proj2 (Z.leb_le 0 i)) by lia. intros Hx.
  replace (Z.to_nat (i + 1)) with (S (Z.to_nat i)) by lia. by apply drop_S.
Qed.
