(* ===== verification/Status.v ===== *)
(** * Status codes (src/src/util/status.h) and constants (src/src/util/constants.h)

    [StatusCode] and [Status] are the enum and the class; the factories of the
    class are the definitions of Module [Status]. *)
From S2P Require Import Prelude.

Inductive StatusCode :=
  | kOk | kError | kInvalidArgument | kNetworkError | kClosed | kBufferFull
  | kParseError | kNotImplemented | kTimeout | kLimitExceeded
  | kFailedPrecondition | kResourceExhausted.

#[export] Instance StatusCode_eq_dec : EqDecision StatusCode.
Proof. solve_decision. Defined.

(** The enum's integer values. *)
Definition StatusCode_value (c : StatusCode) : Z :=
  match c with
  | kOk => 0 | kError => -1 | kInvalidArgument => -2 | kNetworkError => -3
  | kClosed => -4 | kBufferFull => -5 | kParseError => -6
  | kNotImplemented => -7 | kTimeout => -8 | kLimitExceeded => -9
  | kFailedPrecondition => -10 | kResourceExhausted => -11
  end.

Record status := mkStatus { code_ : StatusCode; message_ : bytes }.

#[export] Instance status_eq_dec : EqDecision status.
Proof. solve_decision. Defined.

Module Status.
(** [Status()], [Status(code)], [Status(code, message)] *)
Definition Status : status := mkStatus kOk [].
Definition Status_of (code : StatusCode) : status := mkStatus code [].
Definition Status_with (code : StatusCode) (message : bytes) : status := mkStatus code message.

(** [Status(Status&& other)]: the new status and [other] afterwards, whose moved-from
    text is [left], whatever the library leaves there. *)
Definition move_construct (left : bytes) (other : status) : status * status :=
  (mkStatus (code_ other) (message_ other), mkStatus (code_ other) left).

(** [s = std::move(other)] for two distinct statuses; assigning to itself does
    nothing. *)
Definition move_assign (left : bytes) (s other : status) : status * status :=
  (mkStatus (code_ other) (message_ other), mkStatus (code_ other) left).

Definition Ok : status := mkStatus kOk [].
Definition Error (m : bytes) : status := mkStatus kError m.
Definition InvalidArgument (m : bytes) : status := mkStatus kInvalidArgument m.
Definition NetworkError (m : bytes) : status := mkStatus kNetworkError m.
Definition Closed (m : bytes) : status := mkStatus kClosed m.
Definition BufferFull (m : bytes) : status := mkStatus kBufferFull m.
Definition ParseError (m : bytes) : status := mkStatus kParseError m.
Definition NotImplemented (m : bytes) : status := mkStatus kNotImplemented m.
Definition Timeout (m : bytes) : status := mkStatus kTimeout m.
Definition LimitExceeded (m : bytes) : status := mkStatus kLimitExceeded m.
Definition FailedPrecondition (m : bytes) : status := mkStatus kFailedPrecondition m.
Definition ResourceExhausted (m : bytes) : status := mkStatus kResourceExhausted m.

Definition ok (s : status) : bool := bool_decide (code_ s = kOk).
Definition code (s : status) : StatusCode := code_ s.
Definition message (s : status) : bytes := message_ s.
Definition set_message (s : status) (m : bytes) : status := mkStatus (code_ s) m.

Definition ToString (s : status) : bytes :=
  match code_ s with
  | kOk => lit "OK"
  | kError => lit "Error: " ++ message_ s
  | kInvalidArgument => lit "InvalidArgument: " ++ message_ s
  | kNetworkError => lit "NetworkError: " ++ message_ s
  | kClosed => lit "Closed: " ++ message_ s
  | kBufferFull => lit "BufferFull: " ++ message_ s
  | kParseError => lit "ParseError: " ++ message_ s
  | kNotImplemented => lit "NotImplemented: " ++ message_ s
  | kTimeout => lit "Timeout: " ++ message_ s
  | kLimitExceeded => lit "LimitExceeded: " ++ message_ s
  | kFailedPrecondition => lit "FailedPrecondition: " ++ message_ s
  | kResourceExhausted => lit "ResourceExhausted: " ++ message_ s
  end.
End Status.

(** ** Constants *)

Definition kDefaultBindIp : bytes := lit "0.0.0.0".
Definition kDefaultPort : Z := 554.
Definition kDefaultMaxSessions : Z := 10.
Definition kDefaultBufferSize : Z := 65536.
Definition kListenBacklog : Z := 128.
Definition kEpollEventsSize : Z := 64.
Definition kEpollWaitTimeoutMs : Z := 1000.
Definition kMaxRtspRequestDataLen : Z := 4096.
Definition kRtspVersion : bytes := lit "RTSP/1.0".
Definition kRtspOptionsMethods : bytes :=
  lit "OPTIONS, DESCRIBE, SETUP, PLAY, PAUSE, TEARDOWN, GET_PARAMETER, SET_PARAMETER".
Definition kRtspPlayRange : bytes := lit "npt=0.000-".
Definition kContentTypeSdp : bytes := lit "application/sdp".
Definition kContentTypeText : bytes := lit "text/plain".
Definition kRtpInterleavedMarker : byte := "$"%char.
Definition kDefaultRtpChannel : Z := 0.
Definition kDefaultRtcpChannel : Z := 1.
Definition kMaxRtpPacketSize : Z := 2048.
Definition kDefaultConnectionTimeoutSec : Z := 30.
Definition kDefaultSessionTimeoutSec : Z := 60.
Definition kTimeoutCheckIntervalSec : Z := 1.
Definition kMaxConsecutiveDrops : Z := 100.
