(* ===== verification/OrderedMap.v ===== *)
(** * [std::map]

    The program iterates over its maps (response headers, sessions), and a
    [std::map] iterates in key order, so maps are association lists sorted by
    key: [om_find], [om_set] ([m[k] = v]) and [om_erase] walk the list by the key
    order only, as the library does.  The order is a class, with the instances
    of the two key types used: [int] and [std::string]. *)
From Stdlib Require Import Sorting.Sorted.
From S2P Require Import Prelude.

Class KeyOrder (K : Type) := key_ltb : K -> K -> bool.

Class KeyOrderLaws (K : Type) `{!KeyOrder K} : Prop := {
  key_irrefl k : key_ltb k k = false;
  key_trans a b c : key_ltb a b = true -> key_ltb b c = true -> key_ltb a c = true;
  key_total a b : key_ltb a b = false -> key_ltb b a = false -> a = b;
}.

Section map.
Context {K V : Type} `{!KeyOrder K}.
Implicit Types m : list (K * V).

Fixpoint om_find (k : K) m : option V :=
  match m with
  | [] => None
  | (k', v) :: m =>
    if key_ltb k k' then None
    else if key_ltb k' k then om_find k m
    else Some v
  end.

Fixpoint om_set (k : K) (v : V) m : list (K * V) :=
  match m with
  | [] => [(k, v)]
  | (k', v') :: m' =>
    if key_ltb k k' then (k, v) :: m
    else if key_ltb k' k then (k', v') :: om_set k v m'
    else (k', v) :: m'
  end.

Fixpoint om_erase (k : K) m : list (K * V) :=
  match m with
  | [] => []
  | (k', v) :: m' =>
    if key_ltb k k' then m
    else if key_ltb k' k then (k', v) :: om_erase k m'
    else m'
  end.

Definition om_sorted m : Prop :=
  StronglySorted (fun a b => key_ltb (fst a) (fst b) = true) m.

Context `{!KeyOrderLaws K}.

Lemma key_asym a b : key_ltb a b = true -> key_ltb b a = false.
Proof.
  intros H. destruct (key_ltb b a) eqn:E; [|done].
  pose proof (key_trans _ _ _ H E) as Hk. by rewrite key_irrefl in Hk.
Qed.

Lemma key_ltb_ne a b : key_ltb a b = true -> a <> b.
Proof. intros H ->. by rewrite key_irrefl in H. Qed.

(** Case split on the order of two keys. *)
Lemma key_cases a b :
  (key_ltb a b = true /\ key_ltb b a = false) \/
  (key_ltb b a = true /\ key_ltb a b = false) \/
  (a = b /\ key_ltb a b = false /\ key_ltb b a = false).
Proof.
  destruct (key_ltb a b) eqn:E1; [left; eauto using key_asym|].
  destruct (key_ltb b a) eqn:E2; [right; left; done|].
  right; right. split_and!; [by apply key_total|done..].
Qed.

Lemma om_find_set_eq k v m : om_find k (om_set k v m) = Some v.
Proof.
  induction m as [|[k' v'] m IH]; simpl; [by rewrite key_irrefl|].
  destruct (key_cases k k') as [[-> E]|[[E ->]|(<- & E & _)]]; simpl.
  - by rewrite key_irrefl.
  - rewrite E; simpl. by rewrite E, (key_asym _ _ E).
  - by rewrite E; simpl; rewrite E.
Qed.

Lemma om_find_set_ne k k2 v m :
  om_sorted m -> k <> k2 -> om_find k2 (om_set k v m) = om_find k2 m.
Proof.
  intros Hs Hne. induction Hs as [|[k' v'] m Hs IH Hall]; simpl.
  - destruct (key_cases k k2) as [[E1 E2]|[[E1 E2]|(-> & _)]]; rewrite ?E1, ?E2; done.
  - destruct (key_cases k k') as [[E1 E2]|[[E1 E2]|(-> & E1 & E2)]]; rewrite ?E1, ?E2; simpl.
    + destruct (key_cases k2 k) as [[E3 E4]|[[E3 E4]|(-> & _)]]; rewrite ?E3, ?E4; [|done..].
      by rewrite (key_trans _ _ _ E3 E1).
    + by rewrite IH.
    + destruct (key_cases k2 k') as [[E3 E4]|[[E3 E4]|(-> & _)]]; rewrite ?E3, ?E4; done.
Qed.

Lemma om_set_set k v1 v2 m : om_set k v2 (om_set k v1 m) = om_set k v2 m.
Proof.
  induction m as [|[k' v'] m IH]; simpl; [by rewrite key_irrefl|].
  destruct (key_ltb k k') eqn:H1; [simpl; by rewrite key_irrefl|].
  destruct (key_ltb k' k) eqn:H2; simpl; rewrite H1, H2; [by rewrite IH|done].
Qed.

Lemma om_set_keys_gt k k0 v m :
  key_ltb k0 k = true ->
  Forall (fun b => key_ltb k0 (fst b) = true) m ->
  Forall (fun b => key_ltb k0 (fst b) = true) (om_set k v m).
Proof.
  intros Hk. induction 1 as [|[k' v'] m Hk' Hm IH]; simpl in *; [by constructor|].
  destruct (key_ltb k k'); [by repeat constructor|].
  destruct (key_ltb k' k); by constructor.
Qed.

Lemma om_set_sorted k v m : om_sorted m -> om_sorted (om_set k v m).
Proof.
  induction 1 as [|[k' v'] m Hs IH Hall]; simpl; [by repeat constructor|].
  destruct (key_cases k k') as [[E1 E2]|[[E1 E2]|(-> & E1 & E2)]]; rewrite ?E1, ?E2.
  - constructor; [by constructor|]. constructor; [done|].
    eapply Forall_impl; [exact Hall|]. intros ? ?. by eapply key_trans.
  - constructor; [done|]. by apply om_set_keys_gt.
  - by constructor.
Qed.

Lemma om_sorted_head_find k v m k2 :
  om_sorted ((k, v) :: m) -> key_ltb k2 k = true -> om_find k2 m = None.
Proof.
  intros [Hs Hall]%StronglySorted_inv Hk. destruct m as [|[k' v'] m]; [done|].
  apply Forall_cons in Hall as [Hk' _]. simpl in *.
  by rewrite (key_trans _ _ _ Hk Hk').
Qed.

Lemma om_sorted_notin_tail k v m : om_sorted ((k, v) :: m) -> om_find k m = None.
Proof.
  intros [Hs Hall]%StronglySorted_inv. destruct m as [|[k' v'] m]; [done|].
  apply Forall_cons in Hall as [Hk' _]. simpl in *. by rewrite Hk'.
Qed.

Lemma om_find_In k v m : om_find k m = Some v -> In (k, v) m.
Proof.
  induction m as [|[k' v'] m IH]; simpl; [done|].
  destruct (key_cases k k') as [[E1 E2]|[[E1 E2]|(-> & E1 & E2)]]; rewrite ?E1, ?E2;
    [done|auto|]. intros. simplify_eq. auto.
Qed.

Lemma om_In_find k v m : om_sorted m -> In (k, v) m -> om_find k m = Some v.
Proof.
  induction 1 as [|[k' v'] m Hs IH Hall]; simpl; [done|].
  intros [?|Hin]; [simplify_eq; by rewrite key_irrefl|].
  rewrite Forall_forall in Hall.
  specialize (Hall (k, v) (proj2 (list_elem_of_In _ _) Hin)). simpl in Hall.
  rewrite (key_asym _ _ Hall), Hall. auto.
Qed.

Lemma om_erase_keys_gt k k0 m :
  Forall (fun b => key_ltb k0 (fst b) = true) m ->
  Forall (fun b => key_ltb k0 (fst b) = true) (om_erase k m).
Proof.
  induction 1 as [|[k' v'] m Hk' Hm IH]; simpl in *; [by constructor|].
  destruct (key_ltb k k'); [by constructor|].
  destruct (key_ltb k' k); [by constructor|done].
Qed.

Lemma om_erase_sorted k m : om_sorted m -> om_sorted (om_erase k m).
Proof.
  induction 1 as [|[k' v'] m Hs IH Hall]; simpl; [constructor|].
  destruct (key_ltb k k'); [by constructor|].
  destruct (key_ltb k' k); [|done]. constructor; [done|]. by apply om_erase_keys_gt.
Qed.

Lemma om_find_erase_eq k m : om_sorted m -> om_find k (om_erase k m) = None.
Proof.
  induction 1 as [|[k' v'] m Hs IH Hall]; simpl; [done|].
  destruct (key_cases k k') as [[E1 E2]|[[E1 E2]|(-> & E1 & E2)]]; rewrite ?E1, ?E2; simpl.
  - by rewrite E1.
  - by rewrite E1, E2.
  - apply (om_sorted_notin_tail _ v'). by constructor.
Qed.

Lemma om_find_erase_ne k k2 m :
  om_sorted m -> k <> k2 -> om_find k2 (om_erase k m) = om_find k2 m.
Proof.
  intros Hsm Hne. induction Hsm as [|[k' v'] m Hs IH Hall]; simpl; [done|].
  destruct (key_cases k k') as [[E1 E2]|[[E1 E2]|(-> & E1 & E2)]]; rewrite ?E1, ?E2; simpl.
  - done.
  - by rewrite IH.
  - destruct (key_cases k2 k') as [[E3 E4]|[[E3 E4]|(-> & _)]]; rewrite ?E3, ?E4; [|done..].
    apply (om_sorted_head_find k' v'); [by constructor|done].
Qed.

Lemma om_erase_id k m : om_find k m = None -> om_erase k m = m.
Proof.
  induction m as [|[k' v'] m IH]; simpl; [done|].
  destruct (key_ltb k k'); [done|]. destruct (key_ltb k' k); [|done].
  intros. by rewrite IH.
Qed.

(** Sizes, as [sessions_.size()] reads them. *)
Lemma om_set_len_new k v m : om_find k m = None -> len (om_set k v m) = 1 + len m.
Proof.
  induction m as [|[k' v'] m IH]; simpl; [done|].
  destruct (key_ltb k k'); [intros; by rewrite len_cons|].
  destruct (key_ltb k' k); [|done]. intros. rewrite !len_cons, IH by done. lia.
Qed.

Lemma om_set_len_old k v v0 m : om_find k m = Some v0 -> len (om_set k v m) = len m.
Proof.
  induction m as [|[k' v'] m IH]; simpl; [done|].
  destruct (key_ltb k k'); [done|].
  destruct (key_ltb k' k); intros; rewrite !len_cons; [by rewrite IH|done].
Qed.

Lemma om_erase_len_old k v m : om_find k m = Some v -> len (om_erase k m) = len m - 1.
Proof.
  induction m as [|[k' v'] m IH]; simpl; [done|].
  destruct (key_ltb k k'); [done|].
  destruct (key_ltb k' k); intros; rewrite !len_cons; [rewrite IH by done|]; lia.
Qed.

Lemma om_erase_len k m : len (om_erase k m) <= len m.
Proof.
  induction m as [|[k' v'] m IH]; simpl; [done|].
  destruct (key_ltb k k'); [done|].
  destruct (key_ltb k' k); rewrite !len_cons; lia.
Qed.

Lemma Forall_om_set (P : K * V -> Prop) k v m :
  P (k, v) -> Forall P m -> Forall P (om_set k v m).
Proof.
  intros Hp Hm. induction Hm as [|[k' v'] m H1 H2 IH]; simpl; [by repeat constructor|].
  destruct (key_ltb k k') eqn:H3; [by repeat constructor|].
  destruct (key_ltb k' k) eqn:H4; [by constructor|].
  assert (k' = k) as -> by by apply key_total.
  by constructor.
Qed.

Lemma Forall_om_erase (P : K * V -> Prop) k m :
  Forall P m -> Forall P (om_erase k m).
Proof.
  intros Hm. induction Hm as [|[k' v'] m H1 H2 IH]; simpl; [constructor|].
  destruct (key_ltb k k'); [by constructor|]. destruct (key_ltb k' k); [by constructor|done].
Qed.
End map.

#[export] Instance Z_key_order : KeyOrder Z := Z.ltb.

#[export] Instance Z_key_order_laws : KeyOrderLaws Z.
Proof.
  split; unfold key_ltb, Z_key_order.
  - apply Z.ltb_irrefl.
  - intros a b c. rewrite !Z.ltb_lt. lia.
  - intros a b. rewrite !Z.ltb_ge. lia.
Qed.

(** [std::string::operator<]: lexicographic on unsigned bytes *)
Fixpoint bytes_ltb (a b : bytes) : bool :=
  match a, b with
  | [], [] => false
  | [], _ :: _ => true
  | _ :: _, [] => false
  | x :: a, y :: b =>
    if byte_val x <? byte_val y then true
    else if byte_val y <? byte_val x then false
    else bytes_ltb a b
  end.

#[export] Instance bytes_key_order : KeyOrder bytes := bytes_ltb.

#[export] Instance bytes_key_order_laws : KeyOrderLaws bytes.
Proof.
  split; unfold key_ltb, bytes_key_order.
  - intros a. induction a as [|x a IH]; simpl; [done|]. by rewrite Z.ltb_irrefl.
  - intros a. induction a as [|x a IH]; intros [|y b] [|z c]; simpl; try done.
    zcases; try done. apply IH.
  - intros a. induction a as [|x a IH]; intros [|y b]; simpl; try done.
    zcases; try done. intros. f_equal; [apply byte_val_inj; lia|auto].
Qed.
