(* ===== verification/Text.v ===== *)
(** * Characters and numbers

    The functions of the C and C++ libraries the protocol code is written with:
    [isspace] and [tolower] in the C locale, [strtol] in base 10, the decimal
    digits of [std::to_string] and the hexadecimal ones of ["%lx"]. *)
From S2P Require Import Prelude.

Definition isspace (c : byte) : bool :=
  let v := byte_val c in ((9 <=? v) && (v <=? 13)) || (v =? 32).

Definition tolower (c : byte) : byte :=
  let v := byte_val c in
  if (65 <=? v) && (v <=? 90) then byte_of (v + 32) else c.

Definition isdigit (c : byte) : bool :=
  let v := byte_val c in (48 <=? v) && (v <=? 57).

(** The longest prefix whose characters satisfy [f], and the rest. *)
Fixpoint span (f : byte -> bool) (l : bytes) : bytes * bytes :=
  match l with
  | [] => ([], [])
  | c :: l' => if f c then let '(a, b) := span f l' in (c :: a, b) else ([], l)
  end.

(** ** [strtol(p, &end, 10)]: the value and the rest from [end] on.  The end of
    the list stands for the terminating NUL. *)

Fixpoint scan_digits (acc : Z) (p : bytes) : Z * bytes :=
  match p with
  | c :: p' => if isdigit c then scan_digits (acc * 10 + (byte_val c - 48)) p'
               else (acc, p)
  | [] => (acc, [])
  end.

Definition clamp_long (z : Z) : Z := Z.max LONG_MIN (Z.min LONG_MAX z).

Definition scan_sign (p : bytes) : bool * bytes :=
  match p with
  | c :: p' =>
    if Ascii.eqb c "-"%char then (true, p')
    else if Ascii.eqb c "+"%char then (false, p')
    else (false, p)
  | [] => (false, [])
  end.

Definition strtol (p : bytes) : Z * bytes :=
  let p1 := snd (span isspace p) in
  let '(neg, p2) := scan_sign p1 in
  match p2 with
  | c :: _ =>
    if isdigit c then
      let '(v, rest) := scan_digits 0 p2 in
      (clamp_long (if neg then - v else v), rest)
    else (0, p)
  | [] => (0, p)
  end.

(** The character at [end]: NUL at the end of the string. *)
Definition char_at_end (rest : bytes) : byte := default NUL (head rest).

(** ** Printing *)

Definition digit_char (d : Z) : byte := byte_of (if d <? 10 then 48 + d else 87 + d).

Fixpoint udigits (base : Z) (fuel : nat) (n : Z) : bytes :=
  if n <? base then [digit_char n]
  else match fuel with
       | O => [digit_char n]
       | S fuel => udigits base fuel (n / base) ++ [digit_char (n mod base)]
       end.

(** [std::to_string] of an [int] or a [size_t]: at most 20 digits *)
Definition to_string (z : Z) : bytes :=
  if z <? 0 then "-"%char :: udigits 10 20 (- z) else udigits 10 20 z.

(** ["%lx"] of an [unsigned long]: at most 16 digits *)
Definition to_hex (z : Z) : bytes := udigits 16 16 z.

(** ** Lemmas *)

Lemma span_app f l : fst (span f l) ++ snd (span f l) = l.
Proof.
  induction l as [|c l IH]; [done|]. simpl.
  destruct (f c); [|done]. destruct (span f l); simpl in *. by rewrite IH.
Qed.

Lemma span_all f l k :
  forallb f l = true -> (forall c, head k = Some c -> f c = false) ->
  span f (l ++ k) = (l, k).
Proof.
  induction l as [|c l IH]; simpl; intros Hl Hk.
  - destruct k as [|c k]; [done|]. simpl. by rewrite Hk.
  - apply andb_true_iff in Hl as [-> ?]. by rewrite IH.
Qed.

Lemma span_stop f l : (forall c, head l = Some c -> f c = false) -> span f l = ([], l).
Proof. intros. by apply (span_all f []). Qed.

Lemma byte_val_digit_char d : 0 <= d < 10 -> byte_val (digit_char d) = 48 + d.
Proof.
  intros. unfold digit_char. rewrite (proj2 (Z.ltb_lt _ _)), byte_val_of by lia.
  unfold u8. by rewrite Z.mod_small by lia.
Qed.

Lemma isdigit_digit_char d : 0 <= d < 10 -> isdigit (digit_char d) = true.
Proof. intros. unfold isdigit. rewrite byte_val_digit_char by done. zcases. Qed.

Lemma udigits_cons base fuel n : exists c l, udigits base fuel n = c :: l.
Proof.
  destruct fuel; simpl; case_match; eauto.
  destruct (udigits base fuel (n / base)); simpl; eauto.
Qed.

Lemma udigits_isdigit fuel n :
  0 <= n < 10 ^ (Z.of_nat fuel + 1) -> forallb isdigit (udigits 10 fuel n) = true.
Proof.
  revert n. induction fuel as [|fuel IH]; intros n Hn; simpl.
  - change (Z.of_nat 0 + 1) with 1 in Hn. change (10 ^ 1) with 10 in Hn.
    case_match; simpl; by rewrite isdigit_digit_char by lia.
  - pose proof (Z.mod_pos_bound n 10 ltac:(lia)).
    destruct (Z.ltb_spec n 10); simpl; [by rewrite isdigit_digit_char by lia|].
    rewrite forallb_app, IH; simpl; [by rewrite isdigit_digit_char|].
    split; [apply Z.div_pos; lia|]. apply Z.div_lt_upper_bound; [lia|].
    replace (Z.of_nat (S fuel) + 1) with (Z.succ (Z.of_nat fuel + 1)) in Hn by lia.
    rewrite Z.pow_succ_r in Hn by lia. lia.
Qed.

Lemma scan_digits_digit acc c p :
  isdigit c = true -> scan_digits acc (c :: p) = scan_digits (acc * 10 + (byte_val c - 48)) p.
Proof. simpl. by intros ->. Qed.

(** Scanning the digits of [n] adds [n] below the digits read before. *)
Lemma scan_udigits fuel n acc rest :
  0 <= n < 10 ^ (Z.of_nat fuel + 1) ->
  exists k, scan_digits acc (udigits 10 fuel n ++ rest) = scan_digits (acc * k + n) rest.
Proof.
  revert n acc rest. induction fuel as [|fuel IH]; intros n acc rest Hn.
  - change (Z.of_nat 0 + 1) with 1 in Hn. change (10 ^ 1) with 10 in Hn.
    exists 10. simpl. rewrite (proj2 (Z.ltb_lt n 10)) by lia. simpl.
    rewrite isdigit_digit_char, byte_val_digit_char by lia. f_equal. lia.
  - cbn [udigits]. pose proof (Z.mod_pos_bound n 10 ltac:(lia)).
    destruct (Z.ltb_spec n 10).
    + exists 10. simpl. rewrite isdigit_digit_char, byte_val_digit_char by lia. f_equal. lia.
    + destruct (IH (n / 10) acc ([digit_char (n mod 10)] ++ rest)) as [k Hk].
      { split; [apply Z.div_pos; lia|]. apply Z.div_lt_upper_bound; [lia|].
        replace (Z.of_nat (S fuel) + 1) with (Z.succ (Z.of_nat fuel + 1)) in Hn by lia.
        rewrite Z.pow_succ_r in Hn by lia. lia. }
      exists (k * 10). rewrite <-app_assoc, Hk. simpl.
      rewrite isdigit_digit_char, byte_val_digit_char by lia. f_equal.
      pose proof (Z.div_mod n 10 ltac:(lia)). lia.
Qed.

Lemma scan_digits_stop acc rest :
  (forall c, head rest = Some c -> isdigit c = false) -> scan_digits acc rest = (acc, rest).
Proof. destruct rest as [|c rest]; [done|]. simpl. intros ->; done. Qed.

Lemma isdigit_not_space c : isdigit c = true -> isspace c = false.
Proof. unfold isdigit, isspace. zcases. Qed.

Lemma isdigit_not_sign c :
  isdigit c = true -> Ascii.eqb c "-"%char = false /\ Ascii.eqb c "+"%char = false.
Proof. intros Hd. split; apply Ascii.eqb_neq; intros ->; discriminate. Qed.

(** A printed number reads back, whatever non-digit follows it. *)
Lemma strtol_udigits n rest :
  0 <= n <= LONG_MAX -> (forall c, head rest = Some c -> isdigit c = false) ->
  strtol (udigits 10 20 n ++ rest) = (n, rest).
Proof.
  intros Hn Hrest.
  assert (Hp : 0 <= n < 10 ^ (Z.of_nat 20 + 1)).
  { assert (LONG_MAX < 10 ^ (Z.of_nat 20 + 1)) by (vm_compute; done). lia. }
  pose proof (udigits_isdigit 20 n Hp) as Hd.
  destruct (scan_udigits 20 n 0 rest Hp) as [k Hk]. revert Hd Hk.
  destruct (udigits_cons 10 20 n) as (c & l & ->).
  intros Hd Hk. simpl in Hd. apply andb_true_iff in Hd as [Hc _].
  unfold strtol. rewrite span_stop.
  2: { simpl. intros ? [= <-]. by apply isdigit_not_space. }
  destruct (isdigit_not_sign c Hc) as [H1 H2]. simpl snd. simpl app.
  unfold scan_sign. rewrite H1, H2. simpl app in Hk. rewrite Hc, Hk.
  rewrite scan_digits_stop by done. unfold clamp_long, LONG_MIN, LONG_MAX in *.
  f_equal. lia.
Qed.

Lemma strtol_to_string z rest :
  INT_MIN <= z <= INT_MAX -> (forall c, head rest = Some c -> isdigit c = false) ->
  strtol (to_string z ++ rest) = (z, rest).
Proof.
  unfold INT_MIN, INT_MAX. intros Hz Hrest. unfold to_string.
  destruct (Z.ltb_spec z 0); [|by apply strtol_udigits; unfold LONG_MAX; try lia].
  pose proof (strtol_udigits (- z) rest ltac:(unfold LONG_MAX; lia) Hrest) as Hs.
  assert (Hp : 0 <= - z < 10 ^ (Z.of_nat 20 + 1)).
  { assert (2 ^ 31 < 10 ^ (Z.of_nat 20 + 1)) by (vm_compute; done). lia. }
  destruct (scan_udigits 20 (- z) 0 rest Hp) as [k Hk].
  pose proof (udigits_isdigit 20 (- z) Hp) as Hd. clear Hs. revert Hd Hk.
  destruct (udigits_cons 10 20 (- z)) as (c & l & ->).
  intros Hd Hk. simpl in Hd. apply andb_true_iff in Hd as [Hc _].
  unfold strtol. simpl app in *. rewrite span_stop by (by intros ? [= <-]).
  simpl snd. unfold scan_sign. rewrite Ascii.eqb_refl, Hc, Hk.
  rewrite scan_digits_stop by done. unfold clamp_long, LONG_MIN, LONG_MAX. f_equal. lia.
Qed.

(** The characters of a printed number. *)
Definition numeric (c : byte) : bool := isdigit c || Ascii.eqb c "-"%char.

Lemma to_string_numeric z :
  - 2 ^ 63 <= z < 2 ^ 64 -> forallb numeric (to_string z) = true.
Proof.
  intros Hz.
  assert (Hall : forall n, 0 <= n < 2 ^ 64 -> forallb numeric (udigits 10 20 n) = true).
  { intros n Hn. assert (2 ^ 64 < 10 ^ (Z.of_nat 20 + 1)) by (vm_compute; done).
    pose proof (udigits_isdigit 20 n ltac:(lia)) as Hd.
    rewrite forallb_forall in Hd |- *. intros c Hc. unfold numeric. by rewrite Hd. }
  unfold to_string. destruct (Z.ltb_spec z 0); [|apply Hall; lia].
  cbn [forallb]. rewrite Hall by lia. done.
Qed.

Lemma to_string_cons z : exists c l, to_string z = c :: l.
Proof. unfold to_string. case_match; [eauto|]. apply udigits_cons. Qed.

Lemma len_udigits base fuel n : len (udigits base fuel n) <= Z.of_nat fuel + 1.
Proof.
  revert n. induction fuel as [|fuel IH]; intros n; simpl udigits.
  - case_match; rewrite len_cons, len_nil; lia.
  - case_match; [rewrite len_cons, len_nil; lia|].
    rewrite len_app, len_cons, len_nil. specialize (IH (n / base)). lia.
Qed.

Lemma len_to_string z : len (to_string z) <= 22.
Proof.
  unfold to_string. case_match; rewrite ?len_cons.
  - pose proof (len_udigits 10 20 (- z)). lia.
  - pose proof (len_udigits 10 20 z). lia.
Qed.

(** Hexadecimal digits can be read back, so they determine the number. *)
Definition hex_value (c : byte) : Z :=
  let v := byte_val c in if v <? 58 then v - 48 else v - 87.

Definition hex_read (l : bytes) : Z := fold_left (fun acc c => acc * 16 + hex_value c) l 0.

Lemma hex_value_digit d : 0 <= d < 16 -> hex_value (digit_char d) = d.
Proof.
  intros. unfold hex_value, digit_char. rewrite byte_val_of. unfold u8.
  destruct (Z.ltb_spec d 10); rewrite Z.mod_small by lia; zcases.
Qed.

Lemma hex_read_udigits fuel n :
  0 <= n < 16 ^ (Z.of_nat fuel + 1) -> hex_read (udigits 16 fuel n) = n.
Proof.
  unfold hex_read. revert n. induction fuel as [|fuel IH]; intros n Hn; cbn [udigits].
  - change (16 ^ (Z.of_nat 0 + 1)) with 16 in Hn.
    case_match; cbn [fold_left]; rewrite hex_value_digit; lia.
  - destruct (Z.ltb_spec n 16); [cbn [fold_left]; rewrite hex_value_digit; lia|].
    pose proof (Z.mod_pos_bound n 16 ltac:(lia)).
    rewrite fold_left_app, IH; cbn [fold_left].
    + rewrite hex_value_digit by lia. pose proof (Z.div_mod n 16 ltac:(lia)). lia.
    + split; [apply Z.div_pos; lia|]. apply Z.div_lt_upper_bound; [lia|].
      replace (Z.of_nat (S fuel) + 1) with (Z.succ (Z.of_nat fuel + 1)) in Hn by lia.
      rewrite Z.pow_succ_r in Hn by lia. lia.
Qed.

Lemma to_hex_inj a b : 0 <= a < 2 ^ 64 -> 0 <= b < 2 ^ 64 -> to_hex a = to_hex b -> a = b.
Proof.
  intros Ha Hb H. assert (2 ^ 64 < 16 ^ (Z.of_nat 16 + 1)) by (vm_compute; done).
  rewrite <-(hex_read_udigits 16 a), <-(hex_read_udigits 16 b) by lia. by f_equal.
Qed.
