(* ===== verification/Kernel.v ===== *)
(** * The operating system and the effect monad

    The program talks to the kernel through system calls.  The kernel is a
    parameter: class [Kernel] answers each call as an arbitrary function of the
    calls made so far, and [KernelLaws] states the documented behaviour the code
    relies on.  [M] is the monad of effectful code: it threads the trace of
    calls and [errno], and ends in a value or in a [fault].  [wp] is its
    total-correctness weakest precondition: no fault, and the postcondition. *)
From S2P Require Import Prelude.

(** [struct sockaddr_in]; [sin_port] holds the port in network byte order. *)
Record sockaddr_in := mkSockaddr { sin_family : Z; sin_port : Z; sin_addr : Z }.

Definition sockaddr_zero : sockaddr_in := mkSockaddr 0 0 0.

(** [htons]/[ntohs] on the little-endian targets of the library *)
Definition htons (z : Z) : Z := (u16 z mod 256) * 256 + u16 z / 256.
Definition ntohs (z : Z) : Z := htons z.

Lemma ntohs_htons z : ntohs (htons z) = u16 z.
Proof.
  unfold ntohs, htons, u16.
  pose proof (Z.mod_pos_bound z (2 ^ 16) ltac:(lia)) as Hr.
  set (x := z mod 2 ^ 16) in *. change (2 ^ 16) with 65536 in *.
  pose proof (Z.mod_pos_bound x 256 ltac:(lia)).
  pose proof (Z.div_mod x 256 ltac:(lia)).
  assert (0 <= x / 256 < 256)
    by (split; [apply Z.div_pos; lia|apply Z.div_lt_upper_bound; lia]).
  set (a := x mod 256) in *. set (b := x / 256) in *.
  rewrite (Z.mod_small (_ + _)) by lia.
  rewrite <-(Z.mod_unique (a * 256 + b) 256 a b),
    <-(Z.div_unique (a * 256 + b) 256 a b) by lia. lia.
Qed.

(** ** System calls *)

Definition AF_INET : Z := 2.
Definition SOCK_STREAM : Z := 1.
Definition SOCK_DGRAM : Z := 2.
Definition SOCK_NONBLOCK : Z := 2048.
Definition O_NONBLOCK : Z := 2048.
Definition SOL_SOCKET : Z := 1.
Definition SO_REUSEADDR : Z := 2.
Definition IPPROTO_TCP : Z := 6.
Definition TCP_NODELAY : Z := 1.
Definition INADDR_ANY : Z := 0.
Definition EPOLLIN : Z := 1.
Definition EPOLLOUT : Z := 4.
Definition EPOLLERR : Z := 8.
Definition EPOLLHUP : Z := 16.
Definition ENOENT : Z := 2.
Definition EINTR : Z := 4.
Definition EAGAIN : Z := 11.
Definition EWOULDBLOCK : Z := 11.

Inductive epoll_op := EPOLL_CTL_ADD | EPOLL_CTL_MOD | EPOLL_CTL_DEL.

Inductive syscall :=
  | SysRecv (fd n : Z)
  | SysSend (fd : Z) (data : bytes)          (* with MSG_NOSIGNAL *)
  | SysWritev (fd : Z) (iov : list bytes)
  | SysSendto (fd : Z) (data : bytes) (addr : sockaddr_in)
  | SysSocket (domain type protocol : Z)
  | SysSetsockopt (fd level name value : Z)
  | SysFcntlGetfl (fd : Z)
  | SysFcntlSetfl (fd flags : Z)
  | SysInetPton (addr : bytes)
  | SysBind (fd : Z) (addr : sockaddr_in)
  | SysListen (fd backlog : Z)
  | SysAccept (fd : Z)
  | SysGetsockname (fd : Z)
  | SysGetpeername (fd : Z)
  | SysClose (fd : Z)
  | SysEpollCreate
  | SysEpollCtl (epfd : Z) (op : epoll_op) (fd events : Z)
  | SysEpollWait (epfd maxevents timeout : Z)
  | SysTimerfdCreate
  | SysTimerfdSettime (fd interval : Z)
  | SysReadTimer (fd : Z)
  | SysSteadyClock                            (* nanoseconds *)
  | SysSystemClock.                           (* milliseconds *)

(** What a call gives back: the return value (a clock's reading for the clocks),
    [errno] when the value is negative, the bytes received, the address filled
    in, the ready descriptors with their event masks. *)
Record answer := mkAnswer {
  a_ret : Z;
  a_errno : Z;
  a_data : bytes;
  a_addr : sockaddr_in;
  a_events : list (Z * Z);
}.

Definition event : Type := syscall * answer.

Class Kernel := {
  kernel_answer : list event -> syscall -> answer;
  (** the block [new char[n]] returns; null when out of memory *)
  kernel_alloc : list event -> Z -> ptr;
}.

Class KernelLaws `{!Kernel} : Prop := {
  recv_bound tr fd n :
    0 <= n -> a_ret (kernel_answer tr (SysRecv fd n)) <= n;
  recv_data tr fd n :
    0 <= a_ret (kernel_answer tr (SysRecv fd n)) ->
    len (a_data (kernel_answer tr (SysRecv fd n))) =
    a_ret (kernel_answer tr (SysRecv fd n));
  send_bound tr fd d : a_ret (kernel_answer tr (SysSend fd d)) <= len d;
  writev_bound tr fd iov : a_ret (kernel_answer tr (SysWritev fd iov)) <= len (mjoin iov);
  alloc_len tr n m : 0 <= n -> kernel_alloc tr n = Some m -> len m = n;
}.

(** ** The monad *)

Record world := mkWorld { w_trace : list event; w_errno : Z }.

(** Where undefined behaviour arises: inside the parser, or anywhere else. *)
Inductive place := InParser | Elsewhere.

(** [OutOfFuel]: the bound put on a loop was reached; no theorem allows it. *)
Inductive fault := UndefinedBehaviour (at_ : place) | ProcessAborted | OutOfFuel.

Inductive outcome (A : Type) :=
  | Done (a : A) (w : world)
  | Fault (f : fault).
Arguments Done {A} a w.
Arguments Fault {A} f.

Definition M (A : Type) : Type := world -> outcome A.

#[export] Instance M_ret : MRet M := fun A a w => Done a w.
#[export] Instance M_bind : MBind M := fun A B k m w =>
  match m w with Done a w' => k a w' | Fault f => Fault f end.

(** An access outside a block is undefined behaviour. *)
Definition ub_at {A} (p : place) (o : option A) : M A := fun w =>
  match o with Some a => Done a w | None => Fault (UndefinedBehaviour p) end.

Definition ub {A} (o : option A) : M A := ub_at Elsewhere o.

(** [std::abort()] *)
Definition or_abort {A} (o : option A) : M A := fun w =>
  match o with Some a => Done a w | None => Fault ProcessAborted end.

Definition get_errno : M Z := fun w => Done (w_errno w) w.

Section calls.
Context `{K : Kernel}.

(** One system call: recorded in the trace; [errno] changes only on failure. *)
Definition sys (c : syscall) : M answer := fun w =>
  let a := kernel_answer (w_trace w) c in
  Done a (mkWorld (w_trace w ++ [(c, a)])
            (if a_ret a <? 0 then a_errno a else w_errno w)).

Definition alloc (n : Z) : M ptr := fun w => Done (kernel_alloc (w_trace w) n) w.
End calls.

(** ** Weakest preconditions *)

Definition wp {A} (m : M A) (Q : A -> world -> Prop) (w : world) : Prop :=
  match m w with Done a w' => Q a w' | Fault _ => False end.

Lemma wp_ret {A} (a : A) Q w : wp (mret a) Q w <-> Q a w.
Proof. done. Qed.

Lemma wp_bind {A B} (m : M A) (k : A -> M B) Q w :
  wp (m ≫= k) Q w <-> wp m (fun a => wp (k a) Q) w.
Proof. unfold wp, mbind, M_bind. by destruct (m w). Qed.

Lemma wp_mono {A} (m : M A) (P Q : A -> world -> Prop) w :
  wp m P w -> (forall a w', P a w' -> Q a w') -> wp m Q w.
Proof. unfold wp. destruct (m w); auto. Qed.

Lemma wp_ub {A} (o : option A) (Q : A -> world -> Prop) w a :
  o = Some a -> Q a w -> wp (ub o) Q w.
Proof. by intros ->. Qed.

Lemma wp_or_abort {A} (o : option A) (Q : A -> world -> Prop) w a :
  o = Some a -> Q a w -> wp (or_abort o) Q w.
Proof. by intros ->. Qed.

Lemma wp_errno Q w : wp get_errno Q w <-> Q (w_errno w) w.
Proof. done. Qed.

Lemma wp_Done {A} (m : M A) Q w :
  wp m Q w <-> exists a w', m w = Done a w' /\ Q a w'.
Proof.
  unfold wp. destruct (m w); split; [eauto|by intros (? & ? & [= -> ->] & ?)|done|].
  by intros (? & ? & ? & ?).
Qed.

(** Partial correctness: what holds if the run does not fault. *)
Definition wlp {A} (m : M A) (Post : A -> world -> Prop) (w : world) : Prop :=
  match m w with Done a w' => Post a w' | Fault _ => True end.

Lemma wlp_bind {A B} (m : M A) (k : A -> M B) Post w :
  wlp (m ≫= k) Post w <-> wlp m (fun a => wlp (k a) Post) w.
Proof. unfold wlp, mbind, M_bind. by destruct (m w). Qed.

Lemma wlp_wp {A} (m : M A) Post w : wp m Post w -> wlp m Post w.
Proof. unfold wp, wlp. by destruct (m w). Qed.

Lemma wlp_mono {A} (m : M A) (P P' : A -> world -> Prop) w :
  wlp m P w -> (forall a w', P a w' -> P' a w') -> wlp m P' w.
Proof. unfold wlp. destruct (m w); auto. Qed.

(** The world after a call. *)
Definition after `{K : Kernel} (w : world) (c : syscall) : world :=
  let a := kernel_answer (w_trace w) c in
  mkWorld (w_trace w ++ [(c, a)]) (if a_ret a <? 0 then a_errno a else w_errno w).

Lemma wp_sys `{K : Kernel} c Q w :
  wp (sys c) Q w <-> Q (kernel_answer (w_trace w) c) (after w c).
Proof. done. Qed.

Lemma trace_after `{K : Kernel} w c :
  w_trace (after w c) = w_trace w ++ [(c, kernel_answer (w_trace w) c)].
Proof. done. Qed.

Lemma errno_after `{K : Kernel} w c :
  a_ret (kernel_answer (w_trace w) c) < 0 ->
  w_errno (after w c) = a_errno (kernel_answer (w_trace w) c).
Proof. intros H. unfold after. cbn [w_errno]. by rewrite (proj2 (Z.ltb_lt _ 0)). Qed.

Lemma wlp_any {A} (m : M A) w : wlp m (fun _ _ => True) w.
Proof. unfold wlp. by destruct (m w). Qed.

(** Go past a command whose result may be anything. *)
Lemma wlp_skip {A B} (m : M A) (k : A -> M B) Post w :
  (forall a w', wlp (k a) Post w') -> wlp (m ≫= k) Post w.
Proof. intros Hk. apply wlp_bind. eapply wlp_mono; [apply wlp_any|auto]. Qed.

Lemma wlp_ret {A} (a : A) Post w : wlp (mret a) Post w <-> Post a w.
Proof. done. Qed.

Lemma wlp_sys `{K : Kernel} c Post w :
  wlp (sys c) Post w <-> Post (kernel_answer (w_trace w) c) (after w c).
Proof. done. Qed.

#[global] Opaque sys after.

(** [wp_step] runs the next command of a monadic program. *)
Ltac wp_step :=
  first
    [ rewrite wp_bind
    | rewrite wp_ret
    | rewrite wp_sys
    | rewrite wp_errno ].
Ltac wp_steps := repeat (wp_step; cbv beta).

Ltac wlp_steps := repeat (first [rewrite wlp_bind|rewrite wlp_ret|rewrite wlp_sys]; cbv beta).
