(* ===== verification/SampleKernel.v ===== *)
(** * Concrete kernels

    Instances of [Kernel] that satisfy [KernelLaws], built from any table of
    answers by clamping the byte counts.  The witnesses of the theorems about
    effectful code run on them. *)
From S2P Require Import Prelude Kernel.

(** The most bytes a transfer may report. *)
Definition transfer_limit (c : syscall) : option Z :=
  match c with
  | SysRecv _ n => Some n
  | SysSend _ d => Some (len d)
  | SysWritev _ iov => Some (len (mjoin iov))
  | _ => None
  end.

Definition clamp_answer (c : syscall) (a : answer) : answer :=
  match transfer_limit c with
  | Some n =>
    let r := Z.min (a_ret a) n in
    mkAnswer r (a_errno a) (resize (Z.to_nat r) NUL (a_data a)) (a_addr a) (a_events a)
  | None => a
  end.

Definition sample_kernel (f : list event -> syscall -> answer) : Kernel := {|
  kernel_answer tr c := clamp_answer c (f tr c);
  kernel_alloc _ n := Some (replicate (Z.to_nat (Z.max 0 n)) NUL);
|}.

(** An answer that only has a return value (and [EAGAIN]). *)
Definition returns (z : Z) : answer := mkAnswer z EAGAIN [] sockaddr_zero [].

(** Sends are accepted in full, everything else returns 0. *)
Definition accepting : list event -> syscall -> answer := fun _ c =>
  returns (default 0 (transfer_limit c)).

(** Nothing can be sent or received now. *)
Definition stalled : list event -> syscall -> answer := fun _ _ => returns (-1).

Lemma sample_kernel_transfers f tr c n :
  transfer_limit c = Some n ->
  a_ret (@kernel_answer (sample_kernel f) tr c) <= n /\
  (0 <= a_ret (@kernel_answer (sample_kernel f) tr c) ->
   len (a_data (@kernel_answer (sample_kernel f) tr c)) =
   a_ret (@kernel_answer (sample_kernel f) tr c)).
Proof.
  intros H. simpl. unfold clamp_answer. rewrite H. simpl. split; [lia|].
  intros. unfold len. rewrite length_resize. lia.
Qed.

#[export] Instance sample_kernel_laws f : @KernelLaws (sample_kernel f).
Proof.
  split; intros.
  - by apply sample_kernel_transfers.
  - by eapply sample_kernel_transfers.
  - by apply sample_kernel_transfers.
  - by apply sample_kernel_transfers.
  - simpl in *. simplify_eq. unfold len. rewrite length_replicate. lia.
Qed.
