(* ===== verification/ByteQueue.v ===== *)
(** * The byte-queue interface

    What a connection asks of its read and write buffers, as a class of
    operations ([ByteQueue]) and a class of laws ([ByteQueueLaws]).  The laws
    refer to an abstract bounded FIFO of bytes, Module [Fifo].  Connection.v is
    proved against this interface; RingBuf.v discharges it. *)
From S2P Require Import Prelude Status.

(** [RingBuffer::npos], [static_cast<size_t>(-1)] *)
Definition npos : Z := 2 ^ 64 - 1.

(** ** The abstract specification: a FIFO of at most [cap] bytes *)
Module Fifo.
Definition write (cap : Z) (q d : bytes) : status * bytes :=
  if len d =? 0 then (Status.InvalidArgument (lit "invalid data or size"), q)
  else if cap - len q <? len d then (Status.BufferFull (lit "buffer full"), q)
  else (Status.Ok, q ++ d).

Definition consume (n : Z) (q : bytes) : bytes := zdrop (Z.min n (len q)) q.

Definition peek (n : Z) (q : bytes) : status * option bytes :=
  if n =? 0 then (Status.InvalidArgument (lit "invalid data or size"), None)
  else if len q <? n then (Status.Error (lit "not enough data"), None)
  else (Status.Ok, Some (ztake n q)).

(** The window a search looks at: [max] bytes, or everything when [max] is 0. *)
Definition window (max : Z) (q : bytes) : bytes :=
  if 0 <? max then ztake max q else q.

Definition find (p : bytes) (max : Z) (q : bytes) : Z :=
  default npos (if len p =? 0 then None else find_sub p (window max q)).

Definition find_char (c : byte) (max : Z) (q : bytes) : Z :=
  default npos (index_of c (window max q)).
End Fifo.

(** ** Operations *)
Class ByteQueue (Q : Type) := {
  (** constructor, given the block [operator new] returned (null: abort) *)
  bq_new : Z -> ptr -> option Q;
  bq_Write : Q -> ptr -> Z -> option (status * Q);
  bq_Peek : Q -> ptr -> Z -> option (status * ptr);
  bq_ReadableSize : Q -> Z;
  bq_WritableSize : Q -> Z;
  bq_ContiguousWritableSize : Q -> Z;
  bq_ContiguousReadableSize : Q -> Z;
  (** the bytes readable from [ReadPtr()] on *)
  bq_ReadPtr : Q -> bytes;
  (** someone stores these bytes at [WritePtr()] *)
  bq_StoreAtWritePtr : Q -> bytes -> option Q;
  bq_Consume : Q -> Z -> Q;
  bq_Produce : Q -> Z -> Q;
  bq_FindSubstring : Q -> ptr -> Z -> Z -> option Z;
  bq_GetReadableIoVec : Q -> option (list bytes);
  (** abstraction *)
  bq_inv : Q -> Prop;
  bq_contents : Q -> bytes;
  bq_capacity : Q -> Z;
}.

(** ** Laws *)
Class ByteQueueLaws (Q : Type) `{!ByteQueue Q} : Prop := {
  bq_new_spec cap m :
    0 < cap < 2 ^ 63 -> len m = cap ->
    exists q, bq_new cap (Some m) = Some q /\ bq_inv q /\
      bq_contents q = [] /\ bq_capacity q = cap;
  bq_new_null cap : bq_new cap None = None;
  bq_Write_spec q src n :
    bq_inv q -> 0 <= n <= len src ->
    exists q', bq_Write q (Some src) n =
        Some (fst (Fifo.write (bq_capacity q) (bq_contents q) (ztake n src)), q') /\
      bq_inv q' /\ bq_capacity q' = bq_capacity q /\
      bq_contents q' = snd (Fifo.write (bq_capacity q) (bq_contents q) (ztake n src));
  bq_Peek_spec q dst n :
    bq_inv q -> 0 <= n <= len dst ->
    bq_Peek q (Some dst) n =
      Some (fst (Fifo.peek n (bq_contents q)),
            Some (match snd (Fifo.peek n (bq_contents q)) with
                  | Some d => d ++ zdrop n dst
                  | None => dst
                  end));
  bq_ReadableSize_spec q : bq_inv q -> bq_ReadableSize q = len (bq_contents q);
  bq_WritableSize_spec q :
    bq_inv q -> bq_WritableSize q = bq_capacity q - len (bq_contents q);
  bq_capacity_spec q :
    bq_inv q -> len (bq_contents q) <= bq_capacity q < 2 ^ 63;
  bq_ContiguousWritable_spec q :
    bq_inv q -> 0 <= bq_ContiguousWritableSize q <= bq_WritableSize q /\
      (0 < bq_WritableSize q -> 0 < bq_ContiguousWritableSize q);
  bq_ReadPtr_spec q n :
    bq_inv q -> 0 <= n <= bq_ContiguousReadableSize q ->
    mem_read (bq_ReadPtr q) 0 n = Some (ztake n (bq_contents q));
  bq_Store_Produce_spec q d :
    bq_inv q -> len d <= bq_ContiguousWritableSize q ->
    exists q', bq_StoreAtWritePtr q d = Some q' /\
      bq_inv (bq_Produce q' (len d)) /\
      bq_capacity (bq_Produce q' (len d)) = bq_capacity q /\
      bq_contents (bq_Produce q' (len d)) = bq_contents q ++ d;
  bq_Consume_spec q n :
    bq_inv q -> 0 <= n ->
    bq_inv (bq_Consume q n) /\ bq_capacity (bq_Consume q n) = bq_capacity q /\
    bq_contents (bq_Consume q n) = Fifo.consume n (bq_contents q);
  bq_FindSubstring_spec q p n max :
    bq_inv q -> 0 <= n <= len p -> 0 <= max ->
    bq_FindSubstring q (Some p) n max =
      Some (Fifo.find (ztake n p) max (bq_contents q));
  bq_GetReadableIoVec_spec q :
    bq_inv q ->
    exists iov, bq_GetReadableIoVec q = Some iov /\ mjoin iov = bq_contents q /\
      (length iov <= 2)%nat /\ (iov = [] <-> bq_contents q = []) /\
      Forall (fun d => d <> []) iov;
}.
