(* ===== verification/RingBuf.v ===== *)
(** * The ring buffer (src/src/buffer/ring_buffer.h, ring_buffer.cc)

    [ring_buffer] is the class's private state; Module [RingBuffer] has one
    definition per member function, with [size_t] arithmetic wrapped at 64 bits
    and every access to the block checked ([None]: outside the block).  The
    second part proves the [ByteQueue] laws. *)
From S2P Require Import Prelude Status ByteQueue.

Record ring_buffer := mkRingBuffer {
  buffer_ : bytes;
  capacity_ : Z;
  read_pos_ : Z;
  write_pos_ : Z;
  readable_size_ : Z;
}.

Module RingBuffer.

(** [mem] is what [new (std::nothrow) char[capacity_]] returned; a null pointer
    aborts the process ([None]). *)
Definition RingBuffer (capacity : Z) (mem : ptr) : option ring_buffer :=
  buf ← mem;
  Some (mkRingBuffer buf (if 0 <? capacity then capacity else 1) 0 0 0).

Definition ReadableSize (rb : ring_buffer) : Z := readable_size_ rb.

Definition WritableSize (rb : ring_buffer) : Z :=
  u64 (capacity_ rb - readable_size_ rb).

Definition ContiguousWritableSize (rb : ring_buffer) : Z :=
  let writable := WritableSize rb in
  let to_end := u64 (capacity_ rb - write_pos_ rb) in
  if writable <? to_end then writable else to_end.

Definition ContiguousReadableSize (rb : ring_buffer) : Z :=
  let readable := ReadableSize rb in
  let to_end := u64 (capacity_ rb - read_pos_ rb) in
  if readable <? to_end then readable else to_end.

Definition invalid_data : status :=
  Status.InvalidArgument (lit "invalid data or size").

Definition Write (rb : ring_buffer) (data : ptr) (size : Z)
    : option (status * ring_buffer) :=
  match data with
  | None => Some (invalid_data, rb)
  | Some src =>
    if size =? 0 then Some (invalid_data, rb)
    else if WritableSize rb <? size
    then Some (Status.BufferFull (lit "buffer full"), rb)
    else
      let to_end := u64 (capacity_ rb - write_pos_ rb) in
      buf ← (if to_end <? size then
               let first_part := to_end in
               d1 ← mem_read src 0 first_part;
               b1 ← mem_write (buffer_ rb) (write_pos_ rb) d1;
               d2 ← mem_read src first_part (u64 (size - first_part));
               mem_write b1 0 d2
             else
               d ← mem_read src 0 size;
               mem_write (buffer_ rb) (write_pos_ rb) d);
      Some (Status.Ok,
            mkRingBuffer buf (capacity_ rb) (read_pos_ rb)
              (u64 (write_pos_ rb + size) mod capacity_ rb)
              (u64 (readable_size_ rb + size)))
  end.

(** The second component is the caller's block after the call. *)
Definition Peek (rb : ring_buffer) (data : ptr) (size : Z) : option (status * ptr) :=
  match data with
  | None => Some (invalid_data, data)
  | Some dst =>
    if size =? 0 then Some (invalid_data, data)
    else if readable_size_ rb <? size
    then Some (Status.Error (lit "not enough data"), data)
    else
      let to_end := u64 (capacity_ rb - read_pos_ rb) in
      dst' ← (if to_end <? size then
                let first_part := to_end in
                d1 ← mem_read (buffer_ rb) (read_pos_ rb) first_part;
                m1 ← mem_write dst 0 d1;
                d2 ← mem_read (buffer_ rb) 0 (u64 (size - first_part));
                mem_write m1 first_part d2
              else
                d ← mem_read (buffer_ rb) (read_pos_ rb) size;
                mem_write dst 0 d);
      Some (Status.Ok, Some dst')
  end.

(** [buffer_.get() + read_pos_]: the bytes readable from there on. *)
Definition ReadPtr (rb : ring_buffer) : bytes := zdrop (read_pos_ rb) (buffer_ rb).

(** The effect of someone storing [d] at [WritePtr()] = [buffer_.get() + write_pos_]. *)
Definition StoreAtWritePtr (rb : ring_buffer) (d : bytes) : option ring_buffer :=
  buf ← mem_write (buffer_ rb) (write_pos_ rb) d;
  Some (mkRingBuffer buf (capacity_ rb) (read_pos_ rb) (write_pos_ rb)
          (readable_size_ rb)).

Definition Consume (rb : ring_buffer) (size : Z) : ring_buffer :=
  let size := if readable_size_ rb <? size then readable_size_ rb else size in
  mkRingBuffer (buffer_ rb) (capacity_ rb)
    (u64 (read_pos_ rb + size) mod capacity_ rb) (write_pos_ rb)
    (u64 (readable_size_ rb - size)).

Definition Produce (rb : ring_buffer) (size : Z) : ring_buffer :=
  let size := if WritableSize rb <? size then WritableSize rb else size in
  mkRingBuffer (buffer_ rb) (capacity_ rb) (read_pos_ rb)
    (u64 (write_pos_ rb + size) mod capacity_ rb)
    (u64 (readable_size_ rb + size)).

(** [memchr(m + off, c, n)], as an offset from [m + off] *)
Definition memchr (m : bytes) (off : Z) (c : byte) (n : Z) : option (option Z) :=
  d ← mem_read m off n; Some (index_of c d).

Definition search_window (rb : ring_buffer) (max_search_len : Z) : Z :=
  if 0 <? max_search_len then Z.min max_search_len (readable_size_ rb)
  else readable_size_ rb.

Definition FindChar (rb : ring_buffer) (c : byte) (max_search_len : Z) : option Z :=
  if readable_size_ rb =? 0 then Some npos
  else
    let search_len := search_window rb max_search_len in
    let contiguous := ContiguousReadableSize rb in
    found ← memchr (buffer_ rb) (read_pos_ rb) c (Z.min search_len contiguous);
    match found with
    | Some i => Some i
    | None =>
      if contiguous <? search_len then
        found ← memchr (buffer_ rb) 0 c (u64 (search_len - contiguous));
        Some (match found with Some i => u64 (contiguous + i) | None => npos end)
      else Some npos
    end.

(** The inner loop of [FindSubstring]: compare from [j] on, stopping at the first
    difference. *)
Fixpoint match_loop (buf : bytes) (capacity pos : Z) (substr : bytes)
    (substr_len : Z) (fuel : nat) (j : Z) : option bool :=
  if j <? substr_len then
    match fuel with
    | O => None
    | S fuel =>
      let char_pos := u64 (pos + j) mod capacity in
      a ← zget buf char_pos;
      b ← zget substr j;
      if Ascii.eqb a b
      then match_loop buf capacity pos substr substr_len fuel (j + 1)
      else Some false
    end
  else Some true.

(** The outer loop: [i] from its current value to [last]. *)
Fixpoint find_loop (rb : ring_buffer) (substr : bytes) (substr_len last : Z)
    (fuel : nat) (i : Z) : option Z :=
  if i <=? last then
    match fuel with
    | O => None
    | S fuel =>
      let pos := u64 (read_pos_ rb + i) mod capacity_ rb in
      m ← match_loop (buffer_ rb) (capacity_ rb) pos substr substr_len
            (Z.to_nat substr_len) 0;
      if (m : bool) then Some i
      else find_loop rb substr substr_len last fuel (i + 1)
    end
  else Some npos.

Definition FindSubstring (rb : ring_buffer) (substr : ptr) (substr_len : Z)
    (max_search_len : Z) : option Z :=
  match substr with
  | None => Some npos
  | Some s =>
    if (readable_size_ rb =? 0) || (substr_len =? 0) then Some npos
    else
      let search_len := search_window rb max_search_len in
      if search_len <? substr_len then Some npos
      else
        let last := u64 (search_len - substr_len) in
        find_loop rb s substr_len last (S (Z.to_nat last)) 0
  end.

(** The entries filled in, as the bytes each designates. *)
Definition GetReadableIoVec (rb : ring_buffer) : option (list bytes) :=
  if readable_size_ rb =? 0 then Some []
  else
    let contiguous := ContiguousReadableSize rb in
    seg0 ← mem_read (buffer_ rb) (read_pos_ rb) contiguous;
    let remaining := u64 (readable_size_ rb - contiguous) in
    if 0 <? remaining then
      seg1 ← mem_read (buffer_ rb) 0 remaining;
      Some [seg0; seg1]
    else Some [seg0].

End RingBuffer.

(** ** Abstraction and invariant *)

(** The readable bytes in order: from [read_pos_] to the end of the block, then
    from its start. *)
Definition rb_contents (rb : ring_buffer) : bytes :=
  ztake (readable_size_ rb)
    (zdrop (read_pos_ rb) (buffer_ rb) ++ ztake (read_pos_ rb) (buffer_ rb)).

Record rb_wf (rb : ring_buffer) : Prop := {
  wf_cap : 0 < capacity_ rb < 2 ^ 63;
  wf_len : len (buffer_ rb) = capacity_ rb;
  wf_read : 0 <= read_pos_ rb < capacity_ rb;
  wf_size : 0 <= readable_size_ rb <= capacity_ rb;
  wf_write : write_pos_ rb = (read_pos_ rb + readable_size_ rb) mod capacity_ rb;
}.

Lemma rb_wf_write_range rb : rb_wf rb -> 0 <= write_pos_ rb < capacity_ rb.
Proof. intros [? ? ? ? ->]. apply Z.mod_pos_bound. lia. Qed.

(** The expanded form of the write position. *)
Lemma rb_wf_write_cases rb :
  rb_wf rb ->
  write_pos_ rb =
    if read_pos_ rb + readable_size_ rb <? capacity_ rb
    then read_pos_ rb + readable_size_ rb
    else read_pos_ rb + readable_size_ rb - capacity_ rb.
Proof. intros [? ? ? ? ->]. apply mod_wrap; lia. Qed.

Lemma len_rb_contents rb : rb_wf rb -> len (rb_contents rb) = readable_size_ rb.
Proof. intros [? ? ? ? ?]. unfold rb_contents. autorewrite with lens. lia. Qed.

(** The [i]-th readable byte stands at [(read_pos_ + i) % capacity_]. *)
Lemma rb_contents_get rb i :
  rb_wf rb -> 0 <= i < readable_size_ rb ->
  zget (rb_contents rb) i =
  zget (buffer_ rb) ((read_pos_ rb + i) mod capacity_ rb).
Proof.
  intros [? Hl ? ? ?] ?. unfold rb_contents.
  rewrite zget_ztake by lia.
  assert (Hd : len (zdrop (read_pos_ rb) (buffer_ rb)) = capacity_ rb - read_pos_ rb)
    by (autorewrite with lens; lia).
  rewrite mod_wrap by lia.
  destruct (Z.ltb_spec (read_pos_ rb + i) (capacity_ rb)).
  - rewrite zget_app_l, zget_zdrop by lia. done.
  - rewrite zget_app_r, Hd, zget_ztake by lia. f_equal. lia.
Qed.

(** A linear segment of the block is a segment of the contents. *)
Lemma rb_segment rb i n :
  rb_wf rb -> 0 <= i -> 0 <= n -> i + n <= readable_size_ rb ->
  read_pos_ rb + i + n <= capacity_ rb \/ capacity_ rb <= read_pos_ rb + i ->
  mem_read (buffer_ rb) ((read_pos_ rb + i) mod capacity_ rb) n =
  Some (ztake n (zdrop i (rb_contents rb))).
Proof.
  intros Hwf ? ? ? Hlin. pose proof Hwf as [? Hl ? ? ?].
  pose proof (len_rb_contents rb Hwf) as Hc.
  pose proof (Z.mod_pos_bound (read_pos_ rb + i) (capacity_ rb) ltac:(lia)).
  destruct (decide (n = 0)) as [->|].
  { by rewrite mem_read_Some, !ztake_0 by lia. }
  assert (Hm : (read_pos_ rb + i) mod capacity_ rb + n <= capacity_ rb).
  { rewrite mod_wrap by lia. zcases. }
  rewrite mem_read_Some by lia. f_equal.
  apply zget_eq; autorewrite with lens; [lia|]. intros k ?.
  rewrite !zget_ztake, !zget_zdrop, rb_contents_get by (done || lia).
  f_equal. rewrite !mod_wrap by lia. zcases.
Qed.

Lemma rb_segment_head rb n :
  rb_wf rb -> 0 <= n <= readable_size_ rb -> n <= capacity_ rb - read_pos_ rb ->
  mem_read (buffer_ rb) (read_pos_ rb) n = Some (ztake n (rb_contents rb)).
Proof.
  intros Hwf ? ?. pose proof Hwf as [? ? ? ? ?].
  pose proof (rb_segment rb 0 n Hwf) as Hs.
  rewrite zdrop_0, Z.add_0_r, Z.mod_small in Hs by lia. apply Hs; lia.
Qed.

Lemma rb_segment_wrap rb n :
  rb_wf rb -> 0 <= n -> capacity_ rb - read_pos_ rb + n <= readable_size_ rb ->
  mem_read (buffer_ rb) 0 n =
  Some (ztake n (zdrop (capacity_ rb - read_pos_ rb) (rb_contents rb))).
Proof.
  intros Hwf ? ?. pose proof Hwf as [? ? ? ? ?].
  pose proof (rb_segment rb (capacity_ rb - read_pos_ rb) n Hwf) as Hs.
  replace (read_pos_ rb + (capacity_ rb - read_pos_ rb)) with (capacity_ rb) in Hs by lia.
  rewrite Z.mod_same in Hs by lia. apply Hs; lia.
Qed.

(** [stored buf cap w d buf']: [buf'] is [buf] with [d] stored from [w] on,
    wrapping around at [cap]. *)
Definition stored (buf : bytes) (cap w : Z) (d buf' : bytes) : Prop :=
  len buf' = len buf /\
  forall i, 0 <= i < cap ->
    zget buf' i =
      if (w <=? i) && (i <? w + len d) then zget d (i - w)
      else if i + cap <? w + len d then zget d (i + cap - w)
      else zget buf i.

Lemma stored_linear buf cap w d buf' :
  len buf = cap -> w + len d <= cap -> mem_write buf w d = Some buf' ->
  stored buf cap w d buf'.
Proof.
  intros ? ? Hw. split; [by eapply len_mem_write|]. intros i ?.
  rewrite (zget_mem_write _ _ _ _ _ Hw) by lia.
  rewrite (proj2 (Z.ltb_ge (i + cap) _)) by lia. done.
Qed.

Lemma stored_wrapped buf cap w d1 d2 b1 buf' :
  len buf = cap -> 0 < len d1 -> w + len d1 = cap -> len d2 <= w ->
  mem_write buf w d1 = Some b1 -> mem_write b1 0 d2 = Some buf' ->
  stored buf cap w (d1 ++ d2) buf'.
Proof.
  intros ? ? ? ? Hw1 Hw2. split.
  { rewrite (len_mem_write _ _ _ _ Hw2). by eapply len_mem_write. }
  intros i ?. rewrite (zget_mem_write _ _ _ _ _ Hw2) by lia.
  rewrite (zget_mem_write _ _ _ _ _ Hw1) by lia. rewrite len_app.
  pose proof (len_nonneg d2).
  rewrite (proj2 (Z.leb_le 0 i)) by lia.
  destruct (Z.ltb_spec i (0 + len d2)), (Z.leb_spec w i),
    (Z.ltb_spec i (w + len d1)), (Z.ltb_spec i (w + (len d1 + len d2))),
    (Z.ltb_spec (i + cap) (w + (len d1 + len d2))); simpl; try lia; try done.
  - rewrite zget_app_r by lia. f_equal. lia.
  - by rewrite zget_app_l by lia.
Qed.

(** Storing [d] behind the readable bytes and moving the write position appends [d]. *)
Lemma stored_append rb d buf' :
  rb_wf rb -> readable_size_ rb + len d <= capacity_ rb ->
  stored (buffer_ rb) (capacity_ rb) (write_pos_ rb) d buf' ->
  let rb' := mkRingBuffer buf' (capacity_ rb) (read_pos_ rb)
    (u64 (write_pos_ rb + len d) mod capacity_ rb)
    (u64 (readable_size_ rb + len d)) in
  rb_wf rb' /\ rb_contents rb' = rb_contents rb ++ d.
Proof.
  intros Hwf Hfit [Hl Hget]. pose proof Hwf as [? Hlb ? ? Hwp].
  pose proof (rb_wf_write_range rb Hwf). pose proof (len_nonneg d).
  rewrite !u64_small by lia.
  assert (Hwf' : rb_wf (mkRingBuffer buf' (capacity_ rb) (read_pos_ rb)
    ((write_pos_ rb + len d) mod capacity_ rb) (readable_size_ rb + len d))).
  { split; simpl; try lia. rewrite Hwp, Zplus_mod_idemp_l. f_equal. lia. }
  split; [done|].
  apply zget_eq; rewrite (len_rb_contents _ Hwf'); simpl.
  { autorewrite with lens. by rewrite len_rb_contents. }
  intros i ?. rewrite rb_contents_get by done. simpl.
  pose proof (Z.mod_pos_bound (read_pos_ rb + i) (capacity_ rb) ltac:(lia)).
  rewrite Hget by lia. rewrite (rb_wf_write_cases rb Hwf).
  destruct (decide (i < readable_size_ rb)).
  - rewrite zget_app_l, rb_contents_get by (rewrite ?len_rb_contents by done; done || lia).
    rewrite mod_wrap by lia.
    zcases; done.
  - rewrite zget_app_r by (rewrite len_rb_contents by done; lia).
    rewrite len_rb_contents, mod_wrap by (done || lia).
    zcases; f_equal; lia.
Qed.

(** ** Sizes *)

Lemma rb_WritableSize rb :
  rb_wf rb -> RingBuffer.WritableSize rb = capacity_ rb - readable_size_ rb.
Proof. intros [? ? ? ? ?]. unfold RingBuffer.WritableSize. by nowrap. Qed.

Lemma rb_ContiguousReadableSize rb :
  rb_wf rb ->
  RingBuffer.ContiguousReadableSize rb =
  Z.min (readable_size_ rb) (capacity_ rb - read_pos_ rb).
Proof.
  intros [? ? ? ? ?]. unfold RingBuffer.ContiguousReadableSize, RingBuffer.ReadableSize.
  nowrap. zcases.
Qed.

Lemma rb_ContiguousWritableSize rb :
  rb_wf rb ->
  RingBuffer.ContiguousWritableSize rb =
  Z.min (capacity_ rb - readable_size_ rb) (capacity_ rb - write_pos_ rb).
Proof.
  intros Hwf. pose proof (rb_wf_write_range rb Hwf). pose proof Hwf as [? ? ? ? ?].
  unfold RingBuffer.ContiguousWritableSize. rewrite rb_WritableSize by done.
  nowrap. zcases.
Qed.

(** ** Operations *)

Lemma rb_new_spec cap m :
  0 < cap < 2 ^ 63 -> len m = cap ->
  exists q, RingBuffer.RingBuffer cap (Some m) = Some q /\ rb_wf q /\
    rb_contents q = [] /\ capacity_ q = cap.
Proof.
  intros ? ?. eexists. split; [done|]. simpl.
  rewrite (proj2 (Z.ltb_lt 0 cap)) by lia.
  split; [|split; [|done]].
  - split; simpl; try lia. by rewrite Z.mod_0_l by lia.
  - unfold rb_contents. simpl. by rewrite ztake_0 by lia.
Qed.

Lemma rb_Write_spec rb src n :
  rb_wf rb -> 0 <= n <= len src ->
  exists rb', RingBuffer.Write rb (Some src) n =
      Some (fst (Fifo.write (capacity_ rb) (rb_contents rb) (ztake n src)), rb') /\
    rb_wf rb' /\ capacity_ rb' = capacity_ rb /\
    rb_contents rb' = snd (Fifo.write (capacity_ rb) (rb_contents rb) (ztake n src)).
Proof.
  intros Hwf Hn. pose proof Hwf as [? Hl ? ? ?].
  pose proof (rb_wf_write_range rb Hwf).
  assert (Ht : len (ztake n src) = n) by (rewrite len_ztake; lia).
  unfold RingBuffer.Write, Fifo.write.
  rewrite Ht, rb_WritableSize, len_rb_contents by done.
  destruct (Z.eqb_spec n 0); [by exists rb|].
  destruct (Z.ltb_spec (capacity_ rb - readable_size_ rb) n); [by exists rb|].
  nowrap. simpl.
  assert (exists buf', (if capacity_ rb - write_pos_ rb <? n then _ else _) = Some buf' /\
    stored (buffer_ rb) (capacity_ rb) (write_pos_ rb) (ztake n src) buf')
    as (buf' & -> & Hst).
  { destruct (Z.ltb_spec (capacity_ rb - write_pos_ rb) n) as [Hlt|Hge].
    - pose proof (rb_wf_write_cases rb Hwf) as Hcase.
      assert (read_pos_ rb + readable_size_ rb < capacity_ rb)
        by (destruct (Z.ltb_spec (read_pos_ rb + readable_size_ rb) (capacity_ rb)); lia).
      nowrap. rewrite !mem_read_Some by lia. simpl. rewrite (zdrop_0 0) by lia.
      rewrite mem_write_Some by (autorewrite with lens; lia). simpl.
      rewrite mem_write_Some by (autorewrite with lens; lia).
      eexists. split; [done|].
      rewrite <-(ztake_segments (capacity_ rb - write_pos_ rb) n src) by lia.
      eapply stored_wrapped;
        [done| | | |apply mem_write_Some|apply mem_write_Some];
        autorewrite with lens; lia.
    - rewrite mem_read_Some by lia. simpl. rewrite (zdrop_0 0) by lia.
      rewrite mem_write_Some by (autorewrite with lens; lia).
      eexists. split; [done|].
      apply stored_linear; [done|lia|apply mem_write_Some; lia]. }
  simpl. eexists. split; [done|].
  destruct (stored_append rb (ztake n src) buf' Hwf ltac:(lia) Hst) as [??].
  rewrite Ht in *. rewrite !u64_small in * by lia. done.
Qed.

Lemma rb_Peek_spec rb dst n :
  rb_wf rb -> 0 <= n <= len dst ->
  RingBuffer.Peek rb (Some dst) n =
    Some (fst (Fifo.peek n (rb_contents rb)),
          Some (match snd (Fifo.peek n (rb_contents rb)) with
                | Some d => d ++ zdrop n dst
                | None => dst
                end)).
Proof.
  intros Hwf Hn. pose proof Hwf as [? Hl ? ? ?].
  pose proof (len_rb_contents rb Hwf) as Hc.
  unfold RingBuffer.Peek, Fifo.peek. rewrite Hc.
  destruct (Z.eqb_spec n 0); [done|].
  destruct (Z.ltb_spec (readable_size_ rb) n); [done|].
  nowrap. simpl. set (e := capacity_ rb - read_pos_ rb).
  destruct (Z.ltb_spec e n).
  - rewrite u64_small by lia. rewrite rb_segment_head by (done || lia). simpl.
    rewrite mem_write_Some by (autorewrite with lens; lia). simpl.
    rewrite (rb_segment_wrap rb (n - e)) by (done || lia). simpl. fold e.
    rewrite mem_write_Some by (autorewrite with lens; lia). simpl.
    do 3 f_equal. rewrite ztake_app_l, (ztake_all e (ztake e _)) by (autorewrite with lens; lia).
    rewrite <-(ztake_segments e n) by lia. rewrite <-app_assoc. do 2 f_equal.
    rewrite zdrop_app_r by (autorewrite with lens; lia).
    rewrite zdrop_zdrop by (autorewrite with lens; lia).
    f_equal. autorewrite with lens. lia.
  - rewrite rb_segment_head by (done || lia). simpl.
    rewrite mem_write_Some by (autorewrite with lens; lia). simpl.
    do 5 f_equal.
    autorewrite with lens. lia.
Qed.

Lemma rb_ReadPtr_spec rb n :
  rb_wf rb -> 0 <= n <= RingBuffer.ContiguousReadableSize rb ->
  mem_read (RingBuffer.ReadPtr rb) 0 n = Some (ztake n (rb_contents rb)).
Proof.
  intros Hwf. pose proof Hwf as [? Hl ? ? ?].
  rewrite rb_ContiguousReadableSize by done. intros.
  pose proof (rb_segment_head rb n Hwf ltac:(lia) ltac:(lia)) as Hs.
  apply mem_read_inv in Hs as (? & ? & ? & ->). unfold RingBuffer.ReadPtr.
  rewrite mem_read_Some by (autorewrite with lens; lia). by rewrite (zdrop_0 0).
Qed.

(** Past those bytes the read leaves the block, even inside the readable size. *)
Lemma rb_ReadPtr_past rb n :
  rb_wf rb -> RingBuffer.ContiguousReadableSize rb < n <= RingBuffer.ReadableSize rb ->
  mem_read (RingBuffer.ReadPtr rb) 0 n = None.
Proof.
  intros Hwf [Hc Hn]. rewrite rb_ContiguousReadableSize in Hc by done.
  pose proof Hwf as [? Hl ? ? ?]. unfold RingBuffer.ReadableSize in Hn.
  destruct (mem_read _ _ _) eqn:Hr; [|done]. apply mem_read_inv in Hr as (? & ? & Hr & _).
  unfold RingBuffer.ReadPtr in Hr. rewrite len_zdrop in Hr. lia.
Qed.

Lemma rb_Store_Produce_spec rb d :
  rb_wf rb -> len d <= RingBuffer.ContiguousWritableSize rb ->
  exists rb', RingBuffer.StoreAtWritePtr rb d = Some rb' /\
    rb_wf (RingBuffer.Produce rb' (len d)) /\
    capacity_ (RingBuffer.Produce rb' (len d)) = capacity_ rb /\
    rb_contents (RingBuffer.Produce rb' (len d)) = rb_contents rb ++ d.
Proof.
  intros Hwf. pose proof Hwf as [? Hl ? ? ?].
  pose proof (rb_wf_write_range rb Hwf). pose proof (len_nonneg d).
  rewrite rb_ContiguousWritableSize by done. intros Hd.
  assert (Hw := mem_write_Some (buffer_ rb) (write_pos_ rb) d ltac:(lia) ltac:(lia)).
  unfold RingBuffer.StoreAtWritePtr. rewrite Hw. simpl. eexists. split; [done|].
  apply (stored_linear _ (capacity_ rb)) in Hw; [|lia..].
  destruct (stored_append rb d _ Hwf ltac:(lia) Hw) as [Hwf' Hc].
  unfold RingBuffer.Produce, RingBuffer.WritableSize. simpl.
  rewrite !(u64_small (capacity_ rb - readable_size_ rb)) by lia.
  rewrite !(proj2 (Z.ltb_ge _ _)) by lia. nowrap.
  split; [|split; [done|]].
  - by rewrite !u64_small in Hwf' by lia.
  - by rewrite !u64_small in Hc by lia.
Qed.

Lemma rb_Consume_spec rb n :
  rb_wf rb -> 0 <= n ->
  rb_wf (RingBuffer.Consume rb n) /\
  capacity_ (RingBuffer.Consume rb n) = capacity_ rb /\
  rb_contents (RingBuffer.Consume rb n) = Fifo.consume n (rb_contents rb).
Proof.
  intros Hwf Hn. pose proof Hwf as [? Hl ? ? Hw].
  pose proof (len_rb_contents rb Hwf) as Hc.
  unfold RingBuffer.Consume, Fifo.consume. rewrite Hc.
  assert ((if readable_size_ rb <? n then readable_size_ rb else n) =
    Z.min n (readable_size_ rb)) as -> by zcases.
  set (k := Z.min n (readable_size_ rb)). nowrap.
  assert (Hwf' : rb_wf (mkRingBuffer (buffer_ rb) (capacity_ rb)
    ((read_pos_ rb + k) mod capacity_ rb) (write_pos_ rb) (readable_size_ rb - k))).
  { split; simpl; try lia; [by apply Z.mod_pos_bound; lia|].
    rewrite Hw, Zplus_mod_idemp_l. f_equal. lia. }
  split; [done|split; [done|]].
  apply zget_eq; rewrite (len_rb_contents _ Hwf'); simpl.
  { rewrite len_zdrop, Hc. lia. }
  intros i ?. rewrite rb_contents_get by done. simpl.
  rewrite zget_zdrop, rb_contents_get by (done || lia).
  rewrite Zplus_mod_idemp_l. do 2 f_equal. lia.
Qed.

(** The readable bytes do not go around the end of the block. *)
Definition unwrapped rb : Prop := read_pos_ rb + readable_size_ rb <= capacity_ rb.

Lemma rb_Consume_unwrapped rb n :
  rb_wf rb -> 0 <= n -> unwrapped rb -> unwrapped (RingBuffer.Consume rb n).
Proof.
  unfold unwrapped, RingBuffer.Consume. intros [? ? ? ? ?] Hn Hu.
  assert ((if readable_size_ rb <? n then readable_size_ rb else n) =
    Z.min n (readable_size_ rb)) as -> by zcases.
  set (k := Z.min n (readable_size_ rb)). nowrap. cbn [read_pos_ readable_size_ capacity_].
  destruct (Z.eq_dec (read_pos_ rb + k) (capacity_ rb)) as [He|].
  - rewrite He, Z.mod_same by lia. lia.
  - rewrite Z.mod_small by lia. lia.
Qed.

Lemma rb_window_range rb max :
  rb_wf rb -> 0 <= max -> 0 <= RingBuffer.search_window rb max <= readable_size_ rb.
Proof.
  intros [? ? ? ? ?] ?. unfold RingBuffer.search_window. zcases.
Qed.

Lemma rb_window rb max :
  rb_wf rb ->
  Fifo.window max (rb_contents rb) =
  ztake (RingBuffer.search_window rb max) (rb_contents rb).
Proof.
  intros Hwf. pose proof (len_rb_contents rb Hwf) as Hc.
  unfold Fifo.window, RingBuffer.search_window. zcases.
  - destruct (decide (max <= readable_size_ rb)).
    + by rewrite Z.min_l by lia.
    + by rewrite Z.min_r, !ztake_all by lia.
  - by rewrite ztake_all by lia.
Qed.

Lemma rb_FindChar_spec rb c max :
  rb_wf rb -> 0 <= max ->
  RingBuffer.FindChar rb c max = Some (Fifo.find_char c max (rb_contents rb)).
Proof.
  intros Hwf Hmax. pose proof Hwf as [? ? ? ? ?].
  pose proof (len_rb_contents rb Hwf) as Hc.
  pose proof (rb_window_range rb max Hwf Hmax).
  unfold RingBuffer.FindChar, Fifo.find_char, RingBuffer.memchr.
  rewrite rb_window, rb_ContiguousReadableSize by done.
  set (L := RingBuffer.search_window rb max) in *.
  set (e := capacity_ rb - read_pos_ rb).
  destruct (Z.eqb_spec (readable_size_ rb) 0).
  { by rewrite ztake_0 by lia. }
  rewrite rb_segment_head by (done || lia). simpl.
  destruct (Z.ltb_spec (Z.min (readable_size_ rb) e) L).
  - rewrite Z.min_r by lia. replace (Z.min (readable_size_ rb) e) with e by lia.
    rewrite u64_small, rb_segment_wrap by (done || lia). fold e.
    rewrite <-(ztake_segments e L), index_of_app by lia.
    destruct (index_of c (ztake e (rb_contents rb))); [done|]. simpl.
    destruct (index_of _ _) as [i|] eqn:Hi; [|done]. simpl. f_equal.
    apply index_of_range in Hi. revert Hi. autorewrite with lens. intros.
    rewrite u64_small by lia. lia.
  - rewrite Z.min_l by lia. by destruct (index_of _ _).
Qed.

(** The inner loop decides whether [substr] stands at offset [i] of the contents. *)
Lemma match_loop_spec rb s n i fuel j :
  rb_wf rb -> 0 <= j <= n -> n <= len s -> 0 <= i -> i + n <= readable_size_ rb ->
  n - j <= Z.of_nat fuel ->
  RingBuffer.match_loop (buffer_ rb) (capacity_ rb)
    ((read_pos_ rb + i) mod capacity_ rb) s n fuel j =
  Some (starts_with (zdrop j (ztake n s)) (zdrop (i + j) (rb_contents rb))).
Proof.
  intros Hwf. pose proof Hwf as [? Hl ? ? ?].
  pose proof (len_rb_contents rb Hwf) as Hc. revert j.
  induction fuel as [|fuel IH]; intros j ? ? ? ? ?; simpl.
  { rewrite (proj2 (Z.ltb_ge j n)), zdrop_all by (autorewrite with lens; lia). done. }
  destruct (Z.ltb_spec j n).
  2: { rewrite zdrop_all by (autorewrite with lens; lia). done. }
  pose proof (Z.mod_pos_bound (read_pos_ rb + i) (capacity_ rb) ltac:(lia)).
  rewrite u64_small, Zplus_mod_idemp_l, <-Z.add_assoc, <-rb_contents_get by (done || lia).
  destruct (zget_is_Some (i + j) (rb_contents rb)) as [a Ha]; [lia|].
  destruct (zget_is_Some j (ztake n s)) as [b Hb]; [autorewrite with lens; lia|].
  rewrite Ha, <-(zget_ztake j n), Hb by lia. simpl.
  rewrite (zdrop_cons _ _ _ Ha), (zdrop_cons _ _ _ Hb). simpl.
  rewrite Ascii.eqb_sym. destruct (Ascii.eqb b a); [|done]. simpl.
  rewrite IH by lia. do 3 f_equal. lia.
Qed.

(** The outer loop finds the first occurrence from [i] on. *)
Lemma find_loop_spec rb s n L fuel i :
  rb_wf rb -> 0 < n <= len s -> n <= L <= readable_size_ rb -> 0 <= i <= L - n + 1 ->
  L - n + 1 - i <= Z.of_nat fuel ->
  RingBuffer.find_loop rb s n (L - n) fuel i =
  Some (default npos (Z.add i <$> find_sub (ztake n s) (zdrop i (ztake L (rb_contents rb))))).
Proof.
  intros Hwf. pose proof Hwf as [? Hl ? ? ?].
  pose proof (len_rb_contents rb Hwf) as Hc. revert i.
  induction fuel as [|fuel IH]; intros i Hn HL Hi Hf; simpl.
  { rewrite (proj2 (Z.leb_gt i (L - n))), find_sub_short by llia. done. }
  destruct (Z.leb_spec i (L - n)).
  2: { rewrite find_sub_short by llia. done. }
  rewrite u64_small, match_loop_spec by (done || lia). simpl.
  destruct (zget_is_Some i (ztake L (rb_contents rb))) as [x Hx]; [llia|].
  rewrite (zdrop_0 0), Z.add_0_r by lia.
  rewrite find_sub_step by (by rewrite (zdrop_cons _ _ _ Hx)).
  assert (starts_with (ztake n s) (zdrop i (ztake L (rb_contents rb))) =
    starts_with (ztake n s) (zdrop i (rb_contents rb))) as ->.
  { rewrite zdrop_ztake by lia. apply starts_with_ztake. llia. }
  destruct (starts_with _ _); simpl; [do 2 f_equal; lia|].
  rewrite IH, zdrop_zdrop by lia. f_equal.
  destruct (find_sub _ _); simpl; [lia|done].
Qed.

Lemma rb_FindSubstring_spec rb p n max :
  rb_wf rb -> 0 <= n <= len p -> 0 <= max ->
  RingBuffer.FindSubstring rb (Some p) n max =
    Some (Fifo.find (ztake n p) max (rb_contents rb)).
Proof.
  intros Hwf Hn Hmax. pose proof Hwf as [? Hl ? ? ?].
  pose proof (len_rb_contents rb Hwf) as Hc.
  pose proof (rb_window_range rb max Hwf Hmax).
  unfold RingBuffer.FindSubstring, Fifo.find. rewrite rb_window by done.
  set (L := RingBuffer.search_window rb max) in *.
  rewrite len_ztake, Z.max_r, Z.min_l by lia.
  destruct (Z.eqb_spec n 0); [by rewrite orb_true_r|]. rewrite orb_false_r.
  destruct (Z.eqb_spec (readable_size_ rb) 0).
  { rewrite find_sub_short by (autorewrite with lens; lia). done. }
  destruct (Z.ltb_spec L n).
  { rewrite find_sub_short by (autorewrite with lens; lia). done. }
  rewrite u64_small by lia.
  rewrite find_loop_spec, (zdrop_0 0) by (done || lia).
  by destruct (find_sub _ _).
Qed.

Lemma rb_GetReadableIoVec_spec rb :
  rb_wf rb ->
  exists iov, RingBuffer.GetReadableIoVec rb = Some iov /\ mjoin iov = rb_contents rb /\
    (length iov <= 2)%nat /\ (iov = [] <-> rb_contents rb = []) /\
    Forall (fun d => d <> []) iov.
Proof.
  intros Hwf. pose proof Hwf as [? Hl ? ? ?].
  pose proof (len_rb_contents rb Hwf) as Hc.
  unfold RingBuffer.GetReadableIoVec. rewrite rb_ContiguousReadableSize by done.
  destruct (Z.eqb_spec (readable_size_ rb) 0) as [Hz|].
  { rewrite Hz, len_0 in Hc. rewrite Hc. exists []. split_and!; simpl; done || lia. }
  assert (Hne : forall k (l : bytes), 0 < k -> 0 < len l -> ztake k l <> []).
  { intros k l ? ? Hk%len_0. autorewrite with lens in Hk. lia. }
  assert (rb_contents rb <> []) by (rewrite <-len_0; lia).
  set (e := capacity_ rb - read_pos_ rb).
  rewrite rb_segment_head by (done || lia). simpl. nowrap.
  destruct (Z.ltb_spec 0 (readable_size_ rb - Z.min (readable_size_ rb) e)).
  - rewrite Z.min_r, rb_segment_wrap by (done || lia). fold e. simpl.
    eexists. split; [done|]. simpl. rewrite app_nil_r, ztake_segments by lia.
    rewrite ztake_all by lia. split; [done|]. split; [lia|]. split; [by split|].
    repeat constructor; apply Hne; autorewrite with lens; lia.
  - rewrite Z.min_l, ztake_all by lia. eexists. split; [done|]. simpl.
    rewrite app_nil_r. split; [done|]. split; [lia|]. split; [by split|].
    by repeat constructor.
Qed.

(** ** The interface *)

#[export] Instance ring_buffer_queue : ByteQueue ring_buffer := {
  bq_new := RingBuffer.RingBuffer;
  bq_Write := RingBuffer.Write;
  bq_Peek := RingBuffer.Peek;
  bq_ReadableSize := RingBuffer.ReadableSize;
  bq_WritableSize := RingBuffer.WritableSize;
  bq_ContiguousWritableSize := RingBuffer.ContiguousWritableSize;
  bq_ContiguousReadableSize := RingBuffer.ContiguousReadableSize;
  bq_ReadPtr := RingBuffer.ReadPtr;
  bq_StoreAtWritePtr := RingBuffer.StoreAtWritePtr;
  bq_Consume := RingBuffer.Consume;
  bq_Produce := RingBuffer.Produce;
  bq_FindSubstring := RingBuffer.FindSubstring;
  bq_GetReadableIoVec := RingBuffer.GetReadableIoVec;
  bq_inv := rb_wf;
  bq_contents := rb_contents;
  bq_capacity := capacity_;
}.

#[export] Instance ring_buffer_queue_laws : ByteQueueLaws ring_buffer.
Proof.
  split; simpl.
  - apply rb_new_spec.
  - done.
  - apply rb_Write_spec.
  - apply rb_Peek_spec.
  - intros q Hwf. by rewrite len_rb_contents.
  - intros q Hwf. by rewrite rb_WritableSize, len_rb_contents.
  - intros q Hwf. rewrite len_rb_contents by done. destruct Hwf. lia.
  - intros q Hwf. pose proof (rb_wf_write_range q Hwf).
    rewrite rb_ContiguousWritableSize, rb_WritableSize by done. destruct Hwf. lia.
  - apply rb_ReadPtr_spec.
  - apply rb_Store_Produce_spec.
  - apply rb_Consume_spec.
  - apply rb_FindSubstring_spec.
  - apply rb_GetReadableIoVec_spec.
Qed.

(** ** Refinement: any use of the buffer is a use of a bounded FIFO *)

(** What a client does with the buffer.  [UseReceive] stores bytes through
    [WritePtr()], as many as fit contiguously, and reports them to [Produce]. *)
Inductive ring_use :=
  | UseWrite (d : bytes)
  | UseReceive (d : bytes)
  | UsePeek (n : N)
  | UseConsume (n : N)
  | UseFind (p : bytes) (max : N)
  | UseFindChar (c : byte) (max : N)
  | UseIoVec.

(** What the client sees. *)
Inductive ring_view :=
  | SawStatus (s : status)
  | SawBytes (s : status) (d : bytes)
  | SawCount (n : Z)
  | SawNothing.

Definition ring_step (rb : ring_buffer) (u : ring_use) : option (ring_view * ring_buffer) :=
  match u with
  | UseWrite d =>
    '(st, rb) ← RingBuffer.Write rb (Some d) (len d); Some (SawStatus st, rb)
  | UseReceive d =>
    let d := ztake (RingBuffer.ContiguousWritableSize rb) d in
    rb ← RingBuffer.StoreAtWritePtr rb d;
    Some (SawCount (len d), RingBuffer.Produce rb (len d))
  | UsePeek n =>
    '(st, d) ← RingBuffer.Peek rb (Some (replicate (N.to_nat n) NUL)) (Z.of_N n);
    Some (SawBytes st (default [] d), rb)
  | UseConsume n => Some (SawNothing, RingBuffer.Consume rb (Z.of_N n))
  | UseFind p max =>
    i ← RingBuffer.FindSubstring rb (Some p) (len p) (Z.of_N max); Some (SawCount i, rb)
  | UseFindChar c max =>
    i ← RingBuffer.FindChar rb c (Z.of_N max); Some (SawCount i, rb)
  | UseIoVec =>
    iov ← RingBuffer.GetReadableIoVec rb; Some (SawBytes Status.Ok (mjoin iov), rb)
  end.

Fixpoint ring_run (rb : ring_buffer) (us : list ring_use)
    : option (list ring_view * ring_buffer) :=
  match us with
  | [] => Some ([], rb)
  | u :: us =>
    '(v, rb) ← ring_step rb u;
    '(vs, rb) ← ring_run rb us;
    Some (v :: vs, rb)
  end.

(** The same uses of a queue [q] of capacity [cap]; how much one receive takes is
    left open, but it takes something unless nothing fits or nothing is there. *)
Inductive fifo_step (cap : Z) : bytes -> ring_use -> ring_view -> bytes -> Prop :=
  | fifo_write q d :
      fifo_step cap q (UseWrite d) (SawStatus (fst (Fifo.write cap q d)))
        (snd (Fifo.write cap q d))
  | fifo_receive q d k :
      0 <= k <= Z.min (len d) (cap - len q) ->
      (k = 0 -> len d = 0 \/ cap = len q) ->
      fifo_step cap q (UseReceive d) (SawCount k) (q ++ ztake k d)
  | fifo_peek q n :
      fifo_step cap q (UsePeek n)
        (SawBytes (fst (Fifo.peek (Z.of_N n) q))
           (default (replicate (N.to_nat n) NUL) (snd (Fifo.peek (Z.of_N n) q)))) q
  | fifo_consume q n :
      fifo_step cap q (UseConsume n) SawNothing (Fifo.consume (Z.of_N n) q)
  | fifo_find q p max :
      fifo_step cap q (UseFind p max) (SawCount (Fifo.find p (Z.of_N max) q)) q
  | fifo_find_char q c max :
      fifo_step cap q (UseFindChar c max) (SawCount (Fifo.find_char c (Z.of_N max) q)) q
  | fifo_iovec q :
      fifo_step cap q UseIoVec (SawBytes Status.Ok q) q.

Inductive fifo_run (cap : Z) : bytes -> list ring_use -> list ring_view -> bytes -> Prop :=
  | fifo_run_nil q : fifo_run cap q [] [] q
  | fifo_run_cons q u v q1 us vs q2 :
      fifo_step cap q u v q1 -> fifo_run cap q1 us vs q2 ->
      fifo_run cap q (u :: us) (v :: vs) q2.

Lemma ring_step_refines rb u :
  rb_wf rb ->
  exists v rb', ring_step rb u = Some (v, rb') /\ rb_wf rb' /\
    capacity_ rb' = capacity_ rb /\
    fifo_step (capacity_ rb) (rb_contents rb) u v (rb_contents rb').
Proof.
  intros Hwf. pose proof (len_rb_contents rb Hwf) as Hlen. destruct u as [d|d|n|n|p max|c max|].
  - pose proof (len_nonneg d).
    destruct (rb_Write_spec rb d (len d) Hwf ltac:(lia)) as (rb' & Hw & ? & ? & Hc).
    rewrite ztake_all in Hw, Hc by lia. unfold ring_step. rewrite Hw. simpl.
    eexists _, rb'. split_and!; [done..|]. rewrite Hc. constructor.
  - unfold ring_step. set (k := RingBuffer.ContiguousWritableSize rb). pose proof (len_nonneg d).
    destruct (rb_Store_Produce_spec rb (ztake k d) Hwf) as (rb' & Hst & ? & ? & Hc).
    { unfold k. rewrite len_ztake, rb_ContiguousWritableSize by done.
      pose proof (rb_wf_write_range rb Hwf). pose proof Hwf as [? ? ? ? ?]. lia. }
    rewrite Hst. simpl. eexists _, _. split_and!; [done..|]. rewrite Hc.
    assert (Hk : ztake k d = ztake (len (ztake k d)) d).
    { rewrite len_ztake. unfold k. rewrite rb_ContiguousWritableSize by done.
      pose proof (rb_wf_write_range rb Hwf). pose proof Hwf as [? ? ? ? ?].
      set (j := Z.min (_ - _) _). replace (Z.min (Z.max 0 j) (len d)) with (Z.min j (len d)) by lia.
      destruct (decide (j <= len d)); [by rewrite Z.min_l by lia|].
      rewrite Z.min_r by lia. by rewrite !ztake_all by lia. }
    rewrite Hk at 2. constructor; rewrite len_ztake; unfold k;
      rewrite rb_ContiguousWritableSize, Hlen by done;
      pose proof (rb_wf_write_range rb Hwf); pose proof Hwf as [? ? ? ? ?]; lia.
  - unfold ring_step. rewrite rb_Peek_spec by (done || (unfold len; rewrite length_replicate; lia)).
    simpl. eexists _, rb. split_and!; [done..|].
    assert (Hz : zdrop (Z.of_N n) (replicate (N.to_nat n) NUL) = []).
    { apply zdrop_all. unfold len. rewrite length_replicate. lia. }
    rewrite Hz. pose proof (fifo_peek (capacity_ rb) (rb_contents rb) n) as Hp.
    destruct (snd (Fifo.peek _ _)); simpl in *; [by rewrite app_nil_r|done].
  - unfold ring_step. destruct (rb_Consume_spec rb (Z.of_N n) Hwf ltac:(lia)) as (? & ? & Hc).
    eexists _, _. split_and!; [done..|]. rewrite Hc. constructor.
  - unfold ring_step. pose proof (len_nonneg p). rewrite rb_FindSubstring_spec by (done || lia).
    rewrite ztake_all by lia. simpl. eexists _, rb. split_and!; [done..|]. constructor.
  - unfold ring_step. rewrite rb_FindChar_spec by (done || lia). simpl.
    eexists _, rb. split_and!; [done..|]. constructor.
  - unfold ring_step. destruct (rb_GetReadableIoVec_spec rb Hwf) as (iov & -> & Hj & _). simpl.
    rewrite Hj. eexists _, rb. split_and!; [done..|]. constructor.
Qed.

Lemma ring_run_refines rb us :
  rb_wf rb ->
  exists vs rb', ring_run rb us = Some (vs, rb') /\ rb_wf rb' /\
    fifo_run (capacity_ rb) (rb_contents rb) us vs (rb_contents rb').
Proof.
  revert rb. induction us as [|u us IH]; intros rb Hwf; simpl.
  { eexists _, rb. split_and!; [done..|]. constructor. }
  destruct (ring_step_refines rb u Hwf) as (v & rb1 & -> & Hwf1 & Hcap & Hstep). simpl.
  destruct (IH rb1 Hwf1) as (vs & rb2 & -> & Hwf2 & Hrun). simpl.
  eexists _, rb2. split_and!; [done..|]. rewrite Hcap in Hrun. by econstructor.
Qed.

(** ** Properties *)

(** C10: The ring buffer is a bounded FIFO queue of bytes.  Constructed with a
    positive capacity, it serves any sequence of writes, receives, peeks,
    consumes, searches and gathers without an access outside its block, and
    everything its client sees is what a queue of that capacity would show. *)
Theorem ring_refines_fifo cap m us :
  0 < cap < 2 ^ 63 -> len m = cap ->
  exists rb0 vs rb, RingBuffer.RingBuffer cap (Some m) = Some rb0 /\
    ring_run rb0 us = Some (vs, rb) /\ rb_wf rb /\
    fifo_run cap [] us vs (rb_contents rb).
Proof.
  intros Hcap Hm. destruct (rb_new_spec cap m Hcap Hm) as (rb0 & Hnew & Hwf & Hc & Hc2).
  destruct (ring_run_refines rb0 us Hwf) as (vs & rb & Hrun & Hwf' & Hf).
  rewrite Hc, Hc2 in Hf. by exists rb0, vs, rb.
Qed.

Lemma ring_refines_fifo_witness :
  let us := [UseWrite (lit "abc"); UseConsume 2; UseWrite (lit "def"); UseIoVec] in
  exists rb0 vs rb, RingBuffer.RingBuffer 4 (Some (replicate 4 NUL)) = Some rb0 /\
    ring_run rb0 us = Some (vs, rb) /\ fifo_run 4 [] us vs (rb_contents rb).
Proof.
  intros us. destruct (ring_refines_fifo 4 (replicate 4 NUL) us) as (rb0 & vs & rb & H);
    [lia|reflexivity|].
  exists rb0, vs, rb. destruct H as (H1 & H2 & _ & H3). exact (conj H1 (conj H2 H3)).
Defined.

(** [FindSubstring] finds the first occurrence.  Its result is [npos] exactly
    when the pattern does not occur in the searched window; any other result is
    the offset of an occurrence, and none begins earlier. *)
Theorem FindSubstring_first rb p max r :
  rb_wf rb -> 0 < len p < npos -> 0 <= max ->
  RingBuffer.FindSubstring rb (Some p) (len p) max = Some r ->
  let text := Fifo.window max (rb_contents rb) in
  (r = npos /\ ~ (exists a b, text = a ++ p ++ b)) \/
  (exists a b, text = a ++ p ++ b /\ r = len a /\ r < npos /\
    forall a2 b2, text = a2 ++ p ++ b2 -> len a <= len a2).
Proof.
  intros Hwf Hp Hmax. rewrite rb_FindSubstring_spec, ztake_all by (done || lia).
  intros [= <-]. simpl. unfold Fifo.find. rewrite (proj2 (Z.eqb_neq _ 0)) by lia.
  destruct (find_sub p (Fifo.window max (rb_contents rb))) as [i|] eqn:Hf; simpl.
  - right. pose proof (find_sub_bound _ _ _ Hf) as Hb.
    pose proof (find_sub_Some _ _ _ Hf) as (Hi & k & Hk).
    exists (ztake i (Fifo.window max (rb_contents rb))), k.
    assert (Hl : len (ztake i (Fifo.window max (rb_contents rb))) = i) by llia.
    split_and!; [by rewrite <-Hk, ztake_zdrop|done| |].
    + assert (len (Fifo.window max (rb_contents rb)) <= len (rb_contents rb)).
      { unfold Fifo.window. case_match; [|done]. rewrite len_ztake. lia. }
      rewrite len_rb_contents in * by done. pose proof Hwf as [? ? ? ? ?].
      unfold npos in *. lia.
    + rewrite Hl. intros a2 b2. by apply find_sub_first.
  - left. split; [done|]. rewrite <-find_sub_ex, Hf. by intros [? ?].
Qed.

Definition wrapped_ring : ring_buffer := mkRingBuffer (lit "cdab") 4 2 2 4.

Lemma wrapped_ring_wf : rb_wf wrapped_ring.
Proof. by split; vm_compute; repeat split. Defined.

Lemma FindSubstring_first_witness :
  exists r, RingBuffer.FindSubstring wrapped_ring (Some (lit "bc")) 2 0 = Some r /\
    let text := Fifo.window 0 (rb_contents wrapped_ring) in
    (r = npos /\ ~ (exists a b, text = a ++ lit "bc" ++ b)) \/
    (exists a b, text = a ++ lit "bc" ++ b /\ r = len a /\ r < npos /\
      forall a2 b2, text = a2 ++ lit "bc" ++ b2 -> len a <= len a2).
Proof.
  exists 1. split; [reflexivity|].
  apply (FindSubstring_first wrapped_ring (lit "bc") 0 1);
    [apply wrapped_ring_wf|by vm_compute|lia|reflexivity].
Defined.

(** [ReadPtr] is good for [ContiguousReadableSize] bytes only: those are the
    head of the queue; reading more of the readable bytes from there runs past
    the end of the block. *)
Theorem ReadPtr_contiguous rb n :
  rb_wf rb -> 0 <= n <= RingBuffer.ReadableSize rb ->
  mem_read (RingBuffer.ReadPtr rb) 0 n =
  if n <=? RingBuffer.ContiguousReadableSize rb
  then Some (ztake n (rb_contents rb)) else None.
Proof.
  intros Hwf Hn. destruct (Z.leb_spec n (RingBuffer.ContiguousReadableSize rb)).
  - apply rb_ReadPtr_spec; [done|lia].
  - apply rb_ReadPtr_past; [done|lia].
Qed.

Lemma ReadPtr_contiguous_witness :
  mem_read (RingBuffer.ReadPtr wrapped_ring) 0 4 = None.
Proof.
  rewrite (ReadPtr_contiguous wrapped_ring 4); [reflexivity|apply wrapped_ring_wf|].
  vm_compute. split; discriminate.
Defined.

(** Reporting any number of produced or consumed bytes keeps the invariant:
    both are clamped to what is writable or readable. *)
Theorem Produce_Consume_clamp rb n :
  rb_wf rb -> 0 <= n ->
  rb_wf (RingBuffer.Produce rb n) /\
  RingBuffer.ReadableSize (RingBuffer.Produce rb n) =
    Z.min (RingBuffer.ReadableSize rb + n) (capacity_ rb) /\
  rb_wf (RingBuffer.Consume rb n) /\
  RingBuffer.ReadableSize (RingBuffer.Consume rb n) =
    Z.max 0 (RingBuffer.ReadableSize rb - n).
Proof.
  intros Hwf Hn. pose proof Hwf as [? Hl ? ? Hw]. pose proof (rb_wf_write_range rb Hwf).
  destruct (rb_Consume_spec rb n Hwf Hn) as (Hc & _ & Hcc).
  apply (f_equal len) in Hcc. unfold Fifo.consume in Hcc.
  rewrite len_zdrop, !len_rb_contents in Hcc by done.
  unfold RingBuffer.ReadableSize in *.
  assert (Hp : rb_wf (RingBuffer.Produce rb n) /\
    readable_size_ (RingBuffer.Produce rb n) = Z.min (readable_size_ rb + n) (capacity_ rb)).
  { unfold RingBuffer.Produce. rewrite rb_WritableSize by done.
    set (k := if (capacity_ rb - readable_size_ rb) <? n then _ else n).
    assert (k = Z.min n (capacity_ rb - readable_size_ rb)) as -> by (unfold k; zcases).
    simpl. nowrap. split; [|lia]. split; simpl; try done; try lia.
    rewrite Hw, Zplus_mod_idemp_l. f_equal. lia. }
  destruct Hp as [? ?]. split_and!; [done..|lia].
Qed.

Lemma Produce_Consume_clamp_witness :
  rb_wf (RingBuffer.Produce wrapped_ring 9) /\
  RingBuffer.ReadableSize (RingBuffer.Consume wrapped_ring 9) = 0.
Proof.
  destruct (Produce_Consume_clamp wrapped_ring 9) as (H1 & _ & _ & H2);
    [apply wrapped_ring_wf|lia|]. split; [exact H1|exact H2].
Defined.
