(* ===== verification/FdGuard.v ===== *)
(** * Owned file descriptors (src/src/net/fd_guard.h)

    A guard is the descriptor it owns, -1 for none; closing is a system call. *)
From S2P Require Import Prelude Kernel.

Abbreviation fd_guard := Z (only parsing).

Module FdGuard.
Section FdGuard.
Context `{K : Kernel}.

(** [FdGuard()] and [FdGuard(int fd)] *)
Definition FdGuard : fd_guard := -1.
Definition FdGuard_of (fd : Z) : fd_guard := fd.

Definition IsValid (g : fd_guard) : bool := 0 <=? g.
Definition fd (g : fd_guard) : Z := g.

(** [operator bool] *)
Definition to_bool (g : fd_guard) : bool := IsValid g.

Definition Close (g : fd_guard) : M fd_guard :=
  if 0 <=? g then _ ← sys (SysClose g); mret (-1) else mret g.

Definition Reset (g : fd_guard) (fd : Z) : M fd_guard :=
  _ ← Close g; mret fd.

(** The descriptor handed over, and the guard afterwards. *)
Definition Release (g : fd_guard) : Z * fd_guard := (g, -1).

(** [FdGuard(FdGuard&& other)]: the new guard and [other] afterwards *)
Definition move_construct (other : fd_guard) : fd_guard * fd_guard := (other, -1).

(** [g = std::move(other)] for two distinct guards: [g] and [other] afterwards *)
Definition move_assign (g other : fd_guard) : M (fd_guard * fd_guard) :=
  _ ← Close g; mret (other, -1).

(** [~FdGuard()] *)
Definition destroy (g : fd_guard) : M unit := _ ← Close g; mret tt.
End FdGuard.
End FdGuard.

(** The [close] calls of a trace, in order. *)
Definition closes (tr : list event) : list Z :=
  omap (fun ev => match fst ev with SysClose fd => Some fd | _ => None end) tr.

Lemma closes_app a b : closes (a ++ b) = closes a ++ closes b.
Proof. apply omap_app. Qed.

Section lemmas.
Context `{K : Kernel}.

(** Closing a guard closes its descriptor exactly once and leaves it empty. *)
Lemma wp_Close g Q w :
  (FdGuard.IsValid g = true -> Q (-1) (after w (SysClose g))) ->
  (FdGuard.IsValid g = false -> Q g w) ->
  wp (FdGuard.Close g) Q w.
Proof.
  unfold FdGuard.Close, FdGuard.IsValid. intros H1 H2.
  destruct (0 <=? g); wp_steps; auto.
Qed.
End lemmas.
