(* ===== verification/Owner.v ===== *)
(** * Descriptor ownership

    A ledger says how many times each descriptor is held.  [owns m Post L] runs
    [m] from the ledger [L], adding what system calls open and subtracting what
    they close, and states [Post] of the result and the final ledger; it composes
    along [≫=].  Starting with the descriptors an object holds, a run that ends with
    what the result holds has lost nothing it opened and closed nothing twice.  It
    is also the account of faults: [owns] tolerates running out of memory and
    undefined behaviour inside the parser, no other fault; [owns_weak] tolerates
    undefined behaviour anywhere, and is what the operations of a connection are
    first shown to satisfy, before [owns_wp] strengthens it.  And it says that the
    trace [grows] only by calls that the kernel answers. *)
From S2P Require Import Prelude Kernel FdGuard.

(** How often [x] occurs in [l]. *)
Fixpoint cnt (x : Z) (l : list Z) : Z :=
  match l with
  | [] => 0
  | y :: l => (if x =? y then 1 else 0) + cnt x l
  end.

Lemma cnt_app x a b : cnt x (a ++ b) = cnt x a + cnt x b.
Proof. induction a as [|y a IH]; simpl; [done|]. rewrite IH. lia. Qed.

Lemma cnt_nonneg x l : 0 <= cnt x l.
Proof. induction l as [|y l IH]; simpl; [lia|]. destruct (x =? y); lia. Qed.

(** The descriptors a call gives to the program, and those it takes back. *)
Definition gives (ev : event) : list Z :=
  match fst ev with
  | SysSocket _ _ _ | SysAccept _ | SysEpollCreate | SysTimerfdCreate =>
    if a_ret (snd ev) <? 0 then [] else [a_ret (snd ev)]
  | _ => []
  end.

Definition takes (ev : event) : list Z :=
  match fst ev with SysClose fd => [fd] | _ => [] end.

Definition opened (tr : list event) : list Z := tr ≫= gives.

(** How many more times [x] was opened than closed. *)
Definition net (x : Z) (tr : list event) : Z := cnt x (opened tr) - cnt x (closes tr).

Lemma net_snoc x tr ev : net x (tr ++ [ev]) = net x tr + cnt x (gives ev) - cnt x (takes ev).
Proof.
  assert (cnt x (closes [ev]) = cnt x (takes ev)) as He by (by destruct ev as [[] ?]).
  unfold net, opened. rewrite bind_app, closes_app, !cnt_app, He.
  cbn [mbind list_bind]. rewrite app_nil_r. lia.
Qed.

Definition ledger : Type := Z -> Z.

(** The faults a run may end in. *)
Definition tolerated (strict : bool) (f : fault) : Prop :=
  match f with
  | ProcessAborted | UndefinedBehaviour InParser => True
  | UndefinedBehaviour Elsewhere => strict = false
  | OutOfFuel => False
  end.

(** A trace grows by calls that the kernel answers. *)
Inductive grows `{K : Kernel} (tr : list event) : list event -> Prop :=
  | grows_refl : grows tr tr
  | grows_call tr' c : grows tr tr' -> grows tr (tr' ++ [(c, kernel_answer tr' c)]).

Lemma grows_trans `{K : Kernel} tr1 tr2 tr3 : grows tr1 tr2 -> grows tr2 tr3 -> grows tr1 tr3.
Proof. intros H12. induction 1; [done|]. by constructor. Qed.

(** In the run from [w] to [w'] the call [c] was made, and answered [a]. *)
Definition asked `{K : Kernel} (w w' : world) (c : syscall) (a : answer) : Prop :=
  exists tr, grows (w_trace w) tr /\ a = kernel_answer tr c /\
    grows (tr ++ [(c, a)]) (w_trace w').

Lemma asked_now `{K : Kernel} w c : asked w (after w c) c (kernel_answer (w_trace w) c).
Proof. exists (w_trace w). rewrite trace_after. split; [constructor|]. split; [done|constructor]. Qed.

Lemma asked_within `{K : Kernel} w0 w w' w1 c a :
  asked w w' c a -> grows (w_trace w0) (w_trace w) -> grows (w_trace w') (w_trace w1) ->
  asked w0 w1 c a.
Proof.
  intros (tr & H1 & H2 & H3) H0 H4. exists tr.
  split; [by eapply grows_trans|]. split; [done|by eapply grows_trans].
Qed.

Lemma grows_after `{K : Kernel} w c : grows (w_trace w) (w_trace (after w c)).
Proof. rewrite trace_after. apply grows_call, grows_refl. Qed.

Lemma tolerated_faults f :
  tolerated true f -> f = ProcessAborted \/ f = UndefinedBehaviour InParser.
Proof. destruct f as [[|]| |]; simpl; [by right|done|by left|done]. Qed.

(** The kernel never gives a descriptor that is open. *)
Class FreshDescriptors `{K : Kernel} : Prop :=
  fresh_descriptor tr c x : 0 < net x tr -> cnt x (gives (c, kernel_answer tr c)) = 0.

Lemma cnt_gives_le x ev : 0 <= cnt x (gives ev) <= 1.
Proof.
  unfold gives. destruct (fst ev); simpl; try lia;
    destruct (_ <? 0); simpl; try lia; destruct (x =? _); lia.
Qed.

Lemma cnt_takes_nonneg x ev : 0 <= cnt x (takes ev).
Proof. unfold takes. destruct (fst ev); simpl; try lia. destruct (x =? _); lia. Qed.

(** Then no descriptor is ever open twice. *)
Lemma grows_unique `{FreshDescriptors} tr tr' :
  grows tr tr' -> (forall x, net x tr <= 1) -> forall x, net x tr' <= 1.
Proof.
  intros Hg H1. induction Hg as [|tr' c Hg IH]; [done|]. intros x. rewrite net_snoc.
  specialize (IH x). pose proof (cnt_gives_le x (c, kernel_answer tr' c)).
  pose proof (cnt_takes_nonneg x (c, kernel_answer tr' c)).
  destruct (Z.leb_spec (net x tr') 0); [lia|].
  rewrite (fresh_descriptor tr' c x) by lia. lia.
Qed.

Definition owns_upto `{K : Kernel} (strict : bool) {A} (m : M A) (Post : A -> ledger -> Prop)
    (L : ledger) : Prop :=
  forall w, match m w with
  | Done a w' =>
    grows (w_trace w) (w_trace w') /\
    forall L' : ledger,
      (forall x, L' x = L x + net x (w_trace w') - net x (w_trace w)) -> Post a L'
  | Fault f => tolerated strict f
  end.

Abbreviation owns := (owns_upto true).
Abbreviation owns_weak := (owns_upto false).

(** The descriptor a guard holds. *)
Definition held (g : fd_guard) : list Z := if FdGuard.IsValid g then [g] else [].

Lemma held_open fd : (fd <? 0) = false -> held fd = [fd].
Proof.
  intros Hfd. unfold held, FdGuard.IsValid. by rewrite (proj2 (Z.leb_le 0 fd)) by lia.
Qed.

Lemma held_none : held (-1) = [].
Proof. done. Qed.

(** The last step of a ledger argument: instantiate every equation, and compute. *)
Ltac settle :=
  let x := fresh "x" in
  intros x;
  repeat match goal with H : forall _ : Z, _ = _ |- _ => specialize (H x) end;
  rewrite ?cnt_app in *; cbn [cnt] in *; lia.

Section rules.
Context `{K : Kernel} {strict : bool}.

Lemma owns_ret {A} (a : A) Post L :
  (forall L', (forall x, L' x = L x) -> Post a L') -> owns_upto strict (mret a) Post L.
Proof. intros HP w. split; [constructor|]. intros L' HL. apply HP. intros x. rewrite HL. cbn. lia. Qed.

Lemma owns_bind {A B} (m : M A) (k : A -> M B) Post L :
  owns_upto strict m (fun a => owns_upto strict (k a) Post) L -> owns_upto strict (m ≫= k) Post L.
Proof.
  intros Hm w. specialize (Hm w). unfold mbind, M_bind.
  destruct (m w) as [a w1|f]; [|done]. destruct Hm as [Hg Hm].
  specialize (Hm (fun x => L x + net x (w_trace w1) - net x (w_trace w)) ltac:(done) w1).
  destruct (k a w1) as [b w2|f]; [|done]. destruct Hm as [Hg2 Hm].
  split; [by eapply grows_trans|]. intros L' HL. apply Hm. intros x. rewrite HL. lia.
Qed.

Lemma owns_mono {A} (m : M A) (P Q : A -> ledger -> Prop) L :
  owns_upto strict m P L -> (forall a L', P a L' -> Q a L') -> owns_upto strict m Q L.
Proof.
  intros Hm HPQ w. specialize (Hm w). destruct (m w); [|done].
  destruct Hm as [? Hm]. split; [done|]. auto.
Qed.

Lemma owns_ext {A} (m m' : M A) Post L :
  (forall w, m w = m' w) -> owns_upto strict m' Post L -> owns_upto strict m Post L.
Proof. intros He Hm w. rewrite He. apply Hm. Qed.

(** What a ledger argument says of a run. *)
Lemma owns_elim {A} (m : M A) Post L w a w' :
  owns_upto strict m Post L -> m w = Done a w' ->
  Post a (fun x => L x + net x (w_trace w') - net x (w_trace w)).
Proof. intros Hm Hw. specialize (Hm w). rewrite Hw in Hm. by apply Hm. Qed.

Lemma owns_grows {A} (m : M A) Post L w a w' :
  owns_upto strict m Post L -> m w = Done a w' -> grows (w_trace w) (w_trace w').
Proof. intros Hm Hw. specialize (Hm w). rewrite Hw in Hm. apply Hm. Qed.

Lemma owns_fault {A} (m : M A) Post L w f :
  owns_upto strict m Post L -> m w = Fault f -> tolerated strict f.
Proof. intros Hm Hw. specialize (Hm w). by rewrite Hw in Hm. Qed.

Lemma owns_sys c Post L :
  (forall tr L', (forall x, L' x = L x + cnt x (gives (c, kernel_answer tr c)) -
      cnt x (takes (c, kernel_answer tr c))) ->
    Post (kernel_answer tr c) L') ->
  owns_upto strict (sys c) Post L.
Proof.
  intros HP w. cbv [sys]. split; [apply grows_call, grows_refl|]. intros L' HL. apply HP. intros x. rewrite HL.
  cbn [w_trace]. rewrite net_snoc. lia.
Qed.

Lemma owns_ub {A} (o : option A) Post L a :
  o = Some a -> (forall L', (forall x, L' x = L x) -> Post a L') ->
  owns_upto strict (ub o) Post L.
Proof.
  intros -> HP w. split; [constructor|]. intros L' HL. apply HP. intros x. rewrite HL. lia.
Qed.

(** In the parser anything goes. *)
Lemma owns_ub_parser {A} (o : option A) Post L :
  (forall a L', (forall x, L' x = L x) -> o = Some a -> Post a L') ->
  owns_upto strict (ub_at InParser o) Post L.
Proof.
  intros HP w. destruct o as [a|]; simpl; [|done]. split; [constructor|]. intros L' HL.
  apply HP; [|done]. intros x. rewrite HL. lia.
Qed.

Lemma owns_or_abort {A} (o : option A) Post L :
  (forall a L', (forall x, L' x = L x) -> o = Some a -> Post a L') ->
  owns_upto strict (or_abort o) Post L.
Proof.
  intros HP w. destruct o as [a|]; simpl; [|done]. split; [constructor|]. intros L' HL.
  apply HP; [|done]. intros x. rewrite HL. lia.
Qed.

Lemma owns_alloc n Post L :
  (forall tr L', (forall x, L' x = L x) -> Post (kernel_alloc tr n) L') ->
  owns_upto strict (alloc n) Post L.
Proof. intros HP w. split; [constructor|]. intros L' HL. apply HP. intros x. rewrite HL. cbn. lia. Qed.

Lemma owns_errno Post L :
  (forall a L', (forall x, L' x = L x) -> Post a L') -> owns_upto strict get_errno Post L.
Proof. intros HP w. split; [constructor|]. intros L' HL. apply HP. intros x. rewrite HL. cbn. lia. Qed.

(** Closing empties a guard. *)
Lemma owns_Close g Post L :
  (forall g' L', held g' = [] -> (forall x, L' x = L x - cnt x (held g)) -> Post g' L') ->
  owns_upto strict (FdGuard.Close g) Post L.
Proof.
  intros HP. unfold FdGuard.Close, held, FdGuard.IsValid in *.
  destruct (0 <=? g) eqn:Hg.
  - apply owns_bind, owns_sys. intros a L1 H1. apply owns_ret. intros L2 H2.
    apply HP; [done|]. cbn in *. settle.
  - apply owns_ret. intros L2 H2. apply HP; [by rewrite Hg|]. cbn. settle.
Qed.

Lemma owns_Reset g fd Post L :
  (forall L', (forall x, L' x = L x - cnt x (held g)) -> Post fd L') ->
  owns_upto strict (FdGuard.Reset g fd) Post L.
Proof.
  intros HP. apply owns_bind, owns_Close. intros g' L1 _ H1. apply owns_ret.
  intros L2 H2. apply HP. settle.
Qed.

Lemma owns_destroy g Post L :
  (forall L', (forall x, L' x = L x - cnt x (held g)) -> Post tt L') ->
  owns_upto strict (FdGuard.destroy g) Post L.
Proof.
  intros HP. apply owns_bind, owns_Close. intros g' L1 _ H1. apply owns_ret.
  intros L2 H2. apply HP. settle.
Qed.
End rules.

Lemma owns_ub_weak `{K : Kernel} {A} (o : option A) Post L :
  (forall a L', (forall x, L' x = L x) -> o = Some a -> Post a L') ->
  owns_weak (ub o) Post L.
Proof.
  intros HP w. destruct o as [a|]; simpl; [|done]. split; [constructor|]. intros L' HL.
  apply HP; [|done]. intros x. rewrite HL. lia.
Qed.

(** An operation that runs to its end has no faults, and its ledger argument may
    use what is known of its result. *)
Lemma owns_wp `{K : Kernel} {A} (m : M A) (P : A -> Prop) Post L :
  (forall w, wp m (fun a _ => P a) w) ->
  owns_weak m (fun a L' => P a -> Post a L') L -> owns m Post L.
Proof.
  intros Hwp Hm w. specialize (Hwp w). specialize (Hm w). unfold wp in Hwp.
  destruct (m w) as [a w'|]; [|done]. destruct Hm as [? Hm]. split; [done|].
  intros L' HL. by apply Hm.
Qed.

(** A run that the ledger argument is about only makes calls. *)
Lemma wp_grows `{K : Kernel} {A} (m : M A) P (Post : A -> ledger -> Prop) L w :
  wp m P w -> owns m Post L ->
  wp m (fun a w' => P a w' /\ grows (w_trace w) (w_trace w') /\ exists L', Post a L') w.
Proof.
  intros Hwp Hown. unfold wp in *. destruct (m w) as [a w'|] eqn:Hm; [|done].
  split; [done|]. split; [by eapply owns_grows|]. eexists. exact (owns_elim _ _ _ _ _ _ Hown Hm).
Qed.

#[global] Opaque owns_upto.

(** One step of a ledger argument. *)
Ltac own_step :=
  match goal with
  | |- owns_upto _ (mbind _ _) _ _ => apply owns_bind
  | |- owns_upto _ (mret _) _ _ => apply owns_ret; intros ? ?
  | |- owns_upto _ (FdGuard.Close _) _ _ => apply owns_Close; intros ? ? ? ?
  | |- owns_upto _ (FdGuard.Reset _ _) _ _ => apply owns_Reset; intros ? ?
  | |- owns_upto _ (FdGuard.destroy _) _ _ => apply owns_destroy; intros ? ?
  | |- owns_upto false (ub _) _ _ => apply owns_ub_weak; intros ? ? ? ?
  | |- owns_upto _ (ub_at InParser _) _ _ => apply owns_ub_parser; intros ? ? ? ?
  | |- owns_upto _ (or_abort _) _ _ => apply owns_or_abort; intros ? ? ? ?
  | |- owns_upto _ (alloc _) _ _ => apply owns_alloc; intros ? ? ?
  | |- owns_upto _ get_errno _ _ => apply owns_errno; intros ? ? ?
  | |- owns_upto _ (sys _) _ _ =>
    apply owns_sys; intros ? ? ?; cbn [gives takes fst snd] in *
  end.

(** Steps and case distinctions, to the end. *)
Ltac own_steps :=
  repeat first
    [ own_step
    | match goal with
      | |- owns_upto _ (match ?x with _ => _ end) _ _ => destruct x eqn:?
      | |- owns_upto _ ((match ?x with _ => _ end) _) _ _ => destruct x eqn:?
      | |- owns_upto _ (let '(_, _) := ?x in _) _ _ => destruct x eqn:?
      end ].
