(* ===== verification/Scripted.v ===== *)
(** * A kernel that follows a script

    The kernel of the witnesses about whole runs: it gives the lowest descriptor that
    is free, as the real one does, and the clients send the texts of a script. *)
From S2P Require Import Prelude Kernel SampleKernel Owner.

(** The first of [n] descriptors from [fd] on that is not open. *)
Fixpoint lowest_free (tr : list event) (n : nat) (fd : Z) : Z :=
  match n with
  | O => -1
  | S n => if net fd tr <=? 0 then fd else lowest_free tr n (fd + 1)
  end.

Definition receives (tr : list event) : nat :=
  length (List.filter (fun ev => match fst ev with SysRecv _ _ => true | _ => false end) tr).

(** Each [recv] gives the next text of the script, and nothing for now when there is
    none left; the timer has always expired; all output is accepted. *)
Definition scripted (script : list bytes) : list event -> syscall -> answer := fun tr c =>
  match c with
  | SysSocket _ _ _ | SysAccept _ | SysEpollCreate | SysTimerfdCreate =>
    returns (lowest_free tr 16 3)
  | SysRecv _ _ =>
    match script !! receives tr with
    | Some text => mkAnswer (len text) 0 text sockaddr_zero []
    | None => returns (-1)
    end
  | SysReadTimer _ => returns 8
  | _ => accepting tr c
  end.

Lemma lowest_free_spec tr n fd x : lowest_free tr n fd = x -> 0 <= fd -> x = -1 \/ net x tr <= 0.
Proof.
  revert fd. induction n as [|n IH]; intros fd; simpl; [intros <-; by left|].
  destruct (Z.leb_spec (net fd tr) 0); [intros <-; by right|].
  intros Hx Hfd. apply (IH (fd + 1)); [done|lia].
Qed.

#[export] Instance scripted_fresh script : @FreshDescriptors (sample_kernel (scripted script)).
Proof.
  intros tr c x Hx.
  assert (Hfree : forall fd, fd = lowest_free tr 16 3 ->
    cnt x (if fd <? 0 then [] else [fd]) = 0).
  { intros fd Hfd. symmetry in Hfd. apply lowest_free_spec in Hfd; [|lia].
    destruct (Z.ltb_spec fd 0); [done|]. cbn [cnt]. destruct (Z.eqb_spec x fd) as [->|]; [|done].
    destruct Hfd; lia. }
  unfold gives. cbn [fst snd]. destruct c; try done; by apply Hfree.
Qed.

(** Reading does not go back in the script. *)
Lemma receives_grows `{K : Kernel} tr tr' : grows tr tr' -> (receives tr <= receives tr')%nat.
Proof.
  induction 1 as [|tr' c _ IH]; [done|]. etrans; [exact IH|]. unfold receives.
  rewrite List.filter_app, length_app. apply Nat.le_add_r.
Qed.

(** The text of a request, with the CSeq and other header lines given. *)
Definition request (start : string) (hs : list string) : bytes :=
  mjoin ((fun l => l ++ crlf) <$> (lit start :: (lit <$> hs))) ++ crlf.
