(* ===== verification/Sock.v ===== *)
(** * Sockets (src/src/net/socket.h, socket.cc, listener.h, listener.cc)

    A socket is its descriptor guard; the operations thread it through the
    system calls. *)
From S2P Require Import Prelude Status Kernel FdGuard Owner.

Module Socket.
Section Socket.
Context `{K : Kernel}.
Implicit Types g : fd_guard.

Definition Close g : M fd_guard := FdGuard.Close g.

Definition Create g (domain type protocol : Z) : M (status * fd_guard) :=
  g ← (if FdGuard.IsValid g then Close g else mret g);
  a ← sys (SysSocket domain type protocol);
  let fd := a_ret a in
  if fd <? 0 then mret (Status.NetworkError (lit "socket() failed"), g)
  else
    g ← FdGuard.Reset g fd;
    mret (Status.Ok, g).

Definition not_created : status := Status.Error (lit "socket not created").

Definition SetReuseAddr g (enable : bool) : M status :=
  if negb (FdGuard.IsValid g) then mret not_created
  else
    a ← sys (SysSetsockopt (FdGuard.fd g) SOL_SOCKET SO_REUSEADDR (if enable then 1 else 0));
    if a_ret a <? 0
    then mret (Status.NetworkError (lit "setsockopt SO_REUSEADDR failed"))
    else mret Status.Ok.

Definition SetNonBlocking g (enable : bool) : M status :=
  if negb (FdGuard.IsValid g) then mret not_created
  else
    a ← sys (SysFcntlGetfl (FdGuard.fd g));
    let flags := a_ret a in
    if flags <? 0 then mret (Status.NetworkError (lit "fcntl F_GETFL failed"))
    else
      let flags := if enable then Z.lor flags O_NONBLOCK
                   else Z.land flags (Z.lnot O_NONBLOCK) in
      a ← sys (SysFcntlSetfl (FdGuard.fd g) flags);
      if a_ret a <? 0 then mret (Status.NetworkError (lit "fcntl F_SETFL failed"))
      else mret Status.Ok.

Definition bind_to g (addr : sockaddr_in) : M status :=
  a ← sys (SysBind (FdGuard.fd g) addr);
  if a_ret a <? 0 then mret (Status.NetworkError (lit "bind() failed"))
  else mret Status.Ok.

Definition Bind g (addr : option bytes) (port : Z) : M status :=
  if negb (FdGuard.IsValid g) then mret not_created
  else
    let any := mkSockaddr AF_INET (htons port) INADDR_ANY in
    match addr with
    | None => bind_to g any
    | Some ip =>
      if decide (ip = lit "0.0.0.0") then bind_to g any
      else
        a ← sys (SysInetPton ip);
        if a_ret a <=? 0 then mret (Status.InvalidArgument (lit "invalid address"))
        else bind_to g (mkSockaddr AF_INET (htons port) (sin_addr (a_addr a)))
    end.

Definition Listen g (backlog : Z) : M status :=
  if negb (FdGuard.IsValid g) then mret not_created
  else
    a ← sys (SysListen (FdGuard.fd g) backlog);
    if a_ret a <? 0 then mret (Status.NetworkError (lit "listen() failed"))
    else mret Status.Ok.

(** The descriptor and the address stored through a non-null [addr]. *)
Definition Accept g : M (Z * option sockaddr_in) :=
  if negb (FdGuard.IsValid g) then mret (-1, None)
  else
    a ← sys (SysAccept (FdGuard.fd g));
    if a_ret a <? 0 then mret (-1, None) else mret (a_ret a, Some (a_addr a)).
End Socket.
End Socket.

Module Listener.
Section Listener.
Context `{K : Kernel}.
Implicit Types g : fd_guard.

Definition Listen g (addr : option bytes) (port : Z) : M (status * fd_guard) :=
  '(st, g) ← Socket.Create g AF_INET SOCK_STREAM 0;
  if negb (Status.ok st) then mret (st, g) else
  st ← Socket.SetReuseAddr g true;
  if negb (Status.ok st) then mret (st, g) else
  st ← Socket.SetNonBlocking g true;
  if negb (Status.ok st) then mret (st, g) else
  st ← Socket.Bind g addr port;
  if negb (Status.ok st) then mret (st, g) else
  st ← Socket.Listen g kListenBacklog;
  if negb (Status.ok st) then mret (st, g) else
  mret (Status.Ok, g).

Definition fd g : Z := FdGuard.fd g.

Definition Accept g : M Z :=
  '(client_fd, _) ← Socket.Accept g; mret client_fd.

(** [Accept(client_addr)] *)
Definition Accept_addr g : M (Z * option sockaddr_in) := Socket.Accept g.

Definition Close g : M fd_guard := Socket.Close g.

Definition Listener : fd_guard := FdGuard.FdGuard.

(** [~Listener()]: [Close()], then the socket's descriptor guard *)
Definition destroy g : M unit := g ← Close g; FdGuard.destroy g.
End Listener.
End Listener.

(** ** Descriptors *)
Section descriptors.
Context `{K : Kernel}.

(** The socket's descriptor, if any, moves into the guard. *)
Definition moves_guard (g : fd_guard) (Post : status * fd_guard -> ledger -> Prop)
    (L : ledger) : Prop :=
  forall st g' L', (forall x, L' x - cnt x (held g') = L x - cnt x (held g)) -> Post (st, g') L'.

Lemma owns_Create g d t p Post L :
  moves_guard g Post L -> owns (Socket.Create g d t p) Post L.
Proof.
  intros HP. unfold Socket.Create, Socket.Close. own_step.
  assert (Hopen : forall g1 L1, held g1 = [] ->
    (forall x, L1 x = L x - cnt x (held g)) ->
    owns (a ← sys (SysSocket d t p);
          (if a_ret a <? 0 then mret (Status.NetworkError (lit "socket() failed"), g1)
           else g2 ← FdGuard.Reset g1 (a_ret a); mret (Status.Ok, g2))) Post L1).
  { intros g1 L1 Hg1 H1. do 2 own_step.
    match goal with |- context [a_ret ?a <? 0] => destruct (a_ret a <? 0) eqn:Hfd end.
    - own_step. apply HP. rewrite Hg1. settle.
    - repeat own_step. apply HP. rewrite (held_open _ Hfd). rewrite Hg1 in *. settle. }
  destruct (FdGuard.IsValid g) eqn:Hv.
  - own_step. by apply Hopen.
  - own_step. apply Hopen; unfold held; rewrite Hv; [done|settle].
Qed.

Lemma owns_Listen g addr port Post L :
  moves_guard g Post L -> owns (Listener.Listen g addr port) Post L.
Proof.
  intros HP. unfold Listener.Listen. own_step. apply owns_Create. intros st g1 L1 H1.
  destruct (negb (Status.ok st)); [own_step; apply HP; settle|].
  unfold Socket.SetReuseAddr, Socket.SetNonBlocking, Socket.Bind, Socket.bind_to, Socket.Listen.
  own_steps; (apply HP; settle).
Qed.

Lemma owns_Accept g Post L :
  (forall fd L', (forall x, L' x = L x + cnt x (held fd)) -> Post fd L') ->
  owns (Listener.Accept g) Post L.
Proof.
  intros HP. unfold Listener.Accept, Socket.Accept. own_step.
  destruct (negb _); [do 2 own_step; apply HP; rewrite held_none; settle|].
  do 2 own_step.
  match goal with |- context [a_ret ?a <? 0] => destruct (a_ret a <? 0) eqn:Hfd end.
  - do 2 own_step. apply HP. rewrite held_none. settle.
  - do 2 own_step. apply HP. rewrite (held_open _ Hfd). settle.
Qed.
End descriptors.
