(* ===== verification/Epoll.v ===== *)
(** * The event loop (src/src/net/epoll_loop.h, epoll_loop.cc)

    [callbacks_] is a finite map from descriptors to callbacks.  A callback is a
    value of a type [CB] the client chooses; running it is the client's [invoke],
    which may change the client's whole state [St], event loop included. *)
From stdpp Require Import gmap.
From S2P Require Import Prelude Status Kernel FdGuard Owner.

(** [EventType] values are bit masks. *)
Definition kRead : Z := 1.
Definition kWrite : Z := 2.
Definition kError : Z := 4.

Record EventResult := mkEventResult { er_fd : Z; er_events : Z }.

Record epoll_loop (CB : Type) := mkEpollLoop {
  epoll_fd_ : fd_guard;
  running_ : bool;
  events_size_ : Z;
  callbacks_ : gmap Z CB;
}.
Arguments mkEpollLoop {CB} _ _ _ _.
Arguments epoll_fd_ {CB} _.
Arguments running_ {CB} _.
Arguments events_size_ {CB} _.
Arguments callbacks_ {CB} _.

Module EpollLoop.
Section EpollLoop.
Context `{K : Kernel} {CB : Type}.
Implicit Types l : epoll_loop CB.

Definition EpollLoop : epoll_loop CB := mkEpollLoop FdGuard.FdGuard false 0 ∅.

Definition with_callbacks l (m : gmap Z CB) :=
  mkEpollLoop (epoll_fd_ l) (running_ l) (events_size_ l) m.
Definition with_running l (b : bool) :=
  mkEpollLoop (epoll_fd_ l) b (events_size_ l) (callbacks_ l).

Definition Init l : M (status * epoll_loop CB) :=
  if FdGuard.IsValid (epoll_fd_ l) then mret (Status.Ok, l)
  else
    a ← sys SysEpollCreate;
    let fd := a_ret a in
    if fd <? 0 then mret (Status.Error (lit "epoll_create1 failed"), l)
    else
      g ← FdGuard.Reset (epoll_fd_ l) fd;
      mret (Status.Ok, mkEpollLoop g true kEpollEventsSize (callbacks_ l)).

Definition ToEpollEvents (events : Z) : Z :=
  let ev := 0 in
  let ev := if negb (Z.land events kRead =? 0) then Z.lor ev EPOLLIN else ev in
  if negb (Z.land events kWrite =? 0) then Z.lor ev EPOLLOUT else ev.

Definition not_initialized : status := Status.Error (lit "epoll not initialized").
Definition invalid_fd : status := Status.InvalidArgument (lit "invalid fd").

Definition AddFd l (fd events : Z) (callback : CB) : M (status * epoll_loop CB) :=
  if negb (FdGuard.IsValid (epoll_fd_ l)) then mret (not_initialized, l)
  else if fd <? 0 then mret (invalid_fd, l)
  else
    a ← sys (SysEpollCtl (FdGuard.fd (epoll_fd_ l)) EPOLL_CTL_ADD fd (ToEpollEvents events));
    if a_ret a <? 0 then mret (Status.NetworkError (lit "epoll_ctl ADD failed"), l)
    else mret (Status.Ok, with_callbacks l (<[fd := callback]> (callbacks_ l))).

Definition ModifyFd l (fd events : Z) : M status :=
  if negb (FdGuard.IsValid (epoll_fd_ l)) then mret not_initialized
  else if fd <? 0 then mret invalid_fd
  else
    a ← sys (SysEpollCtl (FdGuard.fd (epoll_fd_ l)) EPOLL_CTL_MOD fd (ToEpollEvents events));
    if a_ret a <? 0 then mret (Status.NetworkError (lit "epoll_ctl MOD failed"))
    else mret Status.Ok.

Definition RemoveFd l (fd : Z) : M (status * epoll_loop CB) :=
  if negb (FdGuard.IsValid (epoll_fd_ l)) then mret (not_initialized, l)
  else if fd <? 0 then mret (invalid_fd, l)
  else
    a ← sys (SysEpollCtl (FdGuard.fd (epoll_fd_ l)) EPOLL_CTL_DEL fd 0);
    if a_ret a <? 0 then mret (Status.NetworkError (lit "epoll_ctl DEL failed"), l)
    else mret (Status.Ok, with_callbacks l (delete fd (callbacks_ l))).

(** One [epoll_event] as an [EventResult]. *)
Definition to_result (ev : Z * Z) : EventResult :=
  let '(fd, mask) := ev in
  let e := 0 in
  let e := if negb (Z.land mask EPOLLIN =? 0) then Z.lor e kRead else e in
  let e := if negb (Z.land mask EPOLLOUT =? 0) then Z.lor e kWrite else e in
  let e := if negb (Z.land mask (Z.lor EPOLLERR EPOLLHUP) =? 0) then Z.lor e kError else e in
  mkEventResult fd e.

(** [results] is the caller's vector, before and after. *)
Definition Wait l (timeout_ms : Z) (results : list EventResult)
    : M (Z * list EventResult) :=
  if negb (FdGuard.IsValid (epoll_fd_ l)) then mret (-1, results)
  else
    a ← sys (SysEpollWait (FdGuard.fd (epoll_fd_ l)) (events_size_ l) timeout_ms);
    let nfds := a_ret a in
    if nfds <? 0 then
      e ← get_errno;
      if e =? EINTR then mret (0, results) else mret (-1, results)
    else mret (nfds, to_result <$> ztake nfds (a_events a)).

Definition Stop l : epoll_loop CB := with_running l false.

(** [~EpollLoop()]: [Stop()], then the members *)
Definition destroy l : M unit := FdGuard.destroy (epoll_fd_ (Stop l)).
End EpollLoop.

(** ** [Run], for a client with state [St] *)
Section Run.
Context `{K : Kernel} {CB St : Type}.
Variable loop_of : St -> epoll_loop CB.
Variable set_loop : epoll_loop CB -> St -> St.
Variable invoke : CB -> Z -> EventResult -> St -> M St.

(** The [for] loop over the results: each callback is looked up when its turn
    comes, since an earlier one may have removed it. *)
Fixpoint dispatch (results : list EventResult) (s : St) : M St :=
  match results with
  | [] => mret s
  | r :: results =>
    s ← match callbacks_ (loop_of s) !! er_fd r with
        | Some cb => invoke cb (er_fd r) r s
        | None => mret s
        end;
    dispatch results s
  end.

(** The body of the [while] loop. *)
Definition run_once (s : St) : M St :=
  '(nfds, results) ← Wait (loop_of s) kEpollWaitTimeoutMs [];
  if nfds <? 0 then mret s else dispatch results s.

(** The first [n] iterations of the [while] loop, fewer when [running_] drops. *)
Fixpoint run_loop (n : nat) (s : St) : M St :=
  match n with
  | O => mret s
  | S n => if running_ (loop_of s) then s ← run_once s; run_loop n s else mret s
  end.

Definition Run (n : nat) (s : St) : M St :=
  if negb (FdGuard.IsValid (epoll_fd_ (loop_of s))) then mret s
  else run_loop n (set_loop (with_running (loop_of s) true) s).
End Run.
End EpollLoop.

(** ** Descriptors *)
Section descriptors.
Context `{K : Kernel} {CB : Type}.
Implicit Types l : epoll_loop CB.

(** A registration changes the callbacks only. *)
Definition keeps_loop l (Post : status * epoll_loop CB -> ledger -> Prop) (L : ledger) : Prop :=
  forall st l' L', epoll_fd_ l' = epoll_fd_ l -> (forall x, L' x = L x) -> Post (st, l') L'.

Lemma owns_AddFd l fd ev cb Post L :
  keeps_loop l Post L -> owns (EpollLoop.AddFd l fd ev cb) Post L.
Proof. intros HP. unfold EpollLoop.AddFd. own_steps; (apply HP; [done|settle]). Qed.

Lemma owns_RemoveFd l fd Post L :
  keeps_loop l Post L -> owns (EpollLoop.RemoveFd l fd) Post L.
Proof. intros HP. unfold EpollLoop.RemoveFd. own_steps; (apply HP; [done|settle]). Qed.

Lemma owns_ModifyFd l fd ev Post L :
  (forall st L', (forall x, L' x = L x) -> Post st L') ->
  owns (EpollLoop.ModifyFd l fd ev) Post L.
Proof. intros HP. unfold EpollLoop.ModifyFd. own_steps; (apply HP; settle). Qed.

Lemma owns_Init l Post L :
  (forall st l' L', (forall x, L' x - cnt x (held (epoll_fd_ l')) =
     L x - cnt x (held (epoll_fd_ l))) -> Post (st, l') L') ->
  owns (EpollLoop.Init l) Post L.
Proof.
  intros HP. unfold EpollLoop.Init. destruct (FdGuard.IsValid (epoll_fd_ l)) eqn:Hv.
  { own_step. apply HP. settle. }
  do 2 own_step.
  match goal with |- context [a_ret ?a <? 0] => destruct (a_ret a <? 0) eqn:Hfd end.
  - own_step. apply HP. settle.
  - repeat own_step. apply HP. cbn [epoll_fd_]. rewrite (held_open _ Hfd). settle.
Qed.

Lemma owns_Wait l t rs Post L :
  (forall n rs' L', (forall x, L' x = L x) -> Post (n, rs') L') ->
  owns (EpollLoop.Wait l t rs) Post L.
Proof. intros HP. unfold EpollLoop.Wait. own_steps; (apply HP; settle). Qed.
End descriptors.

(** ** Event masks *)

Lemma land_bit m k : 0 <= k -> Z.land m (2 ^ k) = if Z.testbit m k then 2 ^ k else 0.
Proof.
  intros Hk. apply Z.bits_inj'. intros n Hn. rewrite Z.land_spec.
  destruct (decide (n = k)) as [->|].
  - rewrite Z.pow2_bits_true, andb_true_r by done.
    destruct (Z.testbit m k); [by rewrite Z.pow2_bits_true|by rewrite Z.bits_0].
  - rewrite Z.pow2_bits_false, andb_false_r by congruence.
    destruct (Z.testbit m k); [by rewrite Z.pow2_bits_false by congruence|by rewrite Z.bits_0].
Qed.

(** Event masks keep their meaning across the kernel interface.  A result has
    the read bit exactly when the kernel reported input, the write bit when it
    reported room, the error bit when it reported an error or a hang-up, for the
    descriptor reported; and an interest in reading and writing, translated for the
    kernel and reported back in full, reads as the same interest. *)
Theorem events_translated fd mask events :
  let r := EpollLoop.to_result (fd, mask) in
  let has (m bit : Z) := negb (Z.land m bit =? 0) in
  er_fd r = fd /\
  has (er_events r) kRead = Z.testbit mask 0 /\
  has (er_events r) kWrite = Z.testbit mask 2 /\
  has (er_events r) kError = Z.testbit mask 3 || Z.testbit mask 4 /\
  er_events (EpollLoop.to_result (fd, EpollLoop.ToEpollEvents events)) =
    Z.land events (Z.lor kRead kWrite).
Proof.
  intros r has. unfold r, has, EpollLoop.to_result, EpollLoop.ToEpollEvents.
  pose proof (fun m k => land_bit m (Z.of_nat k) (Nat2Z.is_nonneg k)) as Hbit.
  rewrite (Z.land_lor_distr_r mask), (Z.land_lor_distr_r events).
  rewrite (Hbit mask 0%nat : Z.land mask EPOLLIN = _), (Hbit mask 2%nat : Z.land mask EPOLLOUT = _),
    (Hbit mask 3%nat : Z.land mask EPOLLERR = _), (Hbit mask 4%nat : Z.land mask EPOLLHUP = _),
    (Hbit events 0%nat : Z.land events kRead = _), (Hbit events 1%nat : Z.land events kWrite = _).
  change (Z.of_nat 0) with 0. change (Z.of_nat 1) with 1. change (Z.of_nat 2) with 2.
  change (Z.of_nat 3) with 3. change (Z.of_nat 4) with 4. split; [done|].
  split_and!; [destruct (Z.testbit mask 0), (Z.testbit mask 2), (Z.testbit mask 3),
    (Z.testbit mask 4); done..|].
  by destruct (Z.testbit events 0), (Z.testbit events 1).
Qed.
