(* ===== verification/Conn.v ===== *)
(** * Connections (src/src/net/connection.h, connection.cc)

    A connection owns a descriptor and two byte queues.  The model is generic in
    the queue: it uses the [ByteQueue] operations only, and its theorems the
    [ByteQueueLaws].  Each member function is one atomic step, as [send_mutex_]
    makes it. *)
From S2P Require Import Prelude Status Kernel SampleKernel ByteQueue FdGuard Owner RingBuf.

Record connection (Q : Type) := mkConnection {
  fd_guard_ : fd_guard;
  read_buffer_ : Q;
  write_buffer_ : Q;
  consecutive_drops_ : Z;
  total_dropped_packets_ : Z;
}.
Arguments mkConnection {Q} _ _ _ _ _.
Arguments fd_guard_ {Q} _.
Arguments read_buffer_ {Q} _.
Arguments write_buffer_ {Q} _.
Arguments consecutive_drops_ {Q} _.
Arguments total_dropped_packets_ {Q} _.

(** [struct iovec] *)
Record iovec := mkIovec { iov_base : ptr; iov_len : Z }.

(** The bytes an entry designates. *)
Definition iov_bytes (e : iovec) : option bytes :=
  match iov_base e with
  | Some src => mem_read src 0 (iov_len e)
  | None => if iov_len e =? 0 then Some [] else None
  end.

(** The first [iovcnt] entries of an array. *)
Definition iov_entries (iov : list iovec) (iovcnt : Z) : option (list iovec) :=
  if iovcnt <=? len iov then Some (ztake iovcnt iov) else None.

Module Connection.
Section Connection.
Context `{K : Kernel} {Q : Type} `{BQ : !ByteQueue Q}.
Implicit Types c : connection Q.

Definition with_read c q :=
  mkConnection (fd_guard_ c) q (write_buffer_ c) (consecutive_drops_ c)
    (total_dropped_packets_ c).
Definition with_write c q :=
  mkConnection (fd_guard_ c) (read_buffer_ c) q (consecutive_drops_ c)
    (total_dropped_packets_ c).

(** The block a buffer of this size asks for. *)
Definition block_size (buffer_size : Z) : Z := if 0 <? buffer_size then buffer_size else 1.

Definition Connection (fd buffer_size : Z) : M (connection Q) :=
  m1 ← alloc (block_size buffer_size);
  rb ← or_abort (bq_new buffer_size m1);
  m2 ← alloc (block_size buffer_size);
  wb ← or_abort (bq_new buffer_size m2);
  mret (mkConnection (FdGuard.FdGuard_of fd) rb wb 0 0).

Definition fd c : Z := FdGuard.fd (fd_guard_ c).
Definition IsClosed c : bool := negb (FdGuard.IsValid (fd_guard_ c)).

Definition would_block (e : Z) : bool := (e =? EAGAIN) || (e =? EWOULDBLOCK).

Definition Recv c : M (Z * connection Q) :=
  if IsClosed c then mret (0, c)
  else if bq_WritableSize (read_buffer_ c) =? 0 then mret (-1, c)
  else
    let writable := bq_ContiguousWritableSize (read_buffer_ c) in
    a ← sys (SysRecv (fd c) writable);
    let ret := a_ret a in
    if ret <? 0 then
      e ← get_errno;
      if would_block e then mret (0, c) else mret (-1, c)
    else if ret =? 0 then mret (0, c)
    else
      q ← ub (bq_StoreAtWritePtr (read_buffer_ c) (a_data a));
      mret (ret, with_read c (bq_Produce q ret)).

(** The part of [Send] that tries the socket; [None] falls through to buffering. *)
Definition send_direct c (src : bytes) (n : Z) : M (option (Z * connection Q)) :=
  d ← ub (mem_read src 0 n);
  a ← sys (SysSend (fd c) d);
  let ret := a_ret a in
  if 0 <? ret then
    let sent := ret in
    if sent <? n then
      '(st, wb) ← ub (bq_Write (write_buffer_ c) (Some (zdrop sent src)) (u64 (n - sent)));
      let c := with_write c wb in
      if negb (Status.ok st) then mret (Some (sent, c)) else mret (Some (n, c))
    else mret (Some (n, c))
  else
    e ← get_errno;
    if negb (would_block e) then mret (Some (-1, c)) else mret None.

Definition Send c (data : ptr) (n : Z) : M (Z * connection Q) :=
  if IsClosed c then mret (0, c)
  else match data with
  | None => mret (0, c)
  | Some src =>
    if n =? 0 then mret (0, c)
    else
      r ← (if bq_ReadableSize (write_buffer_ c) =? 0
           then send_direct c src n else mret None);
      match r with
      | Some r => mret r
      | None =>
        '(st, wb) ← ub (bq_Write (write_buffer_ c) (Some src) n);
        let c := with_write c wb in
        if negb (Status.ok st) then mret (-1, c) else mret (n, c)
      end
  end.

(** The [j] loop of [SendV]: buffer whole entries, stopping at the first failure. *)
Fixpoint buffer_rest (wb : Q) (es : list iovec) : option (bool * Q) :=
  match es with
  | [] => Some (true, wb)
  | e :: es =>
    '(st, wb) ← bq_Write wb (iov_base e) (iov_len e);
    if negb (Status.ok st) then Some (false, wb) else buffer_rest wb es
  end.

(** The [i] loop after a partial [writev]: skip what was sent, buffer the rest. *)
Fixpoint buffer_unsent (wb : Q) (es : list iovec) (skip : Z) : option (bool * Q) :=
  match es with
  | [] => Some (true, wb)
  | e :: es =>
    if skip <? iov_len e then
      '(st, wb) ← bq_Write wb (zdrop skip <$> iov_base e) (u64 (iov_len e - skip));
      if negb (Status.ok st) then Some (false, wb) else buffer_rest wb es
    else buffer_unsent wb es (u64 (skip - iov_len e))
  end.

(** The loop that buffers everything when nothing could be sent. *)
Fixpoint buffer_all (wb : Q) (es : list iovec) : option (bool * Q) :=
  match es with
  | [] => Some (true, wb)
  | e :: es =>
    if 0 <? iov_len e then
      '(st, wb) ← bq_Write wb (iov_base e) (iov_len e);
      if negb (Status.ok st) then Some (false, wb) else buffer_all wb es
    else buffer_all wb es
  end.

Definition sendv_direct c (es : list iovec) (total_len : Z)
    : M (option (Z * connection Q)) :=
  ds ← ub (mapM iov_bytes es);
  a ← sys (SysWritev (fd c) ds);
  let ret := a_ret a in
  if 0 <? ret then
    let sent := ret in
    if sent <? total_len then
      '(ok, wb) ← ub (buffer_unsent (write_buffer_ c) es sent);
      let c := with_write c wb in
      if negb (ok : bool) then mret (Some (sent, c)) else mret (Some (total_len, c))
    else mret (Some (total_len, c))
  else
    e ← get_errno;
    if negb (would_block e) then mret (Some (-1, c)) else mret None.

Definition SendV c (iov : option (list iovec)) (iovcnt total_len : Z)
    : M (Z * connection Q) :=
  if IsClosed c then mret (0, c)
  else match iov with
  | None => mret (0, c)
  | Some iov =>
    if (iovcnt <=? 0) || (total_len =? 0) then mret (0, c)
    else
      es ← ub (iov_entries iov iovcnt);
      r ← (if bq_ReadableSize (write_buffer_ c) =? 0
           then sendv_direct c es total_len else mret None);
      match r with
      | Some r => mret r
      | None =>
        '(ok, wb) ← ub (buffer_all (write_buffer_ c) es);
        let c := with_write c wb in
        if negb (ok : bool) then mret (-1, c) else mret (total_len, c)
      end
  end.

Definition Flush c : M (Z * connection Q) :=
  if IsClosed c then mret (0, c)
  else
    iov ← ub (bq_GetReadableIoVec (write_buffer_ c));
    if len iov =? 0 then mret (0, c)
    else
      a ← match iov with
          | [d] => sys (SysSend (fd c) d)
          | _ => sys (SysWritev (fd c) iov)
          end;
      let ret := a_ret a in
      if ret <? 0 then
        e ← get_errno;
        if would_block e then mret (0, c) else mret (-1, c)
      else
        mret (ret, with_write c (bq_Consume (write_buffer_ c) (u64 ret))).

(** The bytes readable from the returned pointer on. *)
Definition GetReadBuffer c : bytes := bq_ReadPtr (read_buffer_ c).
Definition GetReadBufferSize c : Z := bq_ReadableSize (read_buffer_ c).
Definition Consume c (n : Z) : connection Q := with_read c (bq_Consume (read_buffer_ c) n).
Definition Peek c (data : ptr) (size : Z) : option (status * ptr) :=
  bq_Peek (read_buffer_ c) data size.
Definition FindSubstring c (substr : ptr) (substr_len max_search_len : Z) : option Z :=
  bq_FindSubstring (read_buffer_ c) substr substr_len max_search_len.
Definition NeedFlush c : bool := 0 <? bq_ReadableSize (write_buffer_ c).

Definition RecordDrop c : connection Q :=
  mkConnection (fd_guard_ c) (read_buffer_ c) (write_buffer_ c)
    (i32 (consecutive_drops_ c + 1)) (u64 (total_dropped_packets_ c + 1)).
Definition RecordSuccess c : connection Q :=
  mkConnection (fd_guard_ c) (read_buffer_ c) (write_buffer_ c) 0
    (total_dropped_packets_ c).
Definition GetConsecutiveDrops c : Z := consecutive_drops_ c.
Definition GetTotalDroppedPackets c : Z := total_dropped_packets_ c.

Definition Close c : M (connection Q) :=
  g ← FdGuard.Close (fd_guard_ c);
  mret (mkConnection g (read_buffer_ c) (write_buffer_ c) (consecutive_drops_ c)
          (total_dropped_packets_ c)).

(** [~Connection()]: [Close()], then the members' destructors. *)
Definition destroy c : M unit :=
  c ← Close c;
  FdGuard.destroy (fd_guard_ c).
End Connection.
End Connection.

(** ** The output stream

    [wire fd tr] is what the kernel accepted on [fd] over the trace: of each
    [send] or [writev] the first [ret] bytes.  The stream a connection has
    committed to is the wire followed by the buffered bytes. *)
Definition accepted (fd : Z) (ev : event) : bytes :=
  match ev with
  | (SysSend f d, a) => if f =? fd then ztake (a_ret a) d else []
  | (SysWritev f iov, a) => if f =? fd then ztake (a_ret a) (mjoin iov) else []
  | _ => []
  end.

Definition wire (fd : Z) (tr : list event) : bytes := tr ≫= accepted fd.

Lemma wire_app fd a b : wire fd (a ++ b) = wire fd a ++ wire fd b.
Proof. apply bind_app. Qed.

Lemma wire_snoc fd tr ev : wire fd (tr ++ [ev]) = wire fd tr ++ accepted fd ev.
Proof. rewrite wire_app. unfold wire. simpl. by rewrite app_nil_r. Qed.

Section facts.
Context `{K : Kernel} `{KL : !KernelLaws} {Q : Type} `{BQ : !ByteQueue Q}
  `{BL : !ByteQueueLaws Q}.
Implicit Types c : connection Q.

(** A connection whose queues satisfy their invariant. *)
Record conn_wf c : Prop := {
  conn_read : bq_inv (read_buffer_ c);
  conn_write : bq_inv (write_buffer_ c);
}.

Definition stream c (w : world) : bytes :=
  wire (Connection.fd c) (w_trace w) ++ bq_contents (write_buffer_ c).

(** Only the write queue differs. *)
Record same_but_write c c' : Prop := {
  same_fd : fd_guard_ c' = fd_guard_ c;
  same_read : read_buffer_ c' = read_buffer_ c;
  same_drops : consecutive_drops_ c' = consecutive_drops_ c;
  same_total : total_dropped_packets_ c' = total_dropped_packets_ c;
}.

Lemma same_but_write_refl c : same_but_write c c.
Proof. done. Qed.

Lemma same_but_write_with c q : same_but_write c (Connection.with_write c q).
Proof. done. Qed.

Lemma conn_wf_with_write c q : conn_wf c -> bq_inv q -> conn_wf (Connection.with_write c q).
Proof. intros [??] ?. by split. Qed.

Lemma stream_with_write c q w :
  stream (Connection.with_write c q) w = wire (Connection.fd c) (w_trace w) ++ bq_contents q.
Proof. done. Qed.

Lemma queue_write q src n :
  bq_inv q -> 0 < n <= len src ->
  exists st q', bq_Write q (Some src) n = Some (st, q') /\ bq_inv q' /\
    bq_capacity q' = bq_capacity q /\
    ((Status.ok st = true /\ bq_contents q' = bq_contents q ++ ztake n src /\
      len (bq_contents q) + n <= bq_capacity q) \/
     (Status.ok st = false /\ bq_contents q' = bq_contents q /\
      bq_capacity q < len (bq_contents q) + n)).
Proof.
  intros Hq Hn. destruct (bq_Write_spec q src n Hq ltac:(lia)) as (q' & -> & ? & ? & Hc).
  eexists _, q'. split; [done|]. split; [done|]. split; [done|]. revert Hc.
  unfold Fifo.write. assert (len (ztake n src) = n) as -> by llia.
  rewrite (proj2 (Z.eqb_neq n 0)) by lia. zcases.
  - right. split_and!; [done|done|lia].
  - left. split_and!; [done|done|lia].
Qed.

(** Whether the queue is empty, as the code tests it. *)
Lemma queue_empty q : bq_inv q -> (bq_ReadableSize q =? 0) = true <-> bq_contents q = [].
Proof. intros. rewrite bq_ReadableSize_spec, Z.eqb_eq by done. apply len_0. Qed.

Lemma accepted_send fd d a : accepted fd (SysSend fd d, a) = ztake (a_ret a) d.
Proof. simpl. by rewrite Z.eqb_refl. Qed.

Lemma accepted_writev fd iov a : accepted fd (SysWritev fd iov, a) = ztake (a_ret a) (mjoin iov).
Proof. simpl. by rewrite Z.eqb_refl. Qed.

(** Between two states only the write queue and the stream move. *)
Definition frame c c' : Prop :=
  conn_wf c' /\ same_but_write c c' /\
  bq_capacity (write_buffer_ c') = bq_capacity (write_buffer_ c).

(** The kernel takes something of every output on [fd], or says that the socket is
    full for now. *)
Definition willing (fd : Z) : Prop :=
  forall tr call d, call = SysSend fd d \/ (exists iov, call = SysWritev fd iov /\ d = mjoin iov) ->
  0 < len d ->
  0 < a_ret (kernel_answer tr call) \/
  (a_ret (kernel_answer tr call) < 0 /\
   Connection.would_block (a_errno (kernel_answer tr call)) = true).

(** The message [d] cannot be refused: there is room for it in the queue as well. *)
Definition assured c (d : bytes) : Prop :=
  willing (Connection.fd c) /\
  len (bq_contents (write_buffer_ c)) + len d <= bq_capacity (write_buffer_ c).

(** The three outcomes of sending the message [d]: all of it joins the stream;
    none of it does and the call reports -1; or the kernel took only the first
    [r] bytes, the rest does not fit the queue and is lost. *)
Definition send_post c (w : world) (d : bytes) (r : Z) c' (w' : world) : Prop :=
  frame c c' /\
  ((r = len d /\ stream c' w' = stream c w ++ d) \/
   (r = -1 /\ stream c' w' = stream c w /\ ~ assured c d) \/
   (0 < r < len d /\ bq_contents (write_buffer_ c') = [] /\
    bq_capacity (write_buffer_ c) < len d - r /\
    stream c' w' = stream c w ++ ztake r d)).

Lemma frame_refl c : conn_wf c -> frame c c.
Proof. intros. unfold frame. by split_and!. Qed.

Lemma frame_with_write c q :
  conn_wf c -> bq_inv q -> bq_capacity q = bq_capacity (write_buffer_ c) ->
  frame c (Connection.with_write c q).
Proof. intros. unfold frame. split_and!; [by apply conn_wf_with_write|done..]. Qed.

(** The socket refuses what is willing to take only for now. *)
Lemma not_assured c call d w :
  call = SysSend (Connection.fd c) d \/ (exists iov, call = SysWritev (Connection.fd c) iov /\ d = mjoin iov) ->
  0 < len d -> a_ret (kernel_answer (w_trace w) call) <= 0 ->
  Connection.would_block (w_errno (after w call)) = false -> ~ assured c d.
Proof.
  intros Hcall Hd Hret He [Hw _]. destruct (Hw (w_trace w) call d Hcall Hd) as [|[Hneg Hb]]; [lia|].
  rewrite errno_after in He by done. congruence.
Qed.

(** What the socket attempt of [Send] does, from an empty write queue. *)
Lemma wp_send_direct c src n w :
  conn_wf c -> bq_contents (write_buffer_ c) = [] -> 0 < n <= len src -> n < 2 ^ 63 ->
  wp (Connection.send_direct c src n) (fun r w' =>
    match r with
    | Some (r, c') => send_post c w (ztake n src) r c' w'
    | None => stream c w' = stream c w
    end) w.
Proof.
  intros Hwf Hempty Hn Hmax. pose proof Hwf as [? Hw].
  assert (Hlen : len (ztake n src) = n) by llia.
  unfold Connection.send_direct. wp_step.
  eapply wp_ub; [apply mem_read_Some; lia|]. rewrite zdrop_0 by lia. wp_steps.
  set (call := SysSend (Connection.fd c) (ztake n src)).
  set (a := kernel_answer (w_trace w) call).
  assert (Ha : a_ret a <= n).
  { rewrite <-Hlen. apply send_bound. }
  assert (Hs : wire (Connection.fd c) (w_trace (after w call)) =
    stream c w ++ ztake (a_ret a) src).
  { unfold stream. rewrite trace_after, wire_snoc. fold a. unfold call.
    by rewrite accepted_send, ztake_ztake, Z.min_l, Hempty, app_nil_r by lia. }
  destruct (Z.ltb_spec 0 (a_ret a)) as [Hpos|Hneg]; [destruct (Z.ltb_spec (a_ret a) n)|].
  - rewrite u64_small by lia.
    destruct (queue_write (write_buffer_ c) (zdrop (a_ret a) src) (n - a_ret a) Hw)
      as (st & q' & HW & Hq' & Hcap & Hcase); [llia|].
    wp_step. eapply wp_ub; [exact HW|]. simpl.
    destruct Hcase as [(-> & Hc & Hfit)|(-> & Hc & Hfit)]; wp_steps;
      (split; [by apply frame_with_write|]);
      rewrite stream_with_write, Hs, Hc, Hempty, Hlen.
    + left. split; [done|]. simpl. by rewrite <-app_assoc, ztake_segments by lia.
    + right; right. rewrite app_nil_r, ztake_ztake, Z.min_l by lia.
      rewrite Hempty, len_nil in Hfit.
      split_and!; first [done|lia|simpl; by rewrite Hc].
  - wp_steps. split; [by apply frame_refl|]. left. rewrite Hlen. split; [done|].
    unfold stream at 1. rewrite Hs, Hempty, app_nil_r. do 2 f_equal. lia.
  - wp_steps. assert (Hsame : stream c (after w call) = stream c w).
    { unfold stream at 1. by rewrite Hs, Hempty, ztake_0, !app_nil_r by lia. }
    destruct (Connection.would_block _) eqn:Hb; wp_steps; simpl; [done|].
    split; [by apply frame_refl|]. right; left. split_and!; [done|done|].
    eapply not_assured; [by left| |exact Hneg|exact Hb]. lia.
Qed.

(** [Send] on an open connection, every outcome. *)
Lemma wp_Send c src n w :
  conn_wf c -> Connection.IsClosed c = false -> 0 < n <= len src -> n < 2 ^ 63 ->
  wp (Connection.Send c (Some src) n)
    (fun '(r, c') w' => send_post c w (ztake n src) r c' w') w.
Proof.
  intros Hwf Hopen Hn Hmax. pose proof Hwf as [? Hw].
  assert (Hlen : len (ztake n src) = n) by llia.
  unfold Connection.Send. rewrite Hopen, (proj2 (Z.eqb_neq n 0)) by lia.
  assert (Hbuf : forall w1, stream c w1 = stream c w ->
    wp ('(st, wb) ← ub (bq_Write (write_buffer_ c) (Some src) n);
        (if negb (Status.ok st) then mret (-1, Connection.with_write c wb)
         else mret (n, Connection.with_write c wb)))
      (fun '(r, c') w' => send_post c w (ztake n src) r c' w') w1).
  { intros w1 Hs1. wp_step.
    destruct (queue_write (write_buffer_ c) src n Hw Hn)
      as (st & q' & HW & Hq' & Hcap & Hcase).
    eapply wp_ub; [exact HW|]. simpl.
    destruct Hcase as [(-> & Hc & ?)|(-> & Hc & ?)]; wp_steps;
      (split; [by apply frame_with_write|]); rewrite <-Hs1, stream_with_write, Hc, Hlen.
    - left. split; [done|]. unfold stream. by rewrite app_assoc.
    - right; left. split_and!; [done|done|]. unfold assured. lia. }
  wp_step. destruct (bq_ReadableSize (write_buffer_ c) =? 0) eqn:He.
  - apply queue_empty in He; [|done].
    eapply wp_mono; [by apply wp_send_direct|]. intros [[r c']|] w1; simpl.
    + intros ?. by wp_steps.
    + apply Hbuf.
  - wp_step. by apply Hbuf.
Qed.
(** ** Scatter output *)

(** [ds] are the non-empty bytes the entries [es] designate. *)
Definition designates (es : list iovec) (ds : list bytes) : Prop :=
  Forall2 (fun e d => iov_bytes e = Some d /\ 0 < len d) es ds.

Lemma designates_mapM es ds : designates es ds -> mapM iov_bytes es = Some ds.
Proof.
  intros H. apply mapM_Some. eapply Forall2_impl; [exact H|]. by intros ? ? [? _].
Qed.

Lemma iov_bytes_inv e d :
  iov_bytes e = Some d -> 0 < len d ->
  exists src, iov_base e = Some src /\ iov_len e = len d /\ len d <= len src /\
    d = ztake (len d) src.
Proof.
  unfold iov_bytes. destruct (iov_base e) as [src|].
  - intros (? & ? & ? & ->)%mem_read_inv. intros. exists src.
    rewrite zdrop_0 in * by lia.
    assert (len (ztake (iov_len e) src) = iov_len e) as -> by llia.
    split_and!; done || lia.
  - case_match; intros; simplify_eq. rewrite len_nil in *. lia.
Qed.

(** [q'] is [q] with the bytes [D] appended: all of them when [ok], a proper
    prefix when they did not fit. *)
Definition appended (q q' : Q) (D : bytes) (ok : bool) : Prop :=
  bq_inv q' /\ bq_capacity q' = bq_capacity q /\
  exists m, 0 <= m <= len D /\ bq_contents q' = bq_contents q ++ ztake m D /\
    if ok then m = len D else m < len D /\ bq_capacity q < len (bq_contents q) + len D.

Lemma appended_nil q : bq_inv q -> appended q q [] true.
Proof.
  intros. unfold appended. split_and!; [done..|]. exists 0.
  split_and!; [done..| |done]. by rewrite ztake_0, app_nil_r.
Qed.

(** Appending [d], then going on with the rest [D]. *)
Lemma appended_step q q1 q' d D ok :
  bq_capacity q1 = bq_capacity q -> bq_contents q1 = bq_contents q ++ d ->
  appended q1 q' D ok -> appended q q' (d ++ D) ok.
Proof.
  intros Hcap Hc (? & ? & m & ? & Hm & Hok). pose proof (len_nonneg d).
  unfold appended. split_and!; [done|congruence|]. exists (len d + m). rewrite len_app.
  rewrite ztake_app_r, Hm, Hc, app_assoc by lia.
  replace (len d + m - len d) with m by lia. split_and!; [lia|lia|done|].
  destruct ok; [lia|]. rewrite Hcap, Hc, len_app in Hok. lia.
Qed.

(** One entry, possibly with its first [k] bytes skipped, goes to the queue. *)
Lemma queue_write_entry q src n (next : Q -> option (bool * Q)) d D :
  bq_inv q -> 0 < n <= len src -> d = ztake n src ->
  (forall q1, bq_inv q1 -> bq_capacity q1 = bq_capacity q ->
    bq_contents q1 = bq_contents q ++ d ->
    exists ok q', next q1 = Some (ok, q') /\ appended q1 q' D ok) ->
  exists ok q',
    ('(st, wb) ← bq_Write q (Some src) n;
     if negb (Status.ok st) then Some (false, wb) else next wb) = Some (ok, q') /\
    appended q q' (d ++ D) ok.
Proof.
  intros Hq Hn -> Hnext. assert (len (ztake n src) = n) by llia.
  destruct (queue_write q src n Hq Hn) as (st & q1 & -> & Hq1 & Hcap & Hcase). simpl.
  destruct Hcase as [(-> & Hc & ?)|(-> & Hc & ?)]; simpl.
  - destruct (Hnext q1 Hq1 Hcap Hc) as (ok & q' & -> & Happ).
    exists ok, q'. split; [done|]. by eapply appended_step.
  - exists false, q1. split; [done|]. unfold appended. split_and!; [done..|].
    exists 0. rewrite Hc, len_app. pose proof (len_nonneg D).
    rewrite (ztake_0 0), app_nil_r by lia. split_and!; done || lia.
Qed.

Lemma buffer_rest_spec es ds q :
  bq_inv q -> designates es ds ->
  exists ok q', Connection.buffer_rest q es = Some (ok, q') /\ appended q q' (mjoin ds) ok.
Proof.
  intros Hq Hes. revert q Hq. induction Hes as [|e d es ds [He Hd] _ IH]; intros q Hq; simpl.
  { exists true, q. split; [done|]. by apply appended_nil. }
  destruct (iov_bytes_inv e d He Hd) as (src & -> & -> & ? & Hds).
  apply queue_write_entry; [done|lia|done|]. auto.
Qed.

Lemma buffer_all_spec es ds q :
  bq_inv q -> designates es ds ->
  exists ok q', Connection.buffer_all q es = Some (ok, q') /\ appended q q' (mjoin ds) ok.
Proof.
  intros Hq Hes. revert q Hq. induction Hes as [|e d es ds [He Hd] _ IH]; intros q Hq; simpl.
  { exists true, q. split; [done|]. by apply appended_nil. }
  destruct (iov_bytes_inv e d He Hd) as (src & -> & -> & ? & Hds).
  rewrite (proj2 (Z.ltb_lt _ _)) by lia.
  apply queue_write_entry; [done|lia|done|]. auto.
Qed.

Lemma buffer_unsent_spec es ds q skip :
  bq_inv q -> designates es ds -> len (mjoin ds) < 2 ^ 63 -> 0 <= skip < len (mjoin ds) ->
  exists ok q', Connection.buffer_unsent q es skip = Some (ok, q') /\
    appended q q' (zdrop skip (mjoin ds)) ok.
Proof.
  intros Hq Hes. revert skip.
  induction Hes as [|e d es ds [He Hd] Hes IH]; intros skip; simpl.
  { rewrite len_nil. lia. }
  destruct (iov_bytes_inv e d He Hd) as (src & -> & -> & ? & Hds).
  rewrite len_app. intros Hmax ?. pose proof (len_nonneg (mjoin ds)).
  destruct (Z.ltb_spec skip (len d)).
  - rewrite u64_small by lia. simpl. rewrite zdrop_app_l by lia.
    apply queue_write_entry; [done|llia| |].
    + rewrite Hds at 1. by rewrite zdrop_ztake by lia.
    + intros. by apply buffer_rest_spec.
  - rewrite u64_small, zdrop_app_r by lia. apply IH; lia.
Qed.

(** What [SendV] does with the message [D]: [m] bytes of it join the stream. *)
Definition sendv_post c (w : world) (D : bytes) (r : Z) c' (w' : world) : Prop :=
  frame c c' /\
  exists m, 0 <= m <= len D /\ stream c' w' = stream c w ++ ztake m D /\
    ((r = len D /\ m = len D) \/
     (r = -1 /\ m < len D /\
      (m = 0 \/ bq_capacity (write_buffer_ c) < len (bq_contents (write_buffer_ c)) + len D) /\
      ~ assured c D) \/
     (0 < r <= m /\ m < len D /\ bq_contents (write_buffer_ c) = [] /\
      bq_capacity (write_buffer_ c) < len D - r)).

Lemma sendv_post_none c w D w' :
  conn_wf c -> 0 < len D -> stream c w' = stream c w -> ~ assured c D ->
  sendv_post c w D (-1) c w'.
Proof.
  intros ? ? Hs Hno. split; [by apply frame_refl|]. exists 0.
  rewrite Hs, ztake_0, app_nil_r by lia. split_and!; [lia..|done|]. right; left.
  split_and!; [done|lia|by left|done].
Qed.

Lemma wp_sendv_direct c es ds w :
  conn_wf c -> bq_contents (write_buffer_ c) = [] -> designates es ds ->
  0 < len (mjoin ds) < 2 ^ 63 ->
  wp (Connection.sendv_direct c es (len (mjoin ds))) (fun r w' =>
    match r with
    | Some (r, c') => sendv_post c w (mjoin ds) r c' w'
    | None => stream c w' = stream c w
    end) w.
Proof.
  intros Hwf Hempty Hes Hmax. pose proof Hwf as [? Hw].
  unfold Connection.sendv_direct. wp_step.
  eapply wp_ub; [by apply designates_mapM|]. wp_steps.
  set (call := SysWritev (Connection.fd c) ds).
  set (a := kernel_answer (w_trace w) call). set (D := mjoin ds) in *.
  assert (Ha : a_ret a <= len D) by apply writev_bound.
  assert (Hs : wire (Connection.fd c) (w_trace (after w call)) =
    stream c w ++ ztake (a_ret a) D).
  { unfold stream. rewrite trace_after, wire_snoc. fold a. unfold call.
    by rewrite accepted_writev, Hempty, app_nil_r. }
  destruct (Z.ltb_spec 0 (a_ret a)) as [Hpos|Hneg]; [destruct (Z.ltb_spec (a_ret a) (len D))|].
  - destruct (buffer_unsent_spec es ds (write_buffer_ c) (a_ret a) Hw Hes)
      as (ok & q' & Hbuf & Hq' & Hcap & m & Hm & Hc & Hok); [fold D; lia..|].
    fold D in Hm, Hc, Hok.
    revert Hm Hok. rewrite len_zdrop. intros Hm Hok.
    wp_step. eapply wp_ub; [exact Hbuf|]. simpl.
    assert (Hst : forall w1, w_trace w1 = w_trace (after w call) ->
      stream (Connection.with_write c q') w1 = stream c w ++ ztake (a_ret a + m) D).
    { intros w1 Hw1. rewrite stream_with_write, Hw1, Hs, Hc, Hempty. simpl.
      rewrite <-app_assoc. f_equal. rewrite <-(ztake_segments (a_ret a) (a_ret a + m) D) by lia.
      do 2 f_equal. lia. }
    destruct ok; wp_steps; (split; [by apply frame_with_write|]);
      exists (a_ret a + m); rewrite Hst by done; (split; [lia|]); (split; [done|]).
    + left. lia.
    + right; right. rewrite Hempty, len_nil in Hok. split_and!; done || lia.
  - wp_steps. split; [by apply frame_refl|]. exists (len D).
    split; [lia|]. split; [|by left]. unfold stream at 1.
    rewrite Hs, Hempty, app_nil_r. do 2 f_equal. lia.
  - assert (Hsame : stream c (after w call) = stream c w).
    { unfold stream at 1. by rewrite Hs, Hempty, ztake_0, !app_nil_r by lia. }
    wp_steps. destruct (Connection.would_block _) eqn:Hb; wp_steps; simpl; [done|].
    apply sendv_post_none; [done|lia|done|].
    eapply not_assured; [right; by exists ds| |exact Hneg|exact Hb]. lia.
Qed.

(** [SendV] on an open connection, every outcome. *)
Lemma wp_SendV c iov es ds cnt w :
  conn_wf c -> Connection.IsClosed c = false -> iov_entries iov cnt = Some es ->
  designates es ds -> 0 < cnt -> 0 < len (mjoin ds) < 2 ^ 63 ->
  wp (Connection.SendV c (Some iov) cnt (len (mjoin ds)))
    (fun '(r, c') w' => sendv_post c w (mjoin ds) r c' w') w.
Proof.
  intros Hwf Hopen Hent Hes Hcnt Hmax. pose proof Hwf as [? Hw].
  unfold Connection.SendV.
  rewrite Hopen, (proj2 (Z.leb_gt cnt 0)), (proj2 (Z.eqb_neq (len _) 0)) by lia. simpl.
  wp_step. eapply wp_ub; [exact Hent|]. set (D := mjoin ds) in *.
  assert (Hbuf : forall w1, stream c w1 = stream c w ->
    wp ('(ok, wb) ← ub (Connection.buffer_all (write_buffer_ c) es);
        (if negb (ok : bool) then mret (-1, Connection.with_write c wb)
         else mret (len D, Connection.with_write c wb)))
      (fun '(r, c') w' => sendv_post c w D r c' w') w1).
  { intros w1 Hs1. wp_step.
    destruct (buffer_all_spec es ds (write_buffer_ c) Hw Hes)
      as (ok & q' & Hall & Hq' & Hcap & m & Hm & Hc & Hok). fold D in Hm, Hc, Hok.
    eapply wp_ub; [exact Hall|]. simpl.
    assert (Hst : forall w2, w_trace w2 = w_trace w1 ->
      stream (Connection.with_write c q') w2 = stream c w ++ ztake m D).
    { intros w2 Hw2. rewrite stream_with_write, Hw2, Hc, app_assoc. by rewrite <-Hs1. }
    destruct ok; wp_steps; (split; [by apply frame_with_write|]);
      exists m; rewrite Hst by done; (split; [lia|]); (split; [done|]).
    - left. lia.
    - right; left. unfold assured. lia. }
  wp_step. destruct (bq_ReadableSize (write_buffer_ c) =? 0) eqn:He.
  - apply queue_empty in He; [|done].
    eapply wp_mono; [by eapply wp_sendv_direct|]. intros [[r c']|] w1; simpl.
    + intros ?. by wp_steps.
    + apply Hbuf.
  - wp_step. by apply Hbuf.
Qed.

(** ** Flush and receive *)

(** [Flush] moves bytes from the queue to the wire: the stream stays the same. *)
Lemma wp_Flush c w :
  conn_wf c -> Connection.IsClosed c = false ->
  wp (Connection.Flush c) (fun '(r, c') w' =>
    frame c c' /\ stream c' w' = stream c w /\ -1 <= r /\
    len (bq_contents (write_buffer_ c')) = len (bq_contents (write_buffer_ c)) - Z.max 0 r) w.
Proof.
  intros Hwf Hopen. pose proof Hwf as [? Hw].
  unfold Connection.Flush. rewrite Hopen. wp_step.
  destruct (bq_GetReadableIoVec_spec (write_buffer_ c) Hw)
    as (iov & Hiov & Hjoin & Hlen & Hnil & Hne).
  eapply wp_ub; [exact Hiov|].
  destruct (Z.eqb_spec (len iov) 0) as [_|Hn0].
  { wp_steps. split; [by apply frame_refl|]. split_and!; [done|lia|lia]. }
  assert (Hsend : exists call, (match iov with
    | [d] => sys (SysSend (Connection.fd c) d)
    | _ => sys (SysWritev (Connection.fd c) iov) end) = sys call /\
    a_ret (kernel_answer (w_trace w) call) <= len (mjoin iov) /\
    forall a, accepted (Connection.fd c) (call, a) = ztake (a_ret a) (mjoin iov)).
  { destruct iov as [|d [|]]; eexists; (split; [done|]).
    - split; [apply writev_bound|]. intros. apply accepted_writev.
    - simpl. rewrite app_nil_r. split; [apply send_bound|]. intros. apply accepted_send.
    - split; [apply writev_bound|]. intros. apply accepted_writev. }
  destruct Hsend as (call & -> & Hb & Hacc). wp_steps.
  set (a := kernel_answer (w_trace w) call) in *. rewrite Hjoin in Hb, Hacc.
  assert (Hs : wire (Connection.fd c) (w_trace (after w call)) =
    wire (Connection.fd c) (w_trace w) ++ ztake (a_ret a) (bq_contents (write_buffer_ c))).
  { rewrite trace_after, wire_snoc. fold a. by rewrite Hacc. }
  destruct (Z.ltb_spec (a_ret a) 0).
  - assert (Hsame : stream c (after w call) = stream c w).
    { unfold stream. by rewrite Hs, ztake_0, app_nil_r by lia. }
    wp_steps. destruct (Connection.would_block _); wp_steps;
      (split; [by apply frame_refl|]); split_and!; done || lia.
  - wp_steps. pose proof (bq_capacity_spec (write_buffer_ c) Hw).
    rewrite u64_small by lia.
    destruct (bq_Consume_spec (write_buffer_ c) (a_ret a) Hw) as (? & ? & Hc); [lia|].
    revert Hc. unfold Fifo.consume. rewrite Z.min_l by lia. intros Hc.
    split; [by apply frame_with_write|]. rewrite stream_with_write, Hs, Hc. simpl.
    rewrite Hc, <-app_assoc, ztake_zdrop. split_and!; [done|lia|llia].
Qed.

(** What a call of [recv] with [a] for an answer comes to: the value reported, and the
    bytes that joined the input. *)
Definition recv_result (a : answer) : Z :=
  if a_ret a <? 0 then (if Connection.would_block (a_errno a) then 0 else -1) else a_ret a.

Definition recv_bytes (a : answer) : bytes := if 0 <? a_ret a then a_data a else [].

(** [Recv] leaves everything but the read queue alone.  If that is full it makes no
    call; otherwise it makes one, for no more than what fits in one piece, and the
    bytes that the kernel answers join the queue. *)
Record recv_post c w (r : Z) c' w' : Prop := {
  rc_wf : conn_wf c';
  rc_fd : fd_guard_ c' = fd_guard_ c;
  rc_write : write_buffer_ c' = write_buffer_ c;
  rc_drops : consecutive_drops_ c' = consecutive_drops_ c;
  rc_stream : stream c' w' = stream c w;
  rc_capacity : bq_capacity (read_buffer_ c') = bq_capacity (read_buffer_ c);
  rc_result :
    let n := bq_ContiguousWritableSize (read_buffer_ c) in
    let call := SysRecv (Connection.fd c) n in
    let a := kernel_answer (w_trace w) call in
    if bq_WritableSize (read_buffer_ c) =? 0 then r = -1 /\ c' = c /\ w' = w
    else r = recv_result a /\ r <= n /\ w_trace w' = w_trace w ++ [(call, a)] /\
      bq_contents (read_buffer_ c') = bq_contents (read_buffer_ c) ++ recv_bytes a;
}.

Lemma wp_Recv_exact c w :
  conn_wf c -> Connection.IsClosed c = false ->
  wp (Connection.Recv c) (fun '(r, c') w' => recv_post c w r c' w') w.
Proof.
  intros Hwf Hopen. pose proof Hwf as [Hr ?].
  unfold Connection.Recv. rewrite Hopen. destruct (_ =? 0) eqn:Hfull.
  { wp_steps. split; try done. by rewrite Hfull. }
  destruct (bq_ContiguousWritable_spec _ Hr) as [[Hcw ?] _]. wp_steps.
  set (call := SysRecv (Connection.fd c) (bq_ContiguousWritableSize (read_buffer_ c))).
  assert (Hs : stream c (after w call) = stream c w).
  { unfold stream. rewrite trace_after, wire_snoc. simpl. by rewrite app_nil_r. }
  pose proof (recv_bound (w_trace w) (Connection.fd c)
    (bq_ContiguousWritableSize (read_buffer_ c)) Hcw) as Hb. fold call in Hb.
  pose proof (recv_data (w_trace w) (Connection.fd c)
    (bq_ContiguousWritableSize (read_buffer_ c))) as Hd. fold call in Hd.
  assert (Hnone : a_ret (kernel_answer (w_trace w) call) <= 0 ->
    recv_post c w (recv_result (kernel_answer (w_trace w) call)) c (after w call)).
  { intros Hle. split; [done..|]. cbv zeta. rewrite Hfull. fold call.
    unfold recv_bytes, recv_result. rewrite (proj2 (Z.ltb_ge 0 _)), app_nil_r by lia.
    split; [done|]. split; [|done]. destruct (_ <? 0); [destruct (Connection.would_block _)|]; lia. }
  pose proof (errno_after w call) as Herr.
  assert (Hsome : forall q, 0 < a_ret (kernel_answer (w_trace w) call) -> bq_inv q ->
    bq_capacity q = bq_capacity (read_buffer_ c) ->
    bq_contents q = bq_contents (read_buffer_ c) ++ a_data (kernel_answer (w_trace w) call) ->
    recv_post c w (a_ret (kernel_answer (w_trace w) call)) (Connection.with_read c q) (after w call)).
  { intros q Hpos Hq Hcap Hc. split; [by split|done..|]. cbv zeta. rewrite Hfull. fold call.
    unfold recv_bytes, recv_result. rewrite (proj2 (Z.ltb_lt 0 _)), (proj2 (Z.ltb_ge _ 0)) by lia.
    by split_and!. }
  unfold recv_result in Hnone. set (a := kernel_answer (w_trace w) call) in *.
  destruct (Z.ltb_spec (a_ret a) 0).
  { wp_steps. rewrite Herr by done. specialize (Hnone ltac:(lia)).
    destruct (Connection.would_block _); by wp_steps. }
  destruct (Z.eqb_spec (a_ret a) 0) as [He|]; [wp_steps; rewrite He in Hnone; apply Hnone; lia|].
  specialize (Hd ltac:(lia)). wp_step.
  destruct (bq_Store_Produce_spec (read_buffer_ c) (a_data a) Hr)
    as (q' & Hst & ? & ? & Hc); [lia|]. rewrite Hd in *.
  eapply wp_ub; [exact Hst|]. wp_steps. apply Hsome; [lia|done..].
Qed.

Lemma wp_Recv c w :
  conn_wf c -> Connection.IsClosed c = false ->
  wp (Connection.Recv c) (fun '(r, c') w' =>
    conn_wf c' /\ fd_guard_ c' = fd_guard_ c /\ write_buffer_ c' = write_buffer_ c /\
    bq_capacity (read_buffer_ c') = bq_capacity (read_buffer_ c) /\
    -1 <= r /\
    exists d, bq_contents (read_buffer_ c') = bq_contents (read_buffer_ c) ++ d /\
      len d = Z.max 0 r /\
      stream c' w' = stream c w) w.
Proof.
  intros Hwf Hopen. eapply wp_mono; [by apply wp_Recv_exact|].
  intros [r c'] w' [H1 H2 H3 _ H4 H5 H6]. split_and!; [done..| |].
  - revert H6. cbv zeta. unfold recv_result. destruct (_ =? 0); [lia|]. intros (-> & _).
    destruct (Z.ltb_spec (a_ret (kernel_answer (w_trace w) (SysRecv (Connection.fd c)
      (bq_ContiguousWritableSize (read_buffer_ c))))) 0); [by destruct (Connection.would_block _)|lia].
  - pose proof (recv_data (w_trace w) (Connection.fd c)
      (bq_ContiguousWritableSize (read_buffer_ c))) as Hd. revert H6. cbv zeta. destruct (_ =? 0).
    + intros (-> & -> & ->). exists []. by rewrite app_nil_r.
    + intros (-> & _ & _ & ->). eexists. split; [done|]. split; [|done].
      revert Hd. unfold recv_bytes, recv_result. intros Hd.
      destruct (Z.ltb_spec 0 (a_ret (kernel_answer (w_trace w) (SysRecv (Connection.fd c)
        (bq_ContiguousWritableSize (read_buffer_ c)))))).
      * rewrite (proj2 (Z.ltb_ge _ 0)) by lia. rewrite Hd; lia.
      * destruct (Z.ltb_spec (a_ret (kernel_answer (w_trace w) (SysRecv (Connection.fd c)
          (bq_ContiguousWritableSize (read_buffer_ c))))) 0); [by destruct (Connection.would_block _)|].
        rewrite len_nil. lia.
Qed.

(** ** Uses of the output side *)

Inductive out_use := OutSend (d : bytes) | OutFlush.

Fixpoint out_run c (us : list out_use) : M (list Z * connection Q) :=
  match us with
  | [] => mret ([], c)
  | u :: us =>
    '(r, c) ← match u with
              | OutSend d => Connection.Send c (Some d) (len d)
              | OutFlush => Connection.Flush c
              end;
    '(rs, c) ← out_run c us;
    mret (r :: rs, c)
  end.

(** The messages whose send reported their full length. *)
Fixpoint delivered (us : list out_use) (rs : list Z) : bytes :=
  match us, rs with
  | OutSend d :: us, r :: rs => (if r =? len d then d else []) ++ delivered us rs
  | OutFlush :: us, _ :: rs => delivered us rs
  | _, _ => []
  end.

Lemma delivered_send d us r rs :
  delivered (OutSend d :: us) (r :: rs) = (if r =? len d then d else []) ++ delivered us rs.
Proof. done. Qed.

Definition fits (cap : Z) (u : out_use) : Prop :=
  match u with OutSend d => 0 < len d <= cap | OutFlush => True end.

Lemma frame_open c c' :
  frame c c' -> Connection.IsClosed c = false ->
  conn_wf c' /\ Connection.IsClosed c' = false /\
  bq_capacity (write_buffer_ c') = bq_capacity (write_buffer_ c).
Proof.
  intros (? & [Hfd _ _ _] & ?) ?. split_and!; [done| |done].
  unfold Connection.IsClosed in *. by rewrite Hfd.
Qed.

Lemma wp_out_run c us w :
  conn_wf c -> Connection.IsClosed c = false ->
  Forall (fits (bq_capacity (write_buffer_ c))) us ->
  wp (out_run c us) (fun '(rs, c') w' =>
    conn_wf c' /\ length rs = length us /\
    stream c' w' = stream c w ++ delivered us rs) w.
Proof.
  intros Hwf Hopen Hus. revert c w Hwf Hopen Hus.
  induction us as [|u us IH]; intros c w Hwf Hopen Hus; cbn [out_run].
  { wp_step. cbn. by rewrite app_nil_r. }
  apply Forall_cons in Hus as [Hu Hus].
  assert (Hnext : forall c1 w1 r d,
    frame c c1 -> stream c1 w1 = stream c w ++ d ->
    (forall rs, delivered (u :: us) (r :: rs) = d ++ delivered us rs) ->
    wp ('(rs, c2) ← out_run c1 us; mret (r :: rs, c2)) (fun '(rs, c') w' =>
      conn_wf c' /\ length rs = length (u :: us) /\
      stream c' w' = stream c w ++ delivered (u :: us) rs) w1).
  { intros c1 w1 r d Hf Hs Hd. destruct (frame_open c c1 Hf Hopen) as (? & ? & Hcap).
    wp_step. eapply wp_mono; [apply IH; [done|done|by rewrite Hcap]|].
    intros [rs c2] w2 (? & Hl & Hs2). wp_step. split_and!; [done|by cbn; rewrite Hl|].
    by rewrite Hs2, Hs, Hd, app_assoc. }
  destruct u as [d|]; wp_step.
  - simpl in Hu. pose proof (bq_capacity_spec _ (conn_write c Hwf)).
    eapply wp_mono; [apply wp_Send; [done|done|lia|lia]|].
    intros [r c1] w1 [Hf Hr]. rewrite ztake_all in Hr by lia.
    destruct Hr as [[-> Hs]|[(-> & Hs & _)|(? & Hempty & ? & _)]].
    + apply Hnext with d; [done|done|]. intros. by rewrite delivered_send, Z.eqb_refl.
    + apply Hnext with []; [done|by rewrite Hs, app_nil_r|]. intros.
      by rewrite delivered_send, (proj2 (Z.eqb_neq (-1) (len d))) by lia.
    + lia.
  - eapply wp_mono; [by apply wp_Flush|]. intros [r c1] w1 (Hf & Hs & _).
    apply Hnext with []; [done|by rewrite Hs, app_nil_r|done].
Qed.

(** ** Properties *)

(** C15: No torn messages.  Along any sequence of [Send]s, each of a message that
    fits the write buffer, and [Flush]es, whatever the kernel accepts of each
    call, the stream is the messages that were reported as sent, whole and in
    order; the others left no byte in it. *)
Theorem Send_sequence_stream c us w :
  conn_wf c -> Connection.IsClosed c = false ->
  Forall (fits (bq_capacity (write_buffer_ c))) us ->
  wp (out_run c us) (fun '(rs, c') w' =>
    stream c' w' = stream c w ++ delivered us rs) w.
Proof.
  intros. eapply wp_mono; [by apply wp_out_run|]. by intros [rs c'] w' (_ & _ & ?).
Qed.

(** Every outcome of [Send], for a message of any length: all of it joins the
    stream, or none (-1), which the kernel or the lack of room must cause, or -- only when the message exceeds the write buffer --
    the kernel took its first [r] bytes and the rest is lost, which is reported
    as the positive count [r]. *)
Theorem Send_outcomes c src n w :
  conn_wf c -> Connection.IsClosed c = false -> 0 < n <= len src -> n < 2 ^ 63 ->
  wp (Connection.Send c (Some src) n) (fun '(r, c') w' =>
    conn_wf c' /\
    ((r = n /\ stream c' w' = stream c w ++ ztake n src) \/
     (r = -1 /\ stream c' w' = stream c w /\ ~ assured c (ztake n src)) \/
     (0 < r < n /\ bq_capacity (write_buffer_ c) < n - r /\
      stream c' w' = stream c w ++ ztake r src))) w.
Proof.
  intros ? ? Hn ?. eapply wp_mono; [by apply wp_Send|]. intros [r c'] w' [(? & _) Hout].
  assert (Hl : len (ztake n src) = n) by llia. rewrite Hl in Hout.
  split; [done|]. destruct Hout as [?|[?|(? & _ & ? & Hs)]]; [by left|by right; left|].
  right; right. split_and!; [lia|lia|done|].
  rewrite Hs, ztake_ztake. do 2 f_equal. lia.
Qed.

(** C38: Every outcome of [SendV] on a message in several entries.  It joins the
    stream whole and the call returns its length; or the call returns -1, and
    then a prefix may have joined the stream only if the message did not fit the
    write buffer, and never when the kernel is willing and it does fit; or the kernel
    took [r] bytes and not all of the rest fitted. *)
Theorem SendV_outcomes c iov es ds cnt w :
  conn_wf c -> Connection.IsClosed c = false -> iov_entries iov cnt = Some es ->
  designates es ds -> 0 < cnt -> 0 < len (mjoin ds) < 2 ^ 63 ->
  wp (Connection.SendV c (Some iov) cnt (len (mjoin ds))) (fun '(r, c') w' =>
    conn_wf c' /\
    exists m, 0 <= m <= len (mjoin ds) /\
      stream c' w' = stream c w ++ ztake m (mjoin ds) /\
      ((r = len (mjoin ds) /\ m = r) \/
       (r = -1 /\ m < len (mjoin ds) /\
        (m = 0 \/ bq_capacity (write_buffer_ c) <
           len (bq_contents (write_buffer_ c)) + len (mjoin ds)) /\
        ~ assured c (mjoin ds)) \/
       (0 < r <= m /\ m < len (mjoin ds) /\
        bq_capacity (write_buffer_ c) < len (mjoin ds) - r))) w.
Proof.
  intros. eapply wp_mono; [by eapply wp_SendV|]. intros [r c'] w' [(? & _) (m & Hm & Hs & Hout)].
  split; [done|]. exists m. split; [done|]. split; [done|].
  destruct Hout as [[-> ->]|[?|(? & ? & _ & ?)]]; [by left|by right; left|by right; right].
Qed.

(** [Flush] only moves bytes from the write buffer to the wire, as many as it
    reports; the stream does not change. *)
Theorem Flush_stream c w :
  conn_wf c -> Connection.IsClosed c = false ->
  wp (Connection.Flush c) (fun '(r, c') w' =>
    conn_wf c' /\ -1 <= r /\ stream c' w' = stream c w /\
    len (bq_contents (write_buffer_ c')) =
    len (bq_contents (write_buffer_ c)) - Z.max 0 r) w.
Proof.
  intros. eapply wp_mono; [by apply wp_Flush|].
  by intros [r c'] w' ((? & _) & ? & ? & ?).
Qed.

(** C39: What [Recv] does.  When the read buffer is full it makes no call and fails.
    Otherwise it makes one call of [recv], for no more bytes than fit in one piece,
    so that nothing is stored outside the buffer, and exactly the bytes the kernel
    answers are appended to the input, in order; a closed peer and an empty socket
    are both reported as 0 and an error as -1, and append nothing.  The descriptor,
    the output and the drop count stay as they are. *)
Theorem Recv_appends c w :
  conn_wf c -> Connection.IsClosed c = false ->
  wp (Connection.Recv c) (fun '(r, c') w' => recv_post c w r c' w') w.
Proof. apply wp_Recv_exact. Qed.
End facts.

(** ** Descriptors

    The input and output operations open and close nothing. *)
Section descriptors.
Context `{K : Kernel} {Q : Type} `{BQ : !ByteQueue Q}.
Implicit Types c : connection Q.

(** The result of an operation that leaves the descriptor and the read buffer alone. *)
Definition keeps_fd c (Post : Z * connection Q -> ledger -> Prop) (L : ledger) : Prop :=
  forall r c' L', fd_guard_ c' = fd_guard_ c -> read_buffer_ c' = read_buffer_ c ->
    conn_wf c' -> (forall x, L' x = L x) -> Post (r, c') L'.

Ltac keeps HP := own_steps; simplify_eq/=; intros ?; (apply HP; [done|done|done|settle]).

(** What may be passed to [Send]: null, or a block of at least [n] bytes. *)
Definition sendable (d : ptr) (n : Z) : Prop :=
  forall src, d = Some src -> 0 <= n <= len src /\ n < 2 ^ 63.

(** What may be passed to [SendV]: entries that designate [total] bytes in all. *)
Definition gatherable (iov : list iovec) (cnt total : Z) : Prop :=
  exists es ds, iov_entries iov cnt = Some es /\ designates es ds /\ 0 < cnt /\
    total = len (mjoin ds) /\ 0 < total < 2 ^ 63.

Context `{KL : !KernelLaws} `{BL : !ByteQueueLaws Q}.

Lemma owns_Send c d n Post L :
  conn_wf c -> sendable d n -> keeps_fd c Post L -> owns (Connection.Send c d n) Post L.
Proof.
  intros Hwf Hd HP. apply (owns_wp _ (fun r => conn_wf (snd r))).
  - intros w. destruct (Connection.IsClosed c) eqn:Hc; [unfold Connection.Send; by rewrite Hc|].
    destruct d as [src|]; [|unfold Connection.Send; by rewrite Hc].
    destruct (Hd src eq_refl).
    destruct (Z.eqb_spec n 0) as [->|]; [unfold Connection.Send; by rewrite Hc|].
    eapply wp_mono; [apply wp_Send; [done|done|lia|done]|]. intros [r c'] w' [[? _] _]. done.
  - unfold Connection.Send. destruct (Connection.IsClosed c); [keeps HP|].
    destruct d as [src|]; [|keeps HP]. destruct (n =? 0); [keeps HP|].
    destruct (_ =? 0).
    + unfold Connection.send_direct. keeps HP.
    + keeps HP.
Qed.

Lemma owns_SendV c iov n total Post L :
  conn_wf c -> gatherable iov n total -> keeps_fd c Post L ->
  owns (Connection.SendV c (Some iov) n total) Post L.
Proof.
  intros Hwf (es & ds & He & Hds & Hn & -> & Ht) HP.
  apply (owns_wp _ (fun r => conn_wf (snd r))).
  - intros w. destruct (Connection.IsClosed c) eqn:Hc; [unfold Connection.SendV; by rewrite Hc|].
    eapply wp_mono; [by eapply wp_SendV|]. intros [r c'] w' [[? _] _]. done.
  - unfold Connection.SendV. destruct (Connection.IsClosed c); [keeps HP|].
    destruct (_ || _); [keeps HP|]. unfold Connection.sendv_direct. keeps HP.
Qed.

Lemma owns_Flush c Post L :
  conn_wf c -> keeps_fd c Post L -> owns (Connection.Flush c) Post L.
Proof.
  intros Hwf HP. apply (owns_wp _ (fun r => conn_wf (snd r))).
  - intros w. destruct (Connection.IsClosed c) eqn:Hc; [unfold Connection.Flush; by rewrite Hc|].
    eapply wp_mono; [by apply wp_Flush|]. intros [r c'] w' [[? _] _]. done.
  - unfold Connection.Flush. keeps HP.
Qed.

Lemma owns_Recv c Post L :
  conn_wf c ->
  (forall r c' L', fd_guard_ c' = fd_guard_ c -> conn_wf c' -> (forall x, L' x = L x) ->
    Post (r, c') L') ->
  owns (Connection.Recv c) Post L.
Proof.
  intros Hwf HP. apply (owns_wp _ (fun r => conn_wf (snd r))).
  - intros w. destruct (Connection.IsClosed c) eqn:Hc; [unfold Connection.Recv; by rewrite Hc|].
    eapply wp_mono; [by apply wp_Recv|]. intros [r c'] w' [? _]. done.
  - unfold Connection.Recv. own_steps; simplify_eq/=; intros ?; (apply HP; [done|done|settle]).
Qed.

Lemma owns_new_buffer size Post L :
  0 < size < 2 ^ 63 ->
  (forall q L', bq_inv q -> bq_contents q = [] -> (forall x, L' x = L x) -> Post q L') ->
  owns (m ← alloc (Connection.block_size size); or_abort (bq_new size m)) Post L.
Proof.
  intros Hsize HP. unfold Connection.block_size. rewrite (proj2 (Z.ltb_lt 0 size)) by lia.
  repeat own_step. destruct (kernel_alloc tr size) as [m|] eqn:Hm; [|by rewrite bq_new_null in *].
  apply alloc_len in Hm; [|lia].
  destruct (bq_new_spec size m Hsize Hm) as (q & Hnew & ? & ? & _).
  apply HP; [congruence|congruence|settle].
Qed.

Lemma owns_Connection fd size Post L :
  0 < size < 2 ^ 63 ->
  (forall c L', fd_guard_ c = fd -> conn_wf c -> (forall x, L' x = L x) -> Post c L') ->
  owns (Connection.Connection fd size) Post L.
Proof.
  intros Hsize HP.
  assert (Hassoc : forall w, Connection.Connection (Q := Q) fd size w =
    (rb ← (m ← alloc (Connection.block_size size); or_abort (bq_new size m));
     wb ← (m ← alloc (Connection.block_size size); or_abort (bq_new size m));
     mret (mkConnection (FdGuard.FdGuard_of fd) rb wb 0 0)) w).
  { intros w. unfold Connection.Connection, mbind, M_bind.
    destruct (alloc _ w) as [m1 w1|]; [|done]. destruct (or_abort _ w1) as [rb w2|]; [|done].
    by destruct (alloc _ w2). }
  apply (owns_ext _ _ _ _ Hassoc). own_step. apply owns_new_buffer; [done|].
  intros rb L1 H1 _ HL1. own_step. apply owns_new_buffer; [done|]. intros wb L2 H2 _ HL2.
  own_step. apply HP; [done|by split|settle].
Qed.

Lemma owns_conn_destroy c Post L :
  (forall L', (forall x, L' x = L x - cnt x (held (fd_guard_ c))) -> Post tt L') ->
  owns (Connection.destroy c) Post L.
Proof.
  intros HP. unfold Connection.destroy, Connection.Close. own_steps.
  simpl in *. apply HP.
  match goal with H : held _ = [] |- _ => rewrite H in * end. settle.
Qed.
End descriptors.

(** Destroying a connection closes its descriptor exactly once, and not at all
    when it was closed before. *)
Theorem destroy_closes_once `{K : Kernel} {Q : Type} (c : connection Q) w :
  wp (Connection.destroy c) (fun _ w' =>
    closes (w_trace w') = closes (w_trace w) ++
      (if Connection.IsClosed c then [] else [Connection.fd c])) w.
Proof.
  unfold Connection.destroy, Connection.Close, Connection.IsClosed, Connection.fd.
  wp_step. wp_step. apply wp_Close; intros Hv; rewrite Hv; wp_steps; cbn [fd_guard_];
    unfold FdGuard.destroy; wp_step; apply wp_Close; intros Hv2; wp_step; try done.
  - rewrite trace_after, closes_app. by cbn.
  - by rewrite Hv in Hv2.
  - by rewrite app_nil_r.
Qed.

(** ** Witnesses *)

Definition world0 : world := mkWorld [] 0.

(** A ring buffer of capacity [cap] holding [d], from the start of its block. *)
Definition ring_of (cap : nat) (d : bytes) : ring_buffer :=
  mkRingBuffer (resize cap NUL d) (Z.of_nat cap) 0 (len d mod Z.of_nat cap) (len d).

Definition sample_conn : connection ring_buffer :=
  mkConnection 7 (ring_of 8 []) (ring_of 8 []) 0 0.

Definition pending_conn : connection ring_buffer :=
  mkConnection 7 (ring_of 8 []) (ring_of 8 (lit "zz")) 0 0.

(** A sample kernel that answers outputs with a count, or -1 and [EAGAIN], is willing. *)
Lemma sample_willing f fd :
  (forall tr call n, transfer_limit call = Some n -> 0 < n ->
    (forall g m, call <> SysRecv g m) -> exists z, z <> 0 /\ f tr call = returns z) ->
  willing (K := sample_kernel f) fd.
Proof.
  intros Hf tr call d Hcall Hd.
  assert (Hl : transfer_limit call = Some (len d)) by (by destruct Hcall as [->|(iov & -> & ->)]).
  destruct (Hf tr call _ Hl Hd) as (z & Hz & Hcount).
  { intros g m ->. by destruct Hcall as [|(? & ? & _)]. }
  cbn [kernel_answer sample_kernel]. rewrite Hcount. unfold clamp_answer. rewrite Hl.
  cbn [a_ret a_errno returns]. destruct (Z.lt_trichotomy z 0) as [|[|]]; [right|lia|left; lia].
  split; [lia|done].
Qed.

Lemma stalled_willing fd : willing (K := sample_kernel stalled) fd.
Proof. apply sample_willing. intros. by exists (-1). Qed.

Lemma sample_conn_wf : conn_wf sample_conn.
Proof. split; split; vm_compute; repeat split; discriminate. Defined.

Lemma Send_sequence_stream_witness :
  let us := [OutSend (lit "abc"); OutFlush; OutSend (lit "d")] in
  wp (out_run (K := sample_kernel accepting) sample_conn us) (fun '(rs, c') w' =>
    stream c' w' = stream sample_conn world0 ++ delivered us rs) world0.
Proof.
  apply (Send_sequence_stream (K := sample_kernel accepting) sample_conn);
    [apply sample_conn_wf|reflexivity|].
  repeat constructor; vm_compute; discriminate.
Defined.

Lemma Send_outcomes_witness :
  wp (Connection.Send (K := sample_kernel stalled) sample_conn (Some (lit "0123456789")) 10)
    (fun '(r, c') w' => conn_wf c' /\
      ((r = 10 /\ stream c' w' = stream sample_conn world0 ++ ztake 10 (lit "0123456789")) \/
       (r = -1 /\ stream c' w' = stream sample_conn world0 /\
        ~ assured (K := sample_kernel stalled) sample_conn (ztake 10 (lit "0123456789"))) \/
       (0 < r < 10 /\ bq_capacity (write_buffer_ sample_conn) < 10 - r /\
        stream c' w' = stream sample_conn world0 ++ ztake r (lit "0123456789")))) world0.
Proof.
  apply (Send_outcomes (K := sample_kernel stalled) sample_conn (lit "0123456789") 10 world0);
    [apply sample_conn_wf|reflexivity|vm_compute; split; [reflexivity|discriminate]|lia].
Defined.

Definition two_entries : list iovec := [mkIovec (Some (lit "$abc")) 4; mkIovec (Some (lit "payload")) 6].

Lemma SendV_outcomes_witness :
  wp (Connection.SendV (K := sample_kernel accepting) sample_conn (Some two_entries) 2 10)
    (fun '(r, c') w' => conn_wf c' /\ exists m, 0 <= m <= 10 /\
      stream c' w' = stream sample_conn world0 ++ ztake m (lit "$abcpayloa")) world0.
Proof.
  eapply wp_mono.
  - apply (SendV_outcomes (K := sample_kernel accepting) sample_conn two_entries two_entries
      [lit "$abc"; lit "payloa"] 2 world0);
      [apply sample_conn_wf|reflexivity|reflexivity| |lia|by vm_compute].
    repeat constructor.
  - intros [r c'] w' (H1 & m & H2 & H3 & _). split; [exact H1|]. exists m.
    split; [exact H2|exact H3].
Defined.

(** A peer that has sent three bytes. *)
Definition sending_abc : list event -> syscall -> answer := fun tr c =>
  match c with
  | SysRecv _ _ => mkAnswer 3 0 (lit "abc") sockaddr_zero []
  | _ => accepting tr c
  end.

Lemma Flush_stream_witness :
  wp (Connection.Flush (K := sample_kernel accepting) pending_conn) (fun '(r, c') w' =>
    conn_wf c' /\ -1 <= r /\ stream c' w' = stream pending_conn world0 /\
    len (bq_contents (write_buffer_ c')) =
      len (bq_contents (write_buffer_ pending_conn)) - Z.max 0 r) world0.
Proof.
  apply (Flush_stream (K := sample_kernel accepting) pending_conn world0); [|reflexivity].
  split; split; vm_compute; repeat split; discriminate.
Defined.

Lemma Recv_appends_witness :
  wp (Connection.Recv (K := sample_kernel sending_abc) sample_conn) (fun '(r, c') w' =>
    r = 3 /\ bq_contents (read_buffer_ c') = bq_contents (read_buffer_ sample_conn) ++ lit "abc")
    world0.
Proof.
  eapply wp_mono; [apply (Recv_appends (K := sample_kernel sending_abc) sample_conn world0);
    [apply sample_conn_wf|reflexivity]|].
  intros [r c'] w' [_ _ _ _ _ _ Hr]. change (bq_WritableSize (read_buffer_ sample_conn) =? 0)
    with false in Hr. destruct Hr as (-> & _ & _ & ->). split; reflexivity.
Defined.

(** A gathered message that does not fit is torn on a busy connection: with
    two bytes pending in a write buffer of eight, [SendV] of a four-byte header
    and a six-byte payload returns -1 but leaves the header in the stream. *)
Theorem SendV_orphans_header `{K : Kernel} w :
  exists c', Connection.SendV pending_conn (Some two_entries) 2 10 w = Done (-1, c') w /\
    rb_contents (write_buffer_ c') = lit "zz" ++ lit "$abc".
Proof. eexists. split; reflexivity. Qed.
