(* ===== verification/Parser.v ===== *)
(** * The request parser (src/src/protocol/rtsp_parser.h, rtsp_parser.cc)

    Module [RtspParser] has one definition per function of the class; a C++
    signed overflow is [None].  The second part relates the scanning loop to a
    reference definition on the list of lines and proves that rendered messages
    read back. *)
From S2P Require Import Prelude Status OrderedMap Text.

Inductive RtspMethod :=
  | kUnknown | kOptions | kDescribe | kSetup | kPlay | kPause | kTeardown
  | kGetParameter | kSetParameter.

#[export] Instance RtspMethod_eq_dec : EqDecision RtspMethod.
Proof. solve_decision. Defined.

Record TransportInfo := mkTransportInfo {
  is_udp : bool;
  is_tcp : bool;
  client_rtp_port : Z;
  client_rtcp_port : Z;
  server_rtp_port : Z;
  server_rtcp_port : Z;
  interleaved_rtp : Z;
  interleaved_rtcp : Z;
}.

Definition TransportInfo_init : TransportInfo := mkTransportInfo false false 0 0 0 0 0 0.

Record RtspRequest := mkRtspRequest {
  method : RtspMethod;
  url : bytes;
  version : bytes;
  cseq : Z;
  headers : list (bytes * bytes);
  body : bytes;
  transport : TransportInfo;
}.

(** A fresh [RtspRequest] ([method] and [cseq] are set by [Parse] before use). *)
Definition RtspRequest_init : RtspRequest :=
  mkRtspRequest kUnknown [] [] 0 [] [] TransportInfo_init.

Module RtspParser.

Definition Trim (str : bytes) : bytes :=
  let result := snd (span isspace str) in
  rev (snd (span isspace (rev result))).

Definition ParseMethod (method_str : bytes) : RtspMethod :=
  if decide (method_str = lit "OPTIONS") then kOptions
  else if decide (method_str = lit "DESCRIBE") then kDescribe
  else if decide (method_str = lit "SETUP") then kSetup
  else if decide (method_str = lit "PLAY") then kPlay
  else if decide (method_str = lit "PAUSE") then kPause
  else if decide (method_str = lit "TEARDOWN") then kTeardown
  else if decide (method_str = lit "GET_PARAMETER") then kGetParameter
  else if decide (method_str = lit "SET_PARAMETER") then kSetParameter
  else kUnknown.

Definition MethodToString (method : RtspMethod) : bytes :=
  match method with
  | kOptions => lit "OPTIONS"
  | kDescribe => lit "DESCRIBE"
  | kSetup => lit "SETUP"
  | kPlay => lit "PLAY"
  | kPause => lit "PAUSE"
  | kTeardown => lit "TEARDOWN"
  | kGetParameter => lit "GET_PARAMETER"
  | kSetParameter => lit "SET_PARAMETER"
  | kUnknown => lit "UNKNOWN"
  end.

(** [n + 1] on [int]: undefined at [INT_MAX] *)
Definition int_succ (n : Z) : option Z := if n =? INT_MAX then None else Some (n + 1).

(** The three blocks of [ParseTransport] of the form
    [find(key); strtol; '-'? strtol : + 1]; the inner [None]: no such key. *)
Definition parse_pair (s key : bytes) : option (option (Z * Z)) :=
  match find_sub key s with
  | None => Some None
  | Some pos =>
    let p := zdrop (pos + 12) s in
    let '(v, rest) := strtol p in
    let first := i32 v in
    if Ascii.eqb (char_at_end rest) "-"%char then
      let '(v2, _) := strtol (zdrop 1 rest) in
      Some (Some (first, i32 v2))
    else
      second ← int_succ first;
      Some (Some (first, second))
  end.

Definition contains (s p : bytes) : bool := bool_decide (is_Some (find_sub p s)).

Definition ParseTransport (s : bytes) : option TransportInfo :=
  let '(udp, tcp) :=
    if contains s (lit "TCP") then (false, true)
    else if contains s (lit "RTP/AVP") || contains s (lit "UDP") then (true, false)
    else (true, false) in
  client ← parse_pair s (lit "client_port=");
  server ← parse_pair s (lit "server_port=");
  interleaved ← parse_pair s (lit "interleaved=");
  let '(c1, c2) := default (0, 0) client in
  let '(s1, s2) := default (0, 0) server in
  let '(i1, i2) := default (0, 0) interleaved in
  Some (mkTransportInfo udp tcp c1 c2 s1 s2 i1 i2).

(** [ss >> token] *)
Definition next_token (p : bytes) : bytes * bytes :=
  span (fun c => negb (isspace c)) (snd (span isspace p)).

Definition ParseRequestLine (line : bytes) (r : RtspRequest) : status * RtspRequest :=
  let '(method_str, p1) := next_token line in
  let '(u, p2) := next_token p1 in
  let '(v, _) := next_token p2 in
  match method_str with
  | [] => (Status.ParseError (lit "missing method"), r)
  | _ =>
    (Status.Ok,
     mkRtspRequest (ParseMethod method_str) u v (cseq r) (headers r) (body r) (transport r))
  end.

(** The [CSeq] branch: the value, or 0 when it is not a whole number. *)
Definition parse_cseq (value : bytes) : Z :=
  let '(v, rest) := strtol value in
  if negb (len rest =? len value) && Ascii.eqb (char_at_end rest) NUL then i32 v else 0.

Definition parse_header (line : bytes) (r : RtspRequest) : option RtspRequest :=
  match index_of ":"%char line with
  | None => Some r
  | Some colon_pos =>
    let key := tolower <$> Trim (ztake colon_pos line) in
    let value := Trim (zdrop (colon_pos + 1) line) in
    let hs := om_set key value (headers r) in
    if decide (key = lit "cseq") then
      Some (mkRtspRequest (method r) (url r) (version r) (parse_cseq value) hs (body r)
              (transport r))
    else if decide (key = lit "transport") then
      t ← ParseTransport value;
      Some (mkRtspRequest (method r) (url r) (version r) (cseq r) hs (body r) t)
    else
      Some (mkRtspRequest (method r) (url r) (version r) (cseq r) hs (body r) (transport r))
  end.

Definition append_body (line : bytes) (r : RtspRequest) : RtspRequest :=
  mkRtspRequest (method r) (url r) (version r) (cseq r) (headers r)
    (body r ++ line ++ [LF]) (transport r).

(** The locals of the scanning loop. *)
Record scan := mkScan { in_body : bool; request_line_parsed : bool; req : RtspRequest }.

(** One line, its terminator removed; [inl]: the early return. *)
Definition parse_line (line : bytes) (s : scan) : option ((status * RtspRequest) + scan) :=
  if (len line =? 0) && negb (in_body s) then
    Some (inr (mkScan true (request_line_parsed s) (req s)))
  else if in_body s then
    Some (inr (mkScan true (request_line_parsed s) (append_body line (req s))))
  else if negb (request_line_parsed s) then
    let '(st, r) := ParseRequestLine line (req s) in
    if negb (Status.ok st) then Some (inl (st, r)) else Some (inr (mkScan false true r))
  else
    r ← parse_header line (req s);
    Some (inr (mkScan false true r)).

(** [line_len--] on a trailing ['\r'] *)
Definition strip_cr (l : bytes) : bytes :=
  match last l with
  | Some c => if Ascii.eqb c CR then ztake (len l - 1) l else l
  | None => l
  end.

Fixpoint parse_loop (fuel : nat) (pos : bytes) (s : scan)
    : option ((status * RtspRequest) + scan) :=
  match index_of LF pos with
  | None => Some (inr s)
  | Some i =>
    match fuel with
    | O => None
    | S fuel =>
      x ← parse_line (strip_cr (ztake i pos)) s;
      match x with
      | inl r => Some (inl r)
      | inr s => parse_loop fuel (zdrop (i + 1) pos) s
      end
    end
  end.

Definition cleared (r : RtspRequest) : RtspRequest :=
  mkRtspRequest kUnknown [] [] 0 [] [] (transport r).

(** [None]: an access past [data], or a signed overflow in a transport header *)
Definition Parse (data : ptr) (n : Z) (r : RtspRequest) : option (status * RtspRequest) :=
  match data with
  | None => Some (Status.InvalidArgument (lit "empty data"), r)
  | Some m =>
    if n =? 0 then Some (Status.InvalidArgument (lit "empty data"), r)
    else if kMaxRtspRequestDataLen <? n
    then Some (Status.ParseError (lit "request too large"), r)
    else
      d ← mem_read m 0 n;
      x ← parse_loop (length d) d (mkScan false false (cleared r));
      match x with
      | inl res => Some res
      | inr s =>
        if negb (request_line_parsed s)
        then Some (Status.ParseError (lit "missing request line"), req s)
        else Some (Status.Ok, req s)
      end
  end.
End RtspParser.

(** ** Lines: a reference definition

    The complete lines of a text, each without its terminator; an unterminated
    tail is no line. *)
Fixpoint raw_lines (l : bytes) : list bytes :=
  match l with
  | [] => []
  | c :: l =>
    if Ascii.eqb c LF then [] :: raw_lines l
    else match raw_lines l with [] => [] | h :: t => (c :: h) :: t end
  end.

Definition split_lines (l : bytes) : list bytes := RtspParser.strip_cr <$> raw_lines l.

Fixpoint parse_lines (ls : list bytes) (s : RtspParser.scan)
    : option ((status * RtspRequest) + RtspParser.scan) :=
  match ls with
  | [] => Some (inr s)
  | l :: ls =>
    x ← RtspParser.parse_line l s;
    match x with inl r => Some (inl r) | inr s => parse_lines ls s end
  end.

Lemma raw_lines_None l : index_of LF l = None -> raw_lines l = [].
Proof.
  induction l as [|c l IH]; [done|]. simpl.
  case_match; [done|]. intros Hn%fmap_None. by rewrite IH.
Qed.

Lemma raw_lines_Some l i :
  index_of LF l = Some i -> raw_lines l = ztake i l :: raw_lines (zdrop (i + 1) l).
Proof.
  revert i. induction l as [|c l IH]; [done|]. intros i. simpl.
  case_match.
  - intros [= <-]. rewrite (ztake_0 0) by lia. done.
  - intros (j & Hj & ->)%fmap_Some. rewrite (IH j Hj).
    pose proof (index_of_range _ _ _ Hj).
    unfold ztake, zdrop. rewrite !Z2Nat.inj_succ, Z.add_succ_l, Z2Nat.inj_succ by lia.
    done.
Qed.

(** The scanning loop reads the complete lines in order; its fuel is enough. *)
Lemma parse_loop_lines fuel pos s :
  (length pos <= fuel)%nat ->
  RtspParser.parse_loop fuel pos s = parse_lines (split_lines pos) s.
Proof.
  revert pos s. induction fuel as [|fuel IH]; intros pos s Hf; simpl.
  - destruct pos; simpl in *; [done|lia].
  - unfold split_lines. destruct (index_of LF pos) as [i|] eqn:Hi.
    + rewrite (raw_lines_Some pos i Hi). simpl.
      destruct (RtspParser.parse_line _ s) as [[?|s']|]; simpl; [done| |done].
      pose proof (index_of_range _ _ _ Hi). apply IH.
      assert (len (zdrop (i + 1) pos) < len pos) by (autorewrite with lens; lia).
      unfold len in *. lia.
    + by rewrite raw_lines_None.
Qed.

Lemma parse_lines_app a b s :
  parse_lines (a ++ b) s =
  (x ← parse_lines a s;
   match x with inl r => Some (inl r) | inr s => parse_lines b s end).
Proof.
  revert s. induction a as [|l a IH]; intros s; [done|]. simpl.
  destruct (RtspParser.parse_line l s) as [[?|s']|]; simpl; [done|apply IH|done].
Qed.

Lemma index_of_fresh c l k :
  index_of c l = None -> index_of c (l ++ c :: k) = Some (len l).
Proof.
  intros H. rewrite index_of_app, H. simpl. rewrite Ascii.eqb_refl. simpl.
  f_equal. lia.
Qed.

(** No line break inside: what a header or a start line must satisfy. *)
Definition one_line (l : bytes) : Prop := index_of LF l = None.

Lemma strip_cr_snoc l : RtspParser.strip_cr (l ++ [CR]) = l.
Proof.
  unfold RtspParser.strip_cr. rewrite last_snoc, Ascii.eqb_refl.
  rewrite len_app, ztake_app_l, ztake_all by (rewrite ?len_cons, ?len_nil; lia). done.
Qed.

Lemma split_lines_crlf l rest :
  one_line l -> split_lines (l ++ crlf ++ rest) = l :: split_lines rest.
Proof.
  intros Hl. unfold split_lines.
  replace (l ++ crlf ++ rest) with ((l ++ [CR]) ++ LF :: rest) by (by rewrite <-app_assoc).
  rewrite (raw_lines_Some _ (len (l ++ [CR]))).
  2: { apply index_of_fresh. by rewrite index_of_app, Hl. }
  rewrite ztake_app_l, ztake_all, zdrop_app_r by lia. simpl.
  rewrite strip_cr_snoc. do 3 f_equal.
  replace (_ + 1 - _) with 1 by lia. done.
Qed.

(** ** What holds of every parsed request *)

(** [CSeq] and transport are those of the stored header, the last one given. *)
Record fields_agree (t0 : TransportInfo) (r : RtspRequest) : Prop := {
  agree_sorted : om_sorted (headers r);
  agree_cseq :
    cseq r = match om_find (lit "cseq") (headers r) with
             | Some v => RtspParser.parse_cseq v
             | None => 0
             end;
  agree_transport :
    match om_find (lit "transport") (headers r) with
    | Some v => RtspParser.ParseTransport v = Some (transport r)
    | None => transport r = t0
    end;
}.

Lemma fields_agree_cleared r : fields_agree (transport r) (RtspParser.cleared r).
Proof. split; [constructor|done|done]. Qed.

Lemma parse_header_agree t0 line r r' :
  RtspParser.parse_header line r = Some r' -> fields_agree t0 r -> fields_agree t0 r'.
Proof.
  unfold RtspParser.parse_header. intros H [Hs Hc Ht].
  destruct (index_of _ line) as [i|]; [|by simplify_eq].
  set (key := tolower <$> _) in H. set (value := RtspParser.Trim (zdrop _ _)) in H.
  destruct (decide (key = lit "cseq")) as [Hk|Hk].
  { simplify_eq. split; simpl; [by apply om_set_sorted|rewrite Hk|rewrite Hk].
    - by rewrite om_find_set_eq.
    - by rewrite om_find_set_ne. }
  destruct (decide (key = lit "transport")) as [Hk2|Hk2].
  { apply bind_Some in H as (t & Ht' & [= <-]).
    split; simpl; [by apply om_set_sorted|rewrite Hk2|rewrite Hk2].
    - by rewrite om_find_set_ne.
    - by rewrite om_find_set_eq. }
  simplify_eq. split; simpl; [by apply om_set_sorted| |]; by rewrite om_find_set_ne by done.
Qed.

Lemma parse_request_line_agree t0 line r :
  fields_agree t0 r -> fields_agree t0 (snd (RtspParser.ParseRequestLine line r)).
Proof.
  unfold RtspParser.ParseRequestLine. intros [Hs Hc Ht].
  destruct (RtspParser.next_token line) as [m p1].
  destruct (RtspParser.next_token p1) as [u p2].
  destruct (RtspParser.next_token p2) as [v ?]. destruct m; by split.
Qed.

(** The request a line leaves, whether the scan goes on or not. *)
Definition scan_req (x : (status * RtspRequest) + RtspParser.scan) : RtspRequest :=
  match x with inl (_, r) => r | inr s => RtspParser.req s end.

Lemma parse_line_agree t0 line s x :
  RtspParser.parse_line line s = Some x ->
  fields_agree t0 (RtspParser.req s) -> fields_agree t0 (scan_req x).
Proof.
  unfold RtspParser.parse_line. intros H Ha. destruct (_ && _); [by simplify_eq|].
  destruct (RtspParser.in_body s).
  { simplify_eq. destruct Ha. by split. }
  destruct (negb _).
  - pose proof (parse_request_line_agree t0 line _ Ha) as Hl.
    destruct (RtspParser.ParseRequestLine line _) as [st r]. case_match; by simplify_eq.
  - apply bind_Some in H as (r & Hr & [= <-]). by eapply parse_header_agree.
Qed.

Lemma parse_lines_agree t0 ls s x :
  parse_lines ls s = Some x ->
  fields_agree t0 (RtspParser.req s) -> fields_agree t0 (scan_req x).
Proof.
  revert s. induction ls as [|l ls IH]; simpl; intros s H Ha; [by simplify_eq|].
  apply bind_Some in H as (y & Hy & H).
  pose proof (parse_line_agree t0 _ _ _ Hy Ha). destruct y as [[? ?]|s']; [by simplify_eq|].
  by apply IH in H.
Qed.

(** [Parse] on the bytes it is given, in terms of lines. *)
Definition parse_text (d : bytes) (r : RtspRequest) : option (status * RtspRequest) :=
  x ← parse_lines (split_lines d) (RtspParser.mkScan false false (RtspParser.cleared r));
  match x with
  | inl res => Some res
  | inr s =>
    if RtspParser.request_line_parsed s then Some (Status.Ok, RtspParser.req s)
    else Some (Status.ParseError (lit "missing request line"), RtspParser.req s)
  end.

Lemma Parse_text m n r :
  0 < n <= len m -> n <= kMaxRtspRequestDataLen ->
  RtspParser.Parse (Some m) n r = parse_text (ztake n m) r.
Proof.
  intros Hn Hmax. unfold RtspParser.Parse, parse_text.
  rewrite (proj2 (Z.eqb_neq n 0)), (proj2 (Z.ltb_ge _ n)), mem_read_Some by lia.
  rewrite (zdrop_0 0) by lia. simpl. rewrite parse_loop_lines by done.
  destruct (parse_lines _ _) as [[?|s]|]; simpl; [done| |done].
  by destruct (RtspParser.request_line_parsed s).
Qed.

(** ** Rendered messages *)

Definition header_line (h : bytes * bytes) : bytes := fst h ++ lit ": " ++ snd h.

Definition message (start : bytes) (hs : list (bytes * bytes)) (b : bytes) : bytes :=
  start ++ crlf ++ mjoin ((fun h => header_line h ++ crlf) <$> hs) ++ crlf ++ b.

(** A header that survives the trip: a name without a colon, nothing to trim. *)
Record header_ok (h : bytes * bytes) : Prop := {
  ok_name : index_of ":"%char (fst h) = None;
  ok_name_line : one_line (fst h);
  ok_name_trim : RtspParser.Trim (fst h) = fst h;
  ok_value_line : one_line (snd h);
  ok_value_trim : RtspParser.Trim (snd h) = snd h;
  ok_transport :
    tolower <$> fst h = lit "transport" -> is_Some (RtspParser.ParseTransport (snd h));
}.

Definition store_header (m : list (bytes * bytes)) (h : bytes * bytes) :=
  om_set (tolower <$> fst h) (snd h) m.

(** The start line's fields and the body are those of [r]. *)
Record same_start (r r' : RtspRequest) : Prop := {
  same_method : method r' = method r;
  same_url : url r' = url r;
  same_version : version r' = version r;
}.

Lemma trim_space v : RtspParser.Trim (" "%char :: v) = RtspParser.Trim v.
Proof. unfold RtspParser.Trim. simpl. by destruct (span isspace v). Qed.

Lemma header_line_one_line h : header_ok h -> one_line (header_line h).
Proof.
  intros [_ H1 _ H2 _ _]. unfold one_line, header_line in *.
  by rewrite index_of_app, H1, index_of_app, H2.
Qed.

Lemma parse_header_line h r :
  header_ok h ->
  exists r', RtspParser.parse_header (header_line h) r = Some r' /\ same_start r r' /\
    body r' = body r /\ headers r' = store_header (headers r) h.
Proof.
  destruct h as [k v]. intros [Hn _ Hk _ Hv Ht]. simpl in *.
  unfold RtspParser.parse_header, header_line. simpl.
  change (lit ": " ++ v) with (":"%char :: " "%char :: v).
  rewrite (index_of_fresh ":"%char k (" "%char :: v)) by done.
  rewrite (ztake_app_l (len k)), ztake_all, (zdrop_app_r (len k + 1)) by lia.
  replace (len k + 1 - len k) with 1 by lia.
  change (zdrop 1 (":"%char :: " "%char :: v)) with (" "%char :: v).
  rewrite trim_space, Hk, Hv. destruct (decide (tolower <$> k = lit "cseq")).
  { simpl; eexists. split; [done|]. split; [by split|done]. }
  destruct (decide (tolower <$> k = lit "transport")) as [Hk'|].
  { destruct (Ht Hk') as [t Ht']. rewrite Ht'. simpl. eexists. split; [done|]. split; [by split|done]. }
  eexists. split; [done|]. split; [by split|done].
Qed.

Lemma parse_header_lines hs r :
  Forall header_ok hs ->
  exists r', parse_lines (header_line <$> hs) (RtspParser.mkScan false true r) =
      Some (inr (RtspParser.mkScan false true r')) /\ same_start r r' /\
    body r' = body r /\ headers r' = fold_left store_header hs (headers r).
Proof.
  intros Hhs. revert r. induction Hhs as [|h hs Hh _ IH]; intros r.
  { by exists r. }
  destruct (parse_header_line h r Hh) as (r1 & H1 & [???] & Hb & Hm).
  destruct (IH r1) as (r2 & H2 & [???] & Hb2 & Hm2).
  assert ((len (header_line h) =? 0) = false) as Hne.
  { unfold header_line. apply Z.eqb_neq. rewrite !len_app.
    pose proof (len_nonneg (fst h)). pose proof (len_nonneg (snd h)).
    change (len (lit ": ")) with 2. lia. }
  exists r2. rewrite fmap_cons. cbn [parse_lines].
  unfold RtspParser.parse_line at 1. rewrite Hne. simpl. rewrite H1. cbn.
  rewrite H2. split; [done|]. split; [by split; congruence|].
  split; [congruence|]. by rewrite Hm2, Hm.
Qed.

Lemma parse_body_lines ls b r :
  parse_lines ls (RtspParser.mkScan true b r) =
  Some (inr (RtspParser.mkScan true b
    (mkRtspRequest (method r) (url r) (version r) (cseq r) (headers r)
      (body r ++ mjoin ((fun l => l ++ [LF]) <$> ls)) (transport r)))).
Proof.
  revert r. induction ls as [|l ls IH]; intros r; simpl.
  - rewrite app_nil_r. by destruct r.
  - unfold RtspParser.parse_line at 1. simpl. rewrite andb_false_r. simpl.
    rewrite IH. simpl. by rewrite <-!app_assoc.
Qed.

Lemma split_message start hs b :
  one_line start -> Forall header_ok hs ->
  split_lines (message start hs b) =
  start :: (header_line <$> hs) ++ [] :: split_lines b.
Proof.
  intros Hs Hhs. unfold message. rewrite split_lines_crlf by done. f_equal.
  induction Hhs as [|h hs Hh _ IH].
  - by apply (split_lines_crlf []).
  - rewrite !fmap_cons, mjoin_cons, <-!app_assoc, split_lines_crlf by by apply header_line_one_line.
    by rewrite IH.
Qed.

(** A rendered message reads back: start line, headers, body. *)
Lemma parse_message start hs b r r1 :
  one_line start -> start <> [] -> Forall header_ok hs ->
  RtspParser.ParseRequestLine start (RtspParser.cleared r) = (Status.Ok, r1) ->
  headers r1 = [] -> body r1 = [] ->
  exists r', parse_text (message start hs b) r = Some (Status.Ok, r') /\
    same_start r1 r' /\ headers r' = fold_left store_header hs [] /\
    body r' = mjoin ((fun l => l ++ [LF]) <$> split_lines b) /\
    fields_agree (transport r) r'.
Proof.
  intros Hs Hne Hhs H1 Hh0 Hb0.
  assert (Hl : (len start =? 0) = false) by (by apply Z.eqb_neq; rewrite len_0).
  destruct (parse_header_lines hs r1 Hhs) as (r2 & H2 & [???] & Hb & Hh).
  set (r3 := mkRtspRequest (method r2) (url r2) (version r2) (cseq r2) (headers r2)
    (body r2 ++ mjoin ((fun l => l ++ [LF]) <$> split_lines b)) (transport r2)).
  assert (Hp : parse_lines (split_lines (message start hs b))
    (RtspParser.mkScan false false (RtspParser.cleared r)) =
    Some (inr (RtspParser.mkScan true true r3))).
  { rewrite split_message by done. cbn [parse_lines].
    unfold RtspParser.parse_line at 1. rewrite Hl. cbn [andb RtspParser.in_body negb RtspParser.request_line_parsed
      RtspParser.req]. rewrite H1.
    change (negb (Status.ok Status.Ok)) with false. cbn [mbind option_bind].
    rewrite parse_lines_app, H2. cbn. apply parse_body_lines. }
  pose proof (parse_lines_agree (transport r) _ _ _ Hp (fields_agree_cleared r)) as Ha.
  exists r3. unfold parse_text. rewrite Hp. simpl. split; [done|].
  split; [by split|]. split; [by rewrite Hh, Hh0|]. split; [by rewrite Hb, Hb0|]. exact Ha.
Qed.

(** ** When parsing succeeds *)

(** Some character of the line is not white space. *)
Definition has_token (l : bytes) : bool := existsb (fun c => negb (isspace c)) l.

Lemma next_token_nil l : fst (RtspParser.next_token l) = [] <-> has_token l = false.
Proof.
  unfold RtspParser.next_token, has_token. induction l as [|c l IH]; [done|].
  simpl. destruct (isspace c) eqn:Hc; simpl.
  - rewrite <-IH. by destruct (span isspace l).
  - rewrite Hc. simpl. destruct (span (fun c => negb (isspace c)) l). by split.
Qed.

Lemma parse_request_line_ok line r :
  Status.ok (fst (RtspParser.ParseRequestLine line r)) = has_token line.
Proof.
  pose proof (next_token_nil line) as Ht. unfold RtspParser.ParseRequestLine.
  destruct (RtspParser.next_token line) as [m p1]. simpl in Ht.
  destruct (RtspParser.next_token p1) as [u p2].
  destruct (RtspParser.next_token p2) as [v ?].
  destruct Ht as [Ht1 Ht2], (has_token line), m;
    [by specialize (Ht1 eq_refl)|done|done|by specialize (Ht2 eq_refl)].
Qed.

(** Once the request line is in, the scan runs to the end. *)
Lemma parse_lines_after_start ls s x :
  RtspParser.request_line_parsed s = true -> parse_lines ls s = Some x ->
  exists s', x = inr s' /\ RtspParser.request_line_parsed s' = true.
Proof.
  revert s. induction ls as [|l ls IH]; intros s Hs H.
  { simpl in H. simplify_eq. eauto. }
  cbn [parse_lines] in H. apply bind_Some in H as (y & Hy & H).
  unfold RtspParser.parse_line in Hy. rewrite Hs in Hy. destruct (_ && _).
  { simplify_eq. by apply IH in H. }
  destruct (RtspParser.in_body s); [simplify_eq; by apply IH in H|]. simpl in Hy.
  apply bind_Some in Hy as (r & Hr & [= <-]). by apply IH in H.
Qed.

(** A blank first line: nothing after it is a request line. *)
Lemma parse_lines_blank ls r :
  exists r', parse_lines ls (RtspParser.mkScan true false r) =
    Some (inr (RtspParser.mkScan true false r')).
Proof. eexists. apply parse_body_lines. Qed.

Lemma parse_text_ok d r st r' :
  parse_text d r = Some (st, r') ->
  Status.ok st = match split_lines d with l :: _ => has_token l | [] => false end.
Proof.
  unfold parse_text. destruct (split_lines d) as [|l ls]; [intros; by simplify_eq/=|].
  cbn [parse_lines]. unfold RtspParser.parse_line.
  cbn [RtspParser.in_body RtspParser.request_line_parsed RtspParser.req negb].
  rewrite andb_true_r. destruct (Z.eqb_spec (len l) 0) as [->%len_0|Hl].
  { cbn [mbind option_bind]. destruct (parse_lines_blank ls (RtspParser.cleared r)) as [r1 ->].
    intros. by simplify_eq/=. }
  pose proof (parse_request_line_ok l (RtspParser.cleared r)) as Hok.
  destruct (RtspParser.ParseRequestLine l _) as [st1 r1]. simpl fst in Hok.
  rewrite Hok. destruct (has_token l) eqn:Ht; cbn [negb mbind option_bind].
  - destruct (parse_lines ls _) as [x|] eqn:Hp; [|done].
    apply parse_lines_after_start in Hp as (s' & -> & Hs'); [|done]. simpl.
    rewrite Hs'. intros. by simplify_eq/=.
  - intros. by simplify_eq/=.
Qed.

(** Three blank-separated words. *)
Definition token (t : bytes) : Prop :=
  t <> [] /\ forallb (fun c => negb (isspace c)) t = true.

Lemma token_one_line t : token t -> one_line t.
Proof.
  intros [_ H]. unfold one_line. induction t as [|c t IH]; [done|]. simpl in *.
  apply andb_true_iff in H as [Hc ?]. rewrite IH by done.
  destruct (Ascii.eqb_spec c LF) as [->|]; [discriminate|done].
Qed.

Lemma next_token_app t k :
  token t -> (forall c, head k = Some c -> isspace c = true) ->
  RtspParser.next_token (t ++ k) = (t, k).
Proof.
  intros [Hne Ht] Hk. unfold RtspParser.next_token. rewrite (span_stop isspace).
  - apply span_all; [done|]. intros c Hc. by rewrite Hk.
  - destruct t as [|c t]; [done|]. simpl in *. intros ? [= <-].
    apply andb_true_iff in Ht as [Hc _]. by destruct (isspace c).
Qed.

Lemma next_token_space k : RtspParser.next_token (" "%char :: k) = RtspParser.next_token k.
Proof. unfold RtspParser.next_token. simpl. by destruct (span isspace k). Qed.

Definition start_line (m u v : bytes) : bytes := m ++ " "%char :: u ++ " "%char :: v.

Lemma parse_start_line m u v r :
  token m -> token u -> token v ->
  RtspParser.ParseRequestLine (start_line m u v) r =
  (Status.Ok, mkRtspRequest (RtspParser.ParseMethod m) u v (cseq r) (headers r) (body r)
     (transport r)).
Proof.
  intros Hm Hu Hv. unfold RtspParser.ParseRequestLine, start_line.
  rewrite next_token_app by (done || by intros ? [= <-]).
  rewrite next_token_space, next_token_app by (done || by intros ? [= <-]).
  rewrite next_token_space. rewrite <-(app_nil_r v) at 1.
  rewrite next_token_app by done. by destruct Hm as [? _], m.
Qed.

Lemma start_line_one_line m u v :
  token m -> token u -> token v -> one_line (start_line m u v).
Proof.
  intros Hm%token_one_line Hu%token_one_line Hv%token_one_line.
  unfold one_line, start_line in *. rewrite index_of_app, Hm. cbn.
  by rewrite index_of_app, Hu; cbn; rewrite Hv.
Qed.

(** Parsing a rendered request. *)
Lemma Parse_rendered m u v hs b r :
  token m -> token u -> token v -> Forall header_ok hs ->
  len (message (start_line m u v) hs b) <= kMaxRtspRequestDataLen ->
  exists r',
    RtspParser.Parse (Some (message (start_line m u v) hs b))
      (len (message (start_line m u v) hs b)) r = Some (Status.Ok, r') /\
    method r' = RtspParser.ParseMethod m /\ url r' = u /\ version r' = v /\
    headers r' = fold_left store_header hs [] /\
    body r' = mjoin ((fun l => l ++ [LF]) <$> split_lines b) /\
    fields_agree (transport r) r'.
Proof.
  intros Hm Hu Hv Hhs Hlen. set (d := message _ hs b) in *.
  edestruct (parse_message (start_line m u v) hs b r)
    as (r' & Hp & [H1 H2 H3] & Hh & Hb & Ha);
    [by apply start_line_one_line|by destruct Hm as [? _], m|done
    |by apply parse_start_line|done|done|].
  exists r'. split; [|done]. rewrite Parse_text, ztake_all; [done|lia| |done].
  split; [|lia]. unfold d, message. rewrite !len_app.
  pose proof (len_nonneg (start_line m u v)). pose proof (len_nonneg b).
  change (len crlf) with 2.
  pose proof (len_nonneg (mjoin ((fun h => header_line h ++ crlf) <$> hs))). lia.
Qed.

(** ** Properties *)

(** C19: A rendered request reads back.  A request line of three words, headers
    whose names and values need no trimming, an empty line and a body parse to
    exactly that method, URL and version, the headers under their lower-case
    names (the last of equal names wins), the complete lines of the body, and a
    CSeq and transport that are those of the stored headers. *)
Theorem Parse_roundtrip m u v hs b r :
  token m -> token u -> token v -> Forall header_ok hs ->
  len (message (start_line m u v) hs b) <= kMaxRtspRequestDataLen ->
  exists r',
    RtspParser.Parse (Some (message (start_line m u v) hs b))
      (len (message (start_line m u v) hs b)) r = Some (Status.Ok, r') /\
    method r' = RtspParser.ParseMethod m /\ url r' = u /\ version r' = v /\
    headers r' = fold_left store_header hs [] /\
    body r' = mjoin ((fun l => l ++ [LF]) <$> split_lines b) /\
    fields_agree (transport r) r'.
Proof. apply Parse_rendered. Qed.

Definition setup_headers : list (bytes * bytes) :=
  [(lit "CSeq", lit "3"); (lit "Transport", lit "RTP/AVP/TCP;interleaved=0-1")].

Lemma setup_headers_ok : Forall header_ok setup_headers.
Proof.
  repeat constructor; try discriminate; intros _; vm_compute; eexists; reflexivity.
Defined.

Lemma Parse_roundtrip_witness :
  exists r', RtspParser.Parse
      (Some (message (start_line (lit "SETUP") (lit "rtsp://h/s") (lit "RTSP/1.0"))
               setup_headers []))
      (len (message (start_line (lit "SETUP") (lit "rtsp://h/s") (lit "RTSP/1.0"))
              setup_headers [])) RtspRequest_init = Some (Status.Ok, r') /\
    method r' = kSetup /\ headers r' = fold_left store_header setup_headers [].
Proof.
  destruct (Parse_roundtrip (lit "SETUP") (lit "rtsp://h/s") (lit "RTSP/1.0")
    setup_headers [] RtspRequest_init) as (r' & Hp & Hm & _ & _ & Hh & _);
    [by split|by split|by split|apply setup_headers_ok|vm_compute; discriminate|].
  exists r'. split; [exact Hp|]. split; [rewrite Hm; reflexivity|exact Hh].
Defined.

(** When parsing succeeds.  A request of admissible size whose arithmetic is
    defined is accepted exactly when its first complete line has a word on it. *)
Theorem Parse_ok_iff m n r st r' :
  0 < n <= len m -> n <= kMaxRtspRequestDataLen ->
  RtspParser.Parse (Some m) n r = Some (st, r') ->
  Status.ok st = true <->
  exists l ls, split_lines (ztake n m) = l :: ls /\ has_token l = true.
Proof.
  intros Hn Hmax. rewrite Parse_text by done. intros ->%parse_text_ok.
  destruct (split_lines _) as [|l ls]; split.
  - done.
  - by intros (? & ? & ? & _).
  - intros. by exists l, ls.
  - by intros (? & ? & [= -> ->] & ?).
Qed.

Lemma Parse_ok_iff_witness :
  let m := lit "PLAY x" ++ crlf in
  exists st r', RtspParser.Parse (Some m) 8 RtspRequest_init = Some (st, r') /\
    (Status.ok st = true <->
     exists l ls, split_lines (ztake 8 m) = l :: ls /\ has_token l = true).
Proof.
  eexists _, _. split; [reflexivity|].
  eapply (Parse_ok_iff (lit "PLAY x" ++ crlf) 8 RtspRequest_init);
    [vm_compute; split; [reflexivity|discriminate]|vm_compute; discriminate|reflexivity].
Defined.

(** Whatever is parsed, accepted or not, the request's CSeq is the value of
    its stored [cseq] header (0 without one), and its transport is the one its
    stored [transport] header describes (the caller's without one). *)
Theorem Parse_fields_agree m n r st r' :
  0 < n <= len m -> n <= kMaxRtspRequestDataLen ->
  RtspParser.Parse (Some m) n r = Some (st, r') -> fields_agree (transport r) r'.
Proof.
  intros Hn Hmax. rewrite Parse_text by done. unfold parse_text.
  intros (x & Hx & H)%bind_Some.
  pose proof (parse_lines_agree _ _ _ _ Hx (fields_agree_cleared r)) as Ha.
  destruct x as [[? ?]|s]; [by simplify_eq|]. destruct (RtspParser.request_line_parsed s);
    by simplify_eq.
Qed.

Lemma Parse_fields_agree_witness :
  exists st r', RtspParser.Parse (Some (lit "PLAY x" ++ crlf ++ lit "CSeq: 7" ++ crlf)) 17
      RtspRequest_init = Some (st, r') /\ fields_agree TransportInfo_init r' /\ cseq r' = 7.
Proof.
  eexists _, _. split; [reflexivity|]. split; [|reflexivity].
  eapply (Parse_fields_agree (lit "PLAY x" ++ crlf ++ lit "CSeq: 7" ++ crlf) 17
    RtspRequest_init); [vm_compute; split; [reflexivity|discriminate]
    |vm_compute; discriminate|reflexivity].
Defined.

(** Method names: each method's name is recognised as that method, and a name
    recognised as a known method is that method's name. *)
Theorem ParseMethod_inverse (k : RtspMethod) (s : bytes) :
  RtspParser.ParseMethod (RtspParser.MethodToString k) = k /\
  (RtspParser.ParseMethod s = kUnknown \/
   RtspParser.MethodToString (RtspParser.ParseMethod s) = s).
Proof.
  split; [by destruct k|]. unfold RtspParser.ParseMethod.
  repeat (case_decide; [right; by subst|]). by left.
Qed.

(** A transport header selects exactly one transport: TCP when ["TCP"] occurs
    in it, UDP otherwise. *)
Theorem ParseTransport_exclusive s t :
  RtspParser.ParseTransport s = Some t ->
  is_udp t = negb (is_tcp t) /\
  (is_tcp t = true <-> exists a b, s = a ++ lit "TCP" ++ b).
Proof.
  unfold RtspParser.ParseTransport. intros H.
  assert (Hc : RtspParser.contains s (lit "TCP") = true <->
    exists a b, s = a ++ lit "TCP" ++ b).
  { unfold RtspParser.contains. rewrite bool_decide_eq_true. apply find_sub_ex. }
  rewrite <-Hc. destruct (RtspParser.contains s (lit "TCP"));
    [|destruct (_ || _)];
    repeat match type of H with
    | (_ ≫= _) = Some _ => apply bind_Some in H as (? & _ & H)
    end; repeat case_match; by simplify_eq/=.
Qed.

Lemma ParseTransport_exclusive_witness :
  exists t, RtspParser.ParseTransport (lit "RTP/AVP/TCP;interleaved=0-1") = Some t /\
    is_udp t = negb (is_tcp t) /\ is_tcp t = true.
Proof.
  eexists. split; [reflexivity|]. split; [|reflexivity].
  eapply (ParseTransport_exclusive (lit "RTP/AVP/TCP;interleaved=0-1")). reflexivity.
Defined.

(** A transport header whose only client port is the largest [int] makes the
    code compute [INT_MAX + 1] on [int]s, which C++ leaves undefined. *)
Theorem ParseTransport_overflow :
  RtspParser.ParseTransport (lit "RTP/AVP;client_port=2147483647") = None /\
  RtspParser.ParseTransport (lit "RTP/AVP;client_port=2147483646") <> None.
Proof. by vm_compute. Qed.
