(* ===== verification/ParserInv.v ===== *)
(** * What the parser returns, and that it does

    A type for parsed requests: machine integers in range, words without white
    space, header fields lower-cased and trimmed and without line breaks; every
    request [Parse] produces has it, accepted or not.  And a characterisation of
    the texts on which [Parse] has no result: its loops always end, and what is
    left is one signed overflow, in the header section. *)
From S2P Require Import Prelude Status OrderedMap Text Parser.

(** ** Types *)

Definition int (z : Z) : Prop := INT_MIN <= z <= INT_MAX.

(** Six members of type [int]. *)
Record transport_typed (t : TransportInfo) : Prop := {
  tt_client_rtp : int (client_rtp_port t);
  tt_client_rtcp : int (client_rtcp_port t);
  tt_server_rtp : int (server_rtp_port t);
  tt_server_rtcp : int (server_rtcp_port t);
  tt_interleaved_rtp : int (interleaved_rtp t);
  tt_interleaved_rtcp : int (interleaved_rtcp t);
}.

(** A header field as it is stored. *)
Record field_typed (h : bytes * bytes) : Prop := {
  ft_name : Forall (fun c => c <> ":"%char /\ c <> LF /\ tolower c = c) (fst h);
  ft_name_trim : RtspParser.Trim (fst h) = fst h;
  ft_value : Forall (fun c => c <> LF) (snd h);
  ft_value_trim : RtspParser.Trim (snd h) = snd h;
}.

Record request_typed (r : RtspRequest) : Prop := {
  rt_cseq : int (cseq r);
  rt_transport : transport_typed (transport r);
  rt_url : Forall (fun c => isspace c = false) (url r);
  rt_version : Forall (fun c => isspace c = false) (version r);
  rt_sorted : om_sorted (headers r);
  rt_headers : Forall field_typed (headers r);
}.

(** ** Lemmas on text *)

Lemma index_of_None c l : index_of c l = None <-> Forall (fun x => x <> c) l.
Proof.
  induction l as [|x l IH]; [by split|]. simpl. rewrite Forall_cons, <-IH.
  destruct (Ascii.eqb_spec x c) as [Hx|Hx]; [by split; [|intros [H _]; destruct (H Hx)]|].
  destruct (index_of c l); cbn [fmap option_fmap option_map]; split; try done; by intros [].
Qed.

Lemma isspace_tolower c : isspace (tolower c) = isspace c.
Proof. by destruct c as [[] [] [] [] [] [] [] []]. Qed.

Lemma tolower_tolower c : tolower (tolower c) = tolower c.
Proof. by destruct c as [[] [] [] [] [] [] [] []]. Qed.

(** Only itself is lowered to a character that is no letter. *)
Lemma tolower_inv c x : tolower c = x -> x = ":"%char \/ x = LF -> c = x.
Proof. destruct c as [[] [] [] [] [] [] [] []]; vm_compute; intros <- [H|H]; congruence. Qed.

Lemma span_Forall f l : Forall (fun c => f c = true) (fst (span f l)).
Proof.
  induction l as [|c l IH]; simpl; [done|]. destruct (f c) eqn:Hc; [|done].
  destruct (span f l). by constructor.
Qed.

Lemma span_head f l c : head (snd (span f l)) = Some c -> f c = false.
Proof.
  induction l as [|x l IH]; simpl; [done|]. destruct (f x) eqn:Hx; [|by intros [= <-]].
  by destruct (span f l).
Qed.

Lemma rev_reverse (l : bytes) : rev l = reverse l.
Proof. apply rev_alt. Qed.

(** No white space at either end. *)
Record trimmed (l : bytes) : Prop := {
  trimmed_head c : head l = Some c -> isspace c = false;
  trimmed_last c : last l = Some c -> isspace c = false;
}.

(** [Trim] cuts a text out of its argument, trimmed. *)
Lemma Trim_cut l : exists a b, l = a ++ RtspParser.Trim l ++ b.
Proof.
  unfold RtspParser.Trim. set (r := snd (span isspace l)).
  exists (fst (span isspace l)), (rev (fst (span isspace (rev r)))).
  rewrite <-rev_app_distr, span_app, rev_involutive. symmetry. apply span_app.
Qed.

Lemma Trim_trimmed l : trimmed (RtspParser.Trim l).
Proof.
  unfold RtspParser.Trim. set (r := snd (span isspace l)). set (t := span isspace (rev r)).
  assert (Hr : r = rev (snd t) ++ rev (fst t))
    by (unfold t; by rewrite <-rev_app_distr, span_app, rev_involutive).
  split; intros c Hc.
  - apply (span_head isspace l). fold r. rewrite Hr. by destruct (rev (snd t)).
  - apply (span_head isspace (rev r)). fold t. by rewrite rev_reverse, last_reverse in Hc.
Qed.

Lemma trimmed_Trim l : trimmed l -> RtspParser.Trim l = l.
Proof.
  intros [Hh Hl]. unfold RtspParser.Trim. rewrite (span_stop isspace l Hh). cbn [snd].
  rewrite span_stop; [apply rev_involutive|]. intros c. rewrite rev_reverse, head_reverse. apply Hl.
Qed.

Lemma trimmed_tolower l : trimmed l -> trimmed (tolower <$> l).
Proof.
  intros [Hh Hl]. split; intros c Hc.
  - destruct l as [|x l]; [done|]. injection Hc as <-. rewrite isspace_tolower. by apply Hh.
  - rewrite fmap_last in Hc. apply fmap_Some in Hc as (x & Hx & ->).
    rewrite isspace_tolower. by apply Hl.
Qed.

Lemma Forall_Trim P l : Forall P l -> Forall P (RtspParser.Trim l).
Proof.
  destruct (Trim_cut l) as (a & b & Hl). intros H. rewrite Hl in H.
  by apply Forall_app in H as [_ [? _]%Forall_app].
Qed.

Lemma Forall_ztake {A} (P : A -> Prop) n l : Forall P l -> Forall P (ztake n l).
Proof. apply Forall_take. Qed.

Lemma Forall_zdrop {A} (P : A -> Prop) n l : Forall P l -> Forall P (zdrop n l).
Proof. apply Forall_drop. Qed.

(** The complete lines of a text hold no line feed. *)
Lemma split_lines_one_line d : Forall one_line (split_lines d).
Proof.
  unfold split_lines. apply Forall_fmap.
  assert (Hraw : Forall one_line (raw_lines d)).
  { induction d as [|c d IH]; simpl; [done|]. destruct (Ascii.eqb_spec c LF) as [|Hc].
    - by constructor.
    - destruct (raw_lines d) as [|h t]; [done|]. apply Forall_cons in IH as [Hh Ht]. constructor; [|done].
      unfold one_line in *. simpl. destruct (Ascii.eqb_spec c LF); [done|]. by rewrite Hh. }
  eapply Forall_impl; [done|]. intros l Hl. cbn. unfold RtspParser.strip_cr.
  destruct (last l) as [c|]; [|done]. destruct (Ascii.eqb c CR); [|done].
  unfold one_line in *. rewrite index_of_None in *. by apply Forall_ztake.
Qed.

(** ** Every request is well typed *)

Lemma pair_typed s key p :
  RtspParser.parse_pair s key = Some p -> int (fst (default (0, 0) p)) /\ int (snd (default (0, 0) p)).
Proof.
  assert (H0 : int 0) by (split; vm_compute; discriminate).
  unfold RtspParser.parse_pair. destruct (find_sub key s) as [i|]; [|by intros [= <-]].
  destruct (strtol _) as [v rest]. destruct (Ascii.eqb _ _).
  - destruct (strtol _) as [v2 ?]. intros [= <-]. split; apply i32_range.
  - unfold RtspParser.int_succ. pose proof (i32_range v) as Hv.
    destruct (Z.eqb_spec (i32 v) INT_MAX) as [|Hne]; [done|]. intros [= <-].
    split; [done|]. cbn. unfold int, INT_MIN, INT_MAX in *. lia.
Qed.

Lemma ParseTransport_typed s t : RtspParser.ParseTransport s = Some t -> transport_typed t.
Proof.
  unfold RtspParser.ParseTransport. destruct (if RtspParser.contains s (lit "TCP") then _ else _).
  intros (c & Hc & (v & Hv & (i & Hi & Ht)%bind_Some)%bind_Some)%bind_Some.
  apply pair_typed in Hc, Hv, Hi.
  destruct (default (0, 0) c), (default (0, 0) v), (default (0, 0) i). injection Ht as <-.
  split; (apply Hc || apply Hv || apply Hi).
Qed.

Lemma parse_cseq_typed value : int (RtspParser.parse_cseq value).
Proof.
  unfold RtspParser.parse_cseq. destruct (strtol value) as [v rest].
  destruct (_ && _); [apply i32_range|]. split; vm_compute; discriminate.
Qed.

(** What [parse_header] stores of a line. *)
Lemma stored_typed line i :
  one_line line -> index_of ":"%char line = Some i ->
  field_typed (tolower <$> RtspParser.Trim (ztake i line),
               RtspParser.Trim (zdrop (i + 1) line)).
Proof.
  intros Hl Hi. unfold one_line in Hl. rewrite index_of_None in Hl.
  assert (Hname : Forall (fun c => c <> ":"%char) (ztake i line)).
  { clear Hl. revert i Hi. induction line as [|c line IH]; simpl; [done|]. intros i.
    destruct (Ascii.eqb_spec c ":"%char) as [|Hc].
    - intros [= <-]. rewrite ztake_0 by done. constructor.
    - intros (j & Hj & ->)%fmap_Some. pose proof (index_of_range _ _ _ Hj).
      unfold ztake. rewrite Z2Nat.inj_succ by lia. constructor; [done|by apply IH]. }
  split; cbn [fst snd].
  - apply Forall_fmap, Forall_Trim.
    assert (Hboth : Forall (fun c => c <> ":"%char /\ c <> LF) (ztake i line))
      by (apply Forall_and; split; [done|by apply Forall_ztake]).
    eapply Forall_impl; [exact Hboth|]. intros c [H1 H2]. cbn. split_and!.
    + intros H. apply H1. by rewrite (tolower_inv c _ H) by auto.
    + intros H. apply H2. by rewrite (tolower_inv c _ H) by auto.
    + apply tolower_tolower.
  - apply trimmed_Trim, trimmed_tolower, Trim_trimmed.
  - by apply Forall_Trim, Forall_zdrop.
  - apply trimmed_Trim, Trim_trimmed.
Qed.

Lemma parse_header_typed line r r' :
  one_line line -> RtspParser.parse_header line r = Some r' ->
  request_typed r -> request_typed r'.
Proof.
  unfold RtspParser.parse_header. intros Hl H [H1 H2 H3 H4 H5 H6].
  destruct (index_of _ line) as [i|] eqn:Hi; [|by simplify_eq].
  pose proof (stored_typed _ _ Hl Hi) as Hf.
  set (key := tolower <$> _) in *. set (value := RtspParser.Trim (zdrop _ _)) in *.
  pose proof (om_set_sorted key value _ H5) as H5'.
  pose proof (Forall_om_set field_typed key value _ Hf H6) as H6'.
  destruct (decide (key = lit "cseq")).
  { simplify_eq. split; try done. apply parse_cseq_typed. }
  destruct (decide (key = lit "transport")).
  { apply bind_Some in H as (t & Ht & [= <-]). split; try done.
    by eapply ParseTransport_typed. }
  simplify_eq. by split.
Qed.

Lemma next_token_word p : Forall (fun c => isspace c = false) (fst (RtspParser.next_token p)).
Proof.
  unfold RtspParser.next_token. eapply Forall_impl; [apply span_Forall|].
  intros c Hc. by apply negb_true_iff.
Qed.

Lemma parse_request_line_typed line r :
  request_typed r -> request_typed (snd (RtspParser.ParseRequestLine line r)).
Proof.
  intros [H1 H2 H3 H4 H5 H6]. unfold RtspParser.ParseRequestLine.
  destruct (RtspParser.next_token line) as [m p1].
  pose proof (next_token_word p1) as Hu. destruct (RtspParser.next_token p1) as [u p2].
  pose proof (next_token_word p2) as Hv. destruct (RtspParser.next_token p2) as [v ?].
  destruct m; by split.
Qed.

Lemma parse_line_typed line s x :
  one_line line -> RtspParser.parse_line line s = Some x ->
  request_typed (RtspParser.req s) -> request_typed (scan_req x).
Proof.
  unfold RtspParser.parse_line. intros Hl H Ht. destruct (_ && _); [by simplify_eq|].
  destruct (RtspParser.in_body s); [simplify_eq; by destruct Ht|].
  destruct (negb _).
  - pose proof (parse_request_line_typed line _ Ht) as Hr.
    destruct (RtspParser.ParseRequestLine line _) as [st r]. case_match; by simplify_eq.
  - apply bind_Some in H as (r & Hr & [= <-]). by eapply parse_header_typed.
Qed.

Lemma parse_lines_typed ls s x :
  Forall one_line ls -> parse_lines ls s = Some x ->
  request_typed (RtspParser.req s) -> request_typed (scan_req x).
Proof.
  intros Hls. revert s. induction Hls as [|l ls Hl _ IH]; simpl; intros s H Ht; [by simplify_eq|].
  apply bind_Some in H as (y & Hy & H).
  pose proof (parse_line_typed _ _ _ Hl Hy Ht). destruct y as [[? ?]|s']; [by simplify_eq|].
  by apply IH in H.
Qed.

Lemma cleared_typed r : transport_typed (transport r) -> request_typed (RtspParser.cleared r).
Proof. intros. split; [split; vm_compute; discriminate|done|constructor..]. Qed.

(** ** When there is a result

    A port, or a channel, that is the largest [int] and comes alone. *)
Definition lone_max (s key : bytes) : bool :=
  match find_sub key s with
  | None => false
  | Some pos =>
    let '(v, rest) := strtol (zdrop (pos + 12) s) in
    (i32 v =? INT_MAX) && negb (Ascii.eqb (char_at_end rest) "-"%char)
  end.

Definition transport_overflows (s : bytes) : bool :=
  lone_max s (lit "client_port=") || lone_max s (lit "server_port=") ||
  lone_max s (lit "interleaved=").

(** The value of a header line with that (lower-case) name. *)
Definition header_value (name line : bytes) : option bytes :=
  match index_of ":"%char line with
  | Some i =>
    if decide (tolower <$> RtspParser.Trim (ztake i line) = name)
    then Some (RtspParser.Trim (zdrop (i + 1) line)) else None
  | None => None
  end.

(** A header line on which an addition overflows. *)
Definition line_overflows (line : bytes) : bool :=
  from_option transport_overflows false (header_value (lit "transport") line).

(** The lines up to the first empty one. *)
Fixpoint until_blank (ls : list bytes) : list bytes :=
  match ls with
  | [] => []
  | l :: ls => if len l =? 0 then [] else l :: until_blank ls
  end.

(** The header section: what follows a request line, which has a word on it. *)
Definition header_section (ls : list bytes) : list bytes :=
  match until_blank ls with
  | start :: hs => if has_token start then hs else []
  | [] => []
  end.

Lemma parse_pair_None s key : RtspParser.parse_pair s key = None <-> lone_max s key = true.
Proof.
  unfold RtspParser.parse_pair, lone_max. destruct (find_sub key s) as [i|]; [|done].
  destruct (strtol _) as [v rest]. destruct (Ascii.eqb _ _).
  - destruct (strtol _). rewrite andb_false_r. done.
  - unfold RtspParser.int_succ. rewrite andb_true_r. by destruct (i32 v =? INT_MAX).
Qed.

Lemma ParseTransport_None s : RtspParser.ParseTransport s = None <-> transport_overflows s = true.
Proof.
  unfold RtspParser.ParseTransport, transport_overflows. rewrite !orb_true_iff, <-!parse_pair_None.
  destruct (if RtspParser.contains s (lit "TCP") then _ else _).
  destruct (RtspParser.parse_pair s (lit "client_port=")) as [c|]; [|by split; auto].
  destruct (RtspParser.parse_pair s (lit "server_port=")) as [v|]; [|by split; auto].
  destruct (RtspParser.parse_pair s (lit "interleaved=")) as [i|]; [|by split; auto].
  cbn. destruct (default (0, 0) c), (default (0, 0) v), (default (0, 0) i).
  split; [done|by intros [[]|]].
Qed.

Lemma parse_header_None line r :
  RtspParser.parse_header line r = None <-> line_overflows line = true.
Proof.
  unfold RtspParser.parse_header, line_overflows, header_value.
  destruct (index_of _ line) as [i|]; [|done].
  set (key := tolower <$> _). set (value := RtspParser.Trim _).
  destruct (decide (key = lit "cseq")) as [Hk|Hk].
  { destruct (decide (key = lit "transport")) as [Hk2|]; [|done]. rewrite Hk in Hk2. discriminate. }
  destruct (decide (key = lit "transport")); [|done]. cbn [from_option].
  rewrite <-ParseTransport_None. by destruct (RtspParser.ParseTransport value).
Qed.

(** The body takes anything; the header section fails at its first overflow. *)
Lemma parse_lines_headers ls r :
  parse_lines ls (RtspParser.mkScan false true r) = None <->
  Exists (fun l => line_overflows l = true) (until_blank ls).
Proof.
  revert r. induction ls as [|l ls IH]; intros r; cbn [parse_lines until_blank].
  { split; [done|by intros ?%Exists_nil]. }
  unfold RtspParser.parse_line. cbn [RtspParser.in_body RtspParser.request_line_parsed
    RtspParser.req negb andb]. rewrite andb_true_r.
  destruct (len l =? 0) eqn:Hl; cbn [andb].
  { cbn [mbind option_bind]. rewrite parse_body_lines. split; [done|by intros ?%Exists_nil]. }
  rewrite Exists_cons, <-(parse_header_None l r).
  destruct (RtspParser.parse_header l r) as [r'|]; cbn [mbind option_bind].
  - rewrite IH. split; [by right|by intros [|]].
  - by split; [left|].
Qed.

Lemma parse_text_None d r :
  parse_text d r = None <->
  Exists (fun l => line_overflows l = true) (header_section (split_lines d)).
Proof.
  unfold parse_text, header_section. destruct (split_lines d) as [|l ls]; cbn [parse_lines until_blank].
  { split; [done|by intros ?%Exists_nil]. }
  unfold RtspParser.parse_line. cbn [RtspParser.in_body RtspParser.request_line_parsed
    RtspParser.req negb andb]. rewrite andb_true_r.
  destruct (len l =? 0) eqn:Hl; cbn [andb mbind option_bind].
  { rewrite parse_body_lines. split; [done|by intros ?%Exists_nil]. }
  pose proof (parse_request_line_ok l (RtspParser.cleared r)) as Hok.
  destruct (RtspParser.ParseRequestLine l _) as [st r1]. cbn [fst] in Hok. rewrite Hok.
  destruct (has_token l); cbn [negb].
  - rewrite <-(parse_lines_headers ls r1). cbn [mbind option_bind].
    destruct (parse_lines ls _) as [[?|s]|];
      cbn; [by split|by destruct (RtspParser.request_line_parsed s); split|done].
  - split; [done|by intros ?%Exists_nil].
Qed.

(** ** Properties *)

(** C20: Every request the parser produces, accepted or not, is well typed: CSeq and
    the six transport numbers are values of [int], URL and version hold no white
    space, the header map is sorted by name, names are lower-case, trimmed, without
    colons and line feeds, and values are trimmed and without line feeds. *)
Theorem Parse_typed m n r st r' :
  0 < n <= len m -> n <= kMaxRtspRequestDataLen -> transport_typed (transport r) ->
  RtspParser.Parse (Some m) n r = Some (st, r') -> request_typed r'.
Proof.
  intros Hn Hmax Ht. rewrite Parse_text by done. unfold parse_text.
  intros (x & Hx & H)%bind_Some.
  pose proof (parse_lines_typed _ _ _ (split_lines_one_line _) Hx (cleared_typed _ Ht)) as Hr.
  destruct x as [[? ?]|s]; [by simplify_eq|].
  destruct (RtspParser.request_line_parsed s); by simplify_eq.
Qed.

Lemma init_typed : transport_typed TransportInfo_init.
Proof. split; split; vm_compute; discriminate. Defined.

Lemma Parse_typed_witness :
  let m := lit "PLAY x" ++ crlf ++ lit "CSeq : 7 " ++ crlf in
  exists st r', RtspParser.Parse (Some m) 19 RtspRequest_init = Some (st, r') /\
    request_typed r' /\ headers r' = [(lit "cseq", lit "7")].
Proof.
  eexists _, _. split; [reflexivity|]. split; [|reflexivity].
  eapply (Parse_typed (lit "PLAY x" ++ crlf ++ lit "CSeq : 7 " ++ crlf) 19 RtspRequest_init);
    [vm_compute; split; [reflexivity|discriminate]|vm_compute; discriminate|exact init_typed
    |reflexivity].
Defined.

(** C21: Parsing ends with a result on every text in the block and within the limit
    -- the bound on its loop is never reached -- except when some line of the header
    section, which is what lies between the request line and the first empty line,
    is a transport header with a lone port or channel equal to the largest [int]:
    only there is the behaviour undefined. *)
Theorem Parse_terminates m n r :
  0 < n <= len m -> n <= kMaxRtspRequestDataLen ->
  (exists res, RtspParser.Parse (Some m) n r = Some res) <->
  Forall (fun l => line_overflows l = false) (header_section (split_lines (ztake n m))).
Proof.
  intros Hn Hmax. rewrite Parse_text by done. pose proof (parse_text_None (ztake n m) r) as H.
  destruct (parse_text (ztake n m) r) as [res|]; split.
  - intros _. apply Forall_forall. intros l Hl. destruct (line_overflows l) eqn:Ho; [|done].
    assert (Some res = None); [|done]. apply H, Exists_exists. by exists l.
  - by exists res.
  - by intros [].
  - intros Hall. pose proof (proj1 H eq_refl) as Hex. apply Exists_exists in Hex as (l & Hl & Ho).
    rewrite Forall_forall in Hall. by rewrite (Hall l Hl) in Ho.
Qed.

Definition overflowing_setup : bytes :=
  lit "SETUP x" ++ crlf ++ lit "Transport: UDP;client_port=2147483647" ++ crlf.

Lemma Parse_terminates_witness :
  RtspParser.Parse (Some overflowing_setup) 48 RtspRequest_init = None.
Proof.
  assert (Hls : header_section (split_lines (ztake 48 overflowing_setup)) =
    [lit "Transport: UDP;client_port=2147483647"]) by (vm_compute; reflexivity).
  assert (Hres : (exists res, RtspParser.Parse (Some overflowing_setup) 48 RtspRequest_init =
      Some res) -> False).
  { intros Hres. apply Parse_terminates in Hres; [|by vm_compute|by vm_compute].
    rewrite Hls in Hres. apply Forall_inv in Hres. vm_compute in Hres. discriminate. }
  revert Hres. generalize (RtspParser.Parse (Some overflowing_setup) 48 RtspRequest_init).
  intros [res|] Hres; [destruct Hres; by exists res|reflexivity].
Defined.
