(* ===== verification/Builder.v ===== *)
(** * The response builder (src/src/protocol/rtsp_builder.h, rtsp_builder.cc)

    Module [RtspBuilder] has one definition per function.  The headers are an
    ordered map, printed in key order.  The theorems read the responses back with
    the repository's own parser (Parser.v). *)
From S2P Require Import Prelude Status OrderedMap Text Parser.

Module RtspBuilder.

Definition status_line (status_code : Z) (reason_phrase : bytes) : bytes :=
  kRtspVersion ++ lit " " ++ to_string status_code ++ lit " " ++ reason_phrase ++ crlf.

Definition BuildResponse (status_code : Z) (reason_phrase : bytes) : bytes :=
  status_line status_code reason_phrase ++ crlf.

Definition header_text (hs : list (bytes * bytes)) : bytes :=
  mjoin ((fun p => fst p ++ lit ": " ++ snd p ++ crlf) <$> hs).

(** The overload without a body *)
Definition BuildResponse_headers (status_code : Z) (reason_phrase : bytes)
    (hs : list (bytes * bytes)) : bytes :=
  status_line status_code reason_phrase ++ header_text hs ++ crlf.

(** The overload with a body *)
Definition BuildResponse_body (status_code : Z) (reason_phrase : bytes)
    (hs : list (bytes * bytes)) (b : bytes) : bytes :=
  status_line status_code reason_phrase ++ header_text hs ++ crlf ++ b.

(** [if (!session_id.empty()) headers["Session"] = session_id;] *)
Definition add_session (session_id : bytes) (hs : list (bytes * bytes)) :=
  match session_id with
  | [] => hs
  | _ => om_set (lit "Session") session_id hs
  end.

Definition BuildOptionsResponse (cseq : Z) (session_id : bytes) : bytes :=
  let hs := om_set (lit "CSeq") (to_string cseq) [] in
  let hs := om_set (lit "Public") kRtspOptionsMethods hs in
  BuildResponse_headers 200 (lit "OK") (add_session session_id hs).

Definition BuildDescribeResponse (cseq : Z) (sdp_content : bytes) : bytes :=
  let hs := om_set (lit "CSeq") (to_string cseq) [] in
  let hs := om_set (lit "Content-Type") kContentTypeSdp hs in
  let hs := om_set (lit "Content-Length") (to_string (len sdp_content)) hs in
  BuildResponse_body 200 (lit "OK") hs sdp_content.

Definition BuildSetupResponse (cseq : Z) (session_id : bytes)
    (rtp_channel rtcp_channel : Z) : bytes :=
  let hs := om_set (lit "CSeq") (to_string cseq) [] in
  let hs := om_set (lit "Transport")
    (lit "RTP/AVP/TCP;interleaved=" ++ to_string rtp_channel ++ lit "-" ++
     to_string rtcp_channel) hs in
  BuildResponse_headers 200 (lit "OK") (add_session session_id hs).

Definition BuildSetupResponseUdp (cseq : Z) (session_id : bytes)
    (server_rtp_port server_rtcp_port client_rtp_port client_rtcp_port : Z) : bytes :=
  let hs := om_set (lit "CSeq") (to_string cseq) [] in
  let transport :=
    lit "RTP/AVP;unicast;client_port=" ++ to_string client_rtp_port ++ lit "-" ++
    to_string client_rtcp_port ++ lit ";server_port=" ++ to_string server_rtp_port ++
    lit "-" ++ to_string server_rtcp_port in
  let hs := om_set (lit "Transport") transport hs in
  BuildResponse_headers 200 (lit "OK") (add_session session_id hs).

Definition BuildPlayResponse (cseq : Z) (session_id : bytes) : bytes :=
  let hs := om_set (lit "CSeq") (to_string cseq) [] in
  let hs := om_set (lit "Range") kRtspPlayRange hs in
  BuildResponse_headers 200 (lit "OK") (add_session session_id hs).

Definition BuildSimpleResponse (cseq : Z) (session_id : bytes) : bytes :=
  let hs := om_set (lit "CSeq") (to_string cseq) [] in
  BuildResponse_headers 200 (lit "OK") (add_session session_id hs).

Definition GetReasonPhrase (status_code : Z) : bytes :=
  if status_code =? 200 then lit "OK"
  else if status_code =? 400 then lit "Bad Request"
  else if status_code =? 401 then lit "Unauthorized"
  else if status_code =? 404 then lit "Not Found"
  else if status_code =? 405 then lit "Method Not Allowed"
  else if status_code =? 451 then lit "Parameter Not Understood"
  else if status_code =? 500 then lit "Internal Server Error"
  else if status_code =? 501 then lit "Not Implemented"
  else lit "Unknown".

Definition BuildErrorResponse (cseq status_code : Z) (message : bytes) : bytes :=
  let reason := GetReasonPhrase status_code in
  let hs := om_set (lit "CSeq") (to_string cseq) [] in
  let hs := om_set (lit "Content-Type") kContentTypeText hs in
  let hs := om_set (lit "Content-Length") (to_string (len message)) hs in
  BuildResponse_body status_code reason hs message.
End RtspBuilder.

(** ** Responses as messages *)

Definition status_start (code : Z) (reason : bytes) : bytes :=
  kRtspVersion ++ lit " " ++ to_string code ++ lit " " ++ reason.

Lemma header_text_spec hs :
  RtspBuilder.header_text hs = mjoin ((fun h => header_line h ++ crlf) <$> hs).
Proof.
  unfold RtspBuilder.header_text. f_equal. apply list_fmap_ext. intros _ h _.
  unfold header_line. by rewrite <-!app_assoc.
Qed.

Lemma BuildResponse_body_message code reason hs b :
  RtspBuilder.BuildResponse_body code reason hs b = message (status_start code reason) hs b.
Proof.
  unfold RtspBuilder.BuildResponse_body, message, RtspBuilder.status_line, status_start.
  rewrite header_text_spec. by rewrite <-!app_assoc.
Qed.

Lemma BuildResponse_headers_message code reason hs :
  RtspBuilder.BuildResponse_headers code reason hs = message (status_start code reason) hs [].
Proof.
  rewrite <-BuildResponse_body_message. unfold RtspBuilder.BuildResponse_headers,
    RtspBuilder.BuildResponse_body. by rewrite app_nil_r.
Qed.

(** ** Texts that need no trimming *)

(** Free of white space: such a text is one line and trims to itself. *)
Definition solid (l : bytes) : Prop := forallb (fun c => negb (isspace c)) l = true.

Lemma solid_app a b : solid (a ++ b) <-> solid a /\ solid b.
Proof. unfold solid. by rewrite forallb_app, andb_true_iff. Qed.

Lemma solid_one_line l : solid l -> one_line l.
Proof. destruct l; [done|]. intros. by apply token_one_line. Qed.

Lemma span_solid l : solid l -> span isspace l = ([], l).
Proof.
  intros H. apply span_stop. unfold solid in H. destruct l as [|c l]; [done|].
  simpl in *. intros ? [= <-]. apply andb_true_iff in H as [H _]. by destruct (isspace c).
Qed.

Lemma solid_rev l : solid l -> solid (rev l).
Proof.
  unfold solid. rewrite !forallb_forall. intros H x Hx. apply H. by apply in_rev.
Qed.

Lemma solid_trim l : solid l -> RtspParser.Trim l = l.
Proof.
  intros H. unfold RtspParser.Trim. rewrite (span_solid l) by done. simpl.
  rewrite span_solid by by apply solid_rev. simpl. apply rev_involutive.
Qed.

Lemma to_string_solid z : - 2 ^ 63 <= z < 2 ^ 64 -> solid (to_string z).
Proof.
  intros Hz. pose proof (to_string_numeric z Hz) as H. unfold solid.
  rewrite forallb_forall in H |- *. intros c Hc. specialize (H c Hc).
  apply orb_true_iff in H as [Hd| ->%Ascii.eqb_eq]; [|done].
  by rewrite isdigit_not_space.
Qed.

Lemma header_ok_plain k v :
  index_of ":"%char k = None -> solid k -> one_line v -> RtspParser.Trim v = v ->
  (tolower <$> k = lit "transport" -> is_Some (RtspParser.ParseTransport v)) ->
  header_ok (k, v).
Proof. intros. split; simpl; auto using solid_one_line, solid_trim. Qed.

(** ** Transport texts *)

(** The text after the first [p]. *)
Fixpoint after_sub (p l : bytes) : option bytes :=
  if starts_with p l then Some (zdrop (len p) l)
  else match l with [] => None | _ :: l => after_sub p l end.

Lemma after_sub_spec p l :
  after_sub p l = (fun i => zdrop (i + len p) l) <$> find_sub p l.
Proof.
  induction l as [|c l IH]; simpl.
  - by destruct (starts_with p []).
  - destruct (starts_with p (c :: l)); [done|]. rewrite IH.
    destruct (find_sub p l) as [i|] eqn:Hf; [|done]. simpl.
    apply find_sub_Some in Hf as [? _]. pose proof (len_nonneg p). f_equal.
    replace (Z.succ i + len p) with (Z.succ (i + len p)) by lia.
    unfold zdrop. by rewrite (Z2Nat.inj_succ (i + len p)) by lia.
Qed.

(** Text without the pattern's first character is skipped. *)
Lemma after_sub_skip c p a b :
  forallb (fun x => negb (Ascii.eqb c x)) a = true ->
  after_sub (c :: p) (a ++ b) = after_sub (c :: p) b.
Proof.
  induction a as [|x a IH]; [done|]. simpl. intros [Hx Ha]%andb_true_iff.
  destruct (Ascii.eqb c x); [done|]. simpl. by apply IH.
Qed.

Lemma after_sub_number c p z b :
  numeric c = false -> - 2 ^ 63 <= z < 2 ^ 64 ->
  after_sub (c :: p) (to_string z ++ b) = after_sub (c :: p) b.
Proof.
  intros Hc Hz. apply after_sub_skip. pose proof (to_string_numeric z Hz) as H.
  rewrite forallb_forall in H |- *. intros x Hx. specialize (H x Hx).
  destruct (Ascii.eqb_spec c x) as [->|]; [congruence|done].
Qed.

Lemma after_sub_number_end c p z :
  numeric c = false -> - 2 ^ 63 <= z < 2 ^ 64 -> after_sub (c :: p) (to_string z) = None.
Proof.
  intros. rewrite <-(app_nil_r (to_string z)). by rewrite after_sub_number by done.
Qed.

Lemma contains_after s p : RtspParser.contains s p = bool_decide (is_Some (after_sub p s)).
Proof.
  unfold RtspParser.contains. apply bool_decide_ext. by rewrite after_sub_spec, fmap_is_Some.
Qed.

Definition is_int (z : Z) : Prop := INT_MIN <= z <= INT_MAX.

Lemma is_int_wide z : is_int z -> - 2 ^ 63 <= z < 2 ^ 64.
Proof. unfold is_int, INT_MIN, INT_MAX. lia. Qed.

Lemma parse_pair_after s key :
  len key = 12 ->
  RtspParser.parse_pair s key =
  match after_sub key s with
  | None => Some None
  | Some p =>
    let '(v, rest) := strtol p in
    if Ascii.eqb (char_at_end rest) "-"%char then
      let '(v2, _) := strtol (zdrop 1 rest) in Some (Some (i32 v, i32 v2))
    else second ← RtspParser.int_succ (i32 v); Some (Some (i32 v, second))
  end.
Proof.
  intros Hk. rewrite after_sub_spec, Hk. unfold RtspParser.parse_pair.
  by destruct (find_sub key s).
Qed.

(** ["<a>-<b>"] after a key. *)
Lemma parse_pair_range s key a b k :
  len key = 12 -> after_sub key s = Some (to_string a ++ lit "-" ++ to_string b ++ k) ->
  is_int a -> is_int b -> (forall c, head k = Some c -> isdigit c = false) ->
  RtspParser.parse_pair s key = Some (Some (a, b)).
Proof.
  intros Hk Hs Ha Hb Hend. rewrite parse_pair_after, Hs by done.
  change (lit "-" ++ to_string b ++ k) with ("-"%char :: to_string b ++ k).
  rewrite strtol_to_string by (done || by intros ? [= <-]).
  change (Ascii.eqb _ _) with true.
  change (zdrop 1 ("-"%char :: to_string b ++ k)) with (to_string b ++ k).
  rewrite strtol_to_string, !i32_small by done. done.
Qed.

Lemma parse_pair_absent s key :
  len key = 12 -> after_sub key s = None -> RtspParser.parse_pair s key = Some None.
Proof. intros Hk Hs. by rewrite parse_pair_after, Hs. Qed.

Definition udp_transport (c1 c2 s1 s2 : Z) : bytes :=
  lit "RTP/AVP;unicast;client_port=" ++ to_string c1 ++ lit "-" ++ to_string c2 ++
  lit ";server_port=" ++ to_string s1 ++ lit "-" ++ to_string s2.

Definition tcp_transport (i1 i2 : Z) : bytes :=
  lit "RTP/AVP/TCP;interleaved=" ++ to_string i1 ++ lit "-" ++ to_string i2.

#[local] Arguments to_string : simpl never.

(** Walks [after_sub] over a text of literals and numbers. *)
Ltac after_walk :=
  unfold udp_transport, tcp_transport, lit; cbn [String.list_ascii_of_string app];
  repeat first
    [ rewrite after_sub_number by (done || by apply is_int_wide)
    | rewrite after_sub_number_end by (done || by apply is_int_wide)
    | progress cbn [after_sub starts_with Ascii.eqb Bool.eqb andb app] ];
  try reflexivity.

Lemma ParseTransport_udp c1 c2 s1 s2 :
  is_int c1 -> is_int c2 -> is_int s1 -> is_int s2 ->
  RtspParser.ParseTransport (udp_transport c1 c2 s1 s2) =
  Some (mkTransportInfo true false c1 c2 s1 s2 0 0).
Proof.
  intros. unfold RtspParser.ParseTransport. rewrite contains_after.
  assert (after_sub (lit "TCP") (udp_transport c1 c2 s1 s2) = None) as -> by after_walk.
  rewrite (parse_pair_range _ (lit "client_port=") c1 c2
    (lit ";server_port=" ++ to_string s1 ++ lit "-" ++ to_string s2))
    by (done || (by intros ? [= <-]) || after_walk).
  rewrite (parse_pair_range _ (lit "server_port=") s1 s2 [])
    by (done || (by intros ? [= <-]) || (rewrite app_nil_r; after_walk)).
  rewrite parse_pair_absent by (done || after_walk).
  cbn. by destruct (_ || _).
Qed.

Lemma ParseTransport_tcp i1 i2 :
  is_int i1 -> is_int i2 ->
  RtspParser.ParseTransport (tcp_transport i1 i2) =
  Some (mkTransportInfo false true 0 0 0 0 i1 i2).
Proof.
  intros. unfold RtspParser.ParseTransport. rewrite contains_after.
  assert (exists t, after_sub (lit "TCP") (tcp_transport i1 i2) = Some t) as [t ->].
  { eexists. after_walk. }
  rewrite !(parse_pair_absent _ (lit "client_port=")), !(parse_pair_absent _ (lit "server_port="))
    by (done || after_walk).
  rewrite (parse_pair_range _ (lit "interleaved=") i1 i2 [])
    by (done || (by intros ? [= <-]) || (rewrite app_nil_r; after_walk)).
  done.
Qed.

(** ** Reading responses back *)

Lemma parse_cseq_to_string z : is_int z -> RtspParser.parse_cseq (to_string z) = z.
Proof.
  intros Hz. unfold RtspParser.parse_cseq. rewrite <-(app_nil_r (to_string z)) at 1.
  rewrite strtol_to_string by done. destruct (to_string_cons z) as (c & l & ->).
  rewrite len_nil, len_cons. pose proof (len_nonneg l).
  rewrite (proj2 (Z.eqb_neq 0 _)) by lia. by rewrite i32_small.
Qed.

Lemma to_string_token z : - 2 ^ 63 <= z < 2 ^ 64 -> token (to_string z).
Proof.
  split; [|by apply to_string_solid]. by destruct (to_string_cons z) as (? & ? & ->).
Qed.

(** A status line's first three words; the third is the first of the reason. *)
Lemma parse_status_start code w k r :
  is_int code -> token w -> (forall c, head k = Some c -> isspace c = true) ->
  RtspParser.ParseRequestLine (status_start code (w ++ k)) r =
  (Status.Ok, mkRtspRequest kUnknown (to_string code) w (cseq r) (headers r) (body r)
     (transport r)).
Proof.
  intros Hc Hw Hk. unfold RtspParser.ParseRequestLine, status_start.
  assert (token kRtspVersion) by by split.
  assert (token (to_string code)) by by apply to_string_token, is_int_wide.
  rewrite next_token_app by (done || by intros ? [= <-]).
  change (lit " " ++ ?x) with (" "%char :: x). rewrite next_token_space.
  change (lit " " ++ ?x) with (" "%char :: x).
  rewrite next_token_app by (done || by intros ? [= <-]).
  rewrite next_token_space, next_token_app by done. done.
Qed.

Lemma status_start_one_line code reason :
  is_int code -> one_line reason -> one_line (status_start code reason).
Proof.
  intros Hc Hr. unfold one_line, status_start in *.
  assert (index_of LF (to_string code) = None) as Hn
    by by apply token_one_line, to_string_token, is_int_wide.
  rewrite !index_of_app, Hn, Hr. done.
Qed.

Lemma response_reads_back code w k hs b r :
  is_int code -> token w -> (forall c, head k = Some c -> isspace c = true) ->
  one_line (w ++ k) -> Forall header_ok hs ->
  len (message (status_start code (w ++ k)) hs b) <= kMaxRtspRequestDataLen ->
  exists r', RtspParser.Parse (Some (message (status_start code (w ++ k)) hs b))
      (len (message (status_start code (w ++ k)) hs b)) r = Some (Status.Ok, r') /\
    url r' = to_string code /\ headers r' = fold_left store_header hs [] /\
    body r' = mjoin ((fun l => l ++ [LF]) <$> split_lines b) /\
    fields_agree (transport r) r'.
Proof.
  intros Hc Hw Hk Hline Hhs Hlen. set (d := message _ hs b) in *.
  edestruct (parse_message (status_start code (w ++ k)) hs b r)
    as (r' & Hp & [_ Hu _] & Hh & Hb & Ha);
    [by apply status_start_one_line|done|done|by apply parse_status_start|done|done|].
  exists r'. split; [|done]. fold d in Hp. rewrite Parse_text, ztake_all; [done|lia| |done].
  split; [|lia]. unfold d, message, status_start. rewrite !len_app.
  change (len kRtspVersion) with 8. change (len (lit " ")) with 1.
  pose proof (len_nonneg (to_string code)). pose proof (len_nonneg w).
  pose proof (len_nonneg k). pose proof (len_nonneg b).
  pose proof (len_nonneg (mjoin ((fun h => header_line h ++ crlf) <$> hs))).
  pose proof (len_nonneg crlf). lia.
Qed.

Lemma solid_header k v :
  index_of ":"%char k = None -> solid k -> solid v -> tolower <$> k <> lit "transport" ->
  header_ok (k, v).
Proof. intros. by apply header_ok_plain; auto using solid_one_line, solid_trim. Qed.

Lemma cseq_header z : is_int z -> header_ok (lit "CSeq", to_string z).
Proof. intros. apply solid_header; [done|done| |done]. by apply to_string_solid, is_int_wide. Qed.

Lemma session_header sid : solid sid -> header_ok (lit "Session", sid).
Proof. intros. by apply solid_header. Qed.

Lemma length_header {A} (l : list A) :
  len l < 2 ^ 64 -> header_ok (lit "Content-Length", to_string (len l)).
Proof.
  intros. pose proof (len_nonneg l). apply solid_header; [done|done| |done].
  apply to_string_solid. lia.
Qed.

Lemma transport_header t info :
  solid t -> RtspParser.ParseTransport t = Some info -> header_ok (lit "Transport", t).
Proof.
  intros. apply header_ok_plain; [done|done|by apply solid_one_line|by apply solid_trim|].
  intros _. by eexists.
Qed.

Lemma udp_transport_solid c1 c2 s1 s2 :
  is_int c1 -> is_int c2 -> is_int s1 -> is_int s2 -> solid (udp_transport c1 c2 s1 s2).
Proof.
  intros. unfold udp_transport.
  repeat (apply solid_app; split); try done; by apply to_string_solid, is_int_wide.
Qed.

Lemma tcp_transport_solid i1 i2 : is_int i1 -> is_int i2 -> solid (tcp_transport i1 i2).
Proof.
  intros. unfold tcp_transport.
  repeat (apply solid_app; split); try done; by apply to_string_solid, is_int_wide.
Qed.

(** ** Lengths *)

Lemma len_header_text k v hs :
  len (RtspBuilder.header_text ((k, v) :: hs)) =
  len k + len v + 4 + len (RtspBuilder.header_text hs).
Proof.
  unfold RtspBuilder.header_text. rewrite fmap_cons, mjoin_cons. cbn [fst snd].
  rewrite !len_app. change (len (lit ": ")) with 2. change (len crlf) with 2. lia.
Qed.

Lemma len_add_session c t sid :
  0 < len (RtspBuilder.BuildResponse_headers 200 (lit "OK")
    (RtspBuilder.add_session sid [(lit "CSeq", to_string c); (lit "Transport", t)])) <=
  len sid + len t + 100.
Proof.
  pose proof (len_to_string c). pose proof (len_nonneg (to_string c)).
  pose proof (len_nonneg sid). pose proof (len_nonneg t).
  unfold RtspBuilder.BuildResponse_headers. rewrite !len_app.
  change (len (RtspBuilder.status_line 200 (lit "OK"))) with 17. change (len crlf) with 2.
  destruct sid as [|x sid].
  - cbn [RtspBuilder.add_session]. rewrite !len_header_text.
    change (len (RtspBuilder.header_text [])) with 0.
    change (len (lit "CSeq")) with 4. change (len (lit "Transport")) with 9. lia.
  - change (RtspBuilder.add_session (x :: sid) _) with
      [(lit "CSeq", to_string c); (lit "Session", x :: sid); (lit "Transport", t)].
    rewrite !len_header_text. change (len (RtspBuilder.header_text [])) with 0.
    change (len (lit "CSeq")) with 4. change (len (lit "Transport")) with 9.
    change (len (lit "Session")) with 7. lia.
Qed.

Lemma len_BuildSetupResponseUdp c sid s1 s2 c1 c2 :
  0 < len (RtspBuilder.BuildSetupResponseUdp c sid s1 s2 c1 c2) <= len sid + 300.
Proof.
  pose proof (len_to_string s1). pose proof (len_to_string s2).
  pose proof (len_to_string c1). pose proof (len_to_string c2).
  assert (Ht : len (udp_transport c1 c2 s1 s2) <= 150).
  { unfold udp_transport. rewrite !len_app.
    change (len (lit "RTP/AVP;unicast;client_port=")) with 28.
    change (len (lit ";server_port=")) with 13. change (len (lit "-")) with 1. lia. }
  pose proof (len_add_session c (udp_transport c1 c2 s1 s2) sid).
  change (RtspBuilder.BuildSetupResponseUdp c sid s1 s2 c1 c2) with
    (RtspBuilder.BuildResponse_headers 200 (lit "OK") (RtspBuilder.add_session sid
      [(lit "CSeq", to_string c); (lit "Transport", udp_transport c1 c2 s1 s2)])). lia.
Qed.

Lemma len_BuildSetupResponse c sid i1 i2 :
  0 < len (RtspBuilder.BuildSetupResponse c sid i1 i2) <= len sid + 300.
Proof.
  pose proof (len_to_string i1). pose proof (len_to_string i2).
  assert (Ht : len (tcp_transport i1 i2) <= 150).
  { unfold tcp_transport. rewrite !len_app.
    change (len (lit "RTP/AVP/TCP;interleaved=")) with 24. change (len (lit "-")) with 1. lia. }
  pose proof (len_add_session c (tcp_transport i1 i2) sid).
  change (RtspBuilder.BuildSetupResponse c sid i1 i2) with
    (RtspBuilder.BuildResponse_headers 200 (lit "OK") (RtspBuilder.add_session sid
      [(lit "CSeq", to_string c); (lit "Transport", tcp_transport i1 i2)])). lia.
Qed.

Lemma len_BuildErrorResponse c code msg :
  0 < len (RtspBuilder.BuildErrorResponse c code msg) <= len msg + 300.
Proof.
  pose proof (len_to_string c). pose proof (len_to_string code).
  pose proof (len_to_string (len msg)). pose proof (len_nonneg msg).
  pose proof (len_nonneg (to_string code)). pose proof (len_nonneg (to_string c)).
  pose proof (len_nonneg (to_string (len msg))).
  assert (0 <= len (RtspBuilder.GetReasonPhrase code) <= 24).
  { unfold RtspBuilder.GetReasonPhrase. repeat case_match; vm_compute; split; discriminate. }
  unfold RtspBuilder.BuildErrorResponse.
  change (om_set (lit "Content-Length") _ _) with
    [(lit "CSeq", to_string c); (lit "Content-Length", to_string (len msg));
     (lit "Content-Type", kContentTypeText)].
  unfold RtspBuilder.BuildResponse_body, RtspBuilder.status_line, RtspBuilder.header_text.
  rewrite !fmap_cons, !mjoin_cons. cbn [fst snd fmap list_fmap mjoin list_join].
  rewrite !len_app. change (len []) with 0.
  change (len kRtspVersion) with 8. change (len (lit " ")) with 1. change (len crlf) with 2.
  change (len (lit ": ")) with 2. change (len (lit "CSeq")) with 4.
  change (len (lit "Content-Length")) with 14. change (len (lit "Content-Type")) with 12.
  change (len kContentTypeText) with 10. lia.
Qed.

(** Setting a header adds at most one line. *)
Lemma len_header_set k v hs :
  len (RtspBuilder.header_text (om_set k v hs)) <=
  len k + len v + 4 + len (RtspBuilder.header_text hs).
Proof.
  pose proof (len_nonneg k). pose proof (len_nonneg v).
  induction hs as [|[k' v'] hs IH]; simpl; [by rewrite len_header_text|].
  pose proof (len_nonneg k'). pose proof (len_nonneg v').
  destruct (key_ltb k k'); [|destruct (key_ltb k' k)]; rewrite !len_header_text; lia.
Qed.

Lemma len_session_set sid hs :
  len (RtspBuilder.header_text (RtspBuilder.add_session sid hs)) <=
  len sid + 11 + len (RtspBuilder.header_text hs).
Proof.
  unfold RtspBuilder.add_session. destruct sid as [|c sid]; [rewrite len_nil; lia|].
  pose proof (len_header_set (lit "Session") (c :: sid) hs) as H.
  change (len (lit "Session")) with 7 in H. lia.
Qed.

Lemma len_headers_response sid hs :
  len (RtspBuilder.BuildResponse_headers 200 (lit "OK") (RtspBuilder.add_session sid hs)) <=
  len sid + 30 + len (RtspBuilder.header_text hs).
Proof.
  pose proof (len_session_set sid hs). unfold RtspBuilder.BuildResponse_headers.
  rewrite !len_app. change (len (RtspBuilder.status_line 200 (lit "OK"))) with 17.
  change (len crlf) with 2. lia.
Qed.

Lemma len_cseq_header c :
  len (RtspBuilder.header_text (om_set (lit "CSeq") (to_string c) [])) <= 30.
Proof.
  pose proof (len_header_set (lit "CSeq") (to_string c) []) as H. pose proof (len_to_string c).
  change (len (lit "CSeq")) with 4 in H. change (len (RtspBuilder.header_text [])) with 0 in H.
  lia.
Qed.

(** The responses without a body, and the description, have bounded lengths. *)
Lemma len_plain_responses c sid :
  len (RtspBuilder.BuildOptionsResponse c sid) <= len sid + 300 /\
  len (RtspBuilder.BuildPlayResponse c sid) <= len sid + 300 /\
  len (RtspBuilder.BuildSimpleResponse c sid) <= len sid + 300.
Proof.
  pose proof (len_cseq_header c) as Hc.
  unfold RtspBuilder.BuildOptionsResponse, RtspBuilder.BuildPlayResponse,
    RtspBuilder.BuildSimpleResponse.
  set (hs := om_set (lit "CSeq") (to_string c) []) in *.
  pose proof (len_headers_response sid hs).
  pose proof (len_headers_response sid (om_set (lit "Public") kRtspOptionsMethods hs)).
  pose proof (len_headers_response sid (om_set (lit "Range") kRtspPlayRange hs)).
  pose proof (len_header_set (lit "Public") kRtspOptionsMethods hs) as Hpub.
  pose proof (len_header_set (lit "Range") kRtspPlayRange hs) as Hrange.
  assert (len (lit "Public") + len kRtspOptionsMethods + 4 <= 200) by (vm_compute; discriminate).
  assert (len (lit "Range") + len kRtspPlayRange + 4 <= 200) by (vm_compute; discriminate).
  lia.
Qed.

Lemma len_BuildDescribeResponse c sdp :
  len (RtspBuilder.BuildDescribeResponse c sdp) <= len sdp + 300.
Proof.
  pose proof (len_cseq_header c) as Hc. unfold RtspBuilder.BuildDescribeResponse.
  set (hs := om_set (lit "CSeq") (to_string c) []) in *.
  set (hs1 := om_set (lit "Content-Type") _ hs).
  pose proof (len_header_set (lit "Content-Type") kContentTypeSdp hs) as H1.
  pose proof (len_header_set (lit "Content-Length") (to_string (len sdp)) hs1) as H2.
  pose proof (len_to_string (len sdp)).
  assert (len (lit "Content-Type") + len kContentTypeSdp + 4 <= 60) by (vm_compute; discriminate).
  change (len (lit "Content-Length")) with 14 in H2. fold hs1 in H1.
  unfold RtspBuilder.BuildResponse_body. rewrite !len_app.
  change (len (RtspBuilder.status_line 200 (lit "OK"))) with 17. change (len crlf) with 2. lia.
Qed.

(** ** Properties *)

(** What a client reads in a response [d]: the status code, the CSeq, the session
    header if there is one, the complete lines of [b] as its body. *)
Definition reads_as (d : bytes) (code cseq_value : Z) (sid b : bytes)
    (more : RtspRequest -> Prop) : Prop :=
  exists r', RtspParser.Parse (Some d) (len d) RtspRequest_init = Some (Status.Ok, r') /\
    url r' = to_string code /\ cseq r' = cseq_value /\
    om_find (lit "session") (headers r') = match sid with [] => None | _ => Some sid end /\
    body r' = mjoin ((fun l => l ++ [LF]) <$> split_lines b) /\
    more r'.

(** From the headers of a built response, given in order, to what is read. *)
Lemma reads_as_intro code w k hs c sid b (more : RtspRequest -> Prop) d :
  d = message (status_start code (w ++ k)) hs b ->
  is_int code -> is_int c -> token w -> (forall c, head k = Some c -> isspace c = true) ->
  one_line (w ++ k) -> Forall header_ok hs -> len d <= kMaxRtspRequestDataLen ->
  om_find (lit "cseq") (fold_left store_header hs []) = Some (to_string c) ->
  om_find (lit "session") (fold_left store_header hs []) =
    match sid with [] => None | _ => Some sid end ->
  (forall r', headers r' = fold_left store_header hs [] ->
     fields_agree TransportInfo_init r' -> more r') ->
  reads_as d code c sid b more.
Proof.
  intros -> Hcode Hc Hw Hk Hline Hhs Hlen Hcs Hses Hmore.
  destruct (response_reads_back code w k hs b RtspRequest_init)
    as (r' & Hp & Hu & Hh & Hb & Ha); [done..|].
  exists r'. split; [exact Hp|]. split_and!; [done| |by rewrite Hh|done|by apply Hmore].
  destruct Ha as [_ Ha _]. by rewrite Ha, Hh, Hcs, parse_cseq_to_string.
Qed.

Ltac reads_with hs :=
  apply (reads_as_intro 200 (lit "OK") [] hs); try done;
  [by repeat first [apply Forall_nil_2|apply Forall_cons_2; [done|]]|intros ? Hh [_ _ Ha]; rewrite Hh in Ha; cbn in Ha; try congruence].

(** C37: The SETUP answer for UDP tells the client what the session decided: read
    back, it has status 200, the CSeq of the request, the session identifier, and
    a UDP transport with exactly the four ports. *)
Theorem BuildSetupResponseUdp_reads_back c sid s1 s2 c1 c2 :
  is_int c -> is_int s1 -> is_int s2 -> is_int c1 -> is_int c2 -> solid sid ->
  len (RtspBuilder.BuildSetupResponseUdp c sid s1 s2 c1 c2) <= kMaxRtspRequestDataLen ->
  reads_as (RtspBuilder.BuildSetupResponseUdp c sid s1 s2 c1 c2) 200 c sid []
    (fun r => transport r = mkTransportInfo true false c1 c2 s1 s2 0 0).
Proof.
  intros Hc Hs1 Hs2 Hc1 Hc2 Hsid Hlen.
  pose proof (ParseTransport_udp c1 c2 s1 s2 Hc1 Hc2 Hs1 Hs2) as Ht.
  pose proof (cseq_header c Hc). pose proof (session_header sid Hsid).
  pose proof (transport_header _ _ (udp_transport_solid c1 c2 s1 s2 Hc1 Hc2 Hs1 Hs2) Ht).
  destruct sid as [|x sid].
  - reads_with [(lit "CSeq", to_string c); (lit "Transport", udp_transport c1 c2 s1 s2)].
  - reads_with [(lit "CSeq", to_string c); (lit "Session", x :: sid);
      (lit "Transport", udp_transport c1 c2 s1 s2)].
Qed.

Lemma BuildSetupResponseUdp_reads_back_witness :
  reads_as (RtspBuilder.BuildSetupResponseUdp 3 (lit "18c0ffee1") 40000 40001 5000 5001)
    200 3 (lit "18c0ffee1") []
    (fun r => transport r = mkTransportInfo true false 5000 5001 40000 40001 0 0).
Proof.
  apply (BuildSetupResponseUdp_reads_back 3 (lit "18c0ffee1") 40000 40001 5000 5001);
    try (vm_compute; split; discriminate); try reflexivity. vm_compute; discriminate.
Defined.

(** The SETUP answer for TCP, read back: status 200, CSeq, session identifier
    and a TCP transport with the two interleaved channels. *)
Theorem BuildSetupResponse_reads_back c sid i1 i2 :
  is_int c -> is_int i1 -> is_int i2 -> solid sid ->
  len (RtspBuilder.BuildSetupResponse c sid i1 i2) <= kMaxRtspRequestDataLen ->
  reads_as (RtspBuilder.BuildSetupResponse c sid i1 i2) 200 c sid []
    (fun r => transport r = mkTransportInfo false true 0 0 0 0 i1 i2).
Proof.
  intros Hc Hi1 Hi2 Hsid Hlen.
  pose proof (ParseTransport_tcp i1 i2 Hi1 Hi2) as Ht.
  pose proof (cseq_header c Hc). pose proof (session_header sid Hsid).
  pose proof (transport_header _ _ (tcp_transport_solid i1 i2 Hi1 Hi2) Ht).
  destruct sid as [|x sid].
  - reads_with [(lit "CSeq", to_string c); (lit "Transport", tcp_transport i1 i2)].
  - reads_with [(lit "CSeq", to_string c); (lit "Session", x :: sid);
      (lit "Transport", tcp_transport i1 i2)].
Qed.

Lemma BuildSetupResponse_reads_back_witness :
  reads_as (RtspBuilder.BuildSetupResponse 3 (lit "18c0ffee1") 0 1) 200 3 (lit "18c0ffee1") []
    (fun r => transport r = mkTransportInfo false true 0 0 0 0 0 1).
Proof.
  apply (BuildSetupResponse_reads_back 3 (lit "18c0ffee1") 0 1);
    try (vm_compute; split; discriminate); try reflexivity. vm_compute; discriminate.
Defined.

(** The answers to OPTIONS, PLAY and the simple methods, read back: status
    200, CSeq, the session identifier when there is one, no body. *)
Theorem plain_responses_read_back c sid d :
  is_int c -> solid sid -> len d <= kMaxRtspRequestDataLen ->
  d = RtspBuilder.BuildOptionsResponse c sid \/
  d = RtspBuilder.BuildPlayResponse c sid \/
  d = RtspBuilder.BuildSimpleResponse c sid ->
  reads_as d 200 c sid [] (fun r => transport r = TransportInfo_init).
Proof.
  intros Hc Hsid Hlen Hd.
  pose proof (cseq_header c Hc). pose proof (session_header sid Hsid).
  assert (header_ok (lit "Public", kRtspOptionsMethods))
    by (by apply header_ok_plain).
  assert (header_ok (lit "Range", kRtspPlayRange)) by (by apply header_ok_plain).
  destruct sid as [|x sid], Hd as [-> |[-> | ->]].
  - reads_with [(lit "CSeq", to_string c); (lit "Public", kRtspOptionsMethods)].
  - reads_with [(lit "CSeq", to_string c); (lit "Range", kRtspPlayRange)].
  - reads_with [(lit "CSeq", to_string c)].
  - reads_with [(lit "CSeq", to_string c); (lit "Public", kRtspOptionsMethods);
      (lit "Session", x :: sid)].
  - reads_with [(lit "CSeq", to_string c); (lit "Range", kRtspPlayRange);
      (lit "Session", x :: sid)].
  - reads_with [(lit "CSeq", to_string c); (lit "Session", x :: sid)].
Qed.

Lemma plain_responses_read_back_witness :
  reads_as (RtspBuilder.BuildPlayResponse 4 (lit "ab")) 200 4 (lit "ab") []
    (fun r => transport r = TransportInfo_init).
Proof.
  apply (plain_responses_read_back 4 (lit "ab"));
    [vm_compute; split; discriminate|reflexivity|vm_compute; discriminate|].
  right. left. reflexivity.
Defined.

(** The [Content-Length] header of a read response is the length of [b]. *)
Definition announces (b : bytes) (r : RtspRequest) : Prop :=
  om_find (lit "content-length") (headers r) = Some (to_string (len b)).

Lemma len_body start hs b : len b <= len (message start hs b).
Proof.
  unfold message. rewrite !len_app. pose proof (len_nonneg crlf).
  pose proof (len_nonneg start).
  pose proof (len_nonneg (mjoin ((fun h => header_line h ++ crlf) <$> hs))). lia.
Qed.

(** The first word of a reason phrase, and what follows it. *)
Lemma reason_words code :
  exists w k, RtspBuilder.GetReasonPhrase code = w ++ k /\ token w /\
    (forall c, head k = Some c -> isspace c = true) /\ one_line (w ++ k).
Proof.
  set (w := fst (span (fun c => negb (isspace c)) (RtspBuilder.GetReasonPhrase code))).
  set (k := snd (span (fun c => negb (isspace c)) (RtspBuilder.GetReasonPhrase code))).
  exists w, k. unfold w, k. rewrite span_app. split; [done|].
  unfold RtspBuilder.GetReasonPhrase. repeat case_match; by split_and!; try (by intros ? [= <-]).
Qed.

(** An error answer, read back: the status code asked for, the CSeq, the
    message as body, and a [Content-Length] that is its length. *)
Theorem BuildErrorResponse_reads_back c code msg :
  is_int c -> is_int code ->
  len (RtspBuilder.BuildErrorResponse c code msg) <= kMaxRtspRequestDataLen ->
  reads_as (RtspBuilder.BuildErrorResponse c code msg) code c [] msg (announces msg).
Proof.
  intros Hc Hcode Hlen. destruct (reason_words code) as (w & k & Hr & Hw & Hk & Hline).
  set (hs := [(lit "CSeq", to_string c); (lit "Content-Length", to_string (len msg));
    (lit "Content-Type", kContentTypeText)]).
  assert (Hd : RtspBuilder.BuildErrorResponse c code msg =
    message (status_start code (w ++ k)) hs msg).
  { rewrite <-Hr. apply BuildResponse_body_message. }
  rewrite Hd in *. pose proof (len_body (status_start code (w ++ k)) hs msg).
  assert (len msg < 2 ^ 64) by (unfold kMaxRtspRequestDataLen in Hlen; lia).
  apply (reads_as_intro code w k hs); try done.
  - repeat first [apply Forall_nil_2|apply Forall_cons_2];
      [by apply cseq_header|by apply length_header|by apply header_ok_plain].
  - intros r Hh _. unfold announces. by rewrite Hh.
Qed.

Lemma BuildErrorResponse_reads_back_witness :
  reads_as (RtspBuilder.BuildErrorResponse 5 451 (lit "No session id")) 451 5 []
    (lit "No session id") (announces (lit "No session id")).
Proof.
  apply (BuildErrorResponse_reads_back 5 451); vm_compute; split || idtac; discriminate.
Defined.

(** The DESCRIBE answer, read back: status 200, the CSeq, the session
    description as body, and a [Content-Length] that is its length. *)
Theorem BuildDescribeResponse_reads_back c sdp :
  is_int c -> len (RtspBuilder.BuildDescribeResponse c sdp) <= kMaxRtspRequestDataLen ->
  reads_as (RtspBuilder.BuildDescribeResponse c sdp) 200 c [] sdp (announces sdp).
Proof.
  intros Hc Hlen.
  set (hs := [(lit "CSeq", to_string c); (lit "Content-Length", to_string (len sdp));
    (lit "Content-Type", kContentTypeSdp)]).
  assert (Hd : RtspBuilder.BuildDescribeResponse c sdp =
    message (status_start 200 (lit "OK")) hs sdp) by apply BuildResponse_body_message.
  rewrite Hd in *. pose proof (len_body (status_start 200 (lit "OK")) hs sdp).
  assert (len sdp < 2 ^ 64) by (unfold kMaxRtspRequestDataLen in Hlen; lia).
  apply (reads_as_intro 200 (lit "OK") [] hs); try done.
  - repeat first [apply Forall_nil_2|apply Forall_cons_2];
      [by apply cseq_header|by apply length_header|by apply header_ok_plain].
  - intros r Hh _. unfold announces. by rewrite Hh.
Qed.

Lemma BuildDescribeResponse_reads_back_witness :
  reads_as (RtspBuilder.BuildDescribeResponse 2 (lit "v=0" ++ crlf)) 200 2 []
    (lit "v=0" ++ crlf) (announces (lit "v=0" ++ crlf)).
Proof.
  apply (BuildDescribeResponse_reads_back 2 (lit "v=0" ++ crlf));
    [vm_compute; split; discriminate|vm_compute; discriminate].
Defined.
