(* ===== verification/Forwarder.v ===== *)
(** * RTP forwarding (src/src/rtp/rtp_forwarder.h, rtp_forwarder.cc) *)
From S2P Require Import Prelude Status Kernel SampleKernel ByteQueue RingBuf FdGuard Conn.

Record RtpPacket := mkRtpPacket { data : ptr; plen : Z; stream_index : Z }.

Record UdpEndpoint := mkUdpEndpoint { ep_fd : Z; ep_addr : sockaddr_in }.

Module RtpForwarder.
Section RtpForwarder.
Context `{K : Kernel} {Q : Type} `{BQ : !ByteQueue Q}.

(** The four bytes stored in a non-null [header]. *)
Definition BuildInterleavedHeader (channel length : Z) : bytes :=
  [kRtpInterleavedMarker; byte_of channel;
   byte_of (Z.land (Z.shiftr length 8) 255); byte_of (Z.land length 255)].

Definition invalid_argument : status := Status.InvalidArgument (lit "invalid argument").

(** [conn] is what the pointer designates; null: [None]. *)
Definition ForwardTcp (conn : option (connection Q)) (packet : RtpPacket)
    : M (status * option (connection Q)) :=
  match conn, data packet with
  | Some c, Some _ =>
    if plen packet =? 0 then mret (invalid_argument, conn)
    else if Connection.IsClosed c
    then mret (Status.Closed (lit "connection closed"), conn)
    else if kMaxRtpPacketSize <? plen packet
    then mret (Status.InvalidArgument (lit "packet too large"), conn)
    else
      let header := BuildInterleavedHeader (stream_index packet) (plen packet) in
      let iov := [mkIovec (Some header) 4; mkIovec (data packet) (plen packet)] in
      '(ret, c) ← Connection.SendV c (Some iov) 2 (u64 (4 + plen packet));
      if ret <? 0 then mret (Status.NetworkError (lit "send failed"), Some c)
      else mret (Status.Ok, Some c)
  | _, _ => mret (invalid_argument, conn)
  end.

Definition ForwardUdp (endpoint : UdpEndpoint) (packet : RtpPacket) : M status :=
  if ep_fd endpoint <? 0 then mret invalid_argument
  else match data packet with
  | None => mret invalid_argument
  | Some m =>
    if plen packet =? 0 then mret invalid_argument
    else
      d ← ub (mem_read m 0 (plen packet));
      a ← sys (SysSendto (ep_fd endpoint) d (ep_addr endpoint));
      if a_ret a <? 0 then
        e ← get_errno;
        if Connection.would_block e
        then mret (Status.ResourceExhausted (lit "sendto would block"))
        else mret (Status.NetworkError (lit "sendto failed"))
      else mret Status.Ok
  end.
End RtpForwarder.
End RtpForwarder.

Section facts.
Context `{K : Kernel} `{KL : !KernelLaws} {Q : Type} `{BQ : !ByteQueue Q}
  `{BL : !ByteQueueLaws Q}.
Implicit Types c : connection Q.

(** The interleaved frame of a packet: header and payload. *)
Definition frame_of (m : bytes) (n channel : Z) : bytes :=
  RtpForwarder.BuildInterleavedHeader channel n ++ ztake n m.

Lemma frame_designates m n channel :
  0 < n <= len m ->
  designates [mkIovec (Some (RtpForwarder.BuildInterleavedHeader channel n)) 4;
              mkIovec (Some m) n]
    [RtpForwarder.BuildInterleavedHeader channel n; ztake n m].
Proof.
  intros Hn. repeat constructor.
  - unfold iov_bytes. cbn [iov_base iov_len]. rewrite mem_read_Some by lia.
    by rewrite (zdrop_0 0) by lia.
  - rewrite len_ztake. lia.
Qed.

(** Forwarding over TCP, for a frame that fits the write buffer. *)
Lemma wp_ForwardTcp c m n channel w :
  conn_wf c -> Connection.IsClosed c = false -> 0 < n <= len m -> n <= kMaxRtpPacketSize ->
  4 + n <= bq_capacity (write_buffer_ c) ->
  wp (RtpForwarder.ForwardTcp (Some c) (mkRtpPacket (Some m) n channel)) (fun '(st, o) w' =>
    exists c', o = Some c' /\ frame c c' /\
      exists k, 0 <= k <= 4 + n /\
        stream c' w' = stream c w ++ ztake k (frame_of m n channel) /\
        (Status.ok st = true -> k = 4 + n) /\
        (Status.ok st = false -> k < 4 + n /\
          (k = 0 \/ bq_capacity (write_buffer_ c) <
             len (bq_contents (write_buffer_ c)) + (4 + n)) /\
          ~ assured c (frame_of m n channel))) w.
Proof.
  intros Hwf Hopen Hn Hmax Hfit. unfold RtpForwarder.ForwardTcp. cbn [data plen stream_index].
  rewrite (proj2 (Z.eqb_neq n 0)), Hopen, (proj2 (Z.ltb_ge _ n)), u64_small
    by (unfold kMaxRtpPacketSize in *; lia).
  assert (Hj : mjoin [RtpForwarder.BuildInterleavedHeader channel n; ztake n m] =
    frame_of m n channel) by (cbn; by rewrite app_nil_r).
  assert (Hl : len (frame_of m n channel) = 4 + n).
  { unfold frame_of. rewrite len_app, len_ztake.
    change (len (RtpForwarder.BuildInterleavedHeader channel n)) with 4. lia. }
  wp_step. eapply wp_mono.
  { rewrite <-Hl, <-Hj. eapply wp_SendV; [done|done|reflexivity
      |by apply frame_designates|lia|rewrite Hj; unfold kMaxRtpPacketSize in *; lia]. }
  rewrite Hj. intros [r c'] w' [Hf (k & Hk & Hs & Hout)]. rewrite Hl in *.
  destruct (Z.ltb_spec r 0); wp_step; (eexists; split; [done|]; split; [done|];
    exists k; split; [lia|]; split; [done|]).
  - split; [done|]. intros _. destruct Hout as [[? _]|[(_ & ? & ? & ?)|[? _]]]; [lia|done|lia].
  - split; [|done]. intros _. lia.
Qed.

(** ** Properties *)

(** C25: Forwarding over TCP sends one whole interleaved frame.  For a packet of
    admissible size on an open connection whose write buffer can take the frame,
    [Ok] means the frame joined the output stream whole, and failure means that
    none of it did -- unless the buffer was in use and too full for it, when a
    proper prefix may have joined (and the framing of the stream is lost).  There is
    no failure when the kernel is willing and the buffer has room for the frame. *)
Theorem ForwardTcp_frame c m n channel w :
  conn_wf c -> Connection.IsClosed c = false -> 0 < n <= len m -> n <= kMaxRtpPacketSize ->
  4 + n <= bq_capacity (write_buffer_ c) ->
  wp (RtpForwarder.ForwardTcp (Some c) (mkRtpPacket (Some m) n channel)) (fun '(st, o) w' =>
    exists c', o = Some c' /\ conn_wf c' /\
      exists k, 0 <= k <= 4 + n /\
        stream c' w' = stream c w ++ ztake k (frame_of m n channel) /\
        (Status.ok st = true -> k = 4 + n) /\
        (Status.ok st = false -> k < 4 + n /\
          (k = 0 \/ bq_capacity (write_buffer_ c) <
             len (bq_contents (write_buffer_ c)) + (4 + n)) /\
          ~ assured c (frame_of m n channel))) w.
Proof.
  intros. eapply wp_mono; [by apply wp_ForwardTcp|]. intros [st o] w' (c' & ? & (? & _) & ?).
  by exists c'.
Qed.
End facts.

Lemma ForwardTcp_frame_witness :
  wp (RtpForwarder.ForwardTcp (K := sample_kernel accepting) (Some sample_conn)
    (mkRtpPacket (Some (lit "rtp")) 3 0)) (fun '(st, o) w' =>
    exists c', o = Some c' /\ conn_wf c' /\
      exists k, 0 <= k <= 7 /\
        stream c' w' = stream sample_conn world0 ++ ztake k (frame_of (lit "rtp") 3 0)) world0.
Proof.
  eapply wp_mono.
  - apply (ForwardTcp_frame (K := sample_kernel accepting) sample_conn (lit "rtp") 3 0 world0);
      [apply sample_conn_wf|reflexivity|vm_compute; split; [reflexivity|discriminate]
      |vm_compute; discriminate|vm_compute; discriminate].
  - intros [st o] w' (c' & H1 & H2 & k & H3 & H4 & _). exists c'. split; [exact H1|].
    split; [exact H2|]. exists k. split; [exact H3|exact H4].
Defined.
