(* ===== verification/Session.v ===== *)
(** * Sessions (src/src/core/rtsp_session.h, rtsp_session.cc)

    A session owns its connection and two UDP descriptors.  What it asks of its
    server, the SDP text and a sequence number, are arguments. *)
From S2P Require Import Prelude Status OrderedMap Text Kernel SampleKernel ByteQueue RingBuf.
From S2P Require Import FdGuard Owner Conn Parser Builder Forwarder.

Module SessionState.
Inductive RtspSessionState :=
  | kInit | kOptionsSent | kDescribeSent | kSetupSent | kPlaying | kPaused | kTeardown.

#[global] Instance RtspSessionState_eq_dec : EqDecision RtspSessionState.
Proof. solve_decision. Defined.
End SessionState.

Record rtsp_session (Q : Type) := mkRtspSession {
  conn_ : connection Q;
  state_ : SessionState.RtspSessionState;
  session_id_ : bytes;
  url_ : bytes;
  transport_ : bytes;
  is_udp_ : bool;
  udp_rtp_fd_ : fd_guard;
  udp_rtcp_fd_ : fd_guard;
  client_rtp_addr_ : sockaddr_in;
  client_rtcp_addr_ : sockaddr_in;
  last_activity_sec_ : Z;
}.
Arguments mkRtspSession {Q} _ _ _ _ _ _ _ _ _ _ _.
Arguments conn_ {Q} _.
Arguments state_ {Q} _.
Arguments session_id_ {Q} _.
Arguments url_ {Q} _.
Arguments transport_ {Q} _.
Arguments is_udp_ {Q} _.
Arguments udp_rtp_fd_ {Q} _.
Arguments udp_rtcp_fd_ {Q} _.
Arguments client_rtp_addr_ {Q} _.
Arguments client_rtcp_addr_ {Q} _.
Arguments last_activity_sec_ {Q} _.

Module RtspSession.
Section RtspSession.
Context `{K : Kernel} {Q : Type} `{BQ : !ByteQueue Q}.
Implicit Types s : rtsp_session Q.

Definition with_conn s (c : connection Q) : rtsp_session Q :=
  mkRtspSession c (state_ s) (session_id_ s) (url_ s) (transport_ s) (is_udp_ s)
    (udp_rtp_fd_ s) (udp_rtcp_fd_ s) (client_rtp_addr_ s) (client_rtcp_addr_ s)
    (last_activity_sec_ s).
Definition set_state s st : rtsp_session Q :=
  mkRtspSession (conn_ s) st (session_id_ s) (url_ s) (transport_ s) (is_udp_ s)
    (udp_rtp_fd_ s) (udp_rtcp_fd_ s) (client_rtp_addr_ s) (client_rtcp_addr_ s)
    (last_activity_sec_ s).
Definition with_url s u : rtsp_session Q :=
  mkRtspSession (conn_ s) (state_ s) (session_id_ s) u (transport_ s) (is_udp_ s)
    (udp_rtp_fd_ s) (udp_rtcp_fd_ s) (client_rtp_addr_ s) (client_rtcp_addr_ s)
    (last_activity_sec_ s).
Definition with_transport s t : rtsp_session Q :=
  mkRtspSession (conn_ s) (state_ s) (session_id_ s) (url_ s) t (is_udp_ s)
    (udp_rtp_fd_ s) (udp_rtcp_fd_ s) (client_rtp_addr_ s) (client_rtcp_addr_ s)
    (last_activity_sec_ s).
Definition with_udp_fds s g1 g2 : rtsp_session Q :=
  mkRtspSession (conn_ s) (state_ s) (session_id_ s) (url_ s) (transport_ s) (is_udp_ s)
    g1 g2 (client_rtp_addr_ s) (client_rtcp_addr_ s) (last_activity_sec_ s).
(** [is_udp_ = true] with the two client addresses *)
Definition with_udp_clients s a1 a2 : rtsp_session Q :=
  mkRtspSession (conn_ s) (state_ s) (session_id_ s) (url_ s) (transport_ s) true
    (udp_rtp_fd_ s) (udp_rtcp_fd_ s) a1 a2 (last_activity_sec_ s).
Definition with_activity s t : rtsp_session Q :=
  mkRtspSession (conn_ s) (state_ s) (session_id_ s) (url_ s) (transport_ s) (is_udp_ s)
    (udp_rtp_fd_ s) (udp_rtcp_fd_ s) (client_rtp_addr_ s) (client_rtcp_addr_ s) t.

(** *** What is forwarded to the connection *)

Definition fd s : Z := Connection.fd (conn_ s).
Definition IsClosed s : bool := Connection.IsClosed (conn_ s).
Definition Recv s : M (Z * rtsp_session Q) :=
  '(ret, c) ← Connection.Recv (conn_ s); mret (ret, with_conn s c).
Definition Flush s : M (Z * rtsp_session Q) :=
  '(ret, c) ← Connection.Flush (conn_ s); mret (ret, with_conn s c).
Definition Send s (data : ptr) (n : Z) : M (Z * rtsp_session Q) :=
  '(ret, c) ← Connection.Send (conn_ s) data n; mret (ret, with_conn s c).
Definition SendV s (iov : option (list iovec)) (iovcnt total_len : Z)
    : M (Z * rtsp_session Q) :=
  '(ret, c) ← Connection.SendV (conn_ s) iov iovcnt total_len; mret (ret, with_conn s c).
Definition GetReadBuffer s : bytes := Connection.GetReadBuffer (conn_ s).
Definition GetReadBufferSize s : Z := Connection.GetReadBufferSize (conn_ s).
Definition Consume s (n : Z) : rtsp_session Q := with_conn s (Connection.Consume (conn_ s) n).
Definition Peek s (data : ptr) (size : Z) : option (status * ptr) :=
  Connection.Peek (conn_ s) data size.
(** The connection's default for [max_search_len] is 0. *)
Definition FindSubstring s (substr : ptr) (substr_len : Z) : option Z :=
  Connection.FindSubstring (conn_ s) substr substr_len 0.
Definition RecordDrop s : rtsp_session Q := with_conn s (Connection.RecordDrop (conn_ s)).
Definition RecordSuccess s : rtsp_session Q := with_conn s (Connection.RecordSuccess (conn_ s)).
Definition GetConsecutiveDrops s : Z := Connection.GetConsecutiveDrops (conn_ s).
Definition NeedFlush s : bool := Connection.NeedFlush (conn_ s).
Definition state s : SessionState.RtspSessionState := state_ s.
Definition session_id s : bytes := session_id_ s.

(** [duration_cast<seconds>] of a duration in nanoseconds *)
Definition to_seconds (ns : Z) : Z := Z.quot ns 1000000000.

Definition UpdateActivity s : M (rtsp_session Q) :=
  now ← sys SysSteadyClock; mret (with_activity s (to_seconds (a_ret now))).

(** [seq] is [server_->NextSessionSequence()].  33 bytes hold both numbers. *)
Definition GenerateSessionId (seq : Z) : M bytes :=
  now ← sys SysSystemClock;
  let timestamp := u64 (a_ret now) in
  mret (to_hex timestamp ++ to_hex seq).

Definition RtspSession (seq fd buffer_size : Z) : M (rtsp_session Q) :=
  c ← Connection.Connection fd buffer_size;
  sid ← GenerateSessionId seq;
  UpdateActivity
    (mkRtspSession c SessionState.kInit sid [] [] false FdGuard.FdGuard FdGuard.FdGuard
       sockaddr_zero sockaddr_zero 0).

Definition Close s : M (rtsp_session Q) :=
  let s := set_state s SessionState.kTeardown in
  g1 ← FdGuard.Close (udp_rtp_fd_ s);
  g2 ← FdGuard.Close (udp_rtcp_fd_ s);
  mret (with_udp_fds s g1 g2).

(** [~RtspSession()]: [Close()], then the members' destructors, last member first. *)
Definition destroy s : M unit :=
  s ← Close s;
  _ ← FdGuard.destroy (udp_rtcp_fd_ s);
  _ ← FdGuard.destroy (udp_rtp_fd_ s);
  Connection.destroy (conn_ s).

(** [conn_.Send(response.data(), response.size())]; the result is not looked at. *)
Definition send_response s (response : bytes) : M (rtsp_session Q) :=
  '(_, c) ← Connection.Send (conn_ s) (Some response) (len response);
  mret (with_conn s c).

(** Where [ForwardRtp] sends a packet over UDP. *)
Definition udp_endpoint s (packet : RtpPacket) : UdpEndpoint :=
  if stream_index packet =? 0
  then mkUdpEndpoint (FdGuard.fd (udp_rtp_fd_ s)) (client_rtp_addr_ s)
  else mkUdpEndpoint (FdGuard.fd (udp_rtcp_fd_ s)) (client_rtcp_addr_ s).

Definition ForwardRtp s (packet : RtpPacket) : M (status * rtsp_session Q) :=
  s ← UpdateActivity s;
  if is_udp_ s then
    st ← RtpForwarder.ForwardUdp (udp_endpoint s packet) packet;
    mret (st, s)
  else
    '(st, c) ← RtpForwarder.ForwardTcp (Some (conn_ s)) packet;
    mret (st, with_conn s (default (conn_ s) c)).

Definition IsTimedOut s (connection_timeout_sec session_timeout_sec : Z) : M bool :=
  let timeout_sec :=
    match state_ s with
    | SessionState.kInit | SessionState.kOptionsSent | SessionState.kDescribeSent =>
      connection_timeout_sec
    | _ => session_timeout_sec
    end in
  if timeout_sec <=? 0 then mret false
  else
    now ← sys SysSteadyClock;
    mret (timeout_sec <=? to_seconds (a_ret now) - last_activity_sec_ s).

Definition HandleOptions s (request : RtspRequest) : M (status * rtsp_session Q) :=
  s ← send_response s (RtspBuilder.BuildOptionsResponse (cseq request) []);
  mret (Status.Ok, set_state s SessionState.kOptionsSent).

(** [sdp] is [server_->GetSdp()]. *)
Definition HandleDescribe (sdp : bytes) s (request : RtspRequest)
    : M (status * rtsp_session Q) :=
  let s := with_url s (url request) in
  match sdp with
  | [] =>
    s ← send_response s
      (RtspBuilder.BuildErrorResponse (cseq request) 500 (lit "SDP not configured"));
    mret (Status.FailedPrecondition (lit "SDP not configured"), s)
  | _ =>
    s ← send_response s (RtspBuilder.BuildDescribeResponse (cseq request) sdp);
    mret (Status.Ok, set_state s SessionState.kDescribeSent)
  end.

Definition CreateUdpSocket (port : Z) : M Z :=
  a ← sys (SysSocket AF_INET (Z.lor SOCK_DGRAM SOCK_NONBLOCK) 0);
  let fd := a_ret a in
  if fd <? 0 then mret (-1)
  else
    _ ← sys (SysSetsockopt fd SOL_SOCKET SO_REUSEADDR 1);
    b ← sys (SysBind fd (mkSockaddr AF_INET (htons (u16 port)) INADDR_ANY));
    if a_ret b <? 0 then
      _ ← sys (SysClose fd);
      mret (-1)
    else mret fd.

(** A local port, 0 when [getsockname] fails. *)
Definition local_port (fd : Z) : M Z :=
  a ← sys (SysGetsockname fd);
  mret (if a_ret a =? 0 then ntohs (sin_port (a_addr a)) else 0).

(** The address of the client; all zero when [getpeername] fails. *)
Definition peer_addr (fd : Z) : M sockaddr_in :=
  a ← sys (SysGetpeername fd);
  mret (if a_ret a <? 0 then sockaddr_zero else a_addr a).

Definition with_port (a : sockaddr_in) (port : Z) : sockaddr_in :=
  mkSockaddr (sin_family a) (htons (u16 port)) (sin_addr a).

(** The branch [if (transport.is_udp)] of [HandleSetup]. *)
Definition HandleSetup_udp s (request : RtspRequest) : M (status * rtsp_session Q) :=
  let t := transport request in
  if client_rtp_port t =? 0 then
    s ← send_response s
      (RtspBuilder.BuildErrorResponse (cseq request) 461 (lit "Unsupported Transport"));
    mret (Status.InvalidArgument (lit "UDP without client_port"), s)
  else
    rtp_fd ← CreateUdpSocket 0;
    rtcp_fd ← CreateUdpSocket 0;
    let rtp_fd_guard := FdGuard.FdGuard_of rtp_fd in
    let rtcp_fd_guard := FdGuard.FdGuard_of rtcp_fd in
    if negb (FdGuard.IsValid rtp_fd_guard) || negb (FdGuard.IsValid rtcp_fd_guard) then
      s ← send_response s
        (RtspBuilder.BuildErrorResponse (cseq request) 500 (lit "Internal Server Error"));
      _ ← FdGuard.destroy rtcp_fd_guard;
      _ ← FdGuard.destroy rtp_fd_guard;
      mret (Status.NetworkError (lit "failed to create UDP sockets"), s)
    else
      let '(fd1, rtp_fd_guard) := FdGuard.Release rtp_fd_guard in
      g1 ← FdGuard.Reset (udp_rtp_fd_ s) fd1;
      let '(fd2, rtcp_fd_guard) := FdGuard.Release rtcp_fd_guard in
      g2 ← FdGuard.Reset (udp_rtcp_fd_ s) fd2;
      let s := with_udp_fds s g1 g2 in
      server_rtp_port ← local_port (FdGuard.fd (udp_rtp_fd_ s));
      server_rtcp_port ← local_port (FdGuard.fd (udp_rtcp_fd_ s));
      peer ← peer_addr (Connection.fd (conn_ s));
      let s := with_udp_clients s (with_port peer (client_rtp_port t))
                 (with_port peer (client_rtcp_port t)) in
      s ← send_response s
        (RtspBuilder.BuildSetupResponseUdp (cseq request) (session_id_ s) server_rtp_port
           server_rtcp_port (client_rtp_port t) (client_rtcp_port t));
      let s := set_state s SessionState.kSetupSent in
      _ ← FdGuard.destroy rtcp_fd_guard;
      _ ← FdGuard.destroy rtp_fd_guard;
      mret (Status.Ok, s).

Definition HandleSetup s (request : RtspRequest) : M (status * rtsp_session Q) :=
  let s := with_url s (url request) in
  let s := match om_find (lit "transport") (headers request) with
           | Some v => with_transport s v
           | None => s
           end in
  let t := transport request in
  if is_udp t then HandleSetup_udp s request
  else if is_tcp t || negb (interleaved_rtp t =? 0) then
    s ← send_response s
      (RtspBuilder.BuildSetupResponse (cseq request) (session_id_ s)
         kDefaultRtpChannel kDefaultRtcpChannel);
    mret (Status.Ok, set_state s SessionState.kSetupSent)
  else
    s ← send_response s
      (RtspBuilder.BuildErrorResponse (cseq request) 461 (lit "Unsupported Transport"));
    mret (Status.InvalidArgument (lit "unsupported transport"), s).

Definition HandlePlay s (request : RtspRequest) : M (status * rtsp_session Q) :=
  let s := with_url s (url request) in
  s ← send_response s (RtspBuilder.BuildPlayResponse (cseq request) (session_id_ s));
  mret (Status.Ok, set_state s SessionState.kPlaying).

Definition HandleTeardown s (request : RtspRequest) : M (status * rtsp_session Q) :=
  s ← send_response s (RtspBuilder.BuildSimpleResponse (cseq request) (session_id_ s));
  s ← Close s;
  mret (Status.Ok, s).

Definition HandlePause s (request : RtspRequest) : M (status * rtsp_session Q) :=
  s ← send_response s (RtspBuilder.BuildSimpleResponse (cseq request) (session_id_ s));
  mret (Status.Ok, set_state s SessionState.kPaused).

Definition HandleParameter s (request : RtspRequest) : M (status * rtsp_session Q) :=
  s ← send_response s (RtspBuilder.BuildSimpleResponse (cseq request) (session_id_ s));
  mret (Status.Ok, s).

Definition HandleRequest (sdp : bytes) s (request : RtspRequest)
    : M (status * rtsp_session Q) :=
  match method request with
  | kOptions => HandleOptions s request
  | kDescribe => HandleDescribe sdp s request
  | kSetup => HandleSetup s request
  | kPlay => HandlePlay s request
  | kTeardown => HandleTeardown s request
  | kPause => HandlePause s request
  | kGetParameter | kSetParameter => HandleParameter s request
  | kUnknown =>
    s ← send_response s
      (RtspBuilder.BuildErrorResponse (cseq request) 405 (lit "Method Not Allowed"));
    mret (Status.InvalidArgument (lit "unknown method"), s)
  end.

Definition ProcessData (sdp : bytes) s (data : ptr) (n : Z)
    : M (status * rtsp_session Q) :=
  s ← UpdateActivity s;
  '(st, request) ← ub_at InParser (RtspParser.Parse data n RtspRequest_init);
  if negb (Status.ok st) then mret (st, s)
  else HandleRequest sdp s request.

(** [ProcessData(const std::string&)]: a string ends with a zero byte. *)
Definition ProcessData_string (sdp : bytes) s (data : bytes) : M (status * rtsp_session Q) :=
  ProcessData sdp s (Some (data ++ [NUL])) (len data).
End RtspSession.
End RtspSession.

(** ** Descriptors

    A session holds its connection's descriptor and up to two UDP sockets. *)
Section descriptors.
Context `{K : Kernel} `{KL : !KernelLaws} {Q : Type} `{BQ : !ByteQueue Q}
  `{BL : !ByteQueueLaws Q}.
Implicit Types s : rtsp_session Q.

Definition held_session s : list Z :=
  held (fd_guard_ (conn_ s)) ++ held (udp_rtp_fd_ s) ++ held (udp_rtcp_fd_ s).

(** A session's connection is well formed, its identifier of reasonable length. *)
Record session_ok s : Prop := {
  sok_conn : conn_wf (conn_ s);
  sok_id : len (session_id_ s) < 2 ^ 32;
}.

(** The same descriptors, in the same members, the same input and identifier. *)
Record same_fds s s' : Prop := {
  same_conn_fd : fd_guard_ (conn_ s') = fd_guard_ (conn_ s);
  same_rtp_fd : udp_rtp_fd_ s' = udp_rtp_fd_ s;
  same_rtcp_fd : udp_rtcp_fd_ s' = udp_rtcp_fd_ s;
  same_input : read_buffer_ (conn_ s') = read_buffer_ (conn_ s);
  same_id : session_id_ s' = session_id_ s;
}.

Lemma same_fds_held s s' : same_fds s s' -> held_session s' = held_session s.
Proof. intros [H1 H2 H3 _ _]. unfold held_session. by rewrite H1, H2, H3. Qed.

Lemma same_fds_trans s1 s2 s3 : same_fds s1 s2 -> same_fds s2 s3 -> same_fds s1 s3.
Proof. intros [?????] [?????]. split; congruence. Qed.

(** What every request leaves of the session: a good session, the connection's
    descriptor, its pending input; the ledger moves with the UDP sockets held. *)
Definition settles s (Post : status * rtsp_session Q -> ledger -> Prop) (L : ledger) : Prop :=
  forall st s' L',
    fd_guard_ (conn_ s') = fd_guard_ (conn_ s) ->
    read_buffer_ (conn_ s') = read_buffer_ (conn_ s) -> session_ok s' ->
    (forall x, L' x - cnt x (held_session s') = L x - cnt x (held_session s)) ->
    Post (st, s') L'.

Lemma owns_send_response s d Post L :
  session_ok s -> len d < 2 ^ 63 ->
  (forall s' L', same_fds s s' -> session_ok s' -> (forall x, L' x = L x) -> Post s' L') ->
  owns (RtspSession.send_response s d) Post L.
Proof.
  intros [Hc Hid] Hd HP. unfold RtspSession.send_response. own_step.
  apply owns_Send; [done|intros src [= <-]; pose proof (len_nonneg d); lia|].
  intros r c' L1 Hf Hr Hwf H1. own_step. apply HP; [by split|by split|]. settle.
Qed.

Lemma owns_CreateUdpSocket port Post L :
  (forall fd L', (forall x, L' x = L x + cnt x (held fd)) -> Post fd L') ->
  owns (RtspSession.CreateUdpSocket port) Post L.
Proof.
  intros HP. unfold RtspSession.CreateUdpSocket. do 2 own_step.
  match goal with |- context [a_ret ?a <? 0] => destruct (a_ret a <? 0) eqn:Hfd end.
  - own_step. apply HP. change (held (-1)) with (@nil Z). settle.
  - own_steps; (apply HP; rewrite ?(held_open _ Hfd);
      change (held (-1)) with (@nil Z); settle).
Qed.

Lemma owns_HandleSetup_udp s r Post L :
  session_ok s -> settles s Post L ->
  owns (RtspSession.HandleSetup_udp s r) Post L.
Proof.
  intros Hok HP. unfold RtspSession.HandleSetup_udp.
  assert (Herr : forall msg, len msg < 2 ^ 32 -> forall code,
    len (RtspBuilder.BuildErrorResponse (cseq r) code msg) < 2 ^ 63).
  { intros msg Hm code. pose proof (len_BuildErrorResponse (cseq r) code msg). lia. }
  destruct (client_rtp_port _ =? 0).
  { own_step. apply owns_send_response; [done|by apply Herr|]. intros s1 L1 Hs Hok1 H1. own_step.
    apply HP; [apply Hs|apply Hs|done|]. rewrite (same_fds_held _ _ Hs). settle. }
  own_step. apply owns_CreateUdpSocket. intros fd1 L1 H1.
  own_step. apply owns_CreateUdpSocket. intros fd2 L2 H2.
  unfold FdGuard.FdGuard_of, FdGuard.Release. destruct (_ || _).
  { own_step. apply owns_send_response; [done|by apply Herr|]. intros s1 Ls Hs Hok1 Hl. own_steps.
    apply HP; [apply Hs|apply Hs|done|]. rewrite (same_fds_held _ _ Hs). settle. }
  unfold RtspSession.local_port, RtspSession.peer_addr.
  repeat own_step. set (s0 := RtspSession.with_udp_clients _ _ _).
  assert (Hok0 : session_ok s0) by (destruct Hok; by split).
  apply owns_send_response; [done| |].
  { match goal with |- len (RtspBuilder.BuildSetupResponseUdp ?a ?b ?c ?d ?e ?f) < _ =>
      pose proof (len_BuildSetupResponseUdp a b c d e f) end.
    destruct Hok0 as [_ Hid]. lia. }
  intros s1 Ls [Hc Hr1 Hr2 Hin Hi] [Hwf Hid] Hl. own_steps.
  apply HP; [done|done|by split|]. unfold held_session. simpl in *. rewrite Hc, Hr1, Hr2.
  change (held (-1)) with (@nil Z) in *. settle.
Qed.

(** A response, then a change of the session's own fields. *)
Lemma owns_answer s s0 d (f : rtsp_session Q -> status * rtsp_session Q) Post L :
  session_ok s -> len d < 2 ^ 63 -> settles s Post L -> same_fds s s0 -> conn_ s0 = conn_ s ->
  (forall s1, same_fds s1 (snd (f s1)) /\ conn_ (snd (f s1)) = conn_ s1) ->
  owns (s1 ← RtspSession.send_response s0 d; mret (f s1)) Post L.
Proof.
  intros [Hwf Hid] Hd HP H0 Hc Hf.
  assert (Hok0 : session_ok s0) by (split; [by rewrite Hc|by rewrite (same_id _ _ H0)]).
  own_step. apply owns_send_response; [done|done|]. intros s1 L1 Hs [Hwf1 Hid1] H1. own_step.
  destruct (Hf s1) as [Hf1 Hf2]. destruct (f s1) as [st s2]. simpl in Hf1, Hf2.
  pose proof (same_fds_trans _ _ _ (same_fds_trans _ _ _ H0 Hs) Hf1) as Hsame.
  apply HP; [apply Hsame|apply Hsame| |].
  - split; [by rewrite Hf2|by rewrite (same_id _ _ Hf1)].
  - rewrite (same_fds_held _ _ Hsame). settle.
Qed.

Lemma owns_Close_session s Post L :
  (forall s' L', conn_ s' = conn_ s -> session_id_ s' = session_id_ s ->
    state_ s' = SessionState.kTeardown ->
    (forall x, L' x - cnt x (held_session s') = L x - cnt x (held_session s)) -> Post s' L') ->
  owns (RtspSession.Close s) Post L.
Proof.
  intros HP. unfold RtspSession.Close. repeat own_step. apply HP; [done|done|done|].
  unfold held_session. simpl in *.
  repeat match goal with H : held _ = [] |- _ => rewrite H in *; clear H end. settle.
Qed.

Lemma owns_HandleRequest sdp s r Post L :
  session_ok s -> len sdp < 2 ^ 62 -> settles s Post L ->
  owns (RtspSession.HandleRequest sdp s r) Post L.
Proof.
  intros Hok Hsdp HP. pose proof (sok_id _ Hok) as Hid. pose proof (len_nonneg sdp).
  assert (Herr : forall code msg, len msg < 2 ^ 32 ->
    len (RtspBuilder.BuildErrorResponse (cseq r) code msg) < 2 ^ 63).
  { intros code msg Hm. pose proof (len_BuildErrorResponse (cseq r) code msg). lia. }
  pose proof (len_plain_responses (cseq r) (session_id_ s)) as (_ & Hplay & Hsimple).
  pose proof (len_plain_responses (cseq r) []) as (Hopt & _). change (len []) with 0 in Hopt.
  unfold RtspSession.HandleRequest. destruct (method r).
  - apply (owns_answer s); try done. by apply Herr.
  - apply (owns_answer s s _ (fun s1 => (Status.Ok, RtspSession.set_state s1 SessionState.kOptionsSent)));
      done || lia.
  - unfold RtspSession.HandleDescribe. pose proof (len_BuildDescribeResponse (cseq r) sdp).
    destruct sdp as [|ch sdp].
    + apply (owns_answer s); try done. by apply Herr.
    + apply (owns_answer s _ _ (fun s1 => (Status.Ok,
        RtspSession.set_state s1 SessionState.kDescribeSent))); done || lia.
  - unfold RtspSession.HandleSetup.
    set (s0 := match om_find _ (headers r) with Some v => _ | None => _ end).
    assert (Hs0 : same_fds s s0 /\ conn_ s0 = conn_ s)
      by (unfold s0; by destruct (om_find _ (headers r))).
    destruct Hs0 as [Hs0 Hc0]. pose proof (same_id _ _ Hs0) as Hid0.
    destruct (is_udp _).
    + apply owns_HandleSetup_udp; [split; [rewrite Hc0; apply Hok|by rewrite Hid0]|].
      destruct Hs0 as [Hc ?? Hin _]. intros st s' L' H1 H2 H3 HL.
      apply HP; [congruence|congruence|done|].
      rewrite (same_fds_held s s0) in HL by done. done.
    + destruct (_ || _).
      * apply (owns_answer s s0 _ (fun s1 => (Status.Ok,
          RtspSession.set_state s1 SessionState.kSetupSent))); try done.
        pose proof (len_BuildSetupResponse (cseq r) (session_id_ s0) kDefaultRtpChannel
          kDefaultRtcpChannel). rewrite Hid0 in *. lia.
      * apply (owns_answer s s0); try done. by apply Herr.
  - apply (owns_answer s _ _ (fun s1 => (Status.Ok,
      RtspSession.set_state s1 SessionState.kPlaying))); try done.
    cbn [session_id_ RtspSession.with_url]. lia.
  - apply (owns_answer s _ _ (fun s1 => (Status.Ok,
      RtspSession.set_state s1 SessionState.kPaused))); done || lia.
  - unfold RtspSession.HandleTeardown. own_step.
    apply owns_send_response; [done|lia|]. intros s1 L1 Hs [Hwf1 Hid1] H1. own_step.
    apply owns_Close_session. intros s2 L2 Hc2 Hid2 _ H2. own_step.
    apply HP; [rewrite Hc2; apply Hs|rewrite Hc2; apply Hs|split; [by rewrite Hc2|by rewrite Hid2]|].
    rewrite (same_fds_held _ _ Hs) in H2. settle.
  - apply (owns_answer s); done || lia.
  - apply (owns_answer s); done || lia.
Qed.

Lemma owns_ProcessData sdp s d n Post L :
  session_ok s -> len sdp < 2 ^ 62 -> settles s Post L ->
  owns (RtspSession.ProcessData sdp s d n) Post L.
Proof.
  intros [Hwf Hid] Hsdp HP. unfold RtspSession.ProcessData, RtspSession.UpdateActivity.
  do 6 own_step. match goal with x : status * RtspRequest |- _ => destruct x as [st r] end.
  destruct (negb _).
  - own_step. apply HP; [done|done|by split|].
    change (held_session (RtspSession.with_activity s _)) with (held_session s). settle.
  - apply owns_HandleRequest; [by split|done|]. intros st' s' Lr Hc Hr Hok' H3.
    apply HP; [done|done|done|].
    change (held_session (RtspSession.with_activity s _)) with (held_session s) in H3. settle.
Qed.

(** A packet whose data is as long as it says. *)
Definition packet_ok (p : RtpPacket) : Prop :=
  forall m, data p = Some m -> 0 <= plen p <= len m.

Lemma owns_ForwardUdp ep p Post L :
  packet_ok p -> (forall st L', (forall x, L' x = L x) -> Post st L') ->
  owns (RtpForwarder.ForwardUdp ep p) Post L.
Proof.
  intros Hp HP. unfold RtpForwarder.ForwardUdp.
  destruct (ep_fd ep <? 0); [own_step; apply HP; settle|].
  destruct (data p) as [m|] eqn:Hm; [|own_step; apply HP; settle].
  destruct (plen p =? 0); [own_step; apply HP; settle|]. destruct (Hp m Hm).
  own_step. eapply owns_ub; [apply mem_read_Some; lia|]. intros L1 H1.
  own_steps; (apply HP; settle).
Qed.

Lemma owns_ForwardTcp c p Post L :
  conn_wf c -> packet_ok p ->
  (forall st c' L', fd_guard_ c' = fd_guard_ c -> read_buffer_ c' = read_buffer_ c ->
    conn_wf c' -> (forall x, L' x = L x) -> Post (st, Some c') L') ->
  owns (RtpForwarder.ForwardTcp (Some c) p) Post L.
Proof.
  intros Hwf Hp HP. unfold RtpForwarder.ForwardTcp.
  assert (Hskip : forall st, owns (mret (st, Some c)) Post L)
    by (intros; own_step; by apply HP).
  destruct (data p) as [m|] eqn:Hm; [|apply Hskip]. destruct (Hp m Hm).
  destruct (Z.eqb_spec (plen p) 0); [apply Hskip|].
  destruct (Connection.IsClosed _); [apply Hskip|].
  destruct (Z.ltb_spec kMaxRtpPacketSize (plen p)); [apply Hskip|].
  unfold kMaxRtpPacketSize in *. own_step. apply owns_SendV; [done| |].
  - do 2 eexists. split; [reflexivity|]. split; [by apply frame_designates; lia|].
    cbn [mjoin list_join]. rewrite !len_app, len_nil, len_ztake.
    change (len (RtpForwarder.BuildInterleavedHeader _ _)) with 4.
    rewrite u64_small by lia. split_and!; lia.
  - intros r c' L3 Hc Hr Hwf' H3. destruct (_ <? 0); own_step; (apply HP; [done|done|done|settle]).
Qed.

Lemma owns_ForwardRtp s p Post L :
  session_ok s -> packet_ok p -> settles s Post L -> owns (RtspSession.ForwardRtp s p) Post L.
Proof.
  intros [Hwf Hid] Hp HP. unfold RtspSession.ForwardRtp, RtspSession.UpdateActivity.
  do 4 own_step. cbn [is_udp_ RtspSession.with_activity]. destruct (is_udp_ s).
  - own_step. apply owns_ForwardUdp; [done|]. intros st L3 H3. own_step. apply HP; [done|done|by split|].
    change (held_session (RtspSession.with_activity s _)) with (held_session s). settle.
  - own_step. apply owns_ForwardTcp; [done|done|]. intros st c' L3 Hc Hr Hwf' H3. own_step.
    apply HP; [done|done|by split|]. unfold held_session. cbn in *. rewrite Hc. settle.
Qed.

(** A new session holds its connection's descriptor. *)
Lemma owns_RtspSession seq fd size Post L :
  0 < size < 2 ^ 63 ->
  (forall s L', fd_guard_ (conn_ s) = fd -> session_ok s ->
    held_session s = held fd -> (forall x, L' x = L x) -> Post s L') ->
  owns (RtspSession.RtspSession seq fd size) Post L.
Proof.
  intros Hsize HP. unfold RtspSession.RtspSession, RtspSession.GenerateSessionId,
    RtspSession.UpdateActivity.
  own_step. apply owns_Connection; [done|]. intros c L1 Hc Hwf H1. repeat own_step.
  apply HP; [done|split; [done|]| |settle].
  - cbn [session_id_ RtspSession.with_activity]. rewrite len_app. unfold to_hex. pose proof (len_udigits 16 16 seq).
    match goal with |- len (udigits _ _ ?n) + _ < _ => pose proof (len_udigits 16 16 n) end. lia.
  - unfold held_session. cbn. rewrite Hc.
    change (held FdGuard.FdGuard) with (@nil Z). by rewrite !app_nil_r.
Qed.

Lemma owns_Recv_session s Post L :
  session_ok s ->
  (forall r s' L', fd_guard_ (conn_ s') = fd_guard_ (conn_ s) -> held_session s' = held_session s ->
    session_ok s' -> (forall x, L' x = L x) -> Post (r, s') L') ->
  owns (RtspSession.Recv s) Post L.
Proof.
  intros [Hwf Hid] HP. unfold RtspSession.Recv. own_step. apply owns_Recv; [done|].
  intros r c L1 Hc Hwf1 H1. own_step. apply HP; [done| |by split|settle].
  unfold held_session. cbn. by rewrite Hc.
Qed.

Lemma owns_Flush_session s Post L :
  session_ok s ->
  (forall r s' L', fd_guard_ (conn_ s') = fd_guard_ (conn_ s) -> held_session s' = held_session s ->
    session_ok s' -> (forall x, L' x = L x) -> Post (r, s') L') ->
  owns (RtspSession.Flush s) Post L.
Proof.
  intros [Hwf Hid] HP. unfold RtspSession.Flush. own_step. apply owns_Flush; [done|].
  intros r c L1 Hc _ Hwf1 H1. own_step. apply HP; [done| |by split|settle].
  unfold held_session. cbn. by rewrite Hc.
Qed.

Lemma owns_destroy_session s Post L :
  (forall L', (forall x, L' x = L x - cnt x (held_session s)) -> Post tt L') ->
  owns (RtspSession.destroy s) Post L.
Proof.
  intros HP. unfold RtspSession.destroy. own_step. apply owns_Close_session.
  intros s' L1 Hc _ _ H1. repeat own_step. apply owns_conn_destroy. intros L4 H4.
  apply HP. unfold held_session in *. rewrite Hc in *. settle.
Qed.
End descriptors.

(** ** The protocol, abstractly *)

(** What a request other than SETUP is answered with: the status the handler
    returns, the state the session moves to, the response. *)
Definition protocol {Q} (sdp : bytes) (s : rtsp_session Q) (r : RtspRequest)
    : status * SessionState.RtspSessionState * bytes :=
  let simple := RtspBuilder.BuildSimpleResponse (cseq r) (session_id_ s) in
  match method r with
  | kOptions =>
    (Status.Ok, SessionState.kOptionsSent, RtspBuilder.BuildOptionsResponse (cseq r) [])
  | kDescribe =>
    if decide (sdp = []) then
      (Status.FailedPrecondition (lit "SDP not configured"), state_ s,
       RtspBuilder.BuildErrorResponse (cseq r) 500 (lit "SDP not configured"))
    else (Status.Ok, SessionState.kDescribeSent, RtspBuilder.BuildDescribeResponse (cseq r) sdp)
  | kPlay =>
    (Status.Ok, SessionState.kPlaying, RtspBuilder.BuildPlayResponse (cseq r) (session_id_ s))
  | kPause => (Status.Ok, SessionState.kPaused, simple)
  | kTeardown => (Status.Ok, SessionState.kTeardown, simple)
  | kGetParameter | kSetParameter => (Status.Ok, state_ s, simple)
  | kSetup | kUnknown =>
    (Status.InvalidArgument (lit "unknown method"), state_ s,
     RtspBuilder.BuildErrorResponse (cseq r) 405 (lit "Method Not Allowed"))
  end.

Section facts.
Context `{K : Kernel} `{KL : !KernelLaws} {Q : Type} `{BQ : !ByteQueue Q}
  `{BL : !ByteQueueLaws Q}.
Implicit Types s : rtsp_session Q.

(** A session that can answer: its connection is open and well formed. *)
Record session_open s : Prop := {
  so_wf : conn_wf (conn_ s);
  so_open : Connection.IsClosed (conn_ s) = false;
}.

(** [s'] is [s] but for its connection, on which [d] was sent. *)
Definition sent s (w : world) (d : bytes) s' (w' : world) : Prop :=
  s' = RtspSession.with_conn s (conn_ s') /\
  exists n, send_post (conn_ s) w d n (conn_ s') w'.

Lemma wp_send_response s d w :
  session_open s -> 0 < len d < 2 ^ 63 ->
  wp (RtspSession.send_response s d) (fun s' w' => sent s w d s' w') w.
Proof.
  intros [Hwf Hopen] Hd. unfold RtspSession.send_response. wp_step.
  eapply wp_mono; [apply wp_Send; [done|done|lia|lia]|].
  intros [n c] w1 Hs. wp_step. rewrite ztake_all in Hs by lia.
  split; [done|]. by exists n.
Qed.

(** [d] joins the output stream: all of it, or nothing, or -- only when the write
    buffer cannot take what the kernel left -- a prefix; all of it if the kernel is
    willing and the write buffer has room for it. *)
Definition joins (c : connection Q) (w : world) (d : bytes) (c' : connection Q) (w' : world)
    : Prop :=
  bq_capacity (write_buffer_ c') = bq_capacity (write_buffer_ c) /\
  exists m, 0 <= m <= len d /\
    (m = len d \/ ~ assured c d /\ (m = 0 \/ bq_capacity (write_buffer_ c) < len d - m)) /\
    stream c' w' = stream c w ++ ztake m d.

(** What the client of a connection reads next after [d] was sent on it: its
    queue of pending output never shrinks, and gains [d] or a prefix. *)
Lemma sent_stream s w d s' w' :
  sent s w d s' w' ->
  joins (conn_ s) w d (conn_ s') w'.
Proof.
  intros [_ (n & (_ & _ & Hcap) & [[-> Hs]|[(-> & Hs & Hno)|(? & _ & ? & Hs)]])];
    pose proof (len_nonneg d); (split; [done|]).
  - exists (len d). split; [lia|]. rewrite ztake_all by lia. split; [by left|done].
  - exists 0. split; [lia|]. rewrite ztake_0, app_nil_r by lia. split; [by right; auto|done].
  - exists n. split; [lia|]. split; [|done]. right. split; [|by right].
    unfold assured. pose proof (len_nonneg (bq_contents (write_buffer_ (conn_ s)))). lia.
Qed.

Lemma sent_open s w d s' w' : session_open s -> sent s w d s' w' -> session_open s'.
Proof.
  intros [Hwf Hopen] [_ (n & Hf & _)]. destruct (frame_open _ _ Hf Hopen) as (? & ? & _).
  by split.
Qed.

Lemma wp_FdGuard_Close_stream g c w (Post : Z -> world -> Prop) :
  (forall g' w', held g' = [] -> stream c w' = stream c w -> Post g' w') ->
  wp (FdGuard.Close g) Post w.
Proof.
  intros HP. apply wp_Close; intros Hv.
  - apply HP; [done|]. unfold stream. rewrite trace_after, wire_snoc. simpl.
    by rewrite app_nil_r.
  - apply HP; [|done]. unfold held. by rewrite Hv.
Qed.

Lemma wp_Close_session s w :
  wp (RtspSession.Close s) (fun s' w' =>
    state_ s' = SessionState.kTeardown /\ conn_ s' = conn_ s /\
    session_id_ s' = session_id_ s /\ is_udp_ s' = is_udp_ s /\
    held (udp_rtp_fd_ s') = [] /\ held (udp_rtcp_fd_ s') = [] /\
    stream (conn_ s') w' = stream (conn_ s) w) w.
Proof.
  unfold RtspSession.Close. wp_step.
  apply (wp_FdGuard_Close_stream _ (conn_ s)). intros g1 w1 Hg1 Hs1. wp_step.
  apply (wp_FdGuard_Close_stream _ (conn_ s)). intros g2 w2 Hg2 Hs2. wp_step.
  split_and!; simpl; try done. by rewrite Hs2, Hs1.
Qed.

Lemma protocol_response sdp s r : 0 < len (snd (protocol sdp s r)).
Proof.
  assert (Hb : forall code reason hs b,
    0 < len (RtspBuilder.BuildResponse_body code reason hs b)).
  { intros. rewrite BuildResponse_body_message. unfold message, status_start.
    rewrite !len_app. change (len kRtspVersion) with 8. change (len (lit " ")) with 1.
    pose proof (len_nonneg (to_string code)). pose proof (len_nonneg reason).
    pose proof (len_nonneg b). pose proof (len_nonneg crlf).
    pose proof (len_nonneg (mjoin ((fun h => header_line h ++ crlf) <$> hs))). lia. }
  assert (Hh : forall code reason hs,
    0 < len (RtspBuilder.BuildResponse_headers code reason hs)).
  { intros. rewrite BuildResponse_headers_message, <-BuildResponse_body_message. apply Hb. }
  unfold protocol. destruct (method r);
    [apply Hb|apply Hh|case_decide; apply Hb|apply Hb|apply Hh..].
Qed.

(** One answered request: the response, then a change of the session's own fields. *)
Lemma wp_answer s s0 d (st : status) (f : rtsp_session Q -> rtsp_session Q) w :
  session_open s -> conn_ s0 = conn_ s -> session_id_ s0 = session_id_ s ->
  is_udp_ s0 = is_udp_ s -> 0 < len d < 2 ^ 63 ->
  (forall s1, conn_ (f s1) = conn_ s1 /\ session_id_ (f s1) = session_id_ s1 /\
    is_udp_ (f s1) = is_udp_ s1 /\
    (state_ s1 = state_ s0 -> state_ (f s1) = state_ (f s0))) ->
  wp (s1 ← RtspSession.send_response s0 d; mret (st, f s1)) (fun '(st', s') w' =>
    st' = st /\ state_ s' = state_ (f s0) /\ session_id_ s' = session_id_ s /\
    is_udp_ s' = is_udp_ s /\ session_open s' /\
    joins (conn_ s) w d (conn_ s') w') w.
Proof.
  intros Hs Hc Hid Hudp Hd Hf. wp_step.
  assert (Hs0 : session_open s0) by (destruct Hs as [??]; split; by rewrite Hc).
  eapply wp_mono; [by apply wp_send_response|]. intros s1 w1 Hsent. wp_step.
  pose proof (sent_open _ _ _ _ _ Hs0 Hsent) as [Hwf Hopen].
  pose proof (sent_stream _ _ _ _ _ Hsent) as Hst. destruct Hsent as [Heq _].
  destruct (Hf s1) as (H1 & H2 & H3 & H4). rewrite <-Hc, H1, H2, H3.
  split_and!; [done| | | | |done].
  - apply H4. by rewrite Heq.
  - rewrite Heq. done.
  - rewrite Heq. done.
  - by split; rewrite H1.
Qed.

(** ** SETUP *)

Lemma stream_after (c : connection Q) w call :
  (forall a, accepted (Connection.fd c) (call, a) = []) ->
  stream c (after w call) = stream c w.
Proof.
  intros Hacc. unfold stream. rewrite trace_after, wire_snoc, Hacc. by rewrite app_nil_r.
Qed.

(** The calls that make a UDP socket, on a port the kernel chooses for 0. *)
Definition udp_socket_call : syscall := SysSocket AF_INET (Z.lor SOCK_DGRAM SOCK_NONBLOCK) 0.

Definition udp_bind_call (port fd : Z) : syscall :=
  SysBind fd (mkSockaddr AF_INET (htons (u16 port)) INADDR_ANY).

(** Between [w] and [w'] the socket [fd] was made and bound; or one of the two failed. *)
Definition socket_made (port : Z) (w w' : world) (fd : Z) : Prop :=
  0 <= fd /\ exists a b, asked w w' udp_socket_call a /\ a_ret a = fd /\
    asked w w' (udp_bind_call port fd) b /\ 0 <= a_ret b.

Definition socket_failed (port : Z) (w w' : world) : Prop :=
  exists c a, asked w w' c a /\ a_ret a < 0 /\
    (c = udp_socket_call \/ exists fd, c = udp_bind_call port fd).

Lemma socket_made_within port w0 w w' w1 fd :
  socket_made port w w' fd -> grows (w_trace w0) (w_trace w) -> grows (w_trace w') (w_trace w1) ->
  socket_made port w0 w1 fd.
Proof.
  intros (Hp & a & b & Ha & Hfd & Hb & Hr) Hg Hg'. split; [done|]. exists a, b.
  split_and!; try done; by eapply asked_within.
Qed.

Lemma socket_failed_within port w0 w w' w1 :
  socket_failed port w w' -> grows (w_trace w0) (w_trace w) -> grows (w_trace w') (w_trace w1) ->
  socket_failed port w0 w1.
Proof.
  intros (c & a & Ha & Hr & Hc) Hg Hg'. exists c, a. split_and!; try done. by eapply asked_within.
Qed.

Lemma wp_CreateUdpSocket c port w (Post : Z -> world -> Prop) :
  (forall fd w', stream c w' = stream c w -> grows (w_trace w) (w_trace w') ->
    (fd = -1 /\ socket_failed port w w') \/ socket_made port w w' fd -> Post fd w') ->
  wp (RtspSession.CreateUdpSocket port) Post w.
Proof.
  intros HP. unfold RtspSession.CreateUdpSocket. fold udp_socket_call. wp_step. wp_step.
  set (w1 := after w udp_socket_call). set (a := kernel_answer (w_trace w) udp_socket_call).
  assert (Hs1 : stream c w1 = stream c w) by by apply stream_after.
  pose proof (asked_now w udp_socket_call) as Ha. pose proof (grows_after w udp_socket_call) as Hg.
  fold w1 a in Ha, Hg. destruct (Z.ltb_spec (a_ret a) 0) as [Hneg|Hpos].
  { wp_step. apply HP; [done|done|]. left. split; [done|]. exists udp_socket_call, a. auto. }
  fold (udp_bind_call port (a_ret a)). do 4 wp_step. cbv beta.
  set (w2 := after w1 (SysSetsockopt _ _ _ _)). set (w3 := after w2 (udp_bind_call _ _)).
  set (b := kernel_answer (w_trace w2) (udp_bind_call port (a_ret a))).
  assert (Hg2 : grows (w_trace w1) (w_trace w2)) by apply grows_after.
  assert (Hg3 : grows (w_trace w2) (w_trace w3)) by apply grows_after.
  assert (Hb : asked w w3 (udp_bind_call port (a_ret a)) b).
  { eapply asked_within; [apply (asked_now w2)|by eapply grows_trans|constructor]. }
  assert (Ha3 : asked w w3 udp_socket_call a).
  { eapply asked_within; [exact Ha|constructor|by eapply grows_trans]. }
  assert (Hs3 : stream c w3 = stream c w) by (unfold w3, w2; by rewrite !stream_after).
  assert (Hg03 : grows (w_trace w) (w_trace w3)) by (eapply grows_trans; [|exact Hg3]; by eapply grows_trans).
  destruct (Z.ltb_spec (a_ret b) 0) as [Hneg|Hposb].
  - wp_steps. apply HP; [by rewrite stream_after|eapply grows_trans; [done|apply grows_after]|].
    left. split; [done|]. exists (udp_bind_call port (a_ret a)), b.
    split; [eapply asked_within; [exact Hb|constructor|apply grows_after]|]. eauto.
  - wp_step. apply HP; [done|done|]. right. split; [done|]. by exists a, b.
Qed.

Lemma wp_send_error s code msg w :
  session_open s -> len msg < 2 ^ 32 -> forall c st,
  wp (s1 ← RtspSession.send_response s (RtspBuilder.BuildErrorResponse c code msg);
      mret (st, s1)) (fun '(st', s') w' =>
    st' = (st : status) /\ s' = RtspSession.with_conn s (conn_ s') /\ session_open s' /\
    joins (conn_ s) w (RtspBuilder.BuildErrorResponse c code msg) (conn_ s') w') w.
Proof.
  intros Hs Hmsg c st. pose proof (len_BuildErrorResponse c code msg). wp_step.
  eapply wp_mono; [apply wp_send_response; [done|lia]|]. intros s1 w1 Hsent. wp_step.
  split_and!; [done|by destruct Hsent|by eapply sent_open|by apply sent_stream].
Qed.

(** *** The requests other than SETUP *)

Lemma wp_HandleRequest sdp s r w :
  session_open s -> method r <> kSetup -> len (snd (protocol sdp s r)) < 2 ^ 63 ->
  wp (RtspSession.HandleRequest sdp s r) (fun '(st, s') w' =>
    st = fst (fst (protocol sdp s r)) /\
    state_ s' = snd (fst (protocol sdp s r)) /\
    session_id_ s' = session_id_ s /\ is_udp_ s' = is_udp_ s /\ session_open s' /\
    joins (conn_ s) w (snd (protocol sdp s r)) (conn_ s') w') w.
Proof.
  intros Hs Hm Hlen. pose proof (protocol_response sdp s r) as Hpos.
  unfold RtspSession.HandleRequest, protocol in *. destruct (method r); simpl in *;
    try (apply (wp_answer s s _ _ id) || apply (wp_answer s s _ _ (fun s1 =>
      RtspSession.set_state s1 _)) || done; done || lia || by split_and!).
  - unfold RtspSession.HandleDescribe. destruct sdp; simpl in *.
    + apply (wp_answer s (RtspSession.with_url s (url r)) _ _ id); done || lia || by split_and!.
    + apply (wp_answer s (RtspSession.with_url s (url r)) _ _
        (fun s1 => RtspSession.set_state s1 SessionState.kDescribeSent));
        done || lia || by split_and!.
  - apply (wp_answer s (RtspSession.with_url s (url r)) _ _
      (fun s1 => RtspSession.set_state s1 SessionState.kPlaying));
      done || lia || by split_and!.
  - unfold RtspSession.HandleTeardown. wp_step.
    eapply wp_mono; [by apply wp_send_response; [|lia]|]. intros s1 w1 Hsent. wp_step.
    pose proof (sent_open _ _ _ _ _ Hs Hsent) as [Hwf Hopen].
    pose proof (sent_stream _ _ _ _ _ Hsent) as (Hcap & m & ? & ? & Hst).
    destruct Hsent as [Heq _].
    eapply wp_mono; [apply wp_Close_session|]. intros s2 w2 (H1 & H2 & H3 & H4 & _ & _ & H5).
    wp_step. rewrite H3, H4. split_and!; [done|done|by rewrite Heq|by rewrite Heq| |].
    + by split; rewrite H2.
    + split; [by rewrite H2|]. exists m. split; [done|]. split; [done|]. by rewrite H5.
Qed.

(** *** SETUP for TCP *)

Lemma wp_HandleSetup_tcp s r w :
  session_open s -> is_udp (transport r) = false -> is_tcp (transport r) = true ->
  len (session_id_ s) < 2 ^ 32 ->
  wp (RtspSession.HandleSetup s r) (fun '(st, s') w' =>
    st = Status.Ok /\ state_ s' = SessionState.kSetupSent /\
    session_id_ s' = session_id_ s /\ is_udp_ s' = is_udp_ s /\ session_open s' /\
    joins (conn_ s) w (RtspBuilder.BuildSetupResponse (cseq r) (session_id_ s) 0 1)
      (conn_ s') w') w.
Proof.
  intros Hs Hu Ht Hlen.
  pose proof (len_BuildSetupResponse (cseq r) (session_id_ s) 0 1).
  assert (0 < len (RtspBuilder.BuildSetupResponse (cseq r) (session_id_ s) 0 1) < 2 ^ 63)
    by lia.
  unfold RtspSession.HandleSetup. rewrite Hu, Ht. cbn [orb].
  destruct (om_find _ (headers r)) as [v|].
  - apply (wp_answer s (RtspSession.with_transport (RtspSession.with_url s (url r)) v) _ _
      (fun s1 => RtspSession.set_state s1 SessionState.kSetupSent));
      done || lia || by split_and!.
  - apply (wp_answer s (RtspSession.with_url s (url r)) _ _
      (fun s1 => RtspSession.set_state s1 SessionState.kSetupSent));
      done || lia || by split_and!.
Qed.

(** ** Properties *)

(** C11: The session state machine.  On an open session every request other than
    SETUP is answered as the protocol table says, in whatever state the session
    is: the handler's status, the new state, the response in the output stream
    (whole if the kernel is willing and the write buffer has room); the session identifier and
    the transport chosen stay as they were. *)
Theorem HandleRequest_protocol sdp s r w :
  session_open s -> method r <> kSetup -> len (snd (protocol sdp s r)) < 2 ^ 63 ->
  wp (RtspSession.HandleRequest sdp s r) (fun '(st, s') w' =>
    st = fst (fst (protocol sdp s r)) /\
    state_ s' = snd (fst (protocol sdp s r)) /\
    session_id_ s' = session_id_ s /\ is_udp_ s' = is_udp_ s /\ session_open s' /\
    joins (conn_ s) w (snd (protocol sdp s r)) (conn_ s') w') w.
Proof. apply wp_HandleRequest. Qed.

(** C36: SETUP for TCP.  The session moves to the set-up state and the answer
    grants channels 0 and 1, whatever channels were asked for.  Whether the
    session forwards over UDP stays as it was: a session once set up for UDP is
    answered with a TCP transport but remains a UDP session. *)
Theorem HandleSetup_tcp s r w :
  session_open s -> is_udp (transport r) = false -> is_tcp (transport r) = true ->
  len (session_id_ s) < 2 ^ 32 ->
  wp (RtspSession.HandleSetup s r) (fun '(st, s') w' =>
    st = Status.Ok /\ state_ s' = SessionState.kSetupSent /\
    session_id_ s' = session_id_ s /\ is_udp_ s' = is_udp_ s /\ session_open s' /\
    joins (conn_ s) w (RtspBuilder.BuildSetupResponse (cseq r) (session_id_ s) 0 1)
      (conn_ s') w') w.
Proof. apply wp_HandleSetup_tcp. Qed.

(** The local port of a socket, as the kernel reported it between [w] and [w']; 0 if
    it did not. *)
Definition local_port_of (w w' : world) (fd p : Z) : Prop :=
  exists a, asked w w' (SysGetsockname fd) a /\
    p = if a_ret a =? 0 then ntohs (sin_port (a_addr a)) else 0.

(** The address of the other end of [fd], as the kernel reported it; zero if not. *)
Definition peer_of (w w' : world) (fd : Z) (peer : sockaddr_in) : Prop :=
  exists a, asked w w' (SysGetpeername fd) a /\
    peer = if a_ret a <? 0 then sockaddr_zero else a_addr a.

Definition at_port (peer : sockaddr_in) (port : Z) : sockaddr_in :=
  mkSockaddr (sin_family peer) (htons (u16 port)) (sin_addr peer).

(** What SETUP for UDP leaves when it succeeds: two new sockets, the addresses of the
    client, its host as the kernel reports it. *)
Record udp_ready (w w' : world) s (t : TransportInfo) s' : Prop := {
  ur_state : state_ s' = SessionState.kSetupSent;
  ur_udp : is_udp_ s' = true;
  ur_rtp : socket_made 0 w w' (udp_rtp_fd_ s');
  ur_rtcp : socket_made 0 w w' (udp_rtcp_fd_ s');
  ur_client : exists peer, peer_of w w' (RtspSession.fd s) peer /\
    client_rtp_addr_ s' = at_port peer (client_rtp_port t) /\
    client_rtcp_addr_ s' = at_port peer (client_rtcp_port t);
}.

(** Why SETUP for UDP fails, and the error it answers. *)
Definition udp_failure (w w' : world) (t : TransportInfo) (st : status) : Z * bytes -> Prop :=
  fun '(code, msg) =>
    (client_rtp_port t = 0 /\ st = Status.InvalidArgument (lit "UDP without client_port") /\
      code = 461 /\ msg = lit "Unsupported Transport") \/
    (client_rtp_port t <> 0 /\ st = Status.NetworkError (lit "failed to create UDP sockets") /\
      code = 500 /\ msg = lit "Internal Server Error" /\ socket_failed 0 w w').

(** The session with the URL and the transport of the request noted. *)
Definition requested s (r : RtspRequest) : rtsp_session Q :=
  let s := RtspSession.with_url s (url r) in
  RtspSession.with_transport s (default (transport_ s) (om_find (lit "transport") (headers r))).

Lemma wp_close_stream g (c : connection Q) w (Post : unit -> world -> Prop) :
  (forall w', stream c w' = stream c w -> grows (w_trace w) (w_trace w') -> Post tt w') ->
  wp (FdGuard.destroy g) Post w.
Proof.
  intros HP. unfold FdGuard.destroy. wp_step.
  apply wp_Close; intros _; wp_step; apply HP; try done;
    [by apply stream_after|apply grows_after|constructor].
Qed.

Lemma wp_Reset_stream g fd (c : connection Q) w (Post : Z -> world -> Prop) :
  (forall w', stream c w' = stream c w -> grows (w_trace w) (w_trace w') -> Post fd w') ->
  wp (FdGuard.Reset g fd) Post w.
Proof.
  intros HP. unfold FdGuard.Reset. wp_step.
  apply wp_Close; intros _; wp_step; apply HP; try done;
    [by apply stream_after|apply grows_after|constructor].
Qed.

Lemma joins_stable (c c' : connection Q) w w0 d w' w1 :
  joins c w0 d c' w' -> stream c w0 = stream c w -> stream c' w1 = stream c' w' ->
  joins c w d c' w1.
Proof.
  intros (Hcap & m & ? & ? & Hs) Hw0 Hw1. split; [done|]. exists m. do 2 (split; [done|]).
  by rewrite Hw1, Hs, Hw0.
Qed.

Lemma wp_send_response_grows s d w :
  session_open s -> len (session_id_ s) < 2 ^ 32 -> 0 < len d < 2 ^ 63 ->
  wp (RtspSession.send_response s d) (fun s' w' =>
    s' = RtspSession.with_conn s (conn_ s') /\ session_open s' /\
    joins (conn_ s) w d (conn_ s') w' /\ grows (w_trace w) (w_trace w')) w.
Proof.
  intros Hs Hid Hd.
  assert (Hown : owns (RtspSession.send_response s d) (fun _ _ => True) (fun _ => 0)).
  { apply owns_send_response; [split; [apply Hs|done]|lia|done]. }
  eapply wp_mono; [eapply wp_grows; [by apply wp_send_response|exact Hown]|].
  intros s1 w1 (Hsent & Hg & _). split; [by destruct Hsent|]. split; [by eapply sent_open|].
  split; [by apply sent_stream|done].
Qed.

(** The outcomes of SETUP for UDP, for the branch and for the whole handler. *)
Definition udp_outcome s s0 (r : RtspRequest) (w : world) (st : status) s' (w' : world) : Prop :=
  (st = Status.Ok /\ client_rtp_port (transport r) <> 0 /\
    udp_ready w w' s (transport r) s' /\
    exists p1 p2, local_port_of w w' (udp_rtp_fd_ s') p1 /\
      local_port_of w w' (udp_rtcp_fd_ s') p2 /\
      joins (conn_ s) w
        (RtspBuilder.BuildSetupResponseUdp (cseq r) (session_id_ s) p1 p2
           (client_rtp_port (transport r)) (client_rtcp_port (transport r)))
        (conn_ s') w') \/
  (s' = RtspSession.with_conn s0 (conn_ s') /\
    exists code msg, udp_failure w w' (transport r) st (code, msg) /\
      joins (conn_ s) w (RtspBuilder.BuildErrorResponse (cseq r) code msg) (conn_ s') w').

(** A socket could not be made: an error is answered, and what was made is closed. *)
Lemma wp_udp_sockets_failed s r g1 g2 w w1 st :
  session_open s -> len (session_id_ s) < 2 ^ 32 -> grows (w_trace w) (w_trace w1) ->
  stream (conn_ s) w1 = stream (conn_ s) w -> client_rtp_port (transport r) <> 0 ->
  socket_failed 0 w w1 -> st = Status.NetworkError (lit "failed to create UDP sockets") ->
  wp (s ← RtspSession.send_response s
        (RtspBuilder.BuildErrorResponse (cseq r) 500 (lit "Internal Server Error"));
      _ ← FdGuard.destroy g2; _ ← FdGuard.destroy g1; mret (st, s)) (fun '(st, s') w' =>
    session_open s' /\ session_id_ s' = session_id_ s /\ udp_outcome s s r w st s' w') w1.
Proof.
  intros Hs Hid Hg Hst Hport Hfail ->. wp_step. eapply wp_mono; [apply wp_send_response_grows; [done|done|]|].
  { pose proof (len_BuildErrorResponse (cseq r) 500 (lit "Internal Server Error")) as Hl.
    change (len (lit "Internal Server Error")) with 21 in Hl. lia. }
  intros s1 w2 (Heq & Ho & Hj & Hg2).
  wp_step. apply (wp_close_stream _ (conn_ s1)). intros w3 Hs3 Hg3.
  wp_step. apply (wp_close_stream _ (conn_ s1)). intros w4 Hs4 Hg4. wp_step.
  split; [done|]. split; [by rewrite Heq|]. right. split; [done|].
  exists 500, (lit "Internal Server Error"). split.
  - right. split_and!; try done. eapply socket_failed_within; [exact Hfail|constructor|].
    eapply grows_trans; [exact Hg2|]. by eapply grows_trans.
  - eapply joins_stable; [exact Hj|done|congruence].
Qed.

(** Both were made: the session takes them, asks the kernel for the addresses, and
    answers. *)
Lemma wp_udp_sockets_made s r fd1 fd2 w w1 :
  session_open s -> len (session_id_ s) < 2 ^ 32 -> grows (w_trace w) (w_trace w1) ->
  stream (conn_ s) w1 = stream (conn_ s) w -> client_rtp_port (transport r) <> 0 ->
  socket_made 0 w w1 fd1 -> socket_made 0 w w1 fd2 ->
  wp (let t := transport r in
      g1 ← FdGuard.Reset (udp_rtp_fd_ s) fd1;
      g2 ← FdGuard.Reset (udp_rtcp_fd_ s) fd2;
      let s := RtspSession.with_udp_fds s g1 g2 in
      p1 ← RtspSession.local_port (FdGuard.fd (udp_rtp_fd_ s));
      p2 ← RtspSession.local_port (FdGuard.fd (udp_rtcp_fd_ s));
      peer ← RtspSession.peer_addr (Connection.fd (conn_ s));
      let s := RtspSession.with_udp_clients s
        (RtspSession.with_port peer (client_rtp_port t))
        (RtspSession.with_port peer (client_rtcp_port t)) in
      s ← RtspSession.send_response s
        (RtspBuilder.BuildSetupResponseUdp (cseq r) (session_id_ s) p1 p2
           (client_rtp_port t) (client_rtcp_port t));
      let s := RtspSession.set_state s SessionState.kSetupSent in
      _ ← FdGuard.destroy (-1);
      _ ← FdGuard.destroy (-1);
      mret (Status.Ok, s)) (fun '(st, s') w' =>
    session_open s' /\ session_id_ s' = session_id_ s /\ udp_outcome s s r w st s' w') w1.
Proof.
  intros Hs Hid Hg Hst Hport Hm1 Hm2. cbv zeta.
  wp_step. apply (wp_Reset_stream _ _ (conn_ s)). intros w2 Hs2 Hg2.
  wp_step. apply (wp_Reset_stream _ _ (conn_ s)). intros w3 Hs3 Hg3.
  unfold RtspSession.local_port, RtspSession.peer_addr. cbn [udp_rtp_fd_ udp_rtcp_fd_ conn_
    RtspSession.with_udp_fds]. change (FdGuard.fd fd1) with fd1. change (FdGuard.fd fd2) with fd2.
  do 12 (wp_step; cbv beta zeta).
  set (c1 := SysGetsockname fd1). set (c2 := SysGetsockname fd2).
  set (c3 := SysGetpeername (Connection.fd (conn_ s))).
  set (w4 := after w3 c1). set (w5 := after w4 c2). set (w6 := after w5 c3).
  set (s1 := RtspSession.with_udp_clients (Q := Q) _ _ _).
  assert (Hg4 : grows (w_trace w3) (w_trace w4)) by apply grows_after.
  assert (Hg5 : grows (w_trace w4) (w_trace w5)) by apply grows_after.
  assert (Hg6 : grows (w_trace w5) (w_trace w6)) by apply grows_after.
  assert (Hs1' : session_open s1) by (destruct Hs; by split).
  wp_step. eapply wp_mono; [apply wp_send_response_grows; [done|done|]|].
  { match goal with |- 0 < len (RtspBuilder.BuildSetupResponseUdp ?a ?b ?c ?d ?e ?f) < _ =>
      pose proof (len_BuildSetupResponseUdp a b c d e f) end.
    change (session_id_ s1) with (session_id_ s) in *. lia. }
  intros s2 w7 (Heq & [Hwf Ho] & Hj & Hg7).
  wp_step. apply (wp_close_stream _ (conn_ s2)). intros w8 Hs8 Hg8.
  wp_step. apply (wp_close_stream _ (conn_ s2)). intros w9 Hs9 Hg9. wp_step.
  assert (Hto3 : grows (w_trace w) (w_trace w3))
    by (eapply grows_trans; [exact Hg|]; by eapply grows_trans).
  assert (Hto4 : grows (w_trace w) (w_trace w4)) by by eapply grows_trans.
  assert (Hto5 : grows (w_trace w) (w_trace w5)) by by eapply grows_trans.
  assert (Hfrom6 : grows (w_trace w6) (w_trace w9))
    by (eapply grows_trans; [exact Hg7|]; by eapply grows_trans).
  assert (Hfrom5 : grows (w_trace w5) (w_trace w9)) by by eapply grows_trans.
  assert (Hfrom4 : grows (w_trace w4) (w_trace w9)) by by eapply grows_trans.
  assert (Hfrom1 : grows (w_trace w1) (w_trace w9)).
  { eapply grows_trans; [exact Hg2|]. eapply grows_trans; [exact Hg3|]. by eapply grows_trans. }
  split; [by split|]. split; [by rewrite Heq|]. left. split; [done|]. split; [done|].
  assert (Hf1 : udp_rtp_fd_ s2 = fd1) by by rewrite Heq.
  assert (Hf2 : udp_rtcp_fd_ s2 = fd2) by by rewrite Heq.
  split.
  - split; cbn; rewrite ?Hf1, ?Hf2; try done; [by rewrite Heq|..];
      try (eapply socket_made_within; [eassumption|constructor|done]).
    eexists. split; [|by rewrite Heq].
    eexists. split; [eapply asked_within; [apply (asked_now w5 c3)|done|done]|done].
  - cbn [udp_rtp_fd_ udp_rtcp_fd_ RtspSession.set_state conn_]. rewrite Hf1, Hf2.
    do 2 eexists. split; [|split].
    + eexists. split; [eapply asked_within; [apply (asked_now w3 c1)|done|done]|done].
    + eexists. split; [eapply asked_within; [apply (asked_now w4 c2)|done|done]|done].
    + eapply joins_stable; [exact Hj| |cbn; congruence].
      change (conn_ s1) with (conn_ s). unfold w6, w5, w4. rewrite !stream_after by done. congruence.
Qed.

Lemma wp_HandleSetup_udp s r w :
  session_open s -> len (session_id_ s) < 2 ^ 32 ->
  wp (RtspSession.HandleSetup_udp s r) (fun '(st, s') w' =>
    session_open s' /\ session_id_ s' = session_id_ s /\ udp_outcome s s r w st s' w') w.
Proof.
  intros Hs Hid. unfold RtspSession.HandleSetup_udp.
  destruct (Z.eqb_spec (client_rtp_port (transport r)) 0) as [Hzero|Hport].
  { eapply wp_mono; [by apply wp_send_error|]. intros [st s'] w' (-> & Heq & Ho & Hj).
    split; [done|]. split; [by rewrite Heq|]. right. split; [done|].
    exists 461, (lit "Unsupported Transport"). split; [by left|done]. }
  wp_step. apply (wp_CreateUdpSocket (conn_ s)). intros fd1 w1 Hs1 Hg1 Hf1.
  wp_step. apply (wp_CreateUdpSocket (conn_ s)). intros fd2 w2 Hs2 Hg2 Hf2.
  assert (Hg : grows (w_trace w) (w_trace w2)) by by eapply grows_trans.
  assert (Hst : stream (conn_ s) w2 = stream (conn_ s) w) by congruence.
  unfold FdGuard.FdGuard_of, FdGuard.Release, FdGuard.IsValid.
  assert (Hfailed : socket_failed 0 w w2 -> wp (s ← RtspSession.send_response s
        (RtspBuilder.BuildErrorResponse (cseq r) 500 (lit "Internal Server Error"));
      _ ← FdGuard.destroy fd2; _ ← FdGuard.destroy fd1;
      mret (Status.NetworkError (lit "failed to create UDP sockets"), s)) (fun '(st, s') w' =>
    session_open s' /\ session_id_ s' = session_id_ s /\ udp_outcome s s r w st s' w') w2)
    by (intros; by apply wp_udp_sockets_failed).
  destruct Hf1 as [[-> Hf1]|Hm1].
  { cbn [Z.leb Z.compare negb orb]. apply Hfailed.
    eapply socket_failed_within; [exact Hf1|constructor|done]. }
  destruct Hf2 as [[-> Hf2]|Hm2].
  { change (0 <=? -1) with false. rewrite orb_true_r. apply Hfailed.
    eapply socket_failed_within; [exact Hf2|done|constructor]. }
  rewrite (proj2 (Z.leb_le 0 fd1)), (proj2 (Z.leb_le 0 fd2)) by (apply Hm1 || apply Hm2).
  cbn [negb orb]. apply wp_udp_sockets_made; try done.
  - eapply socket_made_within; [exact Hm1|constructor|done].
  - eapply socket_made_within; [exact Hm2|done|constructor].
Qed.

(** C27: SETUP for UDP, every outcome.  It succeeds only for a non-zero client
    port.  Then the session forwards over UDP from two sockets made for it and bound
    to ports the kernel chose; it sends to the host that the kernel gives as the
    other end of its connection (a zero address if it gives none), at the two ports
    asked for (modulo 2^16); and the answer carries the session identifier, those
    ports as asked, and the local ports the kernel gives for the two sockets.
    Otherwise the client port was zero, or a socket could not be made or bound; the
    answer is 461 or 500, and of the session only the URL and the transport text it
    notes have changed.  Either way the session holds the descriptors it held, plus
    those opened and minus those closed meanwhile: the sockets are its own, the ones
    it had before are closed, and none is left over. *)
Theorem HandleSetup_udp_outcome s r w :
  session_open s -> is_udp (transport r) = true -> len (session_id_ s) < 2 ^ 32 ->
  wp (RtspSession.HandleSetup s r) (fun '(st, s') w' =>
    session_open s' /\ session_id_ s' = session_id_ s /\
    (forall x, cnt x (held_session s') =
      cnt x (held_session s) + (net x (w_trace w') - net x (w_trace w))) /\
    udp_outcome s (requested s r) r w st s' w') w.
Proof.
  intros Hs Hu Hid. unfold RtspSession.HandleSetup. rewrite Hu.
  set (s0 := match om_find _ (headers r) with Some v => _ | None => _ end).
  assert (Hs0 : s0 = requested s r).
  { unfold s0, requested. destruct (om_find _ (headers r)); [done|]. by destruct s. }
  clearbody s0. subst s0.
  assert (Hopen : session_open (requested s r)) by (destruct Hs; by split).
  assert (Hown : owns (RtspSession.HandleSetup_udp (requested s r) r) (fun '(_, s') L' =>
    forall x, L' x = cnt x (held_session s')) (fun x => cnt x (held_session s))).
  { apply owns_HandleSetup_udp; [by split; [apply Hopen|]|]. intros st s' L' _ _ _ HL x.
    specialize (HL x). change (held_session (requested s r)) with (held_session s) in HL. lia. }
  pose proof (wp_HandleSetup_udp (requested s r) r w Hopen Hid) as Hwp. unfold wp in *.
  destruct (RtspSession.HandleSetup_udp _ _ _) as [[st s'] w'|] eqn:Hrun; [|done].
  destruct Hwp as (H1 & H2 & H3). split; [done|]. split; [done|]. split.
  - intros x. pose proof (owns_elim _ _ _ _ _ _ Hown Hrun) as HL. cbn beta iota in HL.
    specialize (HL x). lia.
  - destruct H3 as [(? & ? & [] & ?)|[? ?]]; [left|right; done].
    by split_and!.
Qed.

(** The idle limit of a session: before SETUP the connection's, then the session's. *)
Definition idle_limit s (connection_timeout session_timeout : Z) : Z :=
  if bool_decide (state_ s = SessionState.kInit \/ state_ s = SessionState.kOptionsSent \/
       state_ s = SessionState.kDescribeSent)
  then connection_timeout else session_timeout.

Lemma wp_IsTimedOut s ct st w (Post : bool -> world -> Prop) :
  (forall tr b w',
    let now := RtspSession.to_seconds (a_ret (kernel_answer tr SysSteadyClock)) in
    let limit := idle_limit s ct st in
    (b = true <-> 0 < limit /\ last_activity_sec_ s + limit <= now) -> Post b w') ->
  wp (RtspSession.IsTimedOut s ct st) Post w.
Proof.
  intros HP. unfold RtspSession.IsTimedOut.
  assert (match state_ s with
    | SessionState.kInit | SessionState.kOptionsSent | SessionState.kDescribeSent => ct
    | _ => st
    end = idle_limit s ct st) as -> by (unfold idle_limit; by destruct (state_ s)).
  destruct (Z.leb_spec (idle_limit s ct st) 0); wp_steps;
    apply (HP (w_trace w)); [by split; [|lia]|]. rewrite Z.leb_le. lia.
Qed.

(** Forwarding over UDP sends one datagram, the packet, from the RTP or the
    RTCP socket to the corresponding client address, and leaves the connection
    alone; the kernel's refusal is reported, as resource exhaustion when it would
    block. *)
Theorem ForwardRtp_udp s p m w :
  let rtp := stream_index p =? 0 in
  let fd := if rtp then udp_rtp_fd_ s else udp_rtcp_fd_ s in
  let addr := if rtp then client_rtp_addr_ s else client_rtcp_addr_ s in
  is_udp_ s = true -> 0 <= fd -> data p = Some m -> 0 < plen p <= len m ->
  wp (RtspSession.ForwardRtp s p) (fun '(st, s') w' =>
    conn_ s' = conn_ s /\ state_ s' = state_ s /\
    exists now a,
      w_trace w' = w_trace w ++ [(SysSteadyClock, now);
        (SysSendto fd (ztake (plen p) m) addr, a)] /\
      last_activity_sec_ s' = RtspSession.to_seconds (a_ret now) /\
      (Status.ok st = true <-> 0 <= a_ret a)) w.
Proof.
  intros rtp fd addr Hu Hfd Hm Hp. unfold RtspSession.ForwardRtp, RtspSession.UpdateActivity.
  wp_steps. cbn [is_udp_ RtspSession.with_activity]. rewrite Hu.
  set (ep := RtspSession.udp_endpoint _ p).
  assert (Hep : ep_fd ep = fd /\ ep_addr ep = addr)
    by (unfold ep, RtspSession.udp_endpoint, fd, addr, rtp; by destruct (stream_index p =? 0)).
  destruct Hep as [He1 He2]. wp_step. unfold RtpForwarder.ForwardUdp. rewrite He1, He2, Hm.
  rewrite (proj2 (Z.ltb_ge fd 0)), (proj2 (Z.eqb_neq (plen p) 0)) by lia. wp_step.
  eapply wp_ub; [apply mem_read_Some; lia|]. rewrite (zdrop_0 0) by lia. wp_steps.
  destruct (Z.ltb_spec (a_ret (kernel_answer (w_trace (after w SysSteadyClock))
    (SysSendto fd (ztake (plen p) m) addr))) 0);
    [wp_steps; destruct (Connection.would_block _)|]; wp_steps;
    (split; [done|]; split; [done|]; do 2 eexists; rewrite !trace_after;
     split; [by rewrite <-app_assoc|]; split; [done|]); rewrite ?trace_after in *.
  - split; [discriminate|lia].
  - split; [discriminate|lia].
  - split; [done|by intros].
Qed.
End facts.

(** Session identifiers are distinct.  Two sessions with different sequence
    numbers get different identifiers as long as their creation times have the
    same number of hexadecimal digits. *)
Theorem GenerateSessionId_distinct `{K : Kernel} seq1 seq2 w1 w2 id1 id2 w1' w2' :
  let digits w := len (to_hex (u64 (a_ret (kernel_answer (w_trace w) SysSystemClock)))) in
  0 <= seq1 < 2 ^ 64 -> 0 <= seq2 < 2 ^ 64 -> seq1 <> seq2 -> digits w1 = digits w2 ->
  RtspSession.GenerateSessionId seq1 w1 = Done id1 w1' ->
  RtspSession.GenerateSessionId seq2 w2 = Done id2 w2' -> id1 <> id2.
Proof.
  intros digits H1 H2 Hne Hd Hr1 Hr2.
  assert (Hid : forall seq w id w', RtspSession.GenerateSessionId seq w = Done id w' ->
    id = to_hex (u64 (a_ret (kernel_answer (w_trace w) SysSystemClock))) ++ to_hex seq).
  { intros seq w id w' H. cbv [RtspSession.GenerateSessionId mbind M_bind mret M_ret sys] in H.
    by simplify_eq. }
  rewrite (Hid _ _ _ _ Hr1), (Hid _ _ _ _ Hr2). intros Heq.
  apply app_inj_1 in Heq as [_ Heq]; [by apply to_hex_inj in Heq|].
  unfold digits, len in Hd. lia.
Qed.

(** Without that proviso two identifiers can agree: the two numbers are printed
    without a separator. *)
Example session_id_collision : to_hex 1 ++ to_hex 17 = to_hex 17 ++ to_hex 1.
Proof. reflexivity. Qed.

(** ** Witnesses *)

Definition sample_session : rtsp_session ring_buffer :=
  mkRtspSession sample_conn SessionState.kInit (lit "ab") [] [] false (-1) (-1)
    sockaddr_zero sockaddr_zero 0.

Definition udp_session : rtsp_session ring_buffer :=
  mkRtspSession sample_conn SessionState.kPlaying (lit "ab") [] [] true 8 9
    sockaddr_zero sockaddr_zero 0.

Definition sample_request (m : RtspMethod) (t : TransportInfo) : RtspRequest :=
  mkRtspRequest m (lit "rtsp://h/s") kRtspVersion 2 [] [] t.

Lemma sample_session_open : session_open sample_session.
Proof. split; [apply sample_conn_wf|reflexivity]. Defined.

Lemma HandleRequest_protocol_witness :
  let r := sample_request kPlay TransportInfo_init in
  wp (RtspSession.HandleRequest (K := sample_kernel accepting) [] sample_session r)
    (fun '(st, s') w' => st = Status.Ok /\ state_ s' = SessionState.kPlaying) world0.
Proof.
  intros r. eapply wp_mono.
  - apply (HandleRequest_protocol (K := sample_kernel accepting) [] sample_session r world0);
      [apply sample_session_open|discriminate|reflexivity].
  - intros [st s'] w' (H1 & H2 & _). split; [exact H1|exact H2].
Defined.

Lemma HandleSetup_tcp_witness :
  let r := sample_request kSetup (mkTransportInfo false true 0 0 0 0 2 3) in
  wp (RtspSession.HandleSetup (K := sample_kernel accepting) sample_session r)
    (fun '(st, s') w' => st = Status.Ok /\ state_ s' = SessionState.kSetupSent) world0.
Proof.
  intros r. eapply wp_mono.
  - apply (HandleSetup_tcp (K := sample_kernel accepting) sample_session r world0);
      [apply sample_session_open|reflexivity|reflexivity|reflexivity].
  - intros [st s'] w' (H1 & H2 & _). split; [exact H1|exact H2].
Defined.

(** The kernel makes sockets 8 and 9 and knows the client's host. *)
Definition with_sockets : list event -> syscall -> answer := fun tr c =>
  match c with
  | SysSocket _ _ _ => returns (8 + net 8 tr)
  | SysGetpeername _ => mkAnswer 0 0 [] (mkSockaddr AF_INET 99 7) []
  | _ => accepting tr c
  end.

Lemma HandleSetup_udp_outcome_witness :
  let r := sample_request kSetup (mkTransportInfo true false 5000 5001 0 0 0 0) in
  wp (RtspSession.HandleSetup (K := sample_kernel with_sockets) sample_session r)
    (fun '(st, s') w' => session_open s' /\ udp_rtp_fd_ s' = 8 /\ udp_rtcp_fd_ s' = 9 /\
      client_rtp_addr_ s' = mkSockaddr AF_INET (htons 5000) 7 /\
      net 8 (w_trace w') = 1 /\ net 9 (w_trace w') = 1) world0.
Proof.
  intros r.
  pose proof (HandleSetup_udp_outcome (K := sample_kernel with_sockets) sample_session r world0
    sample_session_open eq_refl eq_refl) as H.
  assert (Hrun : wp (RtspSession.HandleSetup (K := sample_kernel with_sockets) sample_session r)
    (fun '(st, s') w' => udp_rtp_fd_ s' = 8 /\ udp_rtcp_fd_ s' = 9 /\
      client_rtp_addr_ s' = mkSockaddr AF_INET (htons 5000) 7 /\
      net 8 (w_trace w') = 1 /\ net 9 (w_trace w') = 1) world0)
    by (vm_compute; by repeat split).
  unfold wp in *. destruct (RtspSession.HandleSetup _ _ _) as [[st s'] w'|]; [|done].
  destruct H as (H & _). split; [exact H|exact Hrun].
Defined.

Lemma ForwardRtp_udp_witness :
  wp (RtspSession.ForwardRtp (K := sample_kernel accepting) udp_session
    (mkRtpPacket (Some (lit "rtp")) 3 0)) (fun '(st, s') w' =>
    exists now a, w_trace w' = w_trace world0 ++ [(SysSteadyClock, now);
        (SysSendto 8 (ztake 3 (lit "rtp")) sockaddr_zero, a)]) world0.
Proof.
  eapply wp_mono.
  - apply (ForwardRtp_udp (K := sample_kernel accepting) udp_session
      (mkRtpPacket (Some (lit "rtp")) 3 0) (lit "rtp") world0);
      [reflexivity|vm_compute; discriminate|reflexivity
      |vm_compute; split; [reflexivity|discriminate]].
  - intros [st s'] w' (_ & _ & now & a & H & _). exists now, a. exact H.
Defined.

(** A kernel whose clock shows [ms]. *)
Definition clock_at (ms : Z) : list event -> syscall -> answer := fun _ _ => returns ms.

Lemma GenerateSessionId_distinct_witness :
  let K := sample_kernel (clock_at 1700000000000) in
  exists id1 id2 w1 w2,
    RtspSession.GenerateSessionId (K := K) 0 world0 = Done id1 w1 /\
    RtspSession.GenerateSessionId (K := K) 1 world0 = Done id2 w2 /\ id1 <> id2.
Proof.
  intros K. do 4 eexists. split; [reflexivity|]. split; [reflexivity|].
  eapply (GenerateSessionId_distinct (K := K) 0 1 world0 world0);
    [vm_compute; split; [discriminate|reflexivity]|vm_compute; split; [discriminate|reflexivity]
    |discriminate|reflexivity|reflexivity|reflexivity].
Defined.
