(* ===== verification/Stream.v ===== *)
(** * What a client receives

    A session's requests are answered and its packets forwarded on one connection.
    The stream of a connection is what the kernel accepted on it and what its write
    buffer holds; over any sequence of requests, packets and flushes it is made of
    whole responses and whole interleaved frames, as long as the write buffer can
    hold them. *)
From S2P Require Import Prelude Status OrderedMap Kernel SampleKernel ByteQueue RingBuf FdGuard.
From S2P Require Import Owner Sock Conn Parser Builder Forwarder Session.

(** What happens to a session. *)
Inductive session_use :=
  | UseRequest (r : RtspRequest)
  | UsePacket (p : RtpPacket)
  | UseFlush.

(** What a request is answered with, SETUP being for TCP. *)
Definition reply {Q} (sdp : bytes) (s : rtsp_session Q) (r : RtspRequest) : bytes :=
  if decide (method r = kSetup)
  then RtspBuilder.BuildSetupResponse (cseq r) (session_id_ s) 0 1
  else snd (protocol sdp s r).

(** The state a session is in after it. *)
Definition next_state (sdp : bytes) (st : SessionState.RtspSessionState) (k : RtspMethod) :=
  match k with
  | kOptions => SessionState.kOptionsSent
  | kDescribe => if decide (sdp = []) then st else SessionState.kDescribeSent
  | kSetup => SessionState.kSetupSent
  | kPlay => SessionState.kPlaying
  | kPause => SessionState.kPaused
  | kTeardown => SessionState.kTeardown
  | kGetParameter | kSetParameter | kUnknown => st
  end.

(** What the client should get of it. *)
Definition message_of {Q} (sdp : bytes) (s : rtsp_session Q) (u : session_use) : bytes :=
  match u with
  | UseRequest r => reply sdp s r
  | UsePacket p => frame_of (default [] (data p)) (plen p) (stream_index p)
  | UseFlush => []
  end.

Section run.
Context `{K : Kernel} {Q : Type} `{BQ : !ByteQueue Q}.

Definition use_session (sdp : bytes) (s : rtsp_session Q) (u : session_use)
    : M (status * rtsp_session Q) :=
  match u with
  | UseRequest r => RtspSession.HandleRequest sdp s r
  | UsePacket p => RtspSession.ForwardRtp s p
  | UseFlush => '(_, s) ← RtspSession.Flush s; mret (Status.Ok, s)
  end.

Fixpoint session_run (sdp : bytes) (s : rtsp_session Q) (us : list session_use)
    : M (list status * rtsp_session Q) :=
  match us with
  | [] => mret ([], s)
  | u :: us =>
    '(st, s) ← use_session sdp s u;
    '(sts, s) ← session_run sdp s us;
    mret (st :: sts, s)
  end.
End run.

Section stream.
Context `{K : Kernel} `{KL : !KernelLaws} {Q : Type} `{BQ : !ByteQueue Q}
  `{BL : !ByteQueueLaws Q}.
Implicit Types s : rtsp_session Q.

(** SETUP is for TCP. *)
Definition tcp_only (r : RtspRequest) : Prop :=
  method r = kSetup -> is_udp (transport r) = false /\ is_tcp (transport r) = true.

(** No SETUP for UDP; packets as long as they say and of admissible size. *)
Definition use_ok (u : session_use) : Prop :=
  match u with
  | UseRequest r => tcp_only r
  | UsePacket p => exists m, data p = Some m /\ 0 < plen p <= len m /\ plen p <= kMaxRtpPacketSize
  | UseFlush => True
  end.

(** What the use put on the stream: its message, or nothing if the kernel is not
    willing; for a packet, the message exactly when the status reports success. *)
Definition outcome_ok sdp s (u : session_use) (st : status) (o : bytes) : Prop :=
  (o = message_of sdp s u \/ o = [] /\ ~ willing (RtspSession.fd s)) /\
  match u with
  | UsePacket _ => Status.ok st = true <-> o = message_of sdp s u
  | _ => True
  end.

(** An open session that forwards over TCP. *)
Record streaming s : Prop := {
  str_open : session_open s;
  str_tcp : is_udp_ s = false;
  str_id : len (session_id_ s) < 2 ^ 32;
}.

Definition pending s : Z := len (bq_contents (write_buffer_ (conn_ s))).
Definition room s : Z := bq_capacity (write_buffer_ (conn_ s)).

(** From [s] the bytes [o] joined the stream. *)
Record adds s (w : world) (o : bytes) s' (w' : world) : Prop := {
  ad_streaming : streaming s';
  ad_id : session_id_ s' = session_id_ s;
  ad_room : room s' = room s;
  ad_stream : stream (conn_ s') w' = stream (conn_ s) w ++ o;
  ad_fd : RtspSession.fd s' = RtspSession.fd s;
}.

(** *** The queue only grows by what joins the stream *)

Lemma wire_grows fd tr tr' : grows tr tr' -> len (wire fd tr) <= len (wire fd tr').
Proof.
  intros Hg. induction Hg as [|tr' c Hg IH]; [done|]. rewrite wire_snoc, len_app.
  pose proof (len_nonneg (accepted fd (c, kernel_answer tr' c))). lia.
Qed.

Lemma adds_pending s w o s' w' :
  adds s w o s' w' -> grows (w_trace w) (w_trace w') -> pending s' <= pending s + len o.
Proof.
  intros [_ _ _ Hs Hfd] Hg. pose proof (f_equal len Hs) as Hl. unfold stream in Hl.
  unfold RtspSession.fd in Hfd. rewrite Hfd, !len_app in Hl. pose proof (wire_grows (Connection.fd (conn_ s)) _ _ Hg).
  unfold pending. lia.
Qed.

Lemma adds_refl s w : streaming s -> adds s w [] s w.
Proof. intros. split; try done. by rewrite app_nil_r. Qed.

Lemma adds_trans s1 w1 o1 s2 w2 o2 s3 w3 :
  adds s1 w1 o1 s2 w2 -> adds s2 w2 o2 s3 w3 -> adds s1 w1 (o1 ++ o2) s3 w3.
Proof.
  intros [? ? ? H1 ?] [? ? ? H2 ?]. split; try done; try congruence. by rewrite H2, H1, app_assoc.
Qed.

(** The messages depend on the session's identifier only. *)
Lemma message_of_id sdp s s' u :
  session_id_ s' = session_id_ s -> message_of sdp s' u = message_of sdp s u.
Proof.
  intros Hid. destruct u as [r|p|]; [|done..]. cbn [message_of]. unfold reply, protocol.
  rewrite Hid. destruct (method r); try done. by destruct (decide (sdp = [])).
Qed.

(** *** One use *)

Lemma reply_positive sdp s r : 0 < len (reply sdp s r).
Proof.
  unfold reply. destruct (decide (method r = kSetup)); [|apply protocol_response].
  pose proof (protocol_response sdp s (mkRtspRequest kUnknown [] [] 0 [] [] TransportInfo_init)).
  unfold RtspBuilder.BuildSetupResponse. rewrite BuildResponse_headers_message.
  unfold message, status_start. rewrite !len_app. change (len kRtspVersion) with 8.
  repeat match goal with |- context [len ?l] => lazymatch goal with
    | _ : 0 <= len l |- _ => fail | _ => pose proof (len_nonneg l) end end. lia.
Qed.

Lemma wp_reply sdp s r w :
  session_open s -> len (session_id_ s) < 2 ^ 32 -> tcp_only r -> len (reply sdp s r) < 2 ^ 63 ->
  wp (RtspSession.HandleRequest sdp s r) (fun '(st, s') w' =>
    state_ s' = next_state sdp (state_ s) (method r) /\
    session_id_ s' = session_id_ s /\ is_udp_ s' = is_udp_ s /\ session_open s' /\
    joins (conn_ s) w (reply sdp s r) (conn_ s') w') w.
Proof.
  intros Hopen Hid Htcp Hlen. unfold reply in *. destruct (decide (method r = kSetup)) as [Hm|Hm].
  - destruct (Htcp Hm). unfold RtspSession.HandleRequest. rewrite Hm.
    eapply wp_mono; [by apply wp_HandleSetup_tcp|]. by intros [st s'] w' (_ & ? & ? & ? & ? & ?).
  - eapply wp_mono; [by apply wp_HandleRequest|]. intros [st s'] w' (_ & -> & ? & ? & ? & ?).
    split; [|done]. unfold protocol, next_state. destruct (method r); try done.
    by destruct (decide (sdp = [])).
Qed.

Lemma wp_request sdp s r w :
  streaming s -> tcp_only r -> len sdp < 2 ^ 62 -> pending s + len (reply sdp s r) <= room s ->
  wp (RtspSession.HandleRequest sdp s r) (fun '(st, s') w' =>
    grows (w_trace w) (w_trace w') /\
    state_ s' = next_state sdp (state_ s) (method r) /\
    read_buffer_ (conn_ s') = read_buffer_ (conn_ s) /\
    exists o, outcome_ok sdp s (UseRequest r) st o /\ adds s w o s' w') w.
Proof.
  intros [Hopen Htcp Hid] Hm Hsdp Hroom.
  pose proof (bq_capacity_spec _ (conn_write _ (so_wf _ Hopen))) as Hcap. fold (room s) in Hcap.
  fold (pending s) in Hcap. pose proof (len_nonneg (bq_contents (write_buffer_ (conn_ s)))) as Hp.
  fold (pending s) in Hp.
  assert (Hok : session_ok s) by (split; [apply Hopen|done]).
  eapply wp_mono.
  { apply wp_grows with (Post := fun '(_, s') _ => fd_guard_ (conn_ s') = fd_guard_ (conn_ s) /\
      read_buffer_ (conn_ s') = read_buffer_ (conn_ s)) (L := fun _ => 0);
      [apply wp_reply; [done|done|done|lia]|].
    apply owns_HandleRequest; [done|done|]. by intros st s' L' ? ? _ _. }
  intros [st s'] w'
    [(Hst & Hid' & Hudp & Hopen' & Hcap' & k & Hk & Hor & Hs) (Hg & L' & Hfd & Hread)].
  do 3 (split; [done|]). exists (ztake k (reply sdp s r)). split.
  - split; [|done]. destruct Hor as [->|[Hno Hor]]; [left; by apply ztake_all|right].
    split; [apply ztake_0; unfold room in *; lia|]. intros Hw. by apply Hno.
  - split; [|done|done|done|done]. split; [done|congruence|by rewrite Hid'].
Qed.

Lemma wp_packet sdp s p w :
  streaming s -> use_ok (UsePacket p) ->
  pending s + len (message_of sdp s (UsePacket p)) <= room s ->
  wp (RtspSession.ForwardRtp s p) (fun '(st, s') w' =>
    grows (w_trace w) (w_trace w') /\ state_ s' = state_ s /\
    read_buffer_ (conn_ s') = read_buffer_ (conn_ s) /\
    exists o, outcome_ok sdp s (UsePacket p) st o /\ adds s w o s' w') w.
Proof.
  intros [Hopen Htcp Hid] (m & Hm & Hn & Hmax) Hroom. pose proof Hopen as [Hwf Hop].
  assert (Hok : session_ok s) by (by split).
  destruct p as [d n channel]. cbn [data plen stream_index message_of] in *. subst d.
  change (default [] (Some m)) with m in Hroom.
  assert (Hl : len (frame_of m n channel) = 4 + n).
  { unfold frame_of. rewrite len_app, len_ztake.
    change (len (RtpForwarder.BuildInterleavedHeader channel n)) with 4. lia. }
  rewrite Hl in Hroom. unfold pending, room in Hroom.
  pose proof (len_nonneg (bq_contents (write_buffer_ (conn_ s)))).
  eapply wp_mono with (P := fun x w' => (fun '(st, s') w' => exists c', s' = RtspSession.with_conn
      (RtspSession.with_activity s (last_activity_sec_ s')) c' /\ frame (conn_ s) c' /\
      exists k, 0 <= k <= 4 + n /\
        stream c' w' = stream (conn_ s) w ++ ztake k (frame_of m n channel) /\
        (Status.ok st = true -> k = 4 + n) /\
        (Status.ok st = false -> k = 0 /\ ~ willing (RtspSession.fd s))) x w' /\
      grows (w_trace w) (w_trace w') /\ exists L', (fun _ _ => True) x L').
  - apply wp_grows with (L := fun _ => 0).
    2: { apply owns_ForwardRtp; [done| |done]. intros m' [= <-]. cbn. lia. }
    unfold RtspSession.ForwardRtp, RtspSession.UpdateActivity. wp_steps.
    cbn [is_udp_ RtspSession.with_activity conn_]. rewrite Htcp. wp_step.
    eapply wp_mono; [apply wp_ForwardTcp; [done|done|done|done|lia]|].
    intros [st o] w' (c' & -> & Hf & k & Hk & Hs & H1 & H2). wp_step. exists c'.
    split; [done|]. split; [done|]. exists k. split; [done|]. split; [|split; [done|]].
    + rewrite Hs. f_equal. by apply stream_after.
    + intros Hst. destruct (H2 Hst) as (_ & [|] & Hno); [|lia]. split; [done|].
      intros Hw. apply Hno. split; [done|]. rewrite Hl. lia.
  - intros [st s'] w' [(c' & -> & Hf & k & Hk & Hs & H1 & H2) [Hg _]]. split; [done|].
    split; [done|]. split; [by destruct Hf as (_ & [_ Hr _ _] & _)|].
    destruct (frame_open _ _ Hf Hop) as (Hwf' & Hop' & Hcap').
    exists (ztake k (frame_of m n channel)). split.
    + unfold outcome_ok. cbn [message_of data plen stream_index].
      change (default [] (Some m)) with m.
      destruct (Status.ok st).
      * rewrite (H1 eq_refl), ztake_all by lia. by split; [left|].
      * destruct (H2 eq_refl) as [-> Hno]. rewrite ztake_0 by lia. split; [by right|]. split; [done|].
        intros He. rewrite <-He, len_nil in Hl. lia.
    + destruct Hf as (_ & [Hfd _ _ _] & _). split; [|done|done|done|done].
      split; [by split|done|done].
Qed.

Lemma wp_use sdp s u w :
  streaming s -> use_ok u -> len sdp < 2 ^ 62 ->
  pending s + len (message_of sdp s u) <= room s ->
  wp (use_session sdp s u) (fun '(st, s') w' => exists o, outcome_ok sdp s u st o /\
    adds s w o s' w' /\ pending s' <= pending s + len (message_of sdp s u)) w.
Proof.
  intros Hs Hu Hsdp Hroom. pose proof (len_nonneg (bq_contents (write_buffer_ (conn_ s)))).
  assert (Hgoal : forall st s' w', (grows (w_trace w) (w_trace w') /\
      exists o, outcome_ok sdp s u st o /\ adds s w o s' w') ->
    exists o, outcome_ok sdp s u st o /\ adds s w o s' w' /\
      pending s' <= pending s + len (message_of sdp s u)).
  { intros st s' w' (Hg & o & Ho & Ha). exists o. split; [done|]. split; [done|].
    pose proof (adds_pending _ _ _ _ _ Ha Hg). destruct Ho as [[->|[-> _]] _]; [done|].
    pose proof (len_nonneg (message_of sdp s u)). rewrite len_nil in *. lia. }
  destruct u as [r|p|]; cbn [use_session].
  - eapply wp_mono; [by apply wp_request|].
    intros [st s'] w' (? & _ & _ & ?).
    by apply Hgoal.
  - eapply wp_mono; [by apply wp_packet|]. intros [st s'] w' (? & _ & _ & ?). by apply Hgoal.
  - pose proof Hs as [[Hwf Hop] Htcp Hid]. unfold RtspSession.Flush. do 2 wp_step.
    eapply wp_mono; [by apply wp_Flush|]. intros [r c'] w' (Hf & Hst & _ & Hlen). do 2 wp_step.
    destruct (frame_open _ _ Hf Hop) as (Hwf' & Hop' & Hcap').
    exists []. split; [by split; [left|]|]. split.
    + destruct Hf as (_ & [Hfd _ _ _] & _). split; [by split|done|done|by rewrite app_nil_r|done].
    + unfold pending. cbn [conn_ RtspSession.with_conn message_of]. rewrite len_nil. lia.
Qed.

(** All the messages, one after the other. *)
Definition messages sdp s (us : list session_use) : bytes := mjoin (message_of sdp s <$> us).

Lemma messages_id sdp s s' us :
  session_id_ s' = session_id_ s -> messages sdp s' us = messages sdp s us.
Proof.
  intros Hid. unfold messages. f_equal. apply list_fmap_ext. intros. by apply message_of_id.
Qed.

(** ** Properties *)

(** C12: A client over TCP receives whole responses and whole interleaved frames, in
    order.  Take an open session, and any sequence of requests (SETUP for TCP
    only), of packets to forward and of flushes, together small enough for the room its write
    buffer has left.  Whatever the kernel accepts of each call: the stream -- the
    bytes on the wire and those still in the buffer -- gains, for each use in turn,
    its message whole or not at all, and all of them when the kernel is willing (it
    takes something or says that the socket is full); a packet's frame exactly when
    forwarding it reports success. *)
Theorem session_stream_framed sdp s us w :
  streaming s -> Forall use_ok us -> len sdp < 2 ^ 62 ->
  pending s + len (messages sdp s us) <= room s ->
  wp (session_run sdp s us) (fun '(sts, s') w' => streaming s' /\
    exists outs, Forall3 (outcome_ok sdp s) us sts outs /\
      stream (conn_ s') w' = stream (conn_ s) w ++ mjoin outs) w.
Proof.
  intros Hs Hus Hsdp. revert s w Hs.
  induction Hus as [|u us Hu _ IH]; intros s w Hs Hroom; cbn [session_run].
  { wp_step. split; [done|]. exists []. split; [constructor|]. cbn. by rewrite app_nil_r. }
  unfold messages in Hroom. rewrite fmap_cons, mjoin_cons, len_app in Hroom.
  pose proof (len_nonneg (mjoin (message_of sdp s <$> us))). wp_step.
  eapply wp_mono; [apply wp_use; [done..|lia]|].
  intros [st s1] w1 (o & Ho & [Hs1 Hid Hr Hst Hfd] & Hp). wp_step.
  pose proof (messages_id sdp s s1 us Hid) as Hmsg. unfold messages in Hmsg.
  eapply wp_mono; [apply IH; [done|unfold messages; rewrite Hmsg; lia]|].
  intros [sts s2] w2 (Hs2 & outs & Houts & Hst2). wp_step. split; [done|].
  exists (o :: outs). split; [|by rewrite mjoin_cons, app_assoc, <-Hst].
  constructor; [done|]. eapply Forall3_impl; [exact Houts|].
  intros u' st' o' [H1 H2]. unfold outcome_ok. by rewrite <-!(message_of_id sdp s s1 _ Hid), <-Hfd.
Qed.
End stream.

(** *** Witness *)

(** A client sets up, plays and gets a packet while its socket takes nothing. *)
Definition playing_client : rtsp_session ring_buffer :=
  mkRtspSession (mkConnection 5 (ring_of 8 []) (ring_of 512 []) 0 0) SessionState.kSetupSent
    (lit "ab") [] [] false (-1) (-1) sockaddr_zero sockaddr_zero 0.

Definition play_and_forward : list session_use :=
  [UseRequest (sample_request kSetup (mkTransportInfo false true 0 0 0 0 0 1));
   UseRequest (sample_request kPlay TransportInfo_init);
   UsePacket (mkRtpPacket (Some (lit "rtp")) 3 0); UseFlush].

Lemma session_stream_framed_witness :
  wp (session_run (K := sample_kernel stalled) (lit "v=0") playing_client play_and_forward)
    (fun '(sts, s') w' => streaming s' /\
      exists outs, Forall3 (outcome_ok (K := sample_kernel stalled) (lit "v=0") playing_client) play_and_forward sts outs /\
        stream (conn_ s') w' = stream (conn_ playing_client) world0 ++ mjoin outs) world0.
Proof.
  apply (session_stream_framed (K := sample_kernel stalled) (lit "v=0") playing_client
    play_and_forward world0).
  - split; [|reflexivity|by vm_compute]. split; [|reflexivity].
    split; split; vm_compute; repeat split; discriminate.
  - constructor; [by intros _|]. constructor; [discriminate|].
    constructor; [|by repeat constructor].
    exists (lit "rtp"). split; [reflexivity|]. vm_compute. by repeat split; discriminate.
  - by vm_compute.
  - vm_compute. discriminate.
Defined.
