(* ===== verification/Server.v ===== *)
(** * The server (src/src/core/rtsp_server.h, rtsp_server.cc)

    The server's members as a record; [sessions_] is an ordered map from
    descriptors to sessions, the callbacks registered with the event loop are the
    three lambdas of the source, as the values of [callback].  Every member
    function is a state-passing definition, each handler of the event loop one
    atomic step.

    Sessions are owned by [shared_ptr]s: those of the map, those a handler holds
    while it runs, and those of the vector [playing_sessions] the stream thread
    holds while it forwards a packet.  The last are part of the state: [snapshot_]
    names the sessions in the vector, and [detached_] keeps those of them that are
    no longer in the map.  A session taken out of the map is destroyed at once
    unless the vector points to it ([release]); then it is destroyed with the
    vector ([drop_snapshot]). *)
From stdpp Require Import gmap.
From S2P Require Import Prelude Status OrderedMap Text Kernel SampleKernel ByteQueue RingBuf.
From S2P Require Import FdGuard Owner Sock Epoll Conn Parser Builder Forwarder Session.

Inductive callback := OnListenerReady | OnTimerReady | OnClientReady.

Record rtsp_server (Q : Type) := mkRtspServer {
  port_ : Z;
  max_sessions_ : Z;
  buffer_size_ : Z;
  ip_ : bytes;
  session_sequence_ : Z;
  event_loop_ : epoll_loop callback;
  listener_ : fd_guard;
  server_running_ : bool;
  sdp_ : bytes;
  sessions_ : list (Z * rtsp_session Q);
  connection_timeout_sec_ : Z;
  session_timeout_sec_ : Z;
  timer_fd_ : Z;
  start_time_ : Z;
  total_connections_ : Z;
  timed_out_sessions_ : Z;
  total_dropped_sessions_ : Z;
  snapshot_ : list Z;
  detached_ : list (Z * rtsp_session Q);
}.
Arguments mkRtspServer {Q} _ _ _ _ _ _ _ _ _ _ _ _ _ _ _ _ _ _ _.
Arguments port_ {Q} _.
Arguments max_sessions_ {Q} _.
Arguments buffer_size_ {Q} _.
Arguments ip_ {Q} _.
Arguments session_sequence_ {Q} _.
Arguments event_loop_ {Q} _.
Arguments listener_ {Q} _.
Arguments server_running_ {Q} _.
Arguments sdp_ {Q} _.
Arguments sessions_ {Q} _.
Arguments connection_timeout_sec_ {Q} _.
Arguments session_timeout_sec_ {Q} _.
Arguments timer_fd_ {Q} _.
Arguments start_time_ {Q} _.
Arguments total_connections_ {Q} _.
Arguments timed_out_sessions_ {Q} _.
Arguments total_dropped_sessions_ {Q} _.
Arguments snapshot_ {Q} _.
Arguments detached_ {Q} _.

(** [RtspForwardInfo] of the public header *)
Record RtspForwardInfo := mkInfo {
  info_port : Z;
  info_max_sessions : Z;
  info_running : Z;
  info_active_sessions : Z;
  info_playing_sessions : Z;
  info_total_connections : Z;
  info_timed_out_sessions : Z;
  info_dropped_sessions : Z;
  info_uptime_sec : Z;
}.

(** ** Member updates *)
Section updates.
Context {Q : Type}.
Implicit Types v : rtsp_server Q.

Definition with_sequence v n : rtsp_server Q :=
  mkRtspServer (port_ v) (max_sessions_ v) (buffer_size_ v) (ip_ v) n (event_loop_ v)
    (listener_ v) (server_running_ v) (sdp_ v) (sessions_ v) (connection_timeout_sec_ v)
    (session_timeout_sec_ v) (timer_fd_ v) (start_time_ v) (total_connections_ v)
    (timed_out_sessions_ v) (total_dropped_sessions_ v) (snapshot_ v)
    (detached_ v).
Definition with_loop v l : rtsp_server Q :=
  mkRtspServer (port_ v) (max_sessions_ v) (buffer_size_ v) (ip_ v) (session_sequence_ v) l
    (listener_ v) (server_running_ v) (sdp_ v) (sessions_ v) (connection_timeout_sec_ v)
    (session_timeout_sec_ v) (timer_fd_ v) (start_time_ v) (total_connections_ v)
    (timed_out_sessions_ v) (total_dropped_sessions_ v) (snapshot_ v)
    (detached_ v).
Definition with_listener v g : rtsp_server Q :=
  mkRtspServer (port_ v) (max_sessions_ v) (buffer_size_ v) (ip_ v) (session_sequence_ v)
    (event_loop_ v) g (server_running_ v) (sdp_ v) (sessions_ v) (connection_timeout_sec_ v)
    (session_timeout_sec_ v) (timer_fd_ v) (start_time_ v) (total_connections_ v)
    (timed_out_sessions_ v) (total_dropped_sessions_ v) (snapshot_ v)
    (detached_ v).
Definition set_running v b : rtsp_server Q :=
  mkRtspServer (port_ v) (max_sessions_ v) (buffer_size_ v) (ip_ v) (session_sequence_ v)
    (event_loop_ v) (listener_ v) b (sdp_ v) (sessions_ v) (connection_timeout_sec_ v)
    (session_timeout_sec_ v) (timer_fd_ v) (start_time_ v) (total_connections_ v)
    (timed_out_sessions_ v) (total_dropped_sessions_ v) (snapshot_ v)
    (detached_ v).
Definition with_sdp v d : rtsp_server Q :=
  mkRtspServer (port_ v) (max_sessions_ v) (buffer_size_ v) (ip_ v) (session_sequence_ v)
    (event_loop_ v) (listener_ v) (server_running_ v) d (sessions_ v)
    (connection_timeout_sec_ v) (session_timeout_sec_ v) (timer_fd_ v) (start_time_ v)
    (total_connections_ v) (timed_out_sessions_ v) (total_dropped_sessions_ v) (snapshot_ v)
    (detached_ v).
Definition with_sessions v m : rtsp_server Q :=
  mkRtspServer (port_ v) (max_sessions_ v) (buffer_size_ v) (ip_ v) (session_sequence_ v)
    (event_loop_ v) (listener_ v) (server_running_ v) (sdp_ v) m (connection_timeout_sec_ v)
    (session_timeout_sec_ v) (timer_fd_ v) (start_time_ v) (total_connections_ v)
    (timed_out_sessions_ v) (total_dropped_sessions_ v) (snapshot_ v)
    (detached_ v).
Definition with_timer v fd : rtsp_server Q :=
  mkRtspServer (port_ v) (max_sessions_ v) (buffer_size_ v) (ip_ v) (session_sequence_ v)
    (event_loop_ v) (listener_ v) (server_running_ v) (sdp_ v) (sessions_ v)
    (connection_timeout_sec_ v) (session_timeout_sec_ v) fd (start_time_ v)
    (total_connections_ v) (timed_out_sessions_ v) (total_dropped_sessions_ v) (snapshot_ v)
    (detached_ v).
Definition with_start_time v t : rtsp_server Q :=
  mkRtspServer (port_ v) (max_sessions_ v) (buffer_size_ v) (ip_ v) (session_sequence_ v)
    (event_loop_ v) (listener_ v) (server_running_ v) (sdp_ v) (sessions_ v)
    (connection_timeout_sec_ v) (session_timeout_sec_ v) (timer_fd_ v) t
    (total_connections_ v) (timed_out_sessions_ v) (total_dropped_sessions_ v) (snapshot_ v)
    (detached_ v).
(** The three [fetch_add(1)] *)
Definition count_connection v : rtsp_server Q :=
  mkRtspServer (port_ v) (max_sessions_ v) (buffer_size_ v) (ip_ v) (session_sequence_ v)
    (event_loop_ v) (listener_ v) (server_running_ v) (sdp_ v) (sessions_ v)
    (connection_timeout_sec_ v) (session_timeout_sec_ v) (timer_fd_ v) (start_time_ v)
    (u64 (total_connections_ v + 1)) (timed_out_sessions_ v) (total_dropped_sessions_ v) (snapshot_ v)
    (detached_ v).
Definition count_timed_out v : rtsp_server Q :=
  mkRtspServer (port_ v) (max_sessions_ v) (buffer_size_ v) (ip_ v) (session_sequence_ v)
    (event_loop_ v) (listener_ v) (server_running_ v) (sdp_ v) (sessions_ v)
    (connection_timeout_sec_ v) (session_timeout_sec_ v) (timer_fd_ v) (start_time_ v)
    (total_connections_ v) (u64 (timed_out_sessions_ v + 1)) (total_dropped_sessions_ v) (snapshot_ v) (detached_ v).
Definition count_dropped v : rtsp_server Q :=
  mkRtspServer (port_ v) (max_sessions_ v) (buffer_size_ v) (ip_ v) (session_sequence_ v)
    (event_loop_ v) (listener_ v) (server_running_ v) (sdp_ v) (sessions_ v)
    (connection_timeout_sec_ v) (session_timeout_sec_ v) (timer_fd_ v) (start_time_ v)
    (total_connections_ v) (timed_out_sessions_ v) (u64 (total_dropped_sessions_ v + 1)) (snapshot_ v)
    (detached_ v).
Definition with_snapshot v fds ds : rtsp_server Q :=
  mkRtspServer (port_ v) (max_sessions_ v) (buffer_size_ v) (ip_ v) (session_sequence_ v)
    (event_loop_ v) (listener_ v) (server_running_ v) (sdp_ v) (sessions_ v)
    (connection_timeout_sec_ v) (session_timeout_sec_ v) (timer_fd_ v) (start_time_ v)
    (total_connections_ v) (timed_out_sessions_ v) (total_dropped_sessions_ v) fds ds.

(** The object the map's pointer at [fd] designates changes. *)
Definition put_session v fd s := with_sessions v (om_set fd s (sessions_ v)).

(** The session a pointer of [playing_sessions] designates. *)
Definition find_object v fd : option (rtsp_session Q) :=
  match om_find fd (detached_ v) with
  | Some s => Some s
  | None => om_find fd (sessions_ v)
  end.

Definition put_object v fd s : rtsp_server Q :=
  match om_find fd (detached_ v) with
  | Some _ => with_snapshot v (snapshot_ v) (om_set fd s (detached_ v))
  | None => put_session v fd s
  end.

(** [playing_sessions] points to the session the map has at [fd]. *)
Definition pinned v fd : bool :=
  bool_decide (fd ∈ snapshot_ v) &&
  match om_find fd (detached_ v) with Some _ => false | None => true end.
End updates.

Module RtspServer.
Section RtspServer.
Context `{K : Kernel} {Q : Type} `{BQ : !ByteQueue Q}.
Implicit Types v : rtsp_server Q.
Implicit Types s : rtsp_session Q.

Definition RtspServer (ip : bytes) (port max_sessions buffer_size connection_timeout_sec
    session_timeout_sec : Z) : rtsp_server Q :=
  mkRtspServer port max_sessions buffer_size ip 0 EpollLoop.EpollLoop Listener.Listener false []
    [] connection_timeout_sec session_timeout_sec (-1) 0 0 0 0 [] [].

Definition SetSdp v (sdp : bytes) : rtsp_server Q := with_sdp v sdp.
Definition GetSdp v : bytes := sdp_ v.
Definition IsRunning v : bool := server_running_ v.
Definition port v : Z := port_ v.
Definition max_sessions v : Z := max_sessions_ v.
Definition buffer_size v : Z := buffer_size_ v.
Definition SetRunning v (running : bool) : rtsp_server Q := set_running v running.

(** [session_sequence_++] *)
Definition NextSessionSequence v : Z * rtsp_server Q :=
  (session_sequence_ v, with_sequence v (u64 (session_sequence_ v + 1))).

(** From [AddFd(timer_fd_, ...)] on *)
Definition Start_timer v : M (status * rtsp_server Q) :=
  '(st, l) ← EpollLoop.AddFd (event_loop_ v) (timer_fd_ v) kRead OnTimerReady;
  let v := with_loop v l in
  if negb (Status.ok st) then
    _ ← sys (SysClose (timer_fd_ v));
    mret (st, with_timer v (-1))
  else
    now ← sys SysSteadyClock;
    mret (Status.Ok, SetRunning (with_start_time v (a_ret now)) true).

Definition Start v : M (status * rtsp_server Q) :=
  '(st, g) ← Listener.Listen (listener_ v) (Some (ip_ v)) (port_ v);
  let v := with_listener v g in
  if negb (Status.ok st) then mret (st, v) else
  '(st, l) ← EpollLoop.Init (event_loop_ v);
  let v := with_loop v l in
  if negb (Status.ok st) then mret (st, v) else
  '(st, l) ← EpollLoop.AddFd (event_loop_ v) (Listener.fd (listener_ v)) kRead OnListenerReady;
  let v := with_loop v l in
  if negb (Status.ok st) then mret (st, v) else
  a ← sys SysTimerfdCreate;
  let v := with_timer v (a_ret a) in
  if timer_fd_ v <? 0 then mret (Status.Error (lit "timerfd_create failed"), v) else
  b ← sys (SysTimerfdSettime (timer_fd_ v) kTimeoutCheckIntervalSec);
  if a_ret b <? 0 then
    _ ← sys (SysClose (timer_fd_ v));
    mret (Status.Error (lit "timerfd_settime failed"), with_timer v (-1))
  else Start_timer v.

Fixpoint close_all (ss : list (Z * rtsp_session Q)) : M (list (Z * rtsp_session Q)) :=
  match ss with
  | [] => mret []
  | (fd, s) :: ss =>
    s ← RtspSession.Close s;
    ss ← close_all ss;
    mret ((fd, s) :: ss)
  end.

(** The map's pointer to [s], which was stored at [fd], goes. *)
Definition release v (fd : Z) s : M (rtsp_server Q) :=
  if pinned v fd
  then mret (with_snapshot v (snapshot_ v) (om_set fd s (detached_ v)))
  else _ ← RtspSession.destroy s; mret v.

Fixpoint release_all v (ss : list (Z * rtsp_session Q)) : M (rtsp_server Q) :=
  match ss with
  | [] => mret v
  | (fd, s) :: ss => v ← release v fd s; release_all v ss
  end.

Fixpoint destroy_all (ss : list (Z * rtsp_session Q)) : M unit :=
  match ss with
  | [] => mret tt
  | (_, s) :: ss => _ ← RtspSession.destroy s; destroy_all ss
  end.

Definition Stop_timer v : M (rtsp_server Q) :=
  if 0 <=? timer_fd_ v then
    '(_, l) ← EpollLoop.RemoveFd (event_loop_ v) (timer_fd_ v);
    _ ← sys (SysClose (timer_fd_ v));
    mret (with_timer (with_loop v l) (-1))
  else mret v.

Definition Stop v : M (rtsp_server Q) :=
  if negb (IsRunning v) then mret v
  else
    let v := SetRunning v false in
    let v := with_loop v (EpollLoop.Stop (event_loop_ v)) in
    v ← Stop_timer v;
    ss ← close_all (sessions_ v);
    v ← release_all (with_sessions v []) ss;
    g ← Listener.Close (listener_ v);
    mret (with_listener v g).

(** [~RtspServer()]: [Stop()], then the members, last member first. *)
Definition destroy v : M unit :=
  v ← Stop v;
  v ← release_all (with_sessions v []) (sessions_ v);
  _ ← Listener.destroy (listener_ v);
  EpollLoop.destroy (event_loop_ v).

Definition CloseConnection v (fd : Z) : M (rtsp_server Q) :=
  match om_find fd (sessions_ v) with
  | Some s =>
    '(_, l) ← EpollLoop.RemoveFd (event_loop_ v) fd;
    release (with_sessions (with_loop v l) (om_erase fd (sessions_ v))) fd s
  | None => mret v
  end.

(** [make_shared] and [sessions_[client_fd] = session]; a session stored under
    that descriptor before loses its last pointer. *)
Definition add_session v (client_fd : Z) : M (rtsp_server Q) :=
  let '(seq, v) := NextSessionSequence v in
  s ← RtspSession.RtspSession seq client_fd (buffer_size_ v);
  let old := om_find client_fd (sessions_ v) in
  let v := put_session v client_fd s in
  match old with
  | Some o => release v client_fd o
  | None => mret v
  end.

Definition OnNewConnection v (fd : Z) : M (rtsp_server Q) :=
  client_fd ← Listener.Accept (listener_ v);
  if client_fd <? 0 then mret v
  else
    _ ← sys (SysSetsockopt client_fd IPPROTO_TCP TCP_NODELAY 1);
    if u64 (max_sessions_ v) <=? len (sessions_ v) then
      _ ← sys (SysClose client_fd);
      mret v
    else
      let v := count_connection v in
      '(st, l) ← EpollLoop.AddFd (event_loop_ v) client_fd kRead OnClientReady;
      let v := with_loop v l in
      if negb (Status.ok st) then
        _ ← sys (SysClose client_fd);
        mret v
      else add_session v client_fd.

(** [static_cast<uint16_t>((header[2] << 8) | header[3])] *)
Definition frame_length (header : bytes) : Z :=
  let h i := byte_val (nth i header NUL) in
  u16 (Z.lor (Z.shiftl (h 2%nat) 8) (h 3%nat)).

Definition is_frame (header : bytes) : bool := byte_val (nth 0 header NUL) =? 36.

Definition out_of_fuel {A} : M A := fun _ => Fault OutOfFuel.

(** The [while] loop of [ProcessConnectionData] on the session stored at [fd]. *)
Fixpoint process_loop (fuel : nat) v (fd : Z) s : M (rtsp_server Q) :=
  if 0 <? RtspSession.GetReadBufferSize s then
    match fuel with
    | O => out_of_fuel
    | S fuel =>
      '(st, header) ← ub (RtspSession.Peek s (Some (replicate 4 NUL)) 4);
      let header := default [] header in
      if Status.ok st && is_frame header then
        let total := 4 + frame_length header in
        if RtspSession.GetReadBufferSize s <? total then mret (put_session v fd s)
        else
          process_loop fuel v fd (RtspSession.Consume s total)
      else
        request_end ← ub (RtspSession.FindSubstring s (Some (crlf ++ crlf)) 4);
        if request_end =? npos then
          if kMaxRtspRequestDataLen <=? RtspSession.GetReadBufferSize s
          then CloseConnection (put_session v fd s) fd
          else mret (put_session v fd s)
        else
          let request_len := u64 (request_end + 4) in
          if RtspSession.GetReadBufferSize s <? request_len
          then mret (put_session v fd s)
          else
            let request_ptr := RtspSession.GetReadBuffer s in
            '(_, s) ← RtspSession.ProcessData (GetSdp v) s (Some request_ptr) request_len;
            let s := RtspSession.Consume s request_len in
            _ ← (if RtspSession.NeedFlush s
                 then EpollLoop.ModifyFd (event_loop_ v) fd (Z.lor kRead kWrite)
                 else mret Status.Ok);
            process_loop fuel v fd s
    end
  else mret (put_session v fd s).

Definition ProcessConnectionData v (fd : Z) : M (rtsp_server Q) :=
  match om_find fd (sessions_ v) with
  | None => mret v
  | Some s =>
    if RtspSession.IsClosed s then CloseConnection v fd
    else
      '(ret, s) ← RtspSession.Recv s;
      let v := put_session v fd s in
      if ret <? 0 then CloseConnection v fd
      else if ret =? 0 then CloseConnection v fd
      else process_loop (Z.to_nat (RtspSession.GetReadBufferSize s)) v fd s
  end.

Definition OnRead v (fd : Z) : M (rtsp_server Q) := ProcessConnectionData v fd.

Definition OnWrite v (fd : Z) : M (rtsp_server Q) :=
  match om_find fd (sessions_ v) with
  | None => mret v
  | Some s =>
    if RtspSession.IsClosed s then CloseConnection v fd
    else
      '(ret, s) ← RtspSession.Flush s;
      let v := put_session v fd s in
      if ret <? 0 then CloseConnection v fd
      else if negb (RtspSession.NeedFlush s) then
        _ ← EpollLoop.ModifyFd (event_loop_ v) fd kRead;
        mret v
      else mret v
  end.

Definition OnError v (fd : Z) : M (rtsp_server Q) := CloseConnection v fd.

(** The loop of [CheckTimeouts] that collects descriptors. *)
Fixpoint collect_timed_out v (ss : list (Z * rtsp_session Q)) : M (list Z) :=
  match ss with
  | [] => mret []
  | (fd, s) :: ss =>
    if decide (RtspSession.state s = SessionState.kTeardown) then
      fds ← collect_timed_out v ss; mret (fd :: fds)
    else
      b ← RtspSession.IsTimedOut s (connection_timeout_sec_ v) (session_timeout_sec_ v);
      fds ← collect_timed_out v ss;
      mret (if b : bool then fd :: fds else fds)
  end.

Fixpoint close_timed_out v (fds : list Z) : M (rtsp_server Q) :=
  match fds with
  | [] => mret v
  | fd :: fds =>
    v ← CloseConnection (count_timed_out v) fd;
    close_timed_out v fds
  end.

Definition CheckTimeouts v : M (rtsp_server Q) :=
  if (connection_timeout_sec_ v <=? 0) && (session_timeout_sec_ v <=? 0) then mret v
  else
    fds ← collect_timed_out v (sessions_ v);
    close_timed_out v fds.

(** What follows [ForwardRtp] in a turn of the forwarding loop of [BroadcastRtp]. *)
Definition broadcast_account v (fd : Z) (st : status) s : M (rtsp_server Q) :=
  if negb (Status.ok st) then
    let s := RtspSession.RecordDrop s in
    if kMaxConsecutiveDrops <=? RtspSession.GetConsecutiveDrops s then
      mret (put_object (count_dropped v) fd
              (RtspSession.set_state s SessionState.kTeardown))
    else mret (put_object v fd s)
  else
    let s := RtspSession.RecordSuccess s in
    let v := put_object v fd s in
    if RtspSession.NeedFlush s then
      _ ← EpollLoop.ModifyFd (event_loop_ v) (RtspSession.fd s) (Z.lor kRead kWrite);
      mret v
    else mret v.

(** One turn, for the session that was stored at [fd]. *)
Definition broadcast_one (packet : RtpPacket) v (fd : Z) : M (rtsp_server Q) :=
  match find_object v fd with
  | None => mret v
  | Some s =>
    '(st, s) ← RtspSession.ForwardRtp s packet;
    broadcast_account v fd st s
  end.

Fixpoint broadcast_loop (packet : RtpPacket) v (fds : list Z) : M (rtsp_server Q) :=
  match fds with
  | [] => mret v
  | fd :: fds => v ← broadcast_one packet v fd; broadcast_loop packet v fds
  end.

(** The sessions that go into [playing_sessions]. *)
Definition playing_fds v : list Z :=
  fst <$> List.filter (fun p => bool_decide (RtspSession.state (snd p) = SessionState.kPlaying)) (sessions_ v).

Definition take_snapshot v : rtsp_server Q := with_snapshot v (playing_fds v) [].

(** The vector goes, and with it the sessions only it points to. *)
Definition drop_snapshot v : M (rtsp_server Q) :=
  _ ← destroy_all (detached_ v);
  mret (with_snapshot v [] []).

Definition BroadcastRtp v (packet : RtpPacket) : M (status * rtsp_server Q) :=
  if negb (IsRunning v)
  then mret (Status.FailedPrecondition (lit "server not running"), v)
  else
    let v := take_snapshot v in
    v ← broadcast_loop packet v (snapshot_ v);
    v ← drop_snapshot v;
    mret (Status.Ok, v).

(** The lambda registered for the timer *)
Definition timer_ready v (fd : Z) : M (rtsp_server Q) :=
  a ← sys (SysReadTimer fd);
  if 0 <? a_ret a then CheckTimeouts v else mret v.

(** The lambda registered for a client *)
Definition client_ready v (fd : Z) (result : EventResult) : M (rtsp_server Q) :=
  if 0 <? fd then
    v ← (if negb (Z.land (er_events result) kRead =? 0) then OnRead v fd else mret v);
    v ← (if negb (Z.land (er_events result) kWrite =? 0) then OnWrite v fd else mret v);
    if negb (Z.land (er_events result) kError =? 0) then OnError v fd else mret v
  else mret v.

(** Calling a registered lambda; the listener's only calls [OnNewConnection]. *)
Definition invoke (cb : callback) (fd : Z) (result : EventResult) v : M (rtsp_server Q) :=
  match cb with
  | OnListenerReady => OnNewConnection v fd
  | OnTimerReady => timer_ready v fd
  | OnClientReady => client_ready v fd result
  end.

(** [Run], bounded to [n] iterations of the event loop *)
Definition Run (n : nat) v : M (rtsp_server Q) :=
  if negb (IsRunning v) then mret v
  else EpollLoop.Run event_loop_ (fun l v => with_loop v l) invoke n v.

(** A non-null [info] filled in *)
Definition GetInfo v : M RtspForwardInfo :=
  let active := len (sessions_ v) in
  let playing := len (playing_fds v) in
  now ← sys SysSteadyClock;
  let uptime := RtspSession.to_seconds (a_ret now - start_time_ v) in
  mret (mkInfo (port_ v) (max_sessions_ v) (if IsRunning v then 1 else 0) active playing
          (total_connections_ v) (timed_out_sessions_ v) (total_dropped_sessions_ v)
          (u64 uptime)).
End RtspServer.
End RtspServer.
