(* ===== verification/ServerInv.v ===== *)
(** * The server's invariant

    [server_ok] is what holds of a server between handlers: its limits, the order
    of its map, good sessions under their own descriptors, and the shared ownership
    of the stream thread's snapshot.  Each handler keeps it, moves the ledger of
    descriptors with what the server holds ([held_server]), ends, and has no fault
    but an abort or one inside the parser: the [owns_*] lemmas. *)
From stdpp Require Import gmap.
From S2P Require Import Prelude Status OrderedMap Kernel ByteQueue RingBuf FdGuard Owner.
From S2P Require Import Sock Epoll Conn Forwarder Session Server.

Section invariant.
Context `{K : Kernel} `{KL : !KernelLaws} {Q : Type} `{BQ : !ByteQueue Q}
  `{BL : !ByteQueueLaws Q}.
Implicit Types v : rtsp_server Q.
Implicit Types s : rtsp_session Q.
Implicit Types ss ds : list (Z * rtsp_session Q).

Definition held_sessions ss : list Z := ss ≫= (fun p => held_session (snd p)).

(** Everything a server holds: listener, event loop, timer, its sessions' and the
    snapshot's. *)
Definition held_server v : list Z :=
  held (listener_ v) ++ held (epoll_fd_ (event_loop_ v)) ++ held (timer_fd_ v) ++
  held_sessions (sessions_ v) ++ held_sessions (detached_ v).

(** A stored session is a good one stored under its connection's descriptor. *)
Record stored_ok (p : Z * rtsp_session Q) : Prop := {
  st_fd : fd_guard_ (conn_ (snd p)) = fst p;
  st_open : 0 <= fst p;
  st_session : session_ok (snd p);
}.

(** The session a pointer of the snapshot designates, as [find_object] finds it. *)
Definition find_in ss ds (fd : Z) : option (rtsp_session Q) :=
  match om_find fd ds with Some s => Some s | None => om_find fd ss end.

(** The map, the snapshot, the sessions only the snapshot keeps: what is pointed
    to is there, what is kept is pointed to. *)
Record registry_ok ss (pins : list Z) ds : Prop := {
  rg_stored : Forall stored_ok ss;
  rg_sorted : om_sorted ss;
  rg_detached : Forall stored_ok ds;
  rg_detached_sorted : om_sorted ds;
  rg_alive : forall fd, fd ∈ pins -> find_in ss ds fd <> None;
  rg_pinned : forall p, In p ds -> fst p ∈ pins;
}.

Record server_ok v : Prop := {
  ok_bound : len (sessions_ v) <= u64 (max_sessions_ v);
  ok_buffer : 0 < buffer_size_ v < 2 ^ 63;
  ok_sdp : len (sdp_ v) < 2 ^ 62;
  ok_timer : server_running_ v = false -> timer_fd_ v < 0;
  ok_registry : registry_ok (sessions_ v) (snapshot_ v) (detached_ v);
}.

Lemma ok_sorted v : server_ok v -> om_sorted (sessions_ v).
Proof. intros []. by eapply rg_sorted. Qed.

(** What a handler leaves alone: the session limit and the snapshot. *)
Definition fixed v : Z * list Z := (max_sessions_ v, snapshot_ v).

(** A handler's run from [v]: the invariant holds again, and the ledger moved with
    what the server holds. *)
Definition steps v (Post : rtsp_server Q -> ledger -> Prop) (L : ledger) : Prop :=
  forall v' L', server_ok v' -> fixed v' = fixed v ->
    (forall x, L' x - cnt x (held_server v') = L x - cnt x (held_server v)) -> Post v' L'.

(** ** The map of sessions *)

Definition held_at (o : option (rtsp_session Q)) : list Z :=
  match o with Some s => held_session s | None => [] end.

Lemma cnt_held_set x k s ss :
  cnt x (held_sessions (om_set k s ss)) =
  cnt x (held_sessions ss) + cnt x (held_session s) - cnt x (held_at (om_find k ss)).
Proof.
  induction ss as [|[k' s'] ss IH]; simpl.
  - rewrite app_nil_r. simpl. lia.
  - unfold held_sessions in *.
    destruct (key_ltb k k'); [|destruct (key_ltb k' k)]; cbn [held_at];
      rewrite ?bind_cons, !cnt_app; cbn [snd]; rewrite ?bind_cons, ?cnt_app; cbn [snd cnt];
      try rewrite IH; lia.
Qed.

Lemma cnt_held_erase x k ss :
  cnt x (held_sessions (om_erase k ss)) =
  cnt x (held_sessions ss) - cnt x (held_at (om_find k ss)).
Proof.
  induction ss as [|[k' s'] ss IH]; simpl; [lia|]. unfold held_sessions in *.
  destruct (key_ltb k k'); [|destruct (key_ltb k' k)]; cbn [held_at];
    rewrite ?bind_cons, ?cnt_app; cbn [snd cnt]; try rewrite IH; lia.
Qed.

Lemma held_sessions_cons k s ss x :
  cnt x (held_sessions ((k, s) :: ss)) = cnt x (held_session s) + cnt x (held_sessions ss).
Proof. unfold held_sessions. by rewrite bind_cons, cnt_app. Qed.

#[local] Arguments held_sessions : simpl never.

Lemma find_stored fd s ss : Forall stored_ok ss -> om_find fd ss = Some s -> stored_ok (fd, s).
Proof.
  rewrite List.Forall_forall. intros Hin Hf. apply (Hin (fd, s)). by apply om_find_In.
Qed.

Lemma om_find_stored v fd s :
  server_ok v -> om_find fd (sessions_ v) = Some s -> stored_ok (fd, s).
Proof. intros [????[H _ _ _ _ _]]. by apply (find_stored _ _ _ H). Qed.

Lemma find_object_stored v fd s :
  server_ok v -> find_object v fd = Some s -> stored_ok (fd, s).
Proof.
  intros [????[H1 _ H2 _ _ _]]. unfold find_object.
  destruct (om_find fd (detached_ v)) eqn:Hd; [intros [= <-]; by apply (find_stored _ _ _ H2)|].
  by apply (find_stored _ _ _ H1).
Qed.

Lemma stored_with fd s s' :
  stored_ok (fd, s) -> fd_guard_ (conn_ s') = fd_guard_ (conn_ s) -> session_ok s' ->
  stored_ok (fd, s').
Proof. intros [H1 H2 _] Hc Hs. split; simpl in *; congruence || done. Qed.

(** *** Changes of the registry *)

Lemma registry_set ss pins ds fd s :
  registry_ok ss pins ds -> stored_ok (fd, s) -> registry_ok (om_set fd s ss) pins ds.
Proof.
  intros [H1 H2 H3 H4 H5 H6] Hs. split; try done.
  - by apply Forall_om_set.
  - by apply om_set_sorted.
  - intros k Hk. specialize (H5 k Hk). unfold find_in in *.
    destruct (om_find k ds); [done|]. destruct (decide (k = fd)) as [->|].
    + by rewrite om_find_set_eq.
    + by rewrite om_find_set_ne.
Qed.

Lemma registry_set_detached ss pins ds fd s :
  registry_ok ss pins ds -> stored_ok (fd, s) -> fd ∈ pins ->
  registry_ok ss pins (om_set fd s ds).
Proof.
  intros [H1 H2 H3 H4 H5 H6] Hs Hpin. split; try done.
  - by apply Forall_om_set.
  - by apply om_set_sorted.
  - intros k Hk. specialize (H5 k Hk). unfold find_in in *.
    destruct (decide (k = fd)) as [->|]; [by rewrite om_find_set_eq|].
    by rewrite om_find_set_ne.
  - apply List.Forall_forall. apply Forall_om_set; [done|]. by apply List.Forall_forall.
Qed.

(** A session leaves the map: unless it is pinned nothing points to it. *)
Lemma registry_erase ss pins ds fd s :
  registry_ok ss pins ds -> om_find fd ss = Some s ->
  registry_ok (om_erase fd ss) pins
    (if bool_decide (fd ∈ pins) && match om_find fd ds with Some _ => false | None => true end
     then om_set fd s ds else ds).
Proof.
  intros Hr Hf. pose proof Hr as [H1 H2 H3 H4 H5 H6].
  assert (Hs : stored_ok (fd, s)) by by apply (find_stored _ _ ss).
  assert (Hother : forall ds', registry_ok ss pins ds' ->
    (fd ∈ pins -> om_find fd ds' <> None) -> registry_ok (om_erase fd ss) pins ds').
  { intros ds' [_ _ G3 G4 G5 G6] Hd. split; try done; [by apply Forall_om_erase|by apply om_erase_sorted|].
    intros k Hk. specialize (G5 k Hk). unfold find_in in *.
    destruct (om_find k ds') eqn:Hkd; [done|].
    assert (k <> fd) by (intros ->; by apply Hd). by rewrite om_find_erase_ne. }
  case_bool_decide as Hpin; cbn [andb]; [destruct (om_find fd ds) eqn:Hd|]; apply Hother; try done.
  - intros _. by rewrite Hd.
  - by apply registry_set_detached.
  - intros _. by rewrite om_find_set_eq.
Qed.

Lemma registry_unpinned ss ds : registry_ok ss [] ds -> ds = [].
Proof.
  intros [_ _ _ _ _ H]. destruct ds as [|p ds]; [done|].
  specialize (H p ltac:(by left)). by apply not_elem_of_nil in H.
Qed.

Lemma registry_empty : registry_ok [] [] [].
Proof.
  split; [constructor|constructor|constructor|constructor|by intros ? ?%not_elem_of_nil|done].
Qed.

(** Replacing the session stored at [fd]. *)
Lemma put_session_ok v fd s s0 :
  server_ok v -> om_find fd (sessions_ v) = Some s0 -> session_ok s ->
  fd_guard_ (conn_ s) = fd_guard_ (conn_ s0) ->
  server_ok (put_session v fd s).
Proof.
  intros Hok Hf Hq Hc. pose proof (om_find_stored _ _ _ Hok Hf) as Hst.
  destruct Hok as [H1 H2 H3 H4 H5]. split; simpl; try done.
  - by rewrite (om_set_len_old _ _ s0).
  - apply registry_set; [done|]. by eapply stored_with.
Qed.

Lemma cnt_held_put x v fd s s0 :
  om_find fd (sessions_ v) = Some s0 ->
  cnt x (held_server (put_session v fd s)) =
  cnt x (held_server v) + cnt x (held_session s) - cnt x (held_session s0).
Proof.
  intros Hf. unfold held_server. cbn [sessions_ put_session with_sessions listener_ timer_fd_
    event_loop_ detached_]. rewrite !cnt_app, cnt_held_set, Hf. simpl. lia.
Qed.

Lemma find_put_object v fd s : find_object (put_object v fd s) fd = Some s.
Proof.
  unfold find_object, put_object. destruct (om_find fd (detached_ v)) eqn:Hd; cbn.
  - by rewrite om_find_set_eq.
  - by rewrite Hd, om_find_set_eq.
Qed.

(** The last change counts. *)
Lemma put_put_object v fd s1 s2 : put_object (put_object v fd s1) fd s2 = put_object v fd s2.
Proof.
  unfold put_object. destruct (om_find fd (detached_ v)) eqn:Hd; cbn.
  - unfold with_snapshot. cbn. by rewrite om_find_set_eq, om_set_set.
  - unfold put_session, with_sessions. cbn. by rewrite Hd, om_set_set.
Qed.

(** Changing a session through a pointer of the snapshot. *)
Lemma put_object_ok v fd s s0 :
  server_ok v -> find_object v fd = Some s0 -> session_ok s ->
  fd_guard_ (conn_ s) = fd_guard_ (conn_ s0) ->
  server_ok (put_object v fd s) /\ fixed (put_object v fd s) = fixed v /\
  forall x, cnt x (held_server (put_object v fd s)) =
    cnt x (held_server v) + cnt x (held_session s) - cnt x (held_session s0).
Proof.
  intros Hok Hf Hs Hc. pose proof (find_object_stored _ _ _ Hok Hf) as Hst.
  unfold find_object, put_object in *. destruct (om_find fd (detached_ v)) as [d|] eqn:Hd.
  - injection Hf as ->. pose proof Hok as [H1 H2 H3 H4 H5]. split; [split; try done|split; [done|]].
    + cbn. apply registry_set_detached; [done|by eapply stored_with|].
      apply (rg_pinned _ _ _ H5 (fd, s0)). by apply om_find_In.
    + intros x. unfold held_server. cbn [sessions_ with_snapshot listener_ timer_fd_
        event_loop_ detached_]. rewrite !cnt_app, cnt_held_set, Hd. cbn [held_at]. lia.
  - split; [by eapply put_session_ok|]. split; [done|]. intros x. by apply cnt_held_put.
Qed.

(** *** Pointers going *)

Lemma with_snapshot_same v : v = with_snapshot v (snapshot_ v) (detached_ v).
Proof. by destruct v. Qed.

Lemma owns_release v fd s Post L :
  (forall ds L', ds = (if pinned v fd then om_set fd s (detached_ v) else detached_ v) ->
    (forall x, L' x - cnt x (held_sessions ds) =
      L x - cnt x (held_sessions (detached_ v)) - cnt x (held_session s)) ->
    Post (with_snapshot v (snapshot_ v) ds) L') ->
  owns (RtspServer.release v fd s) Post L.
Proof.
  intros HP. unfold RtspServer.release. destruct (pinned v fd) eqn:Hp.
  - own_step. apply HP; [done|]. intros x. rewrite cnt_held_set.
    assert (om_find fd (detached_ v) = None) as ->.
    { unfold pinned in Hp. apply andb_true_iff in Hp as [_ Hp]. by destruct (om_find _ _). }
    cbn [held_at]. revert x. settle.
  - own_step. apply owns_destroy_session. intros L1 H1. own_step.
    rewrite (with_snapshot_same v). apply (HP (detached_ v)); [done|settle].
Qed.

(** The sessions of a map that is no more. *)
Lemma owns_release_all ss v Post L :
  registry_ok ss (snapshot_ v) (detached_ v) ->
  (forall ds L', registry_ok [] (snapshot_ v) ds ->
    (forall x, L' x - cnt x (held_sessions ds) =
      L x - cnt x (held_sessions (detached_ v)) - cnt x (held_sessions ss)) ->
    Post (with_snapshot v (snapshot_ v) ds) L') ->
  owns (RtspServer.release_all v ss) Post L.
Proof.
  revert v L. induction ss as [|[fd s] ss IH]; intros v L Hr HP; cbn [RtspServer.release_all].
  - own_step. rewrite (with_snapshot_same v). apply (HP (detached_ v)); [done|]. change (held_sessions []) with (@nil Z). settle.
  - own_step. apply owns_release. intros ds L1 Hds H1.
    assert (Hr1 : registry_ok ss (snapshot_ v) ds).
    { pose proof (registry_erase _ _ _ fd s Hr) as He. cbn in He.
      rewrite key_irrefl in He. unfold pinned in Hds. rewrite Hds. by apply He. }
    apply IH; [done|]. intros ds2 L2 Hr2 H2. cbn [snapshot_ with_snapshot detached_] in *.
    apply (HP ds2); [done|]. intros x. rewrite held_sessions_cons. revert x. settle.
Qed.
(** ** Handlers *)

(** Changes outside the sessions, the timer and the descriptors. *)
Lemma steps_same v v1 Post L :
  server_ok v -> sessions_ v1 = sessions_ v -> detached_ v1 = detached_ v -> fixed v1 = fixed v ->
  buffer_size_ v1 = buffer_size_ v -> len (sdp_ v1) < 2 ^ 62 ->
  server_running_ v1 = server_running_ v -> listener_ v1 = listener_ v ->
  timer_fd_ v1 = timer_fd_ v -> epoll_fd_ (event_loop_ v1) = epoll_fd_ (event_loop_ v) ->
  server_ok v1 /\ held_server v1 = held_server v /\ (steps v Post L -> steps v1 Post L).
Proof.
  intros [H1 H2 H3 H4 H5] Hs Hd Hm Hb Hsdp Hr Hl Ht He.
  assert (Hh : held_server v1 = held_server v) by (unfold held_server; congruence).
  injection Hm as Hm1 Hm2.
  split; [split; rewrite ?Hs, ?Hd, ?Hm1, ?Hm2, ?Hb, ?Hr, ?Ht; done|]. split; [done|].
  intros HP v' L' ? Hf Hx. apply HP; [done|unfold fixed in *; congruence|]. by rewrite <-Hh.
Qed.

Lemma fixed_eq v v' :
  max_sessions_ v' = max_sessions_ v -> snapshot_ v' = snapshot_ v -> fixed v' = fixed v.
Proof. unfold fixed. congruence. Qed.

Lemma owns_CloseConnection v fd Post L :
  server_ok v -> steps v Post L -> owns (RtspServer.CloseConnection v fd) Post L.
Proof.
  intros Hok HP. unfold RtspServer.CloseConnection.
  destruct (om_find fd (sessions_ v)) as [s|] eqn:Hf; [|own_step; apply HP; [done|done|settle]].
  own_step. apply owns_RemoveFd. intros st l L1 Hl H1. apply owns_release.
  intros ds L2 Hds H2. destruct Hok as [Hb Hs Hi Ht Ho]. apply HP; [split; cbn; try done|done|].
  - pose proof (om_erase_len fd (sessions_ v)). lia.
  - rewrite Hds. by eapply registry_erase.
  - unfold held_server. cbn in *. rewrite Hl. intros x. specialize (H1 x). specialize (H2 x).
    rewrite !cnt_app, cnt_held_erase, Hf. cbn [held_at]. lia.
Qed.

Lemma frame_length_range h : 0 <= RtspServer.frame_length h < 65536.
Proof. unfold RtspServer.frame_length, u16. apply Z.mod_pos_bound. lia. Qed.

(** A search result is inside the queue. *)
Lemma find_bound (q : Q) (p : bytes) r :
  bq_inv q -> 0 < len p -> bq_FindSubstring q (Some p) (len p) 0 = Some r -> r <> npos ->
  0 <= r /\ r + len p <= len (bq_contents q).
Proof.
  intros Hq Hp. rewrite bq_FindSubstring_spec, ztake_all by (done || lia).
  intros [= <-]. unfold Fifo.find, Fifo.window. rewrite (proj2 (Z.eqb_neq _ 0)) by lia. simpl.
  destruct (find_sub p (bq_contents q)) as [i|] eqn:Hf; simpl; [|done]. intros _.
  pose proof (find_sub_bound _ _ _ Hf). apply find_sub_Some in Hf as [? _]. lia.
Qed.

(** Consuming some of the input leaves less of it. *)
Lemma consume_shorter s n :
  session_ok s -> 0 < n ->
  let s' := RtspSession.Consume s n in
  session_ok s' /\ held_session s' = held_session s /\
  (0 < len (bq_contents (read_buffer_ (conn_ s))) ->
   len (bq_contents (read_buffer_ (conn_ s'))) < len (bq_contents (read_buffer_ (conn_ s)))).
Proof.
  intros [[Hq Hw] Hid] Hn s'. destruct (bq_Consume_spec _ n Hq ltac:(lia)) as (? & _ & Hc).
  split; [split; [by split|done]|]. split; [done|]. intros Hpos. unfold s'. cbn. rewrite Hc.
  unfold Fifo.consume. rewrite len_zdrop. lia.
Qed.

(** The two looks at the input never leave it. *)
Lemma looks_defined s :
  session_ok s ->
  is_Some (RtspSession.Peek s (Some (replicate 4 NUL)) 4) /\
  is_Some (RtspSession.FindSubstring s (Some (crlf ++ crlf)) 4).
Proof.
  intros [[Hq _] _]. unfold RtspSession.Peek, RtspSession.FindSubstring, Connection.Peek,
    Connection.FindSubstring. split.
  - rewrite bq_Peek_spec by (done || vm_compute; split; discriminate). done.
  - rewrite bq_FindSubstring_spec by (done || vm_compute; split; discriminate). done.
Qed.

(** The loop on the input of a session: it ends, whatever arrived. *)
Lemma owns_process_loop fuel v fd s s0 Post L :
  server_ok v -> om_find fd (sessions_ v) = Some s0 -> session_ok s ->
  fd_guard_ (conn_ s) = fd_guard_ (conn_ s0) ->
  len (bq_contents (read_buffer_ (conn_ s))) <= Z.of_nat fuel ->
  (forall v' L', server_ok v' -> fixed v' = fixed v ->
    (forall x, L' x - cnt x (held_server v') =
      L x - (cnt x (held_server v) + cnt x (held_session s) - cnt x (held_session s0))) ->
    Post v' L') ->
  owns (RtspServer.process_loop fuel v fd s) Post L.
Proof.
  intros Hok Hf. revert s L. induction fuel as [|fuel IH]; intros s L Hs Hg Hfuel HP;
    pose proof Hs as [[Hq _] _]; cbn [RtspServer.process_loop];
    assert (Hsize : RtspSession.GetReadBufferSize s = len (bq_contents (read_buffer_ (conn_ s))))
      by (by apply bq_ReadableSize_spec); rewrite !Hsize.
  all: assert (Hput : forall L1, (forall x, L1 x = L x) -> owns (mret (put_session v fd s)) Post L1)
    by (intros L1 H1; own_step; apply HP; [by eapply put_session_ok|done|];
      intros x; rewrite (cnt_held_put _ _ _ _ _ Hf); revert x; settle).
  { rewrite (proj2 (Z.ltb_ge 0 _)) by lia. by apply Hput. }
  destruct (Z.ltb_spec 0 (len (bq_contents (read_buffer_ (conn_ s))))) as [Hpos|]; [|by apply Hput].
  destruct (looks_defined s Hs) as [[[st h] Hpeek] [r Hfind]].
  own_step. eapply owns_ub; [exact Hpeek|]. intros L1 H1. cbv beta iota zeta.
  destruct (_ && _).
  - pose proof (frame_length_range (default [] h)).
    destruct (_ <? _); [by apply Hput|].
    destruct (consume_shorter s (4 + RtspServer.frame_length (default [] h)) Hs ltac:(lia))
      as (Hs' & Hh & Hlt).
    apply IH; [done|done|specialize (Hlt Hpos); lia|]. rewrite Hh. intros v' L2 Hv1 Hv2 Hv3.
    apply HP; [done|done|settle].
  - own_step. eapply owns_ub; [exact Hfind|]. intros L2 H2. destruct (Z.eqb_spec r npos) as [->|Hr].
    + destruct (_ <=? _); [|apply Hput; settle].
      apply owns_CloseConnection; [by eapply put_session_ok|].
      intros v' L3 Hv1 Hv2 Hv3. apply HP; [done|done|]. intros x.
      specialize (Hv3 x). rewrite (cnt_held_put _ _ _ _ _ Hf) in Hv3.
      repeat match goal with H : forall _ : Z, _ = _ |- _ => specialize (H x) end. lia.
    + destruct (find_bound _ (crlf ++ crlf) r Hq ltac:(by vm_compute) Hfind Hr) as [Hr0 Hr1].
      change (len (crlf ++ crlf)) with 4 in Hr1. pose proof (bq_capacity_spec _ Hq).
      rewrite u64_small by lia. destruct (_ <? _); [apply Hput; settle|].
      own_step. apply owns_ProcessData; [done|apply Hok|]. intros st' s1 L3 Hc Hr2 Hs1 Hl1.
      destruct (consume_shorter s1 (r + 4) Hs1 ltac:(lia)) as (Hs2 & Hh & Hlt).
      set (s2 := RtspSession.Consume s1 _) in *.
      assert (Hloop : forall L4, (forall x, L4 x = L3 x) ->
        owns (RtspServer.process_loop fuel v fd s2) Post L4).
      { intros L4 HL4. apply IH; [done|cbn; congruence|rewrite Hr2 in Hlt; specialize (Hlt Hpos); lia|].
        rewrite Hh. intros v' L5 Hv1 Hv2 Hv3. apply HP; [done|done|settle]. }
      own_step. destruct (RtspSession.NeedFlush _).
      * apply owns_ModifyFd. intros st2 L4 HL4. by apply Hloop.
      * own_step. by apply Hloop.
Qed.

(** A stored session after an operation on its connection. *)
Lemma put_conn_steps v fd s s' Post L L1 :
  server_ok v -> om_find fd (sessions_ v) = Some s ->
  fd_guard_ (conn_ s') = fd_guard_ (conn_ s) -> held_session s' = held_session s ->
  session_ok s' -> (forall x, L1 x = L x) -> steps v Post L ->
  let v1 := put_session v fd s' in
  server_ok v1 /\ steps v1 Post L1 /\ om_find fd (sessions_ v1) = Some s'.
Proof.
  intros Hok Hf Hc Hh Hs H1 HP v1. split; [by eapply put_session_ok|]. split.
  - intros v' L' Hv1 Hv2 Hv3. apply HP; [done|done|]. intros x. specialize (Hv3 x).
    unfold v1 in Hv3. rewrite (cnt_held_put _ _ _ _ _ Hf), Hh, H1 in Hv3. lia.
  - apply om_find_set_eq.
Qed.

Lemma owns_ProcessConnectionData v fd Post L :
  server_ok v -> steps v Post L -> owns (RtspServer.ProcessConnectionData v fd) Post L.
Proof.
  intros Hok HP. unfold RtspServer.ProcessConnectionData.
  destruct (om_find fd (sessions_ v)) as [s|] eqn:Hf; [|own_step; apply HP; [done|done|settle]].
  destruct (RtspSession.IsClosed _); [by apply owns_CloseConnection|].
  pose proof (st_session _ (om_find_stored _ _ _ Hok Hf)) as Hs. cbn [snd] in Hs.
  own_step. apply owns_Recv_session; [done|]. intros r s1 L1 Hc Hh Hs1 H1.
  destruct (put_conn_steps v fd s s1 Post L L1) as (Hok1 & HP1 & Hf1); [done..|].
  destruct (r <? 0); [by apply owns_CloseConnection|].
  destruct (r =? 0); [by apply owns_CloseConnection|].
  eapply owns_process_loop; [done|done|done|done| |].
  - assert (RtspSession.GetReadBufferSize s1 = len (bq_contents (read_buffer_ (conn_ s1)))) as ->
      by (apply bq_ReadableSize_spec; apply Hs1).
    pose proof (len_nonneg (bq_contents (read_buffer_ (conn_ s1)))). lia.
  - intros v' L2 Hv1 Hv2 Hv3. apply HP1; [done|done|settle].
Qed.

Lemma owns_OnWrite v fd Post L :
  server_ok v -> steps v Post L -> owns (RtspServer.OnWrite v fd) Post L.
Proof.
  intros Hok HP. unfold RtspServer.OnWrite.
  destruct (om_find fd (sessions_ v)) as [s|] eqn:Hf; [|own_step; apply HP; [done|done|settle]].
  destruct (RtspSession.IsClosed _); [by apply owns_CloseConnection|].
  pose proof (st_session _ (om_find_stored _ _ _ Hok Hf)) as Hs. cbn [snd] in Hs.
  own_step. apply owns_Flush_session; [done|]. intros r s1 L1 Hc Hh Hs1 H1.
  destruct (put_conn_steps v fd s s1 Post L L1) as (Hok1 & HP1 & Hf1); [done..|].
  destruct (r <? 0); [by apply owns_CloseConnection|].
  destruct (negb _).
  - own_step. apply owns_ModifyFd. intros st L2 H2. own_step. apply HP1; [done|done|settle].
  - own_step. apply HP1; [done|done|settle].
Qed.

Lemma owns_add_session v fd Post L :
  server_ok v -> len (sessions_ v) < u64 (max_sessions_ v) -> 0 <= fd ->
  (forall v' L', server_ok v' -> fixed v' = fixed v ->
    (forall x, L' x - cnt x (held_server v') = L x - (cnt x (held_server v) + cnt x (held fd))) ->
    Post v' L') ->
  owns (RtspServer.add_session v fd) Post L.
Proof.
  intros Hok Hlt Hfd HP. unfold RtspServer.add_session, RtspServer.NextSessionSequence.
  set (v1 := with_sequence v _). destruct Hok as [Hb Hsz Hsdp Ht Ho]. own_step.
  apply owns_RtspSession; [done|]. intros s L1 Hg Hs Hh H1.
  assert (Hst : stored_ok (fd, s)) by done.
  assert (Hset : forall ds, registry_ok (om_set fd s (sessions_ v)) (snapshot_ v) ds ->
    server_ok (with_snapshot (put_session v1 fd s) (snapshot_ v) ds)).
  { intros ds Hr. split; cbn; try done. destruct (om_find fd (sessions_ v)) as [o|] eqn:Hf.
    - by rewrite (om_set_len_old _ _ o).
    - rewrite om_set_len_new by done. lia. }
  assert (Hc : forall x ds, cnt x (held_server (with_snapshot (put_session v1 fd s) (snapshot_ v) ds)) =
    cnt x (held_server v) + cnt x (held fd) - cnt x (held_at (om_find fd (sessions_ v))) +
    cnt x (held_sessions ds) - cnt x (held_sessions (detached_ v))).
  { intros x ds. unfold held_server. cbn [sessions_ put_session with_sessions listener_ timer_fd_
      event_loop_ v1 with_sequence with_snapshot detached_ snapshot_].
    rewrite !cnt_app, cnt_held_set, Hh. lia. }
  change (sessions_ v1) with (sessions_ v).
  destruct (om_find fd (sessions_ v)) as [o|] eqn:Hf; cbn [held_at cnt] in Hc.
  - apply owns_release. intros ds L2 Hds H2. apply HP; [|done|].
    + apply Hset. rewrite Hds. cbn [detached_ put_session with_sessions v1 with_sequence].
      assert (Hst0 : stored_ok (fd, o)) by by eapply find_stored; [apply Ho|].
      assert (Hr : registry_ok (om_set fd s (sessions_ v)) (snapshot_ v) (detached_ v))
        by by apply registry_set.
      unfold pinned. cbn [snapshot_ put_session with_sessions v1 with_sequence detached_].
      case_bool_decide; cbn [andb]; [|done].
      destruct (om_find fd (detached_ v)); [done|]. by apply registry_set_detached.
    + cbn [snapshot_ put_session with_sessions v1 with_sequence detached_] in *.
      intros x. specialize (Hc x ds). specialize (H1 x). specialize (H2 x). lia.
  - own_step. rewrite (with_snapshot_same (put_session v1 fd s)).
    apply HP; [apply Hset; by apply registry_set|done|].
    intros x. specialize (Hc x (detached_ v)).
    cbn [snapshot_ put_session with_sessions v1 with_sequence detached_] in *.
    revert x Hc. intros x Hc. specialize (H1 x). specialize (H x). lia.
Qed.

(** A handler that does nothing. *)
Lemma owns_skip v Post L : server_ok v -> steps v Post L -> owns (mret v) Post L.
Proof. intros ? HP. own_step. apply HP; [done|done|settle]. Qed.

Lemma owns_OnNewConnection v fd Post L :
  server_ok v -> steps v Post L -> owns (RtspServer.OnNewConnection v fd) Post L.
Proof.
  intros Hok HP. unfold RtspServer.OnNewConnection. own_step. apply owns_Accept.
  intros cfd L1 H1. destruct (cfd <? 0) eqn:Hfd.
  { own_step. apply HP; [done|done|]. assert (held cfd = []) as Hn.
    { unfold held, FdGuard.IsValid. by rewrite (proj2 (Z.leb_gt 0 cfd)) by lia. }
    rewrite Hn in H1. settle. }
  do 2 own_step. rewrite (held_open _ Hfd) in H1.
  destruct (Z.leb_spec (u64 (max_sessions_ v)) (len (sessions_ v))) as [|Hlt].
  { repeat own_step. apply HP; [done|done|settle]. }
  own_step. apply owns_AddFd. intros st l L2 Hl H2.
  set (v1 := with_loop (count_connection v) l).
  destruct (steps_same v v1 Post L Hok) as (Hok1 & Hh & HP1); try done; [apply Hok|].
  destruct (negb _).
  - repeat own_step. apply (HP1 HP); [done|done|settle].
  - apply owns_add_session; [done|done|lia|]. intros v' L3 Hv1 Hv2 Hv3.
    rewrite (held_open _ Hfd) in Hv3. apply HP; [done|done|]. rewrite Hh in Hv3. settle.
Qed.

Lemma owns_collect v ss Post L :
  (forall fds L', (forall x, L' x = L x) -> Post fds L') ->
  owns (RtspServer.collect_timed_out v ss) Post L.
Proof.
  revert Post L. induction ss as [|[fd s] ss IH]; intros Post L HP;
    cbn [RtspServer.collect_timed_out]; [own_step; apply HP; settle|].
  destruct (decide _).
  - own_step. apply IH. intros fds L1 H1. own_step. apply HP. settle.
  - unfold RtspSession.IsTimedOut. own_step.
    assert (Hrest : forall b L1, (forall x, L1 x = L x) ->
      owns (fds ← RtspServer.collect_timed_out v ss;
            mret (if (b : bool) then fd :: fds else fds)) Post L1).
    { intros b L1 H1. own_step. apply IH. intros fds L2 H2. own_step. apply HP. settle. }
    destruct (_ <=? 0); repeat own_step; apply IH; intros fds Lf Hl; own_step; apply HP; settle.
Qed.

Lemma owns_close_timed_out v fds Post L :
  server_ok v -> steps v Post L -> owns (RtspServer.close_timed_out v fds) Post L.
Proof.
  revert v L. induction fds as [|fd fds IH]; intros v L Hok HP;
    cbn [RtspServer.close_timed_out]; [by apply owns_skip|].
  destruct (steps_same v (count_timed_out v) Post L Hok) as (Hok1 & Hh & HP1); try done;
    [apply Hok|].
  own_step. apply owns_CloseConnection; [done|]. intros v1 L1 Hv1 Hv2 Hv3.
  apply IH; [done|]. intros v' L2 Hv4 Hv5 Hv6. apply (HP1 HP); [done|congruence|settle].
Qed.

Lemma owns_CheckTimeouts v Post L :
  server_ok v -> steps v Post L -> owns (RtspServer.CheckTimeouts v) Post L.
Proof.
  intros Hok HP. unfold RtspServer.CheckTimeouts. destruct (_ && _); [by apply owns_skip|].
  own_step. apply owns_collect. intros fds L1 H1. apply owns_close_timed_out; [done|].
  intros v' L2 Hv1 Hv2 Hv3. apply HP; [done|done|settle].
Qed.

(** A handler followed by another step. *)
Lemma owns_then v (m : M (rtsp_server Q)) (k : rtsp_server Q -> M (rtsp_server Q)) Post L :
  (forall P, steps v P L -> owns m P L) ->
  (forall v1 L1, server_ok v1 -> fixed v1 = fixed v ->
    (forall P, steps v P L -> steps v1 P L1) -> owns (k v1) Post L1) ->
  owns (m ≫= k) Post L.
Proof.
  intros Hm Hk. own_step. apply Hm. intros v1 L1 Hv1 Hv2 Hv3. apply Hk; [done|done|].
  intros P HP v' L2 Hv4 Hv5 Hv6. apply HP; [done|congruence|settle].
Qed.

Lemma owns_invoke cb fd r v Post L :
  server_ok v -> steps v Post L -> owns (RtspServer.invoke cb fd r v) Post L.
Proof.
  intros Hok HP. unfold RtspServer.invoke, RtspServer.timer_ready, RtspServer.client_ready.
  destruct cb.
  - by apply owns_OnNewConnection.
  - do 2 own_step. destruct (_ <? _).
    + apply owns_CheckTimeouts; [done|]. intros v' L2 Hv1 Hv2 Hv3.
      apply HP; [done|done|settle].
    + own_step. apply HP; [done|done|settle].
  - destruct (_ <? _); [|by apply owns_skip].
    apply (owns_then v).
    { intros P HP0. destruct (negb _); [by apply owns_ProcessConnectionData|by apply owns_skip]. }
    intros v1 L1 Hok1 _ H1. apply (owns_then v1).
    { intros P HP0. destruct (negb _); [by apply owns_OnWrite|by apply owns_skip]. }
    intros v2 L2 Hok2 _ H2.
    destruct (negb _); [apply owns_CloseConnection|apply owns_skip]; auto.
Qed.

Lemma owns_dispatch rs v Post L :
  server_ok v -> steps v Post L ->
  owns (EpollLoop.dispatch event_loop_ RtspServer.invoke rs v) Post L.
Proof.
  revert v L. induction rs as [|r rs IH]; intros v L Hok HP; cbn [EpollLoop.dispatch].
  { by apply owns_skip. }
  apply (owns_then v).
  - intros P HP0. destruct (callbacks_ (event_loop_ v) !! er_fd r) as [cb|].
    + by apply owns_invoke.
    + by apply owns_skip.
  - intros v1 L1 Hok1 _ H1. apply IH; auto.
Qed.

Lemma owns_run_once v Post L :
  server_ok v -> steps v Post L ->
  owns (EpollLoop.run_once event_loop_ RtspServer.invoke v) Post L.
Proof.
  intros Hok HP. unfold EpollLoop.run_once. own_step. apply owns_Wait. intros k rs L1 H1.
  destruct (k <? 0).
  - own_step. apply HP; [done|done|settle].
  - apply owns_dispatch; [done|]. intros v' L2 Hv1 Hv2 Hv3. apply HP; [done|done|settle].
Qed.

Lemma owns_run_loop n v Post L :
  server_ok v -> steps v Post L ->
  owns (EpollLoop.run_loop event_loop_ RtspServer.invoke n v) Post L.
Proof.
  revert v L. induction n as [|n IH]; intros v L Hok HP; cbn [EpollLoop.run_loop].
  { by apply owns_skip. }
  destruct (running_ _); [|by apply owns_skip].
  apply (owns_then v); [|intros; apply IH; auto]. intros P HP0. by apply owns_run_once.
Qed.

Lemma owns_Run n v Post L :
  server_ok v -> steps v Post L -> owns (RtspServer.Run n v) Post L.
Proof.
  intros Hok HP. unfold RtspServer.Run, EpollLoop.Run.
  destruct (negb _); [by apply owns_skip|]. destruct (negb _); [by apply owns_skip|].
  set (v1 := with_loop v _).
  destruct (steps_same v v1 Post L Hok) as (Hok1 & Hh & HP1); try done; [apply Hok|].
  apply owns_run_loop; auto.
Qed.

(** *** The broadcast *)

Lemma owns_broadcast_account v fd st s s1 Post L :
  server_ok v -> find_object v fd = Some s -> session_ok s1 ->
  fd_guard_ (conn_ s1) = fd_guard_ (conn_ s) ->
  (forall v' L', server_ok v' -> fixed v' = fixed v ->
    (forall x, L' x - cnt x (held_server v') =
      L x - (cnt x (held_server v) + cnt x (held_session s1) - cnt x (held_session s))) ->
    Post v' L') ->
  owns (RtspServer.broadcast_account v fd st s1) Post L.
Proof.
  intros Hok Hf [[Hq Hw] Hid] Hc HP. unfold RtspServer.broadcast_account.
  assert (Hput : forall v0 s2 L2, server_ok v0 -> find_object v0 fd = Some s ->
    held_server v0 = held_server v -> fixed v0 = fixed v -> session_ok s2 ->
    held_session s2 = held_session s1 -> fd_guard_ (conn_ s2) = fd_guard_ (conn_ s) ->
    (forall x, L2 x = L x) -> Post (put_object v0 fd s2) L2).
  { intros v0 s2 L2 Hok0 Hf0 Hh0 Hm0 Hs2 Hh2 Hg2 H2.
    destruct (put_object_ok v0 fd s2 s Hok0 Hf0 Hs2 Hg2) as (H3 & H4 & H5).
    apply HP; [done|congruence|]. intros x. rewrite H5, Hh0, Hh2, H2. lia. }
  destruct (steps_same v (count_dropped v) Post L Hok) as (Hok1 & Hh & _); try done; [apply Hok|].
  destruct (negb _); [destruct (_ <=? _)|].
  - own_step. apply (Hput (count_dropped v)); try done; by split.
  - own_step. apply Hput; try done; by split.
  - destruct (RtspSession.NeedFlush _).
    + own_step. apply owns_ModifyFd. intros st2 L2 H2. own_step.
      apply Hput; [done|done|done|done|by split|done|done|settle].
    + own_step. apply Hput; try done; by split.
Qed.

Lemma owns_broadcast_one p v fd Post L :
  server_ok v -> packet_ok p -> steps v Post L -> owns (RtspServer.broadcast_one p v fd) Post L.
Proof.
  intros Hok Hp HP. unfold RtspServer.broadcast_one.
  destruct (find_object v fd) as [s|] eqn:Hf; [|by apply owns_skip].
  pose proof (st_session _ (find_object_stored _ _ _ Hok Hf)) as Hs. cbn [snd] in Hs.
  own_step. apply owns_ForwardRtp; [done|done|]. intros st s1 L1 Hc Hr Hs1 H1.
  apply (owns_broadcast_account v fd st s); [done..|].
  intros v' L2 Hv1 Hv2 Hv3. apply HP; [done|done|settle].
Qed.

Lemma owns_broadcast_loop p fds v Post L :
  server_ok v -> packet_ok p -> steps v Post L ->
  owns (RtspServer.broadcast_loop p v fds) Post L.
Proof.
  revert v L. induction fds as [|fd fds IH]; intros v L Hok Hp HP;
    cbn [RtspServer.broadcast_loop]; [by apply owns_skip|].
  apply (owns_then v); [intros; by apply owns_broadcast_one|intros; apply IH; auto].
Qed.

(** The snapshot names the playing sessions. *)
Lemma playing_fds_spec v fd :
  om_sorted (sessions_ v) ->
  fd ∈ RtspServer.playing_fds v <->
  exists s, om_find fd (sessions_ v) = Some s /\ state_ s = SessionState.kPlaying.
Proof.
  intros Hs. unfold RtspServer.playing_fds. rewrite list_elem_of_fmap. split.
  - intros ([k s] & -> & [Hi Hb]%list_elem_of_In%List.filter_In). exists s.
    apply bool_decide_eq_true in Hb. split; [by apply om_In_find|done].
  - intros (s & Hf & Hp). exists (fd, s). split; [done|].
    apply list_elem_of_In, List.filter_In. split; [by apply om_find_In|].
    by apply bool_decide_eq_true.
Qed.

Lemma take_snapshot_ok v :
  server_ok v -> snapshot_ v = [] ->
  server_ok (RtspServer.take_snapshot v) /\ detached_ v = [] /\
  forall x, cnt x (held_server (RtspServer.take_snapshot v)) = cnt x (held_server v).
Proof.
  intros [H1 H2 H3 H4 H5] Hn. pose proof H5 as Hr. rewrite Hn in Hr.
  pose proof (registry_unpinned _ _ Hr) as Hd.
  split; [split; try done|split; [done|]].
  - cbn. destruct Hr as [G1 G2 _ _ _ _]. split; [done|done|constructor|constructor| |by intros ? []].
    intros fd (s & Hf & _)%playing_fds_spec; [|done]. unfold find_in. cbn. by rewrite Hf.
  - intros x. unfold held_server. cbn. by rewrite Hd.
Qed.

Lemma owns_destroy_all ss Post L :
  (forall L', (forall x, L' x = L x - cnt x (held_sessions ss)) -> Post tt L') ->
  owns (RtspServer.destroy_all ss) Post L.
Proof.
  revert L. induction ss as [|[fd s] ss IH]; intros L HP; cbn [RtspServer.destroy_all].
  { own_step. apply HP. change (held_sessions []) with (@nil Z). settle. }
  own_step. apply owns_destroy_session. intros L1 H1. apply IH. intros L2 H2. apply HP.
  intros x. rewrite held_sessions_cons. revert x. settle.
Qed.

Lemma owns_drop_snapshot v Post L :
  server_ok v ->
  (forall v' L', server_ok v' -> max_sessions_ v' = max_sessions_ v -> snapshot_ v' = [] ->
    (forall x, L' x - cnt x (held_server v') = L x - cnt x (held_server v)) -> Post v' L') ->
  owns (RtspServer.drop_snapshot v) Post L.
Proof.
  intros [H1 H2 H3 H4 [G1 G2 G3 G4 G5 G6]] HP. unfold RtspServer.drop_snapshot. own_step.
  apply owns_destroy_all. intros L1 HL1. own_step. apply HP; [split; try done|done|done|].
  - split; [done|done|constructor|constructor|by intros ? ?%not_elem_of_nil|done].
  - unfold held_server. cbn. change (held_sessions []) with (@nil Z). settle.
Qed.

Lemma owns_BroadcastRtp v p Post L :
  server_ok v -> snapshot_ v = [] -> packet_ok p ->
  (forall st, steps v (fun v' => Post (st, v')) L) ->
  owns (RtspServer.BroadcastRtp v p) Post L.
Proof.
  intros Hok Hn Hp HP. unfold RtspServer.BroadcastRtp.
  destruct (negb _); [own_step; apply HP; [done|done|settle]|].
  destruct (take_snapshot_ok v Hok Hn) as (Hok1 & Hd & Hh).
  own_step. apply owns_broadcast_loop; [done|done|]. intros v1 L1 Hv1 Hv2 Hv3.
  own_step. apply owns_drop_snapshot; [done|]. intros v2 L2 Hw1 Hw2 Hw3 Hw4. own_step.
  injection Hv2 as Hv2 _. apply HP; [done|apply fixed_eq; [by rewrite Hw2|by rewrite Hw3]|].
  intros x. specialize (Hv3 x). specialize (Hw4 x). specialize (Hh x). specialize (H x). lia.
Qed.

(** ** Starting and stopping *)

Lemma held_negative fd : fd < 0 -> held fd = [].
Proof. intros. unfold held, FdGuard.IsValid. by rewrite (proj2 (Z.leb_gt 0 fd)). Qed.

Lemma held_nonnegative fd : 0 <= fd -> held fd = [fd].
Proof. intros. unfold held, FdGuard.IsValid. by rewrite (proj2 (Z.leb_le 0 fd)). Qed.

(** What [Start] does after the listener and the event loop, up to the timer. *)
Lemma owns_Start_timer v Post L :
  server_ok (with_timer v (-1)) -> server_running_ v = false -> 0 <= timer_fd_ v ->
  (forall st, steps v (fun v' => Post (st, v')) L) ->
  owns (RtspServer.Start_timer v) Post L.
Proof.
  intros [Hb Hs Hi _ Ho] Hr Ht HP. unfold RtspServer.Start_timer.
  own_step. apply owns_AddFd. intros st l L1 Hl H1.
  destruct (negb _); repeat own_step; apply HP; try done;
    unfold held_server; cbn in *; rewrite ?Hl, ?held_none, (held_nonnegative _ Ht) in *;
    settle.
Qed.

Lemma owns_Start v Post L :
  server_ok v -> server_running_ v = false ->
  (forall st, steps v (fun v' => Post (st, v')) L) ->
  owns (RtspServer.Start v) Post L.
Proof.
  intros [Hb Hs Hi Ht Ho] Hr HP. specialize (Ht Hr). unfold RtspServer.Start.
  own_step. apply owns_Listen. intros st g L1 H1. set (v1 := with_listener v g).
  destruct (negb (Status.ok st)).
  { own_step. apply HP; [done|done|]. unfold held_server, v1. cbn. settle. }
  own_step. apply owns_Init. intros st2 l L2 H2. set (v2 := with_loop v1 l).
  change (event_loop_ v1) with (event_loop_ v) in H2.
  destruct (negb (Status.ok st2)).
  { own_step. apply HP; [done|done|]. unfold held_server, v2, v1. cbn. settle. }
  own_step. apply owns_AddFd. intros st3 l3 L3 Hl3 H3. set (v3 := with_loop v2 l3).
  change (epoll_fd_ l3 = epoll_fd_ l) in Hl3.
  assert (Hheld : forall L', (forall x, L' x = L3 x) -> forall x,
    L' x - cnt x (held_server v3) = L x - cnt x (held_server v)).
  { intros L' HL. unfold held_server, v3, v2, v1. cbn. rewrite Hl3. settle. }
  destruct (negb (Status.ok st3)); [own_step; by apply HP, Hheld|].
  own_step. own_step. set (fd := a_ret _) in *. cbn [timer_fd_ with_timer].
  assert (Hv3 : held_server v3 = held_server (with_timer v3 (-1))).
  { unfold held_server, v3, v2, v1. cbn. by rewrite (held_negative _ Ht). }
  assert (Hok3 : server_ok (with_timer v3 (-1))) by by split.
  destruct (Z.ltb_spec fd 0) as [Hfd|Hfd].
  { own_step. apply HP; [by split|done|]. intros x. rewrite <-(Hheld L3 ltac:(done) x), Hv3.
    unfold held_server. cbn. rewrite (held_negative _ Hfd). revert x. settle. }
  own_step. own_step. destruct (_ <? 0).
  - repeat own_step. apply HP; [done|done|]. intros x.
    change (with_timer (with_timer v3 fd) (-1)) with (with_timer v3 (-1)).
    rewrite <-(Hheld L3 ltac:(done) x), Hv3. revert x. settle.
  - apply owns_Start_timer; [done|done|done|]. intros st4 v' L5 Hv1 Hv2 Hx. apply HP; [done|done|].
    intros x. specialize (Hx x). rewrite <-(Hheld L3 ltac:(done) x), Hv3.
    assert (cnt x (held_server (with_timer v3 fd)) =
      cnt x (held_server (with_timer v3 (-1))) + cnt x [fd]) as Hc.
    { unfold held_server. cbn [timer_fd_ with_timer listener_ event_loop_ sessions_ detached_].
      rewrite !cnt_app, held_none, (held_nonnegative _ Hfd). cbn [cnt]. lia. }
    revert x Hx Hc. intros x Hx Hc.
    repeat match goal with H : forall _ : Z, _ = _ |- _ => specialize (H x) end.
    cbn [cnt] in *. lia.
Qed.

Lemma stored_closed fd s s' :
  stored_ok (fd, s) -> conn_ s' = conn_ s -> session_id_ s' = session_id_ s -> stored_ok (fd, s').
Proof.
  intros [H1 H2 [H3 H4]] Hc Hi. split; simpl in *; [by rewrite Hc|done|].
  split; [by rewrite Hc|by rewrite Hi].
Qed.

(** Closing every session of the map keeps the map and its descriptors of connections. *)
Lemma owns_close_all ss Post L :
  Forall stored_ok ss ->
  (forall ss' L', Forall stored_ok ss' -> fst <$> ss' = fst <$> ss ->
    (forall x, L' x - cnt x (held_sessions ss') = L x - cnt x (held_sessions ss)) ->
    Post ss' L') ->
  owns (RtspServer.close_all ss) Post L.
Proof.
  intros Hss. revert Post L.
  induction Hss as [|[fd s] ss Hs Hss IH]; intros Post L HP; cbn [RtspServer.close_all].
  { own_step. apply HP; [done|done|settle]. }
  own_step. apply owns_Close_session. intros s1 L1 Hc Hi _ H1. own_step. apply IH.
  intros ss1 L2 Hss1 Hk H2. own_step. apply HP.
  - constructor; [by eapply stored_closed|done].
  - by rewrite !fmap_cons, Hk.
  - intros x. rewrite !held_sessions_cons. revert x. settle.
Qed.

Lemma om_sorted_keys_eq ss ss' : fst <$> ss' = fst <$> ss -> om_sorted ss -> om_sorted ss'.
Proof.
  intros Hk Hs. revert ss' Hk. induction Hs as [|[k s] ss Hs IH Hall]; intros [|[k' s'] ss'] Hk;
    [constructor|done|done|]. rewrite !fmap_cons in Hk. injection Hk as ? Hk. simpl in *. subst k'.
  constructor; [by apply IH|].
  assert (Hin : forall q, In q (fst <$> ss') -> key_ltb k q = true).
  { rewrite Hk. intros q (p & -> & Hp)%list_elem_of_In%list_elem_of_fmap.
    rewrite List.Forall_forall in Hall. by apply (Hall p), list_elem_of_In. }
  apply List.Forall_forall. intros p Hp. apply Hin. by apply in_map.
Qed.

Lemma om_find_keys ss ss' fd :
  fst <$> ss' = fst <$> ss -> om_find fd ss = None -> om_find fd ss' = None.
Proof.
  revert ss'. induction ss as [|[k s] ss IH]; intros [|[k' s'] ss'] Hk; [done..|].
  rewrite !fmap_cons in Hk. injection Hk as ? Hk. simpl in *. subst k'.
  destruct (key_ltb fd k); [done|]. destruct (key_ltb k fd); [|done]. by apply IH.
Qed.

(** A map with the same keys. *)
Lemma registry_same_keys ss ss' pins ds :
  registry_ok ss pins ds -> fst <$> ss' = fst <$> ss -> Forall stored_ok ss' ->
  registry_ok ss' pins ds.
Proof.
  intros [H1 H2 H3 H4 H5 H6] Hk Hs. split; try done; [by eapply om_sorted_keys_eq|].
  intros fd Hfd. specialize (H5 fd Hfd). unfold find_in in *. destruct (om_find fd ds); [done|].
  intros Hn. by apply H5, (om_find_keys ss').
Qed.

(** Everything after the timer in [Stop]: the sessions and the listener go. *)
Lemma owns_Stop v Post L :
  server_ok v ->
  (forall v' L', server_ok v' -> fixed v' = fixed v -> server_running_ v' = false ->
    (forall x, L' x - cnt x (held_server v') = L x - cnt x (held_server v)) -> Post v' L') ->
  owns (RtspServer.Stop v) Post L.
Proof.
  intros [Hb Hs Hi Ht Ho] HP. unfold RtspServer.Stop, RtspServer.IsRunning.
  destruct (server_running_ v) eqn:Hr; cbn [negb];
    [|own_step; apply HP; [by split; auto|done|done|settle]].
  set (v1 := with_loop _ _).
  assert (Hm : 0 <= u64 (max_sessions_ v)) by (unfold u64; apply Z.mod_pos_bound; lia).
  assert (Hrest : forall v2 L2, timer_fd_ v2 < 0 -> server_running_ v2 = false ->
    sessions_ v2 = sessions_ v -> detached_ v2 = detached_ v -> fixed v2 = fixed v ->
    buffer_size_ v2 = buffer_size_ v -> sdp_ v2 = sdp_ v ->
    (forall x, L2 x - cnt x (held_server v2) = L x - cnt x (held_server v)) ->
    owns (ss ← RtspServer.close_all (sessions_ v2);
          v3 ← RtspServer.release_all (with_sessions v2 []) ss;
          g ← Listener.Close (listener_ v3);
          mret (with_listener v3 g)) Post L2).
  { intros v2 L2 Ht2 Hr2 Hs2 Hd2 Hf2 Hb2 Hsdp H2. injection Hf2 as Hm2 Hn2.
    own_step. rewrite Hs2. apply owns_close_all; [apply Ho|].
    intros ss L3 Hss Hk H3. own_step.
    apply owns_release_all; cbn [snapshot_ with_sessions detached_]; rewrite Hn2, Hd2;
      [by eapply registry_same_keys|].
    intros ds L4 Hr4 H4. unfold Listener.Close, Socket.Close. repeat own_step.
    apply HP; [split|by apply fixed_eq|done|]; cbn; rewrite ?len_nil, ?Hb2, ?Hm2, ?Hsdp; try done.
    unfold held_server in *. cbn in *. rewrite Hs2, Hd2 in *.
    match goal with H : held _ = [] |- _ => rewrite H in *; clear H end.
    change (held_sessions []) with (@nil Z). settle. }
  unfold RtspServer.Stop_timer. own_step.
  destruct (Z.leb_spec 0 (timer_fd_ v1)) as [Hfd|Hfd].
  - own_step. apply owns_RemoveFd. intros st l L1 Hl H1. do 3 own_step.
    apply Hrest; try done. unfold held_server in *. cbn in *.
    rewrite ?Hl, ?held_none, ?(held_nonnegative (timer_fd_ v) Hfd) in *. settle.
  - own_step. apply Hrest; try done. unfold held_server. cbn. settle.
Qed.

(** Destroying a server no stream thread uses releases everything it holds. *)
Lemma owns_destroy_server v Post L :
  server_ok v -> snapshot_ v = [] ->
  (forall L', (forall x, L' x = L x - cnt x (held_server v)) -> Post tt L') ->
  owns (RtspServer.destroy v) Post L.
Proof.
  intros Hok Hn HP. unfold RtspServer.destroy. own_step. apply owns_Stop; [done|].
  intros v1 L1 [_ _ _ Ht Hreg] Hf Hr H1. injection Hf as _ Hn1. rewrite Hn in Hn1. own_step.
  pose proof Hreg as Hreg1. rewrite Hn1 in Hreg1.
  apply owns_release_all; cbn [snapshot_ with_sessions detached_]; [done|].
  intros ds L2 Hr2 H2. rewrite Hn1 in Hr2. apply registry_unpinned in Hr2 as ->.
  apply registry_unpinned in Hreg1 as Hd1.
  unfold Listener.destroy, Listener.Close, Socket.Close, EpollLoop.destroy.
  repeat own_step. apply HP. unfold held_server in H1 at 1.
  rewrite (held_negative _ (Ht Hr)), Hd1 in H1. rewrite Hd1 in H2.
  change (held_sessions []) with (@nil Z) in *. cbn in *.
  match goal with H : held _ = [] |- _ => rewrite H in *; clear H end. settle.
Qed.
End invariant.

(** ** Samples *)

(** A session on descriptor 7 with this input, in this state, after [drops] drops. *)
Definition session_with (q : ring_buffer) (st : SessionState.RtspSessionState) (drops : Z)
    : rtsp_session ring_buffer :=
  mkRtspSession (mkConnection 7 q (ring_of 8 []) drops 0) st (lit "ab") [] [] false (-1) (-1)
    sockaddr_zero sockaddr_zero 0.

(** A running server with that session; listener 4, event loop 5, timer 6. *)
Definition server_with (s : rtsp_session ring_buffer) : rtsp_server ring_buffer :=
  mkRtspServer 554 1 64 (lit "0.0.0.0") 1 (mkEpollLoop 5 true 64 {[7 := OnClientReady]}) 4 true
    [] [(7, s)] 30 60 6 0 1 0 0 [] [].

Definition idle_server : rtsp_server ring_buffer :=
  server_with (session_with (ring_of 8 []) SessionState.kInit 0).

Lemma idle_server_ok : server_ok idle_server.
Proof.
  split; [by vm_compute|by vm_compute|by vm_compute|done|].
  split; [|by repeat constructor|constructor|constructor|by intros ? ?%not_elem_of_nil|done].
  constructor; [|constructor]. split; [done|done|].
  split; [|by vm_compute]. split; split; vm_compute; repeat split; discriminate.
Defined.

(** A server as it is constructed. *)
Definition fresh_server : rtsp_server ring_buffer :=
  RtspServer.RtspServer (lit "0.0.0.0") 8554 4 1024 30 60.

Lemma fresh_server_ok : server_ok fresh_server.
Proof.
  split; [by vm_compute|by vm_compute|by vm_compute|done|]. apply registry_empty.
Defined.
