(* ===== verification/Footprint.v ===== *)
(** * Which connections an operation reads and writes

    [does P m Post]: every call [m] makes satisfies [P], and its result satisfies
    [Post].  A handler of a client receives and sends on that client's descriptor
    only, and what it does to a request receives nothing. *)
From stdpp Require Import gmap.
From S2P Require Import Prelude Status OrderedMap Text Kernel SampleKernel ByteQueue RingBuf FdGuard Owner Sock.
From S2P Require Import Epoll Conn Parser Builder Forwarder Session Server ServerInv.

Definition does `{K : Kernel} (P : syscall -> Prop) {A} (m : M A) (Post : A -> Prop) : Prop :=
  forall w a w', m w = Done a w' ->
  Post a /\ exists tr, w_trace w' = w_trace w ++ tr /\ Forall (fun e => P (fst e)) tr.

(** Input only from [R], output only to [W]. *)
Definition io_within (R W : Z -> Prop) (c : syscall) : Prop :=
  match c with
  | SysRecv fd _ => R fd
  | SysSend fd _ | SysWritev fd _ => W fd
  | _ => True
  end.

Definition nowhere : Z -> Prop := fun _ => False.

(** What came in on a descriptor. *)
Definition arrived (fd : Z) (ev : event) : bytes :=
  match ev with
  | (SysRecv f _, a) => if (f =? fd) && (0 <? a_ret a) then a_data a else []
  | _ => []
  end.

Definition received (fd : Z) (tr : list event) : bytes := tr ≫= arrived fd.

Lemma received_snoc fd tr ev : received fd (tr ++ [ev]) = received fd tr ++ arrived fd ev.
Proof. unfold received. rewrite bind_app. cbn. by rewrite app_nil_r. Qed.

Section rules.
Context `{K : Kernel}.

Lemma does_ret P {A} (a : A) Post : Post a -> does P (mret a) Post.
Proof. intros Ha w ? ? [= <- <-]. split; [done|]. exists []. by rewrite app_nil_r. Qed.

Lemma does_bind P {A B} (m : M A) (k : A -> M B) Post :
  does P m (fun a => does P (k a) Post) -> does P (m ≫= k) Post.
Proof.
  intros Hm w b w2 Hrun. unfold mbind, M_bind in Hrun. destruct (m w) as [a w1|] eqn:Hw; [|done].
  destruct (Hm _ _ _ Hw) as (Hk & tr1 & Ht1 & H1).
  destruct (Hk _ _ _ Hrun) as (Hb & tr2 & Ht2 & H2).
  split; [done|]. exists (tr1 ++ tr2). split; [by rewrite Ht2, Ht1, app_assoc|].
  by apply Forall_app.
Qed.

Lemma does_mono (P P' : syscall -> Prop) {A} (m : M A) (Post Post' : A -> Prop) :
  does P m Post -> (forall c, P c -> P' c) -> (forall a, Post a -> Post' a) -> does P' m Post'.
Proof.
  intros Hm HP HPost w a w' Hrun. destruct (Hm _ _ _ Hrun) as (Ha & tr & Ht & Hf).
  split; [by apply HPost|]. exists tr. split; [done|]. eapply Forall_impl; [exact Hf|]. auto.
Qed.

Lemma does_weaken P {A} (m : M A) (Post Post' : A -> Prop) :
  does P m Post -> (forall a, Post a -> Post' a) -> does P m Post'.
Proof. intros. by eapply does_mono. Qed.

Lemma does_sys (P : syscall -> Prop) c (Post : answer -> Prop) :
  P c -> (forall a, Post a) -> does P (sys c) Post.
Proof.
  intros Hc HP w a w'. cbv [sys]. intros [= <- <-]. split; [done|].
  eexists. split; [reflexivity|]. by repeat constructor.
Qed.

(** A command that makes no call. *)
Lemma does_pure P {A} (m : M A) (Post : A -> Prop) :
  (forall w a w', m w = Done a w' -> Post a /\ w' = w) -> does P m Post.
Proof.
  intros Hm w a w' Hrun. destruct (Hm _ _ _ Hrun) as [? ->]. split; [done|].
  exists []. by rewrite app_nil_r.
Qed.

Lemma does_ub P {A} p (o : option A) (Post : A -> Prop) :
  (forall a, o = Some a -> Post a) -> does P (ub_at p o) Post.
Proof. intros HP. apply does_pure. intros w a w'. destruct o; intros [= <- <-]. eauto. Qed.

Lemma does_or_abort P {A} (o : option A) (Post : A -> Prop) :
  (forall a, Post a) -> does P (or_abort o) Post.
Proof. intros HP. apply does_pure. intros w a w'. destruct o; intros [= <- <-]. eauto. Qed.

Lemma does_alloc P n (Post : ptr -> Prop) : (forall m, Post m) -> does P (alloc n) Post.
Proof. intros HP. apply does_pure. by intros w a w' [= <- <-]. Qed.

Lemma does_errno P (Post : Z -> Prop) : (forall e, Post e) -> does P get_errno Post.
Proof. intros HP. apply does_pure. by intros w a w' [= <- <-]. Qed.

(** What a ledger argument says of results holds here too. *)
Lemma does_owned P {A} (m : M A) (Post : A -> Prop) (R : A -> ledger -> Prop) L :
  does P m Post -> owns m R L -> does P m (fun a => Post a /\ exists L', R a L').
Proof.
  intros Hm Hown w a w' Hrun. destruct (Hm _ _ _ Hrun) as (Ha & Ht). split; [|done].
  split; [done|]. eexists. exact (owns_elim _ _ _ _ _ _ Hown Hrun).
Qed.

Lemma does_received fd R W {A} (m : M A) Post w a w' :
  does (io_within R W) m Post -> (R fd -> False) -> m w = Done a w' ->
  received fd (w_trace w') = received fd (w_trace w).
Proof.
  intros Hm HR Hrun. destruct (Hm _ _ _ Hrun) as (_ & tr & -> & Hf).
  unfold received. rewrite bind_app. fold (received fd tr).
  enough (received fd tr = []) as -> by apply app_nil_r.
  induction Hf as [|[c x] tr Hc _ IH]; [done|].
  change (received fd ((c, x) :: tr)) with (arrived fd (c, x) ++ received fd tr).
  rewrite IH, app_nil_r. destruct c; try done. cbn in *. destruct (Z.eqb_spec fd0 fd) as [->|]; done.
Qed.

Lemma does_wire fd R W {A} (m : M A) Post w a w' :
  does (io_within R W) m Post -> (W fd -> False) -> m w = Done a w' ->
  wire fd (w_trace w') = wire fd (w_trace w).
Proof.
  intros Hm HW Hrun. destruct (Hm _ _ _ Hrun) as (_ & tr & -> & Hf).
  rewrite wire_app. enough (wire fd tr = []) as -> by apply app_nil_r.
  induction Hf as [|[c x] tr Hc _ IH]; [done|].
  change (wire fd ((c, x) :: tr)) with (accepted fd (c, x) ++ wire fd tr). rewrite IH, app_nil_r.
  destruct c; try done; cbn in *; destruct (Z.eqb_spec fd0 fd) as [->|]; done.
Qed.
End rules.

Lemma wp_received `{K : Kernel} fd R W {A} (m : M A) P Post w :
  does (io_within R W) m Post -> (R fd -> False) -> wp m P w ->
  wp m (fun a w' => P a w' /\ received fd (w_trace w') = received fd (w_trace w)) w.
Proof.
  intros Hm HR Hwp. unfold wp in *. destruct (m w) as [a w'|] eqn:Hrun; [|done].
  split; [done|]. exact (does_received fd _ _ _ _ _ _ _ Hm HR Hrun).
Qed.

Lemma does_result `{K : Kernel} P {A} (m : M A) Post w a w' :
  does P m Post -> m w = Done a w' -> Post a.
Proof. intros Hm Hrun. by destruct (Hm _ _ _ Hrun). Qed.

#[global] Opaque does.

(** One step, and all of them with the case distinctions. *)
Ltac does_step :=
  match goal with
  | |- does _ (mbind _ _) _ => apply does_bind
  | |- does _ (mret _) _ => apply does_ret
  | |- does _ (ub_at _ _) _ => apply does_ub; intros ? ?
  | |- does _ (ub _) _ => apply does_ub; intros ? ?
  | |- does _ (or_abort _) _ => apply does_or_abort; intros ?
  | |- does _ (alloc _) _ => apply does_alloc; intros ?
  | |- does _ get_errno _ => apply does_errno; intros ?
  | |- does _ (sys _) _ => apply does_sys; [cbn; try done|intros ?]
  | |- does _ (match ?x with _ => _ end) _ => destruct x eqn:?
  | |- does _ (let '(_, _) := ?x in _) _ => destruct x eqn:?
  end.
Ltac does_steps := repeat (does_step; cbv beta).

(** Go past an operation with a footprint lemma. *)
Ltac does_call H := eapply does_weaken; [eapply H|].

Section operations.
Context `{K : Kernel} {Q : Type} `{BQ : !ByteQueue Q}.
Implicit Types c : connection Q.
Implicit Types s : rtsp_session Q.
Implicit Types v : rtsp_server Q.

(** *** Connections *)

Lemma does_Close R W g (Post : Z -> Prop) :
  (forall g', Post g') -> does (io_within R W) (FdGuard.Close g) Post.
Proof. intros HP. unfold FdGuard.Close. by does_steps. Qed.

Lemma does_guard_destroy R W g (Post : unit -> Prop) :
  Post tt -> does (io_within R W) (FdGuard.destroy g) Post.
Proof. intros HP. unfold FdGuard.destroy. does_step. apply does_Close. intros. by does_step. Qed.

Lemma does_Reset R W g fd (Post : Z -> Prop) :
  Post fd -> does (io_within R W) (FdGuard.Reset g fd) Post.
Proof. intros HP. unfold FdGuard.Reset. does_step. apply does_Close. intros. by does_step. Qed.

Definition same_conn c c' : Prop := Connection.fd c' = Connection.fd c.

Lemma does_Send c d n :
  does (io_within nowhere (eq (Connection.fd c))) (Connection.Send c d n)
    (fun '(_, c') => same_conn c c').
Proof. unfold Connection.Send, Connection.send_direct. by does_steps. Qed.

Lemma does_SendV c iov n total :
  does (io_within nowhere (eq (Connection.fd c))) (Connection.SendV c iov n total)
    (fun '(_, c') => same_conn c c').
Proof. unfold Connection.SendV, Connection.sendv_direct. by does_steps. Qed.

Lemma does_Flush c :
  does (io_within nowhere (eq (Connection.fd c))) (Connection.Flush c)
    (fun '(_, c') => same_conn c c').
Proof. unfold Connection.Flush. by does_steps. Qed.

Lemma does_Recv c :
  does (io_within (eq (Connection.fd c)) nowhere) (Connection.Recv c)
    (fun '(_, c') => same_conn c c').
Proof. unfold Connection.Recv. by does_steps. Qed.

(** *** Sessions *)

(** A session's connection is on [fd]. *)
Definition on (fd : Z) s : Prop := RtspSession.fd s = fd.

Lemma on_with_conn fd s c : on fd s -> same_conn (conn_ s) c -> on fd (RtspSession.with_conn s c).
Proof. intros <- Hc. exact Hc. Qed.

Lemma does_send_response fd s d :
  on fd s -> does (io_within nowhere (eq fd)) (RtspSession.send_response s d) (on fd).
Proof.
  intros <-. unfold RtspSession.send_response. does_step. does_call does_Send.
  intros [r c] Hc. by does_step.
Qed.

Lemma does_CreateUdpSocket R W port :
  does (io_within R W) (RtspSession.CreateUdpSocket port) (fun _ => True).
Proof. unfold RtspSession.CreateUdpSocket. by does_steps. Qed.

(** Answer, and return. *)
Ltac does_reply :=
  does_step; eapply does_weaken; [by apply does_send_response|]; intros ? ?; try by does_step.

Lemma does_HandleSetup_udp fd s r :
  on fd s ->
  does (io_within nowhere (eq fd)) (RtspSession.HandleSetup_udp s r) (fun '(_, s') => on fd s').
Proof.
  intros Hs. unfold RtspSession.HandleSetup_udp, RtspSession.local_port, RtspSession.peer_addr.
  does_step; [does_reply|].
  do 2 (does_step; does_call does_CreateUdpSocket; intros ? _).
  does_step.
  - does_reply. do 2 (does_step; apply does_guard_destroy). by does_step.
  - cbn [FdGuard.Release]. do 2 (does_step; apply does_Reset).
    repeat first [does_reply|does_step].
    apply does_guard_destroy. does_step. apply does_guard_destroy. by does_step.
Qed.

Lemma does_HandleRequest fd sdp s r :
  on fd s ->
  does (io_within nowhere (eq fd)) (RtspSession.HandleRequest sdp s r) (fun '(_, s') => on fd s').
Proof.
  intros Hs. unfold RtspSession.HandleRequest.
  destruct (method r); unfold RtspSession.HandleOptions, RtspSession.HandleDescribe,
    RtspSession.HandleSetup, RtspSession.HandlePlay, RtspSession.HandlePause,
    RtspSession.HandleTeardown, RtspSession.HandleParameter; try does_reply.
  - destruct sdp; does_reply.
  - set (s0 := match om_find _ _ with Some v => _ | None => _ end).
    assert (Hs0 : on fd s0) by (subst s0; by destruct (om_find _ _)).
    destruct (is_udp _); [by apply does_HandleSetup_udp|]. destruct (_ || _); does_reply.
  - unfold RtspSession.Close. do 2 does_step. apply does_Close. intros g1.
    does_step. apply does_Close. intros g2. by do 2 does_step.
Qed.

Lemma does_ProcessData fd sdp s d n :
  on fd s ->
  does (io_within nowhere (eq fd)) (RtspSession.ProcessData sdp s d n) (fun '(_, s') => on fd s').
Proof.
  intros Hs. unfold RtspSession.ProcessData, RtspSession.UpdateActivity.
  repeat first [by apply does_HandleRequest|does_step; cbv beta]. done.
Qed.

Lemma does_destroy R W s (Post : unit -> Prop) :
  Post tt -> does (io_within R W) (RtspSession.destroy s) Post.
Proof.
  intros HP. unfold RtspSession.destroy, RtspSession.Close, Connection.destroy, Connection.Close.
  repeat first [apply does_Close; intros ?|apply does_guard_destroy|done|does_step].
Qed.

(** *** The event loop's registrations *)

Lemma does_ModifyFd R W (l : epoll_loop callback) fd ev (Post : status -> Prop) :
  (forall st, Post st) -> does (io_within R W) (EpollLoop.ModifyFd l fd ev) Post.
Proof. intros HP. unfold EpollLoop.ModifyFd. by does_steps. Qed.

Lemma does_RemoveFd R W (l : epoll_loop callback) fd (Post : status * epoll_loop callback -> Prop) :
  (forall st l', callbacks_ l' ⊆ callbacks_ l ->
    (forall k, k <> fd -> callbacks_ l' !! k = callbacks_ l !! k) -> Post (st, l')) ->
  does (io_within R W) (EpollLoop.RemoveFd l fd) Post.
Proof.
  intros HP. unfold EpollLoop.RemoveFd. does_steps; apply HP; try done.
  - apply delete_subseteq.
  - intros k Hk. by apply lookup_delete_ne.
Qed.

(** *** The handlers of a client *)

(** The maps are in order and that of the sessions has at [fd] a session on the descriptor [fd]. *)
Record keyed (fd : Z) v : Prop := {
  ky_sorted : om_sorted (sessions_ v);
  ky_fd : forall s, om_find fd (sessions_ v) = Some s -> on fd s;
  ky_detached : om_sorted (detached_ v);
}.

(** What no handler of a client changes: the description and the two limits. *)
Definition settings v : bytes * Z * Z :=
  (sdp_ v, connection_timeout_sec_ v, session_timeout_sec_ v).

(** No other session and no other callback has changed, nor have the settings and
    what the stream thread points to. *)
Record only_at (fd : Z) v v' : Prop := {
  oa_keyed : keyed fd v';
  oa_settings : settings v' = settings v;
  oa_callbacks : callbacks_ (event_loop_ v') ⊆ callbacks_ (event_loop_ v);
  oa_kept k : k <> fd -> callbacks_ (event_loop_ v') !! k = callbacks_ (event_loop_ v) !! k;
  oa_others k : k <> fd -> om_find k (sessions_ v') = om_find k (sessions_ v);
  oa_snapshot : snapshot_ v' = snapshot_ v;
  oa_detached k : k <> fd -> om_find k (detached_ v') = om_find k (detached_ v);
}.

Lemma only_at_refl fd v : keyed fd v -> only_at fd v v.
Proof. by split. Qed.

Lemma only_at_trans fd v1 v2 v3 : only_at fd v1 v2 -> only_at fd v2 v3 -> only_at fd v1 v3.
Proof.
  intros [_ E1 C1 K1 H1 S1 D1] [? E2 C2 K2 H2 S2 D2].
  split; [done|congruence|by etrans|..|congruence|]; intros k Hk.
  - by rewrite K2, K1.
  - by rewrite H2, H1.
  - by rewrite D2, D1.
Qed.

Lemma only_at_put fd v s : keyed fd v -> on fd s -> only_at fd v (put_session v fd s).
Proof.
  intros [Hs _ Hd] Hfd. split.
  - split; [by apply om_set_sorted| |done]. cbn. rewrite om_find_set_eq. by intros s' [= <-].
  - done.
  - done.
  - done.
  - intros k Hk. cbn. by rewrite om_find_set_ne.
  - done.
  - done.
Qed.

Lemma does_CloseConnection R W v fd :
  keyed fd v -> does (io_within R W) (RtspServer.CloseConnection v fd) (only_at fd v).
Proof.
  intros Hv. pose proof Hv as [Hs _ Hd]. unfold RtspServer.CloseConnection.
  destruct (om_find fd (sessions_ v)) as [s|] eqn:Hf; [|does_step; by apply only_at_refl].
  does_step. apply does_RemoveFd. intros st l Hl Hl'.
  assert (Hgone : forall ds, om_sorted ds ->
    (forall k, k <> fd -> om_find k ds = om_find k (detached_ v)) ->
    only_at fd v
    (with_snapshot (with_sessions (with_loop v l) (om_erase fd (sessions_ v))) (snapshot_ v) ds)).
  { intros ds Hds Hother. split.
    - split; [by apply om_erase_sorted| |done]. cbn. by rewrite om_find_erase_eq.
    - done.
    - done.
    - done.
    - intros k Hk. cbn. by rewrite om_find_erase_ne.
    - done.
    - done. }
  unfold RtspServer.release. destruct (pinned _ _).
  { does_step. apply Hgone; [by apply om_set_sorted|].
    intros k Hk. by apply om_find_set_ne. }
  does_step. apply does_destroy. does_step.
  rewrite (with_snapshot_same (with_sessions (with_loop v l) (om_erase fd (sessions_ v)))).
  by apply Hgone.
Qed.

Lemma does_process_loop fuel v fd s :
  keyed fd v -> on fd s ->
  does (io_within nowhere (eq fd)) (RtspServer.process_loop fuel v fd s) (only_at fd v).
Proof.
  intros Hv. revert s. induction fuel as [|fuel IH]; intros s Hs; cbn [RtspServer.process_loop];
    (destruct (0 <? _); [|does_step; by apply only_at_put]); [by apply does_pure|].
  pose proof (only_at_put fd v s Hv Hs) as Hput.
  do 2 does_step. destruct a as [st header].
  destruct (_ && _); [destruct (_ <? _); [by does_step|by apply IH]|].
  do 2 does_step. destruct (a =? npos).
  - destruct (_ <=? _); [|by does_step]. eapply does_weaken; [apply does_CloseConnection, Hput|].
    intros v'. by apply only_at_trans.
  - destruct (_ <? _); [by does_step|]. does_step.
    eapply does_weaken; [by apply does_ProcessData|]. intros [st1 s1] H1. does_step.
    assert (Hn : does (io_within nowhere (eq fd))
      (RtspServer.process_loop fuel v fd (RtspSession.Consume s1 (u64 (a + 4)))) (only_at fd v))
      by by apply IH.
    destruct (RtspSession.NeedFlush _); [by apply does_ModifyFd|by does_step].
Qed.

Lemma io_within_mono (R R' W W' : Z -> Prop) (c : syscall) :
  (forall fd, R fd -> R' fd) -> (forall fd, W fd -> W' fd) -> io_within R W c -> io_within R' W' c.
Proof. destruct c; cbn; auto. Qed.

(** What a client's handlers do to the connections: both directions of its own. *)
Definition io_on (fd : Z) : syscall -> Prop := io_within (eq fd) (eq fd).

Lemma does_OnRead v fd : keyed fd v -> does (io_on fd) (RtspServer.OnRead v fd) (only_at fd v).
Proof.
  intros Hv. unfold RtspServer.OnRead, RtspServer.ProcessConnectionData.
  destruct (om_find fd (sessions_ v)) as [s|] eqn:Hf; [|does_step; by apply only_at_refl].
  pose proof (ky_fd _ _ Hv s Hf) as Hs.
  destruct (RtspSession.IsClosed s); [by apply does_CloseConnection|].
  unfold RtspSession.Recv. do 2 does_step.
  eapply does_mono; [apply does_Recv|intros c; apply io_within_mono; [by intros ? <-|done]|].
  intros [ret c] Hc. does_step.
  assert (Hput : only_at fd v (put_session v fd (RtspSession.with_conn s c)))
    by (apply only_at_put; [done|]; by apply on_with_conn).
  assert (Hclose : does (io_on fd) (RtspServer.CloseConnection
    (put_session v fd (RtspSession.with_conn s c)) fd) (only_at fd v)).
  { eapply does_weaken; [apply does_CloseConnection, Hput|]. intros v'. by apply only_at_trans. }
  destruct (_ <? _); [done|]. destruct (_ =? _); [done|].
  eapply does_mono; [apply does_process_loop; [apply Hput|]| |].
  - by apply on_with_conn.
  - intros call. by apply io_within_mono.
  - intros v'. by apply only_at_trans.
Qed.

Lemma does_OnWrite v fd :
  keyed fd v -> does (io_within nowhere (eq fd)) (RtspServer.OnWrite v fd) (only_at fd v).
Proof.
  intros Hv. unfold RtspServer.OnWrite.
  destruct (om_find fd (sessions_ v)) as [s|] eqn:Hf; [|does_step; by apply only_at_refl].
  pose proof (ky_fd _ _ Hv s Hf) as Hs.
  destruct (RtspSession.IsClosed s); [by apply does_CloseConnection|].
  unfold RtspSession.Flush. do 2 does_step.
  eapply does_mono; [apply does_Flush|intros c; apply io_within_mono; [done|by intros ? <-]|].
  intros [ret c] Hc. does_step.
  assert (Hput : only_at fd v (put_session v fd (RtspSession.with_conn s c)))
    by (apply only_at_put; [done|]; by apply on_with_conn).
  destruct (_ <? _).
  { eapply does_weaken; [apply does_CloseConnection, Hput|]. intros v'. by apply only_at_trans. }
  destruct (negb _); [|by does_step]. does_step. apply does_ModifyFd. intros st. by does_step.
Qed.

Lemma does_client_ready v fd r :
  keyed fd v -> does (io_on fd) (RtspServer.client_ready v fd r) (only_at fd v).
Proof.
  intros Hv. unfold RtspServer.client_ready.
  assert (Hthen : forall (b : bool) v1 (m : rtsp_server Q -> M (rtsp_server Q)),
    only_at fd v v1 -> (forall v, keyed fd v -> does (io_on fd) (m v) (only_at fd v)) ->
    does (io_on fd) (if b then m v1 else mret v1) (only_at fd v)).
  { intros b v1 m H1 Hm. destruct b; [|by does_step].
    eapply does_weaken; [apply Hm, H1|]. intros v2. by apply only_at_trans. }
  destruct (0 <? fd); [|does_step; by apply only_at_refl].
  does_step. eapply does_weaken.
  { apply (Hthen _ v (fun v => RtspServer.OnRead v fd));
      [by apply only_at_refl|intros; by apply does_OnRead]. }
  intros v1 H1. does_step. eapply does_weaken.
  { apply (Hthen _ v1 (fun v => RtspServer.OnWrite v fd)); [done|]. intros v0 H0.
    eapply does_mono; [by apply does_OnWrite|intros c; by apply io_within_mono|done]. }
  intros v2 H2. apply (Hthen _ v2 (fun v => RtspServer.OnError v fd)); [done|].
  intros v0 H0. by apply does_CloseConnection.
Qed.
End operations.

(** ** Property *)

Section isolation.
Context `{K : Kernel} `{KL : !KernelLaws} {Q : Type} `{BQ : !ByteQueue Q}
  `{BL : !ByteQueueLaws Q}.

Lemma keyed_ok v fd : server_ok v -> keyed fd v.
Proof.
  intros Hok. split; [by apply ok_sorted| |by eapply rg_detached_sorted, ok_registry]. intros s Hf.
  by destruct (om_find_stored _ _ _ Hok Hf).
Qed.

(** C5: Clients are isolated from each other.  Whatever happens on the connection of
    one client -- requests, refused requests, errors, its end -- the session of every
    other client stays exactly as it is, nothing is read from that client's
    connection, and nothing is written to it, so that its output stream is the same. *)
Theorem clients_are_isolated v fd r k s w v' w' :
  server_ok v -> k <> fd -> om_find k (sessions_ v) = Some s ->
  RtspServer.client_ready v fd r w = Done v' w' ->
  om_find k (sessions_ v') = Some s /\
  received k (w_trace w') = received k (w_trace w) /\
  stream (conn_ s) w' = stream (conn_ s) w.
Proof.
  intros Hok Hk Hf Hrun. pose proof (does_client_ready v fd r (keyed_ok v fd Hok)) as Hdoes.
  assert (Hne : fd = k -> False) by congruence.
  split; [|split].
  - by rewrite (oa_others _ _ _ (does_result _ _ _ _ _ _ Hdoes Hrun) k Hk).
  - exact (does_received k _ _ _ _ _ _ _ Hdoes Hne Hrun).
  - unfold stream. f_equal. destruct (om_find_stored _ _ _ Hok Hf) as [Hfd _ _]. cbn in Hfd.
    unfold Connection.fd, FdGuard.fd. rewrite Hfd.
    exact (does_wire k _ _ _ _ _ _ _ Hdoes Hne Hrun).
Qed.
End isolation.

(** *** Witness *)

(** The client of [fd] sends [text], which arrives [n] bytes at a time; nothing
    arrives from others; all output is accepted. *)
Definition sending (fd : Z) (text : bytes) (n : Z) : list event -> syscall -> answer :=
  fun tr c =>
  match c with
  | SysRecv f m =>
    if f =? fd then
      let d := ztake (Z.min n m) (zdrop (len (received fd tr)) text) in
      mkAnswer (len d) EAGAIN d sockaddr_zero []
    else returns (-1)
  | _ => returns (default 0 (transfer_limit c))
  end.

(** Two clients. *)
Definition new_client (fd : Z) : rtsp_session ring_buffer :=
  mkRtspSession (mkConnection fd (ring_of 256 []) (ring_of 1024 []) 0 0)
    SessionState.kInit (lit "ab") [] [] false (-1) (-1) sockaddr_zero sockaddr_zero 0.

Definition two_clients : rtsp_server ring_buffer :=
  mkRtspServer 554 2 64 (lit "0.0.0.0") 1
    (mkEpollLoop 5 true 64 {[7 := OnClientReady; 8 := OnClientReady]}) 4 true
    [] [(7, new_client 7); (8, new_client 8)] 30 60 6 0 2 0 0 [] [].

Definition readable_at (fd : Z) : EventResult := mkEventResult fd kRead.

Lemma two_clients_ok : server_ok two_clients.
Proof.
  split; [by vm_compute|by vm_compute|by vm_compute|done|].
  split; [|by repeat constructor|constructor|constructor|by intros ? ?%not_elem_of_nil|done].
  repeat constructor; cbn; try done; try (split; vm_compute; repeat split; discriminate); by vm_compute.
Defined.

(** The client of 8 asks for the options and is answered. *)
Definition asking : Kernel :=
  sample_kernel (sending 8 (lit "OPTIONS * RTSP/1.0" ++ crlf ++ lit "CSeq: 1" ++ crlf ++ crlf) 60).

Lemma clients_are_isolated_witness :
  exists v w, RtspServer.client_ready (K := asking) two_clients 8 (readable_at 8) world0 = Done v w /\
    0 < len (wire 8 (w_trace w)) /\ om_find 7 (sessions_ v) = Some (new_client 7).
Proof.
  eexists _, _. split; [vm_compute; reflexivity|]. split; [by vm_compute|].
  eapply (clients_are_isolated (K := asking) two_clients 8 (readable_at 8) 7 (new_client 7)
    world0); [exact two_clients_ok|discriminate|reflexivity|vm_compute; reflexivity].
Defined.
