(* ===== verification/Framing.v ===== *)
(** * The framing of the input (src/src/core/rtsp_server.cc, ProcessConnectionData)

    What the loop over a session's input does, against an abstract description of
    what heads the input ([next_message]): the interleaved frames it skips, the
    requests it hands over, and the request that wraps around the end of the ring. *)
From stdpp Require Import gmap.
From S2P Require Import Prelude Status OrderedMap Kernel SampleKernel ByteQueue RingBuf.
From S2P Require Import FdGuard Owner Sock Epoll Conn Parser Forwarder Session Server ServerInv.

(** ** The framing of the input, abstractly *)

(** What stands at the head of the input: an interleaved frame or a request, with
    its length; not yet complete; or a request that is too long. *)
Inductive message_kind :=
  | Frame (total : Z)
  | Request (total : Z)
  | Incomplete
  | TooLarge.

Definition next_message (q : bytes) : message_kind :=
  match q with
  | a :: _ :: c :: d :: _ =>
    if byte_val a =? 36 then
      let total := 4 + (byte_val c * 256 + byte_val d) in
      if len q <? total then Incomplete else Frame total
    else match find_sub (crlf ++ crlf) q with
         | Some i => Request (i + 4)
         | None => if kMaxRtspRequestDataLen <=? len q then TooLarge else Incomplete
         end
  | _ => Incomplete
  end.

Section framing.
Context `{K : Kernel} {Q : Type} `{BQ : !ByteQueue Q} `{BL : !ByteQueueLaws Q}.
Implicit Types v : rtsp_server Q.
Implicit Types s : rtsp_session Q.

Lemma two_bytes a b : 0 <= a < 256 -> 0 <= b < 256 -> u16 (Z.lor (Z.shiftl a 8) b) = a * 256 + b.
Proof.
  intros Ha Hb. rewrite Z.shiftl_mul_pow2 by lia.
  assert (Hl : Z.land (a * 2 ^ 8) b = 0).
  { apply Z.bits_inj'. intros n Hn. rewrite Z.land_spec, Z.bits_0.
    destruct (Z.ltb_spec n 8); [by rewrite Z.mul_pow2_bits_low|].
    assert (Z.testbit b n = false) as ->; [|by rewrite andb_false_r].
    apply Z.testbit_false; [done|]. rewrite Z.div_small; [done|].
    split; [lia|]. apply Z.lt_le_trans with (2 ^ 8); [lia|]. apply Z.pow_le_mono_r; lia. }
  pose proof (Z.add_lor_land (a * 2 ^ 8) b) as Hadd. rewrite Hl in Hadd.
  change (2 ^ 8) with 256 in *. unfold u16. rewrite Z.mod_small; lia.
Qed.

(** What the first test of the loop sees of a queue. *)
Lemma peek_four (q : Q) :
  bq_inv q ->
  bq_Peek q (Some (replicate 4 NUL)) 4 =
  Some (match bq_contents q with
        | a :: b :: c :: d :: _ => (Status.Ok, Some [a; b; c; d])
        | _ => (Status.Error (lit "not enough data"), Some (replicate 4 NUL))
        end).
Proof.
  intros Hq. rewrite bq_Peek_spec by (done || vm_compute; split; discriminate).
  unfold Fifo.peek. destruct (bq_contents q) as [|a [|b [|c [|d l]]]]; try done.
  rewrite (proj2 (Z.ltb_ge _ 4)); [done|]. rewrite !len_cons. pose proof (len_nonneg l). lia.
Qed.

Lemma find_terminator (q : Q) :
  bq_inv q ->
  bq_FindSubstring q (Some (crlf ++ crlf)) 4 0 =
  Some (default npos (find_sub (crlf ++ crlf) (bq_contents q))).
Proof. intros Hq. by rewrite bq_FindSubstring_spec by (done || vm_compute; split; discriminate). Qed.

Lemma terminator_short q : len q < 4 -> find_sub (crlf ++ crlf) q = None.
Proof. intros. by apply find_sub_short. Qed.

(** Handling one complete request of [n] bytes at [text], then going on. *)
Definition request_turn (next : rtsp_session Q -> M (rtsp_server Q)) v (fd : Z) s (text : bytes)
    (n : Z) : M (rtsp_server Q) :=
  '(_, s) ← RtspSession.ProcessData (RtspServer.GetSdp v) s (Some text) n;
  let s := RtspSession.Consume s n in
  _ ← (if RtspSession.NeedFlush s
       then EpollLoop.ModifyFd (event_loop_ v) fd (Z.lor kRead kWrite)
       else mret Status.Ok);
  next s.

Lemma process_loop_turn fuel v fd s w :
  bq_inv (read_buffer_ (conn_ s)) -> bq_contents (read_buffer_ (conn_ s)) <> [] ->
  RtspServer.process_loop (S fuel) v fd s w =
  match next_message (bq_contents (read_buffer_ (conn_ s))) with
  | Incomplete => mret (put_session v fd s)
  | TooLarge => RtspServer.CloseConnection (put_session v fd s) fd
  | Frame n =>
    RtspServer.process_loop fuel v fd (RtspSession.Consume s n)
  | Request n => request_turn (RtspServer.process_loop fuel v fd) v fd s
                   (RtspSession.GetReadBuffer s) n
  end w.
Proof.
  intros Hq Hne. pose proof (bq_capacity_spec _ Hq) as Hcap.
  cbn [RtspServer.process_loop]. unfold RtspSession.GetReadBufferSize, RtspSession.Peek,
    RtspSession.FindSubstring, Connection.GetReadBufferSize, Connection.Peek,
    Connection.FindSubstring.
  rewrite bq_ReadableSize_spec, peek_four, find_terminator by done.
  assert (Hpos : 0 < len (bq_contents (read_buffer_ (conn_ s)))).
  { pose proof (len_nonneg (bq_contents (read_buffer_ (conn_ s)))).
    destruct (decide (len (bq_contents (read_buffer_ (conn_ s))) = 0)) as [H0|]; [|lia].
    by apply len_0 in H0. }
  rewrite (proj2 (Z.ltb_lt 0 _)) by done.
  remember (bq_contents (read_buffer_ (conn_ s))) as q eqn:Hqe.
  assert (Hshort : len q < 4 -> find_sub (crlf ++ crlf) q = None) by apply terminator_short.
  assert (Hend : (if default npos (find_sub (crlf ++ crlf) q) =? npos
    then if kMaxRtspRequestDataLen <=? len q
         then RtspServer.CloseConnection (put_session v fd s) fd
         else mret (put_session v fd s)
    else if len q <? u64 (default npos (find_sub (crlf ++ crlf) q) + 4)
         then mret (put_session v fd s)
         else request_turn (RtspServer.process_loop fuel v fd) v fd s
                (RtspSession.GetReadBuffer s) (u64 (default npos (find_sub (crlf ++ crlf) q) + 4))) w =
    match find_sub (crlf ++ crlf) q with
    | Some i => request_turn (RtspServer.process_loop fuel v fd) v fd s
        (RtspSession.GetReadBuffer s) (i + 4)
    | None => if kMaxRtspRequestDataLen <=? len q
              then RtspServer.CloseConnection (put_session v fd s) fd
              else mret (put_session v fd s)
    end w).
  { destruct (find_sub (crlf ++ crlf) q) as [i|] eqn:Hf; [|done].
    change (default npos (Some i)) with i.
    pose proof (find_sub_bound _ _ _ Hf) as Hb. change (len (crlf ++ crlf)) with 4 in Hb.
    apply find_sub_Some in Hf as [Hi _].
    rewrite (proj2 (Z.eqb_neq i npos)), u64_small by (unfold npos; lia).
    by rewrite (proj2 (Z.ltb_ge (len q) (i + 4))) by lia. }
  unfold mbind at 1, M_bind at 1. cbn [ub ub_at].
  assert (Hsmall : forall l, q = l -> len l < 4 -> match find_sub (crlf ++ crlf) q with
    | Some i => request_turn (RtspServer.process_loop fuel v fd) v fd s
        (RtspSession.GetReadBuffer s) (i + 4)
    | None => if kMaxRtspRequestDataLen <=? len q
              then RtspServer.CloseConnection (put_session v fd s) fd
              else mret (put_session v fd s)
    end = mret (put_session v fd s)).
  { intros l -> Hl. rewrite terminator_short by done.
    by rewrite (proj2 (Z.leb_gt _ (len l))) by (unfold kMaxRtspRequestDataLen; lia). }
  clear Hshort. destruct q as [|a [|b [|c [|d l]]]]; [done| | | |]; cbn [next_message];
    try (etransitivity; [exact Hend|]; by rewrite (Hsmall _ eq_refl) by done).
  change (default [] (Some [a; b; c; d])) with [a; b; c; d]. unfold RtspServer.is_frame.
  cbn [nth]. change (Status.ok Status.Ok) with true. cbn [andb].
  destruct (byte_val a =? 36).
  - unfold RtspServer.frame_length. cbn [nth].
    rewrite (two_bytes _ _ (byte_val_range c) (byte_val_range d)).
    by destruct (len _ <? 4 + _).
  - etransitivity; [exact Hend|].
    by destruct (find_sub (crlf ++ crlf) (a :: b :: c :: d :: l)); [|destruct (kMaxRtspRequestDataLen <=? _)].
Qed.
End framing.

(** An interleaved frame: channel and payload. *)
Definition interleaved (f : Z * bytes) : bytes :=
  RtpForwarder.BuildInterleavedHeader (fst f) (len (snd f)) ++ snd f.

(** Everything of a session but its pending input. *)
Definition same_but_input {Q} (s s' : rtsp_session Q) : Prop :=
  exists q, s' = RtspSession.with_conn s (Connection.with_read (conn_ s) q).

Section framing.
Context `{K : Kernel} {Q : Type} `{BQ : !ByteQueue Q} `{BL : !ByteQueueLaws Q}.
Implicit Types v : rtsp_server Q.
Implicit Types s : rtsp_session Q.

Lemma interleaved_kind f rest :
  len (snd f) < 65536 ->
  next_message (interleaved f ++ rest) = Frame (4 + len (snd f)).
Proof.
  intros Hl. destruct f as [ch p]. cbn [fst snd] in *. pose proof (len_nonneg p).
  unfold interleaved, RtpForwarder.BuildInterleavedHeader.
  cbn [app fst snd next_message]. change (byte_val kRtpInterleavedMarker =? 36) with true.
  cbv iota. rewrite !byte_val_of. unfold u8.
  assert (Z.land (Z.shiftr (len p) 8) 255 mod 2 ^ 8 = len p / 256) as ->.
  { change 255 with (Z.ones 8). rewrite Z.land_ones, Z.mod_mod, Z.shiftr_div_pow2 by lia.
    apply Z.mod_small. change (2 ^ 8) with 256.
    split; [apply Z.div_pos; lia|apply Z.div_lt_upper_bound; lia]. }
  assert (Z.land (len p) 255 mod 2 ^ 8 = len p mod 256) as ->.
  { change 255 with (Z.ones 8). by rewrite Z.land_ones, Z.mod_mod by lia. }
  assert (len p / 256 * 256 + len p mod 256 = len p) as ->
    by (pose proof (Z.div_mod (len p) 256 ltac:(lia)); lia).
  rewrite (proj2 (Z.ltb_ge _ _)); [done|].
  rewrite !len_cons, len_app. pose proof (len_nonneg rest). lia.
Qed.

Lemma same_but_input_refl s : same_but_input s s.
Proof. exists (read_buffer_ (conn_ s)). by destruct s as [[] ? ? ? ? ? ? ? ? ? ?]. Qed.

Lemma same_but_input_consume s s' n :
  same_but_input (RtspSession.Consume s n) s' ->
  same_but_input s s'.
Proof. intros [q ->]. by exists q. Qed.

(** Interleaved data from clients is skipped, whole frames at a time.  When the
    input is a sequence of interleaved frames, as [BuildInterleavedHeader] frames
    payloads of up to 65535 bytes, followed by an incomplete message, the loop
    consumes exactly the frames, makes no system call, and changes nothing else of
    the session. *)
Theorem frames_are_skipped fuel v fd s frames rest w :
  bq_inv (read_buffer_ (conn_ s)) ->
  bq_contents (read_buffer_ (conn_ s)) = mjoin (interleaved <$> frames) ++ rest ->
  Forall (fun f => len (snd f) < 65536) frames ->
  next_message rest = Incomplete -> (length frames < fuel)%nat ->
  exists s', RtspServer.process_loop fuel v fd s w = Done (put_session v fd s') w /\
    bq_contents (read_buffer_ (conn_ s')) = rest /\ same_but_input s s'.
Proof.
  intros Hq Hc Hf Hr. revert fuel s Hq Hc.
  induction Hf as [|f frames Hlen Hf IH]; intros [|fuel] s Hq Hc Hfuel; simpl in Hfuel; try lia.
  - destruct (decide (rest = [])) as [->|Hne].
    + cbn [RtspServer.process_loop].
      unfold RtspSession.GetReadBufferSize, Connection.GetReadBufferSize.
      rewrite bq_ReadableSize_spec, Hc by done. eexists. split; [done|].
      split; [done|apply same_but_input_refl].
    + rewrite process_loop_turn by (rewrite ?Hc; done). rewrite Hc. cbn [fmap list_fmap mjoin list_join].
      cbn [app]. rewrite Hr. eexists. split; [done|]. split; [done|apply same_but_input_refl].
  - cbn [fmap list_fmap] in Hc. rewrite mjoin_cons, <-app_assoc in Hc.
    rewrite process_loop_turn; [|done|by rewrite Hc].
    rewrite Hc, interleaved_kind by done.
    pose proof (len_nonneg (snd f)).
    set (s1 := RtspSession.Consume s _).
    destruct (bq_Consume_spec (read_buffer_ (conn_ s)) (4 + len (snd f)) Hq ltac:(lia))
      as (Hq1 & _ & Hc1).
    assert (Hl : len (interleaved f) = 4 + len (snd f)) by (unfold interleaved; by rewrite len_app).
    assert (Hc2 : bq_contents (read_buffer_ (conn_ s1)) = mjoin (interleaved <$> frames) ++ rest).
    { unfold s1. cbn. rewrite Hc1, Hc. unfold Fifo.consume.
      rewrite len_app, Hl, Z.min_l by (pose proof (len_nonneg (mjoin (interleaved <$> frames) ++ rest)); lia).
      rewrite zdrop_app_r, Hl, (zdrop_0 (_ - _)) by lia. done. }
    destruct (IH fuel s1 Hq1 Hc2 ltac:(lia)) as (s' & H1 & H2 & H3).
    exists s'. split; [done|]. split; [done|]. by eapply same_but_input_consume.
Qed.
End framing.

(** ** The loop ends *)
Section termination.
Context `{K : Kernel} `{KL : !KernelLaws} {Q : Type} `{BQ : !ByteQueue Q}
  `{BL : !ByteQueueLaws Q}.
Implicit Types v : rtsp_server Q.
Implicit Types s : rtsp_session Q.

(** Answering a request does not touch the input. *)
Lemma ProcessData_keeps sdp s d n w st s' w' :
  len sdp < 2 ^ 62 -> session_ok s ->
  RtspSession.ProcessData sdp s d n w = Done (st, s') w' ->
  session_ok s' /\ read_buffer_ (conn_ s') = read_buffer_ (conn_ s).
Proof.
  intros Hsdp Hok Hrun.
  assert (Hown : owns (RtspSession.ProcessData sdp s d n) (fun '(_, s') _ =>
    session_ok s' /\ read_buffer_ (conn_ s') = read_buffer_ (conn_ s)) (fun _ => 0)).
  { apply owns_ProcessData; [done|done|]. by intros st1 s1 L1 _ Hr Hs1 _. }
  exact (owns_elim _ _ _ _ _ _ Hown Hrun).
Qed.

Lemma next_message_positive q n :
  next_message q = Frame n \/ next_message q = Request n -> 0 < n.
Proof.
  unfold next_message. destruct q as [|a [|b [|c [|d q]]]]; try (by intros [|]).
  set (l := a :: _). pose proof (byte_val_range c). pose proof (byte_val_range d).
  destruct (byte_val a =? 36); [destruct (_ <? _); intros [|]; simplify_eq; lia|].
  destruct (find_sub _ l) as [i|] eqn:Hi; [|destruct (_ <=? _); by intros [|]].
  apply find_sub_Some in Hi as [? _]. intros [|]; simplify_eq; lia.
Qed.

(** How much fuel is given does not matter, once it is the length of the input. *)
Lemma process_loop_fuel fuel1 fuel2 v fd s w :
  len (RtspServer.GetSdp v) < 2 ^ 62 -> session_ok s ->
  len (bq_contents (read_buffer_ (conn_ s))) <= Z.of_nat fuel1 ->
  len (bq_contents (read_buffer_ (conn_ s))) <= Z.of_nat fuel2 ->
  RtspServer.process_loop fuel1 v fd s w = RtspServer.process_loop fuel2 v fd s w.
Proof.
  intros Hsdp. revert fuel2 s w. induction fuel1 as [|fuel1 IH]; intros fuel2 s w Hs H1 H2;
    pose proof Hs as [[Hq _] _]; pose proof (len_nonneg (bq_contents (read_buffer_ (conn_ s))));
    destruct (decide (bq_contents (read_buffer_ (conn_ s)) = [])) as [He|Hne];
    try by (assert (Hz : RtspSession.GetReadBufferSize s = 0)
      by (unfold RtspSession.GetReadBufferSize, Connection.GetReadBufferSize;
          by rewrite bq_ReadableSize_spec, He);
      destruct fuel2; cbn [RtspServer.process_loop]; rewrite Hz).
  { destruct Hne. apply len_0. lia. }
  destruct fuel2 as [|fuel2]; [destruct Hne; apply len_0; lia|].
  assert (Hpos : 0 < len (bq_contents (read_buffer_ (conn_ s)))).
  { destruct (decide (len (bq_contents (read_buffer_ (conn_ s))) = 0)) as [H0|]; [|lia].
    by apply len_0 in H0. }
  rewrite !process_loop_turn by done.
  destruct (next_message (bq_contents (read_buffer_ (conn_ s)))) as [n|n| |] eqn:Hk; try done;
    pose proof (next_message_positive _ n ltac:(rewrite Hk; by auto)) as Hn.
  - destruct (consume_shorter s n Hs Hn) as (Hs' & _ & Hlt). specialize (Hlt Hpos).
    apply IH; [done|lia..].
  - unfold request_turn, mbind, M_bind.
    destruct (RtspSession.ProcessData _ s _ _ w) as [[st s1] w1|] eqn:Hrun; [|done].
    apply ProcessData_keeps in Hrun as [Hs1 Hr]; [|done|done].
    destruct (consume_shorter s1 n Hs1 Hn) as (Hs2 & _ & Hlt). rewrite Hr in Hlt.
    specialize (Hlt Hpos).
    match goal with |- context [(if ?b then ?x else ?y) w1] =>
      destruct ((if b then x else y) w1) as [st2 w2|]; [|done] end.
    apply IH; [done|lia..].
Qed.

(** C18: The loop on the input ends.  For a session stored in a well-formed server,
    whatever bytes its client sent: as many turns as there are bytes are enough,
    more make no difference, and the loop only fails for want of memory or inside
    the parser. *)
Theorem input_loop_terminates fuel v fd s s0 w :
  server_ok v -> om_find fd (sessions_ v) = Some s0 -> session_ok s ->
  fd_guard_ (conn_ s) = fd_guard_ (conn_ s0) ->
  len (bq_contents (read_buffer_ (conn_ s))) <= Z.of_nat fuel ->
  (forall more, RtspServer.process_loop (fuel + more) v fd s w =
    RtspServer.process_loop fuel v fd s w) /\
  forall f, RtspServer.process_loop fuel v fd s w = Fault f ->
    f = ProcessAborted \/ f = UndefinedBehaviour InParser.
Proof.
  intros Hok Hf Hs Hg Hfuel. split.
  - intros more. apply process_loop_fuel; [apply Hok|done|lia|done].
  - intros f Hrun. apply tolerated_faults.
    apply (owns_fault (RtspServer.process_loop fuel v fd s) (fun _ _ => True) (fun _ => 0) w);
      [|done]. by eapply owns_process_loop.
Qed.
End termination.

(** ** Requests in a ring buffer *)
Section requests.
Context `{K : Kernel}.
Implicit Types v : rtsp_server ring_buffer.
Implicit Types s : rtsp_session ring_buffer.

(** The parser sees of a buffer the bytes it reads. *)
Lemma Parse_reads m m' n r :
  mem_read m 0 n = mem_read m' 0 n \/ kMaxRtspRequestDataLen < n ->
  RtspParser.Parse (Some m) n r = RtspParser.Parse (Some m') n r.
Proof.
  intros H. unfold RtspParser.Parse. destruct (n =? 0); [done|].
  destruct (Z.ltb_spec kMaxRtspRequestDataLen n); [done|].
  destruct H as [->|]; [done|lia].
Qed.

Lemma request_turn_reads next v fd s m m' n :
  mem_read m 0 n = mem_read m' 0 n \/ kMaxRtspRequestDataLen < n ->
  request_turn next v fd s m n = request_turn next v fd s m' n.
Proof.
  intros H. unfold request_turn, RtspSession.ProcessData.
  by rewrite (Parse_reads m m').
Qed.

Lemma next_message_request q n :
  next_message q = Request n -> 4 <= n <= len q.
Proof.
  unfold next_message. destruct q as [|a [|b [|c [|d q]]]]; try done.
  set (l := a :: _). destruct (byte_val a =? 36); [by destruct (_ <? _)|].
  destruct (find_sub _ l) as [i|] eqn:Hi; [|by destruct (_ <=? _)].
  intros [= <-]. pose proof (find_sub_bound _ _ _ Hi) as Hb.
  change (len (crlf ++ crlf)) with 4 in Hb. apply find_sub_Some in Hi as [? _]. lia.
Qed.

Lemma contents_nonempty s n : next_message (rb_contents (read_buffer_ (conn_ s))) = Request n ->
  bq_contents (read_buffer_ (conn_ s)) <> [].
Proof.
  change (bq_contents (read_buffer_ (conn_ s))) with (rb_contents (read_buffer_ (conn_ s))).
  intros Hn He. by rewrite He in Hn.
Qed.

(** A request that lies contiguously is handed over as it is. *)
Lemma request_in_place fuel v fd s n w :
  rb_wf (read_buffer_ (conn_ s)) ->
  next_message (rb_contents (read_buffer_ (conn_ s))) = Request n ->
  n <= RingBuffer.ContiguousReadableSize (read_buffer_ (conn_ s)) ->
  RtspServer.process_loop (S fuel) v fd s w =
  request_turn (RtspServer.process_loop fuel v fd) v fd s
    (ztake n (rb_contents (read_buffer_ (conn_ s)))) n w.
Proof.
  intros Hwf Hn Hc. pose proof (next_message_request _ _ Hn) as Hb.
  rewrite process_loop_turn by (done || by eapply contents_nonempty).
  change (bq_contents (read_buffer_ (conn_ s))) with (rb_contents (read_buffer_ (conn_ s))).
  rewrite Hn. change (RtspSession.GetReadBuffer s) with
    (RingBuffer.ReadPtr (read_buffer_ (conn_ s))).
  erewrite request_turn_reads; [done|]. left.
  rewrite rb_ReadPtr_spec by (done || lia).
  rewrite mem_read_Some by (rewrite ?len_ztake; lia).
  by rewrite (zdrop_0 0), ztake_ztake, Z.min_id by lia.
Qed.

(** C16: The hand-over of a request.  When a complete request of [n] bytes heads
    the input and lies contiguously in the ring, the turn parses and answers
    exactly the first [n] bytes of the input, consumes them, and goes on with the
    rest.  When the request wraps around the end of the ring (and is not longer
    than the parser's limit), the parser is given a pointer from which it reads
    past the end of the buffer. *)
Theorem request_turn_contiguous fuel v fd s n w :
  rb_wf (read_buffer_ (conn_ s)) ->
  next_message (rb_contents (read_buffer_ (conn_ s))) = Request n ->
  let text := ztake n (rb_contents (read_buffer_ (conn_ s))) in
  let contiguous := RingBuffer.ContiguousReadableSize (read_buffer_ (conn_ s)) in
  RtspServer.process_loop (S fuel) v fd s w =
  if (n <=? contiguous) || (kMaxRtspRequestDataLen <? n)
  then request_turn (RtspServer.process_loop fuel v fd) v fd s text n w
  else Fault (UndefinedBehaviour InParser).
Proof.
  intros Hwf Hn text contiguous. pose proof (next_message_request _ _ Hn) as Hb.
  destruct (Z.leb_spec n contiguous) as [Hc|Hc]; cbn [orb]; [by apply request_in_place|].
  rewrite process_loop_turn by (done || by eapply contents_nonempty).
  change (bq_contents (read_buffer_ (conn_ s))) with (rb_contents (read_buffer_ (conn_ s))).
  rewrite Hn. change (RtspSession.GetReadBuffer s) with
    (RingBuffer.ReadPtr (read_buffer_ (conn_ s))).
  destruct (Z.ltb_spec kMaxRtspRequestDataLen n) as [Hm|Hm].
  - erewrite request_turn_reads; [done|]. by right.
  - unfold request_turn, RtspSession.ProcessData, RtspSession.UpdateActivity, RtspParser.Parse.
    cbv [mbind M_bind sys].
    rewrite (proj2 (Z.eqb_neq n 0)), (proj2 (Z.ltb_ge _ n)) by lia.
    pose proof (bq_ReadableSize_spec (read_buffer_ (conn_ s)) Hwf) as Hrs. cbn in Hrs.
    rewrite rb_ReadPtr_past; [done|done|]. unfold contiguous in Hc. lia.
Qed.
End requests.

(** ** A whole input, in order *)

(** What a client sends: interleaved data and requests. *)
Inductive client_message :=
  | DataFrame (channel : Z) (payload : bytes)
  | RequestText (text : bytes).

Definition message_bytes (m : client_message) : bytes :=
  match m with
  | DataFrame channel payload => interleaved (channel, payload)
  | RequestText text => text
  end.

(** A payload that fits a frame; a text that ends with its only empty line and does
    not look like a frame. *)
Definition message_ok (m : client_message) : Prop :=
  match m with
  | DataFrame _ payload => len payload < 65536
  | RequestText text =>
    find_sub (crlf ++ crlf) text = Some (len text - 4) /\ byte_val (nth 0 text NUL) <> 36
  end.

Lemma message_kind_of m rest :
  message_ok m ->
  next_message (message_bytes m ++ rest) =
  match m with
  | DataFrame _ payload => Frame (4 + len payload)
  | RequestText text => Request (len text)
  end.
Proof.
  destruct m as [ch payload|text]; cbn [message_ok message_bytes].
  { by apply (interleaved_kind (ch, payload)). }
  intros [Hf H0]. pose proof (find_sub_Some _ _ _ Hf) as [Hlen _].
  apply (find_sub_app _ _ rest) in Hf.
  destruct text as [|a [|b [|c [|d l]]]]; try (exfalso; revert Hlen; vm_compute; by auto).
  cbn [next_message app nth] in *. rewrite (proj2 (Z.eqb_neq _ 36)) by done.
  rewrite Hf. f_equal. lia.
Qed.

Section service.
Context `{K : Kernel} `{KL : !KernelLaws}.
Implicit Types v : rtsp_server ring_buffer.
Implicit Types s : rtsp_session ring_buffer.

(** The messages are dealt with one after the other: frames are dropped, each
    request is parsed, answered and consumed, and output that could not be sent
    makes the session wait for the socket. *)
Fixpoint serve v (fd : Z) (ms : list client_message) s : M (rtsp_session ring_buffer) :=
  match ms with
  | [] => mret s
  | DataFrame _ payload :: ms => serve v fd ms (RtspSession.Consume s (4 + len payload))
  | RequestText text :: ms =>
    '(_, s) ← RtspSession.ProcessData (RtspServer.GetSdp v) s (Some text) (len text);
    let s := RtspSession.Consume s (len text) in
    _ ← (if RtspSession.NeedFlush s
         then EpollLoop.ModifyFd (event_loop_ v) fd (Z.lor kRead kWrite)
         else mret Status.Ok);
    serve v fd ms s
  end.

(** The input of a session is [q], in one piece. *)
Record input_is s (q : bytes) : Prop := {
  ii_ok : session_ok s;
  ii_contents : rb_contents (read_buffer_ (conn_ s)) = q;
  ii_unwrapped : unwrapped (read_buffer_ (conn_ s));
}.

Lemma input_consume s a q : input_is s (a ++ q) -> input_is (RtspSession.Consume s (len a)) q.
Proof.
  intros [[[Hr Hw] Hid] Hc Hu]. pose proof (len_nonneg a). pose proof (len_nonneg q).
  destruct (rb_Consume_spec (read_buffer_ (conn_ s)) (len a) Hr ltac:(lia)) as (Hr' & _ & Hc').
  split; [by split|..].
  - cbn. rewrite Hc', Hc. unfold Fifo.consume. rewrite Z.min_l by (rewrite len_app; lia).
    by rewrite zdrop_app_r, zdrop_0 by lia.
  - by apply rb_Consume_unwrapped.
Qed.

Lemma ProcessData_input sdp s d n w st s' w' q :
  len sdp < 2 ^ 62 -> input_is s q ->
  RtspSession.ProcessData sdp s d n w = Done (st, s') w' -> input_is s' q.
Proof.
  intros Hsdp [Hok Hc Hu] Hrun. apply ProcessData_keeps in Hrun as [Hok' Hr]; [|done|done].
  split; [done|by rewrite Hr..].
Qed.

(** The loop on such an input. *)
Lemma process_loop_serve fuel v fd s ms rest w :
  len (RtspServer.GetSdp v) < 2 ^ 62 ->
  input_is s (mjoin (message_bytes <$> ms) ++ rest) -> Forall message_ok ms ->
  next_message rest = Incomplete -> (length ms < fuel)%nat ->
  RtspServer.process_loop fuel v fd s w =
    (s' ← serve v fd ms s; mret (put_session v fd s')) w /\
  forall s' w', serve v fd ms s w = Done s' w' -> input_is s' rest.
Proof.
  intros Hsdp Hin Hms Hrest. revert fuel s w Hin.
  induction Hms as [|m ms Hm _ IH]; intros [|fuel] s w Hin Hfuel; simpl in Hfuel; try lia.
  { pose proof Hin as [[[Hq _] _] Hc _]. cbn [app fmap list_fmap mjoin list_join] in Hc, Hin.
    split; [|by intros s' w' [= <- <-]]. cbn [serve].
    destruct (decide (rest = [])) as [->|Hne].
    - cbn [RtspServer.process_loop]. unfold RtspSession.GetReadBufferSize,
        Connection.GetReadBufferSize.
      rewrite bq_ReadableSize_spec by done. cbn [bq_contents]. cbn in Hc |- *. by rewrite Hc.
    - rewrite process_loop_turn; cbn [bq_contents]; [|done|by rewrite <-Hc in Hne].
      change (bq_contents (read_buffer_ (conn_ s))) with
        (rb_contents (read_buffer_ (conn_ s))). by rewrite Hc, Hrest. }
  rewrite fmap_cons, mjoin_cons, <-app_assoc in Hin. pose proof Hin as [[[Hq _] _] Hc Hu].
  pose proof (message_kind_of m (mjoin (message_bytes <$> ms) ++ rest) Hm) as Hkind.
  rewrite <-Hc in Hkind. destruct m as [ch payload|text]; cbn [serve message_bytes] in *.
  - rewrite process_loop_turn; [|done|].
    2: { change (bq_contents (read_buffer_ (conn_ s))) with
        (rb_contents (read_buffer_ (conn_ s))). intros He. by rewrite He in Hkind. }
    change (bq_contents (read_buffer_ (conn_ s))) with (rb_contents (read_buffer_ (conn_ s))).
    rewrite Hkind. apply (IH fuel); [|lia].
    replace (4 + len payload) with (len (interleaved (ch, payload)))
      by (unfold interleaved; by rewrite len_app).
    by apply input_consume.
  - rewrite (request_in_place fuel v fd s (len text)); [|done|done|].
    2: { rewrite rb_ContiguousReadableSize by done. unfold unwrapped in Hu.
      pose proof (len_rb_contents _ Hq) as Hl. rewrite Hc, len_app in Hl.
      pose proof (len_nonneg (mjoin (message_bytes <$> ms) ++ rest)). lia. }
    rewrite Hc, ztake_app_l, ztake_all by lia. unfold request_turn, mbind, M_bind.
    destruct (RtspSession.ProcessData _ s _ _ w) as [[st s1] w1|] eqn:Hrun; [|by split].
    pose proof (input_consume _ _ _ (ProcessData_input _ _ _ _ _ _ _ _ _ Hsdp Hin Hrun)) as Hin1.
    match goal with |- context [(if ?b then ?x else ?y) w1] =>
      destruct ((if b then x else y) w1) as [st2 w2|]; [|by split] end.
    exact (IH fuel _ w2 Hin1 ltac:(lia)).
Qed.

(** C14: The requests of a client are answered in order.  When the input, in one piece
    in the ring, is a sequence of interleaved frames and complete requests followed
    by an incomplete message, the loop does what [serve] does: each request is
    handed to the parser as the client sent it, in the order sent, each frame is
    skipped, and the incomplete rest is left for the next read. *)
Theorem input_served_in_order fuel v fd s ms rest w :
  len (RtspServer.GetSdp v) < 2 ^ 62 ->
  input_is s (mjoin (message_bytes <$> ms) ++ rest) -> Forall message_ok ms ->
  next_message rest = Incomplete -> (length ms < fuel)%nat ->
  RtspServer.process_loop fuel v fd s w =
    (s' ← serve v fd ms s; mret (put_session v fd s')) w /\
  forall s' w', serve v fd ms s w = Done s' w' -> input_is s' rest.
Proof. apply process_loop_serve. Qed.
End service.

(** ** Witnesses *)

Lemma frames_are_skipped_witness :
  let s := session_with (ring_of 8 (interleaved (0, lit "ab") ++ lit "$")) SessionState.kInit 0 in
  exists s', RtspServer.process_loop (K := sample_kernel accepting) 2 idle_server 7 s world0 =
      Done (put_session idle_server 7 s') world0 /\
    bq_contents (read_buffer_ (conn_ s')) = lit "$".
Proof.
  intros s.
  destruct (frames_are_skipped (K := sample_kernel accepting) 2 idle_server 7 s [(0, lit "ab")]
    (lit "$") world0) as (s' & H1 & H2 & _);
    [by split; vm_compute|reflexivity|repeat constructor|reflexivity|auto|].
  exists s'. split; [exact H1|exact H2].
Defined.

(** A request of six bytes that wraps around the end of the ring. *)
Definition wrapped_request : ring_buffer :=
  mkRingBuffer ([LF; CR; LF] ++ lit "..O " ++ [CR]) 8 5 3 6.

Lemma request_turn_contiguous_witness :
  let s := session_with wrapped_request SessionState.kInit 0 in
  RtspServer.process_loop (K := sample_kernel accepting) 6 idle_server 7 s world0 =
  Fault (UndefinedBehaviour InParser).
Proof.
  intros s.
  rewrite (request_turn_contiguous (K := sample_kernel accepting) 5 idle_server 7 s 6 world0);
    [reflexivity|by split; vm_compute|reflexivity].
Defined.

(** Two requests and a frame between them in one read, and the start of a third. *)
Definition pipelined : list client_message :=
  [RequestText (lit "OPTIONS * RTSP/1.0" ++ crlf ++ lit "CSeq: 1" ++ crlf ++ crlf);
   DataFrame 1 (lit "rtcp");
   RequestText (lit "PLAY rtsp://h/s RTSP/1.0" ++ crlf ++ lit "CSeq: 2" ++ crlf ++ crlf)].

Definition pipelined_session : rtsp_session ring_buffer :=
  session_with (ring_of 128 (mjoin (message_bytes <$> pipelined) ++ lit "PAUSE"))
    SessionState.kInit 0.

Lemma pipelined_session_ok :
  input_is pipelined_session (mjoin (message_bytes <$> pipelined) ++ lit "PAUSE").
Proof.
  split; [|reflexivity|vm_compute; discriminate].
  split; [|by vm_compute]. split; split; vm_compute; repeat split; discriminate.
Defined.

Definition pipelined_served : outcome (rtsp_session ring_buffer) :=
  serve (K := sample_kernel accepting) idle_server 7 pipelined pipelined_session world0.

Lemma served_done (o : outcome (rtsp_session ring_buffer)) r q :
  match o with Done s' _ => state_ s' = SessionState.kPlaying | Fault _ => False end ->
  r = match o with
      | Done s' w' => Done (put_session idle_server 7 s') w' | Fault f => Fault f end /\
  (forall s' w', o = Done s' w' -> input_is s' q) ->
  exists s' w', o = Done s' w' /\ r = Done (put_session idle_server 7 s') w' /\
    input_is s' q /\ state_ s' = SessionState.kPlaying.
Proof.
  destruct o as [s' w'|]; [|done]. intros Hst [Hr Hin]. exists s', w'.
  split_and!; [done|done|by apply (Hin s' w')|done].
Qed.

Lemma input_served_in_order_witness :
  exists s' w', pipelined_served = Done s' w' /\
    RtspServer.process_loop (K := sample_kernel accepting) 4 idle_server 7 pipelined_session
      world0 = Done (put_session idle_server 7 s') w' /\
    input_is s' (lit "PAUSE") /\ state_ s' = SessionState.kPlaying.
Proof.
  assert (Hst : match pipelined_served with
    | Done s' _ => state_ s' = SessionState.kPlaying | Fault _ => False end) by (by vm_compute).
  assert (Hrun : RtspServer.process_loop (K := sample_kernel accepting) 4 idle_server 7
      pipelined_session world0 =
    match pipelined_served with
    | Done s' w' => Done (put_session idle_server 7 s') w' | Fault f => Fault f end /\
    forall s' w', pipelined_served = Done s' w' -> input_is s' (lit "PAUSE")).
  { apply (input_served_in_order (K := sample_kernel accepting) 4 idle_server 7
      pipelined_session pipelined (lit "PAUSE") world0);
      [by vm_compute|exact pipelined_session_ok| |reflexivity|auto].
    repeat constructor; vm_compute; discriminate. }
  exact (served_done pipelined_served _ _ Hst Hrun).
Defined.

Lemma input_loop_terminates_witness :
  let s := session_with (ring_of 8 (lit "garbage")) SessionState.kInit 0 in
  RtspServer.process_loop (K := sample_kernel accepting) (7 + 100) idle_server 7 s world0 =
  RtspServer.process_loop (K := sample_kernel accepting) 7 idle_server 7 s world0.
Proof.
  intros s.
  apply (input_loop_terminates (K := sample_kernel accepting) 7 idle_server 7 s
    (session_with (ring_of 8 []) SessionState.kInit 0));
    [exact idle_server_ok|reflexivity| |reflexivity|vm_compute; discriminate].
  split; [|by vm_compute]. split; split; vm_compute; repeat split; discriminate.
Defined.
