(* ===== verification/Exchange.v ===== *)
(** * A client's exchange with the server

    The texts a client sends -- request lines with CSeq and, for SETUP, a TCP
    transport -- arrive on its connection; the server's loop over the input frames,
    parses and answers them.  This file puts the parser, the framing and the output
    stream together: what goes in as text comes out as the replies, in order. *)
From S2P Require Import Prelude Status OrderedMap Text Kernel SampleKernel ByteQueue RingBuf.
From S2P Require Import FdGuard Owner Sock Epoll Conn Parser Builder Forwarder Session Stream.
From S2P Require Import Server ServerInv Framing.

(** What a client asks. *)
Record client_request := mkClientRequest {
  cr_method : RtspMethod;
  cr_url : bytes;
  cr_cseq : Z;
}.

Definition request_headers (q : client_request) : list (bytes * bytes) :=
  (lit "CSeq", to_string (cr_cseq q)) ::
  (if decide (cr_method q = kSetup)
   then [(lit "Transport", lit "RTP/AVP/TCP;unicast;interleaved=0-1")] else []).

(** The text of it. *)
Definition request_text (q : client_request) : bytes :=
  message (start_line (RtspParser.MethodToString (cr_method q)) (cr_url q) kRtspVersion)
    (request_headers q) [].

Record request_ok (q : client_request) : Prop := {
  rq_method : cr_method q <> kUnknown;
  rq_url : token (cr_url q);
  rq_cseq : is_int (cr_cseq q);
  rq_size : len (request_text q) <= kMaxRtspRequestDataLen;
}.

(** The reply it is due. *)
Definition reply_to {Q} (sdp : bytes) (s : rtsp_session Q) (q : client_request) : bytes :=
  reply sdp s (mkRtspRequest (cr_method q) (cr_url q) kRtspVersion (cr_cseq q) [] []
    TransportInfo_init).

Lemma reply_to_eq {Q} sdp (s : rtsp_session Q) q r :
  method r = cr_method q -> cseq r = cr_cseq q -> reply sdp s r = reply_to sdp s q.
Proof.
  intros Hm Hc. unfold reply_to, reply, protocol. cbn [method cseq]. by rewrite Hm, Hc.
Qed.

(** ** Its text parses *)

Lemma method_token k : token (RtspParser.MethodToString k).
Proof. destruct k; by split. Qed.

Lemma request_headers_ok q : request_ok q -> Forall header_ok (request_headers q).
Proof.
  intros [_ _ Hc _]. unfold request_headers. constructor; [by apply cseq_header|].
  destruct (decide _); [|done]. constructor; [|done].
  split; try done; intros _; vm_compute; eauto.
Qed.

Lemma stored_cseq q :
  om_find (lit "cseq") (fold_left store_header (request_headers q) []) =
  Some (to_string (cr_cseq q)).
Proof.
  unfold request_headers. generalize (to_string (cr_cseq q)). intros v.
  by destruct (decide _).
Qed.

Lemma stored_transport q :
  cr_method q = kSetup ->
  om_find (lit "transport") (fold_left store_header (request_headers q) []) =
  Some (lit "RTP/AVP/TCP;unicast;interleaved=0-1").
Proof.
  intros Hm. unfold request_headers. rewrite decide_True by done.
  generalize (to_string (cr_cseq q)). by intros v.
Qed.

Lemma request_parses q :
  request_ok q ->
  exists r, RtspParser.Parse (Some (request_text q)) (len (request_text q)) RtspRequest_init =
      Some (Status.Ok, r) /\
    method r = cr_method q /\ cseq r = cr_cseq q /\ tcp_only r.
Proof.
  intros Hq. pose proof Hq as [Hm Hu Hc Hl].
  destruct (Parse_rendered (RtspParser.MethodToString (cr_method q)) (cr_url q) kRtspVersion
    (request_headers q) [] RtspRequest_init) as (r & Hparse & Hr & _ & _ & Hh & _ & [_ Hcs Ht]);
    [apply method_token|done|by split|by apply request_headers_ok|done|].
  exists r. split; [done|].
  assert (Hpm : RtspParser.ParseMethod (RtspParser.MethodToString (cr_method q)) = cr_method q)
    by (by destruct (cr_method q)).
  rewrite Hpm in Hr. split; [done|]. rewrite Hh in Hcs, Ht. split.
  - rewrite stored_cseq in Hcs. rewrite Hcs. by apply parse_cseq_to_string.
  - intros Hs. rewrite Hr in Hs. rewrite (stored_transport _ Hs) in Ht.
    destruct (RtspParser.ParseTransport _) as [t|] eqn:Hp; [|done]. injection Ht as <-.
    vm_compute in Hp. by injection Hp as <-.
Qed.

(** ** It ends with its only empty line *)

Lemma no_line_feed p l rest :
  one_line l -> starts_with (LF :: p) (l ++ crlf ++ rest) = false.
Proof.
  unfold one_line. destruct l as [|x l]; [done|]. intros Hl. simpl in Hl.
  destruct (Ascii.eqb_spec x LF) as [|Hx]; [done|].
  change (Ascii.eqb LF x && starts_with p (l ++ crlf ++ rest) = false).
  by rewrite (proj2 (Ascii.eqb_neq LF x)) by congruence.
Qed.

Lemma find_blank l rest :
  one_line l ->
  find_sub (crlf ++ crlf) (l ++ crlf ++ rest) =
  if starts_with crlf rest then Some (len l)
  else Z.add (len l + 2) <$> find_sub (crlf ++ crlf) rest.
Proof.
  unfold one_line. induction l as [|c l IH]; intros Hl.
  - change (find_sub (crlf ++ crlf) ([] ++ crlf ++ rest)) with
      (if starts_with crlf rest then Some 0
       else Z.succ <$> (Z.succ <$> find_sub (crlf ++ crlf) rest)).
    destruct (starts_with crlf rest); [done|].
    destruct (find_sub _ rest) as [i|]; [|done]. cbn. f_equal. rewrite len_nil. lia.
  - simpl in Hl. destruct (Ascii.eqb_spec c LF) as [|Hc]; [done|].
    apply fmap_None in Hl. cbn [app find_sub]. rewrite (IH Hl).
    assert (starts_with (crlf ++ crlf) (c :: l ++ crlf ++ rest) = false) as ->.
    { change (Ascii.eqb CR c && starts_with (LF :: crlf) (l ++ crlf ++ rest) = false).
      rewrite no_line_feed by done. apply andb_false_r. }
    rewrite len_cons. destruct (starts_with crlf rest); [cbn; f_equal; lia|].
    destruct (find_sub _ rest) as [i|]; [|done]. cbn. f_equal. lia.
Qed.

Lemma line_no_crlf l rest : one_line l -> l <> [] -> starts_with crlf (l ++ crlf ++ rest) = false.
Proof.
  unfold one_line. destruct l as [|c l]; [done|]. intros Hl _. simpl in Hl.
  destruct (Ascii.eqb_spec c LF); [done|]. apply fmap_None in Hl.
  change (Ascii.eqb CR c && starts_with [LF] (l ++ crlf ++ rest) = false).
  rewrite no_line_feed by done. apply andb_false_r.
Qed.

(** The lines of a message's head, each with its terminator, and the empty line. *)
Definition head_text (ls : list bytes) : bytes := mjoin ((fun l => l ++ crlf) <$> ls) ++ crlf.

Lemma find_head_end l ls :
  Forall (fun l => one_line l /\ l <> []) (l :: ls) ->
  find_sub (crlf ++ crlf) (head_text (l :: ls)) = Some (len (head_text (l :: ls)) - 4).
Proof.
  revert l. induction ls as [|l2 ls IH]; intros l Hls; apply Forall_cons in Hls as [[Hl Hne] Hls];
    unfold head_text; rewrite fmap_cons, mjoin_cons, <-!app_assoc, find_blank by done.
  - change (Some (len l) = Some (len (l ++ crlf ++ crlf) - 4)). f_equal. rewrite !len_app.
    change (len crlf) with 2. lia.
  - pose proof (IH l2 Hls) as Hnext. apply Forall_cons in Hls as [[Hl2 Hne2] _].
    assert (Hs : starts_with crlf (head_text (l2 :: ls)) = false).
    { unfold head_text. rewrite fmap_cons, mjoin_cons, <-!app_assoc. by apply line_no_crlf. }
    fold (head_text (l2 :: ls)). rewrite Hs, Hnext. cbn [fmap option_fmap option_map].
    f_equal. rewrite !len_app. change (len crlf) with 2. lia.
Qed.

Lemma request_message_ok q : request_ok q -> message_ok (RequestText (request_text q)).
Proof.
  intros Hq. pose proof Hq as [_ Hu _ _]. cbn [message_ok].
  set (start := start_line (RtspParser.MethodToString (cr_method q)) (cr_url q) kRtspVersion).
  assert (Htext : request_text q = head_text (start :: (header_line <$> request_headers q))).
  { unfold request_text, message, head_text. fold start.
    rewrite fmap_cons, mjoin_cons, <-!app_assoc, app_nil_r. do 2 f_equal.
    by rewrite <-list_fmap_compose. }
  split.
  - rewrite Htext. apply find_head_end. constructor.
    + split; [by apply start_line_one_line; [apply method_token|done|split]|].
      unfold start, start_line. by destruct (RtspParser.MethodToString (cr_method q)).
    + apply Forall_fmap. eapply Forall_impl; [by apply request_headers_ok|].
      intros h Hh. split; [by apply header_line_one_line|]. unfold header_line.
      by destruct (fst h).
  - unfold request_text, message, start_line. by destruct (cr_method q).
Qed.

(** ** Serving the requests *)

(** The reply depends on the session's identifier only. *)
Lemma reply_to_id {Q} sdp (s s' : rtsp_session Q) q :
  session_id_ s' = session_id_ s -> reply_to sdp s' q = reply_to sdp s q.
Proof.
  intros Hid. unfold reply_to. set (r := mkRtspRequest _ _ _ _ _ _ _).
  exact (message_of_id sdp s s' (UseRequest r) Hid).
Qed.

Section exchange.
Context `{K : Kernel} `{KL : !KernelLaws}.
Implicit Types v : rtsp_server ring_buffer.
Implicit Types s : rtsp_session ring_buffer.

Definition replies sdp s (qs : list client_request) : bytes := mjoin (reply_to sdp s <$> qs).

Lemma replies_id sdp s s' qs : session_id_ s' = session_id_ s -> replies sdp s' qs = replies sdp s qs.
Proof.
  intros Hid. unfold replies. f_equal. apply list_fmap_ext. intros. by apply reply_to_id.
Qed.

(** What a request puts on the stream: its reply, or nothing if the kernel is not
    willing to take it. *)
Definition due sdp s (q : client_request) (o : bytes) : Prop :=
  o = reply_to sdp s q \/ o = [] /\ ~ willing (RtspSession.fd s).

Lemma due_id sdp s s' q o :
  session_id_ s' = session_id_ s -> RtspSession.fd s' = RtspSession.fd s ->
  due sdp s' q o -> due sdp s q o.
Proof. intros Hid Hfd. unfold due. by rewrite (reply_to_id sdp s s' q Hid), Hfd. Qed.

Lemma due_len sdp s q o : due sdp s q o -> len o <= len (reply_to sdp s q).
Proof. intros [->|[-> _]]; [done|]. rewrite len_nil. apply len_nonneg. Qed.

(** From [s] to [s'] the request [q] was answered, or its reply could not be sent. *)
Record answered sdp s (w : world) (q : client_request) (o : bytes) s' (w' : world) : Prop := {
  an_grows : grows (w_trace w) (w_trace w');
  an_state : state_ s' = next_state sdp (state_ s) (cr_method q);
  an_read : read_buffer_ (conn_ s') = read_buffer_ (conn_ s);
  an_reply : due sdp s q o;
  an_adds : adds s w o s' w';
}.

Lemma wp_ProcessData_text sdp s q w :
  streaming s -> request_ok q -> len sdp < 2 ^ 62 ->
  pending s + len (reply_to sdp s q) <= room s ->
  wp (RtspSession.ProcessData sdp s (Some (request_text q)) (len (request_text q)))
    (fun '(_, s') w' => exists o, answered sdp s w q o s' w') w.
Proof.
  intros Hs Hq Hsdp Hroom. destruct (request_parses q Hq) as (r & Hp & Hm & Hc & Ht).
  unfold RtspSession.ProcessData, RtspSession.UpdateActivity. rewrite Hp. wp_steps.
  set (s1 := RtspSession.with_activity s _). set (w1 := after w SysSteadyClock).
  assert (Hr : reply sdp s1 r = reply_to sdp s q)
    by (rewrite (reply_to_eq sdp s1 q r) by done; by apply reply_to_id).
  assert (Hs1 : streaming s1) by (by destruct Hs as [[? ?] ? ?]; split).
  unfold wp at 1. cbn [ub_at]. change (wp (RtspSession.HandleRequest sdp s1 r)
    (fun '(_, s') w' => exists o, answered sdp s w q o s' w') w1).
  eapply wp_mono; [apply wp_request; [done|done|done|by rewrite Hr]|].
  intros [st s'] w' (Hg & Hst & Hread & o & [Ho _] & [A1 A2 A3 A4 A5]). exists o.
  cbn [message_of] in Ho. rewrite Hr in Ho. split; [|by rewrite <-Hm|done|done|].
  - eapply grows_trans; [|exact Hg]. apply grows_call, grows_refl.
  - split; [done|done|done| |done]. rewrite A4. f_equal.
    change (stream (conn_ s) w1 = stream (conn_ s) w). by apply stream_after.
Qed.

(** Asking the event loop to wait for the socket does not concern the stream. *)
Lemma wp_interest (b : bool) (l : epoll_loop callback) fd ev s w o s' w' (Post : status -> world -> Prop) :
  adds s w o s' w' ->
  (forall st w2, adds s w o s' w2 -> grows (w_trace w') (w_trace w2) -> Post st w2) ->
  wp (if b then EpollLoop.ModifyFd l fd ev else mret Status.Ok) Post w'.
Proof.
  intros Ha HP. assert (Hsame : forall st, Post st w') by (intros; apply HP; [done|apply grows_refl]).
  destruct b; [|by wp_step]. unfold EpollLoop.ModifyFd.
  destruct (negb _); [by wp_step|]. destruct (fd <? 0); [by wp_step|]. wp_steps.
  assert (H : forall st, Post st (after w' (SysEpollCtl (FdGuard.fd (epoll_fd_ l)) EPOLL_CTL_MOD fd
    (EpollLoop.ToEpollEvents ev)))).
  { intros st. apply HP; [|apply grows_call, grows_refl]. destruct Ha as [A1 A2 A3 A4 A5].
    split; try done. by rewrite <-A4, stream_after. }
  by destruct (_ <? 0); wp_steps.
Qed.

(** What the client's requests have led to. *)
Record exchanged sdp s (w : world) (qs : list client_request) s' (w' : world) : Prop := {
  ex_streaming : streaming s';
  ex_id : session_id_ s' = session_id_ s;
  ex_fd : RtspSession.fd s' = RtspSession.fd s;
  ex_room : room s' = room s;
  ex_pending : pending s' <= pending s + len (replies sdp s qs);
  ex_state : state_ s' = fold_left (next_state sdp) (cr_method <$> qs) (state_ s);
  ex_stream : exists outs, Forall2 (due sdp s) qs outs /\
    stream (conn_ s') w' = stream (conn_ s) w ++ mjoin outs;
}.

Lemma exchanged_nil sdp s w : streaming s -> exchanged sdp s w [] s w.
Proof.
  intros Hs. split; [done|done|done|done|cbn; rewrite len_nil; lia|done|]. exists []. split; [done|].
  cbn. by rewrite app_nil_r.
Qed.

Lemma replies_cons sdp s q qs :
  len (replies sdp s (q :: qs)) = len (reply_to sdp s q) + len (replies sdp s qs).
Proof. unfold replies. by rewrite fmap_cons, mjoin_cons, len_app. Qed.

Lemma exchanged_cons sdp s w q o s1 w1 qs s' w' :
  state_ s1 = next_state sdp (state_ s) (cr_method q) -> due sdp s q o ->
  pending s1 <= pending s + len (reply_to sdp s q) ->
  adds s w o s1 w1 -> exchanged sdp s1 w1 qs s' w' -> exchanged sdp s w (q :: qs) s' w'.
Proof.
  intros Hst Ho Hp [_ Hid Hr Hstr Hfd] [H1 Hid' Hfd' Hr' Hp' H2 (outs & Houts & Hs')].
  rewrite (replies_id sdp s s1) in Hp' by done.
  split; [done|congruence|congruence|congruence|rewrite replies_cons; lia
    |by rewrite fmap_cons; cbn; rewrite <-Hst|].
  exists (o :: outs). split; [|by rewrite mjoin_cons, app_assoc, <-Hstr].
  constructor; [done|]. eapply Forall2_impl; [exact Houts|]. intros q' o'. by apply due_id.
Qed.

Lemma exchanged_trans sdp s w qs s1 w1 qs' s' w' :
  exchanged sdp s w qs s1 w1 -> exchanged sdp s1 w1 qs' s' w' ->
  exchanged sdp s w (qs ++ qs') s' w'.
Proof.
  intros [_ Hid Hfd Hr Hp Hst (outs & Houts & Hs1)]
    [H1 Hid' Hfd' Hr' Hp' Hst' (outs' & Houts' & Hs')].
  rewrite (replies_id sdp s s1) in Hp' by done.
  split; [done|congruence|congruence|congruence| |by rewrite fmap_app, fold_left_app, <-Hst|].
  - unfold replies in *. rewrite fmap_app, join_app, len_app. lia.
  - exists (outs ++ outs'). split; [|by rewrite join_app, app_assoc, <-Hs1].
    apply Forall2_app; [done|]. eapply Forall2_impl; [exact Houts'|]. intros q' o'. by apply due_id.
Qed.

(** A willing kernel takes all the replies, sooner or later. *)
Lemma exchanged_willing sdp s w qs s' w' :
  exchanged sdp s w qs s' w' -> willing (RtspSession.fd s) ->
  stream (conn_ s') w' = stream (conn_ s) w ++ replies sdp s qs.
Proof.
  intros [_ _ _ _ _ _ (outs & Houts & ->)] Hw. unfold replies. do 2 f_equal.
  induction Houts as [|q o qs' outs' [->|[_ []]] _ IH]; [done| |done].
  rewrite fmap_cons. by f_equal.
Qed.

Definition client_texts (qs : list client_request) : list client_message :=
  (fun q => RequestText (request_text q)) <$> qs.

Lemma wp_serve v fd rest qs s w :
  streaming s -> input_is s (mjoin (message_bytes <$> client_texts qs) ++ rest) ->
  Forall request_ok qs -> len (RtspServer.GetSdp v) < 2 ^ 62 ->
  pending s + len (replies (RtspServer.GetSdp v) s qs) <= room s ->
  wp (serve v fd (client_texts qs) s) (exchanged (RtspServer.GetSdp v) s w qs) w.
Proof.
  set (sdp := RtspServer.GetSdp v). intros Hs Hin Hqs Hsdp. revert s w Hs Hin.
  induction Hqs as [|q qs Hq _ IH]; intros s w Hs Hin Hroom; cbn [serve client_texts fmap list_fmap].
  { wp_step. by apply exchanged_nil. }
  unfold replies in Hroom. rewrite fmap_cons, mjoin_cons, len_app in Hroom.
  fold (replies sdp s qs) in Hroom. pose proof (len_nonneg (replies sdp s qs)).
  pose proof (len_nonneg (bq_contents (write_buffer_ (conn_ s)))).
  unfold client_texts in Hin. rewrite !fmap_cons, mjoin_cons, <-app_assoc in Hin.
  wp_step. fold sdp. eapply wp_mono; [apply wp_ProcessData_text; [done..|unfold pending in *; lia]|].
  intros [st s1] w1 (o & [Hg Hst Hread Ho Ha]). wp_step.
  pose proof (adds_pending _ _ _ _ _ Ha Hg) as Hp. pose proof Ha as [Hs1 Hid Hcap _ Hfd].
  assert (Hin1 : input_is s1 (request_text q ++ mjoin (message_bytes <$> client_texts qs) ++ rest)).
  { destruct Hin as [_ Hc Hu]. destruct Hs1 as [[Hwf _] _ ?]. rewrite <-Hread in Hc, Hu.
    by split; [split|..]. }
  apply input_consume in Hin1. set (s2 := RtspSession.Consume s1 (len (request_text q))) in *.
  assert (Hs2 : streaming s2).
  { destruct Hin1 as [[Hwf _] _ _]. destruct Hs1 as [[_ Hop] Hudp ?]. by split; [split|..]. }
  assert (Ha2 : adds s w o s2 w1) by (destruct Ha; by split).
  eapply wp_interest; [exact Ha2|]. intros st2 w2 Ha3 _.
  eapply wp_mono.
  - apply IH; [done|exact Hin1|]. rewrite (replies_id sdp s s2) by done.
    change (pending s2) with (pending s1). change (room s2) with (room s1).
    pose proof (due_len _ _ _ _ Ho). lia.
  - intros s' w' Hex. apply (exchanged_cons sdp s w q o s2 w2); try done.
    change (pending s2) with (pending s1).
    pose proof (due_len _ _ _ _ Ho). lia.
Qed.

Lemma client_texts_ok qs : Forall request_ok qs -> Forall message_ok (client_texts qs).
Proof.
  intros Hqs. apply Forall_fmap. eapply Forall_impl; [exact Hqs|]. apply request_message_ok.
Qed.

Lemma serve_keeps_ring v fd ms s w s' w' q :
  len (RtspServer.GetSdp v) < 2 ^ 62 -> input_is s q -> serve v fd ms s w = Done s' w' ->
  write_pos_ (read_buffer_ (conn_ s')) = write_pos_ (read_buffer_ (conn_ s)) /\
  capacity_ (read_buffer_ (conn_ s')) = capacity_ (read_buffer_ (conn_ s)).
Proof.
  intros Hsdp [Hok _ _]. revert s w Hok.
  assert (Hconsume : forall s n, session_ok s -> 0 <= n -> session_ok (RtspSession.Consume s n)).
  { intros s0 n [[Hr Hw] Hid] Hn. by destruct (rb_Consume_spec _ n Hr Hn) as (? & _). }
  induction ms as [|[ch payload|text] ms IH]; intros s w Hok; cbn [serve]; [by intros [= <- <-]|..].
  - intros Hrun. apply (IH (RtspSession.Consume s (4 + len payload))) in Hrun; [done|].
    apply Hconsume; [done|]. pose proof (len_nonneg payload). lia.
  - unfold mbind, M_bind. destruct (RtspSession.ProcessData _ s _ _ w) as [[st s1] w1|] eqn:H1; [|done].
    apply ProcessData_keeps in H1 as [Hok1 Hr]; [|done|done]. rewrite <-Hr.
    match goal with |- match ?m w1 with _ => _ end = _ -> _ => destruct (m w1) as [st2 w2|] end; [|done].
    intros Hrun. apply (IH (RtspSession.Consume s1 (len text))) in Hrun; [done|].
    apply Hconsume; [done|]. apply len_nonneg.
Qed.

Lemma wp_process_requests fuel v fd rest qs s w :
  let sdp := RtspServer.GetSdp v in
  streaming s -> input_is s (mjoin (message_bytes <$> client_texts qs) ++ rest) ->
  Forall request_ok qs -> next_message rest = Incomplete -> len sdp < 2 ^ 62 ->
  pending s + len (replies sdp s qs) <= room s -> (length qs < fuel)%nat ->
  wp (RtspServer.process_loop fuel v fd s) (fun v' w' => exists s',
    v' = put_session v fd s' /\ input_is s' rest /\ exchanged sdp s w qs s' w' /\
    write_pos_ (read_buffer_ (conn_ s')) = write_pos_ (read_buffer_ (conn_ s)) /\
    capacity_ (read_buffer_ (conn_ s')) = capacity_ (read_buffer_ (conn_ s))) w.
Proof.
  intros sdp Hs Hin Hqs Hrest Hsdp Hroom Hfuel.
  destruct (process_loop_serve fuel v fd s (client_texts qs) rest w) as [Hrun Hkeep];
    [done|done|by apply client_texts_ok|done|by unfold client_texts; rewrite length_fmap|].
  pose proof (wp_serve v fd rest qs s w Hs Hin Hqs Hsdp Hroom) as Hwp. unfold wp in *.
  rewrite Hrun. unfold mbind, M_bind.
  destruct (serve v fd (client_texts qs) s w) as [s' w'|] eqn:Hs1; [|done]. cbn. exists s'.
  split; [done|]. split; [by apply (Hkeep s' w')|]. split; [done|].
  by eapply serve_keeps_ring.
Qed.

(** ** Property *)

(** C13: What a client's requests lead to.  Requests as a client writes them (request
    line, CSeq, a TCP transport on SETUP) wait in one piece on the input of an open
    TCP session, whole or followed by an incomplete message, and the write buffer
    has room for their replies.  The loop then parses and answers all of them and
    leaves only the incomplete rest; the session goes through the states the methods
    ask for, in the order sent; and the connection's stream gains, for each request
    in turn, the reply to it whole -- with its method, its own CSeq and the session's
    identifier --, or nothing, but only if the kernel is not willing to take it. *)
Theorem exchange_in_order fuel v fd rest qs s w :
  let sdp := RtspServer.GetSdp v in
  streaming s -> input_is s (mjoin (message_bytes <$> client_texts qs) ++ rest) ->
  Forall request_ok qs -> next_message rest = Incomplete -> len sdp < 2 ^ 62 ->
  pending s + len (replies sdp s qs) <= room s -> (length qs < fuel)%nat ->
  wp (RtspServer.process_loop fuel v fd s) (fun v' w' => exists s',
    v' = put_session v fd s' /\ input_is s' rest /\ exchanged sdp s w qs s' w') w.
Proof.
  intros sdp Hs Hin Hqs Hrest Hsdp Hroom Hfuel.
  eapply wp_mono; [by apply (wp_process_requests fuel v fd rest qs s w)|].
  intros v' w' (s' & ? & ? & ? & _). eauto.
Qed.
End exchange.

(** *** Witness *)

(** OPTIONS, SETUP and PLAY in one read, and the beginning of a fourth request; the
    socket accepts nothing at first. *)
Definition opening : list client_request :=
  [mkClientRequest kOptions (lit "rtsp://h/s") 1; mkClientRequest kSetup (lit "rtsp://h/s/0") 2;
   mkClientRequest kPlay (lit "rtsp://h/s") 3].

Definition opening_session : rtsp_session ring_buffer :=
  mkRtspSession
    (mkConnection 7 (ring_of 256 (mjoin (message_bytes <$> client_texts opening) ++ lit "PAUSE"))
      (ring_of 1024 []) 0 0)
    SessionState.kInit (lit "ab") [] [] false (-1) (-1) sockaddr_zero sockaddr_zero 0.

Lemma opening_ok : Forall request_ok opening.
Proof. repeat constructor; vm_compute; by repeat split; discriminate. Defined.

Lemma exchange_in_order_witness :
  wp (RtspServer.process_loop (K := sample_kernel stalled) 4 idle_server 7 opening_session)
    (fun v' w' => exists s', v' = put_session idle_server 7 s' /\ input_is s' (lit "PAUSE") /\
      stream (conn_ s') w' = replies [] opening_session opening) world0.
Proof.
  eapply wp_mono.
  { apply (exchange_in_order (K := sample_kernel stalled) 4 idle_server 7 (lit "PAUSE") opening
      opening_session world0); [| |exact opening_ok|reflexivity|by vm_compute|vm_compute; discriminate|auto].
    - split; [|reflexivity|by vm_compute]. split; [|reflexivity].
      split; split; vm_compute; repeat split; discriminate.
    - split; [|reflexivity|vm_compute; discriminate].
      split; [|by vm_compute]. split; split; vm_compute; repeat split; discriminate. }
  intros v' w' (s' & H1 & H2 & H3). exists s'. split; [exact H1|]. split; [exact H2|].
  exact (exchanged_willing (K := sample_kernel stalled) _ _ _ _ _ _ H3 (stalled_willing 7)).
Defined.
