(* ===== verification/Serving.v ===== *)
(** * What the server does with its connections

    The theorems about the handlers of src/src/core/rtsp_server.cc: admission of
    connections, reads that bring nothing, the timeout sweep, the accounting of the
    broadcast, and the safety of the event loop. *)
From Stdlib Require Import Sorting.Sorted.
From stdpp Require Import gmap.
From S2P Require Import Prelude Status OrderedMap Kernel SampleKernel ByteQueue RingBuf.
From S2P Require Import FdGuard Owner Sock Epoll Conn Parser Forwarder Session Server ServerInv.

(** ** Closing connections *)
Section closing.
Context `{K : Kernel} {Q : Type} `{BQ : !ByteQueue Q}.
Implicit Types v : rtsp_server Q.
Implicit Types s : rtsp_session Q.

Lemma wp_destroy_session s w (Post : unit -> world -> Prop) :
  (forall w', Post tt w') -> wp (RtspSession.destroy s) Post w.
Proof.
  intros HP. unfold RtspSession.destroy, RtspSession.Close, Connection.destroy,
    Connection.Close, FdGuard.destroy.
  repeat first [wp_step; cbv beta|apply wp_Close; intros _]; apply HP.
Qed.

Lemma wp_RemoveFd l fd w (Post : status * epoll_loop callback -> world -> Prop) :
  (forall st l' w', Post (st, l') w') -> wp (EpollLoop.RemoveFd l fd) Post w.
Proof.
  intros HP. unfold EpollLoop.RemoveFd.
  destruct (negb _); [by wp_steps|]. destruct (fd <? 0); [by wp_steps|].
  wp_steps. by destruct (_ <? 0); wp_steps.
Qed.

Lemma wp_ModifyFd (l : epoll_loop callback) fd ev w (Post : status -> world -> Prop) :
  (forall st w', Post st w') -> wp (EpollLoop.ModifyFd l fd ev) Post w.
Proof.
  intros HP. unfold EpollLoop.ModifyFd.
  destruct (negb _); [by wp_steps|]. destruct (fd <? 0); [by wp_steps|].
  wp_steps. by destruct (_ <? 0); wp_steps.
Qed.

Lemma wp_release v fd s w (Post : rtsp_server Q -> world -> Prop) :
  (forall ds w', Post (with_snapshot v (snapshot_ v) ds) w') ->
  wp (RtspServer.release v fd s) Post w.
Proof.
  intros HP. unfold RtspServer.release. destruct (pinned v fd); [wp_step; apply HP|].
  wp_step. apply wp_destroy_session. intros w1. wp_step. rewrite (with_snapshot_same v). apply HP.
Qed.

Lemma wp_release_all ss v w (Post : rtsp_server Q -> world -> Prop) :
  (forall ds w', Post (with_snapshot v (snapshot_ v) ds) w') ->
  wp (RtspServer.release_all v ss) Post w.
Proof.
  revert v w. induction ss as [|[fd s] ss IH]; intros v w HP; cbn [RtspServer.release_all].
  - wp_step. rewrite (with_snapshot_same v). apply HP.
  - wp_step. apply wp_release. intros ds w1. apply IH. intros ds2 w2. apply HP.
Qed.

(** A server without the session at [fd], and with other registrations. *)
Definition without v fd l ds : rtsp_server Q :=
  with_snapshot (with_sessions (with_loop v l) (om_erase fd (sessions_ v))) (snapshot_ v) ds.

(** Closing a connection removes its session from the map; nothing else changes but
    the event loop and what only the snapshot keeps. *)
Lemma wp_CloseConnection v fd w (Post : rtsp_server Q -> world -> Prop) :
  (forall l ds w', Post (without v fd l ds) w') ->
  wp (RtspServer.CloseConnection v fd) Post w.
Proof.
  intros HP. unfold RtspServer.CloseConnection.
  destruct (om_find fd (sessions_ v)) as [s|] eqn:Hf.
  - wp_step. apply wp_RemoveFd. intros st l w1. apply wp_release. intros ds w2. apply HP.
  - wp_step. specialize (HP (event_loop_ v) (detached_ v) w). unfold without in HP.
    rewrite om_erase_id in HP by done. by destruct v.
Qed.

(** What [Stop] leaves: nobody to serve, but the event loop's descriptor. *)
Record stopped v v' : Prop := {
  sp_running : server_running_ v' = false;
  sp_sessions : sessions_ v' = [];
  sp_listener : FdGuard.IsValid (listener_ v') = false;
  sp_loop : epoll_fd_ (event_loop_ v') = epoll_fd_ (event_loop_ v);
  sp_halted : running_ (event_loop_ v') = false;
}.

Lemma wp_RemoveFd_epoll (l : epoll_loop callback) fd w :
  wp (EpollLoop.RemoveFd l fd) (fun '(_, l') _ =>
    epoll_fd_ l' = epoll_fd_ l /\ running_ l' = running_ l) w.
Proof.
  unfold EpollLoop.RemoveFd.
  destruct (negb _); [by wp_steps|]. destruct (fd <? 0); [by wp_steps|].
  wp_steps. by destruct (_ <? 0); wp_steps.
Qed.

Lemma wlp_Stop v w :
  server_running_ v = true -> wlp (RtspServer.Stop v) (fun v' _ => stopped v v') w.
Proof.
  intros Hr. unfold RtspServer.Stop, RtspServer.IsRunning. rewrite Hr. cbn [negb].
  apply wlp_bind. eapply (wlp_mono _ (fun v1 _ => server_running_ v1 = false /\
    epoll_fd_ (event_loop_ v1) = epoll_fd_ (event_loop_ v) /\
    running_ (event_loop_ v1) = false)).
  { unfold RtspServer.Stop_timer. destruct (0 <=? _); [|by apply wlp_ret].
    apply wlp_bind, wlp_wp. eapply wp_mono; [apply wp_RemoveFd_epoll|]. intros [st l] w1 [Hl Hr'].
    apply wlp_skip. intros a w2. by apply wlp_ret. }
  intros v1 w1 (H1 & H2 & H3). apply wlp_skip. intros ss w2. apply wlp_bind, wlp_wp, wp_release_all.
  intros ds w3. unfold Listener.Close, Socket.Close. apply wlp_bind, wlp_wp, wp_Close;
    intros Hv; by apply wlp_ret.
Qed.

(** ** The timeout sweep *)

(** What the sweep removes: torn-down sessions, and those idle for their limit. *)
Definition due v s (now : Z) : Prop :=
  let limit := idle_limit s (connection_timeout_sec_ v) (session_timeout_sec_ v) in
  state_ s = SessionState.kTeardown \/ (0 < limit /\ last_activity_sec_ s + limit <= now).

(** Readings of the steady clock, in seconds *)
Definition is_clock (now : Z) : Prop :=
  exists tr, now = RtspSession.to_seconds (a_ret (kernel_answer tr SysSteadyClock)).

Lemma wp_collect v ss w :
  wp (RtspServer.collect_timed_out v ss) (fun fds _ => (om_sorted ss -> NoDup fds) /\
    exists clock : Z -> Z, (forall fd, is_clock (clock fd)) /\
      forall fd, om_sorted ss -> In fd fds <-> exists s, In (fd, s) ss /\ due v s (clock fd)) w.
Proof.
  revert w. induction ss as [|[k s] ss IH]; intros w; cbn [RtspServer.collect_timed_out].
  { wp_step. split; [by intros; constructor|]. exists (fun _ => RtspSession.to_seconds (a_ret (kernel_answer [] SysSteadyClock))).
    split; [intros; by eexists|]. intros fd _. split; [done|]. by intros (? & [] & _). }
  assert (Hnext : forall (now : Z) (b : bool) w1, is_clock now -> (b = true <-> due v s now) ->
    wp (RtspServer.collect_timed_out v ss) (fun fds _ =>
      (om_sorted ((k, s) :: ss) -> NoDup (if b then k :: fds else fds)) /\
      exists clock : Z -> Z, (forall fd, is_clock (clock fd)) /\
      forall fd, om_sorted ((k, s) :: ss) -> In fd (if b then k :: fds else fds) <->
        exists s', In (fd, s') ((k, s) :: ss) /\ due v s' (clock fd)) w1).
  { intros now b w1 Hnow Hb. eapply wp_mono; [apply IH|].
    intros fds w' (Hnd & clock & Hcl & Hin). split.
    { intros Hs. pose proof Hs as Hs0. apply StronglySorted_inv in Hs0 as [Hs0 _].
      destruct b; [|by apply Hnd]. constructor; [|by apply Hnd].
      intros (s' & Hi & _)%list_elem_of_In%(Hin k Hs0). apply om_In_find in Hi; [|done].
      by rewrite (om_sorted_notin_tail k s) in Hi. }
    exists (fun fd => if decide (fd = k) then now else clock fd).
    split; [intros fd; by case_decide|]. intros fd Hs.
    assert (Hnot : forall s', ~ In (k, s') ss).
    { intros s' Hi. pose proof Hs as Hs0. apply StronglySorted_inv in Hs0 as [Hs0 _].
      apply om_In_find in Hi; [|done]. by rewrite (om_sorted_notin_tail k s) in Hi. }
    apply StronglySorted_inv in Hs as [Hs _]. specialize (Hin fd Hs).
    assert (In fd (if b then k :: fds else fds) <-> (b = true /\ k = fd) \/ In fd fds) as ->
      by (destruct b; simpl; intuition congruence). rewrite Hin, Hb. clear Hin Hb.
    split.
    - intros [[Hd ->]|(s' & Hi & Hd)].
      + exists s. rewrite decide_True by done. split; [by left|done].
      + exists s'. rewrite decide_False by (intros ->; by eapply Hnot). split; [by right|done].
    - intros (s' & [?|Hi] & Hd).
      + simplify_eq. rewrite decide_True in Hd by done. by left.
      + right. exists s'. rewrite decide_False in Hd by (intros ->; by eapply Hnot). done. }
  case_decide as Hst.
  - wp_step. eapply wp_mono; [apply (Hnext (RtspSession.to_seconds
      (a_ret (kernel_answer [] SysSteadyClock))) true); [by eexists|]|].
    + split; [by left|done].
    + intros fds w' H. by wp_step.
  - wp_step. apply wp_IsTimedOut. intros tr b w1 now limit Hb. wp_step.
    eapply wp_mono; [apply (Hnext now b); [by eexists|]|].
    + unfold due. fold limit. rewrite Hb. intuition.
    + intros fds w' H. by wp_step.
Qed.

(** [v'] is [v] without some sessions, each of which was counted as timed out. *)
Record swept v v' : Prop := {
  sw_sorted : om_sorted (sessions_ v');
  sw_count : u64 (timed_out_sessions_ v') =
    u64 (timed_out_sessions_ v + (len (sessions_ v) - len (sessions_ v')));
}.

Lemma wp_close_timed_out v fds w :
  om_sorted (sessions_ v) -> NoDup fds ->
  (forall fd, fd ∈ fds -> om_find fd (sessions_ v) <> None) ->
  wp (RtspServer.close_timed_out v fds) (fun v' _ =>
    swept v v' /\ forall fd, om_find fd (sessions_ v') =
      if bool_decide (fd ∈ fds) then None else om_find fd (sessions_ v)) w.
Proof.
  intros Hs Hnd. revert v w Hs. induction Hnd as [|fd fds Hnot Hnd IH]; intros v w Hs Hin;
    cbn [RtspServer.close_timed_out].
  { wp_step. split; [by split; rewrite ?Z.sub_diag, ?Z.add_0_r|done]. }
  destruct (om_find fd (sessions_ v)) as [s|] eqn:Hf; [|by destruct (Hin fd); [apply list_elem_of_here|]].
  wp_step. apply wp_CloseConnection. intros l ds w1.
  set (v1 := without _ _ _ _). eapply wp_mono; [apply IH|].
  - by apply om_erase_sorted.
  - intros k Hk. unfold v1. cbn. rewrite om_find_erase_ne; [apply Hin; by apply list_elem_of_further|done|].
    by intros ->.
  - intros v' w' [[Hso Hc] Hfind]. split; [split; [done|]|].
    + rewrite Hc. unfold v1. cbn. rewrite (om_erase_len_old _ s) by done. unfold u64.
      rewrite Zplus_mod_idemp_l. f_equal. lia.
    + intros k. rewrite Hfind. unfold v1. cbn.
      destruct (decide (k = fd)) as [->|Hne].
      * rewrite (bool_decide_eq_true_2 (fd ∈ fd :: fds)) by apply list_elem_of_here.
        rewrite om_find_erase_eq by done. by destruct (bool_decide _).
      * rewrite om_find_erase_ne by done.
        rewrite (bool_decide_ext (k ∈ fd :: fds) (k ∈ fds)); [done|].
        rewrite elem_of_cons. intuition congruence.
Qed.

Lemma wp_CheckTimeouts v w :
  om_sorted (sessions_ v) ->
  wp (RtspServer.CheckTimeouts v) (fun v' _ =>
    if (connection_timeout_sec_ v <=? 0) && (session_timeout_sec_ v <=? 0) then v' = v
    else swept v v' /\ exists clock : Z -> Z, (forall fd, is_clock (clock fd)) /\
      forall fd s, om_find fd (sessions_ v') = Some s <->
        om_find fd (sessions_ v) = Some s /\ ~ due v s (clock fd)) w.
Proof.
  intros Hs. unfold RtspServer.CheckTimeouts.
  destruct ((connection_timeout_sec_ v <=? 0) && (session_timeout_sec_ v <=? 0)); [by wp_step|].
  wp_step. eapply wp_mono; [apply wp_collect|].
  intros fds w1 (Hnd & clock & Hcl & Hin).
  assert (Hfound : forall fd, In fd fds <->
    exists s, om_find fd (sessions_ v) = Some s /\ due v s (clock fd)).
  { intros fd. rewrite (Hin fd Hs). split; intros (s & Hi & Hd); exists s;
      (split; [|done]); [by apply om_In_find|by apply om_find_In]. }
  eapply wp_mono; [apply wp_close_timed_out; [done|by apply Hnd|]|].
  - intros fd (s & Hf & _)%list_elem_of_In%Hfound. by rewrite Hf.
  - intros v' w2 [Hsw Hfind]. split; [done|]. exists clock. split; [done|].
    intros fd s. rewrite Hfind. case_bool_decide as Hi; [|].
    + split; [done|]. intros [Hf Hd]. apply list_elem_of_In, Hfound in Hi as (s' & Hf' & Hd').
      destruct Hd. congruence.
    + split; [|by intros []]. intros Hf. split; [done|]. intros Hd.
      apply Hi, list_elem_of_In, Hfound. eauto.
Qed.

(** C23: The timeout sweep.  When one of the two limits is positive, the sweep
    removes exactly the sessions that are torn down or have been idle for their
    limit, each judged by a reading of the clock taken during the sweep, keeps the
    others untouched, and counts every removal as a timed-out session.  When
    neither limit is positive it does nothing: sessions marked as torn down stay. *)
Theorem CheckTimeouts_sweep v w :
  om_sorted (sessions_ v) ->
  wp (RtspServer.CheckTimeouts v) (fun v' _ =>
    if (connection_timeout_sec_ v <=? 0) && (session_timeout_sec_ v <=? 0) then v' = v
    else swept v v' /\ exists clock : Z -> Z, (forall fd, is_clock (clock fd)) /\
      forall fd s, om_find fd (sessions_ v') = Some s <->
        om_find fd (sessions_ v) = Some s /\ ~ due v s (clock fd)) w.
Proof. apply wp_CheckTimeouts. Qed.
End closing.

(** ** The broadcast *)
Section broadcast.
Context `{K : Kernel} {Q : Type} `{BQ : !ByteQueue Q}.
Implicit Types v : rtsp_server Q.
Implicit Types s : rtsp_session Q.

(** The number of consecutive drops after a forwarding attempt. *)
Definition drops_after (ok : bool) s : Z :=
  if ok then 0 else i32 (consecutive_drops_ (conn_ s) + 1).

(** The attempt disconnects a slow client. *)
Definition cuts (ok : bool) s : bool :=
  negb ok && (kMaxConsecutiveDrops <=? drops_after ok s).

(** What one turn of the broadcast makes of a forwarded session. *)
Record accounted (ok : bool) s1 s' : Prop := {
  ac_drops : consecutive_drops_ (conn_ s') = drops_after ok s1;
  ac_state : state_ s' = if cuts ok s1 then SessionState.kTeardown else state_ s1;
  ac_udp : is_udp_ s' = is_udp_ s1;
  ac_output : write_buffer_ (conn_ s') = write_buffer_ (conn_ s1);
}.

Definition objects_sorted v : Prop := om_sorted (sessions_ v) /\ om_sorted (detached_ v).

(** The other sessions, and what else a turn leaves alone. *)
Record same_others (fd : Z) v v' : Prop := {
  so_sorted : objects_sorted v';
  so_others : forall k, k <> fd -> find_object v' k = find_object v k;
  so_running : server_running_ v' = server_running_ v;
  so_detached : detached_ v = [] -> detached_ v' = [];
}.

Lemma same_others_put fd v v0 s :
  objects_sorted v -> sessions_ v0 = sessions_ v -> detached_ v0 = detached_ v ->
  server_running_ v0 = server_running_ v -> same_others fd v (put_object v0 fd s).
Proof.
  intros [Hs Hds] H1 H2 H3. unfold put_object, find_object. rewrite H2.
  destruct (om_find fd (detached_ v)) eqn:Hd; split; cbn; rewrite ?H1, ?H2; try done.
  - split; cbn; rewrite ?H1; [done|by apply om_set_sorted].
  - intros k Hk. unfold find_object. cbn. rewrite H1. by rewrite om_find_set_ne.
  - by intros Hn; rewrite Hn in Hd.
  - split; cbn; rewrite ?H1, ?H2; [by apply om_set_sorted|done].
  - intros k Hk. unfold find_object. cbn. rewrite H1, H2. by rewrite om_find_set_ne.
Qed.

Lemma wp_broadcast_one p v fd w (Post : rtsp_server Q -> world -> Prop) :
  objects_sorted v ->
  match find_object v fd with
  | None => Post v w
  | Some s =>
    wp (RtspSession.ForwardRtp s p) (fun '(st, s1) _ => forall v' w' s',
      same_others fd v v' -> find_object v' fd = Some s' ->
      accounted (Status.ok st) s1 s' ->
      total_dropped_sessions_ v' =
        (if cuts (Status.ok st) s1 then u64 (total_dropped_sessions_ v + 1)
         else total_dropped_sessions_ v) ->
      Post v' w') w
  end ->
  wp (RtspServer.broadcast_one p v fd) Post w.
Proof.
  intros Hs HP. unfold RtspServer.broadcast_one.
  destruct (find_object v fd) as [s|]; [|by wp_step].
  wp_step. eapply wp_mono; [exact HP|]. intros [st s1] w1 Hst. cbv beta iota in Hst |- *.
  unfold RtspServer.broadcast_account, RtspSession.GetConsecutiveDrops, RtspSession.RecordDrop,
    RtspSession.RecordSuccess, Connection.GetConsecutiveDrops, Connection.RecordDrop,
    Connection.RecordSuccess.
  assert (Hdrop : total_dropped_sessions_ v = total_dropped_sessions_ (put_object v fd s1))
    by (unfold put_object; by destruct (om_find fd (detached_ v))).
  destruct (Status.ok st); cbn [negb].
  - set (v1 := put_object v fd _).
    assert (Hfin : forall w', Post v1 w').
    { intros w'. eapply Hst; [by apply same_others_put|apply find_put_object|by split|].
      unfold v1, put_object. by destruct (om_find fd (detached_ v)). }
    destruct (RtspSession.NeedFlush _); [|by wp_step].
    wp_step. apply wp_ModifyFd. intros st2 w2. by wp_step.
  - cbn [conn_ RtspSession.with_conn consecutive_drops_].
    destruct (kMaxConsecutiveDrops <=? i32 (consecutive_drops_ (conn_ s1) + 1)) eqn:Hcut;
      (wp_step; eapply Hst; [by apply same_others_put|apply find_put_object|split|]);
      unfold cuts, drops_after, put_object; cbn; rewrite ?Hcut; try done;
      by destruct (om_find fd (detached_ v)).
Qed.

(** C26: The accounting of slow clients.  A turn of the broadcast changes only the
    session it serves.  Success resets that session's count of consecutive drops;
    a failure of any kind adds one, and the hundredth in a row marks the session
    as torn down and counts it as dropped, once.  (The cut comes when the count reaches
    [kMaxConsecutiveDrops]; the comment on that constant says, when it exceeds it.) *)
Theorem broadcast_one_accounts p v fd s st s1 w w1 :
  objects_sorted v -> find_object v fd = Some s ->
  RtspSession.ForwardRtp s p w = Done (st, s1) w1 ->
  wp (RtspServer.broadcast_one p v fd) (fun v' _ =>
    same_others fd v v' /\
    (exists s', find_object v' fd = Some s' /\ accounted (Status.ok st) s1 s') /\
    total_dropped_sessions_ v' =
      (if cuts (Status.ok st) s1 then u64 (total_dropped_sessions_ v + 1)
       else total_dropped_sessions_ v)) w.
Proof.
  intros Hs Hf Hfw. apply wp_broadcast_one; [done|]. rewrite Hf. unfold wp. rewrite Hfw. eauto.
Qed.

(** *** Packets that are too large *)

(** A packet over the limit, with its data. *)
Definition oversized (p : RtpPacket) : Prop :=
  exists m, data p = Some m /\ kMaxRtpPacketSize < plen p <= len m.

Lemma wp_ForwardRtp_oversized s p w (Post : status * rtsp_session Q -> world -> Prop) :
  oversized p ->
  (forall st s1 w', conn_ s1 = conn_ s -> state_ s1 = state_ s -> is_udp_ s1 = is_udp_ s ->
    (is_udp_ s = false -> Status.ok st = false) -> Post (st, s1) w') ->
  wp (RtspSession.ForwardRtp s p) Post w.
Proof.
  intros (m & Hm & Hp) HP. unfold kMaxRtpPacketSize in *.
  unfold RtspSession.ForwardRtp, RtspSession.UpdateActivity. wp_steps.
  cbn [is_udp_ RtspSession.with_activity]. destruct (is_udp_ s) eqn:Hu.
  - set (ep := RtspSession.udp_endpoint _ p).
    wp_step. unfold RtpForwarder.ForwardUdp. rewrite Hm, (proj2 (Z.eqb_neq (plen p) 0)) by lia.
    destruct (ep_fd ep <? 0); [wp_steps; by apply HP|]. wp_step.
    eapply wp_ub; [apply mem_read_Some; lia|]. wp_steps.
    destruct (_ <? 0); [wp_steps; destruct (Connection.would_block _)|]; wp_steps; by apply HP.
  - wp_step. unfold RtpForwarder.ForwardTcp. rewrite Hm, (proj2 (Z.eqb_neq (plen p) 0)) by lia.
    destruct (Connection.IsClosed _); [wp_steps; by apply HP|].
    unfold kMaxRtpPacketSize. rewrite (proj2 (Z.ltb_lt _ (plen p))) by lia.
    wp_steps. by apply HP.
Qed.

(** A turn for an oversized packet: over TCP, a drop. *)
Lemma wp_broadcast_one_oversized p v fd w (Post : rtsp_server Q -> world -> Prop) :
  oversized p -> objects_sorted v ->
  (forall v' w', same_others fd v v' ->
    (forall s, find_object v fd = Some s -> is_udp_ s = false ->
      exists s', find_object v' fd = Some s' /\ accounted false s s') -> Post v' w') ->
  wp (RtspServer.broadcast_one p v fd) Post w.
Proof.
  intros Hp Hs HP. apply wp_broadcast_one; [done|].
  destruct (find_object v fd) as [s|] eqn:Hf.
  - apply wp_ForwardRtp_oversized; [done|]. intros st s1 w1 Hc Hst Hu Hok v' w' s' Hso Hf' Ha _.
    apply HP; [done|]. intros ? [= <-] Htcp. exists s'. split; [done|].
    rewrite Hok in Ha by done. destruct Ha as [H1 H2 H3 H4].
    split; unfold cuts, drops_after in *; rewrite ?Hc, ?Hst, ?Hu in *; done.
  - apply HP; [by split|done].
Qed.

Lemma wp_broadcast_loop_oversized p fds v fd s w (Post : rtsp_server Q -> world -> Prop) :
  oversized p -> NoDup fds -> objects_sorted v -> detached_ v = [] ->
  find_object v fd = Some s -> is_udp_ s = false ->
  (forall v' w' s', objects_sorted v' -> detached_ v' = [] ->
    server_running_ v' = server_running_ v -> find_object v' fd = Some s' ->
    (if bool_decide (fd ∈ fds) then accounted false s s' else s' = s) -> Post v' w') ->
  wp (RtspServer.broadcast_loop p v fds) Post w.
Proof.
  intros Hp Hnd. revert v s w. induction Hnd as [|k fds Hk Hnd IH]; intros v s w Hs Hd Hf Hu HP;
    cbn [RtspServer.broadcast_loop].
  { wp_step. by eapply HP. }
  wp_step. apply wp_broadcast_one_oversized; [done|done|].
  intros v1 w1 [Hs1 Hother Hrun Hd1] Hthis. specialize (Hd1 Hd).
  destruct (decide (k = fd)) as [->|Hne].
  - destruct (Hthis s Hf Hu) as (s1 & Hf1 & Ha). pose proof Ha as [_ _ Hu1 _].
    eapply IH; [done|done|exact Hf1|congruence|]. intros v' w' s' H1 H2 H3 H4 H5.
    rewrite bool_decide_eq_false_2 in H5 by done. subst s'.
    eapply HP; [done|done|congruence|done|].
    by rewrite bool_decide_eq_true_2 by apply list_elem_of_here.
  - eapply IH; [done|done|by rewrite Hother|done|]. intros v' w' s' H1 H2 H3 H4 H5.
    eapply HP; [done|done|congruence|done|].
    rewrite (bool_decide_ext (fd ∈ k :: fds) (fd ∈ fds)); [done|].
    rewrite elem_of_cons. intuition congruence.
Qed.

(** The snapshot names each session once. *)
Lemma om_sorted_keys (m : list (Z * rtsp_session Q)) (f : Z * rtsp_session Q -> bool) :
  om_sorted m -> NoDup (fst <$> List.filter f m).
Proof.
  induction 1 as [|[k s] m Hs IH Hall]; simpl; [constructor|].
  destruct (f (k, s)); [|done]. rewrite fmap_cons. constructor; [|done].
  rewrite list_elem_of_fmap. intros ([k' s'] & Heq & [Hi _]%list_elem_of_In%List.filter_In).
  simpl in Heq. subst k'. rewrite List.Forall_forall in Hall.
  specialize (Hall _ Hi). simpl in Hall. by rewrite key_irrefl in Hall.
Qed.

Lemma playing_fds_NoDup v : om_sorted (sessions_ v) -> NoDup (RtspServer.playing_fds v).
Proof. apply om_sorted_keys. Qed.

(** The same packet broadcast [n] times. *)
Fixpoint broadcasts (n : nat) (p : RtpPacket) v : M (rtsp_server Q) :=
  match n with
  | O => mret v
  | S n => '(_, v) ← RtspServer.BroadcastRtp v p; broadcasts n p v
  end.

(** C35: Packets over the size limit disconnect TCP clients.  A packet larger than
    the limit is refused for each TCP client, and the refusal counts as a drop by
    that client: after as many such packets as a playing session still had to the
    hundredth drop, it is torn down, whatever the state of its connection and of
    the other sessions. *)
Theorem oversized_packets_disconnect n p v fd s w :
  oversized p -> om_sorted (sessions_ v) -> server_running_ v = true ->
  om_find fd (sessions_ v) = Some s -> state_ s = SessionState.kPlaying ->
  is_udp_ s = false -> 0 <= consecutive_drops_ (conn_ s) ->
  consecutive_drops_ (conn_ s) + Z.of_nat n = kMaxConsecutiveDrops -> (0 < n)%nat ->
  wp (broadcasts n p v) (fun v' _ => exists s', om_find fd (sessions_ v') = Some s' /\
    state_ s' = SessionState.kTeardown /\
    consecutive_drops_ (conn_ s') = kMaxConsecutiveDrops) w.
Proof.
  intros Hp. revert v s w. unfold kMaxConsecutiveDrops.
  induction n as [|n IH]; intros v s w Hs Hr Hf Hst Hu Hd Hn Hpos; [lia|].
  cbn [broadcasts]. wp_step. unfold RtspServer.BroadcastRtp, RtspServer.IsRunning.
  rewrite Hr. cbn [negb]. wp_step.
  eapply wp_broadcast_loop_oversized;
    [done|by apply playing_fds_NoDup|by split; [|constructor]|done|exact Hf|done|].
  intros v1 w1 s1 [Hs1 _] Hd1 Hr1 Hf1 Ha. unfold find_object in Hf1. rewrite Hd1 in Hf1.
  cbn [om_find] in Hf1. rewrite bool_decide_eq_true_2 in Ha
    by (apply playing_fds_spec; eauto). destruct Ha as [H1 H2 H3 _].
  wp_step. unfold RtspServer.drop_snapshot. rewrite Hd1. cbn [RtspServer.destroy_all].
  do 2 wp_step. cbv beta. wp_step.
  unfold cuts, drops_after in *. cbn [negb andb] in *.
  rewrite i32_small in * by (unfold INT_MIN, INT_MAX; lia). unfold kMaxConsecutiveDrops in *.
  wp_step. destruct n as [|n].
  - cbn [broadcasts]. wp_step. exists s1. split; [done|].
    rewrite (proj2 (Z.leb_le 100 _)) in H2 by lia. split; [done|lia].
  - rewrite (proj2 (Z.leb_gt 100 _)) in H2 by lia.
    cbn in Hr1. apply (IH (with_snapshot v1 [] []) s1); cbn [sessions_ server_running_ with_snapshot]; congruence || lia.
Qed.
End broadcast.

(** ** Admission, reading, and the event loop *)
Section serving.
Context `{K : Kernel} `{KL : !KernelLaws} {Q : Type} `{BQ : !ByteQueue Q}
  `{BL : !ByteQueueLaws Q}.
Implicit Types v : rtsp_server Q.
Implicit Types s : rtsp_session Q.

(** A session as the constructor leaves it. *)
Record fresh_session (fd : Z) s : Prop := {
  fr_fd : fd_guard_ (conn_ s) = fd;
  fr_state : state_ s = SessionState.kInit;
  fr_tcp : is_udp_ s = false;
  fr_drops : consecutive_drops_ (conn_ s) = 0;
  fr_wf : conn_wf (conn_ s);
  fr_input : bq_contents (read_buffer_ (conn_ s)) = [];
  fr_output : bq_contents (write_buffer_ (conn_ s)) = [];
}.

Lemma wlp_new_buffer size w :
  0 < size < 2 ^ 63 ->
  wlp (m ← alloc (Connection.block_size size); or_abort (bq_new size m)) (fun q w' =>
    bq_inv q /\ bq_contents q = [] /\ w' = w) w.
Proof.
  intros Hsz. apply wlp_bind. unfold alloc, wlp.
  destruct (kernel_alloc (w_trace w) (Connection.block_size size)) as [m|] eqn:Ha;
    [|by rewrite bq_new_null].
  apply alloc_len in Ha; unfold Connection.block_size in *;
    rewrite (proj2 (Z.ltb_lt 0 size)) in * by lia; [|lia].
  destruct (bq_new_spec size m Hsz Ha) as (q & -> & ? & ? & _). done.
Qed.

Lemma wlp_RtspSession seq fd size w :
  0 < size < 2 ^ 63 ->
  wlp (RtspSession.RtspSession seq fd size) (fun s _ => fresh_session fd s) w.
Proof.
  intros Hsz. unfold RtspSession.RtspSession, Connection.Connection, RtspSession.GenerateSessionId,
    RtspSession.UpdateActivity. apply wlp_bind.
  pose proof (wlp_new_buffer size) as Hnew.
  assert (Hconn : wlp (m1 ← alloc (Connection.block_size size);
    rb ← or_abort (bq_new size m1); m2 ← alloc (Connection.block_size size);
    wb ← or_abort (bq_new size m2);
    mret (mkConnection (FdGuard.FdGuard_of fd) rb wb 0 0)) (fun c _ =>
      conn_wf c /\ fd_guard_ c = fd /\ consecutive_drops_ c = 0 /\
      bq_contents (read_buffer_ c) = [] /\ bq_contents (write_buffer_ c) = []) w).
  { specialize (Hnew w Hsz). apply wlp_bind. apply wlp_bind in Hnew.
    eapply wlp_mono; [exact Hnew|]. intros m1 w1 H1. apply wlp_bind.
    eapply wlp_mono; [exact H1|]. intros rb w2 (H2 & H3 & ->).
    pose proof (wlp_new_buffer size w Hsz) as H4. apply wlp_bind. apply wlp_bind in H4.
    eapply wlp_mono; [exact H4|]. intros m2 w3 H5. apply wlp_bind.
    eapply wlp_mono; [exact H5|]. intros wb w4 (H6 & H7 & ->).
    apply wlp_wp. wp_step. by split_and!; try split. }
  eapply wlp_mono; [exact Hconn|]. intros c w1 (H1 & H2 & H3 & H4 & H5).
  apply wlp_wp. wp_steps. by split.
Qed.

(** Registering a client: the callbacks route its events, or nothing changed. *)
Lemma wp_AddFd_client (l : epoll_loop callback) fd w :
  wp (EpollLoop.AddFd l fd kRead OnClientReady) (fun '(st, l') w' =>
    closes (w_trace w') = closes (w_trace w) /\
    (Status.ok st = true -> callbacks_ l' !! fd = Some OnClientReady)) w.
Proof.
  unfold EpollLoop.AddFd. destruct (negb _); [by wp_steps|]. destruct (fd <? 0); [by wp_steps|].
  wp_steps. destruct (_ <? 0); wp_steps;
    (split; [rewrite trace_after, closes_app; cbn; by rewrite app_nil_r|]); [done|].
  intros _. cbn. apply lookup_insert_eq.
Qed.

Lemma wlp_add_session v fd w :
  0 < buffer_size_ v < 2 ^ 63 ->
  wlp (RtspServer.add_session v fd) (fun v' _ => exists s,
    sessions_ v' = om_set fd s (sessions_ v) /\ fresh_session fd s /\
    event_loop_ v' = event_loop_ v /\ total_connections_ v' = total_connections_ v) w.
Proof.
  intros Hsz. unfold RtspServer.add_session, RtspServer.NextSessionSequence. wlp_steps.
  eapply wlp_mono; [by apply wlp_RtspSession|]. intros s w1 Hs.
  destruct (om_find fd _) as [o|]; wlp_steps; [|by exists s].
  apply wlp_wp, wp_release. intros ds w2. by exists s.
Qed.

Lemma om_set_len_bound k s (m : list (Z * rtsp_session Q)) n :
  len m < n -> len (om_set k s m) <= n.
Proof.
  intros Hn. destruct (om_find k m) as [o|] eqn:Hf.
  - rewrite (om_set_len_old k s o m Hf). lia.
  - rewrite om_set_len_new by done. lia.
Qed.

(** C24: Admission.  A pending connection is accepted first.  If the server holds its
    limit of sessions the new descriptor is closed at once and nothing changes.
    Otherwise the connection is counted, and either the event loop refuses the
    descriptor, which is closed, or a fresh session is stored under it and its
    events are routed to the client callback; the limit is never exceeded. *)
Theorem OnNewConnection_admission v fd w :
  server_ok v ->
  let cfd := a_ret (kernel_answer (w_trace w) (SysAccept (listener_ v))) in
  wlp (RtspServer.OnNewConnection v fd) (fun v' w' =>
    if negb (FdGuard.IsValid (listener_ v)) || (cfd <? 0) then v' = v
    else if u64 (max_sessions_ v) <=? len (sessions_ v)
    then v' = v /\ closes (w_trace w') = closes (w_trace w) ++ [cfd]
    else total_connections_ v' = u64 (total_connections_ v + 1) /\
      len (sessions_ v') <= u64 (max_sessions_ v) /\
      ((sessions_ v' = sessions_ v /\ closes (w_trace w') = closes (w_trace w) ++ [cfd]) \/
       (exists s, sessions_ v' = om_set cfd s (sessions_ v) /\ fresh_session cfd s /\
         callbacks_ (event_loop_ v') !! cfd = Some OnClientReady))) w.
Proof.
  intros Hok cfd. pose proof Hok as [Hb Hsz Hin _ Hso].
  unfold RtspServer.OnNewConnection, Listener.Accept, Socket.Accept.
  destruct (FdGuard.IsValid (listener_ v)) eqn:Hl; cbn [negb orb];
    [|apply wlp_wp; by wp_steps].
  wlp_steps. change (FdGuard.fd (listener_ v)) with (listener_ v). fold cfd.
  destruct (Z.ltb_spec cfd 0) as [Hneg|Hpos]; wlp_steps; rewrite ?(proj2 (Z.ltb_lt cfd 0)) by lia;
    wlp_steps; [done|].
  rewrite (proj2 (Z.ltb_ge cfd 0)) by lia. wlp_steps.
  destruct (Z.leb_spec (u64 (max_sessions_ v)) (len (sessions_ v))) as [Hfull|Hroom].
  { wlp_steps. split; [done|]. rewrite !trace_after, !closes_app. cbn. by rewrite !app_nil_r. }
  wlp_steps. set (w1 := after (after w _) _).
  assert (Hc1 : closes (w_trace w1) = closes (w_trace w))
    by (unfold w1; rewrite !trace_after, !closes_app; cbn; by rewrite !app_nil_r).
  apply wlp_wp. eapply wp_mono; [apply (wp_AddFd_client (event_loop_ v) cfd w1)|].
  intros [st l] w2 [Hcl Hcb]. destruct (Status.ok st); cbn [negb].
  - eapply wlp_mono; [by apply wlp_add_session|]. cbn.
    intros v' w3 (s & Hs & Hfr & Hl2 & Ht). rewrite Hs, Ht, Hl2.
    split; [done|]. split; [by apply om_set_len_bound|]. right. eauto.
  - wlp_steps. split; [done|]. split; [cbn; lia|]. left. split; [done|].
    rewrite trace_after, closes_app, Hcl, Hc1. done.
Qed.

(** A read that brings no data comes to closing the connection. *)
Lemma wp_OnRead_closes v fd s w (Post : rtsp_server Q -> world -> Prop) :
  server_ok v -> om_find fd (sessions_ v) = Some s ->
  let q := read_buffer_ (conn_ s) in
  let a := kernel_answer (w_trace w) (SysRecv fd (bq_ContiguousWritableSize q)) in
  bq_WritableSize q = 0 \/ a_ret a <= 0 ->
  (forall s' w', Connection.fd (conn_ s') = fd -> grows (w_trace w) (w_trace w') ->
    wp (RtspServer.CloseConnection (put_session v fd s') fd) Post w') ->
  wp (RtspServer.OnRead v fd) Post w.
Proof.
  intros Hok Hf q a Ha HP. destruct (om_find_stored _ _ _ Hok Hf) as [Hfd Hpos _].
  cbn [fst snd] in *. unfold RtspServer.OnRead, RtspServer.ProcessConnectionData. rewrite Hf.
  assert (Connection.IsClosed (conn_ s) = false) as Hopen.
  { unfold Connection.IsClosed, FdGuard.IsValid. rewrite Hfd. by rewrite (proj2 (Z.leb_le 0 fd)). }
  unfold RtspSession.IsClosed. rewrite Hopen.
  assert (Hrest : forall r s' w', r <= 0 -> Connection.fd (conn_ s') = fd ->
    grows (w_trace w) (w_trace w') ->
    wp (if r <? 0 then RtspServer.CloseConnection (put_session v fd s') fd
        else if r =? 0 then RtspServer.CloseConnection (put_session v fd s') fd
        else RtspServer.process_loop (Z.to_nat (RtspSession.GetReadBufferSize s'))
          (put_session v fd s') fd s') Post w').
  { intros r s' w' Hr Hfd' Hg. destruct (Z.ltb_spec r 0); [by apply HP|].
    rewrite (proj2 (Z.eqb_eq r 0)) by lia. by apply HP. }
  unfold RtspSession.Recv, Connection.Recv. rewrite Hopen. fold q. do 2 wp_step.
  destruct (Z.eqb_spec (bq_WritableSize q) 0) as [_|Hne];
    [wp_steps; apply Hrest; [done|exact Hfd|constructor]|].
  destruct Ha as [|Ha]; [done|]. wp_steps.
  change (Connection.fd (conn_ s)) with (fd_guard_ (conn_ s)). rewrite Hfd. fold a.
  assert (Hg : grows (w_trace w) (w_trace (after w (SysRecv fd (bq_ContiguousWritableSize q)))))
    by apply grows_after.
  destruct (Z.ltb_spec (a_ret a) 0).
  - wp_steps. destruct (Connection.would_block _); wp_steps; by apply Hrest.
  - rewrite (proj2 (Z.eqb_eq (a_ret a) 0)) by lia. wp_steps. by apply Hrest.
Qed.

(** C40: A read event that brings no data ends the session.  When the input buffer
    is full, or the kernel returns no bytes -- the peer closed, an error, or
    nothing to read right now ([EAGAIN]) -- the session at that descriptor is
    removed, and no other. *)
Theorem OnRead_without_data v fd s w :
  server_ok v -> om_find fd (sessions_ v) = Some s ->
  let q := read_buffer_ (conn_ s) in
  let a := kernel_answer (w_trace w) (SysRecv fd (bq_ContiguousWritableSize q)) in
  bq_WritableSize q = 0 \/ a_ret a <= 0 ->
  wp (RtspServer.OnRead v fd) (fun v' _ => om_find fd (sessions_ v') = None /\
    forall k, k <> fd -> om_find k (sessions_ v') = om_find k (sessions_ v)) w.
Proof.
  intros Hok Hf q a Ha. pose proof (ok_sorted _ Hok) as Hso.
  apply (wp_OnRead_closes v fd s w _ Hok Hf Ha). intros s' w' _ _.
  apply wp_CloseConnection. intros l ds w2. cbn.
  pose proof (om_set_sorted fd s' _ Hso).
  split; [by apply om_find_erase_eq|]. intros k Hk.
  by rewrite om_find_erase_ne, om_find_set_ne by done.
Qed.

(** C3: The event loop is safe to run for any number of turns, whatever the kernel
    delivers and in whatever order.  Every loop ends; the only ways a run can fail
    are an abort for want of memory and undefined behaviour inside a call of the
    parser; otherwise the server is well formed afterwards -- each session stored
    under its own, open descriptor with good buffers, the map in order, the limit
    respected -- and holds exactly the descriptors it held before, plus those
    opened and minus those closed meanwhile. *)
Theorem Run_safe n v w :
  server_ok v ->
  match RtspServer.Run n v w with
  | Done v' w' =>
    server_ok v' /\ max_sessions_ v' = max_sessions_ v /\
    forall x, cnt x (held_server v') =
      cnt x (held_server v) + (net x (w_trace w') - net x (w_trace w))
  | Fault f => f = ProcessAborted \/ f = UndefinedBehaviour InParser
  end.
Proof.
  intros Hok.
  assert (Hown : owns (RtspServer.Run n v) (fun v' L' => server_ok v' /\
    max_sessions_ v' = max_sessions_ v /\ forall x, L' x = cnt x (held_server v'))
    (fun x => cnt x (held_server v))).
  { apply owns_Run; [done|]. intros v' L' H1 H2 H3. injection H2 as H2 _.
    split; [done|]. split; [done|]. intros x. specialize (H3 x). lia. }
  destruct (RtspServer.Run n v w) as [v' w'|f] eqn:Hrun.
  - destruct (owns_elim _ _ _ _ _ _ Hown Hrun) as (H1 & H2 & H3).
    split; [done|]. split; [done|]. intros x. specialize (H3 x). cbv beta in H3. lia.
  - apply tolerated_faults. by eapply owns_fault.
Qed.
End serving.

(** ** Witnesses *)

Lemma CheckTimeouts_sweep_witness :
  wp (RtspServer.CheckTimeouts (K := sample_kernel accepting) idle_server) (fun v' _ =>
    swept idle_server v') world0.
Proof.
  eapply wp_mono.
  - apply (CheckTimeouts_sweep (K := sample_kernel accepting) idle_server world0).
    exact (ok_sorted _ idle_server_ok).
  - intros v' w' H. exact (proj1 H).
Defined.

Lemma broadcast_one_accounts_witness :
  let s := session_with (ring_of 8 []) SessionState.kPlaying 99 in
  let p := mkRtpPacket (Some (lit "rtp")) 3 0 in
  exists st s1 w1,
    RtspSession.ForwardRtp (K := sample_kernel accepting) s p world0 = Done (st, s1) w1 /\
    wp (RtspServer.broadcast_one (K := sample_kernel accepting) p (server_with s) 7) (fun v' _ =>
      same_others 7 (server_with s) v') world0.
Proof.
  intros s p. do 3 eexists. split; [reflexivity|].
  eapply wp_mono.
  - eapply (broadcast_one_accounts (K := sample_kernel accepting) p (server_with s) 7 s);
      [split; by repeat constructor|reflexivity|reflexivity].
  - intros v' w' H. exact (proj1 H).
Defined.

Definition large_packet : RtpPacket := mkRtpPacket (Some (replicate 2049 NUL)) 2049 0.

Lemma oversized_packets_disconnect_witness :
  let s := session_with (ring_of 8 []) SessionState.kPlaying 0 in
  wp (broadcasts (K := sample_kernel accepting) 100 large_packet (server_with s)) (fun v' _ =>
    exists s', om_find 7 (sessions_ v') = Some s' /\ state_ s' = SessionState.kTeardown /\
      consecutive_drops_ (conn_ s') = kMaxConsecutiveDrops) world0.
Proof.
  intros s.
  apply (oversized_packets_disconnect (K := sample_kernel accepting) 100 large_packet
    (server_with s) 7 s world0);
    [|by repeat constructor|reflexivity..|by vm_compute|reflexivity|lia].
  eexists. split; [reflexivity|]. by split; vm_compute.
Defined.

Lemma OnNewConnection_admission_witness :
  wlp (RtspServer.OnNewConnection (K := sample_kernel accepting) idle_server 4) (fun v' w' =>
    v' = idle_server /\ closes (w_trace w') = [0]) world0.
Proof.
  exact (OnNewConnection_admission (K := sample_kernel accepting) idle_server 4 world0
    idle_server_ok).
Defined.

Lemma OnRead_without_data_witness :
  wp (RtspServer.OnRead (K := sample_kernel stalled) idle_server 7) (fun v' _ =>
    om_find 7 (sessions_ v') = None /\
    forall k, k <> 7 -> om_find k (sessions_ v') = om_find k (sessions_ idle_server)) world0.
Proof.
  apply (OnRead_without_data (K := sample_kernel stalled) idle_server 7
    (session_with (ring_of 8 []) SessionState.kInit 0) world0);
    [exact idle_server_ok|reflexivity|right; by vm_compute].
Defined.

Lemma Run_safe_witness :
  match RtspServer.Run (K := sample_kernel accepting) 3 idle_server world0 with
  | Done v' _ => server_ok v'
  | Fault f => f = ProcessAborted \/ f = UndefinedBehaviour InParser
  end.
Proof.
  pose proof (Run_safe (K := sample_kernel accepting) 3 idle_server world0 idle_server_ok) as H.
  destruct (RtspServer.Run 3 idle_server world0); [exact (proj1 H)|exact H].
Defined.
