(* ===== verification/Arrival.v ===== *)
(** * The requests of a client, however they arrive

    TCP delivers what a client sends in pieces of any size, and the event loop mixes
    the events of all clients.  The conversation with one client is nevertheless the
    one its text asks for: at any time, exactly the requests whose text has arrived
    completely have been answered, in order. *)
From stdpp Require Import gmap.
From S2P Require Import Prelude Status OrderedMap Text Kernel SampleKernel ByteQueue RingBuf.
From S2P Require Import FdGuard Owner Sock Epoll Conn Parser Builder Forwarder Session Stream.
From S2P Require Import Server ServerInv Footprint Framing Exchange Serving.

(** The text of the requests. *)
Definition texts (qs : list client_request) : bytes := mjoin (request_text <$> qs).

(** The beginning of what is still to come, without a complete request. *)
Definition partial (p : bytes) (later : list client_request) : Prop :=
  p `prefix_of` texts later /\
  match later with [] => True | q :: _ => len p < len (request_text q) end.

Lemma texts_cons q qs : texts (q :: qs) = request_text q ++ texts qs.
Proof. done. Qed.

Lemma texts_app qs qs' : texts (qs ++ qs') = texts qs ++ texts qs'.
Proof. unfold texts. by rewrite fmap_app, join_app. Qed.

(** What has arrived is complete requests and the beginning of the next. *)
Lemma split_arrived d later :
  d `prefix_of` texts later ->
  exists qs later' p, later = qs ++ later' /\ d = texts qs ++ p /\ partial p later'.
Proof.
  revert d. induction later as [|q later IH]; intros d Hd.
  { apply prefix_nil_inv in Hd as ->. by exists [], [], []. }
  destruct (decide (len d < len (request_text q))) as [|Hge].
  { by exists [], (q :: later), d. }
  rewrite texts_cons in Hd.
  assert (request_text q `prefix_of` d) as [d' ->].
  { destruct (prefix_weak_total (request_text q) d (request_text q ++ texts later))
      as [|Hpre]; [by eexists|done|done|]. apply prefix_length_eq in Hpre as ->; [done|].
    unfold len in Hge. lia. }
  apply prefix_app_inv in Hd. destruct (IH _ Hd) as (qs & later' & p & -> & -> & Hp).
  exists (q :: qs), later', p. by rewrite texts_cons, <-app_assoc.
Qed.

Lemma texts_length qs : Forall request_ok qs -> 4 * Z.of_nat (length qs) <= len (texts qs).
Proof.
  intros Hqs. induction Hqs as [|q qs Hq _ IH]; [by vm_compute|].
  rewrite texts_cons, len_app. cbn [length].
  pose proof (request_message_ok q Hq) as [Hf _]. pose proof (find_sub_Some _ _ _ Hf) as [? _]. lia.
Qed.

Lemma partial_incomplete p later :
  Forall request_ok later -> partial p later -> next_message p = Incomplete.
Proof.
  intros Hok [[k Hk] Hlen]. destruct later as [|q later].
  { cbn in Hk. by destruct p. }
  apply Forall_cons in Hok as [Hq _]. pose proof (request_message_ok q Hq) as [Hf H0].
  destruct Hq as [_ _ _ Hsize]. rewrite texts_cons in Hk.
  assert (p `prefix_of` request_text q) as [r Hp].
  { destruct (prefix_weak_total p (request_text q) (request_text q ++ texts later))
      as [|Hpre]; [by exists k|by eexists|done|].
    apply prefix_length in Hpre. unfold len in Hlen. lia. }
  assert (Hnone : find_sub (crlf ++ crlf) p = None).
  { destruct (find_sub (crlf ++ crlf) p) as [i|] eqn:Hi; [|done].
    pose proof (find_sub_bound _ _ _ Hi) as Hb.
    apply (find_sub_app _ _ r) in Hi. rewrite <-Hp, Hf in Hi. injection Hi as <-.
    change (len (crlf ++ crlf)) with 4 in Hb. lia. }
  unfold next_message. destruct p as [|a [|b [|c [|e p]]]]; try done.
  assert (Ha : nth 0 (request_text q) NUL = a).
  { by rewrite Hp. }
  rewrite Ha in H0. rewrite (proj2 (Z.eqb_neq _ 36)) by done. rewrite Hnone.
  by rewrite (proj2 (Z.leb_gt _ _)) by lia.
Qed.

(** ** The input ring *)

(** What is readable ends where the next byte goes: nothing wraps around. *)
Definition straight (rb : ring_buffer) : Prop :=
  read_pos_ rb + readable_size_ rb = write_pos_ rb.

Lemma straight_unwrapped rb : rb_wf rb -> straight rb -> unwrapped rb.
Proof.
  intros Hwf Hs. pose proof (rb_wf_write_range rb Hwf). unfold straight, unwrapped in *. lia.
Qed.

(** A ring that does not wrap has everything before its write position, unless that
    is 0. *)
Lemma unwrapped_straight rb :
  rb_wf rb -> unwrapped rb -> readable_size_ rb <= write_pos_ rb -> straight rb.
Proof.
  intros [Hcap _ Hread Hsize Hw] Hu Hle. unfold unwrapped, straight in *.
  destruct (Z.eq_dec (read_pos_ rb + readable_size_ rb) (capacity_ rb)) as [He|].
  - rewrite He, Z.mod_same in Hw by lia. lia.
  - rewrite Z.mod_small in Hw by lia. lia.
Qed.

Section arrival.
Context `{K : Kernel} `{KL : !KernelLaws}.
Implicit Types c : connection ring_buffer.
Implicit Types s : rtsp_session ring_buffer.
Implicit Types v : rtsp_server ring_buffer.

(** [Recv] returns nothing, or appends what arrived. *)
Lemma wp_Recv_arrived c w :
  conn_wf c -> Connection.IsClosed c = false -> straight (read_buffer_ c) ->
  wp (Connection.Recv c) (fun '(r, c') w' => r <= 0 \/
    0 < r /\ exists d, len d = r /\
      received (Connection.fd c) (w_trace w') = received (Connection.fd c) (w_trace w) ++ d /\
      grows (w_trace w) (w_trace w') /\ stream c' w' = stream c w /\
      conn_wf c' /\ fd_guard_ c' = fd_guard_ c /\ write_buffer_ c' = write_buffer_ c /\
      capacity_ (read_buffer_ c') = capacity_ (read_buffer_ c) /\
      rb_contents (read_buffer_ c') = rb_contents (read_buffer_ c) ++ d /\
      unwrapped (read_buffer_ c') /\
      write_pos_ (read_buffer_ c') = (write_pos_ (read_buffer_ c) + r) mod capacity_ (read_buffer_ c)) w.
Proof.
  intros Hwf Hopen Hst. pose proof Hwf as [Hr Hw]. pose proof Hr as [Hcap _ Hread Hsize _].
  unfold Connection.Recv. rewrite Hopen. set (rb := read_buffer_ c) in *.
  change (bq_WritableSize rb) with (RingBuffer.WritableSize rb).
  change (bq_ContiguousWritableSize rb) with (RingBuffer.ContiguousWritableSize rb).
  destruct (RingBuffer.WritableSize rb =? 0); [wp_steps; by left|]. wp_steps.
  set (n := RingBuffer.ContiguousWritableSize rb).
  assert (Hn : 0 <= n) by apply (bq_ContiguousWritable_spec rb Hr).
  pose proof (recv_bound (w_trace w) (Connection.fd c) n Hn) as Hb.
  pose proof (recv_data (w_trace w) (Connection.fd c) n) as Hd.
  set (call := SysRecv (Connection.fd c) n) in *. set (a := kernel_answer (w_trace w) call) in *.
  destruct (Z.ltb_spec (a_ret a) 0); [wp_steps; case_match; wp_steps; left; lia|].
  destruct (Z.eqb_spec (a_ret a) 0); [wp_steps; left; lia|].
  specialize (Hd ltac:(lia)). rewrite <-Hd in Hb. unfold n in Hb.
  destruct (rb_Store_Produce_spec rb (a_data a) Hr Hb) as (rb' & Hstore & Hwf' & Hc' & Hcont).
  wp_step. eapply wp_ub; [exact Hstore|]. wp_steps. right. split; [lia|]. exists (a_data a).
  rewrite rb_ContiguousWritableSize in Hb by done.
  unfold RingBuffer.StoreAtWritePtr in Hstore.
  destruct (mem_write (buffer_ rb) (write_pos_ rb) (a_data a)) as [m|]; [|done].
  injection Hstore as <-. rewrite <-Hd.
  set (rb2 := RingBuffer.Produce _ (len (a_data a))) in *.
  assert (Hpos : read_pos_ rb2 = read_pos_ rb /\ readable_size_ rb2 = readable_size_ rb + len (a_data a) /\
    write_pos_ rb2 = (write_pos_ rb + len (a_data a)) mod capacity_ rb).
  { pose proof (rb_wf_write_range rb Hr). pose proof (len_nonneg (a_data a)).
    unfold rb2, RingBuffer.Produce, RingBuffer.WritableSize. cbn [capacity_ readable_size_ write_pos_ read_pos_].
    rewrite !(u64_small (capacity_ rb - readable_size_ rb)) by lia.
    rewrite !(proj2 (Z.ltb_ge _ _)) by lia. nowrap. done. }
  destruct Hpos as (Hp1 & Hp2 & Hp3).
  split; [done|]. split.
  { rewrite trace_after, received_snoc. cbn [arrived call]. unfold a.
    rewrite Z.eqb_refl. fold a. by rewrite (proj2 (Z.ltb_lt 0 _)) by lia. }
  split; [rewrite trace_after; apply grows_call, grows_refl|].
  split; [by apply (stream_after c)|]. split; [by split|]. split; [done|]. split; [done|].
  split; [done|]. split; [done|]. split; [|done].
  change (read_pos_ rb2 + readable_size_ rb2 <= capacity_ rb2). rewrite Hc', Hp1, Hp2.
  unfold straight in Hst. lia.
Qed.

(** ** The conversation *)

(** From [tr0] on, what comes in on [fd] is the beginning of [text]. *)
Definition sends (fd : Z) (text : bytes) (tr0 : list event) : Prop :=
  forall tr, grows tr0 tr ->
  exists d, received fd tr = received fd tr0 ++ d /\ d `prefix_of` text.

(** The client of [fd], whose session is [s0] and waits for nothing, is going to
    send the requests [all]; the ring takes their text without wrapping around, the
    write buffer their replies. *)
Record opens fd (all : list client_request) v0 s0 (w0 : world) : Prop := {
  op_server : server_ok v0;
  op_find : om_find fd (sessions_ v0) = Some s0;
  op_streaming : streaming s0;
  op_input : input_is s0 [];
  op_ring : write_pos_ (read_buffer_ (conn_ s0)) + len (texts all) <
    capacity_ (read_buffer_ (conn_ s0));
  op_requests : Forall request_ok all;
  op_room : pending s0 + len (replies (sdp_ v0) s0 all) <= room s0;
  op_sends : sends fd (texts all) (w_trace w0);
}.

(** What only the input concerns is the same, and no output was added. *)
Record same_output s1 (w1 : world) s2 (w2 : world) : Prop := {
  sm_streaming : streaming s2;
  sm_id : session_id_ s2 = session_id_ s1;
  sm_fd : RtspSession.fd s2 = RtspSession.fd s1;
  sm_room : room s2 = room s1;
  sm_pending : pending s2 <= pending s1;
  sm_state : state_ s2 = state_ s1;
  sm_stream : stream (conn_ s2) w2 = stream (conn_ s1) w1;
}.

Lemma same_output_with_conn s w c' w' :
  streaming s -> conn_wf c' -> fd_guard_ c' = fd_guard_ (conn_ s) ->
  bq_capacity (write_buffer_ c') = room s -> len (bq_contents (write_buffer_ c')) <= pending s ->
  stream c' w' = stream (conn_ s) w -> same_output s w (RtspSession.with_conn s c') w'.
Proof.
  intros [[_ Hop] Hudp Hid] Hwf Hfd Hcap Hlen Hst.
  split; [|done|unfold RtspSession.fd; cbn; unfold Connection.fd; by rewrite Hfd|done..].
  split; [|done|done]. split; [done|]. cbn. unfold Connection.IsClosed. by rewrite Hfd.
Qed.

(** [H qs s w]: the output and the state are those of a client whose requests [qs]
    were answered.  The conversation is the same whatever else [H] says of them. *)
Record history (all : list client_request) v0 s0
    (H : list client_request -> rtsp_session ring_buffer -> world -> Prop) : Prop := {
  hs_streaming qs s w : H qs s w -> streaming s;
  hs_id qs s w : H qs s w -> session_id_ s = session_id_ s0;
  hs_room qs later s w : all = qs ++ later -> H qs s w ->
    pending s + len (replies (sdp_ v0) s0 later) <= room s;
  hs_more qs now s w s' w' : H qs s w ->
    exchanged (sdp_ v0) s w now s' w' -> H (qs ++ now) s' w';
  hs_same qs s1 w1 s2 w2 : H qs s1 w1 -> same_output s1 w1 s2 w2 -> H qs s2 w2;
}.

Section one_client.
Variables (fd : Z) (all : list client_request) (v0 : rtsp_server ring_buffer)
  (s0 : rtsp_session ring_buffer) (w0 : world).
Variable H : list client_request -> rtsp_session ring_buffer -> world -> Prop.

(** [qs] are answered, [later] are to come, of which [b] waits in the session. *)
Record reading (w : world) qs later b s : Prop := {
  rd_all : all = qs ++ later;
  rd_received : received fd (w_trace w) = received fd (w_trace w0) ++ texts qs ++ b;
  rd_input : input_is s b;
  rd_position : write_pos_ (read_buffer_ (conn_ s)) =
    write_pos_ (read_buffer_ (conn_ s0)) + len (texts qs ++ b);
  rd_capacity : capacity_ (read_buffer_ (conn_ s)) = capacity_ (read_buffer_ (conn_ s0));
  rd_history : H qs s w : Prop;
}.

(** So the session at [fd], when none of what waits is a complete request. *)
Record served v (w : world) qs later p s : Prop := {
  sv_find : om_find fd (sessions_ v) = Some s;
  sv_partial : partial p later;
  sv_attached : om_find fd (detached_ v) = om_find fd (detached_ v0);
  sv_reading : reading w qs later p s;
}.

Definition conversation v w : Prop :=
  om_find fd (sessions_ v) = None \/
  exists qs later p s, served v w qs later p s.

(** What holds between two events. *)
Record between v w : Prop := {
  bt_server : server_ok v;
  bt_sdp : sdp_ v = sdp_ v0;
  bt_grows : grows (w_trace w0) (w_trace w);
  bt_conversation : conversation v w;
}.

Hypothesis Hop : opens fd all v0 s0 w0.
Hypothesis Hh : history all v0 s0 H.

Lemma opens_position : 0 <= write_pos_ (read_buffer_ (conn_ s0)).
Proof. destruct Hop as [_ _ _ [[[Hr _] _] _ _] _ _ _ _]. by apply (rb_wf_write_range _ Hr). Qed.

Lemma reading_straight w qs later b s :
  reading w qs later b s -> straight (read_buffer_ (conn_ s)).
Proof.
  intros [_ _ [[[Hr _] _] Hc Hu] Hpos _ _]. pose proof opens_position as H0.
  apply unwrapped_straight; [done|done|].
  rewrite Hpos, len_app. pose proof (len_rb_contents _ Hr) as Hl. rewrite Hc in Hl.
  pose proof (len_nonneg (texts qs)). lia.
Qed.

Lemma wp_gone v w :
  om_sorted (sessions_ v) ->
  wp (RtspServer.CloseConnection v fd) (fun v' w' => conversation v' w') w.
Proof.
  intros Hs. apply wp_CloseConnection. intros l ds w'. left. cbn. by apply om_find_erase_eq.
Qed.

(** Bytes wait: the loop answers the requests that are complete. *)
Lemma wp_loop_conversation v w qs later b s :
  sdp_ v = sdp_ v0 -> grows (w_trace w0) (w_trace w) ->
  keyed fd v -> om_find fd (detached_ v) = om_find fd (detached_ v0) -> on fd s -> b <> [] ->
  reading w qs later b s ->
  wp (RtspServer.process_loop (Z.to_nat (RtspSession.GetReadBufferSize s)) v fd s)
    (fun v' w' => conversation v' w') w.
Proof.
  intros Hsdp Hg Hv Hdet Hon Hb [Hall Hrec Hin Hpos Hcap Hex].
  pose proof Hop as [Hok _ _ _ _ Hqs _ Hsends].
  destruct (Hsends _ Hg) as (d & Hd & Hpre). rewrite Hrec in Hd. apply app_inv_head in Hd as <-.
  rewrite Hall, texts_app in Hpre. apply prefix_app_inv in Hpre.
  destruct (split_arrived _ _ Hpre) as (now & later' & p & -> & -> & Hp).
  pose proof (hs_room _ _ _ _ Hh _ _ _ _ Hall Hex) as Hroom.
  pose proof (hs_id _ _ _ _ Hh _ _ _ Hex) as Hid. pose proof (hs_streaming _ _ _ _ Hh _ _ _ Hex) as Hstr.
  rewrite Hall in Hqs. apply Forall_app in Hqs as [_ [Hnow Hlater]%Forall_app].
  pose proof Hin as [[[Hr _] _] Hc _].
  assert (Hfuel : (length now < Z.to_nat (RtspSession.GetReadBufferSize s))%nat).
  { unfold RtspSession.GetReadBufferSize, Connection.GetReadBufferSize.
    rewrite bq_ReadableSize_spec by done. change (bq_contents (read_buffer_ (conn_ s))) with
      (rb_contents (read_buffer_ (conn_ s))). rewrite Hc.
    pose proof (texts_length now Hnow). destruct now as [|q now].
    - destruct p; [done|]. rewrite len_app, len_cons. pose proof (len_nonneg p).
      pose proof (len_nonneg (texts [])). cbn [length]. lia.
    - rewrite len_app. pose proof (len_nonneg p). cbn [length] in *. lia. }
  assert (Hin' : input_is s (mjoin (message_bytes <$> client_texts now) ++ p)).
  { unfold client_texts. rewrite <-list_fmap_compose. exact Hin. }
  eapply wp_mono.
  { eapply (wp_received fd).
    - by apply does_process_loop.
    - done.
    - apply (wp_process_requests _ v fd p now s w); [done|done|done|by eapply partial_incomplete| |
        |exact Hfuel].
      + change (RtspServer.GetSdp v) with (sdp_ v). rewrite Hsdp. apply Hok.
      + change (RtspServer.GetSdp v) with (sdp_ v). rewrite Hsdp, (replies_id (sdp_ v0) s0 s) by done.
        unfold replies in Hroom |- *. rewrite fmap_app, join_app, len_app in Hroom.
        pose proof (len_nonneg (mjoin (reply_to (sdp_ v0) s0 <$> later'))). lia. }
  change (RtspServer.GetSdp v) with (sdp_ v). rewrite Hsdp.
  intros v' w' [(s' & -> & Hin2 & Hex2 & Hpos2 & Hcap2) Hrec2].
  right. exists (qs ++ now), later', p, s'. split.
  - cbn. by rewrite om_find_set_eq.
  - done.
  - done.
  - split.
    + by rewrite <-app_assoc.
    + by rewrite Hrec2, Hrec, texts_app, <-!app_assoc.
    + done.
    + by rewrite Hpos2, Hpos, texts_app, <-!app_assoc.
    + congruence.
    + by eapply (hs_more _ _ _ _ Hh).
Qed.

Lemma between_sorted v w : between v w -> om_sorted (sessions_ v).
Proof. intros []. by apply ok_sorted. Qed.

(** A handler of this client that carries the conversation on. *)
Lemma wp_between v w (m : M (rtsp_server ring_buffer)) R :
  between v w -> owns m (fun v' _ => server_ok v') R ->
  does (io_on fd) m (only_at fd v) ->
  wp m (fun v' w' => conversation v' w') w ->
  wp m (fun v' w' => between v' w') w.
Proof.
  intros [Hok Hsdp Hg _] Hown Hdoes Hwp.
  pose proof (wp_grows _ _ _ _ _ Hwp Hown) as Hwp'. unfold wp in *.
  destruct (m w) as [v' w'|] eqn:Hrun; [|done].
  destruct Hwp' as (Hc & Hg' & L' & Hok'). split; [done| |by eapply grows_trans|done].
  destruct (does_result _ _ _ _ _ _ Hdoes Hrun) as [_ [= -> _ _] _ _ _ _ _]. done.
Qed.

Lemma served_open v w qs later p s :
  served v w qs later p s -> RtspSession.IsClosed s = false.
Proof. intros [_ _ _ [_ _ _ _ _ Hex]]. by destruct (hs_streaming _ _ _ _ Hh _ _ _ Hex) as [[_ ?] _ _]. Qed.

Lemma wp_OnRead_conversation v w :
  between v w ->
  wp (RtspServer.OnRead v fd) (fun v' w' => conversation v' w') w.
Proof.
  intros Hbt. pose proof Hbt as [Hok Hsdp Hg [Hnone|(qs & later & p & s & Hsv)]];
    unfold RtspServer.OnRead, RtspServer.ProcessConnectionData.
  { rewrite Hnone. wp_step. by left. }
  pose proof (served_open _ _ _ _ _ _ Hsv) as Hopen.
  pose proof Hsv as [Hf Hp Hdet Hrd]. rewrite Hf, Hopen.
  pose proof (keyed_ok v fd Hok) as Hk. pose proof (ky_fd _ _ Hk s Hf) as Hon.
  pose proof (reading_straight _ _ _ _ _ Hrd) as Hst.
  pose proof Hrd as [Hall Hrec [[Hwf Hid] Hc Hu] Hpos Hcap Hex].
  assert (Hclose : forall c' w', wp (RtspServer.CloseConnection
    (put_session v fd (RtspSession.with_conn s c')) fd)
    (fun v' w' => conversation v' w') w').
  { intros c' w'. apply wp_gone, om_set_sorted. by apply ok_sorted. }
  unfold RtspSession.Recv. do 2 wp_step.
  eapply wp_mono; [by apply (wp_Recv_arrived (conn_ s))|]. intros [r c'] w1 Hr. wp_step.
  destruct Hr as [Hr|(Hr & d & Hd & Hrec1 & Hg1 & Hst1 & Hwf1 & Hfd1 & Hw1 & Hcap1 & Hc1 & Hu1 & Hpos1)].
  { destruct (Z.ltb_spec r 0); [apply Hclose|]. rewrite (proj2 (Z.eqb_eq r 0)) by lia. apply Hclose. }
  rewrite (proj2 (Z.ltb_ge r 0)), (proj2 (Z.eqb_neq r 0)) by lia.
  assert (Hon1 : on fd (RtspSession.with_conn s c')).
  { apply on_with_conn; [done|]. unfold same_conn, Connection.fd. by rewrite Hfd1. }
  change (Connection.fd (conn_ s)) with (RtspSession.fd s) in Hrec1. unfold on in Hon.
  rewrite Hon in Hrec1.
  pose proof (grows_trans _ _ _ Hg Hg1) as Hg2.
  assert (Hlen : write_pos_ (read_buffer_ (conn_ s)) + r < capacity_ (read_buffer_ (conn_ s))).
  { pose proof (op_sends _ _ _ _ _ Hop _ Hg2) as (d2 & Hd2 & [k Hk2]).
    rewrite Hrec1, Hrec, <-app_assoc in Hd2. apply app_inv_head in Hd2 as <-.
    pose proof (op_ring _ _ _ _ _ Hop) as Hring. rewrite Hk2 in Hring.
    rewrite Hpos, Hcap, <-Hd. rewrite !len_app in *. pose proof (len_nonneg k). lia. }
  apply (wp_loop_conversation (put_session v fd (RtspSession.with_conn s c')) w1
    qs later (p ++ d)); [done|done|by apply only_at_put|done|done| |].
  { destruct d; [by rewrite len_nil in Hd; lia|]. by destruct p. }
  pose proof opens_position. split.
  - done.
  - by rewrite Hrec1, Hrec, <-!app_assoc.
  - split; [by split|by rewrite <-Hc|done].
  - change (read_buffer_ (conn_ (RtspSession.with_conn s c'))) with (read_buffer_ c').
    pose proof (len_nonneg (texts qs ++ p)).
    rewrite Hpos1, Z.mod_small, Hpos by lia. rewrite !len_app, Hd. lia.
  - by rewrite <-Hcap, <-Hcap1.
  - eapply (hs_same _ _ _ _ Hh); [exact Hex|]. apply same_output_with_conn; rewrite ?Hw1; try done.
    by apply (hs_streaming _ _ _ _ Hh _ _ _ Hex).
Qed.

Lemma wp_OnWrite_conversation v w :
  between v w ->
  wp (RtspServer.OnWrite v fd) (fun v' w' => conversation v' w') w.
Proof.
  intros Hbt. pose proof Hbt as [Hok Hsdp Hg [Hnone|(qs & later & p & s & Hsv)]];
    unfold RtspServer.OnWrite.
  { rewrite Hnone. wp_step. by left. }
  pose proof (served_open _ _ _ _ _ _ Hsv) as Hopen.
  pose proof Hsv as [Hf Hp Hdet [Hall Hrec [[Hwf Hid] Hc Hu] Hpos Hcap Hex]]. rewrite Hf, Hopen.
  pose proof (ky_fd _ _ (keyed_ok v fd Hok) s Hf) as Hon. unfold RtspSession.Flush. do 2 wp_step.
  eapply wp_mono.
  { eapply (wp_received fd); [apply does_Flush|done|by apply wp_Flush]. }
  intros [r c'] w1 [((Hwf1 & [Hfd1 Hr1 _ _] & Hcap1) & Hst1 & _ & Hlen1) Hrec1]. wp_step.
  destruct (r <? 0); [apply wp_gone, om_set_sorted; by apply ok_sorted|].
  set (s1 := RtspSession.with_conn s c').
  assert (Hs1 : forall w2, received fd (w_trace w2) = received fd (w_trace w1) ->
    stream c' w2 = stream c' w1 ->
    conversation (put_session v fd s1) w2).
  { intros w2 Hrec2 Hst2. right. exists qs, later, p, s1. split.
    - cbn. by rewrite om_find_set_eq.
    - done.
    - done.
    - split; [done|by rewrite Hrec2, Hrec1| | | |].
      + subst s1. split; [by split|by cbn; rewrite Hr1|by cbn; rewrite Hr1].
      + cbn. by rewrite Hr1.
      + cbn. by rewrite Hr1.
      + eapply (hs_same _ _ _ _ Hh); [exact Hex|].
        apply same_output_with_conn; [by apply (hs_streaming _ _ _ _ Hh _ _ _ Hex)|done..| |by rewrite Hst2].
        unfold pending. lia. }
  destruct (negb _); [|wp_step; by apply Hs1].
  wp_step. unfold EpollLoop.ModifyFd.
  destruct (negb _); [wp_steps; by apply Hs1|]. destruct (fd <? 0); [wp_steps; by apply Hs1|].
  wp_steps. destruct (_ <? _); wp_steps; (apply Hs1; [by rewrite trace_after, received_snoc, app_nil_r|]);
    by apply (stream_after c').
Qed.

Lemma wp_client_ready_conversation r v w :
  between v w ->
  wp (RtspServer.client_ready v fd r) (fun v' w' => between v' w') w.
Proof.
  intros Hbt. unfold RtspServer.client_ready. destruct (0 <? fd); [|by wp_step].
  assert (Hthen : forall (b : bool) v1 w1 (m : rtsp_server ring_buffer -> M (rtsp_server ring_buffer)),
    between v1 w1 ->
    (forall v1 w1, between v1 w1 ->
      wp (m v1) (fun v' w' => between v' w') w1) ->
    wp (if b then m v1 else mret v1) (fun v' w' => between v' w') w1).
  { intros b v1 w1 m H1 Hm. destruct b; [by apply Hm|by wp_step]. }
  assert (Hkey : forall v1 w1, between v1 w1 -> keyed fd v1)
    by (intros v1 w1 []; by apply keyed_ok).
  wp_step. eapply wp_mono; [apply (Hthen _ v w (fun v => RtspServer.OnRead v fd)); [done|]|].
  { intros v1 w1 H1. eapply (wp_between v1 _ _ (fun _ => 0)); [done| | |].
    - apply owns_ProcessConnectionData; [apply H1|]. by intros v' L' ? _ _.
    - apply does_OnRead. by eapply Hkey.
    - by apply wp_OnRead_conversation. }
  cbn beta. intros v1 w1 H1.
  wp_step. eapply wp_mono; [apply (Hthen _ v1 w1 (fun v => RtspServer.OnWrite v fd)); [done|]|].
  { intros v2 w2 H2. eapply (wp_between v2 _ _ (fun _ => 0)); [done| | |].
    - apply owns_OnWrite; [apply H2|]. by intros v' L' ? _ _.
    - eapply does_mono; [apply does_OnWrite; by eapply Hkey| |done].
      intros c. by apply io_within_mono.
    - by apply wp_OnWrite_conversation. }
  cbn beta. intros v2 w2 H2.
  apply (Hthen _ v2 w2 (fun v => RtspServer.OnError v fd)); [done|]. intros v3 w3 H3.
  eapply (wp_between v3 _ _ (fun _ => 0)); [done| | |].
  - apply owns_CloseConnection; [apply H3|]. by intros v' L' ? _ _.
  - apply does_CloseConnection. by eapply Hkey.
  - apply wp_gone. by eapply between_sorted.
Qed.

(** What happens on other connections leaves the conversation alone. *)
Lemma between_apart v w v' w' :
  between v w -> server_ok v' -> sdp_ v' = sdp_ v -> grows (w_trace w) (w_trace w') ->
  om_find fd (sessions_ v') = om_find fd (sessions_ v) ->
  (om_find fd (sessions_ v) <> None -> om_find fd (detached_ v') = om_find fd (detached_ v)) ->
  received fd (w_trace w') = received fd (w_trace w) ->
  wire fd (w_trace w') = wire fd (w_trace w) -> between v' w'.
Proof.
  intros [Hok Hsdp Hg Hc] Hok' Hsdp' Hg' Hs Hd Hrec Hwire.
  split; [done|congruence|by eapply grows_trans|].
  destruct Hc as [Hnone|(qs & later & p & s & [Hf Hp Hdet [Hall Hr Hin Hpos Hcap Hex]])].
  { left. by rewrite Hs. }
  right. exists qs, later, p, s. split; [by rewrite Hs|done|by rewrite Hd, Hdet by congruence|].
  split; [done|by rewrite Hrec|done|done|done|].
  eapply (hs_same _ _ _ _ Hh); [exact Hex|].
  split; [by apply (hs_streaming _ _ _ _ Hh _ _ _ Hex)|done..|]. unfold stream. f_equal.
  pose proof (ky_fd _ _ (keyed_ok v fd Hok) s Hf) as Hon. unfold on, RtspSession.fd in Hon.
  by rewrite Hon.
Qed.

Lemma between_attached v w :
  between v w -> om_find fd (sessions_ v) <> None ->
  om_find fd (detached_ v) = om_find fd (detached_ v0).
Proof. by intros [_ _ _ [|(qs & later & p & s & [])]]. Qed.

(** A client's handler leaves the conversation of another alone. *)
Lemma other_between k r v w v' w' :
  between v w -> k <> fd -> RtspServer.client_ready v k r w = Done v' w' -> between v' w'.
Proof.
  intros Hbt Hk Hrun. pose proof (bt_server _ _ Hbt) as Hok.
  pose proof (does_client_ready v k r (keyed_ok v k Hok)) as Hdoes.
  pose proof (does_result _ _ _ _ _ _ Hdoes Hrun) as [_ [= Hsdp' _ _] _ _ Hother _ Hdet].
  assert (Hown : owns (RtspServer.invoke OnClientReady k r v) (fun v' _ => server_ok v') (fun _ => 0))
    by (apply owns_invoke; [done|]; by intros ? ? ? _ _).
  apply (between_apart v w); [done|exact (owns_elim _ _ _ _ _ _ Hown Hrun)|done
    |exact (owns_grows _ _ _ _ _ _ Hown Hrun)|by apply Hother; congruence
    |intros _; by apply Hdet; congruence|exact (does_received fd _ _ _ _ _ _ _ Hdoes Hk Hrun)
    |exact (does_wire fd _ _ _ _ _ _ _ Hdoes Hk Hrun)].
Qed.

Lemma opens_between : H [] s0 w0 -> between v0 w0.
Proof.
  intros H0. destruct Hop as [Hok Hf Hs Hin _ Hqs _ _]. split; [done|done|apply grows_refl|].
  right. exists [], all, [], s0. split; [done| |done|].
  - split; [apply prefix_nil|]. destruct all as [|q all']; [done|].
    pose proof (texts_length _ Hqs) as Hl. rewrite texts_cons, len_app in Hl.
    apply Forall_cons in Hqs as [Hq _]. pose proof (request_message_ok q Hq) as [Hfs _].
    pose proof (find_sub_Some _ _ _ Hfs) as [? _]. rewrite len_nil. lia.
  - split; [done|by rewrite app_nil_r|done|cbn; rewrite len_nil; lia|done|done].
Qed.

(** Nor does it matter what the callbacks are, as long as they are of clients. *)
Definition only_clients (rs : list EventResult) v : Prop :=
  forall r cb, In r rs -> callbacks_ (event_loop_ v) !! er_fd r = Some cb -> cb = OnClientReady.

Lemma only_clients_sub rs v v' :
  only_clients rs v -> callbacks_ (event_loop_ v') ⊆ callbacks_ (event_loop_ v) ->
  only_clients rs v'.
Proof. intros Hcb Hsub r cb Hin H0. apply (Hcb r); [done|]. by eapply lookup_weaken. Qed.

Lemma dispatch_conversation rs v w :
  only_clients rs v -> between v w ->
  match EpollLoop.dispatch event_loop_ RtspServer.invoke rs v w with
  | Done v' w' => between v' w' /\ snapshot_ v' = snapshot_ v /\
      callbacks_ (event_loop_ v') ⊆ callbacks_ (event_loop_ v)
  | Fault _ => exists r, In r rs /\ er_fd r <> fd
  end.
Proof.
  revert v w. induction rs as [|r rs IH]; intros v w Hcb Hbt; [done|].
  cbn [EpollLoop.dispatch]. unfold mbind, M_bind.
  assert (Hnext : forall v1 w1, between v1 w1 -> snapshot_ v1 = snapshot_ v ->
    callbacks_ (event_loop_ v1) ⊆ callbacks_ (event_loop_ v) ->
    match EpollLoop.dispatch event_loop_ RtspServer.invoke rs v1 w1 with
    | Done v' w' => between v' w' /\ snapshot_ v' = snapshot_ v /\
        callbacks_ (event_loop_ v') ⊆ callbacks_ (event_loop_ v)
    | Fault _ => exists r0, In r0 (r :: rs) /\ er_fd r0 <> fd
    end).
  { intros v1 w1 Hbt1 Hsn Hsub.
    assert (Hcb1 : only_clients rs v1).
    { eapply only_clients_sub; [|exact Hsub]. intros r0 cb Hin. apply Hcb. by right. }
    specialize (IH v1 w1 Hcb1 Hbt1).
    destruct (EpollLoop.dispatch _ _ rs v1 w1) as [v' w'|].
    - destruct IH as (? & ? & ?). split; [done|]. split; [congruence|by etrans].
    - destruct IH as (r0 & Hin & Hne). exists r0. split; [by right|done]. }
  destruct (callbacks_ (event_loop_ v) !! er_fd r) as [cb|] eqn:Hlook; [|by apply Hnext].
  rewrite (Hcb r cb (or_introl eq_refl) Hlook). cbn [RtspServer.invoke].
  pose proof (does_client_ready v (er_fd r) r (keyed_ok v (er_fd r) (bt_server _ _ Hbt))) as Hdoes.
  destruct (RtspServer.client_ready v (er_fd r) r w) as [v1 w1|] eqn:Hrun.
  - destruct (does_result _ _ _ _ _ _ Hdoes Hrun) as [_ _ Hsub _ _ Hsn _]. apply Hnext; [|done..].
    destruct (Z.eq_dec (er_fd r) fd) as [He|He]; [|by eapply other_between].
    pose proof (wp_client_ready_conversation r v w Hbt) as Hwp.
    rewrite <-He in Hwp at 1. unfold wp in Hwp. by rewrite Hrun in Hwp.
  - exists r. split; [by left|]. intros He.
    pose proof (wp_client_ready_conversation r v w Hbt) as Hwp.
    rewrite <-He in Hwp at 1. unfold wp in Hwp. by rewrite Hrun in Hwp.
Qed.
End one_client.

(** ** Property *)

(** The replies alone are a history. *)
Lemma exchanged_history fd all v0 s0 w0 :
  opens fd all v0 s0 w0 -> history all v0 s0 (exchanged (sdp_ v0) s0 w0).
Proof.
  intros Hop. pose proof (op_room _ _ _ _ _ Hop) as Hroom. split.
  - by intros ? ? ? [].
  - by intros ? ? ? [].
  - intros qs later s w -> [_ _ _ Hr Hp _ _]. unfold replies in *.
    rewrite fmap_app, join_app, len_app in Hroom. lia.
  - intros qs now s w s' w' H1 H2. by eapply exchanged_trans.
  - intros qs s1 w1 s2 w2 [_ Hid Hfd Hr Hp Hst (outs & Houts & Hs)] [? Hid2 Hfd2 Hr2 Hp2 Hst2 Hs2].
    split; [done|congruence|congruence|congruence|lia|congruence|]. exists outs. by rewrite Hs2.
Qed.

(** C4: A conversation does not depend on how its text arrives.  A client is going to
    send requests; the ring takes their text without wrapping around and the write
    buffer their replies.  Let the event loop dispatch any sequence of client events
    -- reads, writes, errors, of this client and of any others, with the kernel
    delivering the text in pieces of any size and accepting any part of the output.
    Afterwards the session is closed, or exactly the requests whose text has arrived
    completely are answered, in order, as [exchange_in_order] says (all replies are in
    the stream if the kernel is willing), and the beginning of the next one waits.  Only
    an event of another client can have failed. *)
Theorem conversation_in_any_pieces fd all v0 s0 rs w0 :
  opens fd all v0 s0 w0 ->
  only_clients rs v0 ->
  match EpollLoop.dispatch event_loop_ RtspServer.invoke rs v0 w0 with
  | Done v w => conversation fd all v0 s0 w0 (exchanged (sdp_ v0) s0 w0) v w
  | Fault _ => exists r, In r rs /\ er_fd r <> fd
  end.
Proof.
  intros Hop Hcb. pose proof (exchanged_history _ _ _ _ _ Hop) as Hh.
  assert (Hbt : between fd all v0 s0 w0 (exchanged (sdp_ v0) s0 w0) v0 w0)
    by (apply opens_between; [done|done|apply exchanged_nil, Hop]).
  pose proof (dispatch_conversation fd all v0 s0 w0 _ Hop Hh rs v0 w0 Hcb Hbt) as H.
  destruct (EpollLoop.dispatch _ _ rs v0 w0); [by destruct H as [[] _]|done].
Qed.
End arrival.

(** *** Witness *)

Lemma sending_arrives fd text n tr c :
  received fd tr `prefix_of` text ->
  received fd (tr ++ [(c, @kernel_answer (sample_kernel (sending fd text n)) tr c)])
    `prefix_of` text.
Proof.
  intros [k Hk]. rewrite received_snoc. destruct c; try by rewrite app_nil_r; exists k.
  cbn [arrived kernel_answer sample_kernel sending]. destruct (Z.eqb_spec fd0 fd) as [->|].
  2: { cbn [andb]. rewrite app_nil_r. by exists k. }
  set (d := ztake (Z.min n n0) (zdrop (len (received fd tr)) text)).
  unfold clamp_answer. cbn [transfer_limit a_ret a_data].
  destruct (Z.ltb_spec 0 (Z.min (len d) n0)); cbn [andb]; [|rewrite app_nil_r; by exists k].
  assert (Hd : len d <= n0) by (unfold d; rewrite len_ztake; lia).
  rewrite Z.min_l by lia. rewrite resize_all_alt by (unfold len; lia).
  subst d. rewrite Hk, zdrop_app_r, Z.sub_diag, zdrop_0 by lia.
  apply prefix_app. exists (zdrop (Z.min n n0) k). by rewrite ztake_zdrop.
Qed.

Lemma sending_sends fd text n tr0 :
  received fd tr0 = [] -> sends (K := sample_kernel (sending fd text n)) fd text tr0.
Proof.
  intros H0 tr Hg. rewrite H0. exists (received fd tr). split; [done|].
  induction Hg as [|tr c _ IH]; [rewrite H0; apply prefix_nil|]. by apply sending_arrives.
Qed.

Definition reads : list EventResult := readable_at <$> [7; 7; 8; 7].

Definition piecewise : Kernel := sample_kernel (sending 7 (texts opening) 60).

(** The first client's first request arrives and is answered in two reads, the
    other two with the third; the second has nothing to say and is closed. *)
Definition piecewise_run : outcome (rtsp_server ring_buffer) :=
  EpollLoop.dispatch event_loop_ (RtspServer.invoke (K := piecewise)) reads two_clients world0.

Lemma opening_opens :
  opens (K := piecewise) 7 opening two_clients (new_client 7) world0.
Proof.
  split.
  - exact two_clients_ok.
  - reflexivity.
  - split; [|reflexivity|by vm_compute]. split; [|reflexivity].
    split; split; vm_compute; repeat split; discriminate.
  - split; [|reflexivity|vm_compute; discriminate].
    split; [|by vm_compute]. split; split; vm_compute; repeat split; discriminate.
  - by vm_compute.
  - exact opening_ok.
  - by vm_compute.
  - by apply sending_sends.
Defined.

Lemma run_done {A} (o : outcome A) (P C : A -> world -> Prop) (F : Prop) :
  match o with Done v w => P v w | Fault _ => False end ->
  match o with Done v w => C v w | Fault _ => F end ->
  exists v w, o = Done v w /\ P v w /\ C v w.
Proof. destruct o as [v w|]; [|done]. intros. by exists v, w. Qed.

Lemma conversation_in_any_pieces_witness :
  exists v w, piecewise_run = Done v w /\
    state_ <$> om_find 7 (sessions_ v) = Some SessionState.kPlaying /\
    conversation 7 opening two_clients (new_client 7) world0
      (exchanged (K := piecewise) [] (new_client 7) world0) v w.
Proof.
  apply (run_done piecewise_run (fun v _ => state_ <$> om_find 7 (sessions_ v) = Some SessionState.kPlaying)
    _ (exists r, In r reads /\ er_fd r <> 7)).
  - by vm_compute.
  - apply (conversation_in_any_pieces (K := piecewise) 7 opening two_clients (new_client 7) reads
      world0); [exact opening_opens|].
    intros r cb Hr. repeat destruct Hr as [<-|Hr]; [..|done]; vm_compute; congruence.
Defined.
