(* ===== verification/Liveness.v ===== *)
(** * The end of a session

    A torn-down session goes with the next expiry of the timer, whatever the other
    clients do meanwhile; and what is wrong with events that outlive their session. *)
From stdpp Require Import gmap.
From S2P Require Import Prelude Status OrderedMap Kernel SampleKernel ByteQueue RingBuf FdGuard.
From S2P Require Import Owner Scripted Sock Epoll Conn Session Server ServerInv Footprint Serving.

Section removal.
Context `{K : Kernel} `{KL : !KernelLaws} {Q : Type} `{BQ : !ByteQueue Q}
  `{BL : !ByteQueueLaws Q}.
Implicit Types v : rtsp_server Q.
Implicit Types s : rtsp_session Q.

(** A torn-down session that no event concerns, and a timer that sweeps. *)
Record awaits_timer fd timer s v : Prop := {
  aw_server : server_ok v;
  aw_find : om_find fd (sessions_ v) = Some s;
  aw_state : state_ s = SessionState.kTeardown;
  aw_limit : 0 < connection_timeout_sec_ v \/ 0 < session_timeout_sec_ v;
  aw_timer : callbacks_ (event_loop_ v) !! timer = Some OnTimerReady;
}.

(** The sweep takes the session. *)
Lemma wp_timer_removes fd timer s v w :
  awaits_timer fd timer s v ->
  0 < a_ret (kernel_answer (w_trace w) (SysReadTimer timer)) ->
  wp (RtspServer.timer_ready v timer) (fun v' _ => om_find fd (sessions_ v') = None) w.
Proof.
  intros [Hok Hf Hst Hlim _] Ht. unfold RtspServer.timer_ready. do 2 wp_step.
  rewrite (proj2 (Z.ltb_lt 0 _)) by done.
  eapply wp_mono; [apply wp_CheckTimeouts; by apply ok_sorted|]. cbn beta. intros v' w' Hsw.
  destruct (_ && _) eqn:Hoff.
  { apply andb_true_iff in Hoff as [?%Z.leb_le ?%Z.leb_le]. lia. }
  destruct Hsw as (_ & clock & _ & Hkeep).
  destruct (om_find fd (sessions_ v')) as [s'|] eqn:Hf'; [|done].
  apply Hkeep in Hf' as [Hf' Hd]. rewrite Hf in Hf'. injection Hf' as <-. destruct Hd. by left.
Qed.

(** Events of other clients leave all that as it is. *)
Lemma awaits_timer_other fd timer s v k r w v' w' :
  awaits_timer fd timer s v -> k <> fd -> k <> timer ->
  RtspServer.client_ready v k r w = Done v' w' ->
  awaits_timer fd timer s v' /\ only_at k v v'.
Proof.
  intros [Hok Hf Hst Hlim Ht] Hk Hkt Hrun.
  pose proof (does_result _ _ _ _ _ _ (does_client_ready v k r (keyed_ok v k Hok)) Hrun) as Hat.
  assert (Hown : owns (RtspServer.invoke OnClientReady k r v) (fun v' _ => server_ok v') (fun _ => 0))
    by (apply owns_invoke; [done|]; by intros ? ? ? _ _).
  split; [|done]. destruct Hat as [_ [= _ Hl1 Hl2] _ Hkept Hother _ _]. split.
  - exact (owns_elim _ _ _ _ _ _ Hown Hrun).
  - by rewrite Hother.
  - done.
  - by rewrite Hl1, Hl2.
  - by rewrite Hkept.
Qed.

(** C17: A torn-down session is removed.  When one of the two limits is positive and
    the timer expires after any events of other clients, the session is no longer
    in the map; only those other clients' events can have failed. *)
Theorem torn_down_is_removed fd timer s rs r v w :
  awaits_timer fd timer s v -> er_fd r = timer ->
  (forall tr, 0 < a_ret (kernel_answer tr (SysReadTimer timer))) ->
  (forall r cb, In r rs -> callbacks_ (event_loop_ v) !! er_fd r = Some cb -> cb = OnClientReady) ->
  (forall r, In r rs -> er_fd r <> fd) ->
  match EpollLoop.dispatch event_loop_ RtspServer.invoke (rs ++ [r]) v w with
  | Done v' _ => om_find fd (sessions_ v') = None
  | Fault _ => rs <> []
  end.
Proof.
  intros Haw <- Ht. revert v w Haw.
  induction rs as [|e rs IH]; intros v w Haw Hcb Hne; cbn [app EpollLoop.dispatch];
    unfold mbind, M_bind.
  { rewrite (aw_timer _ _ _ _ Haw). pose proof (wp_timer_removes _ _ _ _ w Haw (Ht _)) as Hwp.
    unfold wp in Hwp. cbn [RtspServer.invoke]. by destruct (RtspServer.timer_ready v (er_fd r) w). }
  assert (Hnext : forall v1 w1, awaits_timer fd (er_fd r) s v1 ->
    callbacks_ (event_loop_ v1) ⊆ callbacks_ (event_loop_ v) ->
    match EpollLoop.dispatch event_loop_ RtspServer.invoke (rs ++ [r]) v1 w1 with
    | Done v' _ => om_find fd (sessions_ v') = None
    | Fault _ => e :: rs <> []
    end).
  { intros v1 w1 Haw1 Hsub. specialize (IH v1 w1 Haw1).
    destruct (EpollLoop.dispatch _ _ _ v1 w1); [|done]. apply IH.
    - intros e0 cb Hin H0. apply (Hcb e0); [by right|]. by eapply lookup_weaken.
    - intros e0 Hin. apply Hne. by right. }
  destruct (callbacks_ (event_loop_ v) !! er_fd e) as [cb|] eqn:Hlook; [|by apply Hnext].
  pose proof (Hcb e cb (or_introl eq_refl) Hlook) as ->. cbn [RtspServer.invoke].
  destruct (RtspServer.client_ready v (er_fd e) e w) as [v1 w1|] eqn:Hrun; [|done].
  destruct (awaits_timer_other _ _ _ _ _ _ _ _ _ Haw (Hne e (or_introl eq_refl))
    ltac:(intros He; pose proof (aw_timer _ _ _ _ Haw); congruence) Hrun) as [Haw1 Hat].
  by apply Hnext; [|destruct Hat].
Qed.
End removal.

(** ** Events that outlive their session

    A batch of events is fetched at once and dispatched by descriptor.  A descriptor
    closed by an earlier event of the batch can be given to a new connection by
    another, and the event left over from the old connection then reaches the new
    session. *)
Section stale.
Context `{K : Kernel} `{KL : !KernelLaws} {Q : Type} `{BQ : !ByteQueue Q}
  `{BL : !ByteQueueLaws Q}.
Implicit Types v : rtsp_server Q.
Implicit Types s : rtsp_session Q.

(** The kernel and the server are about to connect a new client at [fd]: the listener
    has the event [e], there is room for a session, the kernel gives [fd] and lets it
    be watched, and there is nothing to read from the client yet. *)
Record newcomer fd (e : EventResult) v (w : world) : Prop := {
  nc_listener : FdGuard.IsValid (listener_ v) = true;
  nc_callback : callbacks_ (event_loop_ v) !! er_fd e = Some OnListenerReady;
  nc_room : len (sessions_ v) < u64 (max_sessions_ v);
  nc_loop : FdGuard.IsValid (epoll_fd_ (event_loop_ v)) = true;
  nc_fd : 0 < fd;
  nc_accept : a_ret (kernel_answer (w_trace w) (SysAccept (listener_ v))) = fd;
  nc_watch tr n : grows (w_trace w) tr -> 0 <= a_ret (kernel_answer tr
    (SysEpollCtl (epoll_fd_ (event_loop_ v)) EPOLL_CTL_ADD fd n));
  nc_silent tr n : grows (w_trace w) tr -> a_ret (kernel_answer tr (SysRecv fd n)) < 0;
}.

Lemma wlp_newcomer_accepted fd e v w :
  server_ok v -> newcomer fd e v w ->
  wlp (RtspServer.OnNewConnection v (er_fd e)) (fun v1 _ => exists s,
    sessions_ v1 = om_set fd s (sessions_ v) /\ fresh_session fd s /\
    callbacks_ (event_loop_ v1) !! fd = Some OnClientReady /\
    total_connections_ v1 = u64 (total_connections_ v + 1)) w.
Proof.
  intros Hok [Hl _ Hroom Hep Hpos Hacc Hwatch _].
  unfold RtspServer.OnNewConnection, Listener.Accept, Socket.Accept. rewrite Hl. cbn [negb].
  wlp_steps. change (FdGuard.fd (listener_ v)) with (listener_ v). rewrite Hacc.
  rewrite (proj2 (Z.ltb_ge fd 0)) by lia. wlp_steps.
  rewrite (proj2 (Z.ltb_ge fd 0)) by lia. wlp_steps. rewrite (proj2 (Z.leb_gt _ _)) by done.
  wlp_steps. unfold EpollLoop.AddFd. cbn [event_loop_ count_connection]. rewrite Hep. cbn [negb].
  rewrite (proj2 (Z.ltb_ge fd 0)) by lia. wlp_steps.
  change (FdGuard.fd (epoll_fd_ (event_loop_ v))) with (epoll_fd_ (event_loop_ v)).
  match goal with |- context [kernel_answer (w_trace ?x) (SysEpollCtl _ _ _ _)] => set (w1 := x) end.
  assert (Hg : grows (w_trace w) (w_trace w1))
    by (unfold w1; eapply grows_trans; apply grows_after).
  rewrite (proj2 (Z.ltb_ge _ 0)) by by apply Hwatch. wlp_steps. cbn [negb Status.ok Status.Ok].
  eapply wlp_mono; [apply wlp_add_session; apply Hok|]. intros v1 w2 (s & -> & Hfr & -> & ->).
  exists s. split; [done|]. split; [done|]. split; [|done]. cbn. apply lookup_insert_eq.
Qed.

Lemma closes_grows x tr tr' : grows tr tr' -> cnt x (closes tr) <= cnt x (closes tr').
Proof.
  induction 1 as [|tr' c _ IH]; [done|]. rewrite closes_app, cnt_app.
  pose proof (cnt_takes_nonneg x (c, kernel_answer tr' c)) as H.
  assert (cnt x (closes [(c, kernel_answer tr' c)]) = cnt x (takes (c, kernel_answer tr' c))) as ->
    by (by destruct c). lia.
Qed.

Lemma opened_grows x tr tr' : grows tr tr' -> cnt x (opened tr) <= cnt x (opened tr').
Proof.
  induction 1 as [|tr' c _ IH]; [done|]. unfold opened in *. rewrite bind_app, cnt_app.
  cbn [mbind list_bind]. rewrite app_nil_r.
  pose proof (cnt_gives_le x (c, kernel_answer tr' c)). lia.
Qed.

(** The descriptor was closed meanwhile. *)
Definition closed_since fd (w w' : world) : Prop :=
  cnt fd (closes (w_trace w)) < cnt fd (closes (w_trace w')).

Lemma wp_destroy_closes s w :
  0 <= Connection.fd (conn_ s) ->
  wp (RtspSession.destroy s) (fun _ w' => closed_since (Connection.fd (conn_ s)) w w') w.
Proof.
  intros Hfd. set (fd := Connection.fd (conn_ s)) in *.
  assert (Hown : owns (RtspSession.destroy s)
    (fun _ L' => L' fd = - cnt fd (held_session s)) (fun _ => 0))
    by (apply owns_destroy_session; intros L' HL; rewrite HL; lia).
  assert (Hheld : 1 <= cnt fd (held_session s)).
  { unfold held_session. change (fd_guard_ (conn_ s)) with fd. rewrite !cnt_app.
    rewrite (held_open fd) by lia. cbn [cnt]. rewrite Z.eqb_refl.
    pose proof (cnt_nonneg fd (held (udp_rtp_fd_ s))). pose proof (cnt_nonneg fd (held (udp_rtcp_fd_ s))). lia. }
  pose proof (wp_destroy_session s w (fun _ _ => True) (fun _ => I)) as Hwp. unfold wp in *.
  destruct (RtspSession.destroy s w) as [[] w'|] eqn:Hrun; [|done].
  pose proof (owns_elim _ _ _ _ _ _ Hown Hrun) as HL. cbv beta in HL.
  pose proof (opened_grows fd _ _ (owns_grows _ _ _ _ _ _ Hown Hrun)) as Ho.
  unfold closed_since, net in *. lia.
Qed.

(** Closing a connection that no broadcast has taken closes its descriptor. *)
Lemma wp_CloseConnection_closes v fd s w :
  om_sorted (sessions_ v) -> snapshot_ v = [] -> om_find fd (sessions_ v) = Some s ->
  Connection.fd (conn_ s) = fd -> 0 <= fd ->
  wp (RtspServer.CloseConnection v fd) (fun v' w' =>
    om_find fd (sessions_ v') = None /\
    (forall k, k <> fd -> om_find k (sessions_ v') = om_find k (sessions_ v)) /\
    total_connections_ v' = total_connections_ v /\ closed_since fd w w') w.
Proof.
  intros Hso Hsn Hf Hfd Hpos. unfold RtspServer.CloseConnection. rewrite Hf.
  assert (Hown : owns (EpollLoop.RemoveFd (event_loop_ v) fd) (fun _ _ => True) (fun _ => 0))
    by (apply owns_RemoveFd; done).
  pose proof (wp_RemoveFd (event_loop_ v) fd w (fun _ _ => True) (fun _ _ _ => I)) as Hwp.
  wp_step. eapply wp_mono; [exact (wp_grows _ _ _ _ _ Hwp Hown)|]. intros [st l] w1 (_ & Hg & _).
  unfold RtspServer.release, pinned. cbn [snapshot_ with_sessions with_loop]. rewrite Hsn.
  rewrite bool_decide_eq_false_2 by apply not_elem_of_nil. cbn [andb].
  wp_step. eapply wp_mono; [apply wp_destroy_closes; lia|]. intros [] w2 Hc. wp_step. cbn.
  rewrite Hfd in Hc. split; [by apply om_find_erase_eq|]. split; [intros; by apply om_find_erase_ne|].
  split; [done|]. unfold closed_since in *. pose proof (closes_grows fd _ _ Hg). lia.
Qed.

(** The left-over event, for a session that has nothing to read. *)
Lemma wp_stale_event v fd s r w :
  server_ok v -> snapshot_ v = [] -> om_find fd (sessions_ v) = Some s -> 0 < fd ->
  Z.land (er_events r) kRead <> 0 -> (forall n, a_ret (kernel_answer (w_trace w) (SysRecv fd n)) < 0) ->
  wp (RtspServer.client_ready v fd r) (fun v' w' =>
    om_find fd (sessions_ v') = None /\
    (forall k, k <> fd -> om_find k (sessions_ v') = om_find k (sessions_ v)) /\
    total_connections_ v' = total_connections_ v /\ closed_since fd w w') w.
Proof.
  intros Hok Hsn Hf Hpos Hread Hsilent. pose proof (ok_sorted _ Hok) as Hso.
  unfold RtspServer.client_ready. rewrite (proj2 (Z.ltb_lt 0 fd)) by done.
  rewrite (proj2 (Z.eqb_neq _ 0) Hread). cbn [negb]. wp_step.
  eapply wp_OnRead_closes; [done|done|right; specialize (Hsilent (bq_ContiguousWritableSize
    (read_buffer_ (conn_ s)))); lia|]. intros s' w1 Hfd' Hg.
  eapply wp_mono; [eapply (wp_CloseConnection_closes _ fd s')|].
  { by apply om_set_sorted. } { done. } { by apply om_find_set_eq. } { done. } { lia. }
  intros v' w2 (Hgone & Hothers & Htotal & Hclosed).
  assert (Hend : om_find fd (sessions_ v') = None /\
    (forall k, k <> fd -> om_find k (sessions_ v') = om_find k (sessions_ v)) /\
    total_connections_ v' = total_connections_ v /\ closed_since fd w w2).
  { split; [done|]. split; [|split; [done|]].
    - intros k Hk. rewrite Hothers by done. by apply om_find_set_ne.
    - unfold closed_since in *. pose proof (closes_grows fd _ _ Hg). lia. }
  assert (Hwrite : forall (Post : rtsp_server Q -> world -> Prop) w0,
    Post v' w0 -> wp (RtspServer.OnWrite v' fd) Post w0)
    by (intros Post w0 HP; unfold RtspServer.OnWrite; rewrite Hgone; by wp_step).
  assert (Herror : forall (Post : rtsp_server Q -> world -> Prop) w0,
    Post v' w0 -> wp (RtspServer.OnError v' fd) Post w0).
  { intros Post w0 HP. unfold RtspServer.OnError, RtspServer.CloseConnection.
    rewrite Hgone. by wp_step. }
  wp_step. destruct (negb _); [apply Hwrite|wp_step];
    (destruct (negb _); [apply Herror|wp_step]; exact Hend).
Qed.

Lemma dispatch_app rs rs' v w :
  EpollLoop.dispatch event_loop_ RtspServer.invoke (rs ++ rs') v w =
  match EpollLoop.dispatch event_loop_ RtspServer.invoke rs v w with
  | Done v' w' => EpollLoop.dispatch event_loop_ RtspServer.invoke rs' v' w'
  | Fault f => Fault f
  end.
Proof.
  revert v w. induction rs as [|r rs IH]; intros v w; cbn [app EpollLoop.dispatch]; [done|].
  unfold mbind, M_bind. destruct (callbacks_ (event_loop_ v) !! er_fd r) as [cb|].
  - destruct (RtspServer.invoke cb (er_fd r) r v w) as [v1 w1|]; [apply IH|done].
  - apply IH.
Qed.

(** C31: A left-over event disconnects a new client.  Take any batch of events whose
    first part left no session at [fd] -- the old client's was closed -- and which
    goes on with the event of the listener and the read event of the old client, at
    [fd].  If the new client is given [fd], with room for its session, and has sent
    nothing yet, it is accepted and counted, and then the event that was not its own
    closes its connection and removes its session, and no other; unless there is no
    memory for it or the first part failed. *)
Theorem stale_event_closes_newcomer rs e r fd v0 w0 v w :
  server_ok v0 -> snapshot_ v0 = [] ->
  EpollLoop.dispatch event_loop_ RtspServer.invoke rs v0 w0 = Done v w ->
  om_find fd (sessions_ v) = None -> newcomer fd e v w ->
  er_fd r = fd -> Z.land (er_events r) kRead <> 0 ->
  match EpollLoop.dispatch event_loop_ RtspServer.invoke (rs ++ [e; r]) v0 w0 with
  | Done v' w' =>
    (exists v1 w1 s, EpollLoop.dispatch event_loop_ RtspServer.invoke (rs ++ [e]) v0 w0 = Done v1 w1 /\
       om_find fd (sessions_ v1) = Some s /\ fresh_session fd s /\ closed_since fd w1 w') /\
    total_connections_ v' = u64 (total_connections_ v + 1) /\
    forall k, om_find k (sessions_ v') = om_find k (sessions_ v)
  | Fault f => f = ProcessAborted \/ f = UndefinedBehaviour InParser
  end.
Proof.
  intros Hok0 Hsn0 Hrs Hnone Hnew <- Hread. rewrite !dispatch_app, Hrs.
  assert (Hown : forall rs v0, server_ok v0 ->
    owns (EpollLoop.dispatch event_loop_ RtspServer.invoke rs v0)
      (fun v' _ => server_ok v' /\ fixed v' = fixed v0) (fun _ => 0)).
  { intros rs0 v1 Hv1. apply owns_dispatch; [done|]. by intros ? ? ? ? _. }
  destruct (owns_elim _ _ _ _ _ _ (Hown rs v0 Hok0) Hrs) as [Hok Hfix]. injection Hfix as _ Hsn.
  pose proof (wlp_newcomer_accepted (er_fd r) e v w Hok Hnew) as Hacc.
  pose proof (Hown [e] v Hok) as Howne. change (e :: [r]) with ([e] ++ [r]). rewrite dispatch_app.
  assert (Hone : EpollLoop.dispatch event_loop_ RtspServer.invoke [e] v w =
    RtspServer.OnNewConnection v (er_fd e) w).
  { cbn [EpollLoop.dispatch]. rewrite (nc_callback _ _ _ _ Hnew). cbn [RtspServer.invoke].
    unfold mbind, M_bind. by destruct (RtspServer.OnNewConnection v (er_fd e) w). }
  unfold wlp in Hacc. rewrite <-Hone in Hacc.
  destruct (EpollLoop.dispatch _ _ [e] v w) as [v1 w1|f] eqn:Hev.
  2: { apply tolerated_faults. by eapply owns_fault. }
  destruct (owns_elim _ _ _ _ _ _ Howne Hev) as [Hok1 Hfix1]. injection Hfix1 as _ Hsn1.
  pose proof (owns_grows _ _ _ _ _ _ Howne Hev) as Hg.
  destruct Hacc as (s & Hs & Hfr & Hcb & Htotal).
  assert (Hf1 : om_find (er_fd r) (sessions_ v1) = Some s) by (rewrite Hs; apply om_find_set_eq).
  pose proof (wp_stale_event v1 (er_fd r) s r w1 Hok1 ltac:(congruence) Hf1 (nc_fd _ _ _ _ Hnew)
    Hread (fun n => nc_silent _ _ _ _ Hnew _ n Hg)) as Hwp.
  cbn [EpollLoop.dispatch]. rewrite Hcb. cbn [RtspServer.invoke]. unfold mbind, M_bind. unfold wp in Hwp.
  destruct (RtspServer.client_ready v1 (er_fd r) r w1) as [v2 w2|]; [|done].
  destruct Hwp as (Hgone & Hothers & Ht2 & Hclosed). cbn.
  split; [by exists v1, w1, s|]. split; [congruence|].
  intros k. destruct (decide (k = er_fd r)) as [->|Hk]; [congruence|].
  rewrite Hothers, Hs by done. apply om_find_set_ne; [by apply ok_sorted|congruence].
Qed.
End stale.

(** ** Witnesses *)

(** The listener is 4, the timer 6, the event loop 5; the client at 7 has torn its
    session down. *)
Definition leaving : rtsp_server ring_buffer :=
  mkRtspServer 554 1 64 (lit "0.0.0.0") 1
    (mkEpollLoop 5 true 64 {[4 := OnListenerReady; 6 := OnTimerReady; 7 := OnClientReady]}) 4 true
    [] [(7, session_with (ring_of 8 []) SessionState.kTeardown 0)] 30 60 6 0 1 0 0 [] [].

Definition ready (fd : Z) : EventResult := mkEventResult fd kRead.

Lemma leaving_ok : server_ok leaving.
Proof.
  split; [by vm_compute|by vm_compute|by vm_compute|done|].
  split; [|by repeat constructor|constructor|constructor|by intros ? ?%not_elem_of_nil|done].
  constructor; [|constructor]. split; [done|done|].
  split; [|by vm_compute]. split; split; vm_compute; repeat split; discriminate.
Defined.

Lemma torn_down_is_removed_witness :
  match EpollLoop.dispatch event_loop_ (RtspServer.invoke (K := sample_kernel (scripted [])))
    [ready 8; ready 6] leaving world0 with
  | Done v' _ => om_find 7 (sessions_ v') = None
  | Fault _ => [ready 8] <> []
  end.
Proof.
  apply (torn_down_is_removed (K := sample_kernel (scripted [])) 7 6
    (session_with (ring_of 8 []) SessionState.kTeardown 0) [ready 8] (ready 6) leaving world0).
  - split; [exact leaving_ok|reflexivity|reflexivity|by left|reflexivity].
  - reflexivity.
  - intros tr. reflexivity.
  - intros r cb [<-|[]]. vm_compute. congruence.
  - intros r [<-|[]]. vm_compute. congruence.
Defined.

(** A server is started, listening at 3; a client connects, at 6, and tears its session
    down; then the timer at 5, the listener and the client are ready in one batch. *)
Definition teardown_script : Kernel :=
  sample_kernel (scripted [request "TEARDOWN rtsp://h/s RTSP/1.0" ["CSeq: 1"]]).

Definition left_by_client : outcome (rtsp_server ring_buffer) :=
  ('(_, v) ← RtspServer.Start (K := teardown_script) fresh_server;
   EpollLoop.dispatch event_loop_ (RtspServer.invoke (K := teardown_script)) [ready 3; ready 6] v) world0.

Lemma left_by_client_ok v w :
  left_by_client = Done v w -> server_ok v /\ snapshot_ v = [].
Proof.
  intros Hrun.
  assert (Hown : owns_upto (K := teardown_script) true ('(_, v) ← RtspServer.Start (K := teardown_script) fresh_server;
   EpollLoop.dispatch event_loop_ (RtspServer.invoke (K := teardown_script)) [ready 3; ready 6] v)
    (fun v' _ => server_ok v' /\ snapshot_ v' = []) (fun _ => 0)).
  { apply owns_bind. apply owns_Start; [exact fresh_server_ok|reflexivity|].
    intros st v' L' H1 H2 _. apply owns_dispatch; [exact H1|].
    intros v2 L2 H3 H4 _. split; [exact H3|].
    injection H4 as _ H4. injection H2 as _ H2. congruence. }
  exact (owns_elim _ _ _ _ _ _ Hown Hrun).
Qed.

(** The batch, after the timer's event. *)
Definition after_timer (Post : rtsp_server ring_buffer -> world -> rtsp_server ring_buffer ->
    world -> Prop) : Prop :=
  match left_by_client with
  | Done v0 w0 =>
    match EpollLoop.dispatch event_loop_ (RtspServer.invoke (K := teardown_script)) [ready 5] v0 w0 with
    | Done v w => Post v0 w0 v w
    | Fault _ => False
    end
  | Fault _ => False
  end.

Lemma after_timer_facts : after_timer (fun v0 _ v w =>
  (fst <$> sessions_ v0) = [6] /\ om_find 6 (sessions_ v) = None /\
  FdGuard.IsValid (listener_ v) = true /\
  callbacks_ (event_loop_ v) !! 3 = Some OnListenerReady /\
  (len (sessions_ v) <? u64 (max_sessions_ v)) = true /\
  FdGuard.IsValid (epoll_fd_ (event_loop_ v)) = true /\
  a_ret (@kernel_answer teardown_script (w_trace w) (SysAccept (listener_ v))) = 6 /\
  receives (w_trace w) = 1%nat).
Proof. vm_compute. by repeat split. Qed.

(** The kernel gives only descriptors that are not open; the client at 6 is gone after
    the timer's event, the new one gets its descriptor and loses its session. *)
Lemma stale_event_closes_newcomer_witness :
  @FreshDescriptors teardown_script /\ after_timer (fun v0 w0 v w =>
    (fst <$> sessions_ v0) = [6] /\
    match EpollLoop.dispatch event_loop_ (RtspServer.invoke (K := teardown_script))
      [ready 5; ready 3; ready 6] v0 w0 with
    | Done v' _ => total_connections_ v' = u64 (total_connections_ v + 1) /\
        forall k, om_find k (sessions_ v') = om_find k (sessions_ v)
    | Fault f => f = ProcessAborted \/ f = UndefinedBehaviour InParser
    end).
Proof.
  split; [apply scripted_fresh|]. pose proof after_timer_facts as Hfacts. unfold after_timer in *.
  destruct left_by_client as [v0 w0|] eqn:Hleft; [|done].
  destruct (left_by_client_ok v0 w0 Hleft) as [Hok Hsn].
  destruct (EpollLoop.dispatch _ _ [ready 5] v0 w0) as [v w|] eqn:Htimer; [|done].
  destruct Hfacts as (Hold & Hnone & Hl & Hcb & Hroom & Hep & Hacc & Hrecv).
  split; [exact Hold|].
  pose proof (stale_event_closes_newcomer (K := teardown_script) [ready 5] (ready 3) (ready 6) 6
    v0 w0 v w Hok Hsn Htimer Hnone) as H.
  assert (Hnew : newcomer (K := teardown_script) 6 (ready 3) v w).
  { split; [exact Hl|exact Hcb|by apply Z.ltb_lt|exact Hep|done|exact Hacc| |].
    - intros tr n _. cbn. lia.
    - intros tr n Hg. pose proof (receives_grows _ _ Hg) as Hr. rewrite Hrecv in Hr.
      cbn. unfold clamp_answer. cbn [transfer_limit scripted].
      rewrite lookup_ge_None_2 by (cbn; lia). cbn. lia. }
  specialize (H Hnew eq_refl ltac:(discriminate)). cbn [app] in H.
  destruct (EpollLoop.dispatch _ _ [ready 5; ready 3; ready 6] v0 w0); [exact (proj2 H)|exact H].
Defined.
