(* ===== verification/Threads.v ===== *)
(** * The threads of the program

    One thread runs the event loop, another forwards packets with
    [rtsp_forward_send_rtp], and any thread may start and stop the server, set the
    description or ask for information.  A [system] is the server and the point the
    stream thread has reached in [BroadcastRtp]; [step] is one action of one thread.
    Between two steps of the stream thread the others may do anything: the steps are
    the stretches of [BroadcastRtp] that see a consistent state, the snapshot under
    [sessions_mutex_], the forwarding to one session over TCP under [send_mutex_],
    and, over UDP, the reading of the session's socket and address apart from the
    [sendto] that uses them.  A handler of the event loop is one step. *)
From stdpp Require Import gmap relations.
From S2P Require Import Prelude Status OrderedMap Kernel SampleKernel ByteQueue RingBuf FdGuard.
From S2P Require Import Owner Scripted Sock Epoll Conn Parser Forwarder Session Server ServerInv Serving.

(** Where the stream thread is: outside [BroadcastRtp]; in its loop, with these
    pointers of the snapshot left; in [ForwardUdp] for the session stored at [fd]. *)
Inductive stream_point :=
  | Idle
  | Turns (packet : RtpPacket) (fds : list Z)
  | Sending (packet : RtpPacket) (fd : Z) (endpoint : UdpEndpoint) (fds : list Z).

Record system (Q : Type) := mkSystem {
  sys_server : rtsp_server Q;
  sys_stream : stream_point;
}.
Arguments mkSystem {Q} _ _.
Arguments sys_server {Q} _.
Arguments sys_stream {Q} _.

(** What a thread may do next.  [Deliver]: the event loop takes up one result of
    [epoll_wait]; [Broadcast]: the stream thread enters [BroadcastRtp];
    [StreamStep]: it goes on. *)
Inductive action :=
  | Deliver (result : EventResult)
  | Broadcast (packet : RtpPacket)
  | StreamStep
  | StartServer
  | StopServer
  | ChangeSdp (sdp : bytes)
  | AskInfo.

Module System.
Section System.
Context `{K : Kernel} {Q : Type} `{BQ : !ByteQueue Q}.
Implicit Types v : rtsp_server Q.
Implicit Types s : rtsp_session Q.
Implicit Types y : system Q.

Definition with_server y v : system Q := mkSystem v (sys_stream y).

(** The first part of [BroadcastRtp], up to the end of the snapshot. *)
Definition enter_broadcast v (packet : RtpPacket) : system Q :=
  if negb (RtspServer.IsRunning v) then mkSystem v Idle
  else
    let v := RtspServer.take_snapshot v in
    mkSystem v (Turns packet (snapshot_ v)).

(** [ForwardRtp] for a UDP session, up to the call of [ForwardUdp]. *)
Definition begin_udp v (packet : RtpPacket) (fd : Z) s (fds : list Z) : M (system Q) :=
  s ← RtspSession.UpdateActivity s;
  mret (mkSystem (put_object v fd s)
          (Sending packet fd (RtspSession.udp_endpoint s packet) fds)).

(** The rest of the turn. *)
Definition end_udp v (packet : RtpPacket) (fd : Z) (endpoint : UdpEndpoint) : M (rtsp_server Q) :=
  st ← RtpForwarder.ForwardUdp endpoint packet;
  match find_object v fd with
  | Some s => RtspServer.broadcast_account v fd st s
  | None => mret v
  end.

Definition stream_step y : M (system Q) :=
  let v := sys_server y in
  match sys_stream y with
  | Idle => mret y
  | Turns packet [] => v ← RtspServer.drop_snapshot v; mret (mkSystem v Idle)
  | Turns packet (fd :: fds) =>
    match find_object v fd with
    | Some s =>
      if is_udp_ s then begin_udp v packet fd s fds
      else v ← RtspServer.broadcast_one packet v fd; mret (mkSystem v (Turns packet fds))
    | None => mret (mkSystem v (Turns packet fds))
    end
  | Sending packet fd endpoint fds =>
    v ← end_udp v packet fd endpoint; mret (mkSystem v (Turns packet fds))
  end.

Definition step (a : action) y : M (system Q) :=
  let v := sys_server y in
  match a with
  | Deliver r =>
    v ← EpollLoop.dispatch event_loop_ RtspServer.invoke [r] v; mret (with_server y v)
  | Broadcast packet =>
    match sys_stream y with Idle => mret (enter_broadcast v packet) | _ => mret y end
  | StreamStep => stream_step y
  | StartServer =>
    if RtspServer.IsRunning v then mret y
    else '(_, v) ← RtspServer.Start v; mret (with_server y v)
  | StopServer => v ← RtspServer.Stop v; mret (with_server y v)
  | ChangeSdp sdp => mret (with_server y (RtspServer.SetSdp v sdp))
  | AskInfo => _ ← RtspServer.GetInfo v; mret y
  end.

(** The stream thread alone, until it is through. *)
Fixpoint finish (fuel : nat) y : M (system Q) :=
  match sys_stream y, fuel with
  | Idle, _ => mret y
  | _, O => RtspServer.out_of_fuel
  | _, S fuel => y ← stream_step y; finish fuel y
  end.

Fixpoint run (actions : list action) y : M (system Q) :=
  match actions with
  | [] => mret y
  | a :: actions => y ← step a y; run actions y
  end.
End System.
End System.

(** ** Reachable configurations *)
Section threads.
Context `{K : Kernel} `{KL : !KernelLaws} {Q : Type} `{BQ : !ByteQueue Q}
  `{BL : !ByteQueueLaws Q}.
Implicit Types v : rtsp_server Q.
Implicit Types s : rtsp_session Q.
Implicit Types y : system Q.

(** What the callers promise: packets as long as they say, a description of
    reasonable length. *)
Definition action_ok (a : action) : Prop :=
  match a with
  | Broadcast p => packet_ok p
  | ChangeSdp sdp => len sdp < 2 ^ 62
  | _ => True
  end.

Definition transition (c c' : system Q * world) : Prop :=
  exists a, action_ok a /\ System.step a (fst c) (snd c) = Done (fst c') (snd c').

(** The pointers the stream thread still uses are in its snapshot, which is empty
    when it is not forwarding. *)
Definition point_ok v (pt : stream_point) : Prop :=
  match pt with
  | Idle => snapshot_ v = []
  | Turns p fds => packet_ok p /\ forall fd, fd ∈ fds -> fd ∈ snapshot_ v
  | Sending p fd _ fds => packet_ok p /\ forall fd', fd' ∈ fd :: fds -> fd' ∈ snapshot_ v
  end.

Record system_ok y : Prop := {
  sy_server : server_ok (sys_server y);
  sy_point : point_ok (sys_server y) (sys_stream y);
}.

Definition system_steps y (Post : system Q -> ledger -> Prop) (L : ledger) : Prop :=
  forall y' L', system_ok y' ->
    (forall x, L' x - cnt x (held_server (sys_server y')) =
      L x - cnt x (held_server (sys_server y))) -> Post y' L'.

Lemma point_ok_fixed v v' pt : fixed v' = fixed v -> point_ok v pt -> point_ok v' pt.
Proof. intros [= _ Hn]. unfold point_ok. by rewrite Hn. Qed.

(** A step of another thread leaves the stream thread where it is. *)
Lemma owns_other y (m : M (rtsp_server Q)) Post L :
  system_ok y -> (forall P, steps (sys_server y) P L -> owns m P L) -> system_steps y Post L ->
  owns (v ← m; mret (System.with_server y v)) Post L.
Proof.
  intros [Hok Hp] Hm HP. own_step. apply Hm. intros v' L1 H1 H2 H3. own_step.
  apply HP; [split; [done|by apply (point_ok_fixed (sys_server y))]|]. cbn. settle.
Qed.

(** A step within a turn, for a session of the snapshot. *)
Lemma owns_turn v (m : M (rtsp_server Q)) p fds y Post L :
  (forall P, steps v P L -> owns m P L) -> sys_server y = v ->
  packet_ok p -> (forall fd, fd ∈ fds -> fd ∈ snapshot_ v) -> system_steps y Post L ->
  owns (v ← m; mret (mkSystem v (Turns p fds))) Post L.
Proof.
  intros Hm <- Hp Hfds HP. own_step. apply Hm. intros v' L1 H1 H2 H3. own_step.
  injection H2 as _ Hn. apply HP; [split; [done|]|cbn; settle].
  split; [done|]. cbn. by rewrite Hn.
Qed.

Lemma owns_stream_step y Post L :
  system_ok y -> system_steps y Post L -> owns (System.stream_step y) Post L.
Proof.
  intros Hy HP. pose proof Hy as [Hok Hpt]. unfold System.stream_step.
  set (v := sys_server y) in *. destruct (sys_stream y) as [|p [|fd fds]|p fd ep fds]; cbn in Hpt.
  - own_step. apply HP; [done|settle].
  - own_step. apply owns_drop_snapshot; [done|]. intros v' L1 H1 H2 H3 H4. own_step.
    apply HP; [by split|]. fold v. cbn. settle.
  - destruct Hpt as [Hp Hfds].
    assert (Htail : forall fd', fd' ∈ fds -> fd' ∈ snapshot_ v)
      by (intros; by apply Hfds, list_elem_of_further).
    destruct (find_object v fd) as [s|] eqn:Hf.
    + destruct (is_udp_ s).
      * unfold System.begin_udp, RtspSession.UpdateActivity.
        pose proof (find_object_stored _ _ _ Hok Hf) as [_ _ [Hwf Hid]]. cbn [snd] in *.
        do 4 own_step. own_step.
        set (s' := RtspSession.with_activity s _).
        destruct (put_object_ok v fd s' s Hok Hf) as (G1 & G2 & G3); [by split|done|].
        apply HP.
        -- split; [done|]. split; [done|]. cbn. injection G2 as _ ->. done.
        -- cbn [sys_server]. fold v. intros x. rewrite G3.
           change (held_session s') with (held_session s). revert x. settle.
      * apply (owns_turn v _ p fds y); try done. intros P HP0. by apply owns_broadcast_one.
    + own_step. apply HP; [by split|]. fold v. cbn. settle.
  - destruct Hpt as [Hp Hfds].
    apply (owns_turn v _ p fds y); [|done|done| |done].
    + intros P HP0. unfold System.end_udp. own_step. apply owns_ForwardUdp; [done|].
      intros st L1 H1. destruct (find_object v fd) as [s|] eqn:Hf.
      * pose proof (st_session _ (find_object_stored _ _ _ Hok Hf)) as Hs.
        apply (owns_broadcast_account v fd st s s); [done..|].
        intros v' L2 H2 H3 H4. apply HP0; [done|done|settle].
      * own_step. apply HP0; [done|done|settle].
    + intros fd' Hfd'. by apply Hfds, list_elem_of_further.
Qed.

Lemma owns_system_step a y Post L :
  system_ok y -> action_ok a -> system_steps y Post L -> owns (System.step a y) Post L.
Proof.
  intros Hy Ha HP. pose proof Hy as [Hok Hpt]. unfold System.step.
  assert (Hskip : owns (mret y) Post L) by (own_step; apply HP; [done|settle]).
  destruct a as [r|p| | | |sdp|]; cbn in Ha.
  - apply owns_other; [done| |done]. intros P HP0. by apply owns_dispatch.
  - destruct (sys_stream y) eqn:Hs; [|done..]. unfold System.enter_broadcast. cbn in Hpt.
    destruct (negb _).
    + own_step. apply HP; [by split|cbn; settle].
    + destruct (take_snapshot_ok _ Hok Hpt) as (H1 & H2 & H3). own_step. apply HP; [by split|].
      cbn [sys_server]. settle.
  - by apply owns_stream_step.
  - unfold RtspServer.IsRunning. destruct (server_running_ _) eqn:Hr; [done|].
    own_step. apply owns_Start; [done|done|]. intros st v' L1 H1 H2 H3. own_step.
    apply HP; [split; [done|by apply (point_ok_fixed (sys_server y))]|cbn; settle].
  - apply owns_other; [done| |done]. intros P HP0. apply owns_Stop; [done|].
    intros v' L1 H1 H2 _ H3. by apply HP0.
  - destruct (steps_same (sys_server y) (RtspServer.SetSdp (sys_server y) sdp)
      (fun _ _ => True) L Hok) as (H1 & H2 & _); try done.
    own_step. apply HP; [by split|]. cbn [sys_server System.with_server]. rewrite H2. settle.
  - unfold RtspServer.GetInfo. repeat own_step. apply HP; [done|settle].
Qed.

(** *** The stream thread does not fail *)

Lemma wp_ForwardUdp_ends ep p w :
  packet_ok p -> wp (RtpForwarder.ForwardUdp ep p) (fun _ _ => True) w.
Proof.
  intros Hp. unfold RtpForwarder.ForwardUdp. destruct (_ <? 0); [by wp_step|].
  destruct (data p) as [m|] eqn:Hm; [|by wp_step]. destruct (Hp m Hm).
  destruct (_ =? 0); [by wp_step|]. wp_step. eapply wp_ub; [apply mem_read_Some; lia|].
  wp_steps. destruct (_ <? 0); wp_steps; [|done]. by destruct (Connection.would_block _); wp_steps.
Qed.

Lemma wp_ForwardTcp_ends c p w :
  conn_wf c -> packet_ok p -> wp (RtpForwarder.ForwardTcp (Some c) p) (fun _ _ => True) w.
Proof.
  intros Hwf Hp. unfold RtpForwarder.ForwardTcp.
  destruct (data p) as [m|] eqn:Hm; [|by wp_step]. destruct (Hp m Hm).
  destruct (Z.eqb_spec (plen p) 0); [by wp_step|].
  destruct (Connection.IsClosed c) eqn:Hc; [by wp_step|].
  destruct (Z.ltb_spec kMaxRtpPacketSize (plen p)); [by wp_step|].
  unfold kMaxRtpPacketSize in *. wp_step.
  assert (Hl : u64 (4 + plen p) =
    len (mjoin [RtpForwarder.BuildInterleavedHeader (stream_index p) (plen p); ztake (plen p) m])).
  { cbn [mjoin list_join]. rewrite !len_app, len_nil, len_ztake, u64_small by lia.
    change (len (RtpForwarder.BuildInterleavedHeader _ _)) with 4. lia. }
  eapply wp_mono.
  { rewrite Hl. eapply wp_SendV; [done|done|reflexivity|apply frame_designates; lia|lia|].
    rewrite <-Hl, u64_small by lia. lia. }
  intros [r c'] w' _. by destruct (r <? 0); wp_step.
Qed.

Lemma wp_ForwardRtp_ends s p w :
  session_ok s -> packet_ok p -> wp (RtspSession.ForwardRtp s p) (fun _ _ => True) w.
Proof.
  intros [Hwf _] Hp. unfold RtspSession.ForwardRtp, RtspSession.UpdateActivity. wp_steps.
  destruct (is_udp_ _); wp_step.
  - eapply wp_mono; [by apply wp_ForwardUdp_ends|]. intros. by wp_step.
  - eapply wp_mono; [by apply wp_ForwardTcp_ends|]. intros [st c] w' _. by wp_step.
Qed.

Lemma wp_destroy_all_ends (ss : list (Z * rtsp_session Q)) w :
  wp (RtspServer.destroy_all ss) (fun _ _ => True) w.
Proof.
  revert w. induction ss as [|[k s] ss IH]; intros w; cbn [RtspServer.destroy_all]; [by wp_step|].
  wp_step. apply wp_destroy_session. intros w'. apply IH.
Qed.

Lemma objects_sorted_ok v : server_ok v -> objects_sorted v.
Proof. intros [_ _ _ _ []]. by split. Qed.

Lemma wp_stream_step_ends y w : system_ok y -> wp (System.stream_step y) (fun _ _ => True) w.
Proof.
  intros [Hok Hpt]. unfold System.stream_step. set (v := sys_server y) in *.
  destruct (sys_stream y) as [|p [|k fds]|p k ep fds]; cbn in Hpt.
  - by wp_step.
  - unfold RtspServer.drop_snapshot. do 2 wp_step.
    eapply wp_mono; [apply wp_destroy_all_ends|]. intros. by wp_steps.
  - destruct (find_object v k) as [s|] eqn:Hf; [|by wp_step]. destruct (is_udp_ s).
    + unfold System.begin_udp, RtspSession.UpdateActivity. by wp_steps.
    + wp_step. apply wp_broadcast_one; [by apply objects_sorted_ok|]. rewrite Hf.
      eapply wp_mono.
      * apply wp_ForwardRtp_ends; [|by destruct Hpt]. by destruct (find_object_stored _ _ _ Hok Hf).
      * intros [st s1] w1 _ v' w' s' _ _ _ _. by wp_step.
  - wp_step. unfold System.end_udp. wp_step.
    eapply wp_mono; [apply wp_ForwardUdp_ends; by destruct Hpt|]. intros st w1 _.
    destruct (find_object v k) as [s|]; [|by wp_steps].
    unfold RtspServer.broadcast_account. destruct (negb _).
    + destruct (_ <=? _); by wp_steps.
    + destruct (RtspSession.NeedFlush _); [|by wp_steps].
      wp_step. apply wp_ModifyFd. intros. by wp_steps.
Qed.

(** What a configuration reached from a quiet server has. *)
Record sound v (w : world) (c : system Q * world) : Prop := {
  sd_ok : system_ok (fst c);
  sd_grows : grows (w_trace w) (w_trace (snd c));
  sd_ledger x : cnt x (held_server (sys_server (fst c))) =
    cnt x (held_server v) + (net x (w_trace (snd c)) - net x (w_trace w));
}.

Lemma sound_step v w c c' : sound v w c -> transition c c' -> sound v w c'.
Proof.
  destruct c as [y w1], c' as [y' w2]. intros [Hok Hg Hl] (a & Ha & Hstep). cbn [fst snd] in *.
  assert (Hown : owns (System.step a y) (fun y' L' => system_ok y' /\
    forall x, L' x = cnt x (held_server (sys_server y')))
    (fun x => cnt x (held_server (sys_server y)))).
  { apply owns_system_step; [done|done|]. intros y1 L1 H1 H2. split; [done|].
    intros x. specialize (H2 x). lia. }
  destruct (owns_elim _ _ _ _ _ _ Hown Hstep) as [H1 H2]. split; [done| |].
  - eapply grows_trans; [done|]. by eapply owns_grows.
  - intros x. specialize (H2 x). specialize (Hl x). cbv beta in H2. cbn [fst snd] in *. lia.
Qed.

Lemma reachable_sound v w c :
  server_ok v -> snapshot_ v = [] -> rtc transition (mkSystem v Idle, w) c -> sound v w c.
Proof.
  intros Hok Hn Hr. remember (mkSystem v Idle, w) as c0 eqn:Hc0.
  assert (H0 : sound v w c0) by (subst; split; [by split|constructor|cbn; lia]).
  clear Hc0. induction Hr as [|c1 c2 c3 H12 _ IH]; [done|]. apply IH. by eapply sound_step.
Qed.

(** ** Properties *)

(** C6: Any interleaving of the threads is safe up to the parser.  Whatever the event
    loop is given, and wherever the other threads' calls fall between the steps of
    the stream thread: the server stays well formed; every descriptor the program
    opened and has not closed is held by the server, a session of its map, or a
    session the stream thread still points to, and by nothing else; when the stream
    thread is outside [rtsp_forward_send_rtp] it keeps no session alive; the stream
    thread can always go on, without a fault; and the next step, whichever it is,
    can only fail for want of memory or inside the parser. *)
Theorem interleaving_safe v w y w' :
  server_ok v -> snapshot_ v = [] -> rtc transition (mkSystem v Idle, w) (y, w') ->
  server_ok (sys_server y) /\
  (forall x, cnt x (held_server (sys_server y)) =
    cnt x (held_server v) + (net x (w_trace w') - net x (w_trace w))) /\
  (sys_stream y = Idle -> detached_ (sys_server y) = []) /\
  (exists y1 w1, System.step StreamStep y w' = Done y1 w1) /\
  forall a f, action_ok a -> System.step a y w' = Fault f ->
    f = ProcessAborted \/ f = UndefinedBehaviour InParser.
Proof.
  intros Hok Hn Hr. destruct (reachable_sound _ _ _ Hok Hn Hr) as [[Hy Hpt] _ Hl].
  cbn [fst snd] in *. split; [done|]. split; [done|]. split; [|split].
  - intros Hi. rewrite Hi in Hpt. cbn in Hpt. pose proof (ok_registry _ Hy) as Hreg.
    rewrite Hpt in Hreg. by eapply registry_unpinned.
  - pose proof (wp_stream_step_ends y w' ltac:(by split)) as Hwp. unfold wp in Hwp.
    cbn [System.step]. destruct (System.stream_step y w') as [y1 w1|]; [by eauto|done].
  - intros a f Ha Hf. apply tolerated_faults.
    apply (owns_fault (System.step a y) (fun _ _ => True) (fun _ => 0) w'); [|done].
    by apply owns_system_step.
Qed.

Lemma cnt_held_sessions_find fd s ss :
  om_find fd ss = Some s -> fd_guard_ (conn_ s) = fd -> 0 <= fd ->
  1 <= cnt fd (held_sessions ss).
Proof.
  intros Hf Hg Hfd. induction ss as [|[k s'] ss IH]; [done|].
  pose proof (cnt_nonneg fd) as Hpos.
  rewrite held_sessions_cons. cbn in Hf. pose proof (Hpos (held_session s')).
  pose proof (Hpos (held_sessions ss)).
  destruct (key_ltb fd k); [done|]. destruct (key_ltb k fd); [specialize (IH Hf); lia|].
  injection Hf as ->. unfold held_session. rewrite Hg, !cnt_app, (held_nonnegative fd Hfd).
  cbn [cnt]. rewrite Z.eqb_refl. pose proof (Hpos (held (udp_rtp_fd_ s))).
  pose proof (Hpos (held (udp_rtcp_fd_ s))). lia.
Qed.

(** C9: Forwarding over TCP never uses a stale descriptor.  If the kernel gives only
    descriptors that are not open, then in every reachable configuration in which
    the stream thread is about to serve a session, that session is still there,
    although it may have left the map meanwhile; its connection is open; and its
    descriptor is open in the kernel and held by that session alone. *)
Theorem tcp_turn_is_current `{FD : !FreshDescriptors} v w y w' p fd fds :
  server_ok v -> snapshot_ v = [] ->
  (forall x, cnt x (held_server v) = net x (w_trace w) /\ net x (w_trace w) <= 1) ->
  rtc transition (mkSystem v Idle, w) (y, w') -> sys_stream y = Turns p (fd :: fds) ->
  exists s, find_object (sys_server y) fd = Some s /\
    Connection.fd (conn_ s) = fd /\ Connection.IsClosed (conn_ s) = false /\
    net fd (w_trace w') = 1 /\ cnt fd (held_server (sys_server y)) = 1.
Proof.
  intros Hok Hn Hb Hr Hpt. destruct (reachable_sound _ _ _ Hok Hn Hr) as [[Hy Hp] Hg Hl].
  cbn [fst snd] in *. rewrite Hpt in Hp. destruct Hp as [_ Hin].
  specialize (Hin fd (list_elem_of_here _ _)).
  pose proof (rg_alive _ _ _ (ok_registry _ Hy) fd Hin) as Halive.
  change (find_in (sessions_ (sys_server y)) (detached_ (sys_server y)) fd) with
    (find_object (sys_server y) fd) in Halive.
  destruct (find_object (sys_server y) fd) as [s|] eqn:Hf; [|done]. exists s.
  destruct (find_object_stored _ _ _ Hy Hf) as [Hfd Hpos _]. cbn [fst snd] in *.
  split; [done|]. split; [done|]. split.
  { unfold Connection.IsClosed, FdGuard.IsValid. rewrite Hfd. by rewrite (proj2 (Z.leb_le 0 fd)). }
  assert (Hle : net fd (w_trace w') <= 1) by (eapply grows_unique; [done|apply Hb]).
  assert (Hge : 1 <= cnt fd (held_server (sys_server y))).
  { unfold held_server. rewrite !cnt_app.
    pose proof (cnt_nonneg fd) as Hnn.
    pose proof (Hnn (held (listener_ (sys_server y)))).
    pose proof (Hnn (held (epoll_fd_ (event_loop_ (sys_server y))))).
    pose proof (Hnn (held (timer_fd_ (sys_server y)))).
    pose proof (Hnn (held_sessions (sessions_ (sys_server y)))).
    pose proof (Hnn (held_sessions (detached_ (sys_server y)))).
    unfold find_object in Hf. destruct (om_find fd (detached_ (sys_server y))) as [d|] eqn:Hd.
    - injection Hf as ->. pose proof (cnt_held_sessions_find fd s _ Hd Hfd Hpos). lia.
    - pose proof (cnt_held_sessions_find fd s _ Hf Hfd Hpos). lia. }
  specialize (Hl fd). destruct (Hb fd). lia.
Qed.
End threads.

(** ** The broadcast in one piece *)
Section uninterrupted.
Context `{K : Kernel} {Q : Type} `{BQ : !ByteQueue Q}.
Implicit Types v : rtsp_server Q.
Implicit Types s : rtsp_session Q.

Lemma account_after_put v fd s1 st s2 w :
  RtspServer.broadcast_account (put_object v fd s1) fd st s2 w =
  RtspServer.broadcast_account v fd st s2 w.
Proof.
  assert (Hc : count_dropped (put_object v fd s1) = put_object (count_dropped v) fd s1)
    by (unfold put_object; by destruct (om_find fd (detached_ v)) eqn:Hd; cbn; rewrite Hd).
  unfold RtspServer.broadcast_account. by rewrite Hc, !put_put_object.
Qed.

Lemma finish_step fuel (y : system Q) w :
  sys_stream y <> Idle ->
  System.finish (S fuel) y w =
  match System.stream_step y w with
  | Done y' w' => System.finish fuel y' w'
  | Fault f => Fault f
  end.
Proof. intros H. cbn [System.finish]. by destruct (sys_stream y). Qed.

(** A turn of the stream thread, in its one or two steps. *)
Lemma finish_turn fuel v p fd fds w :
  System.finish (S (S fuel)) (mkSystem v (Turns p (fd :: fds))) w =
  match RtspServer.broadcast_one p v fd w with
  | Done v' w' =>
    System.finish (if from_option is_udp_ false (find_object v fd) then fuel else S fuel)
      (mkSystem v' (Turns p fds)) w'
  | Fault f => Fault f
  end.
Proof.
  rewrite finish_step by done. unfold RtspServer.broadcast_one, System.stream_step.
  cbn [sys_stream sys_server]. destruct (find_object v fd) as [s|] eqn:Hf; [|done].
  cbn [from_option]. destruct (is_udp_ s) eqn:Hu.
  - unfold System.begin_udp, RtspSession.ForwardRtp. unfold mbind, M_bind.
    destruct (RtspSession.UpdateActivity s w) as [s1 w1|] eqn:Hup; [|done].
    assert (Hu1 : is_udp_ s1 = true).
    { unfold RtspSession.UpdateActivity, mbind, M_bind in Hup.
      destruct (sys SysSteadyClock w) as [a w2|]; [|done]. cbn in Hup. by injection Hup as <- <-. }
    rewrite Hu1. cbv beta iota delta [mret M_ret]. rewrite finish_step by done.
    unfold System.stream_step, System.end_udp, mbind, M_bind. cbn [sys_stream sys_server].
    destruct (RtpForwarder.ForwardUdp (RtspSession.udp_endpoint s1 p) p w1) as [st w2|]; [|done].
    cbv beta iota delta [mret M_ret]. rewrite find_put_object, account_after_put.
    by destruct (RtspServer.broadcast_account v fd st s1 w2).
  - unfold RtspServer.broadcast_one, mbind, M_bind. rewrite Hf.
    destruct (RtspSession.ForwardRtp s p w) as [[st s1] w1|]; [|done].
    by destruct (RtspServer.broadcast_account v fd st s1 w1).
Qed.

(** The loop and the end of the snapshot, with enough fuel. *)
Lemma finish_loop fds fuel v p w :
  (2 * length fds < fuel)%nat ->
  System.finish fuel (mkSystem v (Turns p fds)) w =
  (v' ← RtspServer.broadcast_loop p v fds; v'' ← RtspServer.drop_snapshot v';
   mret (mkSystem v'' Idle)) w.
Proof.
  revert fuel v w. induction fds as [|fd fds IH]; intros fuel v w Hfuel;
    cbn [RtspServer.broadcast_loop].
  - destruct fuel as [|fuel]; [simpl in Hfuel; lia|]. rewrite finish_step by done.
    unfold System.stream_step, mbind, M_bind, mret, M_ret. cbn [sys_stream sys_server].
    destruct (RtspServer.drop_snapshot v w); [|done]. by destruct fuel.
  - destruct fuel as [|[|fuel]]; [simpl in Hfuel; lia..|]. rewrite finish_turn.
    destruct (RtspServer.broadcast_one p v fd w) as [v' w'|] eqn:Hone.
    + rewrite IH by (simpl in Hfuel; destruct (from_option _ _ _); lia).
      unfold mbind, M_bind. by rewrite Hone.
    + unfold mbind, M_bind. by rewrite Hone.
Qed.

(** The steps of this file are the program's: without interference they are
    [BroadcastRtp].
    Entering the broadcast and running the stream thread alone until it is through
    -- at most two steps for each session of the snapshot and one more -- has the
    effects and the outcome, faults included, of the sequential [BroadcastRtp]. *)
Lemma broadcast_uninterrupted v p w :
  System.finish (2 * length (RtspServer.playing_fds v) + 1) (System.enter_broadcast v p) w =
  ('(_, v') ← RtspServer.BroadcastRtp v p; mret (mkSystem v' Idle)) w.
Proof.
  unfold System.enter_broadcast, RtspServer.BroadcastRtp.
  destruct (negb _); [by destruct (2 * _ + 1)%nat|].
  rewrite finish_loop by (cbn; lia). unfold mbind, M_bind, mret, M_ret.
  destruct (RtspServer.broadcast_loop _ _ _ w) as [v1 w1|]; [|done].
  by destruct (RtspServer.drop_snapshot v1 w1).
Qed.
End uninterrupted.

(** ** Stopping before running *)
Section stopping.
Context `{K : Kernel} {Q : Type} `{BQ : !ByteQueue Q}.
Implicit Types v : rtsp_server Q.

(** The waits for events in a trace. *)
Definition waits (tr : list event) : Z :=
  len (List.filter (fun ev => match fst ev with SysEpollWait _ _ _ => true | _ => false end) tr).

Lemma waits_after w c :
  waits (w_trace (after w c)) =
  waits (w_trace w) + (match c with SysEpollWait _ _ _ => 1 | _ => 0 end).
Proof. unfold waits. rewrite trace_after, List.filter_app, len_app. by destruct c. Qed.

(** A server without sessions and listener. *)
Definition deserted v : Prop := sessions_ v = [] /\ FdGuard.IsValid (listener_ v) = false.

(** Whatever is delivered to it, nothing happens. *)
Lemma wp_dispatch_deserted rs v w (Post : rtsp_server Q -> world -> Prop) :
  deserted v -> (forall w', waits (w_trace w') = waits (w_trace w) -> Post v w') ->
  wp (EpollLoop.dispatch event_loop_ RtspServer.invoke rs v) Post w.
Proof.
  intros [Hs Hl]. revert w. induction rs as [|r rs IH]; intros w HP; cbn [EpollLoop.dispatch];
    [by wp_step; apply HP|].
  assert (Hnext : forall w1, waits (w_trace w1) = waits (w_trace w) ->
    wp (EpollLoop.dispatch event_loop_ RtspServer.invoke rs v) Post w1)
    by (intros w1 H1; apply IH; intros; apply HP; congruence).
  wp_step. destruct (callbacks_ (event_loop_ v) !! er_fd r) as [[]|]; cbn [RtspServer.invoke];
    [..|by wp_step; apply Hnext].
  - unfold RtspServer.OnNewConnection, Listener.Accept, Socket.Accept. rewrite Hl. cbn [negb].
    wp_steps. by apply Hnext.
  - unfold RtspServer.timer_ready. wp_steps. destruct (0 <? _).
    + unfold RtspServer.CheckTimeouts. rewrite Hs. cbn [RtspServer.collect_timed_out].
      destruct (_ && _); [wp_step|wp_steps; cbn [RtspServer.close_timed_out]; wp_step];
        apply Hnext; by rewrite waits_after, Z.add_0_r.
    + wp_step. apply Hnext. by rewrite waits_after, Z.add_0_r.
  - unfold RtspServer.client_ready, RtspServer.OnRead, RtspServer.ProcessConnectionData,
      RtspServer.OnWrite, RtspServer.OnError, RtspServer.CloseConnection. rewrite Hs.
    cbn [om_find]. destruct (0 <? _); [|wp_step; by apply Hnext].
    repeat (destruct (negb _); wp_steps; rewrite ?Hs; cbn [om_find]; wp_steps); by apply Hnext.
Qed.

Lemma wp_run_loop_deserted n v w :
  deserted v -> running_ (event_loop_ v) = true ->
  FdGuard.IsValid (epoll_fd_ (event_loop_ v)) = true ->
  wp (EpollLoop.run_loop event_loop_ RtspServer.invoke n v) (fun v' w' =>
    v' = v /\ waits (w_trace w') = waits (w_trace w) + Z.of_nat n) w.
Proof.
  intros Hd Hr He. revert w. induction n as [|n IH]; intros w; cbn [EpollLoop.run_loop].
  { wp_step. split; [done|lia]. }
  rewrite Hr. wp_step. unfold EpollLoop.run_once, EpollLoop.Wait. rewrite He. cbn [negb].
  assert (Hnext : forall w1, waits (w_trace w1) = waits (w_trace w) + 1 ->
    wp (EpollLoop.run_loop event_loop_ RtspServer.invoke n v) (fun v' w' =>
      v' = v /\ waits (w_trace w') = waits (w_trace w) + Z.of_nat (S n)) w1).
  { intros w1 H1. eapply wp_mono; [apply IH|]. intros v' w' [-> Hw]. split; [done|lia]. }
  do 3 wp_step. destruct (_ <? 0).
  - wp_steps. destruct (_ =? EINTR); wp_steps.
    + cbn. apply Hnext. by rewrite waits_after.
    + apply Hnext. by rewrite waits_after.
  - wp_steps. destruct (_ <? 0); [wp_step; apply Hnext; by rewrite waits_after|].
    apply wp_dispatch_deserted; [done|]. intros w1 H1. apply Hnext. by rewrite H1, waits_after.
Qed.

(** C29: A stop that comes between the check of [Run] and its loop is lost.  Once
    [RtspServer::Run] has seen the server running, another thread may stop it before
    [EpollLoop::Run] sets [running_]; the event loop then runs on: for any number of
    turns it waits for events again, with [running_] set, although the server is
    stopped and has no session and no listener. *)
Theorem stop_before_run_is_lost n v w v1 w1 :
  server_running_ v = true -> FdGuard.IsValid (epoll_fd_ (event_loop_ v)) = true ->
  RtspServer.Stop v w = Done v1 w1 ->
  wp (EpollLoop.Run event_loop_ (fun l v => with_loop v l) RtspServer.invoke n v1)
    (fun v2 w2 => server_running_ v2 = false /\ sessions_ v2 = [] /\
      running_ (event_loop_ v2) = true /\
      waits (w_trace w2) = waits (w_trace w1) + Z.of_nat n) w1.
Proof.
  intros Hr He Hstop. pose proof (wlp_Stop v w Hr) as Hs. unfold wlp in Hs. rewrite Hstop in Hs.
  destruct Hs as [H1 H2 H3 H4 _]. unfold EpollLoop.Run. rewrite H4, He. cbn [negb].
  eapply wp_mono; [apply wp_run_loop_deserted; [by split|done|by cbn; rewrite H4]|].
  by intros v2 w2 [-> ->].
Qed.
End stopping.

(** *** A client that plays over UDP and leaves *)

Definition udp_script : list bytes :=
  [request "SETUP rtsp://h/s RTSP/1.0"
     ["CSeq: 1"; "Transport: RTP/AVP;unicast;client_port=5000-5001"];
   request "PLAY rtsp://h/s RTSP/1.0" ["CSeq: 2"];
   request "TEARDOWN rtsp://h/s RTSP/1.0" ["CSeq: 3"]].

Definition rtp : RtpPacket := mkRtpPacket (Some (lit "rtp")) 3 0.

Definition readable (fd : Z) : action := Deliver (mkEventResult fd kRead).

(** The listener has descriptor 3, the first client 6, its UDP sockets 7 and 8. *)
Definition play_udp : list action :=
  [StartServer; readable 3; readable 6; readable 6; Broadcast rtp; StreamStep].

(** While the stream thread is between reading the socket and sending on it, the
    client leaves and another one is accepted. *)
Definition leave_and_join : list action := [readable 6; readable 3; StreamStep].

Section runs.
Context `{K : Kernel} {Q : Type} `{BQ : !ByteQueue Q}.

(** A run of actions is a path of transitions. *)
Lemma run_reaches actions (y : system Q) w y' w' :
  Forall action_ok actions -> System.run actions y w = Done y' w' ->
  rtc transition (y, w) (y', w').
Proof.
  intros Ha. revert y w. induction Ha as [|a actions Ha _ IH]; intros y w; cbn [System.run].
  - intros [= <- <-]. constructor.
  - unfold mbind, M_bind. destruct (System.step a y w) as [y1 w1|] eqn:Hs; [|done].
    intros Hr. eapply rtc_l; [|by apply IH]. by exists a.
Qed.
End runs.

(** ** Reading a socket apart from sending on it *)

(** The last system call, where the stream thread is, and the sessions of the map
    with the descriptor, state and transport of each. *)
Definition summary (r : outcome (system ring_buffer)) :=
  match r with
  | Done y w =>
    Some (option_map fst (last (w_trace w)), sys_stream y,
      (fun p => (fst p, Connection.fd (conn_ (snd p)), state_ (snd p), is_udp_ (snd p)))
        <$> sessions_ (sys_server y))
  | Fault _ => None
  end.

Lemma rtp_ok : packet_ok rtp.
Proof. intros m Hm. injection Hm as <-. vm_compute. by split. Defined.

Lemma client_leaves_ok : Forall action_ok (play_udp ++ leave_and_join).
Proof. do 4 (constructor; [exact I|]). constructor; [exact rtp_ok|]. by repeat constructor. Defined.

(** C28: A packet for a client that left can go to another client.  A client plays over
    UDP; the stream thread reads its socket, descriptor 7, and is about to send; the
    client tears down, which closes the socket; a new client is accepted and gets
    the same descriptor for its connection.  The stream thread then sends the packet
    on the connection of the new client, which has asked for nothing: the bytes are
    not even framed.  Every step is one the program can take, and the kernel gives
    only descriptors that are not open. *)
Theorem udp_packet_reaches_other_client :
  let K := sample_kernel (scripted udp_script) in
  @FreshDescriptors K /\
  exists (y : system ring_buffer) w addr s,
    rtc (transition (K := K)) (mkSystem fresh_server Idle, world0) (y, w) /\
    option_map fst (last (w_trace w)) = Some (SysSendto 7 (lit "rtp") addr) /\
    om_find 7 (sessions_ (sys_server y)) = Some s /\
    Connection.fd (conn_ s) = 7 /\ state_ s = SessionState.kInit /\ is_udp_ s = false.
Proof.
  cbv zeta. split; [apply _|].
  destruct (System.run (K := sample_kernel (scripted udp_script)) (play_udp ++ leave_and_join)
    (mkSystem fresh_server Idle) world0) as [y w|f] eqn:Hrun.
  2: { apply (f_equal summary) in Hrun. vm_compute in Hrun. discriminate. }
  pose proof (f_equal summary Hrun) as Hsum. cbn [summary] in Hsum.
  pose proof (run_reaches _ _ _ _ _ client_leaves_ok Hrun) as Hr. clear Hrun.
  vm_compute (summary _) in Hsum. injection Hsum as Hlast _ Hs. symmetry in Hlast, Hs.
  destruct (sessions_ (sys_server y)) as [|[k0 s0] [|[k s] [|]]] eqn:Hm; try discriminate.
  injection Hs as -> _ _ _ -> Hfd Hst Hu. eexists y, w, _, s. by rewrite Hlast, Hm.
Qed.

(** *** Witnesses *)

(** A client plays over TCP; a broadcast starts; the client tears down and closes. *)
Definition tcp_script : list bytes :=
  [request "SETUP rtsp://h/s RTSP/1.0" ["CSeq: 1"; "Transport: RTP/AVP/TCP;interleaved=0-1"];
   request "PLAY rtsp://h/s RTSP/1.0" ["CSeq: 2"];
   request "TEARDOWN rtsp://h/s RTSP/1.0" ["CSeq: 3"]].

Definition play_and_leave : list action :=
  [StartServer; readable 3; readable 6; readable 6; Broadcast rtp; readable 6; readable 6].

Definition left_behind (Post : system ring_buffer -> world -> Prop) : Prop :=
  match System.run (K := sample_kernel (scripted tcp_script)) play_and_leave
    (mkSystem fresh_server Idle) world0 with
  | Done y w => Post y w
  | Fault _ => False
  end.

Lemma play_and_leave_ok : Forall action_ok play_and_leave.
Proof. do 4 (constructor; [exact I|]). constructor; [exact rtp_ok|]. by repeat constructor. Defined.

Lemma interleaving_safe_witness : left_behind (fun y w =>
  sessions_ (sys_server y) = [] /\ server_ok (sys_server y) /\
  forall x, cnt x (held_server (sys_server y)) = net x (w_trace w)).
Proof.
  assert (Hrun : left_behind (fun y _ => sessions_ (sys_server y) = [])) by (by vm_compute).
  unfold left_behind in *. destruct (System.run _ _ _) as [y w|f] eqn:Hr; [|done].
  apply run_reaches in Hr; [|apply play_and_leave_ok].
  pose proof (interleaving_safe (K := sample_kernel (scripted tcp_script))
    fresh_server world0 y w fresh_server_ok eq_refl Hr) as (H1 & H2 & _).
  split; [done|]. split; [done|]. intros x. rewrite H2.
  change (cnt x (held_server fresh_server)) with 0. change (net x (w_trace world0)) with 0. lia.
Defined.

Lemma tcp_turn_is_current_witness : left_behind (fun y w =>
  sessions_ (sys_server y) = [] /\
  exists s, find_object (sys_server y) 6 = Some s /\ Connection.IsClosed (conn_ s) = false /\
    net 6 (w_trace w) = 1).
Proof.
  assert (Hrun : left_behind (fun y _ =>
    sessions_ (sys_server y) = [] /\ sys_stream y = Turns rtp [6])) by (by vm_compute).
  unfold left_behind in *. destruct (System.run _ _ _) as [y w|f] eqn:Hr; [|done].
  destruct Hrun as [H1 H2]. apply run_reaches in Hr; [|apply play_and_leave_ok].
  destruct (tcp_turn_is_current (K := sample_kernel (scripted tcp_script))
    fresh_server world0 y w rtp 6 [] fresh_server_ok eq_refl) as (s & Hf & _ & Hc & Hn & _);
    [intros x; by split|done|done|].
  split; [done|]. by exists s.
Defined.

Lemma stop_before_run_is_lost_witness :
  match RtspServer.Stop (K := sample_kernel accepting) idle_server world0 with
  | Done v1 w1 =>
    wp (EpollLoop.Run (K := sample_kernel accepting) event_loop_ (fun l v => with_loop v l)
      (RtspServer.invoke (K := sample_kernel accepting)) 5 v1)
      (fun v2 w2 => server_running_ v2 = false /\ sessions_ v2 = [] /\
        running_ (event_loop_ v2) = true /\ waits (w_trace w2) = waits (w_trace w1) + 5) w1
  | Fault _ => False
  end.
Proof.
  destruct (RtspServer.Stop (K := sample_kernel accepting) idle_server world0)
    as [v1 w1|f] eqn:Hs; [|by vm_compute in Hs].
  apply (stop_before_run_is_lost (K := sample_kernel accepting) 5 idle_server world0 v1 w1
    eq_refl eq_refl Hs).
Defined.
