(* ===== verification/Delivery.v ===== *)
(** * What a client gets

    A client sends its requests, in pieces; the stream thread broadcasts packets, a
    turn at a time, among the events of this client and the others.  The client's
    side of it is a small machine ([client], [happen]): its state, the packet it is
    due, what it was sent.  Whatever the interleaving, the session and its output
    stream are those of such a machine that was asked exactly the requests that have
    arrived, in order, and was announced exactly the packets that were broadcast. *)
From stdpp Require Import gmap.
From S2P Require Import Prelude Status OrderedMap Text Kernel SampleKernel ByteQueue RingBuf.
From S2P Require Import FdGuard Owner Sock Epoll Conn Parser Builder Forwarder Session Stream.
From S2P Require Import Server ServerInv Footprint Framing Exchange Serving Arrival Threads.

(** ** What a step of the stream thread touches *)
Section turns.
Context `{K : Kernel} {Q : Type} `{BQ : !ByteQueue Q}.
Implicit Types v : rtsp_server Q.
Implicit Types s : rtsp_session Q.

Lemma does_ForwardUdp R W ep p (Post : status -> Prop) :
  (forall st, Post st) -> does (io_within R W) (RtpForwarder.ForwardUdp ep p) Post.
Proof. intros HP. unfold RtpForwarder.ForwardUdp. by does_steps. Qed.

Lemma does_ForwardRtp k s p :
  on k s -> does (io_within nowhere (eq k)) (RtspSession.ForwardRtp s p) (fun '(_, s') => on k s').
Proof.
  intros <-. unfold RtspSession.ForwardRtp, RtspSession.UpdateActivity. do 4 does_step.
  destruct (is_udp_ _); does_step; [apply does_ForwardUdp; intros st; by does_step|].
  unfold RtpForwarder.ForwardTcp.
  assert (Hskip : forall st, does (io_within nowhere (eq (RtspSession.fd s)))
    (mret (st, Some (conn_ s)) : M (status * option (connection Q)))
    (fun '(st, c) => does (io_within nowhere (eq (RtspSession.fd s)))
      (mret (st, RtspSession.with_conn s (default (conn_ s) c)))
      (fun '(_, s') => on (RtspSession.fd s) s'))) by (intros; by do 2 does_step).
  destruct (data p) as [m|]; [|by does_steps]. destruct (_ =? _); [by does_steps|].
  destruct (Connection.IsClosed _); [by does_steps|]. destruct (_ <? _); [by does_steps|].
  does_step. eapply does_weaken; [apply does_SendV|]. intros [r c] Hc.
  destruct (_ <? _); do 2 does_step; exact Hc.
Qed.

(** Only the session found at [k] has changed, in the map or in the snapshot. *)
Record touched (k : Z) v v' : Prop := {
  tc_sdp : sdp_ v' = sdp_ v;
  tc_callbacks : callbacks_ (event_loop_ v') = callbacks_ (event_loop_ v);
  tc_snapshot : snapshot_ v' = snapshot_ v;
  tc_sessions j : j <> k -> om_find j (sessions_ v') = om_find j (sessions_ v);
  tc_detached j : j <> k -> om_find j (detached_ v') = om_find j (detached_ v);
  tc_gone : om_find k (sessions_ v) = None -> om_find k (sessions_ v') = None;
}.

Lemma touched_refl k v : touched k v v.
Proof. by split. Qed.

Lemma touched_put k v v1 s s0 :
  objects_sorted v -> find_object v k = Some s0 -> sessions_ v1 = sessions_ v ->
  detached_ v1 = detached_ v -> sdp_ v1 = sdp_ v -> event_loop_ v1 = event_loop_ v ->
  snapshot_ v1 = snapshot_ v -> touched k v (put_object v1 k s).
Proof.
  intros [Hs Hd] Hf E1 E2 E3 E4 E5. unfold find_object in Hf. unfold put_object. rewrite E2.
  destruct (om_find k (detached_ v)) as [d|]; split; cbn; rewrite ?E1, ?E2, ?E3, ?E4, ?E5; try done;
    try (intros j Hj; apply om_find_set_ne; congruence).
  by rewrite Hf.
Qed.

Lemma does_broadcast_account k v st s s0 :
  objects_sorted v -> find_object v k = Some s0 ->
  does (io_within nowhere nowhere) (RtspServer.broadcast_account v k st s) (touched k v).
Proof.
  intros Hs Hf. unfold RtspServer.broadcast_account.
  destruct (negb _); [destruct (_ <=? _); does_step; by eapply touched_put|].
  destruct (RtspSession.NeedFlush _); [|does_step; by eapply touched_put].
  does_step. apply does_ModifyFd. intros _. does_step. by eapply touched_put.
Qed.

(** Where a turn for [k] leads. *)
Definition turned v (p : RtpPacket) (k : Z) (fds : list Z) (y' : system Q) : Prop :=
  touched k v (sys_server y') /\
  (sys_stream y' = Turns p fds \/
   exists s ep, find_object v k = Some s /\ is_udp_ s = true /\ sys_stream y' = Sending p k ep fds).

Lemma does_turn v p k fds :
  objects_sorted v -> (forall s, find_object v k = Some s -> on k s) ->
  does (io_within nowhere (eq k)) (System.stream_step (mkSystem v (Turns p (k :: fds))))
    (turned v p k fds).
Proof.
  intros Hs Hon. unfold System.stream_step. cbn [sys_stream sys_server].
  destruct (find_object v k) as [s|] eqn:Hf; [|does_step; split; [apply touched_refl|by left]].
  destruct (is_udp_ s) eqn:Hu.
  - unfold System.begin_udp, RtspSession.UpdateActivity. does_steps.
    split; [by eapply touched_put|]. right. by eexists s, _.
  - does_step. unfold RtspServer.broadcast_one. rewrite Hf. does_step.
    eapply does_weaken; [by apply does_ForwardRtp, Hon|]. intros [st s1] _.
    eapply does_mono; [by eapply does_broadcast_account|intros c; by apply io_within_mono|].
    intros v' Hv'. does_step. split; [done|by left].
Qed.

Lemma does_end_udp v p k ep fds :
  objects_sorted v ->
  does (io_within nowhere nowhere) (System.stream_step (mkSystem v (Sending p k ep fds)))
    (fun y' => touched k v (sys_server y') /\ sys_stream y' = Turns p fds).
Proof.
  intros Hs. unfold System.stream_step, System.end_udp. cbn [sys_stream sys_server]. do 2 does_step.
  apply does_ForwardUdp. intros st. destruct (find_object v k) as [s|] eqn:Hf.
  - eapply does_weaken; [by eapply does_broadcast_account|]. intros v' Hv'. by does_step.
  - do 2 does_step. split; [apply touched_refl|done].
Qed.

Lemma does_drop v p :
  does (io_within nowhere nowhere) (System.stream_step (mkSystem v (Turns p [])))
    (fun y' => y' = mkSystem (with_snapshot v [] []) Idle).
Proof.
  unfold System.stream_step, RtspServer.drop_snapshot. cbn [sys_stream sys_server]. do 2 does_step.
  eapply (does_weaken _ _ (fun _ => True)); [|intros _ _; by do 2 does_step].
  generalize (detached_ v). intros ss. induction ss as [|[k s] ss IH]; cbn; [by does_step|].
  does_step. by apply does_destroy.
Qed.
End turns.

(** ** The client's side *)

(** What a client knows and gets: the state of its session, the packet that the
    stream thread has taken it in for, all that it was sent. *)
Record client := mkClient {
  cl_state : SessionState.RtspSessionState;
  cl_due : option RtpPacket;
  cl_out : bytes;
}.

(** A request is answered, with the output [o]; a packet is announced, and due if the
    client plays; the packet due is forwarded, with the output [o]; the client is
    given up for its drops. *)
Inductive happening :=
  | Answered (q : client_request) (o : bytes)
  | Announced (p : RtpPacket)
  | Forwarded (o : bytes)
  | GivenUp.

Definition happen (sdp : bytes) (c : client) (h : happening) : client :=
  match h with
  | Answered q o =>
    mkClient (next_state sdp (cl_state c) (cr_method q)) (cl_due c) (cl_out c ++ o)
  | Announced p =>
    mkClient (cl_state c)
      (if decide (cl_state c = SessionState.kPlaying) then Some p else None) (cl_out c)
  | Forwarded o => mkClient (cl_state c) None (cl_out c ++ o)
  | GivenUp => mkClient SessionState.kTeardown (cl_due c) (cl_out c)
  end.

(** The frame a client gets of a packet. *)
Definition packet_frame (p : RtpPacket) : bytes :=
  frame_of (default [] (data p)) (plen p) (stream_index p).

Definition frames (ps : list RtpPacket) : bytes := mjoin (packet_frame <$> ps).

Definition questions (hs : list happening) : list client_request :=
  hs ≫= (fun h => match h with Answered q _ => [q] | _ => [] end).

Definition announcements (hs : list happening) : list RtpPacket :=
  hs ≫= (fun h => match h with Announced p => [p] | _ => [] end).

Section client.
Context `{K : Kernel}.
Variables (sdp : bytes) (s0 : rtsp_session ring_buffer).

(** What may happen to a client: replies and frames are whole, and only a kernel that
    is not willing loses one, or makes the server give a client up. *)
Definition may_happen (c : client) (h : happening) : Prop :=
  match h with
  | Answered q o => Exchange.due sdp s0 q o
  | Announced _ => cl_due c = None
  | Forwarded o => exists p, cl_due c = Some p /\
      (o = packet_frame p \/ o = [] /\ ~ willing (RtspSession.fd s0))
  | GivenUp => ~ willing (RtspSession.fd s0)
  end.

Fixpoint story (c : client) (hs : list happening) : Prop :=
  match hs with
  | [] => True
  | h :: hs => may_happen c h /\ story (happen sdp c h) hs
  end.

Definition ending (c : client) (hs : list happening) : client := fold_left (happen sdp) hs c.

Lemma story_app c hs hs' : story c (hs ++ hs') <-> story c hs /\ story (ending c hs) hs'.
Proof.
  revert c. induction hs as [|h hs IH]; intros c; cbn [app story]; [by split; [|intros []]|].
  rewrite IH. cbn. tauto.
Qed.

Lemma ending_app c hs hs' : ending c (hs ++ hs') = ending (ending c hs) hs'.
Proof. apply fold_left_app. Qed.

(** Requests answered one after the other. *)
Definition answers (qs : list client_request) (outs : list bytes) : list happening :=
  zip_with Answered qs outs.

Lemma answers_story c qs outs :
  Forall2 (Exchange.due sdp s0) qs outs ->
  story c (answers qs outs) /\
  ending c (answers qs outs) = mkClient (fold_left (next_state sdp) (cr_method <$> qs) (cl_state c))
    (cl_due c) (cl_out c ++ mjoin outs) /\
  questions (answers qs outs) = qs /\ announcements (answers qs outs) = [].
Proof.
  intros Houts. revert c. induction Houts as [|q o qs outs Ho _ IH]; intros c.
  - split; [done|]. cbn. rewrite app_nil_r. by destruct c.
  - destruct (IH (happen sdp c (Answered q o))) as (H1 & H2 & H3 & H4).
    split; [by split|]. split; [|split].
    + cbn [answers zip_with]. change (ending c (Answered q o :: zip_with Answered qs outs))
        with (ending (happen sdp c (Answered q o)) (answers qs outs)).
      rewrite H2. cbn [happen cl_state cl_due cl_out]. rewrite mjoin_cons, app_assoc. done.
    + change (questions (answers (q :: qs) (o :: outs))) with (q :: questions (answers qs outs)).
      by rewrite H3.
    + exact H4.
Qed.
End client.

(** ** The server's side *)
Section delivery.
Context `{K : Kernel} `{KL : !KernelLaws}.
Variables (fd : Z) (all : list client_request) (v0 : rtsp_server ring_buffer)
  (s0 : rtsp_session ring_buffer) (w0 : world).
Implicit Types v : rtsp_server ring_buffer.
Implicit Types s : rtsp_session ring_buffer.
Implicit Types y : system ring_buffer.

(** The client at the start. *)
Definition at_first : client := mkClient (state_ s0) None (stream (conn_ s0) w0).

(** The session and its output are those of a client that was asked [qs] and
    announced [ps], and is due [d]. *)
Definition told (d : option RtpPacket) (ps : list RtpPacket) (qs : list client_request) s
    (w : world) : Prop :=
  exists hs, story (sdp_ v0) s0 at_first hs /\ questions hs = qs /\ announcements hs = ps /\
    ending (sdp_ v0) at_first hs = mkClient (state_ s) d (stream (conn_ s) w).

(** The packet as a list. *)
Definition owed (d : option RtpPacket) : list RtpPacket :=
  match d with Some p => [p] | None => [] end.

(** And there is room for what is due, what the stream thread will broadcast and the
    replies to come. *)
Record telling d ps (future : list RtpPacket) (qs : list client_request) s (w : world) : Prop := {
  tl_streaming : streaming s;
  tl_id : session_id_ s = session_id_ s0;
  tl_fd : RtspSession.fd s = RtspSession.fd s0;
  tl_room later : all = qs ++ later ->
    pending s + len (replies (sdp_ v0) s0 later) + len (frames (owed d ++ future)) <= room s;
  tl_told : told d ps qs s w;
}.

Lemma frames_app ps ps' : frames (ps ++ ps') = frames ps ++ frames ps'.
Proof. unfold frames. by rewrite fmap_app, join_app. Qed.

(** More happens to the client. *)
Lemma told_more d ps qs s w hs d' s' w' :
  told d ps qs s w -> story (sdp_ v0) s0 (mkClient (state_ s) d (stream (conn_ s) w)) hs ->
  ending (sdp_ v0) (mkClient (state_ s) d (stream (conn_ s) w)) hs =
    mkClient (state_ s') d' (stream (conn_ s') w') ->
  told d' (ps ++ announcements hs) (qs ++ questions hs) s' w'.
Proof.
  intros (hs0 & H1 & <- & <- & H4) Hst Hend. exists (hs0 ++ hs).
  rewrite story_app, ending_app, H4. unfold questions, announcements. by rewrite !bind_app.
Qed.

Lemma telling_history d ps future : history all v0 s0 (telling d ps future).
Proof.
  split.
  - by intros ? ? ? [].
  - by intros ? ? ? [].
  - intros qs later s w Hall [_ _ _ Hroom _]. specialize (Hroom later Hall).
    pose proof (len_nonneg (frames (owed d ++ future))). lia.
  - intros qs now s w s' w' [_ Hid Hfd Hroom Htold] [H1 Hid' Hfd' Hr Hp Hst (outs & Houts & Hs)].
     split; [done|congruence|congruence| |].
    + intros later Hall. rewrite <-app_assoc in Hall. specialize (Hroom _ Hall).
      rewrite (replies_id (sdp_ v0) s0 s) in Hp by done. unfold replies in *.
      rewrite fmap_app, join_app, len_app in Hroom. lia.
    + assert (Houts0 : Forall2 (Exchange.due (sdp_ v0) s0) now outs).
      { eapply Forall2_impl; [exact Houts|]. intros q o. by apply due_id. }
      destruct (answers_story (sdp_ v0) s0 (mkClient (state_ s) d (stream (conn_ s) w)) now outs Houts0)
        as (A1 & A2 & A3 & A4).
      rewrite <-A3. rewrite <-(app_nil_r ps), <-A4. eapply told_more; [exact Htold|exact A1|].
      rewrite A2. cbn [cl_state cl_due cl_out]. by rewrite <-Hst, <-Hs.
  - intros qs s1 w1 s2 w2 [_ Hid Hfd Hroom Htold] [H1 Hid2 Hfd2 Hr2 Hp2 Hst2 Hs2].
    split; [done|congruence|congruence| |].
    + intros later Hall. specialize (Hroom later Hall). lia.
    + unfold told. by rewrite Hst2, Hs2.
Qed.

Lemma telling_later d ps p future qs s w :
  telling d ps (p :: future) qs s w -> telling d ps future qs s w.
Proof.
  intros [? ? ? Hroom ?]. split; try done. intros later Hall. specialize (Hroom later Hall).
  rewrite frames_app in *. change (frames (p :: future)) with (packet_frame p ++ frames future) in Hroom.
  rewrite !len_app in *. pose proof (len_nonneg (packet_frame p)). lia.
Qed.

(** The stream thread takes the sessions that play. *)
Lemma telling_announced ps p future qs s w :
  telling None ps (p :: future) qs s w ->
  telling (if decide (state_ s = SessionState.kPlaying) then Some p else None) (ps ++ [p]) future qs s w.
Proof.
  intros Ht. pose proof (telling_later _ _ _ _ _ _ _ Ht) as [_ _ _ Hroom1 _].
  destruct Ht as [? ? ? Hroom Htold]. split; try done.
  - intros later Hall. specialize (Hroom later Hall). specialize (Hroom1 later Hall).
    destruct (decide _); done.
  - rewrite <-(app_nil_r qs). by apply (told_more _ _ _ _ _ [Announced p] _ _ _ Htold).
Qed.

Lemma telling_forwarded p ps future qs s w o s1 w1 :
  telling (Some p) ps future qs s w -> adds s w o s1 w1 -> grows (w_trace w) (w_trace w1) ->
  state_ s1 = state_ s -> (o = packet_frame p \/ o = [] /\ ~ willing (RtspSession.fd s)) ->
  telling None ps future qs s1 w1.
Proof.
  intros [_ Hid Hfd Hroom Htold] Ha Hg Hst Ho. pose proof (adds_pending _ _ _ _ _ Ha Hg) as Hp.
  destruct Ha as [H1 Hid1 Hr1 Hs1 Hfd1]. split; [done|congruence|congruence| |].
  - intros later Hall. specialize (Hroom later Hall). rewrite frames_app, len_app in Hroom.
    change (frames (owed None ++ future)) with (frames future).
    change (frames (owed (Some p))) with (packet_frame p ++ []) in Hroom. rewrite app_nil_r in Hroom.
    assert (len o <= len (packet_frame p)).
    { destruct Ho as [->|[-> _]]; [done|]. rewrite len_nil. apply len_nonneg. }
    lia.
  - rewrite <-(app_nil_r ps), <-(app_nil_r qs).
    apply (told_more _ _ _ _ _ [Forwarded o] _ _ _ Htold).
    + split; [|done]. exists p. by rewrite <-Hfd.
    + cbn. by rewrite Hst, Hs1.
Qed.

Lemma telling_given_up d ps future qs s w :
  telling d ps future qs s w -> ~ willing (RtspSession.fd s) ->
  telling d ps future qs (RtspSession.set_state s SessionState.kTeardown) w.
Proof.
  intros [[[? ?] ? ?] Hid Hfd Hroom Htold] Hw. split; try done.
  rewrite <-(app_nil_r ps), <-(app_nil_r qs).
  apply (told_more _ _ _ _ _ [GivenUp] _ _ _ Htold); [|done]. split; [|done]. cbn. by rewrite <-Hfd.
Qed.

(** The counts of drops do not concern the client. *)
Lemma telling_counted d ps future qs s w c' :
  telling d ps future qs s w -> fd_guard_ c' = fd_guard_ (conn_ s) ->
  read_buffer_ c' = read_buffer_ (conn_ s) -> write_buffer_ c' = write_buffer_ (conn_ s) ->
  telling d ps future qs (RtspSession.with_conn s c') w.
Proof.
  intros Ht Hfd Hr Hw. pose proof (tl_streaming _ _ _ _ _ _ Ht) as Hs.
  apply (hs_same _ _ _ _ (telling_history d ps future) _ _ _ _ _ Ht).
  apply same_output_with_conn; try done.
  - destruct Hs as [[[? ?] _] _ _]. split; [by rewrite Hr|by rewrite Hw].
  - by rewrite Hw.
  - by rewrite Hw.
  - unfold stream, Connection.fd. by rewrite Hfd, Hw.
Qed.

(** The turn of the session itself. *)
Lemma wp_own_turn p ps future qs later v s w :
  om_find fd (sessions_ v) = Some s -> om_find fd (detached_ v) = None ->
  use_ok (UsePacket p) -> all = qs ++ later -> telling (Some p) ps future qs s w ->
  wp (RtspServer.broadcast_one p v fd) (fun v' w' => exists s',
    om_find fd (sessions_ v') = Some s' /\ detached_ v' = detached_ v /\
    read_buffer_ (conn_ s') = read_buffer_ (conn_ s) /\ telling None ps future qs s' w') w.
Proof.
  intros Hf Hd Hp Hall Ht. unfold RtspServer.broadcast_one.
  assert (Hput : forall v1 s' w', detached_ v1 = detached_ v ->
    read_buffer_ (conn_ s') = read_buffer_ (conn_ s) -> telling None ps future qs s' w' ->
    exists s2, om_find fd (sessions_ (put_object v1 fd s')) = Some s2 /\
      detached_ (put_object v1 fd s') = detached_ v /\
      read_buffer_ (conn_ s2) = read_buffer_ (conn_ s) /\ telling None ps future qs s2 w').
  { intros v1 s' w' H1 H2 H3. exists s'. unfold put_object. rewrite H1, Hd. cbn.
    by rewrite om_find_set_eq. }
  assert (find_object v fd = Some s) as -> by (unfold find_object; by rewrite Hd).
  pose proof (tl_streaming _ _ _ _ _ _ Ht) as Hs. pose proof (tl_room _ _ _ _ _ _ Ht _ Hall) as Hroom.
  rewrite frames_app, len_app in Hroom.
  change (frames (owed (Some p))) with (packet_frame p ++ []) in Hroom. rewrite app_nil_r in Hroom.
  pose proof (len_nonneg (frames future)). pose proof (len_nonneg (replies (sdp_ v0) s0 later)).
  wp_step. eapply wp_mono; [apply (wp_packet [] s p w Hs Hp); change (message_of [] s (UsePacket p))
    with (packet_frame p); lia|].
  intros [st s1] w1 (Hg & Hst & Hread & o & [Ho Hok] & Ha).
  change (message_of [] s (UsePacket p)) with (packet_frame p) in Ho, Hok.
  pose proof (telling_forwarded _ _ _ _ _ _ _ _ _ Ht Ha Hg Hst Ho) as Ht1.
  assert (Hfail : Status.ok st = false -> ~ willing (RtspSession.fd s1)).
  { intros Hf1. destruct Ha as [_ _ _ _ ->]. destruct Ho as [Ho|[_ Ho]]; [|done].
    apply Hok in Ho. congruence. }
  unfold RtspServer.broadcast_account. destruct (Status.ok st) eqn:He; cbn [negb].
  - assert (Ht2 : telling None ps future qs (RtspSession.RecordSuccess s1) w1)
      by by apply telling_counted.
    destruct (RtspSession.NeedFlush _); [|wp_step; by apply Hput].
    wp_step. assert (Ha2 : adds s1 w1 [] (RtspSession.RecordSuccess s1) w1).
    { destruct Ht2 as [? ? ? _ _]. split; try done. by rewrite app_nil_r. }
    apply (wp_interest true _ _ _ _ _ _ _ _ _ Ha2). intros st2 w2 Ha3 _. wp_step.
    apply Hput; [done|done|].
    apply (hs_same _ _ _ _ (telling_history None ps future) _ _ _ _ _ Ht1).
    destruct Ha3 as [? ? ? H3 ?]. split; try done. by rewrite H3, app_nil_r.
  - assert (Ht2 : telling None ps future qs (RtspSession.RecordDrop s1) w1)
      by by apply telling_counted.
    destruct (_ <=? _); wp_step; apply Hput; try done.
    apply telling_given_up; [done|]. by apply Hfail.
Qed.

(** *** The system *)

(** The packet the session is due, when the stream thread is there. *)
Definition due_at y : option RtpPacket :=
  match sys_stream y with
  | Turns p fds | Sending p _ _ fds => if decide (fd ∈ fds) then Some p else None
  | Idle => None
  end.

(** The stream thread has a packet of admissible size and serves each session once. *)
Definition point_fine (pt : stream_point) : Prop :=
  match pt with
  | Idle => True
  | Turns p fds => use_ok (UsePacket p) /\ NoDup fds
  | Sending p k _ fds => use_ok (UsePacket p) /\ NoDup (k :: fds)
  end.

Definition gone y : Prop := om_find fd (sessions_ (sys_server y)) = None.

Record follows y (w : world) (ps future : list RtpPacket) : Prop := {
  fl_between : between fd all v0 s0 w0 (telling (due_at y) ps future) (sys_server y) w;
  fl_point : point_ok (sys_server y) (sys_stream y);
  fl_fine : point_fine (sys_stream y);
  fl_sending : match sys_stream y with Sending _ k _ _ => k <> fd \/ gone y | _ => True end;
  fl_callbacks : callbacks_ (event_loop_ (sys_server y)) ⊆ callbacks_ (event_loop_ v0);
}.

Hypothesis Hop : opens fd all v0 s0 w0.
Hypothesis Hattached : om_find fd (detached_ v0) = None.

(** What is said of the client may be said in another way. *)
Lemma between_impl (H H' : list client_request -> rtsp_session ring_buffer -> world -> Prop) v w :
  between fd all v0 s0 w0 H v w ->
  (forall qs later s, all = qs ++ later -> om_find fd (sessions_ v) = Some s -> H qs s w -> H' qs s w) ->
  between fd all v0 s0 w0 H' v w.
Proof.
  intros [Hok Hsdp Hg Hc] HH. split; [done..|].
  destruct Hc as [|(qs & later & p & s & [? ? ? [? ? ? ? ? ?]])]; [by left|right].
  exists qs, later, p, s. split; [done..|]. split; try done. by eapply HH.
Qed.

Lemma between_gone H v w v' w' :
  between fd all v0 s0 w0 H v w -> server_ok v' -> sdp_ v' = sdp_ v ->
  grows (w_trace w) (w_trace w') -> om_find fd (sessions_ v') = None ->
  between fd all v0 s0 w0 H v' w'.
Proof.
  intros [_ Hsdp Hg _] Hok' Hsdp' Hg' Hn.
  split; [done|congruence|by eapply grows_trans|by left].
Qed.

(** What the ledger says of a step: the invariants hold again, and the trace grows. *)
Lemma stream_step_kept y w y' w' :
  system_ok y -> System.stream_step y w = Done y' w' ->
  system_ok y' /\ grows (w_trace w) (w_trace w').
Proof.
  intros Hy Hrun.
  assert (Hown : owns (System.stream_step y) (fun y' _ => system_ok y') (fun _ => 0))
    by (apply owns_stream_step; [done|]; by intros ? ? ? _).
  split; [exact (owns_elim _ _ _ _ _ _ Hown Hrun)|exact (owns_grows _ _ _ _ _ _ Hown Hrun)].
Qed.

(** Another session's part of a turn. *)
Lemma follows_apart y w ps future y' w' k :
  follows y w ps future -> system_ok y' -> grows (w_trace w) (w_trace w') ->
  touched k (sys_server y) (sys_server y') -> k <> fd \/ gone y ->
  received fd (w_trace w') = received fd (w_trace w) ->
  (k <> fd -> wire fd (w_trace w') = wire fd (w_trace w)) -> due_at y' = due_at y \/ gone y ->
  between fd all v0 s0 w0 (telling (due_at y') ps future) (sys_server y') w' /\
  callbacks_ (event_loop_ (sys_server y')) ⊆ callbacks_ (event_loop_ v0) /\
  (gone y -> gone y').
Proof.
  intros [Hbt _ _ _ Hcb] [Hok' _] Hg [Hsdp Hcb' Hsn Hss Hdd Hgone] Hk Hrec Hwire Hdue.
  assert (Hg2 : gone y -> gone y').
  { intros Hn. unfold gone in *. destruct (Z.eq_dec k fd) as [->|]; [by apply Hgone|].
    rewrite Hss; [done|congruence]. }
  split; [|split; [by rewrite Hcb'|done]].
  destruct (om_find fd (sessions_ (sys_server y))) as [s|] eqn:Hf.
  - assert (Hne : k <> fd) by (by destruct Hk as [|Hn]; [|unfold gone in Hn; congruence]).
    assert (due_at y' = due_at y) as -> by (by destruct Hdue as [|Hn]; [|unfold gone in Hn; congruence]).
    apply (between_apart fd all v0 s0 w0 _ (telling_history _ ps future) (sys_server y) w);
      [done|done|done|done|by apply Hss; congruence|intros _; by apply Hdd; congruence|done|by apply Hwire].
  - eapply between_gone; [|done|exact Hsdp|exact Hg|by apply Hg2].
    destruct Hbt as [? ? ? [|(qs & later & p & s & [Hf' _ _ _])]]; [|congruence].
    split; [done..|by left].
Qed.

Lemma follows_ok y w ps future : follows y w ps future -> system_ok y.
Proof. intros [[Hok _ _ _] Hpt _ _ _]. by split. Qed.

Lemma objects_on v k s : server_ok v -> find_object v k = Some s -> on k s.
Proof. intros Hok Hf. by destruct (find_object_stored _ _ _ Hok Hf). Qed.

(** The session's own turn, over TCP. *)
Lemma own_turn v w p fds ps future y' w' :
  follows (mkSystem v (Turns p (fd :: fds))) w ps future -> ~ gone (mkSystem v (Turns p (fd :: fds))) ->
  System.stream_step (mkSystem v (Turns p (fd :: fds))) w = Done y' w' ->
  between fd all v0 s0 w0 (telling None ps future) (sys_server y') w' /\ sys_stream y' = Turns p fds.
Proof.
  intros Hfl Hgone Hrun. pose proof (follows_ok _ _ _ _ Hfl) as Hy.
  destruct (stream_step_kept _ _ _ _ Hy Hrun) as [[Hok' _] Hg'].
  destruct Hfl as [[Hok Hsdp Hg Hc] _ [Hp Hnd] _ _]. unfold gone in Hgone. cbn [sys_server sys_stream] in *.
  destruct Hc as [|(qs & later & b & s & [Hf Hb Hdet [Hall Hrec Hin Hpos Hcap Ht]])]; [done|].
  assert (Hdue : due_at (mkSystem v (Turns p (fd :: fds))) = Some p)
    by (unfold due_at; cbn; by rewrite decide_True by apply list_elem_of_here).
  rewrite Hdue in Ht. pose proof (tl_streaming _ _ _ _ _ _ Ht) as Hs. rewrite Hattached in Hdet.
  assert (Hobj : find_object v fd = Some s) by (unfold find_object; by rewrite Hdet).
  pose proof (does_turn v p fd fds (objects_sorted_ok _ Hok) (fun s => objects_on v fd s Hok)) as Hdoes.
  destruct (does_result _ _ _ _ _ _ Hdoes Hrun) as [[Hsdp' _ _ _ _ _] _].
  pose proof (does_received fd _ _ _ _ _ _ _ Hdoes (fun H => H) Hrun) as Hrec'.
  unfold System.stream_step in Hrun. cbn [sys_stream sys_server] in Hrun.
  rewrite Hobj, (str_tcp _ Hs) in Hrun.
  pose proof (wp_own_turn p ps future qs later v s w Hf Hdet Hp Hall Ht) as Hwp.
  unfold wp in Hwp. unfold mbind, M_bind in Hrun.
  destruct (RtspServer.broadcast_one p v fd w) as [v1 w1|]; [|done].
  injection Hrun as <- <-. destruct Hwp as (s1 & Hf1 & Hd1 & Hr1 & Ht1). cbn [sys_server sys_stream] in *.
  split; [|done]. split; [done|congruence|by eapply grows_trans|].
  right. exists qs, later, b, s1. split; [done|done|by rewrite Hd1, Hdet|].
  split; [done|by rewrite Hrec'| |by rewrite Hr1|by rewrite Hr1|done].
  destruct Hin as [_ Hcont Hun]. split; [by destruct (om_find_stored _ _ _ Hok' Hf1)| |]; by rewrite Hr1.
Qed.

Lemma follows_stream_step y w ps future :
  follows y w ps future ->
  exists y' w', System.stream_step y w = Done y' w' /\ follows y' w' ps future.
Proof.
  intros Hfl. pose proof (follows_ok _ _ _ _ Hfl) as Hy.
  pose proof (wp_stream_step_ends y w Hy) as Hwp. unfold wp in Hwp.
  destruct (System.stream_step y w) as [y' w'|] eqn:Hrun; [|done]. exists y', w'. split; [done|].
  destruct (stream_step_kept _ _ _ _ Hy Hrun) as [Hy' Hg']. pose proof Hy' as [_ Hpt'].
  pose proof Hfl as [Hbt Hpt Hfine Hsend Hcb]. pose proof Hy as [Hok _].
  destruct y as [v pt]. cbn [sys_server sys_stream] in *.
  destruct pt as [|p [|k fds]|p k ep fds].
  - unfold System.stream_step in Hrun. injection Hrun as <- <-. done.
  - pose proof (does_drop v p) as Hdoes. pose proof (does_result _ _ _ _ _ _ Hdoes Hrun) as ->.
    split; [|done..]. cbn [sys_server].
    apply (between_apart fd all v0 s0 w0 _ (telling_history _ ps future) v w); try done.
    + by destruct Hy'.
    + intros Hn. cbn. rewrite (between_attached _ _ _ _ _ _ _ _ Hbt Hn). done.
    + exact (does_received fd _ _ _ _ _ _ _ Hdoes (fun H => H) Hrun).
    + exact (does_wire fd _ _ _ _ _ _ _ Hdoes (fun H => H) Hrun).
  - destruct Hfine as [Hp Hnd]. pose proof Hnd as [Hk Hnd']%NoDup_cons.
    pose proof (does_turn v p k fds (objects_sorted_ok _ Hok) (fun s => objects_on v k s Hok)) as Hdoes.
    pose proof (does_result _ _ _ _ _ _ Hdoes Hrun) as [Htc Hnext].
    assert (Hfine' : point_fine (sys_stream y')).
    { by destruct Hnext as [->|(s & ep & _ & _ & ->)]. }
    destruct (decide (k = fd /\ ~ gone (mkSystem v (Turns p (k :: fds))))) as [[-> Hng]|Hother].
    + destruct (own_turn v w p fds ps future y' w' Hfl Hng Hrun) as [Hbt' Hst]. split; try done.
      * unfold due_at. rewrite Hst. by rewrite decide_False.
      * by rewrite Hst.
      * by rewrite (tc_callbacks _ _ _ Htc).
    + assert (Hk2 : k <> fd \/ gone (mkSystem v (Turns p (k :: fds)))).
      { destruct (decide (k = fd)); [|by left]. right.
        destruct (decide (om_find fd (sessions_ v) = None)) as [|Hn]; [done|].
        destruct Hother. by split. }
      destruct (follows_apart _ _ _ _ y' w' k Hfl Hy' Hg' Htc Hk2) as (Hbt' & Hcb' & Hg2).
      * exact (does_received fd _ _ _ _ _ _ _ Hdoes (fun H => H) Hrun).
      * intros Hne. exact (does_wire fd _ _ _ _ _ _ _ Hdoes Hne Hrun).
      * destruct Hk2 as [Hne|]; [left|by right].
        assert (fd ∈ k :: fds <-> fd ∈ fds) as Hiff
          by (rewrite elem_of_cons; split; [by intros [|]|by right]).
        unfold due_at. cbn [sys_stream]. rewrite (decide_ext _ _ _ _ Hiff).
        by destruct Hnext as [->|(s & ep & _ & _ & ->)].
      * split; try done. destruct Hnext as [->|(s & ep & _ & _ & ->)]; [done|].
        destruct Hk2; [by left|right; by apply Hg2].
  - destruct Hfine as [Hp Hnd]. pose proof Hnd as [Hk Hnd']%NoDup_cons.
    pose proof (does_end_udp v p k ep fds (objects_sorted_ok _ Hok)) as Hdoes.
    pose proof (does_result _ _ _ _ _ _ Hdoes Hrun) as [Htc Hnext].
    destruct (follows_apart _ _ _ _ y' w' k Hfl Hy' Hg' Htc Hsend) as (Hbt' & Hcb' & Hg2).
    + exact (does_received fd _ _ _ _ _ _ _ Hdoes (fun H => H) Hrun).
    + intros _. exact (does_wire fd _ _ _ _ _ _ _ Hdoes (fun H => H) Hrun).
    + left. unfold due_at. by rewrite Hnext.
    + split; try done; by rewrite Hnext.
Qed.

(** An event for a client. *)
Lemma follows_event r y w ps future :
  follows y w ps future -> only_clients [r] v0 ->
  match System.step (Deliver r) y w with
  | Done y' w' => follows y' w' ps future
  | Fault _ => er_fd r <> fd
  end.
Proof.
  intros [Hbt Hpt Hfine Hsend Hcb] Hr. cbn [System.step]. unfold mbind at 1, M_bind at 1.
  assert (Hr' : only_clients [r] (sys_server y)) by by eapply only_clients_sub.
  pose proof (dispatch_conversation fd all v0 s0 w0 _ Hop (telling_history (due_at y) ps future)
    [r] _ w Hr' Hbt) as Hd.
  assert (Hgone : gone y -> forall v1 w1,
    EpollLoop.dispatch event_loop_ RtspServer.invoke [r] (sys_server y) w = Done v1 w1 ->
    om_find fd (sessions_ v1) = None).
  { intros Hn v1 w1 Hrun.
    assert (Hno : history all v0 s0 (fun _ _ _ => False)) by by split.
    pose proof (dispatch_conversation fd all v0 s0 w0 _ Hop Hno [r] (sys_server y) w Hr') as Hf.
    rewrite Hrun in Hf. destruct Hf as [[_ _ _ [|(qs & later & p & s & [_ _ _ []])]] _]; [|done|done].
    destruct Hbt as [? ? ? _]. split; [done..|by left]. }
  destruct (EpollLoop.dispatch _ _ [r] _ w) as [v1 w1|].
  - destruct Hd as (Hbt1 & Hsn & Hcb1). split; [exact Hbt1| |exact Hfine| |by etrans].
    + unfold System.with_server, point_ok in *. cbn [sys_server sys_stream]. by rewrite Hsn.
    + cbn [sys_stream System.with_server]. destruct (sys_stream y); try done.
      destruct Hsend as [|Hn]; [by left|right]. by apply (Hgone Hn v1 w1).
  - destruct Hd as (r' & [->|[]] & Hne). done.
Qed.

(** The packet whose broadcast an action begins. *)
Definition begun (a : action) y : list RtpPacket :=
  match a, sys_stream y with
  | Broadcast p, Idle => if RtspServer.IsRunning (sys_server y) then [p] else []
  | _, _ => []
  end.

Lemma follows_broadcast p y w ps future :
  use_ok (UsePacket p) -> follows y w ps (p :: future) ->
  exists y', System.step (Broadcast p) y w = Done y' w /\
    follows y' w (ps ++ begun (Broadcast p) y) future.
Proof.
  intros Hp Hfl. pose proof (follows_ok _ _ _ _ Hfl) as [Hok _].
  assert (Hskip : follows y w (ps ++ []) future).
  { rewrite app_nil_r. destruct Hfl as [Hbt ? ? ? ?]. split; try done.
    eapply between_impl; [exact Hbt|]. intros qs later s _ _. apply telling_later. }
  destruct y as [v [|p1 fds|p1 k ep fds]]; cbn [System.step sys_stream sys_server begun] in *;
    [|by eexists; split; [reflexivity|]..].
  eexists. split; [reflexivity|]. unfold System.enter_broadcast.
  destruct (RtspServer.IsRunning v); cbn [negb]; [|exact Hskip].
  destruct Hfl as [Hbt Hpt _ _ Hcb]. cbn [sys_server sys_stream] in *.
  destruct (take_snapshot_ok v Hok Hpt) as (Hok1 & Hd & _).
  set (y1 := mkSystem _ _). assert (Hdue : forall s, om_find fd (sessions_ v) = Some s ->
    due_at y1 = if decide (state_ s = SessionState.kPlaying) then Some p else None).
  { intros s Hf. unfold due_at. cbn [y1 sys_stream RtspServer.take_snapshot snapshot_ with_snapshot].
    apply decide_ext. rewrite (playing_fds_spec v fd (ok_sorted _ Hok)). split.
    - intros (s' & Hf' & ?). congruence.
    - intros ?. by exists s. }
  split; [|split; [|done]|split; [done|]|done|done].
  - apply (between_apart fd all v0 s0 w0 _ (telling_history (due_at y1) (ps ++ [p]) future) v w);
      try done; [|apply grows_refl|by rewrite Hd].
    eapply between_impl; [exact Hbt|]. intros qs later s _ Hf Ht.
    rewrite (Hdue s Hf). by apply telling_announced.
  - intros m Hm. destruct Hp as (m' & Hm' & ? & _). rewrite Hm in Hm'. injection Hm' as ->. lia.
  - by apply playing_fds_NoDup, ok_sorted.
Qed.

Lemma follows_info y w ps future :
  follows y w ps future ->
  exists w', System.step AskInfo y w = Done y w' /\ follows y w' ps future.
Proof.
  intros [Hbt Hpt Hfine Hsend Hcb]. eexists. split; [reflexivity|]. split; try done.
  apply (between_apart fd all v0 s0 w0 _ (telling_history (due_at y) ps future) (sys_server y) w);
    try done.
  - apply Hbt.
  - apply grows_call, grows_refl.
  - cbn [w_trace]. by rewrite received_snoc, app_nil_r.
  - cbn [w_trace]. by rewrite wire_snoc, app_nil_r.
Qed.

(** What may happen around the client: events of clients, packets of admissible size,
    steps of the stream thread, questions for information. *)
Definition around (a : action) : Prop :=
  match a with
  | Deliver r => only_clients [r] v0
  | Broadcast p => use_ok (UsePacket p)
  | StreamStep | AskInfo => True
  | StartServer | StopServer | ChangeSdp _ => False
  end.

(** The packets of the actions, and those whose broadcast was begun. *)
Definition packets (actions : list action) : list RtpPacket :=
  actions ≫= (fun a => match a with Broadcast p => [p] | _ => [] end).

Fixpoint broadcast_begun (actions : list action) y (w : world) : list RtpPacket :=
  match actions with
  | [] => []
  | a :: actions =>
    begun a y ++
    match System.step a y w with
    | Done y' w' => broadcast_begun actions y' w'
    | Fault _ => []
    end
  end.

Lemma follows_run actions y w ps :
  Forall around actions -> follows y w ps (packets actions) ->
  match System.run actions y w with
  | Done y' w' => follows y' w' (ps ++ broadcast_begun actions y w) []
  | Fault _ => exists r, In (Deliver r) actions /\ er_fd r <> fd
  end.
Proof.
  intros Hact. revert y w ps. induction Hact as [|a actions Ha _ IH]; intros y w ps Hfl.
  { cbn. by rewrite app_nil_r. }
  cbn [System.run broadcast_begun]. unfold mbind, M_bind.
  assert (Hnext : forall y1 w1 ps1, follows y1 w1 ps1 (packets actions) ->
    match System.run actions y1 w1 with
    | Done y' w' => follows y' w' (ps1 ++ broadcast_begun actions y1 w1) []
    | Fault _ => exists r, In (Deliver r) (a :: actions) /\ er_fd r <> fd
    end).
  { intros y1 w1 ps1 H1. specialize (IH y1 w1 ps1 H1).
    destruct (System.run actions y1 w1); [done|]. destruct IH as (r & ? & ?). exists r.
    split; [by right|done]. }
  destruct a as [r|p| | | | |]; try done.
  - pose proof (follows_event r y w ps _ Hfl Ha) as Hr.
    destruct (System.step (Deliver r) y w) as [y1 w1|]; [|by exists r; split; [left|]].
    by apply Hnext.
  - destruct (follows_broadcast p y w ps (packets actions) Ha Hfl) as (y1 & -> & H1).
    rewrite app_assoc. by apply Hnext.
  - destruct (follows_stream_step y w ps _ Hfl) as (y1 & w1 & Hs & H1). cbn [System.step].
    rewrite Hs. by apply Hnext.
  - destruct (follows_info y w ps _ Hfl) as (w1 & -> & H1). by apply Hnext.
Qed.

End delivery.

(** ** Property *)
Section property.
Context `{K : Kernel} `{KL : !KernelLaws}.

(** C2: What a client gets, as long as its buffers have room.  A client with an open
    session over TCP and nothing waiting on its input is going to send requests, in
    pieces of any size; the stream thread broadcasts packets of admissible size, a
    turn at a time; the steps of both, and read, write and error events of this client
    and others, interleave in any order, and the kernel accepts any part of any
    output.  Two conditions are on the room: the input ring takes the whole text of
    the requests without wrapping around (a request that wraps is read past the end
    of the ring), and the write buffer has room, beside what is pending at the start,
    for all the replies and the frames of all the packets broadcast (without it a
    frame can be torn).  Accepting clients, the timer, starting, stopping and setting
    the description are not among the events.

    Afterwards the client's session is closed, or it is the session of a client that
    was asked exactly the requests whose text has arrived completely, in order, and
    announced exactly the packets whose broadcast was begun, in order: in the state
    those requests lead to; due the packet that the stream thread has taken it in for
    and not yet forwarded; and its output stream is the replies and the frames of the
    packets announced while it played, each whole and in its place.  Nothing is
    missing, unless the kernel is not willing to take it.  Only an event of another
    client can have failed. *)
Theorem client_gets_replies_and_packets fd all v0 s0 w0 actions :
  opens fd all v0 s0 w0 -> snapshot_ v0 = [] -> Forall (around v0) actions ->
  pending s0 + len (replies (sdp_ v0) s0 all) + len (frames (packets actions)) <= room s0 ->
  match System.run actions (mkSystem v0 Idle) w0 with
  | Done y w =>
    conversation fd all v0 s0 w0
      (told v0 s0 w0 (due_at fd y) (broadcast_begun actions (mkSystem v0 Idle) w0)) (sys_server y) w
  | Fault _ => exists r, In (Deliver r) actions /\ er_fd r <> fd
  end.
Proof.
  intros Hop Hsn Hact Hroom.
  assert (Hattached : om_find fd (detached_ v0) = None).
  { pose proof (ok_registry _ (op_server _ _ _ _ _ Hop)) as Hreg. rewrite Hsn in Hreg.
    by rewrite (registry_unpinned _ _ Hreg). }
  assert (Hfl : follows fd all v0 s0 w0 (mkSystem v0 Idle) w0 [] (packets actions)).
  { split; [|done..]. apply opens_between; [exact Hop|apply telling_history|].
    split; [by apply Hop|done|done| |].
    - intros later Hall. change ([] ++ later) with later in Hall. by subst later.
    - by exists []. }
  pose proof (follows_run fd all v0 s0 w0 Hop Hattached actions _ w0 [] Hact Hfl) as Hrun.
  destruct (System.run actions (mkSystem v0 Idle) w0) as [y w|]; [|done].
  destruct Hrun as [Hbt _ _ _ _].
  refine (bt_conversation _ _ _ _ _ _ _ _ (between_impl _ _ _ _ _ _ _ _ _ Hbt _)).
  intros qs later s _ _ Ht. apply Ht.
Qed.
End property.

(** *** Witness *)

(** A packet before the client plays; its requests, in three pieces, with the end of
    another client in between; and a packet while it plays. *)
Definition around_client : list action :=
  [Broadcast rtp; StreamStep; Deliver (readable_at 7); Deliver (readable_at 7);
   Deliver (readable_at 8); Deliver (readable_at 7); Broadcast rtp; AskInfo; StreamStep].

Lemma around_client_ok : Forall (around two_clients) around_client.
Proof.
  assert (Hrtp : use_ok (UsePacket rtp)).
  { exists (lit "rtp"). split; [reflexivity|]. vm_compute. by repeat split; discriminate. }
  assert (Hev : forall k, k = 7 \/ k = 8 -> only_clients [readable_at k] two_clients).
  { intros k Hk r cb [<-|[]]. destruct Hk as [->| ->]; vm_compute; congruence. }
  repeat constructor; cbn; try done; auto.
Defined.

Lemma client_gets_replies_and_packets_witness :
  exists y w,
    System.run (K := piecewise) around_client (mkSystem two_clients Idle) world0 = Done y w /\
    wire 7 (w_trace w) = replies [] (new_client 7) opening ++ frames [rtp] /\
    conversation 7 opening two_clients (new_client 7) world0
      (told (K := piecewise) two_clients (new_client 7) world0 (due_at 7 y)
        (broadcast_begun (K := piecewise) around_client (mkSystem two_clients Idle) world0))
      (sys_server y) w.
Proof.
  apply (run_done _ (fun _ w => wire 7 (w_trace w) = replies [] (new_client 7) opening ++ frames [rtp])
    _ (exists r, In (Deliver r) around_client /\ er_fd r <> 7)).
  - by vm_compute.
  - apply (client_gets_replies_and_packets (K := piecewise) 7 opening two_clients (new_client 7) world0);
      [exact opening_opens|reflexivity|exact around_client_ok|by vm_compute].
Defined.
