(* ===== verification/Broadcast.v ===== *)
(** * A whole broadcast

    [RtspServer::BroadcastRtp], run to its end: which sessions it forwards to, what it
    makes of them, and what it leaves alone. *)
From stdpp Require Import gmap.
From S2P Require Import Prelude Status OrderedMap Kernel SampleKernel ByteQueue RingBuf FdGuard.
From S2P Require Import Owner Sock Epoll Conn Forwarder Session Server ServerInv Footprint.
From S2P Require Import Serving Threads Delivery.

Section broadcast.
Context `{K : Kernel} `{KL : !KernelLaws} {Q : Type} `{BQ : !ByteQueue Q}
  `{BL : !ByteQueueLaws Q}.
Implicit Types v : rtsp_server Q.
Implicit Types s : rtsp_session Q.

(** At some point [p] was forwarded for [s], with or without success. *)
Definition forwarded (p : RtpPacket) s (ok : bool) s1 : Prop :=
  exists w st w1, RtspSession.ForwardRtp s p w = Done (st, s1) w1 /\ Status.ok st = ok.

(** The session at [fd] was forwarded the packet once, and accounted; it is one of
    those cut off, [cut], exactly if that was the failure that reaches the limit. *)
Definition served_once (p : RtpPacket) v v' (cut : list Z) (fd : Z) : Prop :=
  forall s, om_find fd (sessions_ v) = Some s ->
  exists ok s1 s', forwarded p s ok s1 /\ om_find fd (sessions_ v') = Some s' /\
    accounted ok s1 s' /\ (fd ∈ cut <-> cuts ok s1 = true).

(** A broadcast of [p] to the sessions [fds]. *)
Record broadcast_to (p : RtpPacket) (fds : list Z) v v' (cut : list Z) : Prop := {
  bc_served fd : fd ∈ fds -> served_once p v v' cut fd;
  bc_others fd : fd ∉ fds -> om_find fd (sessions_ v') = om_find fd (sessions_ v);
  bc_cut : NoDup cut /\ cut ⊆ fds;
  bc_count : u64 (total_dropped_sessions_ v') = u64 (total_dropped_sessions_ v + len cut);
}.

Lemma broadcast_to_nil p v : broadcast_to p [] v v [].
Proof.
  split; [by intros fd ?%not_elem_of_nil|done|by split; [constructor|]|].
  by rewrite len_nil, Z.add_0_r.
Qed.

(** One turn before the others. *)
Lemma broadcast_to_cons p fd fds v v1 v' cut ok s s1 s' :
  fd ∉ fds -> om_find fd (sessions_ v) = Some s -> forwarded p s ok s1 ->
  om_find fd (sessions_ v1) = Some s' -> accounted ok s1 s' ->
  (forall k, k <> fd -> om_find k (sessions_ v1) = om_find k (sessions_ v)) ->
  total_dropped_sessions_ v1 =
    (if cuts ok s1 then u64 (total_dropped_sessions_ v + 1) else total_dropped_sessions_ v) ->
  broadcast_to p fds v1 v' cut ->
  broadcast_to p (fd :: fds) v v' (if cuts ok s1 then fd :: cut else cut).
Proof.
  intros Hnot Hf Hfw Hf1 Ha Hother Hdrop [Hserved Hrest [Hnd Hsub] Hcount].
  assert (Hcut : fd ∉ cut) by (intros H; by apply Hnot, Hsub).
  split.
  - intros k Hk s0 Hs0. destruct (decide (k = fd)) as [->|Hne].
    + exists ok, s1, s'. rewrite Hf in Hs0. injection Hs0 as <-. rewrite Hrest by done.
      split_and!; try done. destruct (cuts ok s1); [|done].
      split; [done|intros _; apply list_elem_of_here].
    + apply elem_of_cons in Hk as [|Hk]; [done|].
      destruct (Hserved k Hk s0) as (ok' & t1 & t' & H1 & H2 & H3 & H4); [by rewrite Hother|].
      exists ok', t1, t'. split_and!; try done. rewrite <-H4.
      destruct (cuts ok s1); [|done]. rewrite elem_of_cons. intuition congruence.
  - intros k [Hne Hk]%not_elem_of_cons. by rewrite Hrest, Hother.
  - destruct (cuts ok s1).
    + split; [by constructor|]. intros k [->|Hk]%elem_of_cons; [apply list_elem_of_here|].
      apply list_elem_of_further. by apply Hsub.
    + split; [done|]. intros k Hk. apply list_elem_of_further. by apply Hsub.
  - rewrite Hcount, Hdrop. destruct (cuts ok s1); [|done].
    rewrite len_cons. unfold u64. rewrite Zplus_mod_idemp_l. f_equal. lia.
Qed.

Lemma wp_broadcast_loop p fds v w :
  packet_ok p -> NoDup fds -> objects_sorted v -> detached_ v = [] ->
  (forall fd, fd ∈ fds -> exists s, om_find fd (sessions_ v) = Some s /\ session_ok s) ->
  wp (RtspServer.broadcast_loop p v fds) (fun v' _ =>
    detached_ v' = [] /\ exists cut, broadcast_to p fds v v' cut) w.
Proof.
  intros Hp Hnd. revert v w. induction Hnd as [|fd fds Hnot Hnd IH]; intros v w Hs Hd Hin;
    cbn [RtspServer.broadcast_loop].
  { wp_step. split; [done|]. exists []. apply broadcast_to_nil. }
  destruct (Hin fd (list_elem_of_here _ _)) as (s & Hf & Hok).
  assert (Hobj : forall v0 k, detached_ v0 = [] -> find_object v0 k = om_find k (sessions_ v0))
    by (intros v0 k H0; unfold find_object; by rewrite H0).
  wp_step. apply wp_broadcast_one; [done|]. rewrite Hobj, Hf by done.
  pose proof (wp_ForwardRtp_ends s p w Hok Hp) as Hfw. unfold wp in Hfw |- *.
  destruct (RtspSession.ForwardRtp s p w) as [[st s1] w1|] eqn:Hrun; [|done].
  intros v1 w2 s' [Hs1 Hother _ Hd1] Hf1 Ha Hdrop. specialize (Hd1 Hd).
  rewrite Hobj in Hf1 by done.
  assert (Hsame : forall k, k <> fd -> om_find k (sessions_ v1) = om_find k (sessions_ v))
    by (intros k Hk; specialize (Hother k Hk); by rewrite !Hobj in Hother).
  eapply wp_mono; [apply IH; [done|done|]|].
  - intros k Hk. destruct (Hin k) as (t & Ht & Hokt); [by apply list_elem_of_further|].
    exists t. split; [|done]. rewrite Hsame; [done|]. by intros ->.
  - intros v' w' [Hd' (cut & Hbc)]. split; [done|].
    exists (if cuts (Status.ok st) s1 then fd :: cut else cut).
    eapply broadcast_to_cons; try done. by exists w, st, w1.
Qed.

(** The loop writes to the connections of the sessions it serves only. *)
Lemma does_broadcast_loop p fds v :
  server_ok v -> packet_ok p ->
  does (io_within nowhere (fun k => k ∈ fds)) (RtspServer.broadcast_loop p v fds) (fun _ => True).
Proof.
  intros Hok Hp. revert v Hok. induction fds as [|fd fds IH]; intros v Hok;
    cbn [RtspServer.broadcast_loop]; [by does_step|]. does_step.
  assert (Hone : does (io_within nowhere (eq fd)) (RtspServer.broadcast_one p v fd)
    (fun _ => True)).
  { unfold RtspServer.broadcast_one. destruct (find_object v fd) as [s|] eqn:Hf; [|by does_step].
    does_step. eapply does_weaken.
    { eapply does_ForwardRtp. destruct (find_object_stored _ _ _ Hok Hf). done. }
    intros [st s1] _. eapply does_mono; [eapply does_broadcast_account| |done];
      [by apply objects_sorted_ok|done|]. intros c. by apply io_within_mono. }
  assert (Hown : owns (RtspServer.broadcast_one p v fd) (fun v' _ => server_ok v') (fun _ => 0))
    by (apply owns_broadcast_one; [done|done|]; by intros ? ? ? _ _).
  eapply does_mono; [exact (does_owned _ _ _ _ _ Hone Hown)| |].
  - intros c. apply io_within_mono; [done|]. intros k <-. apply list_elem_of_here.
  - intros v1 [_ [_ Hok1]]. eapply does_mono; [by apply IH| |done].
    intros c. apply io_within_mono; [done|]. intros k. by apply list_elem_of_further.
Qed.

(** C22: What a broadcast does.  A server that is not running refuses it, without any
    effect.  Otherwise it succeeds, and forwards the packet to exactly the sessions
    that play, once each: a session whose forwarding succeeded has its count of
    consecutive drops reset, one whose forwarding failed has one more, and is torn
    down exactly when that makes a hundred; the server counts the sessions it tears
    down.  Sessions that do not play are left as they are, and nothing is written to
    their connections or read from any. *)
Theorem BroadcastRtp_serves_players p v w :
  server_ok v -> snapshot_ v = [] -> packet_ok p ->
  wp (RtspServer.BroadcastRtp v p) (fun '(st, v') w' =>
    if server_running_ v then
      st = Status.Ok /\
      (exists players cut, broadcast_to p players v v' cut /\
        (forall fd, fd ∈ players <-> exists s,
          om_find fd (sessions_ v) = Some s /\ state_ s = SessionState.kPlaying) /\
        forall fd, fd ∉ players -> wire fd (w_trace w') = wire fd (w_trace w)) /\
      forall fd, Footprint.received fd (w_trace w') = Footprint.received fd (w_trace w)
    else st = Status.FailedPrecondition (lit "server not running") /\ v' = v /\ w' = w) w.
Proof.
  intros Hok Hn Hp. unfold RtspServer.BroadcastRtp, RtspServer.IsRunning.
  destruct (server_running_ v); cbn [negb]; [|by wp_step].
  destruct (take_snapshot_ok v Hok Hn) as (Hok1 & Hd & _).
  set (fds := RtspServer.playing_fds v). pose proof (ok_sorted _ Hok) as Hso.
  change (snapshot_ (RtspServer.take_snapshot v)) with fds. cbv zeta. wp_step.
  pose proof (wp_broadcast_loop p fds (RtspServer.take_snapshot v) w Hp
    (playing_fds_NoDup v Hso) (objects_sorted_ok _ Hok1) eq_refl) as Hloop.
  pose proof (does_broadcast_loop p fds _ Hok1 Hp) as Hdoes. unfold wp in Hloop |- *.
  destruct (RtspServer.broadcast_loop _ _ _ w) as [v1 w1|] eqn:Hrun.
  2: { apply Hloop. intros fd (s & Hf & _)%playing_fds_spec; [|done].
    exists s. split; [done|]. by destruct (om_find_stored _ _ _ Hok Hf). }
  destruct Hloop as [Hd1 (cut & Hbc)].
  { intros fd (s & Hf & _)%playing_fds_spec; [|done].
    exists s. split; [done|]. by destruct (om_find_stored _ _ _ Hok Hf). }
  change (wp (v ← RtspServer.drop_snapshot v1; mret (Status.Ok, v)) (fun '(st, v') w' =>
    st = Status.Ok /\
      (exists players cut, broadcast_to p players v v' cut /\
        (forall fd, fd ∈ players <-> exists s,
          om_find fd (sessions_ v) = Some s /\ state_ s = SessionState.kPlaying) /\
        forall fd, fd ∉ players -> wire fd (w_trace w') = wire fd (w_trace w)) /\
      forall fd, Footprint.received fd (w_trace w') = Footprint.received fd (w_trace w)) w1).
  unfold RtspServer.drop_snapshot. rewrite Hd1. cbn [RtspServer.destroy_all]. wp_steps.
  split; [done|]. split; [exists fds, cut; split; [|split]|].
  - by destruct Hbc; split.
  - intros fd. by apply playing_fds_spec.
  - intros fd Hfd. exact (does_wire fd _ _ _ _ _ _ _ Hdoes Hfd Hrun).
  - intros fd. exact (does_received fd _ _ _ _ _ _ _ Hdoes (fun H => H) Hrun).
Qed.
End broadcast.

(** ** Witness *)

(** The client of 7 plays and has failed 99 times, the one of 8 does not play. *)
Definition mixed_audience : rtsp_server ring_buffer :=
  with_sessions two_clients
    [(7, session_with (ring_of 8 []) SessionState.kPlaying 99); (8, new_client 8)].

Lemma mixed_audience_ok : server_ok mixed_audience.
Proof.
  split; [by vm_compute|by vm_compute|by vm_compute|done|].
  split; [|by repeat constructor|constructor|constructor|by intros ? ?%not_elem_of_nil|done].
  repeat constructor; cbn; try done; try (split; vm_compute; repeat split; discriminate); by vm_compute.
Defined.

(** A packet over the size limit: the client of 7 is torn down and counted. *)
Lemma BroadcastRtp_serves_players_witness :
  wp (RtspServer.BroadcastRtp (K := sample_kernel accepting) mixed_audience large_packet)
    (fun '(st, v') w' =>
      st = Status.Ok /\ total_dropped_sessions_ v' = 1 /\
      (state_ <$> om_find 7 (sessions_ v')) = Some SessionState.kTeardown /\
      exists players cut, broadcast_to (K := sample_kernel accepting) large_packet players
        mixed_audience v' cut) world0.
Proof.
  pose proof (BroadcastRtp_serves_players (K := sample_kernel accepting) large_packet
    mixed_audience world0 mixed_audience_ok eq_refl) as H.
  assert (Hrun : wp (RtspServer.BroadcastRtp (K := sample_kernel accepting) mixed_audience large_packet)
    (fun '(st, v') w' => total_dropped_sessions_ v' = 1 /\
      (state_ <$> om_find 7 (sessions_ v')) = Some SessionState.kTeardown) world0)
    by (vm_compute; by split).
  assert (Hp : packet_ok large_packet) by (intros m [= <-]; by vm_compute).
  specialize (H Hp). unfold wp in *. destruct (RtspServer.BroadcastRtp _ _ _) as [[st v'] w'|]; [|done].
  change (server_running_ mixed_audience) with true in H.
  destruct H as (H1 & (players & cut & H2 & _) & _). destruct Hrun as [H3 H4].
  split; [exact H1|]. split; [exact H3|]. split; [exact H4|]. exists players, cut. exact H2.
Defined.
