(* ===== verification/Api.v ===== *)
(** * The C interface (src/include/rtsp_forward.h, src/src/api/rtsp_forward.cc)

    A handle is a pointer to the internal structure, whose [impl] is a pointer to
    the server: both may be null.  A [const char*] argument is the bytes before
    its terminator.  The outcome of each [new (std::nothrow)] is an argument.  The
    identifier of the logging module (src/src/util/log.h) is here too. *)
From S2P Require Import Prelude Status OrderedMap Kernel SampleKernel ByteQueue RingBuf.
From S2P Require Import FdGuard Owner Sock Epoll Conn Forwarder Session Server ServerInv Serving.

Definition RTSP_OK : Z := 0.
Definition RTSP_ERROR : Z := -1.
Definition RTSP_INVALID_ARGUMENT : Z := -2.
Definition RTSP_NETWORK_ERROR : Z := -3.
Definition RTSP_CLOSED : Z := -4.
Definition RTSP_BUFFER_FULL : Z := -5.
Definition RTSP_PARSE_ERROR : Z := -6.
Definition RTSP_NOT_IMPLEMENTED : Z := -7.
Definition RTSP_TIMEOUT : Z := -8.
Definition RTSP_LIMIT_EXCEEDED : Z := -9.
Definition RTSP_OUT_OF_MEMORY : Z := -10.
Definition RTSP_ALREADY_STARTED : Z := -11.
Definition RTSP_NOT_STARTED : Z := -12.
Definition RTSP_UNSUPPORTED_TRANSPORT : Z := -13.
Definition RTSP_INTERNAL_ERROR : Z := -14.

Record RtspForwardConfig := mkConfig {
  cfg_port : Z;
  cfg_ip : option bytes;
  cfg_max_sessions : Z;
  cfg_buffer_size : Z;
  cfg_sdp_content : option bytes;
  cfg_connection_timeout_sec : Z;
  cfg_session_timeout_sec : Z;
}.

Definition handle (Q : Type) : Type := option (option (rtsp_server Q)).

(** ** The logging module and the version

    [GetLogModuleId] keeps the identifier in a static variable of the function,
    here [id]; [log_kit_register] is the logging library's.  The build provides the
    version, the compiler the date and time. *)
Section identity.
Variable log_kit_register : bytes -> Z.

Definition GetLogModuleId (id : option Z) : Z * option Z :=
  match id with
  | Some i => (i, id)
  | None => let i := log_kit_register (lit "rtsp_forward") in (i, Some i)
  end.

Definition rtsp_forward_get_log_module_id (id : option Z) : Z * option Z := GetLogModuleId id.

(** The identifier does not change once it is given. *)
Lemma module_id_stable id :
  let '(i, id1) := rtsp_forward_get_log_module_id id in
  rtsp_forward_get_log_module_id id1 = (i, id1).
Proof. by destruct id. Qed.
End identity.

Definition rtsp_forward_version_string (version date time : bytes) : bytes :=
  version ++ lit " Built at " ++ date ++ lit " " ++ time.

Section api.
Context `{K : Kernel} {Q : Type} `{BQ : !ByteQueue Q}.
Implicit Types h : handle Q.
Implicit Types v : rtsp_server Q.

(** The part of [rtsp_forward_create] from the first allocation on; the code and
    what is stored in [*server]. *)
Definition create_server (ip : bytes) (port max_sessions buffer_size : Z)
    (sdp_content : option bytes) (connection_timeout_sec session_timeout_sec : Z)
    (internal_ok impl_ok : bool) : Z * handle Q :=
  if negb internal_ok then (RTSP_OUT_OF_MEMORY, None)
  else if negb impl_ok then (RTSP_OUT_OF_MEMORY, None)
  else
    let v := RtspServer.RtspServer ip port max_sessions buffer_size connection_timeout_sec
               session_timeout_sec in
    let v := match sdp_content with Some sdp => RtspServer.SetSdp v sdp | None => v end in
    (RTSP_OK, Some (Some v)).

(** [server] tells whether the out pointer is non-null; the second result is what
    is stored through it. *)
Definition rtsp_forward_create (server : bool) (config : option RtspForwardConfig)
    (internal_ok impl_ok : bool) : Z * option (handle Q) :=
  if negb server then (RTSP_INVALID_ARGUMENT, None)
  else
    let invalid := (RTSP_INVALID_ARGUMENT, Some None) in
    let stored (r : Z * handle Q) := (fst r, Some (snd r)) in
    match config with
    | None =>
      stored (create_server kDefaultBindIp kDefaultPort kDefaultMaxSessions kDefaultBufferSize
                None kDefaultConnectionTimeoutSec kDefaultSessionTimeoutSec internal_ok impl_ok)
    | Some c =>
      let ip := default kDefaultBindIp (cfg_ip c) in
      if (cfg_port c <=? 0) || (65535 <? cfg_port c) then invalid
      else if cfg_max_sessions c <=? 0 then invalid
      else if cfg_buffer_size c =? 0 then invalid
      else if cfg_connection_timeout_sec c <? 0 then invalid
      else if cfg_session_timeout_sec c <? 0 then invalid
      else
        stored (create_server ip (cfg_port c) (cfg_max_sessions c) (cfg_buffer_size c)
                  (cfg_sdp_content c) (cfg_connection_timeout_sec c)
                  (cfg_session_timeout_sec c) internal_ok impl_ok)
    end.

Definition rtsp_forward_destroy h : M Z :=
  match h with
  | None => mret RTSP_INVALID_ARGUMENT
  | Some None => mret RTSP_OK
  | Some (Some v) => _ ← RtspServer.destroy v; mret RTSP_OK
  end.

Definition start_code (st : status) : Z :=
  if Status.ok st then RTSP_OK
  else match Status.code st with
  | kInvalidArgument => RTSP_INVALID_ARGUMENT
  | kNetworkError => RTSP_NETWORK_ERROR
  | _ => RTSP_ERROR
  end.

Definition rtsp_forward_start h : M (Z * handle Q) :=
  match h with
  | Some (Some v) =>
    if RtspServer.IsRunning v then mret (RTSP_ALREADY_STARTED, h)
    else '(st, v) ← RtspServer.Start v; mret (start_code st, Some (Some v))
  | _ => mret (RTSP_INVALID_ARGUMENT, h)
  end.

Definition rtsp_forward_stop h : M (Z * handle Q) :=
  match h with
  | Some (Some v) =>
    if negb (RtspServer.IsRunning v) then mret (RTSP_NOT_STARTED, h)
    else v ← RtspServer.Stop v; mret (RTSP_OK, Some (Some v))
  | _ => mret (RTSP_INVALID_ARGUMENT, h)
  end.

(** Bounded to [n] turns of the event loop *)
Definition rtsp_forward_run (n : nat) h : M (Z * handle Q) :=
  match h with
  | Some (Some v) =>
    if negb (RtspServer.IsRunning v) then mret (RTSP_NOT_STARTED, h)
    else v ← RtspServer.Run n v; mret (RTSP_OK, Some (Some v))
  | _ => mret (RTSP_INVALID_ARGUMENT, h)
  end.

Definition send_code (st : status) : Z :=
  if Status.ok st then RTSP_OK
  else match Status.code st with
  | kInvalidArgument => RTSP_INVALID_ARGUMENT
  | kBufferFull => RTSP_BUFFER_FULL
  | kLimitExceeded => RTSP_LIMIT_EXCEEDED
  | kFailedPrecondition => RTSP_NOT_STARTED
  | _ => RTSP_ERROR
  end.

Definition rtsp_forward_send_rtp h (data : ptr) (n stream_index : Z) : M (Z * handle Q) :=
  match h with
  | Some (Some v) =>
    if negb (RtspServer.IsRunning v) then mret (RTSP_NOT_STARTED, h)
    else match data with
    | None => mret (RTSP_INVALID_ARGUMENT, h)
    | Some _ =>
      if n =? 0 then mret (RTSP_INVALID_ARGUMENT, h)
      else if negb (stream_index =? 0) && negb (stream_index =? 1)
      then mret (RTSP_INVALID_ARGUMENT, h)
      else
        '(st, v) ← RtspServer.BroadcastRtp v (mkRtpPacket data n stream_index);
        mret (send_code st, Some (Some v))
    end
  | _ => mret (RTSP_INVALID_ARGUMENT, h)
  end.

Definition rtsp_forward_set_sdp h (sdp : option bytes) : Z * handle Q :=
  match h with
  | Some (Some v) => (RTSP_OK, Some (Some (RtspServer.SetSdp v (default [] sdp))))
  | _ => (RTSP_INVALID_ARGUMENT, h)
  end.

(** [info] tells whether the out pointer is non-null; the information stored. *)
Definition rtsp_forward_get_info h (info : bool) : M (Z * option RtspForwardInfo) :=
  match h with
  | None => mret (RTSP_INVALID_ARGUMENT, None)
  | Some impl =>
    if negb info then mret (RTSP_INVALID_ARGUMENT, None)
    else match impl with
    | None => mret (RTSP_INVALID_ARGUMENT, None)
    | Some v => i ← RtspServer.GetInfo v; mret (RTSP_OK, Some i)
    end
  end.

(** ** Uses of a handle *)

Inductive api_call :=
  | CallStart
  | CallStop
  | CallRun (n : nat)
  | CallSendRtp (data : ptr) (n stream_index : Z)
  | CallSetSdp (sdp : option bytes)
  | CallGetInfo (info : bool).

(** The call's code, the handle after it. *)
Definition api_step (call : api_call) h : M (Z * handle Q) :=
  match call with
  | CallStart => rtsp_forward_start h
  | CallStop => rtsp_forward_stop h
  | CallRun n => rtsp_forward_run n h
  | CallSendRtp data n i => rtsp_forward_send_rtp h data n i
  | CallSetSdp sdp => mret (rtsp_forward_set_sdp h sdp)
  | CallGetInfo info => '(code, _) ← rtsp_forward_get_info h info; mret (code, h)
  end.

Fixpoint api_run (calls : list api_call) h : M (list Z * handle Q) :=
  match calls with
  | [] => mret ([], h)
  | call :: calls =>
    '(code, h) ← api_step call h;
    '(codes, h) ← api_run calls h;
    mret (code :: codes, h)
  end.
End api.
Arguments handle : clear implicits.

(** ** Facts *)
Section facts.
Context `{K : Kernel} `{KL : !KernelLaws} {Q : Type} `{BQ : !ByteQueue Q}
  `{BL : !ByteQueueLaws Q}.
Implicit Types h : handle Q.
Implicit Types v : rtsp_server Q.

Definition handle_ok h : Prop :=
  match h with Some (Some v) => server_ok v /\ snapshot_ v = [] | _ => True end.

(** What the caller promises: the packet is as long as he says, and a description
    is of reasonable length. *)
Definition call_ok (call : api_call) : Prop :=
  match call with
  | CallSendRtp data n _ => forall m, data = Some m -> 0 <= n <= len m
  | CallSetSdp (Some sdp) => len sdp < 2 ^ 62
  | _ => True
  end.

Definition held_handle h : list Z :=
  match h with Some (Some v) => held_server v | _ => [] end.

Lemma owns_get_info h info Post L :
  (forall r L', (forall x, L' x = L x) -> Post r L') ->
  owns (rtsp_forward_get_info h info) Post L.
Proof.
  intros HP. destruct h as [[v|]|]; cbn [rtsp_forward_get_info];
    [destruct info; cbn [negb]|destruct info; cbn [negb]|].
  - unfold RtspServer.GetInfo. repeat own_step. apply HP. settle.
  - own_step. apply HP. settle.
  - own_step. apply HP. settle.
  - own_step. apply HP. settle.
  - own_step. apply HP. settle.
Qed.

(** A call's run: the handle is good again and the ledger moved with it. *)
Definition handle_steps h (Post : Z * handle Q -> ledger -> Prop) (L : ledger) : Prop :=
  forall code h' L', handle_ok h' ->
    (forall x, L' x - cnt x (held_handle h') = L x - cnt x (held_handle h)) ->
    Post (code, h') L'.

Lemma owns_api_step call h Post L :
  handle_ok h -> call_ok call -> handle_steps h Post L -> owns (api_step call h) Post L.
Proof.
  intros Hh Hcall HP.
  assert (Hskip : forall code L', (forall x, L' x = L x) -> Post (code, h) L')
    by (intros code L' HL; apply HP; [done|]; settle).
  assert (Hret : forall code, owns (mret (code, h)) Post L) by (intros; own_step; by apply Hskip).
  destruct h as [[v|]|]; [|destruct call as [| | | | |[]]; unfold api_step;
    cbn [rtsp_forward_start rtsp_forward_stop rtsp_forward_run rtsp_forward_send_rtp
      rtsp_forward_set_sdp rtsp_forward_get_info negb]; try apply Hret;
    own_step; own_step; own_step; by apply Hskip..].
  destruct Hh as [Hok Hn].
  assert (Hv : forall v' L', server_ok v' -> fixed v' = fixed v ->
    (forall x, L' x - cnt x (held_server v') = L x - cnt x (held_server v)) ->
    forall code L2, (forall x, L2 x = L' x) -> Post (code, Some (Some v')) L2).
  { intros v' L' Hv1 Hf Hv2 code L2 H2. injection Hf as _ Hf. apply HP; [split; congruence|].
    intros x. specialize (Hv2 x). specialize (H2 x). cbn [held_handle]. lia. }
  destruct call as [| |n|data n i|sdp|info]; cbn [api_step].
  - unfold rtsp_forward_start, RtspServer.IsRunning.
    destruct (server_running_ v) eqn:Hr; [apply Hret|].
    own_step. apply owns_Start; [done|done|]. intros st v' L' H1 Hf H2. own_step. by eapply Hv.
  - unfold rtsp_forward_stop. destruct (negb _); [apply Hret|].
    own_step. apply owns_Stop; [done|]. intros v' L' H1 Hf _ H2. own_step. by eapply Hv.
  - unfold rtsp_forward_run. destruct (negb _); [apply Hret|].
    own_step. apply owns_Run; [done|]. intros v' L' H1 Hf H2. own_step. by eapply Hv.
  - unfold rtsp_forward_send_rtp. destruct (negb _); [apply Hret|].
    destruct data as [m|]; [|apply Hret]. destruct (n =? 0); [apply Hret|].
    destruct (_ && _); [apply Hret|].
    own_step. apply owns_BroadcastRtp; [done|done|done|]. intros st v' L' H1 Hf H2.
    own_step. by eapply Hv.
  - own_step. cbn [rtsp_forward_set_sdp].
    destruct (steps_same v (RtspServer.SetSdp v (default [] sdp))
      (fun v' L' => Post (RTSP_OK, Some (Some v')) L') L) as (H1 & H2 & _); try done.
    { cbn. by destruct sdp as [sdp|]. }
    eapply (Hv _ L); [done|done|by rewrite H2|done].
  - own_step. apply owns_get_info. intros [code i] L1 H1. own_step. apply Hskip. settle.
Qed.

Lemma owns_api_run calls h Post L :
  handle_ok h -> Forall call_ok calls ->
  (forall codes h' L', handle_ok h' ->
    (forall x, L' x - cnt x (held_handle h') = L x - cnt x (held_handle h)) ->
    Post (codes, h') L') ->
  owns (api_run calls h) Post L.
Proof.
  intros Hok Hcalls. revert h L Post Hok.
  induction Hcalls as [|call calls Hcall Hcalls IH]; intros h L Post Hok HP; cbn [api_run].
  { own_step. apply HP; [done|settle]. }
  own_step. apply owns_api_step; [done|done|]. intros code h1 L1 Hok1 H1.
  own_step. apply IH; [done|]. intros codes h2 L2 Hok2 H2. own_step. apply HP; [done|settle].
Qed.

Lemma owns_destroy_handle h Post L :
  handle_ok h ->
  (forall code L', (forall x, L' x = L x - cnt x (held_handle h)) -> Post code L') ->
  owns (rtsp_forward_destroy h) Post L.
Proof.
  intros Hok HP. destruct h as [[v|]|]; cbn [rtsp_forward_destroy held_handle handle_ok] in *.
  - own_step. destruct Hok. apply owns_destroy_server; [done|done|]. intros L2 H2.
    own_step. apply HP. settle.
  - own_step. apply HP. settle.
  - own_step. apply HP. settle.
Qed.

(** A configuration [rtsp_forward_create] accepts. *)
Definition valid_config (c : RtspForwardConfig) : bool :=
  (1 <=? cfg_port c) && (cfg_port c <=? 65535) && (1 <=? cfg_max_sessions c) &&
  negb (cfg_buffer_size c =? 0) && (0 <=? cfg_connection_timeout_sec c) &&
  (0 <=? cfg_session_timeout_sec c).

(** The server a configuration, or none, asks for. *)
Definition configured (config : option RtspForwardConfig) : rtsp_server Q :=
  match config with
  | None =>
    RtspServer.RtspServer (lit "0.0.0.0") 554 10 65536 30 60
  | Some c =>
    RtspServer.SetSdp
      (RtspServer.RtspServer (default (lit "0.0.0.0") (cfg_ip c)) (cfg_port c)
         (cfg_max_sessions c) (cfg_buffer_size c) (cfg_connection_timeout_sec c)
         (cfg_session_timeout_sec c)) (default [] (cfg_sdp_content c))
  end.

Lemma create_valid config m1 m2 :
  rtsp_forward_create (Q := Q) true config m1 m2 =
  if negb (from_option valid_config true config) then (RTSP_INVALID_ARGUMENT, Some None)
  else if m1 && m2 then (RTSP_OK, Some (Some (Some (configured config))))
  else (RTSP_OUT_OF_MEMORY, Some None).
Proof.
  unfold rtsp_forward_create, create_server. destruct config as [c|]; cbn [from_option negb].
  - assert (valid_config c = negb ((cfg_port c <=? 0) || (65535 <? cfg_port c)) &&
      negb (cfg_max_sessions c <=? 0) && negb (cfg_buffer_size c =? 0) &&
      negb (cfg_connection_timeout_sec c <? 0) && negb (cfg_session_timeout_sec c <? 0)) as ->.
    { unfold valid_config. repeat f_equal; zcases. }
    destruct (_ || _); [done|]. destruct (_ <=? _); [done|]. destruct (_ =? _); [done|].
    destruct (cfg_connection_timeout_sec c <? 0); [done|].
    destruct (cfg_session_timeout_sec c <? 0); [done|]. cbn [negb andb].
    destruct m1, m2; cbn; try done. by destruct (cfg_sdp_content c).
  - by destruct m1, m2.
Qed.

(** A buffer size in range, a description of reasonable length. *)
Definition config_bounded (config : option RtspForwardConfig) : Prop :=
  forall c, config = Some c ->
    0 <= cfg_buffer_size c < 2 ^ 63 /\ len (default [] (cfg_sdp_content c)) < 2 ^ 62.

Lemma configured_ok config :
  from_option valid_config true config = true -> config_bounded config ->
  handle_ok (Some (Some (configured config))) /\ held_server (configured config) = [].
Proof.
  intros Hv Hb. split; [split; [|by destruct config]|by destruct config].
  assert (Hsizes : 0 < buffer_size_ (configured config) < 2 ^ 63 /\
    0 <= u64 (max_sessions_ (configured config)) /\ len (sdp_ (configured config)) < 2 ^ 62).
  { split; [|split; [unfold u64; apply Z.mod_pos_bound; lia|]];
      (destruct config as [c|]; [destruct (Hb c eq_refl)|]; cbn in *; [|vm_compute; done]); [|done].
    unfold valid_config in Hv. rewrite !andb_true_iff, negb_true_iff, Z.eqb_neq in Hv. lia. }
  destruct Hsizes as (H1 & H2 & H3). destruct config;
    (split; cbn in *; [done..|apply registry_empty]).
Qed.

(** ** Properties *)

(** C1: No descriptor is leaked or closed twice over the life of a handle, and
    nothing goes wrong silently.  Create a handle, make any sequence of calls on it
    -- start, stop, any number of turns of the event loop, packets as long as their
    caller says, new descriptions, queries -- and destroy it: every loop ends, the
    only ways the run can fail are an abort for want of memory and undefined
    behaviour inside the parser, and otherwise every descriptor was closed exactly
    as often as the kernel opened it. *)
Theorem handle_life_conserves config m1 m2 h calls w :
  config_bounded config -> Forall call_ok calls ->
  rtsp_forward_create (Q := Q) true config m1 m2 = (RTSP_OK, Some h) ->
  let life :=
    '(codes, h) ← api_run calls h;
    code ← rtsp_forward_destroy h;
    mret (codes, code) in
  match life w with
  | Done _ w' => forall x, net x (w_trace w') = net x (w_trace w)
  | Fault f => f = ProcessAborted \/ f = UndefinedBehaviour InParser
  end.
Proof.
  intros Hb Hcalls Hc life. rewrite create_valid in Hc.
  destruct (from_option valid_config true config) eqn:Hv; [|done]. cbn [negb] in Hc.
  destruct (m1 && m2); [|done]. injection Hc as <-.
  destruct (configured_ok config Hv Hb) as [Hok Hheld].
  assert (Hown : owns life (fun _ L => forall x, L x = 0) (fun _ => 0)).
  { unfold life. own_step. apply owns_api_run; [done|done|]. intros codes h' L1 Hok1 H1.
    cbn [held_handle] in H1. rewrite Hheld in H1. own_step.
    apply owns_destroy_handle; [done|]. intros code L2 H2. own_step. settle. }
  destruct (life w) as [r w'|f] eqn:Hr.
  - intros x. pose proof (owns_elim _ _ _ _ _ _ Hown Hr x) as H. cbv beta in H. lia.
  - apply tolerated_faults. by eapply owns_fault.
Qed.

(** What [rtsp_forward_create] accepts: no configuration, which gives the
    documented defaults, or a port in 1..65535, a positive number of sessions, a
    non-zero buffer size and timeouts that are not negative; every field then is
    the configuration's, a missing address or description the default.  Anything
    else is refused, running out of memory is reported, and in both cases the
    caller's handle is null. *)
Theorem create_outcomes server config m1 m2 :
  rtsp_forward_create (Q := Q) server config m1 m2 =
  if negb server then (RTSP_INVALID_ARGUMENT, None)
  else if negb (from_option valid_config true config) then (RTSP_INVALID_ARGUMENT, Some None)
  else if m1 && m2 then (RTSP_OK, Some (Some (Some (configured config))))
  else (RTSP_OUT_OF_MEMORY, Some None).
Proof. destruct server; [apply create_valid|done]. Qed.

Lemma wlp_Start v w :
  server_running_ v = false ->
  wlp (RtspServer.Start v) (fun '(st, v') _ => server_running_ v' = Status.ok st) w.
Proof.
  intros Hr. unfold RtspServer.Start.
  assert (Hfail : forall (st : status) v' w', server_running_ v' = false -> Status.ok st = false ->
    wlp (mret (st, v')) (fun '(st, v') _ => server_running_ v' = Status.ok st) w').
  { intros st v' w' H1 H2. apply wlp_ret. congruence. }
  apply wlp_skip. intros [st1 g] w1. destruct (Status.ok st1) eqn:H1; cbn [negb]; [|by apply Hfail].
  apply wlp_skip. intros [st2 l] w2. destruct (Status.ok st2) eqn:H2; cbn [negb]; [|by apply Hfail].
  apply wlp_skip. intros [st3 l3] w3. destruct (Status.ok st3) eqn:H3; cbn [negb]; [|by apply Hfail].
  apply wlp_skip. intros a w4. destruct (_ <? 0); [by apply Hfail|].
  apply wlp_skip. intros b w5. destruct (_ <? 0); [apply wlp_skip; intros; by apply Hfail|].
  unfold RtspServer.Start_timer.
  apply wlp_skip. intros [st4 l4] w6. destruct (Status.ok st4) eqn:H4; cbn [negb].
  - apply wlp_skip. intros now w7. by apply wlp_ret.
  - apply wlp_skip. intros. by apply Hfail.
Qed.

(** A call that is refused has no effect at all. *)
Definition refused (code : Z) (r : Z * handle Q) (v : rtsp_server Q) (w w' : world) : Prop :=
  r = (code, Some (Some v)) /\ w' = w.

(** C34: The life cycle seen through the interface.  Starting succeeds exactly when
    the server runs afterwards, and a running server refuses to start again;
    stopping leaves it stopped and without sessions; stopping, running and sending
    are refused, without any effect, while the server is not running.  Sending on a
    running server refuses a null or empty packet and a stream other than 0 and 1,
    and otherwise reports success, whatever became of the packet. *)
Theorem api_life_cycle v call w :
  let running := server_running_ v in
  wlp (api_step call (Some (Some v))) (fun r w' =>
    match call with
    | CallStart =>
      if running then refused RTSP_ALREADY_STARTED r v w w'
      else exists v', snd r = Some (Some v') /\
        server_running_ v' = bool_decide (fst r = RTSP_OK)
    | CallStop =>
      if running then fst r = RTSP_OK /\ exists v', snd r = Some (Some v') /\
        server_running_ v' = false /\ sessions_ v' = []
      else refused RTSP_NOT_STARTED r v w w'
    | CallRun _ => if running then fst r = RTSP_OK else refused RTSP_NOT_STARTED r v w w'
    | CallSendRtp data n i =>
      if negb running then refused RTSP_NOT_STARTED r v w w'
      else if bool_decide (data = None) || (n =? 0) || negb ((i =? 0) || (i =? 1))
      then refused RTSP_INVALID_ARGUMENT r v w w'
      else fst r = RTSP_OK
    | CallSetSdp sdp =>
      r = (RTSP_OK, Some (Some (RtspServer.SetSdp v (default [] sdp)))) /\ w' = w
    | CallGetInfo info =>
      r = (if info then RTSP_OK else RTSP_INVALID_ARGUMENT, Some (Some v))
    end) w.
Proof.
  intros running. destruct call as [| |n|data n i|sdp|info]; cbn [api_step];
    unfold rtsp_forward_start, rtsp_forward_stop, rtsp_forward_run, rtsp_forward_send_rtp,
      RtspServer.IsRunning; fold running.
  - destruct running eqn:Hr; [by apply wlp_ret|].
    apply wlp_bind. eapply wlp_mono; [by apply wlp_Start|]. intros [st v'] w1 Hst.
    apply wlp_ret. exists v'. split; [done|]. rewrite Hst. cbn [fst]. unfold start_code.
    destruct (Status.ok st); [done|]. by destruct (Status.code st).
  - destruct running eqn:Hr; cbn [negb]; [|by apply wlp_ret].
    apply wlp_bind. eapply wlp_mono; [by apply wlp_Stop|]. intros v' w1 [].
    apply wlp_ret. split; [done|]. by exists v'.
  - destruct running; cbn [negb]; [|by apply wlp_ret].
    apply wlp_skip. intros v' w1. by apply wlp_ret.
  - destruct running eqn:Hr; cbn [negb]; [|by apply wlp_ret].
    destruct data as [m|]; cbn [orb]; [|by apply wlp_ret].
    destruct (n =? 0); cbn [orb bool_decide]; [by apply wlp_ret|].
    destruct (i =? 0), (i =? 1); cbn [negb andb orb]; try (by apply wlp_ret);
      unfold RtspServer.BroadcastRtp, RtspServer.IsRunning; fold running; rewrite Hr; cbn [negb];
      apply wlp_bind, wlp_skip; intros v' w1; apply wlp_skip; intros v2 w2;
      apply wlp_ret, wlp_ret; reflexivity.
  - by apply wlp_ret.
  - unfold rtsp_forward_get_info, RtspServer.GetInfo. by destruct info; cbn [negb]; wlp_steps.
Qed.
End facts.

(** ** Witnesses *)

Definition called (p : syscall -> bool) (tr : list event) : bool :=
  existsb (fun ev => p (fst ev)) tr.

(** A kernel that gives descriptors 3, 4, 5, delivers one connection, on 6, then
    one request on it, and accepts all output. *)
Definition one_client (request : bytes) : list event -> syscall -> answer := fun tr c =>
  match c with
  | SysSocket _ _ _ => returns 3
  | SysEpollCreate => returns 4
  | SysTimerfdCreate => returns 5
  | SysAccept _ => returns 6
  | SysEpollWait _ _ _ =>
    if negb (called (fun c => match c with SysAccept _ => true | _ => false end) tr)
    then mkAnswer 1 0 [] sockaddr_zero [(3, EPOLLIN)]
    else if negb (called (fun c => match c with SysRecv _ _ => true | _ => false end) tr)
    then mkAnswer 1 0 [] sockaddr_zero [(6, EPOLLIN)]
    else returns 0
  | SysRecv _ _ => mkAnswer (len request) 0 request sockaddr_zero []
  | _ => accepting tr c
  end.

Definition options_request : bytes :=
  lit "OPTIONS * RTSP/1.0" ++ crlf ++ lit "CSeq: 7" ++ crlf ++ crlf.

Definition small_config : RtspForwardConfig := mkConfig 8554 None 2 256 None 0 0.

Definition sample_calls : list api_call :=
  [CallStart; CallRun 3; CallSendRtp (Some (lit "rtp")) 3 0; CallGetInfo true].

Definition sample_life {K : Kernel} : M (list Z * Z) :=
  '(codes, h) ← api_run sample_calls (Some (Some (configured (Some small_config))));
  code ← rtsp_forward_destroy (Q := ring_buffer) h;
  mret (codes, code).

(** The client is accepted, its OPTIONS request answered, and everything closed. *)
Example one_client_served :
  match sample_life (K := sample_kernel (one_client options_request)) world0 with
  | Done r w' => r = ([0; 0; 0; 0], 0) /\ closes (w_trace w') = [5; 6; 3; 4] /\
    wire 6 (w_trace w') = lit "RTSP/1.0 200 OK" ++ crlf ++ lit "CSeq: 7" ++ crlf ++
      lit "Public: " ++ kRtspOptionsMethods ++ crlf ++ crlf
  | Fault _ => False
  end.
Proof. vm_compute. repeat split. Qed.

Lemma handle_life_conserves_witness :
  exists r w', sample_life (K := sample_kernel (one_client options_request)) world0 = Done r w' /\
    forall x, net x (w_trace w') = net x (w_trace world0).
Proof.
  pose proof (handle_life_conserves (K := sample_kernel (one_client options_request))
    (Some small_config) true true (Some (Some (configured (Some small_config)))) sample_calls
    world0) as H.
  cbv zeta in H. fold (sample_life (K := sample_kernel (one_client options_request))) in H.
  pose proof one_client_served as Hs.
  destruct (sample_life (K := sample_kernel (one_client options_request)) world0) as [r w'|f].
  - exists r, w'. split; [reflexivity|]. apply H.
    + intros c Hc. injection Hc as <-. repeat split; vm_compute; try discriminate; reflexivity.
    + do 2 (constructor; [exact I|]). constructor; [|constructor; [exact I|constructor]].
      intros m Hm. injection Hm as <-. vm_compute. split; discriminate.
    + reflexivity.
  - destruct Hs.
Defined.
