(* ===== verification/Demo.v ===== *)
(** * The demo program (src/demo/main.cc)

    A client of the C interface: [main] creates a server, starts a thread that
    forwards what it receives on a UDP port, runs the event loop, and cleans up when
    the loop ends, which an interrupt is meant to bring about.  [demo] is the
    program's two global variables and the point each of the two threads has reached;
    [step] is one action: a turn of [main], a turn of the stream thread, or the signal
    handler.  The turns of [main] follow [rtsp_forward_run] into the event loop: the
    checks, the store of [running_], its test, the wait for events, the handler of one
    event -- so that the signal handler can come between any two of them.  A handler
    of the event loop is one turn, and so are a round of the stream thread's loop
    (Threads.v has the finer interleaving) and the signal handler: interrupts that
    find a thread inside a handler of the event loop or inside a call of the interface
    are not in this file but in Locks.v, where they can block it.  What the program
    prints is left out, and a point of [main] is one after the thread is created and
    the handler installed. *)
From stdpp Require Import relations.
From S2P Require Import Prelude Status OrderedMap Text Kernel SampleKernel ByteQueue RingBuf.
From S2P Require Import FdGuard Owner Scripted Sock Epoll Conn Forwarder Session Server ServerInv.
From S2P Require Import Serving Threads Api.

Definition SO_RCVTIMEO : Z := 20.

(** [g_server]: what the pointer designates; dangling once the server is destroyed. *)
Inductive server_pointer (Q : Type) :=
  | Live (h : handle Q)
  | Dangling.
Arguments Live {Q} h.
Arguments Dangling {Q}.

(** [main]: about to call [rtsp_forward_run]; past its checks, about to set [running_]
    of the event loop; about to test it; about to wait for events; with these results
    left to dispatch; waiting for the stream thread; past [rtsp_forward_destroy]. *)
Inductive main_point :=
  | Entering
  | Storing
  | Looping
  | Waiting
  | Dispatching (results : list EventResult)
  | Joining
  | Exited.

(** [stream_thread]: before its socket is set up, receiving on it, returned. *)
Inductive thread_point :=
  | Opening
  | Receiving (sock : Z)
  | Ended.

Record demo (Q : Type) := mkDemo {
  g_server : server_pointer Q;
  g_running : Z;
  rtp_port : Z;
  main_at : main_point;
  stream_at : thread_point;
}.
Arguments mkDemo {Q} _ _ _ _ _.
Arguments g_server {Q} _.
Arguments g_running {Q} _.
Arguments rtp_port {Q} _.
Arguments main_at {Q} _.
Arguments stream_at {Q} _.

Inductive demo_action := MainTurn | StreamTurn | Interrupt.

#[export] Instance event_result_eq_dec : EqDecision EventResult.
Proof. solve_decision. Defined.
#[export] Instance main_point_eq_dec : EqDecision main_point.
Proof. solve_decision. Defined.
#[export] Instance demo_action_eq_dec : EqDecision demo_action.
Proof. solve_decision. Defined.

Module Demo.

(** [atoi]: [strtol] narrowed to [int] *)
Definition atoi (s : bytes) : Z := i32 (fst (strtol s)).

Definition config (port : Z) : RtspForwardConfig :=
  mkConfig port (Some (lit "0.0.0.0")) 16 65536 None 30 60.

Definition sdp : bytes :=
  mjoin ((fun l => lit l ++ crlf) <$>
    ["v=0"; "o=- 0 0 IN IP4 0.0.0.0"; "s=RTSP Stream"; "c=IN IP4 0.0.0.0"; "t=0 0";
     "m=video 0 RTP/AVP 96"; "a=rtpmap:96 H264/90000"; "a=fmtp:96 packetization-mode=1"]%string).

Section Demo.
Context `{K : Kernel} {Q : Type} `{BQ : !ByteQueue Q}.
Implicit Types d : demo Q.

Definition with_server d h : demo Q :=
  mkDemo (Live h) (g_running d) (rtp_port d) (main_at d) (stream_at d).
Definition with_main d m : demo Q :=
  mkDemo (g_server d) (g_running d) (rtp_port d) m (stream_at d).
Definition with_stream d t : demo Q :=
  mkDemo (g_server d) (g_running d) (rtp_port d) (main_at d) t.
Definition stop_running d : demo Q :=
  mkDemo (g_server d) 0 (rtp_port d) (main_at d) (stream_at d).

(** A use of what [g_server] points to. *)
Definition use_server {A} d (f : handle Q -> M A) : M A :=
  match g_server d with Live h => f h | Dangling => ub None end.

Definition sigint_handler d : M (demo Q) :=
  let d := stop_running d in
  match g_server d with
  | Live None => mret d
  | _ =>
    _ ← use_server d (fun h => rtsp_forward_get_info h true);
    '(_, h) ← use_server d rtsp_forward_stop;
    mret (with_server d h)
  end.

(** [stream_thread] up to its loop *)
Definition open_stream (rtp_port : Z) : M thread_point :=
  a ← sys (SysSocket AF_INET SOCK_DGRAM 0);
  let sock := a_ret a in
  if sock <? 0 then mret Ended
  else
    _ ← sys (SysSetsockopt sock SOL_SOCKET SO_RCVTIMEO 1);
    b ← sys (SysBind sock (mkSockaddr AF_INET (htons rtp_port) INADDR_ANY));
    if a_ret b <? 0 then
      _ ← sys (SysClose sock);
      mret Ended
    else mret (Receiving sock).

(** The test and the body of its loop, or what follows the loop *)
Definition stream_turn d : M (demo Q) :=
  match stream_at d with
  | Opening => t ← open_stream (rtp_port d); mret (with_stream d t)
  | Receiving sock =>
    if negb (g_running d =? 0) then
      a ← sys (SysRecv sock 65536);
      if 0 <? a_ret a then
        '(_, h) ← use_server d (fun h => rtsp_forward_send_rtp h (Some (a_data a)) (a_ret a) 0);
        mret (with_server d h)
      else mret d
    else
      _ ← sys (SysClose sock);
      mret (with_stream d Ended)
  | Ended => mret d
  end.

(** [main] up to the stream thread; [None]: it returned -1. *)
Definition start (args : list bytes) (internal_ok impl_ok : bool) : M (option (demo Q)) :=
  let port := match args with a :: _ => atoi a | [] => 8554 end in
  let rtp := match args with _ :: a :: _ => atoi a | _ => 5004 end in
  let '(ret, out) := rtsp_forward_create true (Some (config port)) internal_ok impl_ok in
  let h := default None out in
  if negb (ret =? RTSP_OK) then mret None
  else
    let '(ret, h) := rtsp_forward_set_sdp h (Some sdp) in
    if negb (ret =? RTSP_OK) then
      _ ← rtsp_forward_destroy h;
      mret None
    else
      '(ret, h) ← rtsp_forward_start h;
      if negb (ret =? RTSP_OK) then
        _ ← rtsp_forward_destroy h;
        mret None
      else mret (Some (mkDemo (Live h) 1 rtp Entering Opening)).

(** [rtsp_forward_run] returned. *)
Definition leave d : demo Q := with_main (stop_running d) Joining.

(** [rtsp_forward_run], [RtspServer::Run] and [EpollLoop::Run] up to the store: the
    handle, the server and the event loop are good, or [rtsp_forward_run] returns. *)
Definition may_run (h : handle Q) : bool :=
  match h with
  | Some (Some v) => RtspServer.IsRunning v && FdGuard.IsValid (epoll_fd_ (event_loop_ v))
  | _ => false
  end.

(** A turn inside [EpollLoop::Run]. *)
Definition loop_turn d v : M (demo Q) :=
  match main_at d with
  | Storing =>
    let v := with_loop v (EpollLoop.with_running (event_loop_ v) true) in
    mret (with_main (with_server d (Some (Some v))) Looping)
  | Looping =>
    if running_ (event_loop_ v) then mret (with_main d Waiting) else mret (leave d)
  | Waiting =>
    '(nfds, results) ← EpollLoop.Wait (event_loop_ v) kEpollWaitTimeoutMs [];
    mret (with_main d (if nfds <? 0 then Looping else Dispatching results))
  | Dispatching (r :: results) =>
    v ← EpollLoop.dispatch event_loop_ RtspServer.invoke [r] v;
    mret (with_main (with_server d (Some (Some v))) (Dispatching results))
  | Dispatching [] => mret (with_main d Looping)
  | _ => mret d
  end.

(** [main] from [rtsp_forward_run] on: the turns of the event loop, the end of the
    stream thread and of the server *)
Definition main_turn d : M (demo Q) :=
  match main_at d with
  | Entering =>
    use_server d (fun h => mret (if may_run h then with_main d Storing else leave d))
  | Joining =>
    match stream_at d with
    | Ended =>
      _ ← use_server d rtsp_forward_destroy;
      mret (mkDemo Dangling (g_running d) (rtp_port d) Exited (stream_at d))
    | _ => mret d
    end
  | Exited => mret d
  | _ =>
    use_server d (fun h =>
      match h with
      | Some (Some v) => loop_turn d v
      | _ => mret (leave d)
      end)
  end.

Definition step (a : demo_action) d : M (demo Q) :=
  match a with
  | MainTurn => main_turn d
  | StreamTurn => stream_turn d
  | Interrupt => sigint_handler d
  end.

Fixpoint run (actions : list demo_action) d : M (demo Q) :=
  match actions with
  | [] => mret d
  | a :: actions => d ← step a d; run actions d
  end.
End Demo.
End Demo.

(** ** Every path closes what it opened *)
Section demo.
Context `{K : Kernel} `{KL : !KernelLaws} {Q : Type} `{BQ : !ByteQueue Q}
  `{BL : !ByteQueueLaws Q}.
Implicit Types d : demo Q.
Implicit Types h : handle Q.

Definition held_pointer (p : server_pointer Q) : list Z :=
  match p with Live h => held_handle h | Dangling => [] end.

Definition held_thread (t : thread_point) : list Z :=
  match t with Receiving sock => [sock] | _ => [] end.

Definition held_demo d : list Z := held_pointer (g_server d) ++ held_thread (stream_at d).

(** Before [main] has destroyed the server, it is well formed; after that the
    stream thread has returned. *)
Record demo_ok d : Prop := {
  dk_server : match g_server d with Live h => handle_ok h | Dangling => main_at d = Exited end;
  dk_exited : main_at d = Exited -> g_server d = Dangling /\ stream_at d = Ended;
}.

Definition demo_steps d (Post : demo Q -> ledger -> Prop) (L : ledger) : Prop :=
  forall d' L', demo_ok d' ->
    (forall x, L' x - cnt x (held_demo d') = L x - cnt x (held_demo d)) -> Post d' L'.

Lemma demo_ok_live d h : demo_ok d -> g_server d = Live h -> handle_ok h /\ main_at d <> Exited.
Proof.
  intros [H1 H2] Hg. rewrite Hg in H1. split; [done|]. intros He. destruct (H2 He). congruence.
Qed.

Lemma live_before_exit d : demo_ok d -> main_at d <> Exited -> exists h, g_server d = Live h.
Proof. intros [H1 _] He. destruct (g_server d) as [h|]; [by exists h|done]. Qed.

(** The server after a call, everything else as it was. *)
Lemma live_ok d h h' :
  demo_ok d -> g_server d = Live h -> handle_ok h' -> demo_ok (Demo.with_server d h').
Proof. intros Hd Hg Hh. destruct (demo_ok_live d h Hd Hg). by split. Qed.

Lemma owns_interrupt d Post L :
  demo_ok d -> main_at d <> Exited -> demo_steps d Post L ->
  owns (Demo.sigint_handler d) Post L.
Proof.
  intros Hd He HP. destruct (live_before_exit d Hd He) as [h Hg].
  destruct (demo_ok_live d h Hd Hg) as [Hh _].
  assert (Hd1 : demo_ok (Demo.stop_running d)) by (by destruct Hd; split).
  unfold Demo.sigint_handler, Demo.use_server. cbn [g_server Demo.stop_running]. rewrite Hg.
  destruct h as [h|].
  2: { own_step. apply HP; [done|].
    change (held_demo (Demo.stop_running d)) with (held_demo d). settle. }
  own_step. apply owns_get_info. intros r L1 H1.
  own_step. change (rtsp_forward_stop (Some h)) with (api_step CallStop (Some h)).
  apply owns_api_step; [done|done|]. intros code h' L2 Hh' H2. own_step.
  apply HP; [by eapply live_ok|].
  unfold held_demo in *. cbn [g_server stream_at Demo.with_server Demo.stop_running] in *.
  rewrite Hg. cbn [held_pointer]. settle.
Qed.

Lemma owns_open_stream port Post L :
  (forall t L', (forall x, L' x = L x + cnt x (held_thread t)) -> Post t L') ->
  owns (Demo.open_stream port) Post L.
Proof.
  intros HP. unfold Demo.open_stream. do 2 own_step.
  match goal with |- context [a_ret ?a <? 0] => destruct (a_ret a <? 0) eqn:Hfd end.
  - own_step. apply HP. cbn [held_thread]. settle.
  - own_steps; (apply HP; cbn [held_thread]; settle).
Qed.

Lemma owns_stream_turn d Post L :
  demo_ok d -> demo_steps d Post L -> owns (Demo.stream_turn d) Post L.
Proof.
  intros Hd HP. unfold Demo.stream_turn.
  destruct (stream_at d) as [|sock|] eqn:Hs; [| |own_step; apply HP; [done|settle]];
    assert (He : main_at d <> Exited) by (intros He; destruct (dk_exited d Hd He); congruence);
    destruct (live_before_exit d Hd He) as [h Hg]; destruct (demo_ok_live d h Hd Hg) as [Hh _].
  - own_step. apply owns_open_stream. intros t L1 H1. own_step. apply HP; [by destruct Hd; split|].
    unfold held_demo. cbn [g_server stream_at Demo.with_stream]. rewrite Hs. cbn [held_thread].
    settle.
  - destruct (negb _).
    + do 2 own_step. match goal with |- context [0 <? a_ret ?a] => set (ans := a) end.
      destruct (Z.ltb_spec 0 (a_ret ans)) as [Hpos|]; [|own_step; apply HP; [done|settle]].
      unfold Demo.use_server. rewrite Hg. own_step.
      change (rtsp_forward_send_rtp h (Some (a_data ans)) (a_ret ans) 0) with
        (api_step (CallSendRtp (Some (a_data ans)) (a_ret ans) 0) h).
      apply owns_api_step; [done| |].
      { intros m [= <-]. unfold ans. rewrite recv_data by (fold ans; lia). fold ans. lia. }
      intros code h' L1 Hh' H1. own_step. apply HP; [by eapply live_ok|].
      unfold held_demo. cbn [g_server stream_at Demo.with_server]. rewrite Hg, Hs.
      cbn [held_pointer held_thread]. settle.
    + own_steps. apply HP; [by destruct Hd; split|].
      unfold held_demo. cbn [g_server stream_at Demo.with_stream]. rewrite Hs. cbn [held_thread].
      settle.
Qed.
(** A turn that ends with the server's handle put back. *)
Lemma held_with_server d h h' x :
  g_server d = Live h ->
  cnt x (held_demo (Demo.with_server d h')) =
  cnt x (held_demo d) - cnt x (held_handle h) + cnt x (held_handle h').
Proof.
  intros Hg. unfold held_demo. rewrite Hg, !cnt_app. cbn [g_server stream_at Demo.with_server
    held_pointer]. lia.
Qed.

Lemma moved_ok d m :
  demo_ok d -> main_at d <> Exited -> m <> Exited -> demo_ok (Demo.with_main d m).
Proof.
  intros Hd He Hm. destruct (live_before_exit d Hd He) as [h Hg].
  destruct Hd as [H1 _]. rewrite Hg in H1. split; cbn; [by rewrite Hg|done].
Qed.

Lemma leave_ok d : demo_ok d -> main_at d <> Exited -> demo_ok (Demo.leave d).
Proof. intros Hd He. apply (moved_ok (Demo.stop_running d)); [by destruct Hd; split|done|done]. Qed.

Lemma owns_loop_turn d v Post L :
  demo_ok d -> g_server d = Live (Some (Some v)) -> main_at d <> Joining -> main_at d <> Exited ->
  demo_steps d Post L -> owns (Demo.loop_turn d v) Post L.
Proof.
  intros Hd Hg Hj He HP. destruct (demo_ok_live d _ Hd Hg) as [[Hok Hn] _].
  assert (Hmove : forall m L', m <> Exited -> (forall x, L' x = L x) -> Post (Demo.with_main d m) L').
  { intros m L' Hm HL. apply HP; [by apply moved_ok|].
    change (held_demo (Demo.with_main d m)) with (held_demo d). settle. }
  assert (Hnew : forall v' m L', server_ok v' -> snapshot_ v' = [] -> m <> Exited ->
    (forall x, L' x - cnt x (held_server v') = L x - cnt x (held_server v)) ->
    Post (Demo.with_main (Demo.with_server d (Some (Some v'))) m) L').
  { intros v' m L' H1 H2 Hm HL.
    pose proof (live_ok d _ (Some (Some v')) Hd Hg (conj H1 H2)) as Hd1.
    apply HP; [by apply moved_ok|]. intros x.
    change (held_demo (Demo.with_main ?d' m)) with (held_demo d').
    rewrite (held_with_server d (Some (Some v))) by done. cbn [held_handle]. revert x. settle. }
  unfold Demo.loop_turn. destruct (main_at d) as [| | | |[|r rs]| |] eqn:Hm; try done.
  - own_step. apply HP; [done|settle].
  - set (v1 := with_loop v _).
    destruct (steps_same v v1 (fun _ _ => True) L Hok) as (H1 & H2 & _); try done; [apply Hok|].
    own_step. apply Hnew; [done|done|done|]. rewrite H2. settle.
  - destruct (running_ _); own_step; [by apply Hmove|].
    apply HP; [apply leave_ok; [done|congruence]|].
    change (held_demo (Demo.leave d)) with (held_demo d). settle.
  - own_step. apply owns_Wait. intros n rs L1 H1. own_step.
    apply Hmove; [by destruct (n <? 0)|settle].
  - own_step. by apply Hmove.
  - own_step. apply owns_dispatch; [done|]. intros v' L1 Hv' Hf H1. injection Hf as _ Hf.
    own_step. apply Hnew; [done|congruence|done|settle].
Qed.

Lemma owns_main_turn d Post L :
  demo_ok d -> demo_steps d Post L -> owns (Demo.main_turn d) Post L.
Proof.
  intros Hd HP. unfold Demo.main_turn.
  assert (Hleave : main_at d <> Exited -> owns (mret (Demo.leave d)) Post L).
  { intros He. own_step. apply HP; [by apply leave_ok|].
    change (held_demo (Demo.leave d)) with (held_demo d). settle. }
  assert (Hloop : main_at d <> Joining -> main_at d <> Exited ->
    owns (Demo.use_server d (fun h =>
      match h with Some (Some v) => Demo.loop_turn d v | _ => mret (Demo.leave d) end)) Post L).
  { intros Hj He. destruct (live_before_exit d Hd He) as [h Hg]. unfold Demo.use_server.
    rewrite Hg. destruct h as [[v|]|]; [by apply owns_loop_turn|by apply Hleave..]. }
  destruct (main_at d) eqn:Hm; [|by apply Hloop..| |own_step; apply HP; [done|settle]];
    assert (He : main_at d <> Exited) by congruence;
    destruct (live_before_exit d Hd He) as [h Hg]; destruct (demo_ok_live d h Hd Hg) as [Hh _];
    unfold Demo.use_server; rewrite Hg.
  - destruct (Demo.may_run h); [|by apply Hleave]. own_step. apply HP; [by apply moved_ok|].
    change (held_demo (Demo.with_main d Storing)) with (held_demo d). settle.
  - destruct (stream_at d) eqn:Hs; [own_step; apply HP; [done|settle]..|].
    own_step. apply owns_destroy_handle; [done|]. intros code L1 H1. own_step.
    apply HP; [by split|]. unfold held_demo. rewrite Hg, Hs.
    cbn [g_server stream_at held_pointer held_thread]. settle.
Qed.

(** After the server is destroyed the handler must not run. *)
Definition allowed (a : demo_action) d : Prop := ~ (a = Interrupt /\ main_at d = Exited).

Lemma owns_demo_step a d Post L :
  demo_ok d -> allowed a d -> demo_steps d Post L -> owns (Demo.step a d) Post L.
Proof.
  intros Hd Ha HP. destruct a; cbn [Demo.step].
  - by apply owns_main_turn.
  - by apply owns_stream_turn.
  - apply owns_interrupt; [done| |done]. intros He. by apply Ha.
Qed.

Definition demo_transition (c c' : demo Q * world) : Prop :=
  exists a, allowed a (fst c) /\ Demo.step a (fst c) (snd c) = Done (fst c') (snd c').

(** What a configuration has, relative to the trace the program began with. *)
Definition demo_sound (w : world) (c : demo Q * world) : Prop :=
  demo_ok (fst c) /\
  forall x, cnt x (held_demo (fst c)) = net x (w_trace (snd c)) - net x (w_trace w).

Lemma demo_sound_step w c c' : demo_sound w c -> demo_transition c c' -> demo_sound w c'.
Proof.
  destruct c as [d w1], c' as [d' w2]. intros [Hok Hl] (a & Ha & Hstep). cbn [fst snd] in *.
  assert (Hown : owns (Demo.step a d) (fun d' L' => demo_ok d' /\
    forall x, L' x = cnt x (held_demo d')) (fun x => cnt x (held_demo d))).
  { apply owns_demo_step; [done|done|]. intros d1 L1 H1 H2. split; [done|].
    intros x. specialize (H2 x). lia. }
  destruct (owns_elim _ _ _ _ _ _ Hown Hstep) as [H1 H2]. split; [done|].
  intros x. specialize (H2 x). specialize (Hl x). cbv beta in H2. cbn [fst snd] in *. lia.
Qed.

Lemma owns_start args m1 m2 Post L :
  (forall o L', match o with Some d => demo_ok d | None => True end ->
    (forall x, L' x = L x + cnt x (from_option held_demo [] o)) -> Post o L') ->
  owns (Demo.start (Q := Q) args m1 m2) Post L.
Proof.
  intros HP. unfold Demo.start.
  set (port := match args with [] => _ | _ => _ end). set (rtp := match args with [] => _ | _ => _ end).
  rewrite create_valid. set (valid := from_option valid_config true _).
  assert (Hnone : owns (mret None) Post L) by (own_step; apply HP; [done|cbn; settle]).
  destruct valid eqn:Hv; cbn [negb]; [|done]. destruct (m1 && m2); [|done].
  destruct (configured_ok (Q := Q) (Some (Demo.config port)) Hv) as [[Hok Hn] Hheld].
  { intros c [= <-]. by split. }
  set (v := configured _) in *.
  destruct (steps_same v (RtspServer.SetSdp v (default [] (Some Demo.sdp)))
    (fun _ _ => True) L Hok) as (Hok1 & Hheld1 & _); try done.
  set (v1 := RtspServer.SetSdp v _) in *. rewrite Hheld in Hheld1.
  cbn [default from_option].
  change (rtsp_forward_set_sdp (id (Some (Some v))) (Some Demo.sdp)) with
    (RTSP_OK, Some (Some v1)).
  cbv beta iota zeta. change (RTSP_OK =? RTSP_OK) with true. cbn [negb].
  own_step. change (rtsp_forward_start (Some (Some v1))) with
    (api_step CallStart (Some (Some v1))).
  apply owns_api_step; [by split|done|]. intros code h' L1 Hh' H1.
  cbv beta iota zeta. cbn [held_handle] in H1. rewrite Hheld1 in H1. destruct (negb _).
  - own_step. apply owns_destroy_handle; [done|]. intros code2 L2 H2. own_step.
    apply HP; [done|cbn [from_option]; settle].
  - own_step. apply HP; [by split|]. cbn [from_option]. unfold held_demo.
    cbn [g_server stream_at held_pointer held_thread]. settle.
Qed.

Definition quiet_fault (f : fault) : Prop :=
  f = ProcessAborted \/ f = UndefinedBehaviour InParser.

Lemma demo_sound_next a d w w1 :
  demo_sound w (d, w1) -> allowed a d ->
  match Demo.step a d w1 with
  | Done d' w2 => demo_sound w (d', w2)
  | Fault f => quiet_fault f
  end.
Proof.
  intros Hs Ha. destruct (Demo.step a d w1) as [d' w2|f] eqn:Hstep.
  - apply (demo_sound_step w (d, w1)); [done|]. by exists a.
  - apply tolerated_faults.
    apply (owns_fault (Demo.step a d) (fun _ _ => True) (fun _ => 0) w1); [|done].
    apply owns_demo_step; [apply Hs|done|done].
Qed.

Lemma demo_reachable_sound w c c' :
  demo_sound w c -> rtc demo_transition c c' -> demo_sound w c'.
Proof. intros Hs Hr. induction Hr as [|c1 c2 c3 H12 _ IH]; [done|]. apply IH. by eapply demo_sound_step. Qed.

Lemma start_sound args m1 m2 w :
  match Demo.start (Q := Q) args m1 m2 w with
  | Done (Some d) w1 => demo_sound w (d, w1)
  | Done None w1 => forall x, net x (w_trace w1) = net x (w_trace w)
  | Fault f => quiet_fault f
  end.
Proof.
  assert (Hown : owns (Demo.start (Q := Q) args m1 m2) (fun o L' =>
    match o with Some d => demo_ok d | None => True end /\
    forall x, L' x = cnt x (from_option held_demo [] o)) (fun _ => 0)).
  { apply owns_start. intros o L' H1 H2. split; [done|]. intros x. specialize (H2 x). lia. }
  destruct (Demo.start args m1 m2 w) as [o w1|f] eqn:Hrun.
  - destruct (owns_elim _ _ _ _ _ _ Hown Hrun) as [H1 H2]. cbv beta in H2.
    destruct o as [d|]; cbn [from_option] in H2.
    + split; [done|]. intros x. specialize (H2 x). cbn [fst snd]. lia.
    + intros x. specialize (H2 x). cbn [cnt] in H2. lia.
  - apply tolerated_faults. by eapply owns_fault.
Qed.

(** *** Winding down *)

(** The server is stopped, and has nobody to serve. *)
Definition down (v : rtsp_server Q) : Prop := server_running_ v = false /\ deserted v.

(** An interrupt has stopped the server, and the event loop is told. *)
Definition winding d : Prop :=
  g_running d = 0 /\ exists v, g_server d = Live (Some (Some v)) /\ down v /\
    running_ (event_loop_ v) = false.

(** [main] is past its loop, and the stream thread will see it. *)
Definition closing d : Prop :=
  main_at d = Exited \/ (main_at d = Joining /\ g_running d = 0).

Lemma wlp_interrupt d v w :
  g_server d = Live (Some (Some v)) -> server_running_ v = true ->
  wlp (Demo.sigint_handler d) (fun d' _ => winding d' /\ main_at d' = main_at d) w.
Proof.
  intros Hg Hr. unfold Demo.sigint_handler, Demo.use_server. cbn [g_server Demo.stop_running].
  rewrite Hg. apply wlp_skip. intros i w1. apply wlp_bind.
  cbn [rtsp_forward_stop]. unfold RtspServer.IsRunning. rewrite Hr. cbn [negb].
  apply wlp_bind. eapply wlp_mono; [by apply wlp_Stop|]. intros v' w2 [H1 H2 H3 _ H4].
  apply wlp_ret, wlp_ret. split; [|done]. split; [done|]. exists v'. by split_and!.
Qed.

(** A handler of the event loop finds nobody. *)
Lemma wlp_dispatch_down rs v w (Post : rtsp_server Q -> world -> Prop) :
  deserted v -> (forall w', Post v w') ->
  wlp (EpollLoop.dispatch event_loop_ RtspServer.invoke rs v) Post w.
Proof. intros Hd HP. apply wlp_wp, wp_dispatch_deserted; [done|]. intros w' _. apply HP. Qed.

(** A turn of [main] while the server winds down: it leaves the loop, or comes
    nearer to its test. *)
Lemma wlp_winding_turn d w :
  winding d -> main_at d <> Storing ->
  wlp (Demo.main_turn d) (fun d' _ => closing d' \/ winding d' /\
    match main_at d with
    | Waiting => main_at d' = Looping \/ exists rs, main_at d' = Dispatching rs
    | Dispatching [] => main_at d' = Looping
    | Dispatching (_ :: rs) => main_at d' = Dispatching rs
    | _ => False
    end) w.
Proof.
  intros (Hrun & v & Hg & [Hs Hd] & Hl) Hm. unfold Demo.main_turn, Demo.use_server. rewrite Hg.
  assert (Hkeep : forall m, winding (Demo.with_main d m)) by (intros m; split; [done|by exists v]).
  assert (Hkeep2 : forall m, winding (Demo.with_main (Demo.with_server d (Some (Some v))) m))
    by (intros m; split; [done|by exists v]).
  unfold Demo.loop_turn. destruct (main_at d) as [| | | |[|r rs]| |] eqn:Hat; try done.
  - unfold Demo.may_run, RtspServer.IsRunning. rewrite Hs. apply wlp_ret. by left; right.
  - rewrite Hl. apply wlp_ret. by left; right.
  - apply wlp_skip. intros [n rs] w1. apply wlp_ret. right. split; [apply Hkeep|].
    cbn. destruct (n <? 0); [by left|right; by exists rs].
  - apply wlp_ret. right. by split.
  - apply wlp_bind, wlp_dispatch_down; [done|]. intros w1. apply wlp_ret. right. by split.
  - destruct (stream_at d); [apply wlp_ret; left; by right..|].
    apply wlp_skip. intros code w1. apply wlp_ret. left. by left.
  - apply wlp_ret. left. by left.
Qed.

Lemma wlp_closing_turn d w :
  demo_ok d -> closing d -> wlp (Demo.main_turn d) (fun d' _ => closing d') w.
Proof.
  intros Hd Hc. unfold Demo.main_turn. destruct Hc as [He|[Hm Hr]].
  - rewrite He. apply wlp_ret. by left.
  - rewrite Hm. destruct (stream_at d); [apply wlp_ret; by right..|].
    apply wlp_skip. intros code w1. apply wlp_ret. by left.
Qed.

Lemma wlp_stream_ends d w :
  demo_ok d -> closing d ->
  wlp (Demo.stream_turn d) (fun d' _ => closing d' /\
    (stream_at d <> Opening -> stream_at d' = Ended) /\ stream_at d' <> Opening) w.
Proof.
  intros Hd Hc. unfold Demo.stream_turn. destruct (stream_at d) as [|sock|] eqn:Hs.
  - destruct Hc as [He|[Hm Hr]]; [destruct (dk_exited d Hd He); congruence|].
    apply wlp_bind. unfold Demo.open_stream. apply wlp_skip. intros a w1.
    assert (Hret : forall t w2, t <> Opening -> wlp (mret (Demo.with_stream d t)) (fun d' _ =>
      closing d' /\ (Opening <> Opening -> stream_at d' = Ended) /\ stream_at d' <> Opening) w2).
    { intros t w2 Ht. apply wlp_ret. split; [by right|]. by split. }
    destruct (_ <? 0); [by apply wlp_ret, Hret|].
    apply wlp_skip. intros b w2. apply wlp_skip. intros c w3.
    destruct (_ <? 0); [apply wlp_skip; intros e w4|]; by apply wlp_ret, Hret.
  - destruct Hc as [He|[Hm Hr]]; [destruct (dk_exited d Hd He); congruence|].
    rewrite Hr. cbn [Z.eqb negb]. apply wlp_skip. intros a w1. apply wlp_ret.
    split; [by right|]. by split.
  - apply wlp_ret. split; [done|]. by rewrite Hs.
Qed.

Lemma wlp_exit d w :
  closing d -> stream_at d = Ended ->
  wlp (Demo.main_turn d) (fun d' _ => main_at d' = Exited) w.
Proof.
  intros [He|[Hm Hr]] Hs; unfold Demo.main_turn.
  - rewrite He. by apply wlp_ret.
  - rewrite Hm, Hs. apply wlp_skip. intros code w1. by apply wlp_ret.
Qed.

(** A run that ends with the program over and everything closed. *)
Definition ends (w : world) (actions : list demo_action) d (w1 : world) : Prop :=
  match Demo.run actions d w1 with
  | Done d' w2 => main_at d' = Exited /\ forall x, net x (w_trace w2) = net x (w_trace w)
  | Fault f => quiet_fault f
  end.

Lemma ends_cons (P : demo Q -> Prop) w a actions d w1 :
  demo_sound w (d, w1) -> allowed a d -> wlp (Demo.step a d) (fun d' _ => P d') w1 ->
  (forall d' w2, demo_sound w (d', w2) -> P d' -> ends w actions d' w2) ->
  ends w (a :: actions) d w1.
Proof.
  intros Hs Ha Hstep Hnext. pose proof (demo_sound_next a d w w1 Hs Ha) as Hs'.
  unfold ends, wlp in *. cbn [Demo.run]. unfold mbind, M_bind.
  destruct (Demo.step a d w1) as [d' w2|f]; [by apply Hnext|done].
Qed.

Lemma run_app actions actions' d w :
  Demo.run (actions ++ actions') d w =
  match Demo.run actions d w with
  | Done d' w' => Demo.run actions' d' w'
  | Fault f => Fault f
  end.
Proof.
  revert d w. induction actions as [|a actions IH]; intros d w; cbn [app Demo.run]; [done|].
  unfold mbind, M_bind. by destruct (Demo.step a d w).
Qed.

(** [k] turns of [main] take it out of its loop. *)
Definition leaves (w : world) (k : nat) d (w1 : world) : Prop :=
  match Demo.run (replicate k MainTurn) d w1 with
  | Done d' w' => closing d' /\ demo_sound w (d', w')
  | Fault f => quiet_fault f
  end.

Lemma leaves_next (P : demo Q -> Prop) w k d w1 :
  demo_sound w (d, w1) -> wlp (Demo.main_turn d) (fun d' _ => P d') w1 ->
  (forall d' w', Demo.main_turn d w1 = Done d' w' -> demo_sound w (d', w') -> P d' ->
    leaves w k d' w') ->
  leaves w (S k) d w1.
Proof.
  intros Hs Hstep Hnext. pose proof (demo_sound_next MainTurn d w w1 Hs ltac:(by intros [])) as Hs'.
  unfold leaves, wlp in *. cbn [Demo.run replicate Demo.step] in *. unfold mbind, M_bind.
  destruct (Demo.main_turn d w1) as [d' w2|f]; [by apply Hnext|done].
Qed.

Lemma closing_leaves w k d w1 : demo_sound w (d, w1) -> closing d -> leaves w k d w1.
Proof.
  revert d w1. induction k as [|k IH]; intros d w1 Hs Hc; [by split|].
  eapply (leaves_next closing); [done|by apply wlp_closing_turn; [apply Hs|]|].
  intros d' w' _ Hs' Hc'. by apply IH.
Qed.

Lemma looping_leaves w k d w1 :
  demo_sound w (d, w1) -> winding d -> main_at d = Looping \/ main_at d = Entering -> (1 <= k)%nat ->
  leaves w k d w1.
Proof.
  intros Hs Hw Hm Hk. destruct k as [|k]; [lia|].
  eapply leaves_next; [done|apply wlp_winding_turn; [done|by destruct Hm; congruence]|].
  intros d' w' _ Hs' [Hc|[_ H]]; [by apply closing_leaves|]. by destruct Hm as [Hm|Hm]; rewrite Hm in H.
Qed.

Lemma dispatching_leaves rs w k d w1 :
  demo_sound w (d, w1) -> winding d -> main_at d = Dispatching rs -> (length rs + 2 <= k)%nat ->
  leaves w k d w1.
Proof.
  revert k d w1. induction rs as [|r rs IH]; intros k d w1 Hs Hw Hm Hk; cbn in Hk;
    (destruct k as [|k]; [lia|]);
    (eapply leaves_next; [done|apply wlp_winding_turn; [done|congruence]|]);
    rewrite Hm; intros d' w' _ Hs' [Hc|[Hw' H]]; try by apply closing_leaves.
  - apply looping_leaves; [done|done|by left|lia].
  - apply IH; [done|done|done|lia].
Qed.

(** So it leaves its loop in the end, wherever it was but at the store. *)
Lemma winding_leaves w d w1 :
  demo_sound w (d, w1) -> winding d -> main_at d <> Storing ->
  exists n, forall k, (n <= k)%nat -> leaves w k d w1.
Proof.
  intros Hs Hw Hm. destruct (main_at d) as [| | | |rs| |] eqn:Hat; try done.
  - exists 1%nat. intros k Hk. apply looping_leaves; auto.
  - exists 1%nat. intros k Hk. apply looping_leaves; auto.
  - assert (Hturn : wlp (Demo.main_turn d) (fun d' _ => closing d' \/ winding d' /\
      (main_at d' = Looping \/ exists rs, main_at d' = Dispatching rs)) w1).
    { eapply wlp_mono; [apply wlp_winding_turn; [done|congruence]|]. by rewrite Hat. }
    assert (exists n, forall k d' w', (n <= k)%nat -> Demo.main_turn d w1 = Done d' w' ->
      demo_sound w (d', w') -> leaves w k d' w') as [n Hn].
    { unfold wlp in Hturn. destruct (Demo.main_turn d w1) as [d1 w2|]; [|by exists 0%nat].
      destruct Hturn as [Hc|[Hw1 [Hl|[rs Hrs]]]].
      - exists 0%nat. intros k d' w' _ [= <- <-] H1. by apply closing_leaves.
      - exists 1%nat. intros k d' w' Hk [= <- <-] H1. apply looping_leaves; auto.
      - exists (length rs + 2)%nat. intros k d' w' Hk [= <- <-] H1. by eapply dispatching_leaves. }
    exists (S n). intros k Hk. destruct k as [|k]; [lia|].
    eapply leaves_next; [done|exact Hturn|]. intros d' w' H1 H2 _. apply (Hn k); [lia|done|done].
  - exists (length rs + 2)%nat. intros k Hk. by eapply dispatching_leaves.
  - exists 0%nat. intros k _. apply closing_leaves; [done|]. right. split; [done|apply Hw].
  - exists 0%nat. intros k _. apply closing_leaves; [done|]. by left.
Qed.

(** *** The interrupt that is lost *)

(** The server is down, but the event loop runs, or will. *)
Definition lost d : Prop :=
  exists v, g_server d = Live (Some (Some v)) /\ down v /\
    match main_at d with
    | Storing => True
    | Looping | Waiting | Dispatching _ => running_ (event_loop_ v) = true
    | _ => False
    end.

Lemma wlp_lost_stream d w : lost d -> wlp (Demo.stream_turn d) (fun d' _ => lost d') w.
Proof.
  intros (v & Hg & Hd & Hm). unfold Demo.stream_turn. destruct (stream_at d) as [|sock|].
  - apply wlp_skip. intros t w1. apply wlp_ret. by exists v.
  - destruct (negb _); [|apply wlp_skip; intros a w1; apply wlp_ret; by exists v].
    apply wlp_skip. intros a w1. destruct (0 <? a_ret a); [|apply wlp_ret; by exists v].
    unfold Demo.use_server. rewrite Hg. apply wlp_bind.
    unfold rtsp_forward_send_rtp, RtspServer.IsRunning. destruct Hd as [Hs Hd]. rewrite Hs. cbn [negb].
    apply wlp_ret, wlp_ret. by exists v.
  - apply wlp_ret. by exists v.
Qed.

Lemma wlp_lost_main d w : lost d -> wlp (Demo.main_turn d) (fun d' _ => lost d') w.
Proof.
  intros (v & Hg & Hd & Hm). unfold Demo.main_turn, Demo.use_server, Demo.loop_turn. rewrite Hg.
  destruct (main_at d) as [| | | |[|r rs]| |] eqn:Hat; try done.
  - apply wlp_ret. eexists. split; [done|]. split; [exact Hd|done].
  - rewrite Hm. apply wlp_ret. by exists v.
  - apply wlp_skip. intros [n rs] w1. apply wlp_ret. exists v. split; [done|]. split; [done|].
    cbn. by destruct (n <? 0).
  - apply wlp_ret. by exists v.
  - apply wlp_bind, wlp_dispatch_down; [apply Hd|]. intros w1. apply wlp_ret. by exists v.
Qed.

Lemma wlp_lost_interrupt d w : lost d -> wlp (Demo.sigint_handler d) (fun d' _ => lost d') w.
Proof.
  intros (v & Hg & Hd & Hm). unfold Demo.sigint_handler, Demo.use_server.
  cbn [g_server Demo.stop_running]. rewrite Hg. apply wlp_skip. intros i w1. apply wlp_bind.
  cbn [rtsp_forward_stop]. unfold RtspServer.IsRunning. destruct Hd as [Hs Hd]. rewrite Hs.
  cbn [negb]. apply wlp_ret, wlp_ret. by exists v.
Qed.

Lemma lost_run actions d w d' w' : lost d -> Demo.run actions d w = Done d' w' -> lost d'.
Proof.
  revert d w. induction actions as [|a actions IH]; intros d w Hl; cbn [Demo.run];
    [by intros [= <- <-]|].
  assert (Hstep : wlp (Demo.step a d) (fun d' _ => lost d') w)
    by (destruct a; by apply wlp_lost_main || by apply wlp_lost_stream || by apply wlp_lost_interrupt).
  unfold wlp in Hstep. unfold mbind, M_bind. destruct (Demo.step a d w); [by apply IH|done].
Qed.

Lemma exited_closed w d w1 :
  demo_sound w (d, w1) -> main_at d = Exited ->
  forall x, net x (w_trace w1) = net x (w_trace w).
Proof.
  intros [Hok Hl] He x. destruct (dk_exited d Hok He) as [Hg Ht]. specialize (Hl x).
  unfold held_demo in Hl. cbn [fst snd] in *. rewrite Hg, Ht in Hl. cbn in Hl. lia.
Qed.

(** Past its loop, [main] and the stream thread come to their ends. *)
Lemma closing_ends w d w1 :
  demo_sound w (d, w1) -> closing d -> ends w [StreamTurn; StreamTurn; MainTurn] d w1.
Proof.
  intros Hd Hc.
  apply (ends_cons (fun d => closing d /\ stream_at d <> Opening)); [done|by intros []| |].
  { eapply wlp_mono; [apply wlp_stream_ends; [apply Hd|done]|]. by intros ? ? (? & _ & ?). }
  intros d2 w2 Hd2 [Hc2 Ho].
  apply (ends_cons (fun d => closing d /\ stream_at d = Ended)); [done|by intros []| |].
  { eapply wlp_mono; [apply wlp_stream_ends; [apply Hd2|done]|]. intros ? ? (? & ? & _). auto. }
  intros d3 w3 Hd3 [Hc3 Hs3].
  apply (ends_cons (fun d => main_at d = Exited)); [done|by intros []|by apply wlp_exit|].
  intros d4 w4 Hd4 He. split; [done|]. by apply (exited_closed w d4 w4).
Qed.

(** The turns of [main] over a batch of events are the dispatch of the event loop. *)
Lemma dispatching_turns rs d v w :
  g_server d = Live (Some (Some v)) -> main_at d = Dispatching rs ->
  Demo.run (replicate (S (length rs)) MainTurn) d w =
  (v' ← EpollLoop.dispatch event_loop_ RtspServer.invoke rs v;
   mret (Demo.with_main (Demo.with_server d (Some (Some v'))) Looping)) w.
Proof.
  revert d v w. induction rs as [|r rs IH]; intros d v w Hg Hm.
  - cbn [length replicate Demo.run Demo.step]. unfold Demo.main_turn, Demo.use_server, Demo.loop_turn.
    rewrite Hm, Hg. destruct d as [g rn rp m st]. cbn in *. by subst.
  - change (replicate (S (length (r :: rs))) MainTurn)
      with (MainTurn :: replicate (S (length rs)) MainTurn).
    cbn [Demo.run Demo.step]. unfold Demo.main_turn, Demo.use_server, Demo.loop_turn.
    rewrite Hm, Hg. cbn [EpollLoop.dispatch].
    set (m := match callbacks_ (event_loop_ v) !! er_fd r with Some _ => _ | None => _ end).
    clearbody m. unfold mbind, M_bind, mret, M_ret. destruct (m w) as [v1 w1|]; [|done].
    by rewrite (IH _ v1).
Qed.

(** ** Properties *)

(** C33: The demo program closes everything it opened, on every path.  When [main]
    gives up before its threads run, nothing stays open.  Otherwise, however the
    turns of its two threads and interrupts follow each other: once it is past
    [rtsp_forward_destroy] every descriptor is closed as often as it was opened; a
    step only fails for want of memory or inside the parser -- except an interrupt
    after that point, which always is undefined behaviour, since the handler then
    uses the server that was destroyed. *)
Theorem demo_closes_everything args m1 m2 w :
  match Demo.start (Q := Q) args m1 m2 w with
  | Done None w1 => forall x, net x (w_trace w1) = net x (w_trace w)
  | Done (Some d0) w0 => forall d w1, rtc demo_transition (d0, w0) (d, w1) ->
      (main_at d = Exited -> (forall x, net x (w_trace w1) = net x (w_trace w)) /\
         Demo.step Interrupt d w1 = Fault (UndefinedBehaviour Elsewhere)) /\
      forall a f, Demo.step a d w1 = Fault f ->
        quiet_fault f \/ (a = Interrupt /\ main_at d = Exited)
  | Fault f => quiet_fault f
  end.
Proof.
  pose proof (start_sound args m1 m2 w) as Hs. destruct (Demo.start _ _ _ _) as [[d0|] w0|f];
    [|done..]. intros d w1 Hr. pose proof (demo_reachable_sound _ _ _ Hs Hr) as Hd. split.
  - intros He. split; [by apply (exited_closed w d w1)|].
    destruct (dk_exited d (proj1 Hd) He) as [Hg _]. cbn [Demo.step].
    unfold Demo.sigint_handler, Demo.use_server. cbn [g_server Demo.stop_running]. by rewrite Hg.
  - intros a f Hf. destruct (decide (a = Interrupt /\ main_at d = Exited)) as [|Hn]; [by right|].
    left. pose proof (demo_sound_next a d w w1 Hd Hn) as H. by rewrite Hf in H.
Qed.

(** C32: When an interrupt ends the demo program.  Take any configuration it can reach
    with the server running, and an interrupt that falls between two turns -- a
    handler of the event loop is one turn, so this is not an interrupt inside one,
    which can block the thread for ever.  If [main] is not about to set [running_]
    of the event loop, then the interrupt ends the program: after finitely many
    turns of [main], however many more it takes, and three turns of the stream
    thread and [main], the program is over and every descriptor closed, unless
    memory runs out or the parser's behaviour is undefined.  If it is about to set
    [running_], the interrupt is lost: whatever the threads do then, and however
    many interrupts follow, [main] does not leave its loop. *)
Theorem interrupt_ends_demo args m1 m2 w d0 w0 d w1 v :
  Demo.start args m1 m2 w = Done (Some d0) w0 -> rtc demo_transition (d0, w0) (d, w1) ->
  g_server d = Live (Some (Some v)) -> server_running_ v = true ->
  if decide (main_at d = Storing) then
    forall actions d' w', Demo.run (Interrupt :: actions) d w1 = Done d' w' ->
      main_at d' <> Joining /\ main_at d' <> Exited
  else
    exists n, forall k, (n <= k)%nat ->
      ends w (Interrupt :: replicate k MainTurn ++ [StreamTurn; StreamTurn; MainTurn]) d w1.
Proof.
  intros Hstart Hr Hg Hv. pose proof (start_sound args m1 m2 w) as Hs. rewrite Hstart in Hs.
  pose proof (demo_reachable_sound _ _ _ Hs Hr) as Hd.
  pose proof (proj2 (demo_ok_live d _ (proj1 Hd) Hg)) as He.
  pose proof (wlp_interrupt d v w1 Hg Hv) as Hint.
  pose proof (demo_sound_next Interrupt d w w1 Hd ltac:(by intros [_ ?])) as Hd2.
  unfold wlp, ends in *. cbn [Demo.run Demo.step] in *. unfold mbind, M_bind.
  destruct (Demo.sigint_handler d w1) as [d2 w2|f]; [|case_decide; [done|by exists 0%nat]].
  destruct Hint as [Hw Hm]. case_decide as Hstore.
  - intros actions d' w' Hrun. assert (Hl : lost d2).
    { destruct Hw as (_ & v2 & Hg2 & Hdown & _). exists v2. by rewrite Hm, Hstore. }
    destruct (lost_run _ _ _ _ _ Hl Hrun) as (v' & _ & _ & H). by destruct (main_at d').
  - destruct (winding_leaves w d2 w2 Hd2 Hw ltac:(congruence)) as [n Hn].
    exists n. intros k Hk. specialize (Hn k Hk). rewrite run_app. unfold leaves in Hn.
    destruct (Demo.run (replicate k MainTurn) d2 w2) as [d3 w3|f]; [|done].
    destruct Hn as [Hc Hd3]. by apply closing_ends.
Qed.
End demo.

(** ** Witnesses *)

Lemma demo_run_reaches `{K : Kernel} {Q : Type} `{BQ : !ByteQueue Q} actions (d : demo Q) w d' w' :
  Forall (fun a => a <> Interrupt) actions -> Demo.run actions d w = Done d' w' ->
  rtc demo_transition (d, w) (d', w').
Proof.
  intros Ha. revert d w. induction Ha as [|a actions Ha _ IH]; intros d w; cbn [Demo.run].
  - intros [= <- <-]. constructor.
  - unfold mbind, M_bind. destruct (Demo.step a d w) as [d1 w1|] eqn:Hs; [|done].
    intros Hr. eapply rtc_l; [|by apply IH]. exists a. split; [by intros []|done].
Qed.

Definition script : Kernel := sample_kernel (scripted [lit "rtp"]).

Definition demo_start : outcome (option (demo ring_buffer)) :=
  Demo.start (K := script) [lit "8554"; lit "5004"] true true world0.

(** The program after some turns. *)
Definition demo_after (actions : list demo_action) : outcome (demo ring_buffer) :=
  match demo_start with
  | Done (Some d) w => Demo.run (K := script) actions d w
  | Done None _ => Fault OutOfFuel
  | Fault f => Fault f
  end.

Definition serves (d : demo ring_buffer) : bool :=
  match g_server d with Live (Some (Some v)) => server_running_ v | _ => false end.

(** The stream thread opens its socket and forwards a packet, [main] is in its loop. *)
Definition serving : list demo_action :=
  [StreamTurn; MainTurn; MainTurn; StreamTurn; MainTurn; MainTurn].

Definition demo_serving : outcome (demo ring_buffer) := demo_after serving.

Lemma demo_is_serving :
  match demo_serving with
  | Done d _ => serves d = true /\ main_at d = Dispatching []
  | Fault _ => False
  end.
Proof. by vm_compute. Qed.

(** [main] has made its checks. *)
Lemma demo_is_storing :
  match demo_after [MainTurn] with
  | Done d _ => serves d = true /\ main_at d = Storing
  | Fault _ => False
  end.
Proof. by vm_compute. Qed.

Lemma demo_after_reaches actions d w :
  Forall (fun a => a <> Interrupt) actions -> demo_after actions = Done d w ->
  exists d0 w0, demo_start = Done (Some d0) w0 /\ rtc (demo_transition (K := script)) (d0, w0) (d, w).
Proof.
  intros Ha. unfold demo_after. destruct demo_start as [[d0|] w0|]; [|done..].
  intros Hrun. exists d0, w0. split; [done|]. by eapply demo_run_reaches.
Qed.

Lemma serves_live d : serves d = true ->
  exists v, g_server d = Live (Some (Some v)) /\ server_running_ v = true.
Proof. unfold serves. destruct (g_server d) as [[[v|]|]|]; [|done..]. eauto. Qed.

Lemma outcome_done (o : outcome (demo ring_buffer)) (P : demo ring_buffer -> Prop) :
  match o with Done d _ => P d | Fault _ => False end -> exists d w, o = Done d w /\ P d.
Proof. destruct o as [d w|]; [|done]. eauto. Qed.

(** The interrupted program comes to its end; interrupted at the store it does not. *)
Lemma interrupt_ends_demo_witness :
  (exists d w1 n, demo_serving = Done d w1 /\ forall k, (n <= k)%nat ->
    ends (K := script) world0
      (Interrupt :: replicate k MainTurn ++ [StreamTurn; StreamTurn; MainTurn]) d w1) /\
  (exists d w1, demo_after [MainTurn] = Done d w1 /\ forall actions d' w',
    Demo.run (K := script) (Interrupt :: actions) d w1 = Done d' w' ->
    main_at d' <> Joining /\ main_at d' <> Exited).
Proof.
  split.
  - destruct (outcome_done demo_serving (fun d => serves d = true /\ main_at d = Dispatching [])
      demo_is_serving) as (d & w1 & Hd & Hv & Hm). exists d, w1.
    destruct (demo_after_reaches serving d w1) as (d0 & w0 & Hstart & Hr);
      [by repeat constructor|exact Hd|]. destruct (serves_live d Hv) as (v & Hg & Hs).
    pose proof (interrupt_ends_demo (K := script) [lit "8554"; lit "5004"] true true world0
      d0 w0 d w1 v Hstart Hr Hg Hs) as H. rewrite decide_False in H by congruence.
    destruct H as [n H]. exists n. split; [exact Hd|exact H].
  - destruct (outcome_done (demo_after [MainTurn]) (fun d => serves d = true /\ main_at d = Storing)
      demo_is_storing) as (d & w1 & Hd & Hv & Hm). exists d, w1. split; [exact Hd|].
    destruct (demo_after_reaches [MainTurn] d w1) as (d0 & w0 & Hstart & Hr);
      [by repeat constructor|exact Hd|]. destruct (serves_live d Hv) as (v & Hg & Hs).
    pose proof (interrupt_ends_demo (K := script) [lit "8554"; lit "5004"] true true world0
      d0 w0 d w1 v Hstart Hr Hg Hs) as H. by rewrite decide_True in H by done.
Defined.

(** Whatever comes next, the serving program only fails quietly. *)
Lemma demo_closes_everything_witness :
  exists d w1, demo_serving = Done d w1 /\
    forall a f, Demo.step (K := script) a d w1 = Fault f ->
      quiet_fault f \/ (a = Interrupt /\ main_at d = Exited).
Proof.
  destruct (outcome_done demo_serving (fun d => serves d = true /\ main_at d = Dispatching [])
    demo_is_serving) as (d & w1 & Hd & _). exists d, w1. split; [exact Hd|].
  destruct (demo_after_reaches serving d w1) as (d0 & w0 & Hstart & Hr);
    [by repeat constructor|exact Hd|].
  pose proof (demo_closes_everything (K := script) (Q := ring_buffer)
    [lit "8554"; lit "5004"] true true world0) as Hall. fold demo_start in Hall.
  rewrite Hstart in Hall. exact (proj2 (Hall d w1 Hr)).
Defined.
