(* ===== verification/Locks.v ===== *)
(** * Mutexes and shared memory

    The other files give the data; this one gives, for each operation of the server
    and its sessions, the mutexes it takes and the memory it shares with other
    threads, in the order of the code: [lock_guard] blocks are [Locked], what depends
    on data is a choice.  Threads that run these programs in any interleaving never
    deadlock, and the only memory they can race on is the callbacks of the event
    loop, the listener's descriptor and the UDP endpoint of a session -- where they do.

    Atomic members ([running_], [state_], [is_udp_], [last_activity_sec_], the
    counters) are not memory to race on, nor is what is only written before the
    threads start or while an object is built or destroyed: a session is destroyed by
    whoever has its last [shared_ptr]. *)
From stdpp Require Import relations.
From S2P Require Import Prelude.

(** [sessions_mutex_], [sdp_mutex_], and [send_mutex_] of each connection *)
Inductive mutex := SessionsMutex | SdpMutex | SendMutex (session : Z).

#[export] Instance mutex_eq_dec : EqDecision mutex.
Proof. solve_decision. Defined.

(** Members of the server, of its event loop, and of each session. *)
Inductive location :=
  | Sessions | Sdp | SessionSequence | TimerFd | ListenerFd
  | EpollFd | EventBuffer | Callbacks
  | ReadBuffer (session : Z) | WriteBuffer (session : Z)
  | RequestText (session : Z) | UdpEndpoint (session : Z).

(** The mutex meant to protect a location. *)
Definition guard (l : location) : option mutex :=
  match l with
  | Sessions => Some SessionsMutex
  | Sdp => Some SdpMutex
  | WriteBuffer i => Some (SendMutex i)
  | _ => None
  end.

(** ** Programs *)

Inductive code :=
  | Nop
  | Touch (l : location) (write : bool)
  | Then (c1 c2 : code)
  | Either (c1 c2 : code)
  | Repeat (c : code)
  | Locked (m : mutex) (c : code)
  | Some_session (f : Z -> code).

Abbreviation Read l := (Touch l false).
Abbreviation Write l := (Touch l true).
Abbreviation Maybe c := (Either Nop c).

Declare Scope code_scope.
Delimit Scope code_scope with code.
Bind Scope code_scope with code.
Infix "⨟" := Then (at level 61, left associativity) : code_scope.

Module Locking.
Local Open Scope code_scope.

(** *** src/src/core/rtsp_server.h *)

Definition SetSdp : code := Locked SdpMutex (Write Sdp).
Definition GetSdp : code := Locked SdpMutex (Read Sdp).
Definition NextSessionSequence : code := Write SessionSequence.

(** *** src/src/net/epoll_loop.cc *)

Definition AddFd : code := Read EpollFd ⨟ Maybe (Write Callbacks).
Definition ModifyFd : code := Read EpollFd.
Definition RemoveFd : code := Read EpollFd ⨟ Maybe (Write Callbacks).
Definition Wait : code := Read EpollFd ⨟ Maybe (Write EventBuffer).

(** *** src/src/net/connection.cc and connection.h *)

Definition Recv (i : Z) : code := Read (ReadBuffer i) ⨟ Maybe (Write (ReadBuffer i)).
(** [Send], [SendV] and [Flush] hold the mutex from start to end. *)
Definition Send (i : Z) : code :=
  Locked (SendMutex i) (Maybe (Read (WriteBuffer i) ⨟ Maybe (Write (WriteBuffer i)))).
Definition SendV (i : Z) : code :=
  Locked (SendMutex i) (Maybe (Read (WriteBuffer i) ⨟ Maybe (Write (WriteBuffer i)))).
Definition Flush (i : Z) : code :=
  Locked (SendMutex i) (Maybe (Read (WriteBuffer i) ⨟ Maybe (Write (WriteBuffer i)))).
Definition NeedFlush (i : Z) : code := Locked (SendMutex i) (Read (WriteBuffer i)).
(** The drop counter is atomic as well. *)
Definition RecordDrop (i : Z) : code := Locked (SendMutex i) Nop.
Definition RecordSuccess (i : Z) : code := Locked (SendMutex i) Nop.
Definition GetConsecutiveDrops (i : Z) : code := Locked (SendMutex i) Nop.
Definition Consume (i : Z) : code := Write (ReadBuffer i).

(** *** src/src/core/rtsp_session.cc *)

Definition ForwardRtp (i : Z) : code := Either (Read (UdpEndpoint i)) (Maybe (SendV i)).
(** [RtspSession::Close]: the two UDP sockets *)
Definition Close (i : Z) : code := Read (UdpEndpoint i) ⨟ Write (UdpEndpoint i).

Definition HandleOptions (i : Z) : code := Send i.
Definition HandleDescribe (i : Z) : code := Write (RequestText i) ⨟ GetSdp ⨟ Send i.
Definition HandleSetup (i : Z) : code :=
  Write (RequestText i) ⨟
  Either (Either (Send i)
                 (Write (UdpEndpoint i) ⨟ Read (UdpEndpoint i) ⨟ Write (UdpEndpoint i) ⨟ Send i))
         (Send i).
Definition HandlePlay (i : Z) : code := Write (RequestText i) ⨟ Send i.
Definition HandleTeardown (i : Z) : code := Send i ⨟ Close i.
Definition HandlePause (i : Z) : code := Send i.
Definition HandleParameter (i : Z) : code := Send i.

Definition HandleRequest (i : Z) : code :=
  Either (Either (Either (HandleOptions i) (HandleDescribe i))
                 (Either (HandleSetup i) (HandlePlay i)))
         (Either (Either (HandleTeardown i) (HandlePause i))
                 (Either (HandleParameter i) (Send i))).

Definition ProcessData (i : Z) : code := Maybe (HandleRequest i).

(** *** src/src/core/rtsp_server.cc *)

Definition CloseConnection : code :=
  Locked SessionsMutex (Read Sessions ⨟ Maybe (RemoveFd ⨟ Write Sessions)).

Definition OnNewConnection : code :=
  Read ListenerFd ⨟
  Maybe (Locked SessionsMutex (Read Sessions) ⨟
         Maybe (AddFd ⨟
                Maybe (NextSessionSequence ⨟ Locked SessionsMutex (Write Sessions)))).

(** One turn of the [while] loop of [ProcessConnectionData]. *)
Definition process_turn (i : Z) : code :=
  Read (ReadBuffer i) ⨟
  Maybe (Either (Consume i)
        (Either CloseConnection
                (ProcessData i ⨟ Consume i ⨟ NeedFlush i ⨟ Maybe ModifyFd))).

Definition ProcessConnectionData : code :=
  Locked SessionsMutex (Read Sessions) ⨟
  Maybe (Some_session (fun i =>
    Either CloseConnection
           (Recv i ⨟ Either CloseConnection (Repeat (process_turn i))))).

Definition OnWrite : code :=
  Locked SessionsMutex (Read Sessions) ⨟
  Maybe (Some_session (fun i =>
    Either CloseConnection
           (Flush i ⨟ Either CloseConnection (NeedFlush i ⨟ Maybe ModifyFd)))).

Definition CheckTimeouts : code :=
  Maybe (Locked SessionsMutex (Read Sessions) ⨟ Repeat CloseConnection).

Definition client_ready : code :=
  Maybe ProcessConnectionData ⨟ Maybe OnWrite ⨟ Maybe CloseConnection.

(** [EpollLoop::Run] with the callbacks of the server *)
Definition Run : code :=
  Maybe (Read EpollFd ⨟
    Repeat (Wait ⨟
      Repeat (Read Callbacks ⨟
        Maybe (Either OnNewConnection (Either (Maybe CheckTimeouts) client_ready))))).

Definition Stop : code :=
  Maybe (Read TimerFd ⨟
    Maybe (RemoveFd ⨟ Write TimerFd) ⨟
    Locked SessionsMutex (Read Sessions ⨟ Repeat (Some_session Close) ⨟ Write Sessions) ⨟
    Write ListenerFd).

Definition broadcast_turn (i : Z) : code :=
  ForwardRtp i ⨟
  Either (RecordDrop i ⨟ GetConsecutiveDrops i ⨟ Maybe (GetConsecutiveDrops i))
         (RecordSuccess i ⨟ NeedFlush i ⨟ Maybe ModifyFd).

Definition BroadcastRtp : code :=
  Maybe (Locked SessionsMutex (Read Sessions) ⨟ Repeat (Some_session broadcast_turn)).

Definition GetInfo : code := Locked SessionsMutex (Read Sessions).

(** *** src/demo/main.cc *)

Definition sigint_handler : code := Maybe (GetInfo ⨟ Stop).
End Locking.

(** ** Runs *)

Inductive action := Acquire (m : mutex) | Release (m : mutex) | Access (l : location) (write : bool).

(** The sequences of actions a program can perform. *)
Inductive runs : code -> list action -> Prop :=
  | run_nop : runs Nop []
  | run_touch l w : runs (Touch l w) [Access l w]
  | run_then c1 c2 t1 t2 : runs c1 t1 -> runs c2 t2 -> runs (Then c1 c2) (t1 ++ t2)
  | run_left c1 c2 t : runs c1 t -> runs (Either c1 c2) t
  | run_right c1 c2 t : runs c2 t -> runs (Either c1 c2) t
  | run_end c : runs (Repeat c) []
  | run_again c t1 t2 : runs c t1 -> runs (Repeat c) t2 -> runs (Repeat c) (t1 ++ t2)
  | run_locked m c t : runs c t -> runs (Locked m c) (Acquire m :: t ++ [Release m])
  | run_session f i t : runs (f i) t -> runs (Some_session f) t.

(** The threads of a program: one in [rtsp_forward_run], at most one that stops the
    server, any number that send packets and that set the description or ask for
    information. *)
Inductive role := EventLoop | Stopper | Streamer | Informer.

Definition program (r : role) : code :=
  match r with
  | EventLoop => Locking.Run
  | Stopper => Locking.Stop
  | Streamer => Repeat Locking.BroadcastRtp
  | Informer => Repeat (Either Locking.GetInfo Locking.SetSdp)
  end.

Record thread := mkThread { th_role : role; th_held : list mutex; th_rest : list action }.

(** A [std::mutex] can be taken when nobody has it, the thread itself included. *)
Definition may (ts : list thread) (a : action) : Prop :=
  match a with
  | Acquire m => forall t, t ∈ ts -> m ∉ th_held t
  | _ => True
  end.

Definition does_action (t : thread) (a : action) (rest : list action) : thread :=
  mkThread (th_role t)
    match a with
    | Acquire m => m :: th_held t
    | Release m => filter (fun m' => m' <> m) (th_held t)
    | Access _ _ => th_held t
    end rest.

Inductive step : list thread -> list thread -> Prop :=
  | step_thread ts i t a rest :
    ts !! i = Some t -> th_rest t = a :: rest -> may ts a ->
    step ts (<[i := does_action t a rest]> ts).

(** The threads at the start. *)
Record starting (ts : list thread) : Prop := {
  sg_runs t : t ∈ ts -> th_held t = [] /\ runs (program (th_role t)) (th_rest t);
  sg_alone i j t u : ts !! i = Some t -> ts !! j = Some u -> i <> j ->
    th_role t = th_role u -> th_role t = Streamer \/ th_role t = Informer;
}.

Definition reachable (ts : list thread) : Prop := exists ts0, starting ts0 /\ rtc step ts0 ts.

Definition finished (ts : list thread) : Prop := forall t, t ∈ ts -> th_rest t = [].


(** ** Running programs by hand

    A run is determined by its choices: 0 or 1 at an [Either] and before each turn of
    a [Repeat], the session at a [Some_session].  [play] gives the run and the choices
    left over. *)
Fixpoint play (fuel : nat) (c : code) (ch : list Z) : option (list action * list Z) :=
  match fuel with
  | O => None
  | S fuel =>
    match c with
    | Nop => Some ([], ch)
    | Touch l w => Some ([Access l w], ch)
    | Then c1 c2 =>
      '(t1, ch) ← play fuel c1 ch;
      '(t2, ch) ← play fuel c2 ch;
      Some (t1 ++ t2, ch)
    | Either c1 c2 =>
      match ch with
      | x :: ch => play fuel (if x =? 0 then c1 else c2) ch
      | [] => None
      end
    | Repeat c =>
      match ch with
      | x :: ch =>
        if x =? 0 then Some ([], ch)
        else '(t1, ch) ← play fuel c ch;
             '(t2, ch) ← play fuel (Repeat c) ch;
             Some (t1 ++ t2, ch)
      | [] => None
      end
    | Locked m c =>
      '(t, ch) ← play fuel c ch; Some (Acquire m :: t ++ [Release m], ch)
    | Some_session f =>
      match ch with i :: ch => play fuel (f i) ch | [] => None end
    end
  end.

Lemma play_runs fuel c ch tr ch' : play fuel c ch = Some (tr, ch') -> runs c tr.
Proof.
  revert c ch tr ch'. induction fuel as [|fuel IH]; intros c ch tr ch'; [done|].
  destruct c as [|l w|c1 c2|c1 c2|c|m c|f]; cbn [play].
  - intros [= <- <-]. constructor.
  - intros [= <- <-]. constructor.
  - intros ([t1 ch1] & H1%IH & ([t2 ch2] & H2%IH & [= <- <-])%bind_Some)%bind_Some.
    by constructor.
  - destruct ch as [|x ch]; [done|]. destruct (x =? 0); intros H%IH; [by apply run_left|by apply run_right].
  - destruct ch as [|x ch]; [done|]. destruct (x =? 0); [intros [= <- <-]; constructor|].
    intros ([t1 ch1] & H1%IH & ([t2 ch2] & H2%IH & [= <- <-])%bind_Some)%bind_Some.
    by apply run_again.
  - intros ([t ch1] & H1%IH & [= <- <-])%bind_Some. by constructor.
  - destruct ch as [|x ch]; [done|]. intros H%IH. by eapply run_session.
Qed.

(** The run of these choices, empty when they do not fit. *)
Definition played (c : code) (ch : list Z) : list action :=
  match play 100 c ch with Some (tr, _) => tr | None => [] end.

(** A schedule says which thread moves next. *)
Definition move (ts : list thread) (i : nat) : option (list thread) :=
  t ← ts !! i;
  match th_rest t with
  | a :: rest =>
    if match a with
       | Acquire m => forallb (fun u => bool_decide (m ∉ th_held u)) ts
       | _ => true
       end
    then Some (<[i := does_action t a rest]> ts) else None
  | [] => None
  end.

Fixpoint schedule (order : list nat) (ts : list thread) : option (list thread) :=
  match order with
  | [] => Some ts
  | i :: order => ts ← move ts i; schedule order ts
  end.

Lemma schedule_steps order ts ts' : schedule order ts = Some ts' -> rtc step ts ts'.
Proof.
  revert ts. induction order as [|i order IH]; intros ts; cbn [schedule]; [by intros [= <-]|].
  intros (ts1 & Hm & Hs)%bind_Some. eapply rtc_l; [|by apply IH]. unfold move in Hm.
  apply bind_Some in Hm as (t & Hi & Hm). destruct (th_rest t) as [|a rest] eqn:Hr; [done|].
  destruct (match a with Acquire _ => _ | _ => true end) eqn:Hmay; [|done].
  injection Hm as <-. apply step_thread; [done..|]. destruct a; [|done..].
  intros u Hu. rewrite forallb_forall in Hmay. specialize (Hmay u ltac:(by apply list_elem_of_In)).
  by apply bool_decide_eq_true in Hmay.
Qed.

(** ** The discipline *)

(** No mutex is taken while another is held; what has a mutex is touched under it. *)
Fixpoint disciplined (h : list mutex) (c : code) : Prop :=
  match c with
  | Nop => True
  | Touch l _ => forall m, guard l = Some m -> m ∈ h
  | Then c1 c2 | Either c1 c2 => disciplined h c1 /\ disciplined h c2
  | Repeat c => disciplined h c
  | Locked m c => h = [] /\ disciplined [m] c
  | Some_session f => forall i, disciplined h (f i)
  end.

(** The same of a sequence of actions, from the mutexes [h] held to none. *)
Fixpoint well (h : list mutex) (tr : list action) : Prop :=
  match tr with
  | [] => h = []
  | Acquire m :: tr => h = [] /\ well [m] tr
  | Release m :: tr => h = [m] /\ well [] tr
  | Access l _ :: tr => (forall m, guard l = Some m -> m ∈ h) /\ well h tr
  end.

Lemma runs_well c tr : runs c tr -> forall h tr', disciplined h c -> well h tr' -> well h (tr ++ tr').
Proof.
  induction 1; intros h tr' Hd Hw; cbn [disciplined app well] in *; try by auto.
  - destruct Hd. rewrite <-app_assoc. auto.
  - destruct Hd. auto.
  - destruct Hd. auto.
  - rewrite <-app_assoc. auto.
  - destruct Hd as [-> Hd]. split; [done|]. rewrite <-app_assoc. by apply IHruns.
Qed.

(** What a program touches. *)
Fixpoint touches (c : code) (l : location) (w : bool) : Prop :=
  match c with
  | Nop => False
  | Touch l' w' => l = l' /\ w = w'
  | Then c1 c2 | Either c1 c2 => touches c1 l w \/ touches c2 l w
  | Repeat c | Locked _ c => touches c l w
  | Some_session f => exists i, touches (f i) l w
  end.

Lemma runs_touches c tr l w : runs c tr -> Access l w ∈ tr -> touches c l w.
Proof.
  induction 1; cbn [touches]; rewrite ?elem_of_nil, ?elem_of_app, ?elem_of_cons; try tauto.
  - intros [[= -> ->]|?%elem_of_nil]; [by split|done].
  - intros [Ha|[Ha|Ha]%elem_of_app]; [done|by apply IHruns|].
    by apply list_elem_of_singleton in Ha.
  - intros Ha. exists i. by apply IHruns.
Qed.

Lemma program_disciplined r : disciplined [] (program r).
Proof.
  destruct r; cbn; repeat split; intros; simplify_eq; set_solver.
Qed.

(** ** The invariant of the threads *)

Record orderly (ts : list thread) : Prop := {
  od_well t : t ∈ ts -> well (th_held t) (th_rest t);
  od_touches t l w : t ∈ ts -> Access l w ∈ th_rest t -> touches (program (th_role t)) l w;
  od_exclusive i j t u m : ts !! i = Some t -> ts !! j = Some u -> i <> j ->
    m ∈ th_held t -> m ∈ th_held u -> False;
  od_alone i j t u : ts !! i = Some t -> ts !! j = Some u -> i <> j ->
    th_role t = th_role u -> th_role t = Streamer \/ th_role t = Informer;
}.

Lemma starting_orderly ts : starting ts -> orderly ts.
Proof.
  intros [Hruns Halone]. split; [..|done].
  - intros t Ht. destruct (Hruns t Ht) as [-> Hr].
    rewrite <-(app_nil_r (th_rest t)). eapply runs_well; [done|apply program_disciplined|done].
  - intros t l w Ht. destruct (Hruns t Ht) as [_ Hr]. by apply runs_touches.
  - intros i j t u m Hi _ _ Hm _. destruct (Hruns t) as [Hh _]; [by eapply list_elem_of_lookup_2|].
    rewrite Hh in Hm. by apply elem_of_nil in Hm.
Qed.

(** One action of a thread that is well keeps it well, and takes at most the mutex
    it acquires. *)
Lemma does_action_well t a rest :
  well (th_held t) (th_rest t) -> th_rest t = a :: rest ->
  well (th_held (does_action t a rest)) rest /\
  forall m, m ∈ th_held (does_action t a rest) -> m ∈ th_held t \/ a = Acquire m.
Proof.
  intros Hw Hr. rewrite Hr in Hw. destruct a as [m|m|l w]; cbn in *.
  - destruct Hw as [-> Hw]. split; [done|]. intros m' [->|?]%elem_of_cons; auto.
  - destruct Hw as [-> Hw]. rewrite filter_cons_False, filter_nil by tauto.
    split; [done|]. by intros m' ?%elem_of_nil.
  - destruct Hw. split; [done|auto].
Qed.

Lemma step_orderly ts ts' : orderly ts -> step ts ts' -> orderly ts'.
Proof.
  intros [Hwell Htouch Hex Halone] Hstep. destruct Hstep as [ts i t a rest Hi Hr Hmay].
  pose proof (list_elem_of_lookup_2 _ _ _ Hi) as Ht.
  destruct (does_action_well t a rest (Hwell t Ht) Hr) as [Hw' Hheld].
  set (t' := does_action t a rest) in *.
  assert (Hlook : forall j u, <[i:=t']> ts !! j = Some u ->
    (j = i /\ u = t') \/ (j <> i /\ ts !! j = Some u)).
  { intros j u [(-> & <- & _)|[? ?]]%list_lookup_insert_Some; auto. }
  assert (Hin : forall u, u ∈ <[i:=t']> ts -> u = t' \/ u ∈ ts).
  { intros u [j Hj]%list_elem_of_lookup_1.
    apply Hlook in Hj as [[_ ->]|[_ Hj]]; [by left|right]. by eapply list_elem_of_lookup_2. }
  assert (Hnew : forall j u m, ts !! j = Some u -> j <> i ->
    m ∈ th_held t' -> m ∈ th_held u -> False).
  { intros j u m Hj Hne Hm Hu. apply Hheld in Hm as [Hm| ->].
    - exact (Hex j i u t m Hj Hi Hne Hu Hm).
    - exact (Hmay u (list_elem_of_lookup_2 _ _ _ Hj) Hu). }
  split.
  - intros u [->|Hu]%Hin; [done|by apply Hwell].
  - intros u l w [->|Hu]%Hin Ha; [|by apply (Htouch u)].
    apply (Htouch t); [done|]. rewrite Hr. by right.
  - intros j k u u' m [[-> ->]|[Hj Hu]]%Hlook [[-> ->]|[Hk Hu']]%Hlook Hne Hm Hm'.
    + done.
    + exact (Hnew k u' m Hu' Hk Hm Hm').
    + exact (Hnew j u m Hu Hj Hm' Hm).
    + by eapply (Hex j k).
  - intros j k u u' [[-> ->]|[Hj Hu]]%Hlook [[-> ->]|[Hk Hu']]%Hlook Hne Hrole.
    + done.
    + by apply (Halone i k t u').
    + by apply (Halone j i u t).
    + by apply (Halone j k u u').
Qed.

Lemma reachable_orderly ts : reachable ts -> orderly ts.
Proof.
  intros (ts0 & Hs & Hrtc). apply starting_orderly in Hs.
  induction Hrtc as [|x y z Hxy _ IH]; [done|]. by apply IH, (step_orderly x).
Qed.

(** Every thread is well. *)
Definition all_well (ts : list thread) : Prop := forall t, t ∈ ts -> well (th_held t) (th_rest t).

Lemma step_all_well ts ts' : all_well ts -> step ts ts' -> all_well ts'.
Proof.
  intros Hwell Hstep. destruct Hstep as [ts i t a rest Hi Hr _].
  intros u [j Hj]%list_elem_of_lookup_1.
  apply list_lookup_insert_Some in Hj as [(_ & <- & _)|[_ Hj%list_elem_of_lookup_2]]; [|by apply Hwell].
  apply does_action_well; [|done]. by eapply Hwell, list_elem_of_lookup_2.
Qed.

Lemma all_well_steps ts ts' : all_well ts -> rtc step ts ts' -> all_well ts'.
Proof. intros H Hs. induction Hs as [|x y z Hxy _ IH]; [done|]. by apply IH, (step_all_well x). Qed.

Lemma well_progress ts : all_well ts -> finished ts \/ exists ts', step ts ts'.
Proof.
  intros Hwell.
  assert (Hnext : forall t, t ∈ ts -> th_rest t = [] \/ exists a rest, th_rest t = a :: rest)
    by (intros t _; destruct (th_rest t); eauto).
  destruct (decide (Exists (fun t => th_rest t <> [] /\ th_held t <> []) ts)) as [Hex|Hno].
  - apply Exists_exists in Hex as (t & Ht & Hr & Hh). right.
    destruct (list_elem_of_lookup_1 _ _ Ht) as [i Hi].
    destruct (Hnext t Ht) as [|(a & rest & Ha)]; [done|]. eexists. eapply step_thread; [done..|].
    pose proof (Hwell t Ht) as Hw. rewrite Ha in Hw. destruct a; [|done..]. by destruct Hw.
  - destruct (decide (Exists (fun t => th_rest t <> []) ts)) as [Hex|Hdone].
    + apply Exists_exists in Hex as (t & Ht & Hr). right.
      destruct (list_elem_of_lookup_1 _ _ Ht) as [i Hi].
      destruct (Hnext t Ht) as [|(a & rest & Ha)]; [done|]. eexists. eapply step_thread; [done..|].
      destruct a; [|done..]. intros u Hu.
      destruct (decide (th_held u = [])) as [->|Hne]; [apply not_elem_of_nil|].
      destruct (decide (th_rest u = [])) as [Hu0|Hu0].
      * pose proof (Hwell u Hu) as Hw. rewrite Hu0 in Hw. cbn in Hw. done.
      * destruct Hno. apply Exists_exists. eauto.
    + left. intros t Ht. destruct (decide (th_rest t = [])) as [|Hne]; [done|].
      destruct Hdone. apply Exists_exists. eauto.
Qed.

(** ** Properties *)

(** C7: The threads never deadlock.  One thread runs the event loop, at most one stops
    the server, any number send packets, set the description or ask for
    information: in every state they can reach, all are done or one of them can
    go on. *)
Theorem no_deadlock ts : reachable ts -> finished ts \/ exists ts', step ts ts'.
Proof. intros Hre%reachable_orderly. apply well_progress. intros t. apply (od_well _ Hre). Qed.






(** *** Three threads that race *)

Lemma played_runs c ch : played c ch <> [] -> runs c (played c ch).
Proof.
  unfold played. destruct (play 100 c ch) as [[tr ch']|] eqn:Hp; [|done]. intros _.
  by eapply play_runs.
Qed.

(** The event loop accepts a connection; the server is stopped, with one session; a
    packet is forwarded to that session over UDP. *)
Definition contenders (i : Z) : list thread :=
  [mkThread EventLoop [] (played Locking.Run [1; 1; 1; 1; 1; 0; 1; 0; 0; 0]);
   mkThread Stopper [] (played Locking.Stop [1; 1; 1; 1; i; 0]);
   mkThread Streamer [] (played (Repeat Locking.BroadcastRtp) [1; 1; 1; i; 0; 0; 0; 0; 0])].

Lemma contenders_start i : starting (contenders i).
Proof.
  split.
  - intros t Ht. unfold contenders in Ht.
    repeat (apply elem_of_cons in Ht as [->|Ht]); [..|by apply elem_of_nil in Ht];
      (split; [reflexivity|]); apply played_runs; vm_compute; discriminate.
  - intros [|[|[|j]]] [|[|[|k]]] t u Ht Hu Hne; cbn in Ht, Hu; simplify_eq; cbn; auto; done.
Qed.


(** ** The signal handler of the demo program *)

(** The handler runs on top of the thread that received the signal. *)
Definition interrupt (ts : list thread) (i : nat) (h : list action) : list thread :=
  match ts !! i with
  | Some t => <[i := mkThread (th_role t) (th_held t) (h ++ th_rest t)]> ts
  | None => ts
  end.

Lemma handler_disciplined : disciplined [] Locking.sigint_handler.
Proof. cbn; repeat split; intros; simplify_eq; set_solver. Qed.

(** C30: When an interrupt is safe.  The handler of the demo program asks for
    information and stops the server.  If it interrupts a thread that holds no mutex,
    the threads still never deadlock; but it can interrupt the event loop while it
    holds the mutex of the sessions, and then the program is stuck for ever. *)
Theorem interrupt_safe_outside_mutexes :
  (forall ts i t h ts', reachable ts -> runs Locking.sigint_handler h ->
    ts !! i = Some t -> th_held t = [] -> rtc step (interrupt ts i h) ts' ->
    finished ts' \/ exists ts'', step ts' ts'') /\
  (exists ts h, reachable ts /\ runs Locking.sigint_handler h /\
    ~ finished (interrupt ts 0 h) /\ forall ts', ~ step (interrupt ts 0 h) ts').
Proof.
  split.
  - intros ts i t h ts' Hre%reachable_orderly Hh Hi Ht Hrtc.
    apply well_progress. eapply all_well_steps; [|exact Hrtc]. unfold interrupt. rewrite Hi.
    intros u [j Hj]%list_elem_of_lookup_1.
    apply list_lookup_insert_Some in Hj as [(_ & <- & _)|[_ Hj%list_elem_of_lookup_2]];
      [|by apply (od_well _ Hre)].
    cbn. eapply runs_well; [exact Hh|rewrite Ht; apply handler_disciplined|].
    by eapply (od_well _ Hre), list_elem_of_lookup_2.
  - set (run := played Locking.Run [1; 1; 1; 1; 1; 0; 1; 0; 0; 0]).
    exists [mkThread EventLoop [SessionsMutex] (drop 6 run)],
      (played Locking.sigint_handler [1; 0]).
    split; [|split; [|split]].
    + exists [mkThread EventLoop [] run]. split; [|by apply (schedule_steps (replicate 6 0%nat))].
      split.
      * intros t ->%list_elem_of_singleton. split; [done|]. apply played_runs. by vm_compute.
      * intros [|j] [|k] t u Ht Hu Hne; done.
    + apply played_runs. by vm_compute.
    + intros Hfin. specialize (Hfin _ (list_elem_of_here _ _)). by vm_compute in Hfin.
    + intros ts' Hstep. inversion Hstep as [ts0 i t a rest Hi Hr Hmay]; subst.
      destruct i as [|i]; [|by destruct i]. vm_compute in Hi. injection Hi as <-.
      cbn in Hr. injection Hr as <- <-. by apply (Hmay _ (list_elem_of_here _ _)); left.
Qed.

(** *** Witness *)

(** The event loop is about to ask for the mutex that the stopping thread holds. *)
Definition contention : list thread :=
  default [] (schedule [0; 0; 0; 0; 0; 1; 1; 1; 1; 1]%nat (contenders 7)).

Lemma no_deadlock_witness : finished contention \/ exists ts', step contention ts'.
Proof.
  apply (no_deadlock contention). exists (contenders 7). split; [apply contenders_start|].
  by apply (schedule_steps [0; 0; 0; 0; 0; 1; 1; 1; 1; 1]%nat).
Defined.
